(* ===== verification/_CoqProject ===== *)
-Q . S2P
Prelude.v
Errors.v
NodeState.v
Taskmaster.v
TaskmasterFacts.v
TaskmasterWitness.v
Job.v
JobFacts.v
SerialFacts.v
PyStr.v
Util.v
NodeData.v
Executor.v
Node.v
NodeFacts.v
Walker.v
NodeWitness.v
Engine.v
EngineFacts.v
Cpp.v
CppFacts.v
Dblite.v
Shlex.v
ShlexFacts.v
Wire.v
Subst.v
SubstFacts.v
FSTree.v
FSTreeFacts.v
FSPathFacts.v
FSVariant.v
FSVariantFacts.v
Textwrap.v
TextwrapFacts.v
Md5.v
FileSig.v
FileSigFacts.v
Action.v
ActionFacts.v
CacheDir.v
CacheDirFacts.v
CacheTrip.v
Env.v
EnvFacts.v
EnvClone.v
EnvAppend.v
EnvOver.v
Flags.v
FlagsFacts.v
Builder.v
BuilderFacts.v
BuilderRun.v
BuilderWitness.v
Variables.v
VariablesFacts.v
VariableKinds.v
PathList.v
Scanner.v
ScannerFacts.v
Antglob.v
AntglobFacts.v
