(* ===== verification/Prelude.v ===== *)
(** * A verification library for the Python code of this repository

    The repository is a message queue server in C++ ([src/mq], [src/framework]);
    its Python code is the build engine SCons 1.3.0, vendored for JsonCpp under
    [src/framework/jsoncpp/scons-local-1.3.0/SCons] (all but a few thousand of
    the lines), and the clients that test the server
    ([src/framework/test/test_connectionmgr]).  The library models the core of
    the engine, the data structures and parsers it rests on, and the protocol
    of the clients, and with them the pattern compiler of JsonCpp's scripts.  Names
    of definitions are those of the source.

    ** Conventions

    A Python call is a value of [res] (it returns or raises), a call on mutable
    state one of [eff] (state in, state and [res] out: the mutations made before
    an exception are kept).  Objects compared by identity are numbers.  Loops
    whose end is not structural take fuel; [None] then means that the fuel was
    too small, and each such loop has a theorem that enough fuel gives a result.
    What a component asks of code outside the model (the file system, [eval],
    pickling, user actions, the other classes of nodes) is a field of a class
    or a section variable, and what is assumed of it is a hypothesis of the
    theorems that need it, which a concrete instance in a witness satisfies.

    ** Files

    - [Prelude]: [res], [eff], the predicates [keeps], [returns] and [runs] of
      calls with their hint database, and lemmas on loops, lists and runs.
    - [Errors] ([Errors.py]): exception classes, [convert_to_BuildError].
    - [NodeState] ([Node/__init__.py]): state, reference count and waiting sets of
      the nodes, with the invariant [ref_inv] (count = number of nodes waited for).
    - [Taskmaster], [TaskmasterFacts], [TaskmasterWitness] ([Taskmaster.py]): the
      task master over the interface [NodeWorld]: the search for a ready node
      ([find_next_ready_node] is [_find_next_ready_node]), the life of a task
      (prepare, execute, executed, failed, make_ready, postprocess), failure
      ([will_not_build], [stop]) and cycles ([find_cycle], [cleanup]).
    - [Job], [JobFacts] ([Job.py]): serial and parallel builds as step relations
      in which the main thread, the workers and the signal handler interleave,
      and [Serial_start], the serial loop as a function.
    - [SerialFacts]: the composition of both: a whole serial build.
    - [PyStr], [Util] ([Util.py]): texts; removal of duplicates, search paths,
      ordered dictionaries.
    - [NodeData], [Executor], [Node], [NodeFacts], [NodeWitness]
      ([Node/__init__.py], [Executor.py]): children lists and their memos,
      executors with batches, scanning, build information, [changed]; the code
      they call is behind [DepTypes] and [DepWorld].
    - [Engine], [EngineFacts]: the interface [NodeWorld] of the task master
      implemented by nodes and executors, and the whole build of a project.
    - [Walker] ([Walker] of [Node/__init__.py]): the iterator against a recursive
      post-order.
    - [Cpp], [CppFacts] ([cpp.py]): the C preprocessor of the scanners.
    - [Dblite] ([dblite.py]): the signature database and its crash safety.
    - [Shlex], [ShlexFacts] ([compat/_scons_shlex.py]): the shell lexer.
    - [Wire] ([msgfactory.py], [msg.py], [translator.py], [network.py] of the test
      clients): frames on a stream.
    - [Subst], [SubstFacts] ([Subst.py]): expansion of construction variables.
    - [Env], [EnvFacts], [EnvClone], [EnvAppend], [EnvOver] ([Environment.py]):
      construction environments over a store of shared objects: adding to
      variables, copies, overrides; [framed] is what an operation may touch,
      [separate] two environments without a common object, [holds] contents.
    - [Flags], [FlagsFacts] ([Environment.py]): [ParseFlags], and [MergeFlags] with it.
    - [Builder], [BuilderFacts], [BuilderRun], [BuilderWitness] ([Builder.py]): calls
      of builders, from names to nodes with a builder, sources and an executor of
      [Executor]; environments and user functions are behind [BuildEnv].
    - [Variables], [VariablesFacts], [VariableKinds] ([Variables/*.py]): declared
      variables, [Update] and [Save], and the kinds that come with the engine.
    - [PathList] ([PathList.py]), [Scanner], [ScannerFacts] ([Scanner/__init__.py],
      [FileFinder] of [Node/FS.py]): search paths, scans of files for includes.
    - [Antglob], [AntglobFacts] ([devtools/antglob.py] of JsonCpp): patterns for paths.
    - [FSTree], [FSTreeFacts], [FSPathFacts] ([Node/FS.py]): the tree of file system
      nodes: look-up by path in one table, creation, change of class, relative
      paths; [sound] is what every look-up promises ([tree_inv] is kept, and
      what exists only changes in ways [extends] allows).
    - [FSVariant], [FSVariantFacts] ([Node/FS.py]): variant directories and
      repositories, the caches of source directories and when they are dropped.
    - [Md5], [FileSig], [FileSigFacts] ([Node/FS.py], [SConsign.py], [Util.py]): the
      digests of [hashlib] written out, the time stamp, size and signature of a
      file with their memos, the decision functions, and what one run stores for
      the next; [good] is kept by every handler, [runs] is the triple of calls.
    - [Action], [ActionFacts] ([Action.py]): what [Action()] makes of its argument,
      and the calls of commands, functions, lists, generators and construction
      variables in a world that is the class [ActionWorld].
    - [CacheDir], [CacheDirFacts], [CacheTrip] ([CacheDir.py]): the cache of derived
      files as programs of single file system operations, alone or interleaved;
      [wp] says what one program may do, [sys_inv] what holds of all of them;
      [cache_world] is an [ActionWorld].
    - [Textwrap], [TextwrapFacts] ([compat/_scons_textwrap.py]): wrapping of text.
    ** Theorems

    Composition: a serial build of a finite graph without cycles ends with every
    target finished, and at every point of it what has been handed out had all that
    it depends on finished before (SerialFacts); the nodes and executors are a
    world in which this holds when every action succeeds, no source is missing and
    no implicit dependency is taken from a stored list (EngineFacts).  Search: a node
    handed out is ready, the search ends, reference counts stay exact; success
    wakes parents, failure fails everything above and stops the walk; [cleanup]
    reports exactly the cycles.  Parallel: [jobs] is the number of tasks in
    flight, no deadlock, no new task after a signal.  Dependencies: memoised
    lists are current, scans find the reachable includes, build information is
    aligned with the children, [changed] holds exactly when something changed;
    with [implicit_cache] a list can be stale ([implicit_cache_stale]), so what is
    current is shown without it.
    Components: refinement of the preprocessor to a structured reading, round
    trips (lexer, database, frames, escaped command lines), the end of
    expansions of variables whose expressions and callables give texts of
    bounded depth ([expression_never_ends] shows one that does not), crash safety, equivalence with reference
    definitions (walker, search paths, duplicates).  File system: one node for
    each normal path whatever is looked up in between, the class of a node
    stays, relative paths lead back but for the exceptions that the theorem lists, cached
    source directories are current after any links for names that do not begin with
    a hash sign.  Signatures: what is taken for the signature of a
    file is the digest of its contents, or a stored one exactly when time stamps allow it,
    and a run whose stored information is trusted stores what makes the next one
    notice exactly the edited files.  Actions: the directory is restored after a
    change that the action's option makes, [-n] executes nothing, commands run up to the first that fails,
    which functions fail.  Cache: whatever is interleaved or breaks off, its files
    are whole while process numbers tell the builds apart; what is pushed comes back; [-n] retrieves nothing.
    Environments: a clone and its original never share what an operation
    changes; [Append] and its relatives refine functions on contents; writes
    through an override stay there; flags of a command line are sorted into
    their variables.  Builders: a call that returns has set up all its targets, a
    second way to build a target is refused, the suffixes a builder takes are those
    of the builders that can make its sources, whatever was memoised.  Variables: the
    command line goes before files and files before defaults, what is saved of the
    kinds of variables in [kept] is read back.  Scanners and search paths: the same result whatever was searched
    before.  Patterns: the compiled expression means the pattern.  Text wrapper:
    bounds on the lines, no word lost.

    ** Bounds and fuel

    [find_next_ready_node]: the lexicographic measure of top targets and
    unvisited nodes on a closed finite set; [will_not_build]: nodes to visit and
    waiting parents, computed in the definition; [find_cycle]: one more than the
    nodes; [implicit_deps_loop]: nodes times the longest list of includes;
    [shlex]: the length of the text; [Serial_start]: one unit for each task and
    those of the searches; [substitute]: a multiple of the variables that are
    not empty and of the depth of their values; look-up: the length of the path;
    search for a file: the length of its name; pattern: its length; climbs in
    the tree: the depth of the node; caches of a subtree: the number of nodes;
    frames: the bytes asked for, sizes below [2^32].
    [src_suffixes] and [_execute] take the limit on recursion of Python, which is
    part of what the code does: without a cycle of builders a bound above the
    length of their chains is enough.

    ** Not modelled

    Tracing and statistics of the task master (off in the source);
    [KeyboardInterrupt], which the engine turns into a signal handler; the order
    in which sets are iterated is the parameter [Orders], that in which dictionaries
    are, the parameter [DictOrder].  Exceptions of [disambiguate], [built] and
    [visited] do not reach the task master's walk; file system calls of these
    methods could raise them.  Lists that Python
    shares between a node and its build information are copied when the
    information is made; modes and owners of files have no effect on contents;
    arguments of the wrong type (a [TypeError] of the caller) are excluded by
    types.  The attribute [_calculated_sig] of a node is not kept, and
    [includes] only in the state of a scan; the lexer's inclusion of sources is off as in its constructor.  The
    wake-up of waiters on side effects is modelled as written, and a run shows
    that it is lost (TaskmasterWitness); whole builds are therefore shown without
    side effects.  Of the file system nodes the tree on POSIX is modelled; the
    signatures of files are taken of what [rfile] reaches on the disk, which is a
    parameter; copying between directories, globbing and the local file system
    are left to the interfaces, as are the contents of actions for signatures, the
    scanners of single languages, tools and the command line: they are operating
    system calls, data or glue; the manifest lists them with reasons.  Of
    environments the constructor, deciders, added methods and the attributes
    named after builders are left out, and so are the methods that only call
    other components; the order of the entries of a dictionary is that of their
    insertion.
    Functions of users act on the world of an action and on the current directory;
    nothing else of the process (its environment, open files) is there for them to
    change.  Scanners take a path that is a list, not a function, and read a disk
    that stays as it is while they scan.
    Of saved variables the file is its assignments, the texts of help are left
    out.  Of builders the factory that sorts keyword arguments, their names and working
    directories are left out.  The C++ code is out of scope. *)

From stdpp Require Export gmap strings list fin_maps sorting pretty.

(** ** Python results

    A Python call either returns a value or leaves by an exception; the
    exception type is a parameter, so that each component names its own. *)
Inductive res (E A : Type) : Type :=
| Ok (a : A)
| Raise (e : E).
Arguments Ok {E A} a.
Arguments Raise {E A} e.

Definition rbind {E A B} (m : res E A) (k : A → res E B) : res E B :=
  match m with
  | Ok a => k a
  | Raise e => Raise e
  end.

(** [map(f, l)], an exception leaving the loop. *)
Fixpoint rmap {E A B} (f : A → res E B) (l : list A) : res E (list B) :=
  match l with
  | [] => Ok []
  | x :: l => rbind (f x) (λ y, rbind (rmap f l) (λ ys, Ok (y :: ys)))
  end.

Declare Scope res_scope.
Delimit Scope res_scope with res.
Notation "'let?' x ':=' m 'in' k" := (rbind m (λ x, k))
  (at level 10, x pattern, m at level 100, k at level 200) : res_scope.

(** A call on mutable state: the state reached is kept when an exception
    leaves the call, as Python keeps the mutations already made. *)
Definition eff (S E A : Type) : Type := S → S * res E A.

Definition eret {S E A} (a : A) : eff S E A := λ s, (s, Ok a).
Definition eraise {S E A} (e : E) : eff S E A := λ s, (s, Raise e).
Definition ebind {S E A B} (m : eff S E A) (k : A → eff S E B) : eff S E B :=
  λ s, match m s with
       | (s', Ok a) => k a s'
       | (s', Raise e) => (s', Raise e)
       end.
Definition emod {S E} (f : S → S) : eff S E unit := λ s, (f s, Ok tt).
Definition eget {S E A} (f : S → A) : eff S E A := λ s, (s, Ok (f s)).
(** [try m except e: h e]. *)
Definition ecatch {S E A} (m : eff S E A) (h : E → eff S E A) : eff S E A :=
  λ s, match m s with
       | (s', Ok a) => (s', Ok a)
       | (s', Raise e) => h e s'
       end.
(** [for x in l: f x], an exception leaving the loop. *)
Fixpoint efor {S E A} (l : list A) (f : A → eff S E unit) : eff S E unit :=
  match l with
  | [] => eret tt
  | x :: l => ebind (f x) (λ _, efor l f)
  end.

(** [map(f, l)] on mutable state. *)
Fixpoint emap {S E A B} (f : A → eff S E B) (l : list A) : eff S E (list B) :=
  match l with
  | [] => eret []
  | x :: l => ebind (f x) (λ y, ebind (emap f l) (λ ys, eret (y :: ys)))
  end.

Declare Scope eff_scope.
Delimit Scope eff_scope with eff.
Notation "'let!' x ':=' m 'in' k" := (ebind m (λ x, k))
  (at level 10, x pattern, m at level 100, k at level 200) : eff_scope.
Notation "m ';;;' k" := (ebind m (λ _, k))
  (at level 199, right associativity) : eff_scope.

(** ** Predicates kept by a call *)

(** Every run of the call from a state of [P] ends in a state of [P]. *)
Definition keeps {S E A} (P : S → Prop) (m : eff S E A) : Prop :=
  ∀ s, P s → P (m s).1.

Create HintDb eff.

Section keeps.
Context {S E A B : Type} (P : S → Prop).

Lemma keeps_ret (a : A) : keeps P (eret (E:=E) a).
Proof. intros s Hs. exact Hs. Qed.
Lemma keeps_raise (e : E) : keeps P (eraise (A:=A) e).
Proof. intros s Hs. exact Hs. Qed.
Lemma keeps_get (f : S → A) : keeps P (eget (E:=E) f).
Proof. intros s Hs. exact Hs. Qed.
Lemma keeps_mod (f : S → S) : (∀ s, P s → P (f s)) → keeps P (emod (E:=E) f).
Proof. intros Hf s. apply Hf. Qed.
Lemma keeps_bind (m : eff S E A) (k : A → eff S E B) :
  keeps P m → (∀ a, keeps P (k a)) → keeps P (ebind m k).
Proof.
  intros Hm Hk s Hs. unfold ebind. specialize (Hm s Hs).
  destruct (m s) as [s' [a|e]]; [by apply Hk|done].
Qed.
Lemma keeps_catch (m : eff S E A) (h : E → eff S E A) :
  keeps P m → (∀ e, keeps P (h e)) → keeps P (ecatch m h).
Proof.
  intros Hm Hh s Hs. unfold ecatch. specialize (Hm s Hs).
  destruct (m s) as [s' [a|e]]; [done|by apply Hh].
Qed.
Lemma keeps_for (l : list A) (f : A → eff S E unit) :
  (∀ a, keeps P (f a)) → keeps P (efor l f).
Proof.
  intros Hf. induction l as [|a l IH]; [intros s Hs; exact Hs|].
  intros s Hs. unfold efor, ebind. specialize (Hf a s Hs).
  destruct (f a s) as [s' [?|?]]; [by apply IH|done].
Qed.
End keeps.
#[export] Hint Resolve keeps_ret keeps_raise keeps_get keeps_mod keeps_bind
  keeps_catch keeps_for : eff.

(** ** Calls that return *)

(** From every state of [P] the call returns, and in a state of [P]. *)
Definition returns {S E A} (P : S → Prop) (m : eff S E A) : Prop :=
  ∀ s, P s → ∃ s' a, m s = (s', Ok a) ∧ P s'.

Section returns.
Context {S E A B : Type} (P : S → Prop).

Lemma returns_ret (a : A) : returns P (eret (E:=E) a).
Proof. intros s Hs. by exists s, a. Qed.
Lemma returns_get (f : S → A) : returns P (eget (E:=E) f).
Proof. intros s Hs. by exists s, (f s). Qed.
Lemma returns_mod (f : S → S) : (∀ s, P s → P (f s)) → returns P (emod (E:=E) f).
Proof. intros Hf s Hs. exists (f s), tt. split; [done|by apply Hf]. Qed.
Lemma returns_bind (m : eff S E A) (k : A → eff S E B) :
  returns P m → (∀ a, returns P (k a)) → returns P (ebind m k).
Proof.
  intros Hm Hk s Hs. unfold ebind. destruct (Hm s Hs) as (s' & a & -> & Hs').
  by apply Hk.
Qed.
Lemma returns_catch (m : eff S E A) (h : E → eff S E A) :
  returns P m → returns P (ecatch m h).
Proof.
  intros Hm s Hs. unfold ecatch. destruct (Hm s Hs) as (s' & a & -> & Hs'). by exists s', a.
Qed.
Lemma returns_for (l : list A) (f : A → eff S E unit) :
  (∀ a, returns P (f a)) → returns P (efor l f).
Proof.
  intros Hf. induction l as [|a l IH]; [intros s Hs; by exists s, tt|].
  intros s Hs. unfold efor, ebind. destruct (Hf a s Hs) as (s' & u & -> & Hs').
  by apply IH.
Qed.
End returns.
#[export] Hint Resolve returns_ret returns_get returns_mod returns_bind
  returns_catch returns_for : eff.

(** ** Triples

    From every state of [P] the call returns a value and a state that [Q]
    relates. *)
Definition runs {S E A} (P : S → Prop) (m : eff S E A) (Q : A → S → Prop) : Prop :=
  ∀ s, P s → ∃ s' a, m s = (s', Ok a) ∧ Q a s'.

Section runs.
Context {S E A B : Type} (P : S → Prop).

Lemma runs_ret (a : A) (Q : A → S → Prop) : (∀ s, P s → Q a s) → runs P (eret (E:=E) a) Q.
Proof. intros HQ s Hs. exists s, a. auto. Qed.
Lemma runs_mod (f : S → S) (Q : unit → S → Prop) :
  (∀ s, P s → Q tt (f s)) → runs P (emod (E:=E) f) Q.
Proof. intros HQ s Hs. exists (f s), tt. auto. Qed.
Lemma runs_bind (m : eff S E A) (k : A → eff S E B) (R : A → S → Prop) (Q : B → S → Prop) :
  runs P m R → (∀ a, runs (R a) (k a) Q) → runs P (ebind m k) Q.
Proof.
  intros Hm Hk s Hs. unfold ebind. destruct (Hm s Hs) as (s' & a & -> & Hs').
  by apply (Hk a).
Qed.
Lemma runs_catch (m : eff S E A) (h : E → eff S E A) (Q : A → S → Prop) :
  runs P m Q → runs P (ecatch m h) Q.
Proof.
  intros Hm s Hs. unfold ecatch. destruct (Hm s Hs) as (s' & a & -> & Hs'). by exists s', a.
Qed.
Lemma runs_mono (m : eff S E A) (Q Q' : A → S → Prop) :
  runs P m Q → (∀ a s, Q a s → Q' a s) → runs P m Q'.
Proof. intros Hm HQ s Hs. destruct (Hm s Hs) as (s' & a & E' & H). exists s', a. auto. Qed.
Lemma runs_pre (P' : S → Prop) (m : eff S E A) (Q : A → S → Prop) :
  (∀ s, P' s → P s) → runs P m Q → runs P' m Q.
Proof. intros HP Hm s Hs. auto. Qed.
(** A fact that does not depend on the state. *)
Lemma runs_pure (F : Prop) (m : eff S E A) (Q : A → S → Prop) :
  (F → runs P m Q) → runs (λ s, P s ∧ F) m Q.
Proof. intros Hm s [Hs HF]. by apply Hm. Qed.
End runs.

(** ** Loops over lists *)

(** A loop of updates that each keep a quantity keeps it. *)
Lemma foldl_inv {A B C} (π : A → C) (f : A → B → A) l a :
  (∀ a b, π (f a b) = π a) → π (foldl f a l) = π a.
Proof.
  intros Hf. revert a. induction l as [|b l IH]; intros a; simpl; [done|].
  by rewrite IH, Hf.
Qed.

(** The same for a predicate. *)
Lemma foldl_pred {A B} (P : A → Prop) (f : A → B → A) l a :
  (∀ a b, b ∈ l → P a → P (f a b)) → P a → P (foldl f a l).
Proof.
  revert a. induction l as [|b l IH]; intros a Hf Ha; simpl; [done|].
  apply IH; [|by apply Hf; [left|]]. intros a' b' Hb'. apply Hf. by right.
Qed.

(** Counting in a list updated at one position. *)
Lemma length_filter_insert {A} (P : A → Prop) `{!∀ x, Decision (P x)}
    (l : list A) k x y :
  l !! k = Some x →
  (length (filter P (<[k := y]> l)) + (if decide (P x) then 1 else 0) =
   length (filter P l) + (if decide (P y) then 1 else 0))%nat.
Proof.
  intros Hk. rewrite <- (take_drop_middle l k x Hk) at 2.
  rewrite insert_take_drop by by eapply lookup_lt_Some.
  rewrite !filter_app, !filter_cons, !length_app.
  repeat case_decide; simpl; lia.
Qed.

(** ** Runs of a step relation *)
Section steps.
Context {A : Type} (R : relation A) (P : A → Prop).

(** An invariant of every step is an invariant of every run. *)
Lemma rtc_invariant x y :
  (∀ a b, P a → R a b → P b) → rtc R x y → P x → P y.
Proof. intros HR Hxy. induction Hxy; eauto. Qed.
End steps.
