(* ===== verification/Errors.v ===== *)
(** * The exceptions of the engine ([SCons/Errors.py])

    The exception classes the engine raises and catches, [BuildError.__init__]
    and [__str__], and the normalisation of any exception, string or return
    code to a [BuildError] ([convert_to_BuildError]). *)

From S2P Require Import Prelude.
Open Scope Z_scope.

(** Nodes are objects compared by identity. *)
Definition nid : Type := nat.

(** The node of an error: a node, or the list of targets of an executor. *)
Inductive node_arg := ANode (n : nid) | ANodes (l : list nid).

(** A status is the return code of an action; a raised object that is not an
    [Exception] instance is stored as it is, here by its class name. *)
Inductive status_value :=
| StatusInt (z : Z)
| StatusObj (cls : string).

(** [class BuildError]: the attributes set by [__init__].  [be_exc_info] is
    the class of the exception that caused the error, [None] for the triple
    [(None, None, None)]; executors and actions are named by identity. *)
Record build_error := BuildError {
  be_node : option node_arg;
  be_errstr : string;
  be_status : status_value;
  be_exitstatus : status_value;
  be_filename : option string;
  be_executor : option nat;
  be_action : option nat;
  be_command : option string;
  be_exc_info : option string
}.

(** The keyword arguments every caller in the engine leaves at their default. *)
Definition BuildError_init (node : option node_arg) (errstr : string)
    (status exitstatus : status_value) (filename : option string)
    (exc_info : option string) : build_error :=
  BuildError node errstr status exitstatus filename None None None exc_info.

(** The exception objects.  [ExEnvironmentError] is Python's own
    [EnvironmentError] ([IOError], [OSError]); [ExSystemExit] is not an
    instance of [Exception]; [ExOther] is any other [Exception] instance, with
    its class name and its text.  [KeyboardInterrupt] does not occur: the
    engine runs with a handler of its own for the interrupt signals
    ([Job._setup_sig_handler]). *)
Inductive exn :=
| ExBuildError (b : build_error)
| ExUserError (msg : string)
| ExStopError (msg : string)
| ExExplicitExit (node : option nid) (status : Z)
| ExEnvironmentError (cls : string) (errno : Z) (strerror : string)
    (filename : option string)
| ExSystemExit (code : Z)
| ExOther (cls : string) (msg : string).

Definition is_Exception (e : exn) : bool :=
  match e with ExSystemExit _ => false | _ => true end.

Definition class_name (e : exn) : string :=
  match e with
  | ExBuildError _ => "BuildError"
  | ExUserError _ => "UserError"
  | ExStopError _ => "StopError"
  | ExExplicitExit _ _ => "ExplicitExit"
  | ExEnvironmentError c _ _ _ => c
  | ExSystemExit _ => "SystemExit"
  | ExOther c _ => c
  end.

(** [BuildError.__str__]; an empty file name is false. *)
Definition BuildError_str (b : build_error) : string :=
  match be_filename b with
  | Some f => if decide (f = "") then be_errstr b
              else (f +:+ ": " +:+ be_errstr b)
  | None => be_errstr b
  end.

(** The argument of [convert_to_BuildError]. *)
Inductive status_arg :=
| ArgExn (e : exn)
| ArgString (s : string)
| ArgCode (z : Z).

Definition convert_to_BuildError (status : status_arg)
    (exc_info : option string) : build_error :=
  let exc_info :=
    match exc_info, status with
    | None, ArgExn e => if is_Exception e then Some (class_name e) else None
    | _, _ => exc_info
    end in
  match status with
  | ArgExn (ExBuildError b) =>
      BuildError (be_node b) (be_errstr b) (be_status b) (StatusInt 2)
        (be_filename b) (be_executor b) (be_action b) (be_command b)
        (be_exc_info b)
  | ArgExn (ExExplicitExit _ st) =>
      BuildError_init None ("Explicit exit, status " +:+ pretty st)
        (StatusInt st) (StatusInt st) None exc_info
  | ArgExn (ExStopError msg) | ArgExn (ExUserError msg) =>
      BuildError_init None msg (StatusInt 2) (StatusInt 2) None exc_info
  | ArgExn (ExEnvironmentError _ errno strerror filename) =>
      BuildError_init None strerror (StatusInt errno) (StatusInt 2)
        filename exc_info
  | ArgExn (ExOther cls msg) =>
      BuildError_init None (cls +:+ " : " +:+ msg) (StatusInt 2)
        (StatusInt 2) None exc_info
  | ArgString s =>
      BuildError_init None s (StatusInt 2) (StatusInt 2) None None
  | ArgExn (ExSystemExit code) =>
      BuildError_init None ("Error " +:+ pretty code)
        (StatusObj "SystemExit") (StatusInt 2) None None
  | ArgCode z =>
      BuildError_init None ("Error " +:+ pretty z) (StatusInt z)
        (StatusInt 2) None None
  end.

(** ** Properties *)

(** Whatever is converted, the exit status of the process is 2, except
    for an explicit exit, whose status is kept; and converting the resulting
    build error again changes nothing but that exit status. *)
Theorem convert_to_BuildError_normal a i j :
  let b := convert_to_BuildError a i in
  be_exitstatus b =
    match a with ArgExn (ExExplicitExit _ st) => StatusInt st | _ => StatusInt 2 end ∧
  convert_to_BuildError (ArgExn (ExBuildError b)) j =
    BuildError (be_node b) (be_errstr b) (be_status b) (StatusInt 2)
      (be_filename b) (be_executor b) (be_action b) (be_command b) (be_exc_info b) ∧
  (be_exitstatus b = StatusInt 2 →
   convert_to_BuildError (ArgExn (ExBuildError b)) j = b).
Proof.
  intros b. subst b. destruct a as [[]| |]; simpl; split_and!; try done;
    intros E; rewrite ?E; try done; by destruct b.
Qed.

(** An error that came from an exception records which class caused it. *)
Lemma convert_exc_info e i :
  is_Exception e = true →
  match e with ExBuildError _ => True | _ =>
    be_exc_info (convert_to_BuildError (ArgExn e) i) =
      Some (default (class_name e) i)
  end.
Proof. by destruct e; destruct i. Qed.
