(* ===== verification/NodeState.v ===== *)
(** * Scheduling state of the nodes ([SCons/Node/__init__.py])

    The attributes of a Node that the build engine itself reads and writes
    while it walks the dependency graph: the state, the reference count, the
    set of parents waiting for the node and the set of nodes waiting for it
    as a side effect.  The remaining attributes of a Node (sources,
    dependencies, builder, build information) are behind the interface
    [NodeWorld] of [Taskmaster.v]. *)

From S2P Require Import Prelude Errors.
Open Scope Z_scope.

(** The six states, "in priority order". *)
Inductive nstate := no_state | pending | executing | up_to_date | executed | failed.

#[export] Instance nstate_eq_dec : EqDecision nstate.
Proof. solve_decision. Defined.

Definition nstate_val (s : nstate) : Z :=
  match s with
  | no_state => 0 | pending => 1 | executing => 2
  | up_to_date => 3 | executed => 4 | failed => 5
  end.

Definition StateString (s : nstate) : string :=
  match s with
  | no_state => "no_state" | pending => "pending" | executing => "executing"
  | up_to_date => "up_to_date" | executed => "executed" | failed => "failed"
  end.

(** [Node.__init__], the part of the attributes modelled here. *)
Record tnode := TNode {
  state : nstate;
  ref_count : Z;
  waiting_parents : gset nid;
  waiting_s_e : gset nid
}.

Definition tnode_init : tnode := TNode no_state 0 ∅ ∅.

(** The nodes by identity; a node never touched is in its initial state. *)
Abbreviation nodes := (gmap nid tnode).

Definition get (m : nodes) (n : nid) : tnode := default tnode_init (m !! n).
Definition upd (n : nid) (f : tnode → tnode) (m : nodes) : nodes :=
  <[n := f (get m n)]> m.

Definition get_state (m : nodes) (n : nid) : nstate := state (get m n).

Definition set_state (st : nstate) (n : nid) : nodes → nodes :=
  upd n (λ t, TNode st (ref_count t) (waiting_parents t) (waiting_s_e t)).

Definition set_ref_count (z : Z) (n : nid) : nodes → nodes :=
  upd n (λ t, TNode (state t) z (waiting_parents t) (waiting_s_e t)).

Definition set_waiting_parents (w : gset nid) (n : nid) : nodes → nodes :=
  upd n (λ t, TNode (state t) (ref_count t) w (waiting_s_e t)).

(** [p.ref_count = p.ref_count + d] *)
Definition add_ref_count (d : Z) (p : nid) (m : nodes) : nodes :=
  set_ref_count (ref_count (get m p) + d) p m.

Definition add_to_waiting_s_e (self node : nid) : nodes → nodes :=
  upd self (λ t, TNode (state t) (ref_count t) (waiting_parents t)
                   ({[node]} ∪ waiting_s_e t)).

(** Returns the number of waiting parents added, 1 or 0. *)
Definition add_to_waiting_parents (self node : nid) (m : nodes) : nodes * Z :=
  let wp := waiting_parents (get m self) in
  if decide (node ∈ wp) then (m, 0)
  else (set_waiting_parents ({[node]} ∪ wp) self m, 1).

(** ** Reference counts

    [nwait m p] is the number of nodes whose [waiting_parents] holds [p]. *)
Definition nwait (m : nodes) (p : nid) : nat :=
  size (filter (λ ct : nid * tnode, p ∈ waiting_parents ct.2) m).

(** The reference count of every node is the number of nodes it waits for. *)
Definition ref_inv (m : nodes) : Prop :=
  ∀ p, ref_count (get m p) = Z.of_nat (nwait m p).

(** The contribution of one node. *)
Definition waits (w : gset nid) (p : nid) : nat := if decide (p ∈ w) then 1 else 0.

(** ** Lookup lemmas *)

Lemma get_upd_eq n f m : get (upd n f m) n = f (get m n).
Proof. unfold get, upd. by rewrite lookup_insert_eq. Qed.

Lemma get_upd_ne n n' f m : n ≠ n' → get (upd n f m) n' = get m n'.
Proof. intros. unfold get, upd. by rewrite lookup_insert_ne. Qed.

Lemma get_upd n n' f m :
  get (upd n f m) n' = if decide (n = n') then f (get m n) else get m n'.
Proof. case_decide; subst; [apply get_upd_eq|by apply get_upd_ne]. Qed.

(** A field that an update does not touch keeps its value in every node. *)
Lemma get_upd_field {A} (π : tnode → A) n n' f m :
  (∀ t, π (f t) = π t) → π (get (upd n f m) n') = π (get m n').
Proof. intros Hf. rewrite get_upd. case_decide; subst; auto. Qed.

Lemma get_state_set_state st n n' m :
  get_state (set_state st n m) n' = if decide (n = n') then st else get_state m n'.
Proof. unfold get_state, set_state. rewrite get_upd. by case_decide. Qed.

Section fields.
Variables (m : nodes) (n n' : nid) (st : nstate) (z : Z) (w : gset nid).

Lemma ref_count_set_state :
  ref_count (get (set_state st n m) n') = ref_count (get m n').
Proof. by apply get_upd_field. Qed.
Lemma waiting_parents_set_state :
  waiting_parents (get (set_state st n m) n') = waiting_parents (get m n').
Proof. by apply (get_upd_field waiting_parents). Qed.
Lemma get_state_set_ref_count :
  get_state (set_ref_count z n m) n' = get_state m n'.
Proof. by apply (get_upd_field state). Qed.
Lemma get_state_add_ref_count :
  get_state (add_ref_count z n m) n' = get_state m n'.
Proof. by apply (get_upd_field state). Qed.
Lemma waiting_parents_add_ref_count :
  waiting_parents (get (add_ref_count z n m) n') = waiting_parents (get m n').
Proof. by apply (get_upd_field waiting_parents). Qed.
Lemma ref_count_add_ref_count :
  ref_count (get (add_ref_count z n m) n') =
  ref_count (get m n') + (if decide (n = n') then z else 0).
Proof.
  unfold add_ref_count, set_ref_count. rewrite get_upd.
  case_decide; subst; simpl; lia.
Qed.
Lemma get_state_set_waiting_parents :
  get_state (set_waiting_parents w n m) n' = get_state m n'.
Proof. by apply (get_upd_field state). Qed.
Lemma ref_count_set_waiting_parents :
  ref_count (get (set_waiting_parents w n m) n') = ref_count (get m n').
Proof. by apply get_upd_field. Qed.
Lemma waiting_parents_set_waiting_parents :
  waiting_parents (get (set_waiting_parents w n m) n') =
  if decide (n = n') then w else waiting_parents (get m n').
Proof. unfold set_waiting_parents. rewrite get_upd. by case_decide. Qed.
Lemma get_state_add_to_waiting_s_e se :
  get_state (add_to_waiting_s_e se n m) n' = get_state m n'.
Proof. by apply (get_upd_field state). Qed.
Lemma ref_count_add_to_waiting_s_e se :
  ref_count (get (add_to_waiting_s_e se n m) n') = ref_count (get m n').
Proof. by apply get_upd_field. Qed.
Lemma waiting_parents_add_to_waiting_s_e se :
  waiting_parents (get (add_to_waiting_s_e se n m) n') =
  waiting_parents (get m n').
Proof. by apply (get_upd_field waiting_parents). Qed.
Lemma get_state_add_to_waiting_parents c :
  get_state (add_to_waiting_parents c n m).1 n' = get_state m n'.
Proof.
  unfold add_to_waiting_parents. case_decide; [done|].
  by apply (get_upd_field state).
Qed.
Lemma ref_count_add_to_waiting_parents c :
  ref_count (get (add_to_waiting_parents c n m).1 n') = ref_count (get m n').
Proof.
  unfold add_to_waiting_parents. case_decide; [done|]. by apply get_upd_field.
Qed.
End fields.

Create Rewrite HintDb nodes.
#[export] Hint Rewrite get_state_set_state ref_count_set_state
  waiting_parents_set_state get_state_set_ref_count get_state_add_ref_count
  waiting_parents_add_ref_count ref_count_add_ref_count
  get_state_set_waiting_parents ref_count_set_waiting_parents
  waiting_parents_set_waiting_parents get_state_add_to_waiting_s_e
  ref_count_add_to_waiting_s_e waiting_parents_add_to_waiting_s_e
  get_state_add_to_waiting_parents ref_count_add_to_waiting_parents : nodes.

Lemma nwait_delete m c p :
  nwait m p = (nwait (delete c m) p + waits (waiting_parents (get m c)) p)%nat.
Proof.
  unfold nwait, waits, get. destruct (m !! c) as [t|] eqn:E; simpl.
  - rewrite <- (insert_delete_id m c t E) at 1.
    rewrite map_filter_insert. simpl. case_decide.
    + rewrite map_size_insert_None; [lia|].
      rewrite map_lookup_filter_None. left. apply lookup_delete_eq.
    + rewrite delete_delete_eq. lia.
  - rewrite delete_id by done. case_decide; [set_solver|lia].
Qed.

Lemma nwait_upd m c f p :
  (nwait (upd c f m) p + waits (waiting_parents (get m c)) p =
   nwait m p + waits (waiting_parents (f (get m c))) p)%nat.
Proof.
  rewrite (nwait_delete (upd c f m) c), (nwait_delete m c), get_upd_eq.
  unfold upd. rewrite delete_insert_eq. lia.
Qed.

(** Updates that keep the waiting parents keep the numbers. *)
Lemma nwait_upd_same m c f p :
  waiting_parents (f (get m c)) = waiting_parents (get m c) →
  nwait (upd c f m) p = nwait m p.
Proof. intros E. pose proof (nwait_upd m c f p). rewrite E in *. lia. Qed.

Lemma nwait_set_state st n m p : nwait (set_state st n m) p = nwait m p.
Proof. by apply nwait_upd_same. Qed.
Lemma nwait_add_ref_count z n m p : nwait (add_ref_count z n m) p = nwait m p.
Proof. by apply nwait_upd_same. Qed.
Lemma nwait_add_to_waiting_s_e s n m p :
  nwait (add_to_waiting_s_e s n m) p = nwait m p.
Proof. by apply nwait_upd_same. Qed.

#[export] Hint Rewrite nwait_set_state nwait_add_ref_count
  nwait_add_to_waiting_s_e : nodes.
