(* ===== verification/Taskmaster.v ===== *)
(** * The task master ([SCons/Taskmaster.py]): definitions

    [Task], its subclasses, [find_cycle] and [Taskmaster], operation by
    operation.  The stacks [candidates] and [top_targets_left] are kept with
    their top first; Python keeps the top last.  Tracing ([self.trace] is
    [None]) and statistics ([CollectStats] is [None]) are off, as they are in
    the source. *)

From S2P Require Import Prelude Errors NodeState.
Open Scope Z_scope.
Open Scope eff_scope.

(** ** What the engine asks of the nodes

    The methods of Node, its subclasses and its Executor that the engine
    calls, on the part [X] of the nodes the engine does not look into.  A
    method sees the scheduling state only where it is an argument. *)
Class NodeWorld (X : Type) := {
  (** [node.get_executor().get_all_targets()] *)
  get_all_targets : X → nid → list nid;
  (** [node.get_executor().get_action_targets()] *)
  get_action_targets : X → nid → list nid;
  (** [node.get_executor().get_all_children()], which may scan and raise *)
  get_all_children : nid → eff X exn (list nid);
  (** [node.get_executor().get_all_prerequisites()] *)
  get_all_prerequisites : X → nid → list nid;
  (** [node.get_executor().get_action_side_effects()] *)
  get_action_side_effects : X → nid → list nid;
  (** [node.get_executor().prepare()] *)
  executor_prepare : nid → eff X exn unit;
  side_effects : X → nid → list nid;
  alter_targets : X → nid → list nid * option string;
  prepare : nid → eff X exn unit;
  make_ready : nid → eff X exn unit;
  has_builder : X → nid → bool;
  always_build : X → nid → bool;
  is_up_to_date : (nid → nstate) → nid → eff X exn bool;
  retrieve_from_cache : nid → eff X exn bool;
  build : nid → eff X exn unit;
  push_to_cache : nid → X → X;
  (** [built] resets the implicit dependencies of the waiting parents *)
  built : gset nid → nid → X → X;
  visited : nid → X → X;
  (** [executor_cleanup], the part of [Node.postprocess] outside the engine *)
  executor_cleanup : nid → X → X;
  (** [str(node)] and [repr(node)] *)
  node_str : X → nid → string;
  node_repr : X → nid → string
}.

(** The order in which Python iterates over a set, and the order function
    given to the task master; both are permutations. *)
Class Orders := {
  set_iter : gset nid → list nid;
  set_iter_perm : ∀ s, set_iter s ≡ₚ elements s;
  order : list nid → list nid;
  order_perm : ∀ l, order l ≡ₚ l
}.

(** [self.next_candidate] is bound to one of two methods. *)
Inductive candidate_method := find_next_candidate_m | no_next_candidate_m.

(** The methods a Task class overrides. *)
Inductive needs_execute_kind := AlwaysTask | OutOfDateTask.
Inductive failed_kind := fail_stop_k | fail_continue_k.
Inductive make_ready_kind := make_ready_current_k | make_ready_all_k.
Inductive executed_kind := with_callbacks | without_callbacks.

Record tasker := Tasker {
  needs_execute_m : needs_execute_kind;
  failed_m : failed_kind;
  make_ready_m : make_ready_kind;
  executed_m : executed_kind
}.

(** [OutOfDateTask], with the methods [Task] binds. *)
Definition default_tasker : tasker :=
  Tasker OutOfDateTask fail_stop_k make_ready_current_k with_callbacks.

Record task := Task {
  targets : list nid;
  top : bool;
  tnode_ : nid;
  out_of_date : list nid;
  exception : option exn
}.

Record tm (X : Type) := TM {
  tm_nodes : nodes;
  world : X;
  original_top : list nid;
  top_targets_left : list nid;
  candidates : list nid;
  message : option string;
  next_candidate : candidate_method;
  pending_children : gset nid;
  current_top : option nid;
  ready_exc : option exn
}.
Arguments TM {X}. Arguments tm_nodes {X}. Arguments world {X}.
Arguments original_top {X}. Arguments top_targets_left {X}.
Arguments candidates {X}. Arguments message {X}.
Arguments next_candidate {X}. Arguments pending_children {X}.
Arguments current_top {X}. Arguments ready_exc {X}.

Section setters.
Context {X : Type}.
Implicit Types s : tm X.
Definition with_nodes (f : nodes → nodes) s : tm X :=
  TM (f (tm_nodes s)) (world s) (original_top s) (top_targets_left s)
    (candidates s) (message s) (next_candidate s) (pending_children s)
    (current_top s) (ready_exc s).
Definition with_world (f : X → X) s : tm X :=
  TM (tm_nodes s) (f (world s)) (original_top s) (top_targets_left s)
    (candidates s) (message s) (next_candidate s) (pending_children s)
    (current_top s) (ready_exc s).
Definition with_top_targets_left l s : tm X :=
  TM (tm_nodes s) (world s) (original_top s) l
    (candidates s) (message s) (next_candidate s) (pending_children s)
    (current_top s) (ready_exc s).
Definition with_candidates l s : tm X :=
  TM (tm_nodes s) (world s) (original_top s) (top_targets_left s)
    l (message s) (next_candidate s) (pending_children s)
    (current_top s) (ready_exc s).
Definition with_message o s : tm X :=
  TM (tm_nodes s) (world s) (original_top s) (top_targets_left s)
    (candidates s) o (next_candidate s) (pending_children s)
    (current_top s) (ready_exc s).
Definition with_next_candidate c s : tm X :=
  TM (tm_nodes s) (world s) (original_top s) (top_targets_left s)
    (candidates s) (message s) c (pending_children s)
    (current_top s) (ready_exc s).
Definition with_pending_children p s : tm X :=
  TM (tm_nodes s) (world s) (original_top s) (top_targets_left s)
    (candidates s) (message s) (next_candidate s) p
    (current_top s) (ready_exc s).
Definition with_current_top o s : tm X :=
  TM (tm_nodes s) (world s) (original_top s) (top_targets_left s)
    (candidates s) (message s) (next_candidate s) (pending_children s)
    o (ready_exc s).
Definition with_ready_exc o s : tm X :=
  TM (tm_nodes s) (world s) (original_top s) (top_targets_left s)
    (candidates s) (message s) (next_candidate s) (pending_children s)
    (current_top s) o.
End setters.

(** ** Cycles of waiting parents

    [find_cycle] mutates its two arguments, so the model returns them.  The
    stack has its top first; [bottom] is [stack[0]].  The fuel bounds the
    depth of the recursion, [None] is "out of fuel". *)
Section find_cycle.
Context `{Orders}.
Variables (m : nodes) (bottom : nid).

(** The [for] loop over the parents of the top of the stack. *)
Fixpoint visit_parents
    (rec : list nid → gset nid → option (bool * list nid * gset nid))
    (l : list nid) (stack : list nid) (visited : gset nid)
    : option (bool * list nid * gset nid) :=
  match l with
  | [] => Some (false, stack, visited)
  | n :: l =>
      let stack := n :: stack in
      if decide (bottom = n) then Some (true, stack, visited)
      else match rec stack visited with
           | Some (true, stack, visited) => Some (true, stack, visited)
           | Some (false, stack, visited) =>
               visit_parents rec l (tail stack) visited
           | None => None
           end
  end.

Fixpoint find_cycle (fuel : nat) (stack : list nid) (visited : gset nid)
    : option (bool * list nid * gset nid) :=
  match fuel, stack with
  | S fuel, n :: _ =>
      if decide (n ∈ visited) then Some (false, stack, visited)
      else visit_parents (find_cycle fuel)
             (set_iter (waiting_parents (get m n))) stack ({[n]} ∪ visited)
  | _, _ => None
  end.
End find_cycle.

(** The number of entries in all the sets of waiting parents. *)
Definition edges (m : nodes) : nat :=
  map_fold (λ _ t acc, (size (waiting_parents t) + acc)%nat) 0%nat m.

Section taskmaster.
Context {X : Type} `{NodeWorld X} `{Orders}.
Implicit Types s : tm X.

Definition liftw {A} (m : eff X exn A) : eff (tm X) exn A :=
  λ s, let '(w, r) := m (world s) in (with_world (λ _, w) s, r).

Definition push_candidate (p : nid) s : tm X := with_candidates (p :: candidates s) s.
(** [self.candidates.extend(l)] *)
Definition extend_candidates (l : list nid) s : tm X :=
  with_candidates (rev l ++ candidates s) s.

(** ** class Taskmaster *)

Definition Taskmaster_init (w : X) (m : nodes) (targets : list nid) : tm X :=
  TM m w targets targets [] None find_next_candidate_m ∅ None None.

Definition find_next_candidate s : tm X * option nid :=
  match candidates s with
  | c :: cs => (with_candidates cs s, Some c)
  | [] =>
      match top_targets_left s with
      | [] => (s, None)
      | node :: rest =>
          let s := with_current_top (Some node) (with_top_targets_left rest s) in
          let '(alt, message) := alter_targets (world s) node in
          match alt with
          | [] => (s, Some node)
          | _ =>
              let s := extend_candidates (order alt)
                         (push_candidate node (with_message message s)) in
              match candidates s with
              | c :: cs => (with_candidates cs s, Some c)
              | [] => (s, None)
              end
          end
      end
  end.

(** The loop of [will_not_build]: [to_visit.pop()] takes the first element
    of the iteration order, [None] is "out of fuel". *)
Fixpoint will_not_build_loop (node_func : nid → nodes → nodes) (fuel : nat)
    (to_visit pending_children : gset nid) (m : nodes)
    : option (gset nid * nodes) :=
  match set_iter to_visit with
  | [] => Some (pending_children, m)
  | node :: _ =>
      match fuel with
      | O => None
      | S fuel =>
          let to_visit := to_visit ∖ {[node]} in
          let m := node_func node m in
          let parents := waiting_parents (get m node) in
          let m := set_waiting_parents ∅ node m in
          let to_visit := to_visit ∪ parents in
          let pending_children := pending_children ∖ parents in
          let m := foldl (λ m p, add_ref_count (-1) p m) m (set_iter parents) in
          will_not_build_loop node_func fuel to_visit pending_children m
      end
  end.

Definition will_not_build (ns : list nid) (node_func : nid → nodes → nodes) s
    : tm X :=
  let to_visit := list_to_set ns in
  let fuel := (size (to_visit : gset nid) + edges (tm_nodes s))%nat in
  match will_not_build_loop node_func fuel to_visit
          (pending_children s ∖ to_visit) (tm_nodes s) with
  | Some (pc, m) => with_pending_children pc (with_nodes (λ _, m) s)
  | None => s
  end.

Definition do_nothing (n : nid) (m : nodes) : nodes := m.

(** [while self.candidates: ...]: [will_not_build] adds no candidate, so the
    loop runs at most once. *)
Definition no_next_candidate s : tm X * option nid :=
  match candidates s with
  | [] => (s, None)
  | cs => (will_not_build cs do_nothing (with_candidates [] s), None)
  end.

Definition call_next_candidate s : tm X * option nid :=
  match next_candidate s with
  | find_next_candidate_m => find_next_candidate s
  | no_next_candidate_m => no_next_candidate s
  end.

(** [self.next_candidate = self.no_next_candidate] *)
Definition stop s : tm X := with_next_candidate no_next_candidate_m s.

(** The loop [for child in children_not_ready]. *)
Definition wait_for (node : nid) (m : nodes) (child : nid) : nodes :=
  let '(m, k) := add_to_waiting_parents child node m in
  add_ref_count k node m.

Inductive examined := Continue | Return (o : option nid).

(** The body of the loop of [_find_next_ready_node], for a candidate. *)
Definition examine (node : nid) s : tm X * examined :=
  let st := get_state (tm_nodes s) node in
  if decide (nstate_val pending < nstate_val st) then (s, Continue) else
  let s := if decide (st = no_state)
           then with_nodes (set_state pending node) s else s in
  match get_all_children node (world s) with
  | (w, Raise (ExSystemExit code)) =>
      (with_ready_exc (Some (ExExplicitExit (Some node) code))
         (with_world (λ _, w) s), Return (Some node))
  | (w, Raise e) =>
      (with_ready_exc (Some e) (with_world (λ _, w) s), Return (Some node))
  | (w, Ok children) =>
      let s := with_world (λ _, w) s in
      let childstate := get_state (tm_nodes s) in
      let all := get_all_prerequisites w node ++ children in
      let children_not_visited := filter (λ c, childstate c = no_state) all in
      let children_pending :=
        list_to_set (filter (λ c, childstate c = pending) all) in
      let children_failed :=
        bool_decide (Exists (λ c, childstate c = failed) all) in
      let children_not_ready :=
        filter (λ c, nstate_val (childstate c) ≤ nstate_val executing) all in
      let s := extend_candidates (order (rev children_not_visited)) s in
      if children_failed then
        (with_nodes (λ m, foldl (λ m n, set_state failed n m) m
                            (get_action_targets w node)) s, Continue)
      else match children_not_ready with
      | _ :: _ =>
          (with_pending_children (pending_children s ∪ children_pending)
             (with_nodes (λ m, foldl (wait_for node) m children_not_ready) s),
           Continue)
      | [] =>
          let waiting := filter (λ se, get_state (tm_nodes s) se = executing)
                           (get_action_side_effects w node) in
          match waiting with
          | _ :: _ =>
              (with_nodes (λ m, foldl (λ m se, add_to_waiting_s_e se node m)
                                  m waiting) s, Continue)
          | [] => (s, Return (Some node))
          end
      end
  end.

(** [while 1], with fuel; [None] is "out of fuel". *)
Fixpoint find_next_ready_node_loop (fuel : nat) s : option (tm X * option nid) :=
  match fuel with
  | O => None
  | S fuel =>
      match call_next_candidate s with
      | (s, None) => Some (s, None)
      | (s, Some node) =>
          match examine node s with
          | (s, Continue) => find_next_ready_node_loop fuel s
          | (s, Return o) => Some (s, o)
          end
      end
  end.

Definition find_next_ready_node (fuel : nat) s : option (tm X * option nid) :=
  find_next_ready_node_loop fuel (with_ready_exc None s).

(** ** class Task *)

(** [exception_set] with no argument stores the exception being handled. *)
Definition exception_set (e : exn) (t : task) : task :=
  Task (targets t) (top t) (tnode_ t) (out_of_date t) (Some e).
Definition exc_clear (t : task) : task :=
  Task (targets t) (top t) (tnode_ t) (out_of_date t) None.
(** [self.exception_raise] is bound to [_exception_raise] or to
    [_no_exception_to_raise]. *)
Definition exception_raise (t : task) : eff (tm X) exn unit :=
  match exception t with Some e => eraise e | None => eret tt end.

Definition IndexError : exn := ExOther "IndexError" "list index out of range".
Definition AttributeError : exn := ExOther "AttributeError" "current_top".

(** [self.targets[0]] *)
Definition target0 (t : task) : eff (tm X) exn nid :=
  match targets t with n :: _ => eret n | [] => eraise IndexError end.

Definition Task_prepare (t : task) : eff (tm X) exn unit :=
  exception_raise t ;;;
  emod (with_message None) ;;;
  let! n := target0 t in
  liftw (executor_prepare n) ;;;
  let! ts := eget (λ s, get_action_targets (world s) n) in
  efor ts (λ t,
    liftw (prepare t) ;;;
    let! ses := eget (λ s, side_effects (world s) t) in
    efor ses (λ se, liftw (prepare se))).

Definition needs_execute (k : needs_execute_kind) (t : task)
    : eff (tm X) exn bool :=
  match k with
  | AlwaysTask => eret true
  | OutOfDateTask =>
      let! n := target0 t in
      eget (λ s, bool_decide (get_state (tm_nodes s) n = executing))
  end.

Definition call_built (t : nid) s : tm X :=
  with_world (built (waiting_parents (get (tm_nodes s) t)) t) s.

(** The first loop of [execute]; the value is [everything_was_cached]. *)
Fixpoint execute_cached (ts : list nid) : eff (tm X) exn bool :=
  match ts with
  | [] => eret true
  | t :: ts =>
      let! hit := liftw (retrieve_from_cache t) in
      if hit : bool
      then emod (with_nodes (set_state executed t)) ;;;
           emod (call_built t) ;;;
           execute_cached ts
      else eret false
  end.

Definition Task_execute (t : task) : eff (tm X) exn unit :=
  ecatch
    (let! cached := execute_cached (targets t) in
     if cached : bool then eret tt
     else let! n := target0 t in liftw (build n))
    (λ e,
     match e with
     | ExSystemExit code =>
         let! n := target0 t in eraise (ExExplicitExit (Some n) code)
     | ExUserError _ | ExBuildError _ => eraise e
     | _ =>
         let b := convert_to_BuildError (ArgExn e) None in
         let! n := target0 t in
         eraise (ExBuildError (BuildError (Some (ANode n)) (be_errstr b) (be_status b)
           (be_exitstatus b) (be_filename b) (be_executor b) (be_action b)
           (be_command b) (Some (class_name e))))
     end).

Definition clear_side_effects (t : nid) s : tm X :=
  with_nodes (λ m, foldl (λ m se, set_state no_state se m) m
                     (side_effects (world s) t)) s.

Definition executed_without_callbacks (t : task) s : tm X :=
  foldl (λ s t,
    if decide (get_state (tm_nodes s) t = executing)
    then with_nodes (set_state executed t) (clear_side_effects t s)
    else s) s (targets t).

Definition executed_with_callbacks (t : task) s : tm X :=
  foldl (λ s t,
    let s :=
      if decide (get_state (tm_nodes s) t = executing)
      then call_built t (with_world (push_to_cache t)
             (with_nodes (set_state executed t) (clear_side_effects t s)))
      else s in
    with_world (visited t) s) s (targets t).

Definition Task_executed (k : executed_kind) (t : task) s : tm X :=
  match k with
  | with_callbacks => executed_with_callbacks t s
  | without_callbacks => executed_without_callbacks t s
  end.

(** [self.targets = [self.tm.current_top]; self.top = 1] *)
Definition fail_stop (t : task) s : tm X * res exn task :=
  let s := stop (will_not_build (targets t) (set_state failed) s) in
  match current_top s with
  | Some n => (s, Ok (Task [n] true (tnode_ t) (out_of_date t) (exception t)))
  | None => (s, Raise AttributeError)
  end.

Definition fail_continue (t : task) s : tm X * res exn task :=
  (will_not_build (targets t) (set_state failed) s, Ok t).

Definition Task_failed (k : failed_kind) (t : task) s : tm X * res exn task :=
  match k with
  | fail_stop_k => fail_stop t s
  | fail_continue_k => fail_continue t s
  end.

(** The side effects of [t], all set to [NODE_EXECUTING]. *)
Definition mark_side_effects (t : nid) s : tm X :=
  with_nodes (λ m, foldl (λ m se, set_state executing se m) m
                     (side_effects (world s) t)) s.

Definition mark_executing (t : nid) s : tm X :=
  mark_side_effects t (with_nodes (set_state executing t) s).

Definition make_ready_all (t : task) : eff (tm X * task) exn unit :=
  λ '(s, _), (foldl (λ s t, mark_executing t s) s (targets t),
              Task (targets t) (top t) (tnode_ t) (targets t) (exception t),
              Ok tt).

(** The currency check of one target: [make_ready], then
    [not has_builder() or (not always_build and is_up_to_date())]. *)
Definition target_is_up_to_date (t : nid) : eff (tm X) exn bool :=
  liftw (make_ready t) ;;;
  let! hb := eget (λ s, has_builder (world s) t) in
  let! ab := eget (λ s, always_build (world s) t) in
  if negb hb : bool then eret true
  else if ab : bool then eret false
  else λ s, liftw (is_up_to_date (get_state (tm_nodes s)) t) s.

(** [except EnvironmentError, e: raise BuildError(node=t, ...)] *)
Definition as_BuildError (t : nid) (e : exn) : exn :=
  match e with
  | ExEnvironmentError _ _ strerror filename =>
      ExBuildError (BuildError_init (Some (ANode t)) strerror (StatusInt 2)
        (StatusInt 2) filename None)
  | _ => e
  end.

(** The first loop of [make_ready_current]; accumulates [out_of_date]. *)
Fixpoint check_targets (ts : list nid) (ood : list nid) s
    : tm X * list nid * res exn unit :=
  match ts with
  | [] => (s, ood, Ok tt)
  | t :: ts =>
      match target_is_up_to_date t s with
      | (s, Ok b) => check_targets ts (if b : bool then ood else ood ++ [t]) s
      | (s, Raise e) => (s, ood, Raise (as_BuildError t e))
      end
  end.

Definition make_ready_current (t : task) : eff (tm X * task) exn unit :=
  λ '(s, _),
  let '(s, ood, r) := check_targets (targets t) [] s in
  let t := Task (targets t) (top t) (tnode_ t) ood (exception t) in
  match r with
  | Raise e => (s, t, Raise e)
  | Ok _ =>
      let s :=
        match ood with
        | _ :: _ => foldl (λ s t, mark_executing t s) s (targets t)
        | [] => foldl (λ s t, with_nodes (set_state up_to_date t)
                                (with_world (visited t) s)) s (targets t)
        end in
      (s, t, Ok tt)
  end.

Definition Task_make_ready (k : make_ready_kind) (t : task) s
    : tm X * task * res exn unit :=
  match k with
  | make_ready_current_k => make_ready_current t (s, t)
  | make_ready_all_k => make_ready_all t (s, t)
  end.

(** [parents[p] = parents.get(p, 0) + 1], for every [p] of a set *)
Definition count_parents (parents : gmap nid Z) (w : gset nid) : gmap nid Z :=
  foldl (λ ps p, <[p := default 0 (ps !! p) + 1]> ps) parents (set_iter w).

(** First loop of [postprocess]. *)
Definition post_target (sp : tm X * gmap nid Z) (t : nid) : tm X * gmap nid Z :=
  let '(s, parents) := sp in
  let wp := waiting_parents (get (tm_nodes s) t) in
  let s := if decide (wp = ∅) then s
           else with_pending_children (pending_children s ∖ {[t]}) s in
  (s, count_parents parents wp).

(** [if p.ref_count == 0: self.tm.candidates.append(p)] *)
Definition requeue (s : tm X) (p : nid) : tm X :=
  if decide (ref_count (get (tm_nodes s) p) = 0)
  then push_candidate p s else s.

(** Body of the second loop, for a side effect. *)
Definition post_side_effect (sp : tm X * gmap nid Z) (se : nid)
    : tm X * gmap nid Z :=
  let '(s, parents) := sp in
  let '(s, parents) :=
    if decide (get_state (tm_nodes s) se = executing)
    then (with_nodes (set_state no_state se) s,
          count_parents parents (waiting_parents (get (tm_nodes s) se)))
    else (s, parents) in
  (foldl requeue s (set_iter (waiting_s_e (get (tm_nodes s) se))), parents).

(** Third loop: [p.ref_count = p.ref_count - subtract]. *)
Definition post_parent (parents : gmap nid Z) (s : tm X) (p : nid) : tm X :=
  requeue (with_nodes (add_ref_count (- default 0 (parents !! p)) p) s) p.

(** [Node.postprocess]: [executor_cleanup] and an empty [waiting_parents]. *)
Definition Node_postprocess (s : tm X) (t : nid) : tm X :=
  with_nodes (set_waiting_parents ∅ t) (with_world (executor_cleanup t) s).

Definition Task_postprocess (t : task) s : tm X :=
  let ts := set_iter (list_to_set (targets t)) in
  let '(s, parents) := foldl post_target (s, ∅) ts in
  let '(s, parents) :=
    foldl (λ sp t, foldl post_side_effect sp (side_effects (world sp.1) t))
      (s, parents) ts in
  let s := foldl (post_parent parents) s (set_iter (dom parents)) in
  foldl Node_postprocess s ts.

(** ** [next_task] and [cleanup] *)

Definition next_task (tk : tasker) (fuel : nat) s : option (tm X * option task) :=
  match find_next_ready_node fuel s with
  | None => None
  | Some (s, None) => Some (s, None)
  | Some (s, Some node) =>
      let tlist := get_all_targets (world s) node in
      let t := Task tlist (bool_decide (node ∈ original_top s)) node [] None in
      let '(s, t, r) := Task_make_ready (make_ready_m tk) t s in
      let s := match r with Raise e => with_ready_exc (Some e) s | Ok _ => s end in
      let t := match ready_exc s with Some e => exception_set e t | None => t end in
      Some (with_ready_exc None s, Some t)
  end.

(** The cycle found from a pending child; [fuel] as in [find_cycle]. *)
Definition cycle_of (m : nodes) (n : nid) : option (list nid) :=
  match find_cycle m n (S (S (size m))) [n] ∅ with
  | Some (true, stack, _) => Some (rev stack)
  | _ => None
  end.

Definition cycle_line s (n : nid) (cycle : option (list nid)) : string :=
  match cycle with
  | Some c => "  " +:+ String.concat " -> " (node_str (world s) <$> c) +:+ "
"
  | None => "  Internal Error: no cycle found for node " +:+
            node_str (world s) n +:+ " (" +:+ node_repr (world s) n +:+
            ") in state " +:+ StateString (get_state (tm_nodes s) n) +:+ "
"
  end.

(** [cleanup] changes nothing; it returns or raises. *)
Definition cleanup s : res exn unit :=
  let nclist := (λ n, (n, cycle_of (tm_nodes s) n)) <$> set_iter (pending_children s) in
  let genuine := filter (λ nc : nid * option (list nid),
    is_Some nc.2 ∨ get_state (tm_nodes s) nc.1 ≠ executed) nclist in
  match genuine with
  | [] => Ok tt
  | _ => Raise (ExUserError (foldl (λ d nc, d +:+ cycle_line s nc.1 nc.2)
           "Found dependency cycle(s):
" nclist))
  end.

(** [_validate_pending_children], as the assertion it makes. *)
Definition validate_pending_children s : bool :=
  forallb (λ n,
    bool_decide (get_state (tm_nodes s) n = pending ∨
                 get_state (tm_nodes s) n = executing) &&
    bool_decide (waiting_parents (get (tm_nodes s) n) ≠ ∅) &&
    forallb (λ p, bool_decide (0 < ref_count (get (tm_nodes s) p)))
      (set_iter (waiting_parents (get (tm_nodes s) n))))
    (set_iter (pending_children s)).
End taskmaster.
