(* ===== verification/TaskmasterFacts.v ===== *)
(** * The task master: theorems *)

From S2P Require Import Prelude Errors NodeState Taskmaster.
Open Scope Z_scope.

(** ** Iteration over sets *)
Section set_iter.
Context `{Orders}.
Implicit Types w : gset nid.

Lemma NoDup_set_iter w : NoDup (set_iter w).
Proof. rewrite set_iter_perm. apply NoDup_elements. Qed.

Lemma elem_of_set_iter w n : n ∈ set_iter w ↔ n ∈ w.
Proof. rewrite set_iter_perm. apply elem_of_elements. Qed.

Lemma set_iter_nil w : set_iter w = [] ↔ w = ∅.
Proof.
  split; intros E.
  - apply set_eq. intros n. rewrite <- elem_of_set_iter, E. set_solver.
  - apply elem_of_nil_inv. intros n. rewrite elem_of_set_iter. set_solver.
Qed.
End set_iter.

(** ** Loops that adjust reference counts *)

Lemma foldl_add_ref_count z l m p :
  NoDup l →
  ref_count (get (foldl (λ m p, add_ref_count z p m) m l) p) =
  ref_count (get m p) + (if decide (p ∈ l) then z else 0).
Proof.
  revert m. induction l as [|q l IH]; intros m Hl; cbn [foldl].
  - rewrite decide_False by set_solver. lia.
  - inversion_clear Hl as [|?? Hq Hl']. rewrite IH by done. autorewrite with nodes.
    destruct (decide (q = p)) as [->|], (decide (p ∈ p :: l));
      repeat case_decide; set_solver || lia.
Qed.

(** ** Every operation keeps the reference counts exact *)

Lemma ref_inv_set_state st n m : ref_inv m → ref_inv (set_state st n m).
Proof. intros HI p. autorewrite with nodes. apply HI. Qed.

Lemma ref_inv_add_to_waiting_s_e se n m :
  ref_inv m → ref_inv (add_to_waiting_s_e se n m).
Proof. intros HI p. autorewrite with nodes. apply HI. Qed.

Lemma ref_inv_foldl_set_state st l m :
  ref_inv m → ref_inv (foldl (λ m n, set_state st n m) m l).
Proof. intros. apply foldl_pred; auto using ref_inv_set_state. Qed.

Lemma ref_inv_wait_for node m child : ref_inv m → ref_inv (wait_for node m child).
Proof.
  intros HI p. unfold wait_for, add_to_waiting_parents.
  destruct (decide (node ∈ waiting_parents (get m child))) as [Hin|Hin].
  - autorewrite with nodes. rewrite HI. case_decide; lia.
  - autorewrite with nodes. rewrite HI.
    pose proof (nwait_upd m child (λ t, TNode (state t) (ref_count t)
      ({[node]} ∪ waiting_parents (get m child)) (waiting_s_e t)) p) as E.
    unfold set_waiting_parents. simpl in E. unfold waits in E.
    destruct (decide (node = p)) as [->|];
      repeat case_decide; set_solver || lia.
Qed.

Lemma nwait_set_waiting_parents_empty t m p :
  (nwait (set_waiting_parents ∅ t m) p + waits (waiting_parents (get m t)) p =
   nwait m p)%nat.
Proof.
  pose proof (nwait_upd m t (λ t, TNode (state t) (ref_count t) ∅ (waiting_s_e t)) p) as E.
  unfold set_waiting_parents. cbn [waiting_parents] in E.
  unfold waits at 2 in E. rewrite decide_False in E by set_solver. lia.
Qed.

(** Flushing the waiting parents of a node and lowering their counts. *)
Lemma ref_inv_flush `{Orders} node m :
  let parents := waiting_parents (get m node) in
  ref_inv m →
  ref_inv (foldl (λ m p, add_ref_count (-1) p m)
             (set_waiting_parents ∅ node m) (set_iter parents)).
Proof.
  intros parents HI p.
  rewrite foldl_add_ref_count by apply NoDup_set_iter.
  rewrite (foldl_inv (λ m, nwait m p)) by (intros; apply nwait_add_ref_count).
  rewrite ref_count_set_waiting_parents, HI.
  pose proof (nwait_set_waiting_parents_empty node m p) as E. unfold waits in E.
  fold parents in E.
  rewrite (decide_ext (p ∈ set_iter parents) (p ∈ parents)) by apply elem_of_set_iter.
  case_decide; lia.
Qed.

(** ** Termination of [will_not_build] *)

Lemma edges_delete m c :
  edges m = (edges (delete c m) + size (waiting_parents (get m c)))%nat.
Proof.
  unfold edges, get. destruct (m !! c) as [t|] eqn:E.
  - rewrite <- (insert_delete_id m c t E) at 1. cbn [default from_option].
    rewrite map_fold_insert_L; [unfold default, id; lia|intros; lia|apply lookup_delete_eq].
  - rewrite delete_id by done.
    change (size (waiting_parents (default tnode_init None))) with 0%nat. lia.
Qed.

Lemma edges_upd m c f :
  (edges (upd c f m) + size (waiting_parents (get m c)) =
   edges m + size (waiting_parents (f (get m c))))%nat.
Proof.
  rewrite (edges_delete (upd c f m) c), (edges_delete m c), get_upd_eq.
  unfold upd. rewrite delete_insert_eq. lia.
Qed.

Lemma edges_add_ref_count z p m : edges (add_ref_count z p m) = edges m.
Proof.
  pose proof (edges_upd m p (λ t, TNode (state t) (ref_count (get m p) + z)
    (waiting_parents t) (waiting_s_e t))) as E.
  unfold add_ref_count, set_ref_count. simpl in E. lia.
Qed.

(** What [will_not_build] needs of the function it applies to the nodes. *)
Class NodeFunc (f : nid → nodes → nodes) (g : nstate → nstate) := {
  nf_state : ∀ n m x,
    get_state (f n m) x = if decide (n = x) then g (get_state m x) else get_state m x;
  nf_idem : ∀ st, g (g st) = g st;
  nf_waiting : ∀ n m x, waiting_parents (get (f n m) x) = waiting_parents (get m x);
  nf_edges : ∀ n m, edges (f n m) = edges m;
  nf_ref_inv : ∀ n m, ref_inv m → ref_inv (f n m)
}.

#[export] Instance NodeFunc_failed : NodeFunc (set_state failed) (λ _, failed).
Proof.
  split; intros; autorewrite with nodes; auto using ref_inv_set_state.
  pose proof (edges_upd m n (λ t, TNode failed (ref_count t)
    (waiting_parents t) (waiting_s_e t))) as E. cbn [waiting_parents] in E.
  unfold set_state. lia.
Qed.

#[export] Instance NodeFunc_do_nothing : NodeFunc do_nothing id.
Proof. split; intros; unfold do_nothing; try done. by case_decide. Qed.

(** The nodes that wait, directly or not, for a node of a set. *)
Definition waits_for (m : nodes) : relation nid :=
  λ a b, b ∈ waiting_parents (get m a).
Definition above (m : nodes) (v : gset nid) (x : nid) : Prop :=
  ∃ y, y ∈ v ∧ rtc (waits_for m) y x.

Section will_not_build.
Context `{Orders} {f : nid → nodes → nodes} {g : nstate → nstate} `{!NodeFunc f g}.
Implicit Types (v pc : gset nid) (m : nodes).

(** The store after one iteration for [node]. *)
Definition wnb_step (node : nid) (m : nodes) : nodes :=
  let m := f node m in
  foldl (λ m p, add_ref_count (-1) p m) (set_waiting_parents ∅ node m)
    (set_iter (waiting_parents (get m node))).

Lemma wnb_step_waiting node m x :
  waiting_parents (get (wnb_step node m) x) =
  if decide (node = x) then ∅ else waiting_parents (get m x).
Proof.
  unfold wnb_step.
  rewrite (foldl_inv (λ m, waiting_parents (get m x)))
    by (intros; apply waiting_parents_add_ref_count).
  rewrite waiting_parents_set_waiting_parents. case_decide; [done|apply nf_waiting].
Qed.

Lemma wnb_step_state node m x :
  get_state (wnb_step node m) x =
  if decide (node = x) then g (get_state m x) else get_state m x.
Proof.
  unfold wnb_step.
  rewrite (foldl_inv (λ m, get_state m x))
    by (intros; apply get_state_add_ref_count).
  rewrite get_state_set_waiting_parents. apply nf_state.
Qed.

Lemma wnb_step_edges node m :
  (edges (wnb_step node m) + size (waiting_parents (get m node)) = edges m)%nat.
Proof.
  unfold wnb_step. rewrite (foldl_inv edges) by (intros; apply edges_add_ref_count).
  pose proof (edges_upd (f node m) node (λ t, TNode (state t) (ref_count t)
    ∅ (waiting_s_e t))) as E. cbn [waiting_parents] in E.
  rewrite nf_waiting, nf_edges, size_empty in E. unfold set_waiting_parents. lia.
Qed.

Lemma wnb_step_ref_inv node m : ref_inv m → ref_inv (wnb_step node m).
Proof. intros. by apply ref_inv_flush, nf_ref_inv. Qed.

(** The nodes above the set to visit are the popped node and the nodes
    above the next set to visit. *)
Lemma above_step node v m x :
  node ∈ v →
  above m v x ↔ x = node ∨
    above (wnb_step node m) (v ∖ {[node]} ∪ waiting_parents (get m node)) x.
Proof.
  intros Hn. split.
  - intros (y & Hy & Hyx). revert x Hyx.
    refine (rtc_ind_r _ y _ _); [|intros z x Hyz Hzx IH].
    + destruct (decide (y = node)) as [->|]; [by left|right].
      exists y. split; [set_solver|constructor].
    + right. destruct IH as [->|(u & Hu & Huz)].
      * exists x. split; [set_solver|constructor].
      * destruct (decide (node = z)) as [->|Hne].
        { exists x. split; [set_solver|constructor]. }
        exists u. split; [done|]. eapply rtc_r; [done|].
        unfold waits_for. by rewrite wnb_step_waiting, decide_False.
  - intros [->|(y & Hy & Hyx)]; [exists node; split; [done|constructor]|].
    assert (rtc (waits_for m) y x) as Hyx'.
    { eapply rtc_subrel, Hyx. intros a b. unfold waits_for.
      rewrite wnb_step_waiting. case_decide; set_solver. }
    destruct (decide (y ∈ v)); [by exists y|].
    exists node. split; [done|]. eapply rtc_l, Hyx'. unfold waits_for. set_solver.
Qed.

Lemma wnb_loop_total fuel v pc m :
  (size v + edges m ≤ fuel)%nat →
  is_Some (will_not_build_loop f fuel v pc m).
Proof.
  revert v pc m. induction fuel as [|fuel IH]; intros v pc m Hf; simpl;
    destruct (set_iter v) as [|node l] eqn:E; eauto.
  - assert (node ∈ v) by (apply elem_of_set_iter; rewrite E; left).
    assert (size v ≠ 0%nat) by (apply size_non_empty_iff; set_solver). lia.
  - assert (Hn : node ∈ v) by (apply elem_of_set_iter; rewrite E; left).
    apply IH. fold (wnb_step node m). rewrite nf_waiting.
    pose proof (wnb_step_edges node m).
    assert (size v = S (size (v ∖ {[node]}))) as Hs.
    { rewrite (union_difference_singleton_L node v) at 1 by done.
      rewrite size_union by set_solver. by rewrite size_singleton. }
    pose proof (size_union_alt (v ∖ {[node]}) (waiting_parents (get m node))).
    assert (size (waiting_parents (get m node) ∖ (v ∖ {[node]})) ≤
            size (waiting_parents (get m node)))%nat by (apply subseteq_size; set_solver).
    lia.
Qed.

(** The result of the loop: [d] is the set of the nodes it visits. *)
Lemma wnb_loop_spec fuel v pc m pc' m' :
  will_not_build_loop f fuel v pc m = Some (pc', m') →
  ∃ d : gset nid, (∀ x, x ∈ d ↔ above m v x) ∧
  (∀ x, get_state m' x = if decide (x ∈ d) then g (get_state m x) else get_state m x) ∧
  (∀ x, waiting_parents (get m' x) =
        if decide (x ∈ d) then ∅ else waiting_parents (get m x)) ∧
  (∀ x, x ∈ pc' ↔ x ∈ pc ∧ ¬ ∃ y, y ∈ d ∧ waits_for m y x) ∧
  (ref_inv m → ref_inv m').
Proof.
  revert v pc m. induction fuel as [|fuel IH]; intros v pc m; simpl;
    destruct (set_iter v) as [|node l] eqn:E; try done.
  1,2: apply set_iter_nil in E as ->; intros [= -> ->]; exists ∅;
    split_and!; [|done..|set_solver|done]; intros x; split; [set_solver|];
    intros (y & Hy & _); set_solver.
  assert (Hn : node ∈ v) by (apply elem_of_set_iter; rewrite E; left).
  fold (wnb_step node m). rewrite nf_waiting. intros Hl.
  apply IH in Hl as (d & Hd & Hst & Hwp & Hpc & Hri).
  exists ({[node]} ∪ d). split_and!.
  - intros x. rewrite (above_step node) by done. rewrite <- Hd. set_solver.
  - intros x. rewrite Hst, wnb_step_state.
    destruct (decide (node = x)) as [->|]; repeat case_decide;
      rewrite ?nf_idem; set_solver || done.
  - intros x. rewrite Hwp, wnb_step_waiting.
    repeat case_decide; set_solver || done.
  - intros x. rewrite Hpc. unfold waits_for. setoid_rewrite wnb_step_waiting.
    split; intros [Hx Hy]; split; [set_solver| |set_solver|].
    + intros (y & [->%elem_of_singleton|Hyd]%elem_of_union & Hyx); [set_solver|].
      destruct (decide (node = y)) as [->|]; [set_solver|].
      apply Hy. exists y. by rewrite decide_False.
    + intros (y & Hyd & Hyx). case_decide; [set_solver|].
      apply Hy. exists y. set_solver.
  - auto using wnb_step_ref_inv.
Qed.
End will_not_build.

(** The outcome of [will_not_build ns f], as a relation on the state. *)
Definition wnb_outcome {X} (g : nstate → nstate) (ns : list nid) (s s' : tm X)
    (d : gset nid) : Prop :=
  (∀ x, x ∈ d ↔ above (tm_nodes s) (list_to_set ns) x) ∧
  (∀ x, get_state (tm_nodes s') x =
        if decide (x ∈ d) then g (get_state (tm_nodes s) x)
        else get_state (tm_nodes s) x) ∧
  (∀ x, waiting_parents (get (tm_nodes s') x) =
        if decide (x ∈ d) then ∅ else waiting_parents (get (tm_nodes s) x)) ∧
  pending_children s' = pending_children s ∖ d.

Section will_not_build_spec.
Context {X : Type} `{Orders} {f : nid → nodes → nodes} {g : nstate → nstate}
  `{!NodeFunc f g}.
Implicit Types s : tm X.

(** The enclosing function never runs out of fuel. *)
Lemma will_not_build_frame ns s :
  ∃ m pc, will_not_build ns f s = with_pending_children pc (with_nodes (λ _, m) s).
Proof.
  unfold will_not_build.
  edestruct (wnb_loop_total (f:=f)) as [[pc m] ->]; [reflexivity|]. by exists m, pc.
Qed.

Lemma will_not_build_spec ns s :
  ∃ d, wnb_outcome g ns s (will_not_build ns f s) d ∧
       (ref_inv (tm_nodes s) → ref_inv (tm_nodes (will_not_build ns f s))).
Proof.
  unfold will_not_build.
  edestruct (wnb_loop_total (f:=f)) as [[pc m] Hl]; [reflexivity|].
  rewrite Hl. apply wnb_loop_spec in Hl as (d & Hd & Hst & Hwp & Hpc & Hri).
  exists d. split; [split_and!; try done|done].
  simpl. apply set_eq. intros x. rewrite Hpc, !elem_of_difference.
  assert (x ∈ d ↔ x ∈ (list_to_set ns : gset nid) ∨
          ∃ y, y ∈ d ∧ waits_for (tm_nodes s) y x) as ->; [|naive_solver].
  rewrite Hd. split.
  - intros (y & Hy & [->|(z & Hz & Hzx)]%rtc_inv_r); [by left|right].
    exists z. rewrite Hd. split; [by exists y|done].
  - intros [Hx|(y & (u & Hu & Huy)%Hd & Hyx)]; [exists x; by split; [|constructor]|].
    exists u. split; [done|]. by eapply rtc_r.
Qed.
End will_not_build_spec.

(** ** Cycles of waiting parents *)

(** A chain of waiting parents, its last node first. *)
Fixpoint chain (m : nodes) (l : list nid) : Prop :=
  match l with
  | b :: (a :: _) as l' => waits_for m a b ∧ chain m l'
  | _ => True
  end.

Lemma chain_tc m b l a :
  chain m (b :: l ++ [a]) → tc (waits_for m) a b.
Proof.
  revert b. induction l as [|c l IH]; intros b; simpl.
  - intros [? _]. by constructor.
  - intros [Hcb Hch]. eapply tc_r; [by apply IH|done].
Qed.

Section find_cycle_spec.
Context `{Orders}.
Variables (m : nodes) (bottom : nid).

(** The outcome of a search started from the stack [st]. *)
Definition search_ok (st : list nid) (visited : gset nid)
    (r : bool * list nid * gset nid) : Prop :=
  let '(found, st', visited') := r in
  if found
  then ∃ path, path ≠ [] ∧ st' = path ++ st ∧ head st' = Some bottom ∧
       (chain m st → chain m st')
  else st' = st ∧ visited ⊆ visited' ∧
       ∀ x, x ∈ visited' → x ∉ visited → ∀ y, waits_for m x y →
         y ∈ visited' ∧ y ≠ bottom.

Lemma visit_parents_ok rec n l st visited r :
  (∀ st n visited r, rec (n :: st) visited = Some r →
     search_ok (n :: st) visited r ∧ (r.1.1 = false → n ∈ r.2)) →
  (∀ y, y ∈ l → waits_for m n y) →
  visit_parents bottom rec l (n :: st) visited = Some r →
  search_ok (n :: st) visited r ∧
  (r.1.1 = false → ∀ y, y ∈ l → y ∈ r.2 ∧ y ≠ bottom).
Proof.
  intros Hrec. revert visited. induction l as [|p l IH]; intros visited Hl; simpl.
  { intros [= <-]. simpl. split; [split_and!; set_solver|set_solver]. }
  assert (waits_for m n p) as Hp by (apply Hl; left).
  case_decide as Hb.
  { intros [= <-]. split; [|done]. exists [p]. simpl. subst. by split_and!. }
  destruct (rec (p :: n :: st) visited) as [[[[] st1] v1]|] eqn:E; [| |done].
  - intros [= <-]. split; [|done]. apply Hrec in E as [(path & Hne & -> & Hh & Hch) _].
    exists (path ++ [p]). rewrite <- app_assoc.
    split_and!; [by destruct path|done|done|]. intros Hc. by apply Hch.
  - apply Hrec in E as [(-> & Hsub & Hcl) Hin]. simpl in *. intros E.
    apply IH in E as [Hok Hall]; [|intros; apply Hl; by right].
    specialize (Hin eq_refl).
    destruct r as [[[] st'] v'];
      [split; [destruct Hok as (path & ?); by exists path|done]|].
    destruct Hok as (-> & Hsub' & Hcl'). simpl in Hall.
    split; [split_and!; [done|set_solver|]|].
    + intros x Hx Hnx y Hy. destruct (decide (x ∈ v1)) as [Hx1|]; [|by eapply Hcl'].
      destruct (Hcl x Hx1 Hnx y Hy). set_solver.
    + intros _ y [->|Hy]%elem_of_cons; [set_solver|by apply Hall].
Qed.

Lemma find_cycle_ok fuel st n visited r :
  find_cycle m bottom fuel (n :: st) visited = Some r →
  search_ok (n :: st) visited r ∧ (r.1.1 = false → n ∈ r.2).
Proof.
  revert st n visited r. induction fuel as [|fuel IH]; intros st n visited r; simpl; [done|].
  case_decide as Hn; [intros [= <-]; simpl; split; [split_and!; set_solver|done]|].
  intros E. apply visit_parents_ok in E as [Hok Hall]; [|done|].
  2: { intros y. rewrite elem_of_set_iter. done. }
  destruct r as [[[] st'] v']; [by split|].
  destruct Hok as (-> & Hsub & Hcl). simpl in Hall.
  split; [split_and!; [done|set_solver|]|set_solver].
  intros x Hx Hnx y Hy. destruct (decide (x = n)) as [->|]; [|apply (Hcl x); set_solver].
  apply Hall; [done|]. by apply elem_of_set_iter.
Qed.

Lemma find_cycle_total fuel st n visited :
  (2 + size (dom m ∖ visited) ≤ fuel)%nat →
  is_Some (find_cycle m bottom fuel (n :: st) visited).
Proof.
  revert st n visited. induction fuel as [|fuel IH]; intros st n visited Hf; [lia|].
  simpl. case_decide as Hn; [eauto|].
  destruct (decide (n ∈ dom m)) as [Hd|Hd].
  2: { apply not_elem_of_dom in Hd. unfold get. rewrite Hd.
       assert (set_iter (waiting_parents (default tnode_init None)) = []) as ->
         by (by apply set_iter_nil). simpl. eauto. }
  assert (2 + size (dom m ∖ ({[n]} ∪ visited)) ≤ fuel)%nat as Hf'.
  { assert (dom m ∖ ({[n]} ∪ visited) ⊂ dom m ∖ visited) as Hs%subset_size
      by set_solver. lia. }
  clear Hf. assert (∀ l v, ({[n]} ∪ visited) ⊆ v →
    is_Some (visit_parents bottom (find_cycle m bottom fuel) l (n :: st) v)) as Hgen;
    [|by apply Hgen].
  induction l as [|p l IHl]; intros v Hv; simpl; [eauto|]. case_decide; [eauto|].
  destruct (IH (n :: st) p v) as [[[[] st'] v'] E].
  { assert (size (dom m ∖ v) ≤ size (dom m ∖ ({[n]} ∪ visited)))%nat
      by (apply subseteq_size; set_solver). lia. }
  - rewrite E. eauto.
  - rewrite E. apply find_cycle_ok in E as [(-> & Hsub & _) _]. simpl.
    apply IHl. set_solver.
Qed.
End find_cycle_spec.

(** ** Looking for a ready node *)

Section engine.
Context {X : Type} `{NodeWorld X} `{Orders}.
Implicit Types s : tm X.

Lemma ref_inv_will_not_build `{!NodeFunc f g} ns s :
  ref_inv (tm_nodes s) → ref_inv (tm_nodes (will_not_build ns f s)).
Proof. destruct (will_not_build_spec (f:=f) ns s) as (d & _ & ?). done. Qed.

Lemma find_next_candidate_nodes s :
  tm_nodes (find_next_candidate s).1 = tm_nodes s.
Proof.
  unfold find_next_candidate.
  destruct (candidates s); [|done]. destruct (top_targets_left s); [done|].
  destruct (alter_targets _ _) as [[] ?]; [done|]. simpl. by case_match.
Qed.

Lemma ref_inv_call_next_candidate s :
  ref_inv (tm_nodes s) → ref_inv (tm_nodes (call_next_candidate s).1).
Proof.
  unfold call_next_candidate. destruct (next_candidate s).
  - by rewrite find_next_candidate_nodes.
  - unfold no_next_candidate. destruct (candidates s); [done|].
    intros. by apply ref_inv_will_not_build.
Qed.

Lemma ref_inv_examine n s :
  ref_inv (tm_nodes s) → ref_inv (tm_nodes (examine n s).1).
Proof.
  intros HI. unfold examine. case_decide; [done|].
  set (s1 := if decide _ then _ else s).
  assert (ref_inv (tm_nodes s1)) as HI1.
  { subst s1. case_decide; [by apply ref_inv_set_state|done]. }
  destruct (get_all_children n (world s1)) as [w [l|e]]; [|by destruct e].
  destruct (bool_decide _); [by apply ref_inv_foldl_set_state|].
  destruct (filter _ _) eqn:E; [clear E|].
  - destruct (filter _ _) eqn:E; [done|]. simpl.
    apply (foldl_pred ref_inv (λ m se, add_to_waiting_s_e se n m)
      (_ :: _)); auto using ref_inv_add_to_waiting_s_e.
  - simpl. apply (foldl_pred ref_inv (wait_for n) (_ :: _));
      auto using ref_inv_wait_for.
Qed.

Lemma ref_inv_find_loop fuel s s' o :
  find_next_ready_node_loop fuel s = Some (s', o) →
  ref_inv (tm_nodes s) → ref_inv (tm_nodes s').
Proof.
  revert s. induction fuel as [|fuel IH]; intros s; simpl; [done|].
  intros Hl HI. pose proof (ref_inv_call_next_candidate s HI) as HI1.
  destruct (call_next_candidate s) as [s1 [node|]]; [|by simplify_eq].
  pose proof (ref_inv_examine node s1 HI1) as HI2.
  destruct (examine node s1) as [s2 []]; simplify_eq; [by eapply IH|done].
Qed.

(** *** What a returned node satisfies *)

(** The node is pending, everything it depends on is up to date or
    executed, and no side effect of its action is being built. *)
Definition ready (n : nid) (children : list nid) s : Prop :=
  get_state (tm_nodes s) n = pending ∧
  (∀ c, c ∈ get_all_prerequisites (world s) n ++ children →
     get_state (tm_nodes s) c = up_to_date ∨ get_state (tm_nodes s) c = executed) ∧
  (∀ se, se ∈ get_action_side_effects (world s) n →
     get_state (tm_nodes s) se ≠ executing).

Lemma examine_return n s s' o :
  examine n s = (s', Return o) → ready_exc s = None →
  o = Some n ∧
  (is_Some (ready_exc s') ∨
   ∃ w children, get_all_children n w = (world s', Ok children) ∧
     ready n children s').
Proof.
  unfold examine. intros He Hr. case_decide as Hst; [done|].
  set (s1 := if decide _ then _ else s) in He.
  assert (get_state (tm_nodes s1) n = pending) as Hn.
  { subst s1. case_decide; simpl; [by rewrite get_state_set_state, decide_True|].
    by destruct (get_state (tm_nodes s) n). }
  destruct (get_all_children n (world s1)) as [w [l|e]] eqn:Hc;
    [|destruct e; simplify_eq; split; eauto].
  destruct (bool_decide _) eqn:Hf; [done|]. apply bool_decide_eq_false in Hf.
  destruct (filter _ (_ ++ _)) eqn:Hnr; [|done].
  destruct (filter _ (get_action_side_effects _ _)) eqn:Hse; [|done].
  simplify_eq. split; [done|]. right. exists (world s1), l.
  split; [done|]. split_and!; [done| |].
  - intros c Hcl. destruct (get_state (tm_nodes s1) c) eqn:Hcs; simpl; auto;
      try (assert (c ∈ []) as Hx; [|by apply not_elem_of_nil in Hx];
           rewrite <- Hnr; apply list_elem_of_filter; split; [|done];
           simpl; rewrite Hcs; done).
    destruct Hf. apply Exists_exists. by exists c.
  - intros se Hs Hex. assert (se ∈ []) as Hx; [|by apply not_elem_of_nil in Hx].
    rewrite <- Hse. by apply list_elem_of_filter.
Qed.

Lemma call_next_candidate_ready_exc s :
  ready_exc (call_next_candidate s).1 = ready_exc s.
Proof.
  unfold call_next_candidate, find_next_candidate, no_next_candidate.
  destruct (next_candidate s), (candidates s) as [|c cs] eqn:E; try done.
  - destruct (top_targets_left s); [done|].
    destruct (alter_targets _ _) as [[] ?]; [done|]. simpl. by case_match.
  - cbn [fst]. edestruct (will_not_build_frame (X:=X) (f:=do_nothing)) as (m & pc & ->).
    done.
Qed.

(** The nodes once the candidate is marked. *)
Definition visit (n : nid) (m : nodes) : nodes :=
  if decide (get_state m n = no_state) then set_state pending n m else m.

(** The children pushed by an iteration for [n]. *)
Definition unvisited (m : nodes) (l : list nid) : list nid :=
  filter (λ c, get_state m c = no_state) l.

(** States only change to [failed]. *)
Definition same_or_failed (m m' : nodes) : Prop :=
  ∀ x, get_state m' x = get_state m x ∨ get_state m' x = failed.

Lemma examine_continue n s s' :
  examine n s = (s', Continue) →
  (s' = s ∧ nstate_val pending < nstate_val (get_state (tm_nodes s) n)) ∨
  (nstate_val (get_state (tm_nodes s) n) ≤ nstate_val pending ∧
   ∃ w' l m' pc',
     get_all_children n (world s) = (w', Ok l) ∧
     same_or_failed (visit n (tm_nodes s)) m' ∧
     s' = TM m' w' (original_top s) (top_targets_left s)
            (rev (order (rev (unvisited (visit n (tm_nodes s))
               (get_all_prerequisites w' n ++ l)))) ++ candidates s)
            (message s) (next_candidate s) pc' (current_top s) (ready_exc s)).
Proof.
  unfold examine. intros He. case_decide as Hst; [simplify_eq; by left|right].
  split; [lia|].
  assert ((if decide (get_state (tm_nodes s) n = no_state)
           then with_nodes (set_state pending n) s else s) =
          with_nodes (visit n) s) as Hs1.
  { unfold visit. case_decide as Hd; unfold with_nodes.
    - by rewrite decide_True.
    - rewrite decide_False by done. by destruct s. }
  rewrite Hs1 in He. clear Hs1. simpl in He.
  destruct (get_all_children n (world s)) as [w [l|e]]; [|by destruct e].
  exists w, l. fold (unvisited (visit n (tm_nodes s))
    (get_all_prerequisites w n ++ l)) in He. simpl in He.
  destruct (bool_decide _); simplify_eq.
  { do 2 eexists. split_and!; [done| |reflexivity]. intros x.
    apply (foldl_pred (λ m', get_state m' x = _ ∨ get_state m' x = failed)); [|by left].
    intros m' b _ Hm'. rewrite get_state_set_state. case_decide; auto. }
  destruct (filter _ (_ ++ _)).
  - destruct (filter _ _); simplify_eq. do 2 eexists.
    split_and!; [done| |reflexivity]. intros x. left.
    apply (foldl_inv (λ m, get_state m x) (λ m se, add_to_waiting_s_e se n m) (_ :: _)).
    intros. apply get_state_add_to_waiting_s_e.
  - simplify_eq. do 2 eexists. split_and!; [done| |reflexivity]. intros x. left.
    apply (foldl_inv (λ m, get_state m x) (wait_for n) (_ :: _)).
    intros m b. unfold wait_for.
    pose proof (get_state_add_to_waiting_parents m n x b) as E'.
    destruct (add_to_waiting_parents b n m). by rewrite get_state_add_ref_count.
Qed.

Lemma find_loop_ready fuel s s' n :
  find_next_ready_node_loop fuel s = Some (s', Some n) →
  ready_exc s = None →
  is_Some (ready_exc s') ∨
  ∃ w children, get_all_children n w = (world s', Ok children) ∧ ready n children s'.
Proof.
  revert s. induction fuel as [|fuel IH]; intros s; simpl; [done|].
  intros Hl Hr. rewrite <- (call_next_candidate_ready_exc s) in Hr.
  destruct (call_next_candidate s) as [s1 [c|]]; [|done].
  destruct (examine c s1) as [s2 []] eqn:He.
  - apply (IH s2 Hl). simpl in Hr.
    by destruct (examine_continue _ _ _ He)
      as [[-> _]|(_ & w & l & m' & pc' & _ & _ & ->)].
  - destruct (examine_return _ _ _ _ He Hr) as [-> ?]. by simplify_eq.
Qed.

(** *** Termination of the walk *)

(** A finite set of nodes that the walk cannot leave, while the world is one of
    [W], which the search for children keeps. *)
Record closed (W : X → Prop) (v : gset nid) : Prop := {
  closed_world : ∀ n, keeps W (get_all_children n);
  closed_children : ∀ n w w' l, W w → n ∈ v → get_all_children n w = (w', Ok l) →
    ∀ c, c ∈ l → c ∈ v;
  closed_prerequisites : ∀ n w c, W w → n ∈ v → c ∈ get_all_prerequisites w n → c ∈ v;
  closed_alter : ∀ n w c, W w → n ∈ v → c ∈ (alter_targets w n).1 → c ∈ v
}.

(** The stacks hold nodes of [v] only, and the world is one of [W]. *)
Definition inside (W : X → Prop) (v : gset nid) s : Prop :=
  (∀ c, c ∈ candidates s → c ∈ v) ∧ (∀ c, c ∈ top_targets_left s → c ∈ v) ∧ W (world s).

Definition unv (v : gset nid) s : gset nid :=
  filter (λ x, get_state (tm_nodes s) x = no_state) v.

Definition walk_measure (v : gset nid) s : nat :=
  (length (top_targets_left s) * S (size v) + size (unv v s))%nat.

Lemma unv_bound v s : (size (unv v s) ≤ size v)%nat.
Proof. apply subseteq_size. unfold unv. set_solver. Qed.

(** One iteration that continues: nothing becomes unvisited, the candidate
    itself is visited, and pushed nodes were unvisited nodes of [v]. *)
Lemma examine_inside W v n s s' :
  closed W v → inside W v s → n ∈ v → examine n s = (s', Continue) →
  inside W v s' ∧ next_candidate s' = next_candidate s ∧
  top_targets_left s' = top_targets_left s ∧
  (unv v s' ⊆ unv v s) ∧ (n ∉ unv v s') ∧
  (candidates s' = candidates s ∨
   ∃ c cs, candidates s' = c :: cs ∧ c ∈ unv v s ∧ c ≠ n).
Proof.
  intros Hcl (Hin & Htop & Hw) Hn He.
  destruct (examine_continue _ _ _ He)
    as [[-> Hgt]|(Hle & w & l & m' & pc' & Hch & Hsf & ->)].
  { split_and!; [done..| |by left]. unfold unv. rewrite elem_of_filter.
    intros [E _]. by rewrite E in Hgt. }
  set (nv := unvisited _ _).
  assert (W w) as Hw' by (pose proof (closed_world _ v Hcl n _ Hw) as E; by rewrite Hch in E).
  assert (∀ c, c ∈ nv → c ∈ unv v s ∧ c ≠ n) as Hnv.
  { intros c. unfold nv, unvisited. rewrite list_elem_of_filter.
    intros [Hst Hc]. unfold visit in Hst. unfold unv. rewrite elem_of_filter.
    assert (c ∈ v).
    { apply elem_of_app in Hc as [Hc|Hc];
        [by eapply (closed_prerequisites _ v Hcl n w)|by eapply (closed_children _ v Hcl n (world s))]. }
    case_decide; [rewrite get_state_set_state in Hst; by case_decide|].
    split; [done|]. by intros ->. }
  assert (rev (order (rev nv)) ≡ₚ nv) as Hp
    by by rewrite <- Permutation_rev, order_perm, <- Permutation_rev.
  assert (∀ x, get_state m' x = no_state →
               get_state (tm_nodes s) x = no_state ∧ x ≠ n) as Hns.
  { intros x Hx. destruct (Hsf x) as [E|E]; rewrite Hx in E; [|done].
    unfold visit in E. case_decide as Hd; [|split; [done|by intros ->]].
    rewrite get_state_set_state in E. by case_decide. }
  refine (conj (conj _ (conj Htop Hw')) (conj eq_refl (conj eq_refl (conj _ (conj _ _))))).
  - intros c [Hc|Hc]%elem_of_app; [|by apply Hin].
    rewrite Hp in Hc. apply Hnv in Hc as [Hc _]. unfold unv in Hc. set_solver.
  - intros x. unfold unv. rewrite !elem_of_filter. simpl. naive_solver.
  - unfold unv. rewrite elem_of_filter. simpl. naive_solver.
  - simpl. destruct (rev (order (rev nv))) as [|c cs] eqn:E; [by left|right].
    exists c, (cs ++ candidates s). split; [done|]. apply Hnv. rewrite <- Hp. left.
Qed.

Lemma find_next_candidate_inside W v s s1 n :
  closed W v → inside W v s → find_next_candidate s = (s1, Some n) →
  n ∈ v ∧ inside W v s1 ∧ next_candidate s1 = next_candidate s ∧
  unv v s1 = unv v s ∧
  ((candidates s = n :: candidates s1 ∧ top_targets_left s1 = top_targets_left s) ∨
   length (top_targets_left s) = S (length (top_targets_left s1))).
Proof.
  intros Hcl (Hin & Htop & Hw). unfold find_next_candidate, inside, unv.
  destruct (candidates s) as [|c cs] eqn:Ec.
  2: { intros [= <- <-]. simpl. split_and!; auto; intros; [apply Hin|apply Hin]; set_solver. }
  destruct (top_targets_left s) as [|t ts] eqn:Et; [done|].
  assert (t ∈ v) as Ht by (apply Htop; left).
  assert (∀ c, c ∈ ts → c ∈ v) as Hts by (intros; apply Htop; by right).
  pose proof (closed_alter _ v Hcl t (world s)) as Halt. simpl.
  destruct (alter_targets (world s) t) as [[|a alt] msg].
  { intros [= <- <-]. simpl. rewrite Ec. split_and!; auto. }
  simpl. rewrite Ec.
  destruct (rev (order (a :: alt)) ++ [t]) as [|c cs] eqn:E; [done|].
  intros [= <- <-]. simpl.
  assert (∀ x, x ∈ c :: cs → x ∈ v) as Hcs.
  { assert (c :: cs ≡ₚ (a :: alt) ++ [t]) as Hp
      by by rewrite <- E, <- Permutation_rev, order_perm.
    intros x Hx. rewrite Hp in Hx. set_solver. }
  split_and!; auto; intros; apply Hcs; set_solver.
Qed.

(** The walk ends from every state of a finite closed graph. *)
Lemma find_loop_total W v s :
  closed W v → inside W v s →
  ∃ fuel r, find_next_ready_node_loop fuel s = Some r.
Proof.
  intros Hcl. remember (walk_measure v s) as k eqn:Hk. revert s Hk.
  induction (lt_wf k) as [k _ IHk]; intros s -> Hin.
  (* one iteration, from the state after the candidate was taken *)
  assert (∀ s0 s1 n, call_next_candidate s0 = (s1, Some n) →
    (∀ s2, examine n s1 = (s2, Continue) →
       ∃ fuel r, find_next_ready_node_loop fuel s2 = Some r) →
    ∃ fuel r, find_next_ready_node_loop fuel s0 = Some r) as Hone.
  { intros s0 s1 n E1 E2. destruct (examine n s1) as [s2 [|o]] eqn:E.
    - destruct (E2 s2 eq_refl) as (fuel & r & E3). exists (S fuel), r. simpl.
      by rewrite E1, E.
    - exists 1%nat, (s2, o). simpl. by rewrite E1, E. }
  assert (∀ s1, (walk_measure v s1 < walk_measure v s)%nat → inside W v s1 →
    ∃ fuel r, find_next_ready_node_loop fuel s1 = Some r) as Hsmall.
  { intros s1 Hlt. by apply (IHk _ Hlt). }
  (* an iteration for an unvisited node, or for a top target, goes down *)
  assert (∀ s0 s1 n, inside W v s1 → n ∈ v → call_next_candidate s0 = (s1, Some n) →
    (walk_measure v s1 ≤ walk_measure v s)%nat →
    (n ∈ unv v s1 ∨ (walk_measure v s1 < walk_measure v s)%nat) →
    ∃ fuel r, find_next_ready_node_loop fuel s0 = Some r) as Hdown.
  { intros s0 s1 n Hi Hn E1 Hle Hor. apply (Hone s0 s1 n E1). intros s2 E2.
    destruct (examine_inside W v n s1 s2 Hcl Hi Hn E2) as (Hi2 & _ & Ht & Hu & Hnu & _).
    apply Hsmall; [|done]. unfold walk_measure in *. rewrite Ht.
    pose proof (subseteq_size _ _ Hu). destruct Hor as [Hnv|]; [|lia].
    assert (unv v s2 ⊂ unv v s1) as Hs%subset_size by set_solver. lia. }
  (* the remaining iterations shorten the stack *)
  enough (∀ k s0, (length (candidates s0) ≤ k)%nat → inside W v s0 →
    (walk_measure v s0 ≤ walk_measure v s)%nat →
    ∃ fuel r, find_next_ready_node_loop fuel s0 = Some r) as Hin_len
    by by eapply (Hin_len _ s).
  induction k as [|k IHlen]; intros s0 Hlen Hi Hle.
  all: destruct (call_next_candidate s0) as [s1 [n|]] eqn:E1;
    [|exists 1%nat, (s1, None); simpl; by rewrite E1].
  all: pose proof E1 as E1'; unfold call_next_candidate in E1';
    destruct (next_candidate s0) eqn:Em;
    [|unfold no_next_candidate in E1'; by destruct (candidates s0)].
  all: destruct (find_next_candidate_inside W v s0 s1 n Hcl Hi E1')
      as (Hn & Hi1 & Hm & Hu & [[Hc Ht]|Ht]);
    [|eapply Hdown; [done..| |right]; unfold walk_measure in *; rewrite Hu; lia].
  { rewrite Hc in Hlen. simpl in Hlen. lia. }
  assert (walk_measure v s1 = walk_measure v s0) as Hw.
  { unfold walk_measure. by rewrite Ht, Hu. }
  destruct (decide (n ∈ unv v s1)) as [Hnv|Hnv];
    [eapply Hdown; [done..|lia|by left]|].
  apply (Hone s0 s1 n E1). intros s2 E2.
  destruct (examine_inside W v n s1 s2 Hcl Hi1 Hn E2)
    as (Hi2 & Hm2 & Ht2 & Hu2 & _ & [Hc2|(c & cs & Hc2 & Hcu & Hcn)]).
  { apply IHlen; [rewrite Hc2; rewrite Hc in Hlen; simpl in Hlen; lia|done|].
    pose proof (subseteq_size _ _ Hu2). unfold walk_measure in *. rewrite Ht2. lia. }
  destruct (decide (size (unv v s2) < size (unv v s1))%nat) as [Hlt|Hge].
  { apply Hsmall; [|done]. unfold walk_measure in *. rewrite Ht2. lia. }
  assert (unv v s2 = unv v s1) as Hueq by (apply set_subseteq_size_eq; [done|lia]).
  eapply (Hdown s2 (with_candidates cs s2) c).
  - destruct Hi2 as [Hi2 Hi2']. split; [|done]. intros x Hx. apply Hi2.
    rewrite Hc2. by right.
  - unfold unv in Hcu. set_solver.
  - unfold call_next_candidate, find_next_candidate. rewrite Hm2, Hm, Em, Hc2. done.
  - unfold walk_measure in *. simpl. fold (unv v s2).
    change (unv v (with_candidates cs s2)) with (unv v s2).
    rewrite Ht2, Hueq. lia.
  - left. change (unv v (with_candidates cs s2)) with (unv v s2). by rewrite Hueq.
Qed.

(** *** [Task.postprocess] *)

(** How many nodes of a list [p] waits for. *)
Definition waited (m : nodes) (l : list nid) (p : nid) : nat :=
  length (filter (λ t, p ∈ waiting_parents (get m t)) l).

Lemma waited_cons m t l p :
  waited m (t :: l) p = (waited m l p + waits (waiting_parents (get m t)) p)%nat.
Proof. unfold waited, waits. rewrite filter_cons. case_decide; simpl; lia. Qed.

Lemma waited_ext m m' l p :
  (∀ x, x ∈ l → waiting_parents (get m x) = waiting_parents (get m' x)) →
  waited m l p = waited m' l p.
Proof.
  induction l as [|t l IH]; intros E; [done|].
  rewrite !waited_cons, IH, E; set_solver.
Qed.

(** No side effect of the targets is left in the executing state. *)
Definition quiet (ts : list nid) s : Prop :=
  ∀ t se, t ∈ ts → se ∈ side_effects (world s) t →
    get_state (tm_nodes s) se ≠ executing.

Lemma count_parents_lookup ps w p :
  default 0 (count_parents ps w !! p) =
  default 0 (ps !! p) + (if decide (p ∈ w) then 1 else 0).
Proof.
  unfold count_parents. pose proof (NoDup_set_iter w) as Hnd.
  pose proof (elem_of_set_iter w p) as Hel.
  assert (∀ l ps, NoDup l →
    default 0 (foldl (λ ps p, <[p := default 0 (ps !! p) + 1]> ps) ps l !! p) =
    default 0 ((ps : gmap nid Z) !! p) + (if decide (p ∈ l) then 1 else 0)) as Hgen.
  { clear. induction l as [|q l IH]; intros ps Hl; cbn [foldl].
    - rewrite decide_False by set_solver. lia.
    - inversion_clear Hl as [|?? Hq Hl']. rewrite IH by done.
      rewrite lookup_insert. destruct (decide (q = p)) as [->|Hne]; cbn [default].
      + rewrite decide_False, decide_True by set_solver. cbn. lia.
      + f_equal. by apply decide_ext; set_solver. }
  rewrite Hgen by done. f_equal. by apply decide_ext.
Qed.

Lemma count_parents_dom ps w : dom (count_parents ps w) = dom ps ∪ w.
Proof.
  unfold count_parents.
  assert (∀ l ps, dom (foldl (λ ps p, <[p := default 0 (ps !! p) + 1]> ps) ps l)
    = dom (ps : gmap nid Z) ∪ list_to_set l) as ->.
  { clear. induction l as [|q l IH]; intros ps; cbn [foldl]; [set_solver|].
    rewrite IH, dom_insert_L. set_solver. }
  f_equal. apply set_eq. intros x.
  by rewrite elem_of_list_to_set, elem_of_set_iter.
Qed.

(** The first loop. *)
Lemma post_targets_spec l s ps s' ps' :
  foldl post_target (s, ps) l = (s', ps') →
  tm_nodes s' = tm_nodes s ∧ world s' = world s ∧ candidates s' = candidates s ∧
  next_candidate s' = next_candidate s ∧
  (∀ p, default 0 (ps' !! p) =
        default 0 (ps !! p) + Z.of_nat (waited (tm_nodes s) l p)) ∧
  (∀ p, p ∈ dom ps' ↔ p ∈ dom ps ∨ waited (tm_nodes s) l p ≠ 0%nat) ∧
  (∀ x, x ∈ pending_children s' ↔ x ∈ pending_children s ∧
     ¬ (x ∈ l ∧ waiting_parents (get (tm_nodes s) x) ≠ ∅)).
Proof.
  revert s ps. induction l as [|t l IH]; intros s ps; cbn [foldl].
  { intros [= <- <-]. change (waited (tm_nodes s) []) with (λ _ : nid, 0%nat).
    split_and!; auto; intros; try lia; set_solver. }
  set (s1 := (post_target (s, ps) t).1). set (ps1 := (post_target (s, ps) t).2).
  replace (post_target (s, ps) t) with (s1, ps1) by (by destruct (post_target (s, ps) t)).
  intros Hf. apply IH in Hf as (Hn & Hw & Hc & Hnc & Hps & Hdom & Hpc).
  assert (tm_nodes s1 = tm_nodes s ∧ world s1 = world s ∧ candidates s1 = candidates s ∧
          next_candidate s1 = next_candidate s) as (En & Ew & Ec & Enc)
    by (subst s1; unfold post_target; simpl; by case_decide).
  rewrite En in *. rewrite Ew, Ec, Enc in *.
  assert (ps1 = count_parents ps (waiting_parents (get (tm_nodes s) t))) as Ep
    by (by subst ps1).
  split_and!; auto.
  - intros p. rewrite Hps, waited_cons, Ep, count_parents_lookup. unfold waits. case_decide; lia.
  - intros p. rewrite Hdom, Ep, count_parents_dom, waited_cons.
    unfold waits.      rewrite elem_of_union. case_decide; split; intros; intuition lia.
  - intros x. rewrite Hpc. subst s1. unfold post_target. simpl.
    case_decide as E; simpl; set_solver.
Qed.

(** Two states that differ by pushed candidates only. *)
Definition pushed_only s s' : Prop :=
  ∃ l, s' = with_candidates (l ++ candidates s) s.

Lemma pushed_only_refl s : pushed_only s s.
Proof. exists []. by destruct s. Qed.

Lemma pushed_only_trans s1 s2 s3 :
  pushed_only s1 s2 → pushed_only s2 s3 → pushed_only s1 s3.
Proof. intros [l1 ->] [l2 ->]. exists (l2 ++ l1). by rewrite <- app_assoc. Qed.

Lemma requeue_pushed s p : pushed_only s (requeue s p).
Proof.
  unfold requeue, push_candidate.
  case_decide; [by exists [p]|apply pushed_only_refl].
Qed.

Lemma post_side_effects_quiet ts s ps :
  quiet ts s →
  ∃ s', foldl (λ sp t, foldl post_side_effect sp (side_effects (world sp.1) t))
          (s, ps) ts = (s', ps) ∧ pushed_only s s'.
Proof.
  intros Hq.
  enough (∀ sp : tm X * gmap nid Z, pushed_only s sp.1 ∧ sp.2 = ps →
    let sp' := foldl (λ sp t, foldl post_side_effect sp
                 (side_effects (world sp.1) t)) sp ts in
    pushed_only s sp'.1 ∧ sp'.2 = ps) as Hen.
  { destruct (Hen (s, ps)) as [Hp Hps]; [by split; [apply pushed_only_refl|]|].
    cbn zeta in Hp, Hps. destruct (foldl _ _ ts) as [s' ps']. simpl in *. subst.
    by exists s'. }
  intros sp Hsp.
  apply (foldl_pred (λ sp : tm X * gmap nid Z, pushed_only s sp.1 ∧ sp.2 = ps));
    [|done].
  clear sp Hsp. intros sp t Ht Hsp.
  assert (world sp.1 = world s) as Hw by (by destruct Hsp as [[l ->] _]).
  apply foldl_pred; [|done]. clear Hsp. intros [s1 ps1] se Hse [Hp Hps]. simpl in *.
  rewrite decide_False.
  2: { destruct Hp as [l ->]. simpl. apply (Hq t); [done|]. by rewrite <- Hw. }
  split; [|done]. eapply pushed_only_trans; [exact Hp|]. simpl.
  apply (foldl_pred (λ s2, pushed_only s1 s2)); [|apply pushed_only_refl].
  intros s2 p _ Hs2. eapply pushed_only_trans; [exact Hs2|]. apply requeue_pushed.
Qed.

(** The third loop, over a list of parents without duplicates. *)
Lemma post_parents_spec (parents : gmap nid Z) l s :
  let s' := foldl (post_parent parents) s l in
  let dec p := if decide (p ∈ l) then default 0 (parents !! p) else 0 in
  NoDup l →
  world s' = world s ∧ next_candidate s' = next_candidate s ∧
  pending_children s' = pending_children s ∧
  (∀ x, get_state (tm_nodes s') x = get_state (tm_nodes s) x) ∧
  (∀ x, waiting_parents (get (tm_nodes s') x) = waiting_parents (get (tm_nodes s) x)) ∧
  (∀ x, nwait (tm_nodes s') x = nwait (tm_nodes s) x) ∧
  (∀ p, ref_count (get (tm_nodes s') p) = ref_count (get (tm_nodes s) p) - dec p) ∧
  (∀ p, p ∈ candidates s → p ∈ candidates s') ∧
  (∀ p, p ∈ l → ref_count (get (tm_nodes s') p) = 0 → p ∈ candidates s').
Proof.
  revert s. induction l as [|q l IH]; intros s; cbn [foldl]; intros Hl.
  { split_and!; auto; [|set_solver]. intros p. rewrite decide_False by set_solver. lia. }
  inversion_clear Hl as [|?? Hq Hl'].
  set (s1 := post_parent parents s q).
  assert (world s1 = world s ∧ next_candidate s1 = next_candidate s ∧
    pending_children s1 = pending_children s ∧
    tm_nodes s1 = add_ref_count (- default 0 (parents !! q)) q (tm_nodes s)) as
    (Ew & En & Ep & Et) by (subst s1; unfold post_parent, requeue; by case_decide).
  destruct (IH s1 Hl') as (Hw & Hn & Hp & Hst & Hwp & Hnw & Hrc & Hc & Hcz).
  rewrite Et in *. split_and!; try congruence.
  - intros x. by rewrite Hst, get_state_add_ref_count.
  - intros x. by rewrite Hwp, waiting_parents_add_ref_count.
  - intros x. by rewrite Hnw, nwait_add_ref_count.
  - intros p. rewrite Hrc, ref_count_add_ref_count.
    destruct (decide (q = p)) as [->|Hne];
      [rewrite decide_False, decide_True by set_solver; lia|].
    rewrite (decide_ext (p ∈ l) (p ∈ q :: l)) by set_solver. lia.
  - intros p Hpc. apply Hc. subst s1. unfold post_parent, requeue.
    case_decide; simpl; set_solver.
  - intros p [->|Hpl]%elem_of_cons Hz; [|by apply Hcz].
    apply Hc. subst s1. unfold post_parent, requeue.
    rewrite Hrc in Hz. rewrite decide_False in Hz by done.
    rewrite decide_True; [left|]. simpl. lia.
Qed.

(** The last loop. *)
Lemma Node_postprocess_spec l s :
  let s' := foldl Node_postprocess s l in
  NoDup l →
  next_candidate s' = next_candidate s ∧ candidates s' = candidates s ∧
  pending_children s' = pending_children s ∧
  (∀ x, get_state (tm_nodes s') x = get_state (tm_nodes s) x) ∧
  (∀ x, ref_count (get (tm_nodes s') x) = ref_count (get (tm_nodes s) x)) ∧
  (∀ x, waiting_parents (get (tm_nodes s') x) =
        if decide (x ∈ l) then ∅ else waiting_parents (get (tm_nodes s) x)) ∧
  (∀ p, (nwait (tm_nodes s') p + waited (tm_nodes s) l p = nwait (tm_nodes s) p)%nat).
Proof.
  revert s. induction l as [|t l IH]; intros s; cbn [foldl]; intros Hl.
  { by split_and!. }
  inversion_clear Hl as [|?? Ht Hl'].
  destruct (IH (Node_postprocess s t) Hl') as (Hn & Hc & Hp & Hst & Hrc & Hwp & Hnw).
  simpl in *. split_and!; try done.
  - intros x. by rewrite Hst, get_state_set_waiting_parents.
  - intros x. by rewrite Hrc, ref_count_set_waiting_parents.
  - intros x. rewrite Hwp, waiting_parents_set_waiting_parents.
    destruct (decide (t = x)) as [->|];
      [rewrite (decide_True (P:=x ∈ x :: l)) by set_solver; by case_decide|].
    by rewrite (decide_ext (x ∈ l) (x ∈ t :: l)) by set_solver.
  - intros p. specialize (Hnw p).
    rewrite (waited_ext _ (tm_nodes s)) in Hnw.
    2: { intros x Hx. rewrite waiting_parents_set_waiting_parents, decide_False; [done|].
         by intros ->. }
    pose proof (nwait_set_waiting_parents_empty t (tm_nodes s) p) as E.
    rewrite waited_cons. lia.
Qed.

Lemma waited_perm m l l' p : l ≡ₚ l' → waited m l p = waited m l' p.
Proof. intros E. unfold waited. by rewrite E. Qed.

(** What [postprocess] does when no side effect is left executing. *)
Lemma postprocess_quiet t s :
  let ts := set_iter (list_to_set (targets t)) in
  let s' := Task_postprocess t s in
  quiet (targets t) s →
  next_candidate s' = next_candidate s ∧
  (∀ x, get_state (tm_nodes s') x = get_state (tm_nodes s) x) ∧
  (∀ x, waiting_parents (get (tm_nodes s') x) =
        if decide (x ∈ targets t) then ∅ else waiting_parents (get (tm_nodes s) x)) ∧
  (∀ p, ref_count (get (tm_nodes s') p) =
        ref_count (get (tm_nodes s) p) - Z.of_nat (waited (tm_nodes s) ts p)) ∧
  (∀ p, (nwait (tm_nodes s') p + waited (tm_nodes s) ts p = nwait (tm_nodes s) p)%nat) ∧
  (∀ x, x ∈ pending_children s' ↔ x ∈ pending_children s ∧
     ¬ (x ∈ targets t ∧ waiting_parents (get (tm_nodes s) x) ≠ ∅)) ∧
  (∀ p, p ∈ candidates s → p ∈ candidates s') ∧
  (∀ p, waited (tm_nodes s) ts p ≠ 0%nat → ref_count (get (tm_nodes s') p) = 0 →
        p ∈ candidates s').
Proof.
  intros ts s' Hq. subst s'. unfold Task_postprocess. fold ts.
  assert (∀ x, x ∈ ts ↔ x ∈ targets t) as Hts.
  { intros x. subst ts. by rewrite elem_of_set_iter, elem_of_list_to_set. }
  destruct (foldl post_target (s, ∅) ts) as [s1 ps] eqn:E1.
  destruct (post_targets_spec _ _ _ _ _ E1) as (Hn1 & Hw1 & Hc1 & Hnc1 & Hps & Hdom & Hpc).
  destruct (post_side_effects_quiet ts s1 ps) as (s2 & E2 & l2 & ->).
  { intros x se Hx. rewrite Hn1, Hw1. apply Hq. by apply Hts. }
  rewrite E2. set (s2 := with_candidates _ s1).
  destruct (post_parents_spec ps (set_iter (dom ps)) s2 (NoDup_set_iter _))
    as (Hw3 & Hn3 & Hp3 & Hst3 & Hwp3 & Hnw3 & Hrc3 & Hc3 & Hz3).
  set (s3 := foldl (post_parent ps) s2 _) in *.
  destruct (Node_postprocess_spec ts s3 (NoDup_set_iter _))
    as (Hn4 & Hc4 & Hp4 & Hst4 & Hrc4 & Hwp4 & Hnw4).
  assert (∀ p, waited (tm_nodes s3) ts p = waited (tm_nodes s) ts p) as Hwt.
  { intros p. apply waited_ext. intros x _. rewrite Hwp3. simpl. by rewrite Hn1. }
  assert (∀ p, ref_count (get (tm_nodes s3) p) =
    ref_count (get (tm_nodes s) p) - Z.of_nat (waited (tm_nodes s) ts p)) as Hrc.
  { intros p. rewrite Hrc3. simpl. rewrite Hn1. specialize (Hps p).
    rewrite lookup_empty in Hps. simpl in Hps. specialize (Hdom p).
    case_decide as Hd; rewrite elem_of_set_iter in Hd; [lia|].
    assert (waited (tm_nodes s) ts p = 0%nat); [|lia].
    destruct (waited (tm_nodes s) ts p); [done|]. destruct Hd, Hdom as [_ Hdom].
    apply Hdom. by right. }
  split_and!.
  - rewrite Hn4, Hn3. simpl. done.
  - intros x. rewrite Hst4, Hst3. simpl. by rewrite Hn1.
  - intros x. rewrite Hwp4, Hwp3. simpl. rewrite Hn1. by apply decide_ext.
  - intros p. by rewrite Hrc4, Hrc.
  - intros p. specialize (Hnw4 p). rewrite Hwt, Hnw3 in Hnw4.
    rewrite Hnw4. simpl. by rewrite Hn1.
  - intros x. rewrite Hp4, Hp3. simpl. rewrite Hpc, Hts. done.
  - intros p Hp. rewrite Hc4. apply Hc3. simpl. rewrite Hc1. set_solver.
  - intros p Hp Hz. rewrite Hc4. apply Hz3; [|by rewrite <- Hrc4].
    rewrite elem_of_set_iter, Hdom. by right.
Qed.
End engine.

(** ** Properties of the walk *)
Section properties.
Context {X : Type} `{NodeWorld X} `{Orders}.
Implicit Types s : tm X.

(** C3: a node handed out for building with no recorded exception is
    pending, everything its executor depends on (order-only prerequisites
    included) is up to date or executed, and no side effect of its action
    is being built. *)
Theorem find_next_ready_node_safe fuel s s' n :
  find_next_ready_node fuel s = Some (s', Some n) →
  ready_exc s' = None →
  ∃ w children, get_all_children n w = (world s', Ok children) ∧ ready n children s'.
Proof.
  intros Hf Hr. destruct (find_loop_ready _ _ _ _ Hf) as [[e He]|]; try done. congruence.
Qed.

(** C4: on a finite graph closed under children, prerequisites and alternate
    targets, the search for a ready node ends: some number of iterations is
    enough. *)
Theorem find_next_ready_node_total W v s :
  closed W v → inside W v s → ∃ fuel r, find_next_ready_node fuel s = Some r.
Proof. intros. by eapply (find_loop_total W v). Qed.

(** C5: the search keeps the reference counts exact: the count of every
    node is the number of nodes that list it as a waiting parent. *)
Theorem find_next_ready_node_ref_inv fuel s s' o :
  find_next_ready_node fuel s = Some (s', o) →
  ref_inv (tm_nodes s) → ref_inv (tm_nodes s').
Proof. apply (ref_inv_find_loop fuel (with_ready_exc None s)). Qed.

(** [will_not_build] with the failing function marks as failed exactly
    the given nodes and all nodes that wait for them, directly or not,
    empties their waiting parents, takes them out of the pending children,
    and keeps the reference counts exact. *)
Theorem will_not_build_failed ns s :
  let s' := will_not_build ns (set_state failed) s in
  ∃ d, wnb_outcome (λ _, failed) ns s s' d ∧
       (ref_inv (tm_nodes s) → ref_inv (tm_nodes s')).
Proof. apply will_not_build_spec. Qed.

(** C8: when no side effect of the targets is left executing ([quiet]) and the
    reference counts are exact, [postprocess] lowers the reference count of every waiting parent by the
    number of targets it waited for, keeps the counts exact, empties the
    waiting parents of the targets, and every parent that waits for nothing
    more is back on the candidate list: no wake-up is lost. *)
Theorem postprocess_wakes t s p :
  let ts := set_iter (list_to_set (targets t)) in
  let s' := Task_postprocess t s in
  quiet (targets t) s → ref_inv (tm_nodes s) →
  ref_inv (tm_nodes s') ∧
  (p ∈ targets t → waiting_parents (get (tm_nodes s') p) = ∅) ∧
  ref_count (get (tm_nodes s') p) =
    ref_count (get (tm_nodes s) p) - Z.of_nat (waited (tm_nodes s) ts p) ∧
  (waited (tm_nodes s) ts p ≠ 0%nat → nwait (tm_nodes s') p = 0%nat →
   p ∈ candidates s').
Proof.
  intros ts s' Hq HI.
  destruct (postprocess_quiet t s Hq)
    as (_ & _ & Hwp & Hrc & Hnw & _ & _ & Hz).
  assert (ref_inv (tm_nodes s')) as HI'.
  { intros q. subst s'. rewrite Hrc, HI. specialize (Hnw q). lia. }
  split_and!; [done|intros Hp; subst s'; by rewrite Hwp, decide_True|apply Hrc|].
  intros Hw Hn. apply Hz; [done|]. fold s'. rewrite HI', Hn. done.
Qed.

(** After [stop], nothing more is handed out and no candidate is left. *)
Lemma stopped_next fuel s :
  next_candidate s = no_next_candidate_m →
  ∃ s', find_next_ready_node (S fuel) s = Some (s', None) ∧ candidates s' = [].
Proof.
  intros Hm. unfold find_next_ready_node. simpl. unfold call_next_candidate.
  simpl. rewrite Hm. unfold no_next_candidate. simpl.
  destruct (candidates s) as [|c cs] eqn:E; [by eexists|].
  destruct (will_not_build_frame (X:=X) (f:=do_nothing) (c :: cs)
    (with_candidates [] (with_ready_exc None s))) as (m & pc & E').
  rewrite E'. by eexists.
Qed.

(** C9: a task that fails with the default [failed] method stops the walk:
    its targets and all nodes waiting for them are failed, the task is left
    with the current top-level target, and the next search hands out no
    node and leaves no candidate. *)
Theorem fail_stop_stops t s s' t' fuel :
  fail_stop t s = (s', Ok t') →
  (∀ n, above (tm_nodes s) (list_to_set (targets t)) n →
        get_state (tm_nodes s') n = failed) ∧
  (∃ n, current_top s = Some n ∧ targets t' = [n] ∧ top t' = true) ∧
  ∃ s'', find_next_ready_node (S fuel) s' = Some (s'', None) ∧ candidates s'' = [].
Proof.
  unfold fail_stop. intros Hf.
  destruct (will_not_build_spec (f:=set_state failed) (targets t) s)
    as (d & (Hd & Hst & _) & _).
  destruct (will_not_build_frame (f:=set_state failed) (targets t) s) as (m & pc & E).
  assert (current_top (stop (will_not_build (targets t) (set_state failed) s)) =
          current_top s) as Et by (by rewrite E).
  rewrite Et in Hf. destruct (current_top s) as [n|]; simplify_eq. split_and!.
  - intros x Hx. simpl. rewrite Hst, decide_True; [done|]. by apply Hd.
  - by exists n.
  - by apply stopped_next.
Qed.

Lemma foldl_mark_executing l s x :
  x ∈ l ∨ get_state (tm_nodes s) x = executing →
  get_state (tm_nodes (foldl (λ s t, mark_executing t s) s l)) x = executing.
Proof.
  revert s. induction l as [|t l IH]; intros s Hx; cbn [foldl].
  { destruct Hx as [Hx|]; [set_solver|done]. }
  apply IH. destruct (decide (x ∈ l)); [by left|right].
  assert (get_state (set_state executing t (tm_nodes s)) x = executing) as Hs.
  { rewrite get_state_set_state. case_decide; set_solver. }
  unfold mark_executing, mark_side_effects. simpl.
  apply (foldl_pred (λ m, get_state m x = executing)); [|done].
  intros m se _ Hm. rewrite get_state_set_state. by case_decide.
Qed.

Lemma foldl_up_to_date l s x :
  x ∈ l ∨ get_state (tm_nodes s) x = up_to_date →
  get_state (tm_nodes (foldl (λ s t, with_nodes (set_state up_to_date t)
    (with_world (visited t) s)) s l)) x = up_to_date.
Proof.
  revert s. induction l as [|t l IH]; intros s Hx; cbn [foldl].
  { destruct Hx as [Hx|]; [set_solver|done]. }
  apply IH. destruct (decide (x ∈ l)); [by left|right]. simpl.
  rewrite get_state_set_state. case_decide; set_solver.
Qed.

(** when the default [make_ready] returns, either no target is out of
    date and every target is up to date, or some target is out of date and
    every target is executing; it is never a mixture. *)
Theorem make_ready_current_all t s s' t' :
  make_ready_current t (s, t) = (s', t', Ok tt) →
  targets t' = targets t ∧
  ((out_of_date t' = [] ∧
    ∀ n, n ∈ targets t → get_state (tm_nodes s') n = up_to_date) ∨
   (out_of_date t' ≠ [] ∧
    ∀ n, n ∈ targets t → get_state (tm_nodes s') n = executing)).
Proof.
  unfold make_ready_current.
  destruct (check_targets (targets t) [] s) as [[s1 ood] [|]] eqn:E; [|done].
  intros [= <- <-]. split; [done|].
  destruct ood; [left|right]; split; [done| |done|]; intros x Hx;
    [apply foldl_up_to_date|apply foldl_mark_executing]; by left.
Qed.

(** [execute] lets out only three kinds of exceptions: an explicit exit
    for the first target, a user error, or a build error; and a build error
    that was made from another exception names the first target. *)
Theorem execute_errors t s s' e n ts :
  targets t = n :: ts → Task_execute t s = (s', Raise e) →
  (∃ code, e = ExExplicitExit (Some n) code) ∨ (∃ msg, e = ExUserError msg) ∨
  (∃ b, e = ExBuildError b ∧
     (be_node b = Some (ANode n) ∨
      ∃ s1, (let! cached := execute_cached (n :: ts) in
             if cached : bool then eret tt else let! m := target0 t in liftw (build m))%eff s
            = (s1, Raise (ExBuildError b)))).
Proof.
  intros Ht. unfold Task_execute, ecatch. rewrite Ht.
  destruct ((let! cached := execute_cached (n :: ts) in
    if cached : bool then eret tt else let! m := target0 t in liftw (build m))%eff s)
    as [s1 [[]|e1]] eqn:E; [done|].
  unfold target0. rewrite Ht. unfold ebind, eret, eraise.
  destruct e1; intros [= <- <-]; eauto 10.
Qed.

Lemma cycle_of_spec m n :
  match cycle_of m n with
  | Some c => tc (waits_for m) n n ∧ chain m (rev c) ∧ head c = Some n ∧ last c = Some n
  | None => ¬ tc (waits_for m) n n
  end.
Proof.
  unfold cycle_of.
  destruct (find_cycle_total m n (S (S (size m))) [] n ∅) as [[[found st] v] E].
  { rewrite <- size_dom. assert (size (dom m ∖ ∅) ≤ size (dom m))%nat; [|lia].
    apply subseteq_size. set_solver. }
  rewrite E. apply find_cycle_ok in E as [Hok Hin]. destruct found.
  - destruct Hok as (path & Hne & -> & Hh & Hch). specialize (Hch I).
    destruct path as [|b path]; [done|]. simpl in Hh. simplify_eq.
    rewrite rev_involutive. split_and!; [by eapply chain_tc|done| |].
    + by rewrite rev_app_distr.
    + simpl. by rewrite last_snoc.
  - destruct Hok as (_ & _ & Hcl). simpl in Hin. specialize (Hin eq_refl).
    assert (∀ y, tc (waits_for m) n y → y ∈ v ∧ y ≠ n) as Hall.
    { refine (tc_ind_r _ n _ _).
      - intros y Hy. by apply (Hcl n).
      - intros y z _ Hyz [Hy _]. apply (Hcl y); [done|set_solver|done]. }
    intros Htc. by destruct (Hall n Htc).
Qed.

(** [cleanup] returns exactly when every pending child is executed and
    lies on no cycle of waiting parents; otherwise it raises a user error. *)
Theorem cleanup_detects_cycles s :
  (cleanup s = Ok tt ↔
   ∀ n, n ∈ pending_children s →
     get_state (tm_nodes s) n = executed ∧ ¬ tc (waits_for (tm_nodes s)) n n) ∧
  (cleanup s = Ok tt ∨ ∃ desc, cleanup s = Raise (ExUserError desc)).
Proof.
  unfold cleanup. set (nclist := _ <$> _).
  set (P := λ nc : nid * option (list nid), _ ∨ _).
  assert ((∀ nc, nc ∈ nclist → ¬ P nc) ↔ ∀ x, x ∈ pending_children s →
    get_state (tm_nodes s) x = executed ∧ ¬ tc (waits_for (tm_nodes s)) x x) as <-.
  { assert (∀ x, ¬ P (x, cycle_of (tm_nodes s) x) ↔
      get_state (tm_nodes s) x = executed ∧ ¬ tc (waits_for (tm_nodes s)) x x) as HP.
    { intros x. pose proof (cycle_of_spec (tm_nodes s) x) as Hc. subst P. simpl.
      destruct (cycle_of (tm_nodes s) x) as [c|]; [naive_solver|].
      destruct (decide (get_state (tm_nodes s) x = executed)); [|naive_solver].
      split; [done|]. intros _ [[? ?]|]; done. }
    subst nclist. split.
    - intros Hall x Hx. apply HP, Hall, list_elem_of_fmap. exists x.
      by rewrite elem_of_set_iter.
    - intros Hall nc (x & -> & Hx)%list_elem_of_fmap. apply HP, Hall.
      by apply elem_of_set_iter. }
  destruct (filter P nclist) as [|nc l] eqn:E.
  - split; [|by left]. split; [|done]. intros _ nc Hnc HP.
    assert (nc ∈ filter P nclist) as Hx by by apply list_elem_of_filter.
    rewrite E in Hx. set_solver.
  - split; [|right; by eexists]. split; [done|]. intros Hall. exfalso.
    assert (nc ∈ filter P nclist) as [HP Hnc]%list_elem_of_filter by (rewrite E; left).
    by apply (Hall nc).
Qed.
End properties.
