(* ===== verification/TaskmasterWitness.v ===== *)
(** * The task master on concrete graphs

    A finite graph given by tables is an instance of [NodeWorld]; the
    theorems of [TaskmasterFacts.v] are applied to it on concrete states. *)

From S2P Require Import Prelude Errors NodeState Taskmaster TaskmasterFacts.
Open Scope Z_scope.

(** Sets are iterated in the order of their elements, and candidates are
    taken in the order given. *)
#[export] Instance demo_orders : Orders :=
  {| set_iter := elements; set_iter_perm := λ _, reflexivity _;
     order := id; order_perm := λ _, reflexivity _ |}.

(** A graph: the children of each node, the side effects of building it, and
    the nodes whose build fails.  The state is the list of nodes built. *)
Record demo_graph := DemoGraph {
  dg_children : list (list nid);
  dg_side_effects : list (list nid);
  dg_fails : list nid
}.

Definition at_ (l : list (list nid)) (n : nid) : list nid := default [] (l !! n).

Definition demo_world (g : demo_graph) : NodeWorld (list nid) := {|
  get_all_targets := λ _ n, [n];
  get_action_targets := λ _ n, [n];
  get_all_children := λ n, eret (at_ (dg_children g) n);
  get_all_prerequisites := λ _ _, [];
  get_action_side_effects := λ _ n, at_ (dg_side_effects g) n;
  executor_prepare := λ _, eret tt;
  side_effects := λ _ n, at_ (dg_side_effects g) n;
  alter_targets := λ _ _, ([], None);
  prepare := λ _, eret tt;
  make_ready := λ _, eret tt;
  has_builder := λ _ n, bool_decide (at_ (dg_children g) n ≠ []);
  always_build := λ _ _, false;
  is_up_to_date := λ _ _, eret false;
  retrieve_from_cache := λ _, eret false;
  build := λ n, if decide (n ∈ dg_fails g)
                then eraise (ExOther "OSError" "no space")
                else emod (λ w, w ++ [n]);
  push_to_cache := λ _ w, w;
  built := λ _ _ w, w;
  visited := λ _ w, w;
  executor_cleanup := λ _ w, w;
  node_str := λ _ n, pretty n;
  node_repr := λ _ n, "<node " +:+ pretty n +:+ ">"
|}.

(** A diamond: 0 needs 1 and 2, which both need 3; 3 has no builder. *)
Definition diamond : demo_graph := DemoGraph [[1;2];[3];[3];[]]%nat [] [].
(** 0 needs 1 and 1 needs 0. *)
Definition two_cycle : demo_graph := DemoGraph [[1];[0]]%nat [] [].

Section diamond.
#[local] Existing Instance demo_world.
#[local] Instance diamond_world : NodeWorld (list nid) := demo_world diamond.

Definition d0 : tm (list nid) := Taskmaster_init [] ∅ [0%nat].
(** The state after the first search, which finds the source 3. *)
Definition d1 : tm (list nid) :=
  match find_next_ready_node 10 d0 with Some (s, _) => s | None => d0 end.
Definition t1 : task := Task [3%nat] false 3%nat [] None.
Definition d2 : tm (list nid) := (Task_make_ready make_ready_current_k t1 d1).1.1.

Lemma ref_inv_empty : ref_inv ∅.
Proof. intros p. reflexivity. Qed.

Lemma diamond_closed : closed (λ _, True) {[0;1;2;3]}%nat.
Proof.
  split.
  - by intros n w _.
  - intros n w w' l _ Hn [= <- <-] c Hc.
    assert (n = 0 ∨ n = 1 ∨ n = 2 ∨ n = 3)%nat as [->|[->|[->| ->]]] by set_solver;
      simpl in Hc; set_solver.
  - intros n w c _ _ Hc. simpl in Hc. set_solver.
  - intros n w c _ _ Hc. simpl in Hc. set_solver.
Qed.

Lemma diamond_inside : inside (λ _, True) {[0;1;2;3]}%nat d0.
Proof. split_and!; [intros c Hc; simpl in Hc; set_solver..|done]. Qed.

Example find_next_ready_node_safe_witness :
  ∃ w children, get_all_children 3%nat w = (world d1, Ok children) ∧
                ready 3%nat children d1.
Proof.
  apply (find_next_ready_node_safe 10 d0 d1 3%nat); vm_compute; reflexivity.
Defined.

Example find_next_ready_node_total_witness :
  ∃ fuel r, find_next_ready_node fuel d0 = Some r.
Proof.
  exact (find_next_ready_node_total _ _ d0 diamond_closed diamond_inside).
Defined.

Example find_next_ready_node_ref_inv_witness : ref_inv (tm_nodes d1).
Proof.
  apply (find_next_ready_node_ref_inv 10 d0 d1 (Some 3%nat)).
  - vm_compute. reflexivity.
  - exact ref_inv_empty.
Defined.

Lemma d2_ref_inv : ref_inv (tm_nodes d2).
Proof.
  assert (ref_inv (tm_nodes d1)) as HI.
  { apply (ref_inv_find_loop 10 (with_ready_exc None d0) d1 (Some 3%nat));
      [vm_compute; reflexivity|exact ref_inv_empty]. }
  unfold d2. change (ref_inv (set_state up_to_date 3%nat (tm_nodes d1))).
  by apply ref_inv_set_state.
Qed.

Lemma d2_quiet : quiet [3%nat] d2.
Proof. intros t se Ht Hs. simpl in Hs. set_solver. Qed.

Example postprocess_wakes_witness :
  let s' := Task_postprocess t1 d2 in
  ref_inv (tm_nodes s') ∧ 1%nat ∈ candidates s'.
Proof.
  destruct (postprocess_wakes t1 d2 1%nat d2_quiet d2_ref_inv) as (HI & _ & _ & Hc).
  split; [exact HI|]. apply Hc; vm_compute; discriminate || reflexivity.
Defined.

Example make_ready_current_all_witness :
  let t' := Task [3%nat] false 3%nat [] None in
  targets t' = targets t1 ∧
  ((out_of_date t' = [] ∧
    ∀ n, n ∈ targets t1 → get_state (tm_nodes d2) n = up_to_date) ∨
   (out_of_date t' ≠ [] ∧
    ∀ n, n ∈ targets t1 → get_state (tm_nodes d2) n = executing)).
Proof. apply (make_ready_current_all t1 d1). vm_compute. reflexivity. Defined.

Example fail_stop_stops_witness :
  let r := fail_stop t1 d1 in
  ∃ s', find_next_ready_node 1 r.1 = Some (s', None) ∧ candidates s' = [].
Proof.
  destruct (fail_stop_stops t1 d1 (fail_stop t1 d1).1
    (Task [0%nat] true 3%nat [] None) 0) as (_ & _ & Hs); [|exact Hs].
  vm_compute. reflexivity.
Defined.
End diamond.

Section failing.
#[local] Instance failing_world : NodeWorld (list nid) :=
  demo_world (DemoGraph [[1];[]]%nat [] [0%nat]).
Definition t_fail : task := Task [0%nat] true 0%nat [] None.

Example execute_errors_witness :
  let e := ExBuildError (BuildError (Some (ANode 0%nat)) "OSError : no space"
             (StatusInt 2) (StatusInt 2) None None None None (Some "OSError")) in
  (∃ code, e = ExExplicitExit (Some 0%nat) code) ∨ (∃ msg, e = ExUserError msg) ∨
  (∃ b, e = ExBuildError b ∧
     (be_node b = Some (ANode 0%nat) ∨
      ∃ s1, (let! cached := execute_cached [0%nat] in
             if cached : bool then eret tt
             else let! m := target0 t_fail in liftw (build m))%eff (Taskmaster_init [] ∅ [0%nat])
            = (s1, Raise (ExBuildError b)))).
Proof.
  eapply (execute_errors t_fail (Taskmaster_init [] ∅ [0%nat]) _ _ 0%nat []);
    [reflexivity|vm_compute; reflexivity].
Defined.
End failing.

(** The cycle is reported: the walk ends with no node to build and [cleanup]
    raises a user error. *)
Example two_cycle_detected :
  let _ := demo_world two_cycle in
  ∃ s, find_next_ready_node 10 (Taskmaster_init ([] : list nid) ∅ [0%nat]) = Some (s, None) ∧
       cleanup s = Raise (ExUserError ("Found dependency cycle(s):
  0 -> 1 -> 0
")).
Proof. eexists. split; vm_compute; reflexivity. Qed.

(** ** A wake-up lost through a side effect

    Node 0 needs 1 and 2; 1 is built from 4 with the side effect 3; 2 needs 3.
    While 1 is being built, 2 is examined and waits for 3, which is executing.
    When the task of 1 succeeds, [executed] resets 3 to [no_state] before
    [postprocess] tests for [executing], so 2 is not woken. *)
Definition side_effect_graph : demo_graph :=
  DemoGraph [[1;2];[4];[3];[];[]]%nat [[];[3];[];[];[]]%nat [].

Section lost_wakeup.
#[local] Instance side_effect_world : NodeWorld (list nid) := demo_world side_effect_graph.

(** [next_task], the state being kept when there is no task. *)
Definition step_next (s : tm (list nid)) : tm (list nid) * option task :=
  default (s, None) (next_task default_tasker 20 s).

Definition lost_wakeup_run : tm (list nid) * option task :=
  let s := Taskmaster_init [] ∅ [0%nat] in
  match step_next s with
  | (s, Some t4) =>
      let s := Task_postprocess t4 (executed_with_callbacks t4 s) in
      match step_next s with
      | (s, Some t1) =>
          (* the task of 1 is with a worker; the main thread asks again *)
          let s := (step_next s).1 in
          let s := (Task_execute t1 s).1 in
          step_next (Task_postprocess t1 (executed_with_callbacks t1 s))
      | r => r
      end
  | r => r
  end.

(** In this run the walk ends without a node to build and without an
    error, the side effect is free again, and yet node 2 is left pending with
    nothing to wake it, so its parent 0 is never built. *)
Lemma side_effect_wakeup_lost :
  let s := lost_wakeup_run.1 in
  lost_wakeup_run.2 = None ∧ cleanup s = Ok tt ∧
  get_state (tm_nodes s) 1%nat = executed ∧
  get_state (tm_nodes s) 3%nat = no_state ∧
  get_state (tm_nodes s) 2%nat = pending ∧ ref_count (get (tm_nodes s) 2%nat) = 1 ∧
  get_state (tm_nodes s) 0%nat = pending.
Proof. vm_compute. repeat split. Qed.
End lost_wakeup.
