(* ===== verification/Job.v ===== *)
(** * Jobs ([SCons/Job.py]): definitions

    [Serial.start], [Parallel.start], [Worker.run] and the thread pool as step
    relations.  The main thread, every worker thread and the signal handler
    interleave; a step is the code between two points where another thread can
    be observed (a queue operation, a call of the task master, the execution
    of a task). *)

From S2P Require Import Prelude Errors NodeState Taskmaster.
Open Scope Z_scope.

Definition interrupt_msg : string := "Build interrupted.".

(** [class Jobs]: which kind of job is created, and [num_jobs]; [has_threads]
    tells whether [Parallel] is defined (the [except NameError]). *)
Inductive job_kind := SerialJob | ParallelJob (num : Z).

Definition Jobs_init (has_threads : bool) (num : Z) : job_kind * Z :=
  let job := if decide (1 < num)
             then if has_threads then Some (ParallelJob num) else None
             else None in
  match job with
  | Some j => (j, num)
  | None => (SerialJob, 1)
  end.

Section jobs.
Context {X : Type} `{NodeWorld X} `{Orders}.
Variable tk : tasker.

(** [SCons.Errors.BuildError(task.targets[0], errstr=interrupt_msg)], raised
    and recorded at once; with no target the recorded exception is the
    [IndexError] of [task.targets[0]]. *)
Definition interrupt_error (t : task) : exn :=
  match targets t with
  | n :: _ => ExBuildError (BuildError_init (Some (ANode n)) interrupt_msg
                (StatusInt 2) (StatusInt 2) None None)
  | [] => IndexError
  end.

(** The signal handler, in the process that installed it. *)
Definition handler (s : tm X) (interrupted : bool) : tm X * bool := (stop s, true).

(** ** class Serial *)

Inductive serial_pc :=
| S_next
| S_try (t : task)
| S_except (t : task) (e : exn)
| S_else (t : task)
| S_postprocess (t : task)
| S_cleanup
| S_done (r : res exn unit).

Record serial := Serial {
  s_tm : tm X;
  s_interrupted : bool;
  s_pc : serial_pc
}.

(** [task.prepare(); if task.needs_execute(): task.execute()] *)
Definition serial_try (t : task) : eff (tm X) exn unit :=
  (Task_prepare t ;;;
   let! b := needs_execute (needs_execute_m tk) t in
   if b : bool then Task_execute t else eret tt)%eff.

Inductive serial_step : serial → serial → Prop :=
| serial_next s i fuel s' o :
    next_task tk fuel s = Some (s', o) →
    serial_step (Serial s i S_next)
      (Serial s' i match o with None => S_cleanup | Some t => S_try t end)
| serial_run s i t :
    serial_step (Serial s i (S_try t))
      (Serial (serial_try t s).1 i
         match (serial_try t s).2 with Ok _ => S_else t | Raise e => S_except t e end)
| serial_fail s i t e :
    let t' := exception_set (if i : bool then interrupt_error t else e) t in
    serial_step (Serial s i (S_except t e))
      (Serial (Task_failed (failed_m tk) t' s).1 i
         match (Task_failed (failed_m tk) t' s).2 with
         | Ok t => S_postprocess t | Raise e => S_done (Raise e) end)
| serial_ok s i t :
    serial_step (Serial s i (S_else t))
      (Serial (Task_executed (executed_m tk) t s) i (S_postprocess t))
| serial_postprocess s i t :
    serial_step (Serial s i (S_postprocess t))
      (Serial (Task_postprocess t s) i S_next)
| serial_cleanup s i :
    serial_step (Serial s i S_cleanup) (Serial s i (S_done (cleanup s)))
| serial_signal s i pc :
    (∀ r, pc ≠ S_done r) →
    serial_step (Serial s i pc) (Serial (handler s i).1 (handler s i).2 pc).

(** The loop of [start] as a function, while no signal comes; [None] when the
    bound on the tasks and on the iterations of a search is too small. *)
Fixpoint Serial_start (fuel : nat) (s : tm X) : option (tm X * res exn unit) :=
  match fuel with
  | O => None
  | S fuel =>
      match next_task tk fuel s with
      | None => None
      | Some (s, None) => Some (s, cleanup s)
      | Some (s, Some t) =>
          match serial_try t s with
          | (s, Ok _) =>
              Serial_start fuel (Task_postprocess t (Task_executed (executed_m tk) t s))
          | (s, Raise e) =>
              match Task_failed (failed_m tk) (exception_set e t) s with
              | (s, Ok t) => Serial_start fuel (Task_postprocess t s)
              | (s, Raise e) => Some (s, Raise e)
              end
          end
      end
  end.

(** ** class Parallel, with its thread pool *)

Inductive worker := W_idle | W_busy (t : task) | W_dead.

Inductive main_pc :=
| M_fill
| M_check
| M_get
| M_more
| M_cleanup
| M_done (r : res exn unit).

Record parallel := Parallel {
  p_tm : tm X;
  p_interrupted : bool;
  requestQueue : list (option task);
  resultsQueue : list (task * bool);
  workers : list worker;
  p_jobs : Z;
  p_task : option task;
  p_pc : main_pc
}.

(** [Parallel.__init__] and the head of [start]. *)
Definition Parallel_init (s : tm X) (num : nat) : parallel :=
  Parallel s false [] [] (replicate num W_idle) 0 None M_fill.

Definition set_main (f : parallel → tm X) (jobs : parallel → Z) (o : option task)
    (pc : main_pc) (p : parallel) : parallel :=
  Parallel (f p) (p_interrupted p) (requestQueue p) (resultsQueue p) (workers p)
    (jobs p) o pc.

(** [ThreadPool.put] *)
Definition put (t : option task) (p : parallel) : parallel :=
  Parallel (p_tm p) (p_interrupted p) (requestQueue p ++ [t]) (resultsQueue p)
    (workers p) (p_jobs p) (p_task p) (p_pc p).

(** [task.failed(); task.postprocess()]; [None] when [failed] raises. *)
Definition fail_task (t : task) (s : tm X) : tm X * res exn unit :=
  match Task_failed (failed_m tk) t s with
  | (s, Ok t) => (Task_postprocess t s, Ok tt)
  | (s, Raise e) => (s, Raise e)
  end.

Definition finish_task (t : task) (s : tm X) : tm X :=
  Task_postprocess t (Task_executed (executed_m tk) t s).

(** A task handed out while [jobs < maxjobs]: it is prepared and put on the
    request queue, or finished at once. *)
Definition dispatch (t : task) (p : parallel) : parallel :=
  let '(s, r) := Task_prepare t (p_tm p) in
  match r with
  | Raise e =>
      let '(s, r) := fail_task (exception_set e t) s in
      set_main (λ _, s) p_jobs (Some t)
        match r with Ok _ => M_fill | Raise e => M_done (Raise e) end p
  | Ok _ =>
      let '(s, r) := needs_execute (needs_execute_m tk) t s in
      match r with
      | Raise e => set_main (λ _, s) p_jobs (Some t) (M_done (Raise e)) p
      | Ok true =>
          set_main (λ _, s) (λ p, p_jobs p + 1) (Some t) M_fill (put (Some t) p)
      | Ok false => set_main (λ _, finish_task t s) p_jobs (Some t) M_fill p
      end
  end.

(** A result taken from the results queue. *)
Definition collect (t : task) (ok : bool) (rest : list (task * bool))
    (p : parallel) : parallel :=
  let p := Parallel (p_tm p) (p_interrupted p) (requestQueue p) rest (workers p)
             (p_jobs p - 1) (Some t) M_more in
  if ok then set_main (λ p, finish_task t (p_tm p)) p_jobs (Some t) M_more p
  else
    let t := if p_interrupted p then exception_set (interrupt_error t) t else t in
    let '(s, r) := fail_task t (p_tm p) in
    set_main (λ _, s) p_jobs (Some t)
      match r with Ok _ => M_more | Raise e => M_done (Raise e) end p.

(** [ThreadPool.cleanup]: one sentinel for each worker. *)
Definition pool_cleanup (p : parallel) : parallel :=
  foldl (λ p _, put None p) p (workers p).

(** The main thread, [maxjobs] being the number of workers asked for. *)
Inductive main_step (maxjobs : Z) : parallel → parallel → Prop :=
| main_next p fuel s o :
    p_pc p = M_fill → p_jobs p < maxjobs →
    next_task tk fuel (p_tm p) = Some (s, o) →
    main_step maxjobs p
      match o with
      | None => set_main (λ _, s) p_jobs None M_check p
      | Some t => dispatch t (set_main (λ _, s) p_jobs (Some t) M_fill p)
      end
| main_full p :
    p_pc p = M_fill → maxjobs ≤ p_jobs p →
    main_step maxjobs p (set_main p_tm p_jobs (p_task p) M_check p)
| main_check p :
    p_pc p = M_check →
    main_step maxjobs p
      (set_main p_tm p_jobs (p_task p)
         (if decide (p_task p = None ∧ p_jobs p = 0) then M_cleanup else M_get) p)
| main_get p t ok rest :
    p_pc p = M_get → resultsQueue p = (t, ok) :: rest →
    main_step maxjobs p (collect t ok rest p)
| main_more p :
    p_pc p = M_more →
    main_step maxjobs p
      (set_main p_tm p_jobs (p_task p)
         match resultsQueue p with [] => M_fill | _ => M_get end p)
| main_cleanup p :
    p_pc p = M_cleanup →
    main_step maxjobs p
      (set_main p_tm p_jobs (p_task p) (M_done (cleanup (p_tm p))) (pool_cleanup p)).

(** [Worker.run], the worker number [k]: taking a request, and executing it. *)
Inductive worker_step (k : nat) : parallel → parallel → Prop :=
| worker_get p o rest :
    workers p !! k = Some W_idle → requestQueue p = o :: rest →
    worker_step k p
      (Parallel (p_tm p) (p_interrupted p) rest (resultsQueue p)
         (<[k := match o with Some t => W_busy t | None => W_dead end]> (workers p))
         (p_jobs p) (p_task p) (p_pc p))
| worker_interrupted p t :
    workers p !! k = Some (W_busy t) → p_interrupted p = true →
    worker_step k p
      (Parallel (p_tm p) (p_interrupted p) (requestQueue p)
         (resultsQueue p ++ [(exception_set (interrupt_error t) t, false)])
         (<[k := W_idle]> (workers p)) (p_jobs p) (p_task p) (p_pc p))
| worker_execute p t :
    workers p !! k = Some (W_busy t) → p_interrupted p = false →
    worker_step k p
      (Parallel (Task_execute t (p_tm p)).1 (p_interrupted p) (requestQueue p)
         (resultsQueue p ++
            [match (Task_execute t (p_tm p)).2 with
             | Ok _ => (t, true)
             | Raise e => (exception_set e t, false)
             end])
         (<[k := W_idle]> (workers p)) (p_jobs p) (p_task p) (p_pc p)).

Inductive parallel_step (maxjobs : Z) : parallel → parallel → Prop :=
| step_main p p' : main_step maxjobs p p' → parallel_step maxjobs p p'
| step_worker k p p' : worker_step k p p' → parallel_step maxjobs p p'
| step_signal p :
    (∀ r, p_pc p ≠ M_done r) →
    parallel_step maxjobs p
      (Parallel (handler (p_tm p) (p_interrupted p)).1
         (handler (p_tm p) (p_interrupted p)).2 (requestQueue p) (resultsQueue p)
         (workers p) (p_jobs p) (p_task p) (p_pc p)).
End jobs.
