(* ===== verification/JobFacts.v ===== *)
(** * Jobs: theorems *)

From S2P Require Import Prelude Errors NodeState Taskmaster TaskmasterFacts.
From S2P Require Import TaskmasterWitness Job.
Open Scope Z_scope.

(** The walk has been stopped. *)
Definition stopped {X} (s : tm X) : Prop := next_candidate s = no_next_candidate_m.

Definition is_busy (w : worker) : Prop := match w with W_busy _ => True | _ => False end.
#[export] Instance is_busy_dec w : Decision (is_busy w).
Proof. destruct w; simpl; apply _. Defined.

(** The tasks that were put on the request queue and not yet collected. *)
Definition outstanding {X} (p : parallel (X:=X)) : nat :=
  (length (requestQueue p) + length (filter is_busy (workers p)) +
   length (resultsQueue p))%nat.

(** The invariant of a parallel build of [num] workers. *)
Definition parallel_inv {X} (num : nat) (p : parallel (X:=X)) : Prop :=
  (∀ r, p_pc p ≠ M_done r) →
  p_jobs p = Z.of_nat (outstanding p) ∧
  p_jobs p ≤ Z.of_nat num ∧
  (∀ o, o ∈ requestQueue p → o ≠ None) ∧
  (W_dead ∉ workers p) ∧
  length (workers p) = num ∧
  match p_pc p with
  | M_check => p_task p = None ∨ p_jobs p = Z.of_nat num
  | M_get => 0 < p_jobs p
  | M_cleanup => p_jobs p = 0
  | _ => True
  end.

Section facts.
Context {X : Type} `{NodeWorld X} `{Orders}.
Variable tk : tasker.
Implicit Types s : tm X.

(** ** A stopped walk stays stopped *)

Lemma stopped_liftw {A} (m : eff X exn A) : keeps (stopped (X:=X)) (liftw m).
Proof. intros s Hs. unfold liftw. by destruct (m (world s)). Qed.

Lemma stopped_with_nodes f : ∀ s : tm X, stopped s → stopped (with_nodes f s).
Proof. done. Qed.
Lemma stopped_with_world f : ∀ s : tm X, stopped s → stopped (with_world f s).
Proof. done. Qed.
Lemma stopped_with_message o : ∀ s : tm X, stopped s → stopped (with_message o s).
Proof. done. Qed.
Lemma stopped_call_built t : ∀ s : tm X, stopped s → stopped (call_built t s).
Proof. done. Qed.
Hint Resolve stopped_liftw stopped_with_nodes stopped_with_world
  stopped_with_message stopped_call_built : eff.

Lemma stopped_prepare t : keeps (stopped (X:=X)) (Task_prepare t).
Proof.
  unfold Task_prepare, exception_raise, target0.
  destruct (exception t), (targets t); auto 10 with eff.
Qed.

Lemma stopped_needs_execute k t : keeps (stopped (X:=X)) (needs_execute k t).
Proof. unfold needs_execute, target0. destruct k, (targets t); auto with eff. Qed.

Lemma stopped_execute_cached l : keeps (stopped (X:=X)) (execute_cached l).
Proof.
  induction l as [|t l IH]; simpl; [auto with eff|].
  apply keeps_bind; [auto with eff|]. intros []; auto 10 with eff.
Qed.

Lemma stopped_execute t : keeps (stopped (X:=X)) (Task_execute t).
Proof.
  unfold Task_execute, target0. apply keeps_catch.
  - apply keeps_bind; [apply stopped_execute_cached|].
    intros []; [auto with eff|]. destruct (targets t); auto with eff.
  - intros e. destruct e, (targets t); auto 10 with eff.
Qed.

Lemma stopped_foldl {A} (f : tm X → A → tm X) l s :
  (∀ s a, stopped s → stopped (f s a)) → stopped s → stopped (foldl f s l).
Proof. intros Hf. apply foldl_pred. auto. Qed.

Lemma stopped_executed k t s : stopped s → stopped (Task_executed k t s).
Proof.
  intros Hs. destruct k; simpl; unfold executed_with_callbacks, executed_without_callbacks;
    apply stopped_foldl; try done; intros; by case_decide.
Qed.

Lemma stopped_will_not_build `{!NodeFunc f g} ns s :
  stopped s → stopped (will_not_build ns f s).
Proof. intros. by destruct (will_not_build_frame (f:=f) ns s) as (m & pc & ->). Qed.

Lemma stopped_failed k t s : stopped s → stopped (Task_failed k t s).1.
Proof.
  intros. destruct k; simpl; [|by apply stopped_will_not_build].
  unfold fail_stop. by case_match.
Qed.

Lemma stopped_requeue s p : stopped s → stopped (requeue s p).
Proof. unfold requeue. by case_decide. Qed.

Lemma stopped_postprocess t s : stopped s → stopped (Task_postprocess t s).
Proof.
  intros Hs. unfold Task_postprocess.
  set (P := λ sp : tm X * gmap nid Z, stopped sp.1).
  assert (∀ l s ps, stopped s → P (foldl post_target (s, ps) l)) as H1.
  { intros l s0 ps0 Hs0. apply (foldl_pred P); [|done].
    intros [s1 ps1] b _ H1. unfold P, post_target. simpl. by case_decide. }
  specialize (H1 (set_iter (list_to_set (targets t))) s ∅ Hs).
  destruct (foldl post_target _ _) as [s1 ps1].
  assert (P (foldl (λ sp t, foldl post_side_effect sp (side_effects (world sp.1) t))
    (s1, ps1) (set_iter (list_to_set (targets t))))) as H2.
  { apply (foldl_pred P); [|done]. intros sp b _ Hsp.
    apply (foldl_pred P); [|done]. intros [s2 ps2] se _ H2. unfold P, post_side_effect.
    case_decide; simpl; apply stopped_foldl; auto using stopped_requeue. }
  destruct (foldl (λ sp t, _) _ _) as [s2 ps2].
  apply stopped_foldl; [done|]. apply stopped_foldl; [|done].
  intros. by apply stopped_requeue.
Qed.

Lemma stopped_no_task fuel s s' o :
  stopped s → next_task tk fuel s = Some (s', o) → stopped s' ∧ o = None.
Proof.
  intros Hs. unfold next_task. destruct fuel as [|fuel]; [done|].
  unfold find_next_ready_node. simpl. unfold call_next_candidate.
  replace (next_candidate (with_ready_exc None s)) with no_next_candidate_m by done.
  unfold no_next_candidate. destruct (candidates _); intros [= <- <-]; [done|].
  split; [by apply stopped_will_not_build|done].
Qed.

(** ** Serial builds *)

Lemma stopped_serial_try t : keeps (stopped (X:=X)) (serial_try tk t).
Proof.
  apply keeps_bind; [apply stopped_prepare|]. intros _.
  apply keeps_bind; [apply stopped_needs_execute|].
  intros []; [apply stopped_execute|auto with eff].
Qed.

Lemma serial_stopped p p' :
  serial_step tk p p' →
  (s_interrupted p = true → stopped (s_tm p)) →
  s_interrupted p' = true → stopped (s_tm p').
Proof.
  destruct 1; simpl; auto.
  - intros Hs Hi. by eapply stopped_no_task; [by apply Hs|].
  - intros Hs Hi. apply stopped_serial_try. auto.
  - intros Hs Hi. apply stopped_failed. auto.
  - intros Hs Hi. apply stopped_executed. auto.
  - intros Hs Hi. apply stopped_postprocess. auto.
  - done.
Qed.

(** In a serial build, once a signal was handled and the loop is back at
    asking for the next task, no task is ever started again. *)
Theorem serial_interrupted_stops s0 p p' t :
  rtc (serial_step tk) (Serial s0 false S_next) p →
  s_interrupted p = true → s_pc p = S_next →
  rtc (serial_step tk) p p' → s_pc p' ≠ S_try t.
Proof.
  intros Hp Hi Hpc Hp'.
  assert (s_interrupted p = true → stopped (s_tm p)) as Hst.
  { eapply (rtc_invariant _ (λ p, s_interrupted p = true → stopped (s_tm p)));
      [|exact Hp|done]. intros. by eapply serial_stopped. }
  assert (s_interrupted p' = true ∧ stopped (s_tm p') ∧
    (s_pc p' = S_next ∨ s_pc p' = S_cleanup ∨ ∃ r, s_pc p' = S_done r)) as (_ & _ & Hpc').
  2: { intros E. rewrite E in Hpc'. naive_solver. }
  eapply (rtc_invariant _ (λ p, s_interrupted p = true ∧ stopped (s_tm p) ∧
    (s_pc p = S_next ∨ s_pc p = S_cleanup ∨ ∃ r, s_pc p = S_done r)));
    [|exact Hp'|auto].
  clear. intros a b (Hi & Hs & Hpc) Hab.
  pose proof (serial_stopped _ _ Hab (λ _, Hs)) as Hs'.
  destruct Hab; simpl in *; try naive_solver.
  destruct (stopped_no_task _ _ _ _ Hs H1) as [? ->]. auto.
Qed.

(** ** Parallel builds *)

Lemma stopped_fail_task t s : stopped s → stopped (fail_task tk t s).1.
Proof.
  intros Hs. unfold fail_task. pose proof (stopped_failed (failed_m tk) t s Hs) as Hf.
  destruct (Task_failed _ _ _) as [s1 []]; [by apply stopped_postprocess|done].
Qed.

Lemma stopped_finish_task t s : stopped s → stopped (finish_task tk t s).
Proof. intros. by apply stopped_postprocess, stopped_executed. Qed.

Lemma parallel_stopped n p p' :
  parallel_step tk n p p' →
  (p_interrupted p = true → stopped (p_tm p)) →
  p_interrupted p' = true → stopped (p_tm p').
Proof.
  intros Hp Hs. destruct Hp as [p p' Hm|k p p' Hw|p Hpc]; [| |done].
  - destruct Hm; simpl; auto.
    + destruct o as [t|]; [|simpl; intros; eapply stopped_no_task; eauto].
      unfold dispatch. simpl. intros Hi.
      assert (p_interrupted p = true) as Hpi.
      { destruct (Task_prepare t s) as [? [?|?]]; [|by destruct (fail_task _ _ _)].
        by destruct (needs_execute _ _ _) as [? [[]|]]. }
      by destruct (stopped_no_task _ _ _ _ (Hs Hpi) H3).
    + unfold collect. destruct ok; simpl; intros; [by apply stopped_finish_task, Hs|].
      destruct (fail_task _ _ _) as [s1 r] eqn:E. simpl in *.
      pose proof (stopped_fail_task (if p_interrupted p then
        exception_set (interrupt_error t) t else t) (p_tm p)) as Hf.
      rewrite E in Hf. auto.
    + unfold pool_cleanup. assert (∀ l : list worker, p_tm (foldl (λ p _, put None p) p l) = p_tm p ∧
        p_interrupted (foldl (λ p _, put None p) p l) = p_interrupted p) as Hl.
      { intros l. split; by apply foldl_inv. }
      destruct (Hl (workers p)) as [-> ->]. auto.
  - destruct Hw; simpl; auto. intros. apply stopped_execute. auto.
Qed.

(** In a parallel build, once a signal was handled the task master hands
    out no task any more, so the main thread dispatches nothing. *)
Theorem parallel_interrupted_stops s0 num p fuel s o :
  rtc (parallel_step tk (Z.of_nat num)) (Parallel_init s0 num) p →
  p_interrupted p = true →
  next_task tk fuel (p_tm p) = Some (s, o) → o = None.
Proof.
  intros Hp Hi Hn.
  assert (p_interrupted p = true → stopped (p_tm p)) as Hst.
  { eapply (rtc_invariant _ (λ p, p_interrupted p = true → stopped (p_tm p)));
      [|exact Hp|done]. intros. by eapply parallel_stopped. }
  by destruct (stopped_no_task _ _ _ _ (Hst Hi) Hn).
Qed.

(** *** The bookkeeping of tasks *)

(** Starting from a state of the invariant, each step keeps it. *)
Lemma parallel_inv_dispatch num t p :
  p_pc p = M_fill → p_jobs p < Z.of_nat num → parallel_inv num p →
  parallel_inv num (dispatch tk t p).
Proof.
  intros Hpc Hlt HI. destruct HI as (Hj & Hle & Hq & Hd & Hlen & _); [congruence|].
  unfold dispatch. destruct (Task_prepare t (p_tm p)) as [s1 [u|e]].
  - destruct (needs_execute _ t s1) as [s2 [[]|e]]; intros Hr; simpl in *.
    + unfold outstanding in *. simpl. rewrite length_app. simpl.
      split_and!; try lia; auto. intros o [Ho|Ho]%elem_of_app; [by apply Hq|].
      apply list_elem_of_singleton in Ho. by subst.
    + by split_and!.
    + by destruct (Hr (Raise e)).
  - destruct (fail_task _ _ _) as [s2 [[]|e']]; intros Hr; simpl in *.
    + by split_and!.
    + by destruct (Hr (Raise e')).
Qed.

Lemma parallel_inv_collect num t ok rest p :
  p_pc p = M_get → resultsQueue p = (t, ok) :: rest → parallel_inv num p →
  parallel_inv num (collect tk t ok rest p).
Proof.
  intros Hpc Hres HI. destruct HI as (Hj & Hle & Hq & Hd & Hlen & _); [congruence|].
  unfold collect, outstanding in *. rewrite Hres in Hj. simpl in Hj.
  destruct ok; [intros Hr; unfold outstanding; simpl; split_and!; auto; lia|].
  simpl. destruct (fail_task _ _ _) as [s1 [[]|e]]; intros Hr; simpl in *.
  - unfold outstanding; simpl; split_and!; auto; lia.
  - by destruct (Hr (Raise e)).
Qed.

Lemma parallel_inv_main num p p' :
  (0 < num)%nat → main_step tk (Z.of_nat num) p p' → parallel_inv num p → parallel_inv num p'.
Proof.
  intros Hnum Hm HI. destruct Hm as [p fuel s o Hpc Hlt Hn|p Hpc Hge|p Hpc
    |p t ok rest Hpc Hres|p Hpc|p Hpc].
  - destruct o as [t|].
    + apply parallel_inv_dispatch; [done..|].
      intros Hr. destruct HI as (? & ? & ? & ? & ? & _); [congruence|]. by split_and!.
    + intros Hr. destruct HI as (? & ? & ? & ? & ? & _); [congruence|].
      split_and!; try done. by left.
  - intros Hr. destruct HI as (? & ? & ? & ? & ? & _); [congruence|].
    split_and!; try done. right. simpl. lia.
  - intros Hr. destruct HI as (Hj & ? & ? & ? & ? & Ht); [congruence|].
    rewrite Hpc in Ht. split_and!; try done. simpl.
    case_decide as Hd; [by destruct Hd|].
    destruct Ht as [Ht|Ht]; [|lia].
    assert (p_jobs p ≠ 0) by (intros E; by apply Hd). unfold outstanding in *. lia.
  - by apply parallel_inv_collect.
  - intros Hr. destruct HI as (Hj & ? & ? & ? & ? & _); [congruence|].
    split_and!; try done. simpl.
    destruct (resultsQueue p) eqn:E; [done|]. unfold outstanding in Hj.
    rewrite E in Hj. simpl in Hj. lia.
  - intros Hr. by destruct (Hr (cleanup (p_tm p))).
Qed.

(** A busy worker added at an idle place, and conversely. *)
Lemma busy_insert ws k w w' :
  ws !! k = Some w →
  (length (filter is_busy (<[k := w']> ws)) + (if decide (is_busy w) then 1 else 0) =
   length (filter is_busy ws) + (if decide (is_busy w') then 1 else 0))%nat.
Proof. apply length_filter_insert. Qed.

Lemma parallel_inv_worker num k p p' :
  worker_step k p p' → parallel_inv num p → parallel_inv num p'.
Proof.
  intros Hw HI Hr.
  assert (∀ r, p_pc p ≠ M_done r) as Hr0 by (by destruct Hw).
  destruct (HI Hr0) as (Hj & Hle & Hq & Hd & Hlen & Hpc). clear HI Hr Hr0.
  unfold outstanding in *.
  assert (∀ w, w ≠ W_dead → W_dead ∉ <[k := w]> (workers p)) as Hdead.
  { intros w Hne Hin. apply list_elem_of_lookup in Hin as [j Hin].
    apply list_lookup_insert_Some in Hin as [(? & ? & ?)|[? Hin]]; [congruence|].
    by apply Hd, list_elem_of_lookup_2 with j. }
  destruct Hw as [p o rest Hk Hrq|p t Hk Hi|p t Hk Hi]; simpl in *.
  - rewrite Hrq in *. simpl in Hj.
    destruct o as [t|]; [|by destruct (Hq None (list_elem_of_here _ _))].
    pose proof (busy_insert _ k _ (W_busy t) Hk) as E. simpl in E.
    rewrite length_insert. unfold outstanding; simpl.
    split_and!; auto; [lia|]. intros o Ho. apply Hq. by right.
  - pose proof (busy_insert _ k _ W_idle Hk) as E. simpl in E.
    rewrite length_insert. unfold outstanding; simpl. rewrite length_app. simpl.
    split_and!; auto. lia.
  - pose proof (busy_insert _ k _ W_idle Hk) as E. simpl in E.
    rewrite length_insert. unfold outstanding; simpl. rewrite length_app. simpl.
    split_and!; auto. lia.
Qed.

Lemma parallel_inv_reachable num s0 p :
  (0 < num)%nat → rtc (parallel_step tk (Z.of_nat num)) (Parallel_init s0 num) p →
  parallel_inv num p.
Proof.
  intros Hnum Hp. eapply (rtc_invariant _ (parallel_inv num)); [|exact Hp|].
  - intros a b HI Hab. destruct Hab as [a b Hm|k a b Hw|a Hpc].
    + by eapply parallel_inv_main.
    + by eapply parallel_inv_worker.
    + intros Hr. by apply (HI Hpc).
  - intros _. unfold outstanding. simpl.
    assert (filter is_busy (replicate num W_idle) = []) as ->.
    { clear. induction num; simpl; [done|]. by rewrite filter_cons_False by auto. }
    rewrite length_replicate. simpl. split_and!; try lia; [set_solver|].
    intros Hin%elem_of_replicate. by destruct Hin.
Qed.

(** C6: in every reachable state of a parallel build, the counter of jobs is
    the number of tasks dispatched and not yet collected and never exceeds the
    number of workers; and when the main thread leaves its loop to clean up,
    both queues are empty and no worker is executing. *)
Theorem parallel_jobs_exact num s0 p :
  (0 < num)%nat →
  rtc (parallel_step tk (Z.of_nat num)) (Parallel_init s0 num) p →
  (∀ r, p_pc p ≠ M_done r) →
  p_jobs p = Z.of_nat (outstanding p) ∧ p_jobs p ≤ Z.of_nat num ∧
  (p_pc p = M_cleanup →
   requestQueue p = [] ∧ resultsQueue p = [] ∧ ∀ w, w ∈ workers p → w = W_idle).
Proof.
  intros Hnum Hp Hr.
  destruct (parallel_inv_reachable num s0 p Hnum Hp Hr) as (Hj & Hle & Hq & Hd & Hlen & Hpc).
  split_and!; try done. intros E. rewrite E in Hpc. unfold outstanding in Hj.
  split_and!; [apply length_zero_iff_nil; lia..|].
  intros w Hw. destruct w as [|t|]; [done| |done].
  assert (W_busy t ∈ filter is_busy (workers p)) as Hb by by apply list_elem_of_filter.
  destruct (filter is_busy (workers p)); [set_solver|simpl in Hj; lia].
Qed.

(** C7: the main thread never waits for a result in vain: in every reachable
    state in which it asks the pool for a result, the main thread or some
    worker can take a step. *)
Theorem parallel_no_deadlock num s0 p :
  (0 < num)%nat →
  rtc (parallel_step tk (Z.of_nat num)) (Parallel_init s0 num) p →
  p_pc p = M_get →
  ∃ p', main_step tk (Z.of_nat num) p p' ∨ ∃ k, worker_step k p p'.
Proof.
  intros Hnum Hp Epc.
  destruct (parallel_inv_reachable num s0 p Hnum Hp) as (Hj & Hle & Hq & Hd & Hlen & Hpc);
    [congruence|].
  rewrite Epc in Hpc.
  destruct (resultsQueue p) as [|[t ok] rest] eqn:Er; [|eexists; left; by eapply main_get].
  unfold outstanding in Hj. rewrite Er in Hj. simpl in Hj.
  assert (∀ w, w ∈ workers p → is_busy w → ∃ p', ∃ k, worker_step k p p') as Hbusy.
  { intros w Hw Hb. destruct w as [|t|]; try done.
    apply list_elem_of_lookup in Hw as [k Hk].
    destruct (p_interrupted p) eqn:Ei; do 2 eexists;
      [by eapply worker_interrupted|by eapply worker_execute]. }
  destruct (filter is_busy (workers p)) as [|w l] eqn:Ef.
  - destruct (workers p) as [|w ws] eqn:Ew; [simpl in Hlen; lia|].
    destruct (requestQueue p) as [|o rest] eqn:Erq; [simpl in Hj; lia|].
    destruct w as [|t|].
    + eexists. right. exists 0%nat. eapply worker_get; [by rewrite Ew|done].
    + rewrite filter_cons_True in Ef by done. done.
    + set_solver.
  - assert (w ∈ filter is_busy (workers p)) as [Hb Hw]%list_elem_of_filter
      by (rewrite Ef; left).
    destruct (Hbusy w Hw Hb) as (p' & k & Hk). eauto.
Qed.
End facts.

(** ** The theorems on a concrete build: 0 is built from the source 1. *)
Section witnesses.
#[local] Instance job_world : NodeWorld (list nid) :=
  demo_world (DemoGraph [[1];[]]%nat [] []).

Definition j0 : tm (list nid) := Taskmaster_init [] ∅ [0%nat].

Example serial_interrupted_stops_witness :
  s_pc (Serial (stop j0) true S_next) ≠ S_try (Task [1%nat] false 1%nat [] None).
Proof.
  eapply (serial_interrupted_stops default_tasker j0 (Serial (stop j0) true S_next)).
  - eapply rtc_l; [by apply serial_signal|apply rtc_refl].
  - reflexivity.
  - reflexivity.
  - apply rtc_refl.
Defined.

Example parallel_interrupted_stops_witness : (None : option task) = None.
Proof.
  eapply (parallel_interrupted_stops default_tasker j0 2
    (Parallel (stop j0) true [] [] (replicate 2 W_idle) 0 None M_fill) 1).
  - eapply rtc_l; [by apply step_signal|apply rtc_refl].
  - reflexivity.
  - vm_compute. reflexivity.
Defined.

Example parallel_jobs_exact_witness :
  p_jobs (Parallel_init j0 2) = Z.of_nat (outstanding (Parallel_init j0 2)).
Proof.
  apply (parallel_jobs_exact default_tasker 2 j0); [lia|apply rtc_refl|done].
Defined.

Example parallel_no_deadlock_witness :
  ∃ p p', p_pc p = M_get ∧
    (main_step default_tasker (Z.of_nat 1) p p' ∨ ∃ k, worker_step k p p').
Proof.
  eexists. edestruct (parallel_no_deadlock default_tasker 1 j0) as [p' Hp'].
  - lia.
  - eapply rtc_l.
    { apply step_main. eapply (main_next _ _ _ 10); [done|done|]. vm_compute. reflexivity. }
    eapply rtc_l.
    { apply step_main. eapply (main_next _ _ _ 10); [done|done|]. vm_compute. reflexivity. }
    eapply rtc_l.
    { apply step_main. apply main_full; vm_compute; [reflexivity|discriminate]. }
    eapply rtc_l.
    { apply step_main. apply main_check. vm_compute. reflexivity. }
    apply rtc_refl.
  - vm_compute. reflexivity.
  - exists p'. split; [|exact Hp']. vm_compute. reflexivity.
Defined.
End witnesses.
