(* ===== verification/SerialFacts.v ===== *)
(** * A serial build from beginning to end

    [Serial.start] over the task master: on a finite graph without cycles, whose
    calls do not fail and whose actions have no side effects, the build ends,
    returns normally, and every node it looked at is finished, after the nodes
    it depends on.  The proof is an invariant of the walk ([walk_inv]) that every
    search and every task keeps. *)

From S2P Require Import Prelude Errors NodeState Taskmaster TaskmasterFacts.
From S2P Require Import TaskmasterWitness Job.
Open Scope Z_scope.

(** ** Worlds without failures *)

Section world.
Context {X : Type} `{NodeWorld X}.

Definition finished (st : nstate) : Prop := st = up_to_date ∨ st = executed.

(** The states of the world that calls start from and keep. *)
Variable W : X → Prop.

(** No call raises, and all keep to [W]. *)
Record no_failures : Prop := {
  ok_children : ∀ n, returns W (get_all_children n);
  ok_executor_prepare : ∀ n, returns W (executor_prepare n);
  ok_prepare : ∀ n, returns W (prepare n);
  ok_make_ready : ∀ n, returns W (make_ready n);
  ok_is_up_to_date : ∀ st n, returns W (is_up_to_date st n);
  ok_retrieve : ∀ n, returns W (retrieve_from_cache n);
  ok_build : ∀ n, returns W (build n);
  ok_push : ∀ n w, W w → W (push_to_cache n w);
  ok_built : ∀ ps n w, W w → W (built ps n w);
  ok_visited : ∀ n w, W w → W (visited n w);
  ok_cleanup : ∀ n w, W w → W (executor_cleanup n w)
}.

(** The targets built together, [group], share an executor; nothing has side
    effects. *)
Record plain_actions (group : nid → list nid) : Prop := {
  plain_targets : ∀ w n, W w → get_all_targets w n = group n;
  plain_self : ∀ n, n ∈ group n;
  plain_children : ∀ w n y, W w → y ∈ group n → get_all_children y w = get_all_children n w;
  plain_prerequisites : ∀ w n y, W w → y ∈ group n →
    get_all_prerequisites w y = get_all_prerequisites w n;
  plain_side_effects : ∀ w n, W w → side_effects w n = [];
  plain_action_side_effects : ∀ w n, W w → get_action_side_effects w n = []
}.

(** What [n] depends on comes before it. *)
Definition ranked (v : gset nid) (rank : nid → nat) : Prop :=
  ∀ n w w' l c, W w → n ∈ v → get_all_children n w = (w', Ok l) →
    c ∈ get_all_prerequisites w' n ++ l → (rank c < rank n)%nat.
End world.

(** ** The walk *)

(** The numbers of waiting nodes depend on the waiting parents only. *)
Lemma nwait_ext m m' p :
  (∀ x, waiting_parents (get m' x) = waiting_parents (get m x)) → nwait m' p = nwait m p.
Proof.
  intros E. unfold nwait. rewrite <- !size_dom. f_equal. apply set_eq. intros x.
  rewrite !elem_of_dom. specialize (E x). unfold get in E.
  assert (∀ m : nodes, is_Some (filter (λ ct : nid * tnode, p ∈ waiting_parents ct.2) m !! x) ↔
    p ∈ waiting_parents (default tnode_init (m !! x))) as Hf.
  { clear. intros m. split.
    - intros [t [Ht Hp]%map_lookup_filter_Some]. by rewrite Ht.
    - destruct (m !! x) as [t|] eqn:Ht; simpl; [|set_solver].
      intros Hp. exists t. by apply map_lookup_filter_Some. }
  by rewrite !Hf, E.
Qed.

(** A node that waits has a node it waits for. *)
Lemma nwait_pos m p : nwait m p ≠ 0%nat → ∃ x, waits_for m x p.
Proof.
  unfold nwait. intros Hn. destruct (map_choose (filter (λ ct : nid * tnode,
    p ∈ waiting_parents ct.2) m)) as (x & t & [Ht Hp]%map_lookup_filter_Some).
  { intros E. apply Hn. by rewrite E, map_size_empty. }
  exists x. unfold waits_for, get. by rewrite Ht.
Qed.

Lemma waits_nwait m x p : waits_for m x p → nwait m p ≠ 0%nat.
Proof.
  unfold waits_for. intros Hx. pose proof (nwait_delete m x p) as E. unfold waits in E.
  rewrite decide_True in E by done. lia.
Qed.

Section walk.
Context {X : Type} `{NodeWorld X} `{Orders}.
Implicit Types s : tm X.
Variables (W : X → Prop) (v : gset nid) (group : nid → list nid) (rank : nid → nat).
Hypotheses (Hclosed : closed W v) (Hok : no_failures W) (Hplain : plain_actions W group)
  (Hrank : ranked W v rank).

Abbreviation st s x := (get_state (tm_nodes s) x).
Abbreviation wp s x := (waiting_parents (get (tm_nodes s) x)).

(** Everything [x] depends on is finished. *)
Definition below s (x : nid) : Prop :=
  ∃ w w' l, W w ∧ get_all_children x w = (w', Ok l) ∧
    ∀ c, c ∈ get_all_prerequisites w' x ++ l → finished (st s c).

(** So it is for the children that the search gets when it looks at [x], and
    which leaves the world at [w']. *)
Definition ready_at s (w' : X) (x : nid) : Prop :=
  ∃ w l, W w ∧ get_all_children x w = (w', Ok l) ∧
    ∀ c, c ∈ get_all_prerequisites w' x ++ l → finished (st s c).

(** Between two tasks; [cur] holds the node being looked at, if any. *)
Record walk_inv (cur : gset nid) s : Prop := {
  wi_ref : ref_inv (tm_nodes s);
  wi_rank : ∀ x p, waits_for (tm_nodes s) x p → (rank x < rank p)%nat ∧ p ∈ v;
  wi_state : ∀ x, st s x = no_state ∨ st s x = pending ∨ finished (st s x);
  wi_unfinished : ∀ x, wp s x ≠ ∅ →
    st s x = pending ∨ (st s x = no_state ∧ (x ∈ cur ∨ x ∈ candidates s));
  wi_pending : ∀ x, st s x = pending → x ∈ cur ∨ x ∈ candidates s ∨ nwait (tm_nodes s) x ≠ 0%nat;
  wi_top : ∀ x, x ∈ original_top s →
    x ∈ cur ∨ x ∈ top_targets_left s ∨ x ∈ candidates s ∨ st s x ≠ no_state;
  wi_children : ∀ x, x ∈ pending_children s → wp s x ≠ ∅;
  wi_next : next_candidate s = find_next_candidate_m;
  wi_inside : inside W v s;
  wi_below : ∀ x, finished (st s x) → below s x
}.

(** What a search does not change. *)
Definition search_frame s s' : Prop :=
  original_top s' = original_top s ∧ ready_exc s' = ready_exc s ∧
  ∀ x, finished (st s' x) ↔ finished (st s x).

(** Taking a candidate. *)
Lemma walk_take s : walk_inv ∅ s →
  match call_next_candidate s with
  | (s1, Some c) => c ∈ v ∧ walk_inv {[c]} s1 ∧ search_frame s s1
  | (s1, None) => s1 = s ∧ candidates s = [] ∧ top_targets_left s = []
  end.
Proof.
  intros [Hr Hrk Hst Hun Hp Ht Hc Hn Hi Hb].
  pose proof (call_next_candidate_ready_exc s) as He.
  unfold call_next_candidate in *. rewrite Hn in *.
  destruct (find_next_candidate s) as [s1 [c|]] eqn:E.
  - destruct (find_next_candidate_inside W v s s1 c Hclosed Hi E) as (Hcv & Hi1 & Hn1 & _).
    split; [done|]. clear Hi.
    assert (tm_nodes s1 = tm_nodes s ∧ original_top s1 = original_top s ∧
      pending_children s1 = pending_children s ∧
      (∀ x, x ∈ candidates s → x = c ∨ x ∈ candidates s1) ∧
      (∀ x, x ∈ top_targets_left s →
         x = c ∨ x ∈ top_targets_left s1 ∨ x ∈ candidates s1)) as (En & Eo & Ec & Hcand & Htop).
    { unfold find_next_candidate in E. destruct (candidates s) as [|d cs] eqn:Ecs.
      - destruct (top_targets_left s) as [|t ts]; [done|].
        simpl in E. destruct (alter_targets (world s) t) as [[|a alt] msg]; simpl in E.
        + simplify_eq. simpl. split_and!; try done; intros x;
          rewrite ?elem_of_nil, ?elem_of_cons; naive_solver.
        + rewrite Ecs in E. destruct (rev (order (a :: alt)) ++ [t]) as [|d cs] eqn:El; [done|].
          simplify_eq. simpl. split_and!; try done; [by intros x ?%elem_of_nil|].
          intros x [->|?]%elem_of_cons; [|by auto].
          assert (t ∈ c :: cs) as [->|?]%elem_of_cons by (rewrite <- El, elem_of_app; right; left);
            auto.
      - simplify_eq. simpl. split_and!; try done; intros x;
          rewrite ?elem_of_nil, ?elem_of_cons; naive_solver. }
    split; [|by unfold search_frame; rewrite En, Eo].
    split; rewrite ?En, ?Eo, ?Ec; try done.
    + intros x Hx. destruct (Hun x Hx) as [?|[? [?%elem_of_empty|Hx']]]; [by left|done|].
      right. split; [done|]. rewrite elem_of_singleton. auto.
    + intros x Hx. rewrite elem_of_singleton.
      destruct (Hp x Hx) as [?%elem_of_empty|[Hx'|?]]; [done| |by auto].
      destruct (Hcand x Hx'); auto.
    + intros x Hx. rewrite elem_of_singleton.
      destruct (Ht x Hx) as [?%elem_of_empty|[Hx'|[Hx'|?]]]; [done| | |by auto].
      * destruct (Htop x Hx') as [->|[?|?]]; auto.
      * destruct (Hcand x Hx'); auto.
    + congruence.
    + intros x Hx. destruct (Hb x Hx) as (w & w' & l & Hww & Hw & Hl). exists w, w', l. by rewrite En.
  - unfold find_next_candidate in E. destruct (candidates s) as [|d cs] eqn:Ecs; [|done].
    destruct (top_targets_left s) as [|t ts]; [by simplify_eq|].
    simpl in E. destruct (alter_targets (world s) t) as [[|a alt] msg]; simpl in E; [done|].
    rewrite Ecs in E. destruct (rev (order (a :: alt)) ++ [t]) eqn:El; [|done].
    by apply app_nil in El as [_ ?].
Qed.

Lemma below_mono s s' x :
  (∀ c, finished (st s c) → finished (st s' c)) → below s x → below s' x.
Proof. intros Hf (w & w' & l & Hww & Hw & Hl). exists w, w', l. auto. Qed.

Lemma not_finished_early s x : finished (st s x) → st s x ≠ no_state ∧ st s x ≠ pending.
Proof. by intros [->| ->]. Qed.

(** The node looked at is settled. *)
Lemma walk_drop c s :
  st s c ≠ no_state → (st s c = pending → nwait (tm_nodes s) c ≠ 0%nat) →
  walk_inv {[c]} s → walk_inv ∅ s.
Proof.
  intros Hc Hw [Hr Hrk Hst Hun Hp Ht Hpc Hn Hi Hb]. split; try done.
  - intros x Hx. destruct (Hun x Hx) as [?|[E [->%elem_of_singleton|?]]]; [by left|done|by auto].
  - intros x Hx. destruct (Hp x Hx) as [->%elem_of_singleton|?]; [by auto|by right].
  - intros x Hx. destruct (Ht x Hx) as [->%elem_of_singleton|?]; [by auto|by right].
Qed.

(** The candidate becomes pending. *)
Lemma walk_visit c s : walk_inv {[c]} s → ¬ finished (st s c) →
  walk_inv {[c]} (with_nodes (visit c) s) ∧ st (with_nodes (visit c) s) c = pending.
Proof.
  intros [Hr Hrk Hst Hun Hp Ht Hpc Hn Hi Hb] Hnf. unfold visit, with_nodes. simpl.
  destruct (decide (get_state (tm_nodes s) c = no_state)) as [Hc|Hc].
  2: { destruct (Hst c) as [|[Hc'|]]; [done| |done].
       split; [|by rewrite Hc']. by split. }
  split; [|simpl; by rewrite get_state_set_state, decide_True].
  split; simpl; try done.
  - by apply ref_inv_set_state.
  - intros x p. unfold waits_for. rewrite waiting_parents_set_state. apply Hrk.
  - intros x. rewrite get_state_set_state. case_decide; auto.
  - intros x. rewrite waiting_parents_set_state, get_state_set_state. case_decide; auto.
  - intros x. rewrite get_state_set_state, nwait_set_state. case_decide as Hx; [|by auto].
    rewrite elem_of_singleton. auto.
  - intros x Hx. rewrite get_state_set_state. case_decide; [by auto|]. by apply Ht.
  - intros x Hx. rewrite waiting_parents_set_state. by apply Hpc.
  - intros x Hx. assert (finished (st s x)) as Hx'.
    { rewrite get_state_set_state in Hx. case_decide; [by destruct Hx|done]. }
    eapply below_mono, Hb, Hx'. intros y Hy. simpl. rewrite get_state_set_state.
    case_decide; subst; [|done]. by rewrite Hc in Hy; destruct Hy.
Qed.

(** More candidates, and another world. *)
Lemma walk_extend cur w l s : W w → (∀ x, x ∈ l → x ∈ v) → walk_inv cur s →
  walk_inv cur (extend_candidates l (with_world (λ _, w) s)).
Proof.
  intros Hw Hl [Hr Hrk Hst Hun Hp Ht Hpc Hn (Hi1 & Hi2 & _) Hb].
  split; simpl; try done.
  - intros x Hx. rewrite elem_of_app. destruct (Hun x Hx) as [?|[? [?|?]]]; auto 6.
  - intros x Hx. rewrite elem_of_app. destruct (Hp x Hx) as [?|[?|?]]; auto 6.
  - intros x Hx. rewrite elem_of_app. destruct (Ht x Hx) as [?|[?|[?|?]]]; auto 6.
  - split_and!; simpl; [|done..]. intros x [Hx|?]%elem_of_app; [|by auto].
    rewrite <- Permutation_rev in Hx. by apply Hl.
Qed.

Lemma wait_for_spec c m x : let m' := wait_for c m x in
  (∀ y, get_state m' y = get_state m y) ∧
  (∀ y p, waits_for m' y p ↔ waits_for m y p ∨ (y = x ∧ p = c)).
Proof.
  unfold wait_for, add_to_waiting_parents, waits_for. case_decide as Hc; split; intros y;
    autorewrite with nodes; try done; intros p; autorewrite with nodes; [naive_solver|].
  case_decide as Hy; [|naive_solver]. subst y.
  rewrite elem_of_union, elem_of_singleton. naive_solver.
Qed.

Lemma wait_all_spec c l m : let m' := foldl (wait_for c) m l in
  (∀ y, get_state m' y = get_state m y) ∧
  (∀ y p, waits_for m' y p ↔ waits_for m y p ∨ (y ∈ l ∧ p = c)) ∧
  (ref_inv m → ref_inv m').
Proof.
  revert m. induction l as [|x l IH]; intros m; cbn [foldl].
  { split_and!; [done| |done]. intros y p. rewrite elem_of_nil. naive_solver. }
  destruct (IH (wait_for c m x)) as (Hs & Hw & Hr).
  destruct (wait_for_spec c m x) as (Hs1 & Hw1). split_and!.
  - intros y. by rewrite Hs, Hs1.
  - intros y p. rewrite Hw, Hw1, elem_of_cons. naive_solver.
  - intros Hm. by apply Hr, ref_inv_wait_for.
Qed.

Lemma waits_nonempty m x : waiting_parents (get m x) ≠ ∅ ↔ ∃ p, waits_for m x p.
Proof.
  unfold waits_for. split; [by intros ?%set_choose_L|]. intros [p Hp] E.
  rewrite E in Hp. by apply elem_of_empty in Hp.
Qed.

(** The node looked at waits for those of its children that are not ready. *)
Lemma walk_wait c l pc s :
  c ∈ v → walk_inv {[c]} s → st s c = pending → l ≠ [] →
  (∀ x, x ∈ l → (rank x < rank c)%nat ∧
     (st s x = pending ∨ (st s x = no_state ∧ x ∈ candidates s))) →
  (∀ x, x ∈ pc → x ∈ pending_children s ∨ x ∈ l) →
  walk_inv ∅ (with_pending_children pc (with_nodes (λ m, foldl (wait_for c) m l) s)).
Proof.
  intros Hv [Hr Hrk Hst Hun Hp Ht Hpc Hn Hi Hb] Hc Hl Hall Hpc'.
  destruct (wait_all_spec c l (tm_nodes s)) as (Hs' & Hw' & Hr').
  assert (∀ x, nwait (tm_nodes s) x ≠ 0%nat → nwait (foldl (wait_for c) (tm_nodes s) l) x ≠ 0%nat)
    as Hnw.
  { intros x [y Hy]%nwait_pos. apply (waits_nwait _ y), Hw'. by left. }
  apply (walk_drop c); simpl; rewrite ?Hs', ?Hc; [done| |].
  { intros _. destruct l as [|x l]; [done|]. apply (waits_nwait _ x), Hw'.
    right. split; [left|done]. }
  split; simpl; try done.
  - auto.
  - intros x p [?|[Hx ->]]%Hw'; [by apply Hrk|split; [by apply Hall|done]].
  - intros x. rewrite Hs'. apply Hst.
  - intros x [p [Hx|[Hx ->]]%Hw']%waits_nonempty; rewrite Hs'.
    + apply Hun, waits_nonempty. by exists p.
    + destruct (Hall x Hx) as [_ [?|[? ?]]]; auto.
  - intros x. rewrite Hs'. intros Hx. destruct (Hp x Hx) as [?|[?|?]]; auto.
  - intros x. rewrite Hs'. apply Ht.
  - intros x Hx. apply waits_nonempty. destruct (Hpc' x Hx) as [[p Hp']%Hpc%waits_nonempty|Hx'].
    + exists p. apply Hw'. by left.
    + exists c. apply Hw'. by right.
  - intros x. rewrite Hs'. intros Hx. eapply below_mono, Hb, Hx. intros y. simpl. by rewrite Hs'.
Qed.

Lemma visit_nodes c s :
  (if decide (st s c = no_state) then with_nodes (set_state pending c) s else s) =
  with_nodes (visit c) s.
Proof. unfold visit, with_nodes. by case_decide; destruct s. Qed.

(** What the search finds in the children of the node looked at. *)
Lemma children_ready cur s l : walk_inv cur s →
  (∀ x, x ∈ l → st s x ≠ failed) ∧
  (∀ x, x ∈ filter (λ c, nstate_val (st s c) ≤ nstate_val executing) l ↔
     x ∈ l ∧ (st s x = pending ∨ st s x = no_state)) ∧
  (filter (λ c, nstate_val (st s c) ≤ nstate_val executing) l = [] →
     ∀ x, x ∈ l → finished (st s x)).
Proof.
  intros Hi. assert (∀ x, x ∈ filter (λ c, nstate_val (st s c) ≤ nstate_val executing) l ↔
    x ∈ l ∧ (st s x = pending ∨ st s x = no_state)) as Hf.
  { intros x. rewrite list_elem_of_filter. destruct (wi_state _ _ Hi x) as [E|[E|[E|E]]];
      rewrite E; simpl; naive_solver (lia || done). }
  split_and!; [|exact Hf|].
  - intros x _. by destruct (wi_state _ _ Hi x) as [E|[E|[E|E]]]; rewrite E.
  - intros E x Hx. rewrite E in Hf. setoid_rewrite elem_of_nil in Hf.
    destruct (wi_state _ _ Hi x) as [?|[?|?]]; naive_solver.
Qed.

Lemma walk_examine c s : c ∈ v → walk_inv {[c]} s →
  match examine c s with
  | (s', Continue) => walk_inv ∅ s' ∧ search_frame s s'
  | (s', Return o) => o = Some c ∧ walk_inv {[c]} s' ∧ st s' c = pending ∧ ready_at s' (world s') c ∧
      search_frame s s'
  end.
Proof.
  intros Hc Hi. unfold examine. case_decide as Hst.
  { split; [|done]. apply (walk_drop c); [..|done]; destruct (st s c); done. }
  assert (¬ finished (st s c)) as Hnf by (intros [E|E]; rewrite E in Hst; simpl in Hst; lia).
  rewrite visit_nodes. destruct (walk_visit c s Hi Hnf) as [Hi1 Hpend].
  assert (∀ x, finished (get_state (visit c (tm_nodes s)) x) ↔ finished (st s x)) as Hfr.
  { intros x. unfold visit. case_decide as E; [|done]. rewrite get_state_set_state.
    case_decide; subst; [|done]. rewrite E. split; intros [?|?]; done. }
  set (s1 := with_nodes (visit c) s) in *.
  assert (W (world s1)) as Hw1 by apply (wi_inside _ _ Hi1).
  destruct (ok_children _ Hok c (world s1) Hw1) as (w & l & E & Hw). rewrite E.
  rewrite (plain_action_side_effects _ _ Hplain) by done. cbn [filter list_filter].
  set (all := get_all_prerequisites w c ++ l).
  assert (∀ x, x ∈ all → x ∈ v ∧ (rank x < rank c)%nat) as Hall.
  { intros x Hx. split; [|by apply (Hrank c (world s1) w l)].
    apply elem_of_app in Hx as [Hx|Hx];
      [by eapply (closed_prerequisites _ v Hclosed c w)|by eapply (closed_children _ v Hclosed c (world s1))]. }
  set (new := order _).
  assert (∀ x, x ∈ new ↔ st s1 x = no_state ∧ x ∈ all) as Hnew.
  { intros x. unfold new. by rewrite order_perm, <- Permutation_rev, list_elem_of_filter. }
  assert (walk_inv {[c]} (extend_candidates new (with_world (λ _, w) s1))) as Hi2.
  { apply walk_extend; [done| |done]. intros x [_ Hx]%Hnew. by apply Hall. }
  set (s2 := extend_candidates new _) in *.
  destruct (children_ready _ _ all Hi2) as (Hnf' & Hnr & Hready).
  rewrite bool_decide_eq_false_2.
  2: { intros (x & Hx & Hf)%Exists_exists. by apply (Hnf' x). }
  change (λ c0, nstate_val (get_state (tm_nodes (with_world (λ _, w) s1)) c0) ≤ nstate_val executing)
    with (λ c0, nstate_val (get_state (tm_nodes s2) c0) ≤ nstate_val executing).
  destruct (filter (λ c0, nstate_val (get_state (tm_nodes s2) c0) ≤ nstate_val executing) all)
    as [|x nr] eqn:Enr.
  - split_and!; [done|done|done| |done]. exists (world s1), l. do 2 (split; [done|]).
    by apply Hready.
  - split; [apply (walk_wait c (x :: nr)); [done..| |]|].
    + intros y [Hy Hs]%Hnr. split; [by apply Hall|]. destruct Hs as [?|Hs]; [by left|right].
      split; [done|]. simpl. rewrite elem_of_app, <- Permutation_rev. left. by apply Hnew.
    + intros y [?|Hy]%elem_of_union; [by left|right].
      apply elem_of_list_to_set, list_elem_of_filter in Hy as [Hy ?].
      apply Hnr. split; [done|by left].
    + split_and!; [done..|]. intros y. destruct (wait_all_spec c (x :: nr) (tm_nodes s2)) as [Hs _].
      cbn [with_pending_children with_nodes tm_nodes]. rewrite Hs. apply Hfr.
Qed.

(** A search keeps the invariant; the node it hands out is ready. *)
Lemma walk_search fuel s s' o :
  find_next_ready_node_loop fuel s = Some (s', o) → walk_inv ∅ s →
  match o with
  | Some c => c ∈ v ∧ walk_inv {[c]} s' ∧ st s' c = pending ∧ ready_at s' (world s') c
  | None => walk_inv ∅ s' ∧ candidates s' = [] ∧ top_targets_left s' = []
  end ∧ search_frame s s'.
Proof.
  assert (∀ s1 s2 s3, search_frame s1 s2 → search_frame s2 s3 → search_frame s1 s3) as Htrans.
  { intros s1 s2 s3 (?&?&E1) (?&?&E2). split_and!; [congruence..|]. intros x. by rewrite E2. }
  revert s. induction fuel as [|fuel IH]; intros s; simpl; [done|]. intros Hf Hi.
  pose proof (walk_take s Hi) as Ht. destruct (call_next_candidate s) as [s1 [c|]].
  - destruct Ht as (Hc & Hi1 & Hf1). pose proof (walk_examine c s1 Hc Hi1) as Hx.
    destruct (examine c s1) as [s2 [|r]].
    + destruct Hx as [Hi2 Hf2]. destruct (IH s2 Hf Hi2). split; [done|]. eauto.
    + destruct Hx as (-> & Hi2 & Hp & Hb & Hf2). simplify_eq. split; [done|]. eauto.
  - destruct Ht as (-> & Hc & Ht). by simplify_eq.
Qed.

(** ** One task *)

(** What a task changes until it is postprocessed: the states of its targets. *)
Definition task_frame (ts : list nid) s s' : Prop :=
  (candidates s', top_targets_left s', original_top s', pending_children s',
   next_candidate s', ready_exc s') =
  (candidates s, top_targets_left s, original_top s, pending_children s,
   next_candidate s, ready_exc s) ∧
  (W (world s) → W (world s')) ∧
  ∀ x, wp s' x = wp s x ∧ ref_count (get (tm_nodes s') x) = ref_count (get (tm_nodes s) x) ∧
    (x ∉ ts → st s' x = st s x).

Lemma task_frame_refl ts s : task_frame ts s s.
Proof. by split. Qed.

Lemma task_frame_trans ts s1 s2 s3 :
  task_frame ts s1 s2 → task_frame ts s2 s3 → task_frame ts s1 s3.
Proof.
  intros (E1 & W1 & H1) (E2 & W2 & H2). split; [congruence|]. split; [auto|]. intros x.
  destruct (H1 x) as (?&?&Hx1), (H2 x) as (?&?&Hx2). split_and!; [congruence..|].
  intros Hx. rewrite Hx2, Hx1; done.
Qed.

Lemma task_frame_mono ts ts' s s' : (∀ x, x ∈ ts → x ∈ ts') →
  task_frame ts s s' → task_frame ts' s s'.
Proof. intros Hts (E & Hw & Hf). do 2 (split; [done|]). intros x. destruct (Hf x) as (?&?&?). naive_solver. Qed.

Lemma task_frame_world ts f s : (W (world s) → W (f (world s))) → task_frame ts s (with_world f s).
Proof. by split. Qed.

Lemma task_frame_set_state ts a t s : t ∈ ts → task_frame ts s (with_nodes (set_state a t) s).
Proof.
  intros Ht. do 2 (split; [done|]). intros x. simpl.
  rewrite waiting_parents_set_state, ref_count_set_state, get_state_set_state.
  split_and!; [done..|]. intros Hx. by rewrite decide_False by by intros <-.
Qed.

(** A loop over the targets that settles each of them. *)
Lemma task_loop (pre post : nstate → Prop) (f : tm X → nid → tm X) ts s :
  (∀ a, post a → pre a) →
  (∀ s t, W (world s) → pre (st s t) → task_frame [t] s (f s t) ∧ post (st (f s t) t)) →
  W (world s) → (∀ x, x ∈ ts → pre (st s x)) →
  task_frame ts s (foldl f s ts) ∧ ∀ x, x ∈ ts → post (st (foldl f s ts) x).
Proof.
  intros Hpp Hf. revert s. induction ts as [|t ts IH]; intros s Hws Hpre; cbn [foldl].
  { split; [apply task_frame_refl|]. by intros x ?%elem_of_nil. }
  destruct (Hf s t Hws) as [Ht Hpost]; [apply Hpre; left|].
  assert (∀ x, st (f s t) x = st s x ∨ post (st (f s t) x)) as Hch.
  { intros x. destruct (decide (x = t)) as [->|Hx]; [by right|left].
    apply Ht. by intros ->%list_elem_of_singleton. }
  destruct (IH (f s t)) as [Hfr Hts].
  { by apply Ht. }
  { intros x Hx. destruct (Hch x) as [->|?]; [apply Hpre; by right|by apply Hpp]. }
  split.
  - eapply task_frame_trans; (eapply task_frame_mono; [|eassumption]); intros x.
    + intros ->%list_elem_of_singleton. left.
    + by right.
  - intros x [->|Hx]%elem_of_cons; [|by apply Hts].
    destruct (decide (t ∈ ts)) as [?|Hn]; [by apply Hts|].
    destruct Hfr as (_ & _ & Hfr). destruct (Hfr t) as (_ & _ & ->); done.
Qed.

(** The states of the targets while the task runs. *)
Definition started (a : nstate) : Prop := a = executing ∨ finished a.

Lemma mark_executing_plain t s : W (world s) →
  mark_executing t s = with_nodes (set_state executing t) s.
Proof. intros Hw. unfold mark_executing, mark_side_effects. simpl. by erewrite plain_side_effects. Qed.

Lemma mark_all ts s : W (world s) →
  task_frame ts s (foldl (λ s t, mark_executing t s) s ts) ∧
  ∀ x, x ∈ ts → started (st (foldl (λ s t, mark_executing t s) s ts) x).
Proof.
  intros Hws. apply (task_loop (λ _, True)); [done| |done..]. intros s' t Hw _.
  rewrite mark_executing_plain by done.
  split; [apply task_frame_set_state; left|].
  simpl. rewrite get_state_set_state, decide_True by done. by left.
Qed.

Lemma up_to_date_all ts s : W (world s) →
  let s' := foldl (λ s t, with_nodes (set_state up_to_date t) (with_world (visited t) s)) s ts in
  task_frame ts s s' ∧ ∀ x, x ∈ ts → started (st s' x).
Proof.
  intros Hws. apply (task_loop (λ _, True)); [done| |done..]. intros s' t Hw _. split.
  - eapply task_frame_trans; [apply (task_frame_world _ (visited t)), (ok_visited _ Hok)|]. apply task_frame_set_state. left.
  - simpl. rewrite get_state_set_state, decide_True by done. by right; left.
Qed.

Lemma check_targets_returns ts ood s : W (world s) →
  ∃ w ood', W w ∧ check_targets ts ood s = (with_world (λ _, w) s, ood', Ok tt).
Proof.
  revert ood s. induction ts as [|t ts IH]; intros ood s Hws; simpl.
  { exists (world s), ood. by destruct s. }
  assert (∃ w b, W w ∧ target_is_up_to_date t s = (with_world (λ _, w) s, Ok b)) as (w & b & Hw & ->).
  { unfold target_is_up_to_date, ebind, eget, eret, liftw. simpl.
    destruct (ok_make_ready _ Hok t (world s) Hws) as (w & [] & -> & Hw).
    destruct (negb (has_builder _ t)); [by exists w, true|].
    destruct (always_build _ t); [by exists w, false|]. simpl.
    destruct (ok_is_up_to_date _ Hok (get_state (tm_nodes s)) t w Hw) as (w' & b & -> & Hw').
    by exists w', b. }
  destruct (IH (if b then ood else ood ++ [t]) (with_world (λ _, w) s) Hw) as (w' & ood' & Hw' & ->).
  by exists w', ood'.
Qed.

Lemma make_ready_starts k t s : W (world s) →
  ∃ s' t', Task_make_ready k t s = (s', t', Ok tt) ∧ (targets t', tnode_ t') = (targets t, tnode_ t) ∧
    exception t' = exception t ∧
    task_frame (targets t) s s' ∧ ∀ x, x ∈ targets t → started (st s' x).
Proof.
  intros Hws. destruct k; simpl.
  - unfold make_ready_current.
    destruct (check_targets_returns (targets t) [] s Hws) as (w & ood & Hw & ->).
    do 2 eexists. split; [done|]. do 2 (split; [done|]).
    destruct ood as [|x ood]; [destruct (up_to_date_all (targets t) (with_world (λ _, w) s) Hw)
      as [Hf Hs] | destruct (mark_all (targets t) (with_world (λ _, w) s) Hw) as [Hf Hs]];
      (split; [|exact Hs]); (eapply task_frame_trans; [by apply (task_frame_world _ (λ _, w))|exact Hf]).
  - unfold make_ready_all. do 2 eexists. split; [done|]. do 2 (split; [done|]). by apply mark_all.
Qed.

(** The task is running, from the state [s0]. *)
Definition running (t : task) s0 s : Prop :=
  W (world s) ∧ task_frame (targets t) s0 s ∧ ∀ x, x ∈ targets t → started (st s x).

Lemma running_world t s0 s f : W (f (world s)) → running t s0 s → running t s0 (with_world f s).
Proof.
  intros Hw (_ & Hf & Hs). split_and!; [done| |done]. by eapply task_frame_trans, task_frame_world.
Qed.

Lemma running_set t s0 s a x : x ∈ targets t → started a → running t s0 s →
  running t s0 (with_nodes (set_state a x) s).
Proof.
  intros Hx Ha (Hw & Hf & Hs). split_and!; [done|by eapply task_frame_trans, task_frame_set_state|].
  intros y Hy. simpl. rewrite get_state_set_state. case_decide; [done|by apply Hs].
Qed.

Lemma returns_liftw {A} t s0 (m : eff X exn A) :
  returns W m → returns (running t s0) (liftw m).
Proof.
  intros Hm s Hs. unfold liftw. destruct (Hm (world s) (proj1 Hs)) as (w & a & -> & Hw).
  exists (with_world (λ _, w) s), a. split; [done|]. by apply running_world.
Qed.

Lemma returns_target0 (P : tm X → Prop) t n : n ∈ targets t → returns P (target0 t).
Proof.
  unfold target0. destruct (targets t); [by intros ?%elem_of_nil|]. intros _. apply returns_ret.
Qed.

Lemma prepare_returns t s0 n : n ∈ targets t → exception t = None →
  returns (running t s0) (Task_prepare t).
Proof.
  intros Hn He. unfold Task_prepare, exception_raise. rewrite He.
  apply returns_bind; [apply returns_ret|intros _].
  apply returns_bind; [by apply returns_mod|intros _].
  apply returns_bind; [by eapply returns_target0|intros m].
  apply returns_bind; [apply returns_liftw, Hok|intros _].
  apply returns_bind; [apply returns_get|intros ts]. apply returns_for. intros x.
  apply returns_bind; [apply returns_liftw, Hok|intros _].
  apply returns_bind; [apply returns_get|intros ses]. apply returns_for. intros se.
  apply returns_liftw, Hok.
Qed.

Lemma execute_cached_returns t s0 ts : (∀ x, x ∈ ts → x ∈ targets t) →
  returns (running t s0) (execute_cached ts).
Proof.
  induction ts as [|x ts IH]; intros Hts; simpl; [apply returns_ret|].
  apply returns_bind; [apply returns_liftw, Hok|]. intros [].
  - apply returns_bind; [|intros _; apply returns_bind; [|intros _; apply IH]].
    + apply returns_mod. intros s. apply running_set; [apply Hts; left|by right; right].
    + apply returns_mod. intros s Hs. unfold call_built. apply running_world; [|done].
      apply (ok_built _ Hok), (proj1 Hs).
    + intros y Hy. apply Hts. by right.
  - apply returns_ret.
Qed.

Lemma serial_try_returns tk t s0 n : n ∈ targets t → exception t = None →
  returns (running t s0) (serial_try tk t).
Proof.
  intros Hn He. unfold serial_try.
  apply returns_bind; [by eapply prepare_returns|intros _].
  apply returns_bind.
  { unfold needs_execute. destruct (needs_execute_m tk); [apply returns_ret|].
    apply returns_bind; [by eapply returns_target0|]. intros m. apply returns_get. }
  intros []; [|apply returns_ret]. unfold Task_execute. apply returns_catch, returns_bind.
  - by apply execute_cached_returns.
  - intros []; [apply returns_ret|].
    apply returns_bind; [by eapply returns_target0|]. intros m.
    apply returns_liftw, Hok.
Qed.

Lemma clear_side_effects_plain t s : W (world s) → clear_side_effects t s = s.
Proof. intros Hw. unfold clear_side_effects. erewrite plain_side_effects by done. by destruct s. Qed.

Lemma executed_finishes k t s : W (world s) → (∀ x, x ∈ targets t → started (st s x)) →
  task_frame (targets t) s (Task_executed k t s) ∧
  ∀ x, x ∈ targets t → finished (st (Task_executed k t s) x).
Proof.
  intros Hws. assert (∀ a, finished a → started a) as Hfs by by right.
  intros Hst. destruct k; apply (task_loop started); try done; intros s' x Hw Hx;
    rewrite clear_side_effects_plain by done; case_decide as E.
  - split.
    + eapply task_frame_trans; [apply (task_frame_set_state [x] executed x); left|].
      eapply task_frame_trans; [|apply task_frame_world, (ok_visited _ Hok)].
      eapply task_frame_trans; [|apply (task_frame_world _ (built _ x)), (ok_built _ Hok)].
      eapply task_frame_trans; [|apply task_frame_world, (ok_push _ Hok)]. apply task_frame_refl.
    + simpl. rewrite get_state_set_state, decide_True by done. by right.
  - split; [apply task_frame_world, (ok_visited _ Hok)|]. by destruct Hx.
  - split; [apply task_frame_set_state; left|].
    simpl. rewrite get_state_set_state, decide_True by done. by right.
  - split; [apply task_frame_refl|]. by destruct Hx.
Qed.

(** *** After the task *)

Lemma postprocess_frame t s : W (world s) →
  let s' := Task_postprocess t s in
  (top_targets_left s', original_top s', ready_exc s') =
  (top_targets_left s, original_top s, ready_exc s) ∧
  W (world s') ∧
  ∀ p, p ∈ candidates s' → p ∈ candidates s ∨ ∃ x, waits_for (tm_nodes s) x p.
Proof.
  intros Hws s'. unfold s', Task_postprocess. set (ts := set_iter _).
  destruct (foldl post_target (s, ∅) ts) as [s1 ps] eqn:E1.
  pose (fr := λ s : tm X, (top_targets_left s, original_top s, ready_exc s, world s)).
  assert (fr s1 = fr s) as F1.
  { change s1 with (s1, ps).1. rewrite <- E1.
    apply (foldl_inv (λ sp : tm X * gmap nid Z, fr sp.1)). intros [s2 ps2] x. simpl. by case_decide. }
  destruct (post_targets_spec _ _ _ _ _ E1) as (_ & _ & Hc1 & _ & _ & Hdom & _).
  assert (foldl (λ sp t, foldl post_side_effect sp (side_effects (world sp.1) t)) (s1, ps) ts =
    (s1, ps)) as ->.
  { assert (W (world s1)) as Hw1 by (by injection F1 as _ _ _ ->).
    clear - Hplain Hw1. induction ts as [|x ts IH]; [done|]. cbn [foldl].
    by erewrite plain_side_effects. }
  set (l := set_iter (dom ps)).
  assert (∀ p, p ∈ l → ∃ x, waits_for (tm_nodes s) x p) as Hl.
  { intros p [Hp|Hp]%elem_of_set_iter%Hdom; [by rewrite dom_empty in Hp|].
    unfold waited in Hp. destruct (filter _ ts) as [|x f] eqn:Ef; [done|]. exists x.
    assert (x ∈ filter (λ t, p ∈ waiting_parents (get (tm_nodes s) t)) ts) as Hx
      by (rewrite Ef; left). by apply list_elem_of_filter in Hx as [? _]. }
  pose (fr3 := λ s : tm X, (top_targets_left s, original_top s, ready_exc s)).
  apply (foldl_pred (λ s2, fr3 s2 = fr3 s ∧ W (world s2) ∧ ∀ p, p ∈ candidates s2 →
    p ∈ candidates s ∨ ∃ x, waits_for (tm_nodes s) x p)).
  { intros s2 x _ (F & Hw & Hp). split_and!; [done|by apply (ok_cleanup _ Hok)|done]. }
  apply (foldl_pred (λ s2, fr3 s2 = fr3 s ∧ W (world s2) ∧ ∀ p, p ∈ candidates s2 →
    p ∈ candidates s ∨ ∃ x, waits_for (tm_nodes s) x p)).
  2: { injection F1 as Ea Eb Ec Ed. unfold fr3. rewrite Ea, Eb, Ec, Ed, Hc1. auto. }
  intros s2 p Hp (F2 & Hw2 & Hc2). unfold post_parent, requeue. case_decide; [|by split].
  split_and!; [done..|]. intros q [->|Hq]%elem_of_cons; [right; by apply Hl|by apply Hc2].
Qed.

(** The targets are finished: the walk goes on. *)
Lemma walk_finish c t s s' :
  walk_inv {[c]} s → below s c → c ∈ targets t →
  (∀ y, y ∈ targets t → ∀ w, W w → get_all_children y w = get_all_children c w ∧
     get_all_prerequisites w y = get_all_prerequisites w c) →
  task_frame (targets t) s s' → (∀ x, x ∈ targets t → finished (st s' x)) →
  let s'' := Task_postprocess t s' in
  walk_inv ∅ s'' ∧ ready_exc s'' = ready_exc s ∧ original_top s'' = original_top s ∧
  (∀ x, st s'' x = st s' x) ∧ (∀ x, finished (st s x) → finished (st s'' x)).
Proof.
  intros [Hr Hrk Hst Hun Hp Ht Hpc Hn Hi Hb] Hbc Hc Hgrp (E & Hww & Hf) Hfin s''.
  assert (W (world s')) as Hws by apply Hww, Hi.
  injection E as Ec Etl Eot Epc Enc Ere.
  assert (quiet (targets t) s') as Hq.
  { intros x se _ Hse. erewrite plain_side_effects in Hse by done. by apply elem_of_nil in Hse. }
  destruct (postprocess_quiet t s' Hq) as (Pn & Pst & Pwp & Prc & Pnw & Ppc & Pc & Pwake).
  destruct (postprocess_frame t s' Hws) as (F & Pworld & Pcand). fold s'' in Pn, Pst, Pwp, Prc, Pnw, Ppc, Pc, Pwake, F, Pworld, Pcand.
  injection F as Ftl Fot Fre.
  assert (∀ x, nwait (tm_nodes s') x = nwait (tm_nodes s) x) as Hnw.
  { intros x. apply nwait_ext. intros y. apply Hf. }
  assert (∀ x p, waits_for (tm_nodes s') x p ↔ waits_for (tm_nodes s) x p) as Hwf.
  { intros x p. unfold waits_for. by destruct (Hf x) as (-> & _). }
  assert (∀ x, finished (st s x) → finished (st s' x)) as Hkeep.
  { intros x Hx. destruct (decide (x ∈ targets t)) as [?|Hx']; [by apply Hfin|].
    destruct (Hf x) as (_ & _ & ->); done. }
  assert (∀ x, x ∉ targets t → st s' x = st s x) as Hother by (intros x; apply Hf).
  assert (∀ p, ref_count (get (tm_nodes s'') p) = Z.of_nat (nwait (tm_nodes s'') p)) as Hri.
  { intros p. specialize (Pnw p). rewrite Prc. destruct (Hf p) as (_ & -> & _).
    rewrite Hr, <- Hnw. lia. }
  split_and!; [split|congruence..|exact Pst|intros x; rewrite Pst; apply Hkeep].
  - exact Hri.
  - intros x p. unfold waits_for. rewrite Pwp. case_decide; [by intros ?%elem_of_empty|].
    intros Hx. by apply Hrk, Hwf.
  - intros x. rewrite Pst. destruct (decide (x ∈ targets t)); [auto|]. rewrite Hother by done.
    apply Hst.
  - intros x. rewrite Pwp, Pst. case_decide as Hx; [done|]. destruct (Hf x) as (-> & _ & _).
    rewrite Hother by done. intros [?|[? [->%elem_of_singleton|?]]]%Hun; [by left|done|].
    right. split; [done|]. right. apply Pc. by rewrite Ec.
  - intros x. rewrite Pst. intros Hx. destruct (decide (x ∈ targets t)) as [Hx'|Hx'].
    { apply Hfin in Hx' as [E|E]; congruence. }
    rewrite Hother in Hx by done.
    destruct (Hp x Hx) as [->%elem_of_singleton|[?|Hw]]; [done|right; left; apply Pc; by rewrite Ec|].
    right. destruct (decide (nwait (tm_nodes s'') x = 0%nat)) as [Hz|]; [left|by right].
    specialize (Pnw x). rewrite Hnw in Pnw. apply Pwake; [lia|]. by rewrite Hri, Hz.
  - intros x. rewrite Fot, Eot. intros Hx. rewrite Ftl, Etl, Pst.
    destruct (decide (x ∈ targets t)) as [Hx'|Hx'].
    { do 3 right. intros En. apply Hfin in Hx' as [E|E]; congruence. }
    rewrite Hother by done.
    destruct (Ht x Hx) as [->%elem_of_singleton|[?|[?|?]]]; [done|by auto| |by auto].
    right; right; left. apply Pc. by rewrite Ec.
  - intros x [Hx Hnot]%Ppc. rewrite Epc in Hx. apply Hpc in Hx. rewrite Pwp.
    destruct (Hf x) as (Ewp & _). rewrite Ewp in Hnot |- *.
    case_decide; [by destruct Hnot|done].
  - congruence.
  - destruct Hi as (Hi1 & Hi2 & _). split_and!; [| |done].
    + intros p [Hp'|[x Hx]]%Pcand; [apply Hi1; by rewrite <- Ec|]. by eapply Hrk, Hwf.
    + rewrite Ftl, Etl. exact Hi2.
  - intros x. rewrite Pst. intros Hx.
    assert (∀ y, finished (st s y) → finished (st s'' y)) as Hkeep'
      by (intros y; rewrite Pst; apply Hkeep).
    destruct (decide (x ∈ targets t)) as [Hx'|Hx'].
    + destruct Hbc as (w & w' & l & Hwd & Hw & Hl).
      destruct (ok_children _ Hok c w Hwd) as (w2 & l2 & E2 & Hw2).
      assert (w2 = w') as -> by congruence.
      exists w, w', l. rewrite (proj1 (Hgrp x Hx' w Hwd)), (proj2 (Hgrp x Hx' w' Hw2)). auto.
    + rewrite Hother in Hx by done. eapply below_mono, Hb, Hx. exact Hkeep'.
Qed.

(** *** The whole build *)

(** The task [t] handed out in the state [s]: its node, which the search found,
    is not finished, and everything its targets depend on is. *)
Definition hands_out fuel s (t : task) : Prop :=
  ∃ s', find_next_ready_node fuel s = Some (s', Some (tnode_ t)) ∧
    targets t = get_all_targets (world s') (tnode_ t) ∧ tnode_ t ∈ targets t ∧
    ¬ finished (st s (tnode_ t)) ∧ ∀ x, x ∈ targets t → ready_at s (world s') x.

Lemma next_task_walk tk fuel s s1 o :
  next_task tk fuel s = Some (s1, o) → walk_inv ∅ s →
  match o with
  | None => walk_inv ∅ s1 ∧ candidates s1 = [] ∧ top_targets_left s1 = [] ∧
      (∀ x, finished (st s x) → finished (st s1 x))
  | Some t => hands_out fuel s t ∧ ∃ s2, serial_try tk t s1 = (s2, Ok tt) ∧
      let s3 := Task_postprocess t (Task_executed (executed_m tk) t s2) in
      walk_inv ∅ s3 ∧ original_top s3 = original_top s ∧
      (∀ x, finished (st s x) → finished (st s3 x)) ∧
      tnode_ t ∈ v ∧ finished (st s3 (tnode_ t))
  end ∧ original_top s1 = original_top s.
Proof.
  unfold next_task, hands_out, find_next_ready_node. intros Hn Hi.
  assert (walk_inv ∅ (with_ready_exc None s)) as Hi0 by by destruct Hi.
  destruct (find_next_ready_node_loop fuel _) as [[s0 [c|]]|] eqn:Ef; [| |done].
  2: { destruct (walk_search _ _ _ _ Ef Hi0) as [(?&?&?) (?&_&Hfr)]. simplify_eq.
       split_and!; try done. intros x Hx. by apply Hfr. }
  destruct (walk_search _ _ _ _ Ef Hi0) as [(Hc & Hi1 & Hp & Hb) (Ho & He & Hfr)].
  set (t0 := Task (get_all_targets (world s0) c) _ c [] None) in Hn.
  assert (W (world s0)) as Hw0 by apply (wi_inside _ _ Hi1).
  destruct (make_ready_starts (make_ready_m tk) t0 s0 Hw0) as (s1' & t1 & E & Ht & Hx & Hf1 & Hs1).
  rewrite E in Hn. pose proof Hf1 as [Efr _]. injection Efr as _ _ Eo _ _ Ere.
  rewrite Ere, He in Hn. simpl in Hn. injection Hn as <- <-.
  injection Ht as Ht Htn.
  split; [|simpl; by rewrite Eo]. change (targets t0) with (get_all_targets (world s0) c) in Hf1, Hs1.
  rewrite <- Ht in Hf1, Hs1.
  assert (targets t1 = group c) as Htg by (rewrite Ht; by apply (plain_targets _ _ Hplain)).
  assert (c ∈ targets t1) as Hct by (rewrite Htg; by apply (plain_self _ _ Hplain)).
  set (s1 := with_ready_exc None s1').
  assert (task_frame (targets t1) s0 s1) as Hf1'.
  { destruct Hf1 as (Efr & Hwx & Hx1). split; [|by split]. unfold s1. simpl.
    injection Efr as -> -> -> -> -> _. by rewrite He. }
  destruct (serial_try_returns tk t1 s0 c Hct Hx s1) as (s2 & [] & E2 & Hw2 & Hf2 & Hs2);
    [split_and!; [by apply Hf1'|done..]|].
  assert (¬ finished (st s c)) as Hnf.
  { intros Hx'. apply Hfr in Hx'. rewrite Hp in Hx'. by destruct Hx'. }
  rewrite Htn. split.
  { exists s0. split_and!; [done..|]. intros x Hx'. rewrite Htg in Hx'.
    destruct Hb as (w & l & Hw & El & Hl). exists w, l. split; [done|].
    rewrite (plain_children _ _ Hplain w c x) by done. split; [done|].
    rewrite (plain_prerequisites _ _ Hplain (world s0) c x) by done. intros d Hd. by apply Hfr, Hl. }
  exists s2. split; [done|].
  destruct (executed_finishes (executed_m tk) t1 s2 Hw2 Hs2) as [Hf3 Hfin].
  assert (below s0 c) as Hb' by (destruct Hb as (w & l & Hb); by exists w, (world s0), l).
  destruct (walk_finish c t1 s0 (Task_executed (executed_m tk) t1 s2))
    as (Hi3 & _ & Ho3 & Hst3 & Hk3); [done..| | |done|].
  { intros y. rewrite Htg. intros Hy w Hw. split; [by eapply plain_children|].
    by eapply plain_prerequisites. }
  { by eapply task_frame_trans. }
  split_and!; [done|by rewrite Ho3, Ho| |done|].
  - intros x Hx'. by apply Hk3, Hfr.
  - rewrite Hst3. by apply Hfin.
Qed.

(** With nothing left to look at, nothing is pending. *)
Lemma walk_end s : walk_inv ∅ s → candidates s = [] → top_targets_left s = [] →
  (∀ x, st s x ≠ pending) ∧ pending_children s = ∅ ∧
  ∀ x, x ∈ original_top s → finished (st s x).
Proof.
  intros [Hr Hrk Hst Hun Hp Ht Hpc Hn Hi Hb] Hc Hl.
  assert (∀ x, wp s x ≠ ∅ → st s x = pending) as Hun'.
  { intros x [?|[_ [?%elem_of_empty|Hx]]]%Hun; [done..|]. rewrite Hc in Hx. by apply elem_of_nil in Hx. }
  assert (∀ k x, (rank x < k)%nat → st s x ≠ pending) as Hnp.
  { induction k as [|k IH]; intros x Hk Hx; [lia|].
    destruct (Hp x Hx) as [?%elem_of_empty|[Hx'|[y Hy]%nwait_pos]]; [done| |].
    - rewrite Hc in Hx'. by apply elem_of_nil in Hx'.
    - apply (IH y); [destruct (Hrk y x Hy); lia|]. apply Hun', waits_nonempty. by exists x. }
  split_and!.
  - intros x. by apply (Hnp (S (rank x))); lia.
  - apply set_eq. intros x. split; [|by intros ?%elem_of_empty]. intros Hx%Hpc%Hun'.
    by destruct (Hnp (S (rank x)) x); [lia|].
  - intros x Hx. destruct (Ht x Hx) as [?%elem_of_empty|[Hx'|[Hx'|Hx']]]; [done| | |].
    + rewrite Hl in Hx'. by apply elem_of_nil in Hx'.
    + rewrite Hc in Hx'. by apply elem_of_nil in Hx'.
    + destruct (Hst x) as [?|[E|?]]; [done| |done]. by destruct (Hnp (S (rank x)) x); [lia|].
Qed.

Lemma find_loop_mono f f' s r :
  find_next_ready_node_loop f s = Some r → (f ≤ f')%nat → find_next_ready_node_loop f' s = Some r.
Proof.
  revert f' s. induction f as [|f IH]; intros [|f'] s; simpl; [done|done|lia|]. intros Hf Hle.
  destruct (call_next_candidate s) as [s1 [c|]]; [|done].
  destruct (examine c s1) as [s2 []]; [|done]. apply IH; [done|lia].
Qed.

Lemma next_task_mono tk f f' s r :
  next_task tk f s = Some r → (f ≤ f')%nat → next_task tk f' s = Some r.
Proof.
  unfold next_task, find_next_ready_node. intros Hf Hle.
  destruct (find_next_ready_node_loop f _) as [r'|] eqn:E; [|done].
  by rewrite (find_loop_mono _ _ _ _ E Hle).
Qed.

Lemma Serial_start_mono tk f f' s r :
  Serial_start tk f s = Some r → (f ≤ f')%nat → Serial_start tk f' s = Some r.
Proof.
  revert f' s. induction f as [|f IH]; intros [|f'] s; simpl; [done|done|lia|]. intros Hf Hle.
  destruct (next_task tk f s) as [[s1 o]|] eqn:E; [|done].
  rewrite (next_task_mono tk f f' s _ E) by lia. destruct o as [t|]; [|done].
  destruct (serial_try tk t s1) as [s2 [|e]]; [apply IH; [done|lia]|].
  destruct (Task_failed (failed_m tk) _ s2) as [s3 [|]]; [apply IH; [done|lia]|done].
Qed.

(** The function takes the steps of the relation. *)
Lemma Serial_start_steps tk f s s' r :
  Serial_start tk f s = Some (s', r) →
  rtc (serial_step tk) (Serial s false S_next) (Serial s' false (S_done r)).
Proof.
  revert s. induction f as [|f IH]; intros s; simpl; [done|]. intros Hf.
  destruct (next_task tk f s) as [[s1 o]|] eqn:E; [|done].
  eapply rtc_l; [by eapply serial_next|]. destruct o as [t|]; simpl.
  2: { simplify_eq. apply rtc_once. constructor. }
  eapply rtc_l; [constructor|]. destruct (serial_try tk t s1) as [s2 [u|e]]; simpl.
  { eapply rtc_l; [constructor|]. eapply rtc_l; [constructor|]. by apply IH. }
  eapply rtc_l; [apply serial_fail|]. simpl.
  destruct (Task_failed (failed_m tk) _ s2) as [s3 [t'|e']]; simpl in *.
  - eapply rtc_l; [constructor|]. by apply IH.
  - simplify_eq. constructor.
Qed.

#[local] Instance finished_dec a : Decision (finished a).
Proof. unfold finished. apply _. Defined.

(** How many nodes are left. *)
Definition left_over s : nat := size (filter (λ x, ¬ finished (st s x)) v).

Lemma serial_runs tk s : walk_inv ∅ s → ∃ fuel s', Serial_start tk fuel s = Some (s', Ok tt) ∧
  walk_inv ∅ s' ∧ candidates s' = [] ∧ top_targets_left s' = [] ∧
  original_top s' = original_top s ∧ ∀ x, finished (st s x) → finished (st s' x).
Proof.
  remember (left_over s) as k eqn:Hk. revert s Hk.
  induction (lt_wf k) as [k _ IH]. intros s -> Hi.
  assert (∃ f r, next_task tk f s = Some r) as (f & [s1 o] & E).
  { destruct (find_loop_total W v (with_ready_exc None s)) as (f & r & Hf); [done|apply Hi|].
    exists f. unfold next_task, find_next_ready_node. rewrite Hf. destruct r as [s0 [c|]]; [|eauto].
    destruct (Task_make_ready _ _ s0) as [[s1 t1] r1]. eauto. }
  destruct (next_task_walk tk f s s1 o E Hi) as [Ho Hot]. destruct o as [t|].
  - destruct Ho as ((_ & _ & _ & _ & Hnf & _) & s2 & E2 & Hi3 & Ho3 & Hk3 & Hc & Hf).
    set (s3 := Task_postprocess t _) in *.
    destruct (IH (left_over s3)) with (s := s3) as (f' & s' & E' & Hi' & Hc' & Ht' & Ho' & Hm');
      [|done|done|].
    { unfold left_over. apply subset_size. split.
      - intros x. rewrite !elem_of_filter. naive_solver.
      - intros Hs. specialize (Hs (tnode_ t)). rewrite !elem_of_filter in Hs. naive_solver. }
    exists (S (f `max` f')), s'. split_and!; [|done..|congruence|auto]. simpl.
    rewrite (next_task_mono tk f _ s _ E) by lia. rewrite E2.
    apply (Serial_start_mono tk f'); [done|lia].
  - exists (S f), s1. destruct Ho as (Hi1 & Hc & Ht & Hm). simpl. rewrite E. split_and!; try done.
    destruct (walk_end s1 Hi1 Hc Ht) as (_ & Hpc & _). unfold cleanup. rewrite Hpc.
    assert (set_iter ∅ = []) as -> by by apply set_iter_nil. done.
Qed.

(** The states in which the loop of [start] asks for the next task, while no
    signal has come. *)
Definition loop_head tk s s' : Prop :=
  rtc (serial_step tk) (Serial s false S_next) (Serial s' false S_next).

(** What every task keeps holds whenever the loop asks for one. *)
Lemma loop_heads tk (Q : tm X → Prop) s s' :
  (∀ s f s1 t, Q s → next_task tk f s = Some (s1, Some t) → ∃ s2,
     serial_try tk t s1 = (s2, Ok tt) ∧
     Q (Task_postprocess t (Task_executed (executed_m tk) t s2))) →
  Q s → loop_head tk s s' → Q s'.
Proof.
  intros Hstep Hs Hrun.
  pose (C := λ c : serial, s_interrupted c = false → match s_pc c with
    | S_next => Q (s_tm c)
    | S_try t => ∃ s2, serial_try tk t (s_tm c) = (s2, Ok tt) ∧
        Q (Task_postprocess t (Task_executed (executed_m tk) t s2))
    | S_else t => Q (Task_postprocess t (Task_executed (executed_m tk) t (s_tm c)))
    | S_postprocess t => Q (Task_postprocess t (s_tm c))
    | S_except _ _ => False
    | S_cleanup | S_done _ => True
    end).
  assert (C (Serial s' false S_next)) as Hc; [|by apply Hc].
  refine (rtc_ind_r C (Serial s false S_next) _ _ _ Hrun); [by intros _|].
  intros c c' _ Hc Hr. destruct Hc as [s1 i f s2 o E|s1 i t|s1 i t e|s1 i t|s1 i t|s1 i|s1 i pc Hpc];
    intros Hi; cbn in Hi; [subst..|done]; specialize (Hr eq_refl); cbn in Hr |- *; try done.
  - destruct o as [t|]; [|done]. by eapply Hstep.
  - destruct Hr as (s2 & E & Hq). by rewrite E.
Qed.

(** The whole build: it ends; whatever it hands out, all that the targets depend
    on was finished before; what is finished stays so. *)
Record serial_ordered tk s0 s : Prop := {
  so_run : rtc (serial_step tk) (Serial s0 false S_next) (Serial s false (S_done (Ok tt)));
  so_top : ∀ t, t ∈ original_top s0 → finished (st s t);
  so_all : ∀ x, st s x = no_state ∨ finished (st s x);
  so_kept : ∀ s1 x, loop_head tk s0 s1 → finished (st s1 x) → below s1 x ∧ finished (st s x);
  so_ready : ∀ s1 fuel s2 t, loop_head tk s0 s1 →
    next_task tk fuel s1 = Some (s2, Some t) → hands_out fuel s1 t
}.

Lemma serial_build tk s0 : walk_inv ∅ s0 →
  ∃ fuel s, Serial_start tk fuel s0 = Some (s, Ok tt) ∧ serial_ordered tk s0 s.
Proof.
  intros Hi0. destruct (serial_runs tk s0 Hi0) as (fuel & s & E & Hi & Hc & Ht & Ho & _).
  destruct (walk_end s Hi Hc Ht) as (Hnp & _ & Htop).
  assert (∀ s1, loop_head tk s0 s1 →
    walk_inv ∅ s1 ∧ ∃ f, Serial_start tk f s1 = Some (s, Ok tt)) as Hheads.
  { intros s1 H1. pattern s1. eapply (loop_heads tk _ s0 s1); [|split; [exact Hi0|by eexists]|exact H1].
    intros s2 f s3 t [Hi2 [f' Ef]] En. destruct (next_task_walk tk f s2 s3 _ En Hi2) as
      [(_ & s4 & E4 & Hi4 & _) _]. exists s4. split; [done|]. split; [done|].
    destruct f' as [|f']; [done|]. exists f'. cbn in Ef.
    destruct (next_task tk f' s2) as [[s3' o]|] eqn:En'; [|done].
    apply (next_task_mono tk f (f `max` f')) in En; [|lia].
    apply (next_task_mono tk f' (f `max` f')) in En'; [|lia].
    rewrite En in En'. injection En' as <- <-. by rewrite E4 in Ef. }
  exists fuel, s. split; [done|]. split.
  - by eapply Serial_start_steps.
  - intros t Ht'. apply Htop. by rewrite Ho.
  - intros x. destruct (wi_state _ _ Hi x) as [?|[?|Hf]]; [by left|by destruct (Hnp x)|by right].
  - intros s1 x [Hi1 [f Ef]]%Hheads Hx. split; [by apply Hi1|].
    destruct (serial_runs tk s1 Hi1) as (f' & s' & E' & _ & _ & _ & _ & Hk).
    apply (Serial_start_mono tk f (f `max` f')) in Ef; [|lia].
    apply (Serial_start_mono tk f' (f `max` f')) in E'; [|lia].
    rewrite E' in Ef. injection Ef as <-. by apply Hk.
  - intros s1 f s2 t [Hi1 _]%Hheads En. by destruct (next_task_walk tk f s1 s2 _ En Hi1) as [[? _] _].
Qed.

Lemma walk_init w targets : W w → (∀ t, t ∈ targets → t ∈ v) →
  walk_inv ∅ (Taskmaster_init w ∅ targets).
Proof.
  intros Hw Hv. split; simpl; try done.
  - intros x. by left.
  - auto.
  - split_and!; simpl; [|done..]. by intros x ?%elem_of_nil.
  - intros x. by intros [?|?].
Qed.
End walk.

(** C1: a serial build of nodes in a finite closed set [v] whose dependencies go
    down in [rank] (no cycles), in which no call raises (from the states [W] of
    the world, which the calls keep), the targets of a task share children and
    prerequisites and nothing has side effects, and to which no signal comes,
    ends and returns normally.  At the end every target asked for is finished
    (up to date or executed) and every other node finished or untouched.  And
    in every state in which the loop asks for a task: a node that is finished has
    all that it depends on finished, and stays finished to the end; and a task
    handed out is one for a node not yet finished, such that all prerequisites and
    children of each of its targets, as this search finds them, were finished
    before.  *)
Theorem serial_build_complete {X} `{NodeWorld X} `{Orders} tk (W : X → Prop) v group rank w ts :
  closed W v → no_failures W → plain_actions W group → ranked W v rank → W w → (∀ t, t ∈ ts → t ∈ v) →
  let s0 := Taskmaster_init w ∅ ts in
  ∃ fuel s, Serial_start tk fuel s0 = Some (s, Ok tt) ∧
    rtc (serial_step tk) (Serial s0 false S_next) (Serial s false (S_done (Ok tt))) ∧
    (∀ t, t ∈ ts → finished (get_state (tm_nodes s) t)) ∧
    (∀ x, get_state (tm_nodes s) x = no_state ∨ finished (get_state (tm_nodes s) x)) ∧
    ∀ s1, loop_head tk s0 s1 →
      (∀ x, finished (get_state (tm_nodes s1) x) → below W s1 x ∧ finished (get_state (tm_nodes s) x)) ∧
      ∀ f s2 t, next_task tk f s1 = Some (s2, Some t) →
        ∃ s', find_next_ready_node f s1 = Some (s', Some (tnode_ t)) ∧
          targets t = get_all_targets (world s') (tnode_ t) ∧ tnode_ t ∈ targets t ∧
          ¬ finished (get_state (tm_nodes s1) (tnode_ t)) ∧
          ∀ x, x ∈ targets t → ∃ w' l, W w' ∧ get_all_children x w' = (world s', Ok l) ∧
            ∀ c, c ∈ get_all_prerequisites (world s') x ++ l → finished (get_state (tm_nodes s1) c).
Proof.
  intros Hcl Hok Hpl Hrk Hw Hts s0.
  destruct (serial_build W v group rank Hcl Hok Hpl Hrk tk s0) as (fuel & s & E & [Hrun Ht Ha Hk Hr]);
    [by apply walk_init|].
  exists fuel, s. split_and!; [done|done|done|done|]. intros s1 H1. split.
  - intros x. by apply Hk.
  - intros f s2 t En. exact (Hr s1 f s2 t H1 En).
Qed.

(** ** The diamond *)

Section diamond_build.
#[local] Instance diamond_build_world : NodeWorld (list nid) := demo_world diamond.

Lemma diamond_no_failures : no_failures (λ _, True).
Proof.
  split; intros; try (intros w _; by do 2 eexists); done.
Qed.

Lemma diamond_plain : plain_actions (λ _, True) (λ n, [n]).
Proof.
  split; simpl.
  - done.
  - intros n. by left.
  - by intros w n y _ ->%list_elem_of_singleton.
  - done.
  - by intros w [].
  - by intros w [].
Qed.

Lemma diamond_ranked : ranked (λ _, True) {[0;1;2;3]}%nat (λ n, 4 - n)%nat.
Proof.
  intros n w w' l c _ Hn [= <- <-] Hc.
  assert (n = 0 ∨ n = 1 ∨ n = 2 ∨ n = 3)%nat as [->|[->|[->| ->]]] by set_solver;
    simpl in Hc; repeat (apply elem_of_cons in Hc as [->|Hc]; [lia|]);
    by apply elem_of_nil in Hc.
Qed.

Lemma serial_build_complete_witness :
  ∃ fuel s, Serial_start default_tasker fuel (Taskmaster_init [] ∅ [0%nat]) = Some (s, Ok tt) ∧
    (∀ t, t ∈ [0%nat] → finished (get_state (tm_nodes s) t)).
Proof.
  destruct (serial_build_complete default_tasker _ {[0;1;2;3]}%nat _ (λ n, 4 - n)%nat [] [0%nat]
    diamond_closed diamond_no_failures diamond_plain diamond_ranked I) as (fuel & s & E & _ & Ht & _).
  - intros t ->%list_elem_of_singleton. set_solver.
  - exists fuel, s. split; [exact E|exact Ht].
Defined.

(** The run itself: 3 is found to be there, then 1, 2 and 0 are built. *)
Example diamond_run :
  (Serial_start default_tasker 20 (Taskmaster_init [] ∅ [0%nat])) ≫= (λ '(s, r),
     match r with Ok _ => Some (world s) | Raise _ => None end) = Some [1; 2; 0]%nat.
Proof. vm_compute. reflexivity. Qed.
End diamond_build.
