(* ===== verification/PyStr.v ===== *)
(** * Python's strings and lists, as far as the components use them

    A text is a list of bytes.  The functions here are the built-in operations
    of [str] ([split], [join], [rfind], slices) with their documented results,
    the pieces from which regular expressions are written out, and the laws the
    components share. *)

From S2P Require Import Prelude.
From Stdlib Require Export Ascii.

Definition text : Type := list ascii.

(** A literal. *)
Definition T (s : string) : text := String.list_ascii_of_string s.

Definition char_in (c : ascii) (s : string) : bool := bool_decide (c ∈ T s).

(** [string.whitespace] in the C locale: blank, [\t], [\n], [\v], [\f], [\r]. *)
Definition is_space (c : ascii) : bool :=
  let n := nat_of_ascii c in bool_decide (n = 32 ∨ (9 ≤ n ∧ n ≤ 13)).

(** [c.isdigit()], and the class [\w] of regular expressions. *)
Definition is_digit (c : ascii) : bool :=
  let n := nat_of_ascii c in bool_decide (48 ≤ n ∧ n ≤ 57).
Definition is_lower (c : ascii) : bool :=
  let n := nat_of_ascii c in bool_decide (97 ≤ n ∧ n ≤ 122).
Definition is_upper (c : ascii) : bool :=
  let n := nat_of_ascii c in bool_decide (65 ≤ n ∧ n ≤ 90).
Definition is_letter (c : ascii) : bool := is_lower c || is_upper c.
Definition is_word (c : ascii) : bool :=
  is_letter c || is_digit c || bool_decide (c = "_"%char).

(** [s.split(sep)] for a separator of one character. *)
Fixpoint split (sep : ascii) (s : text) : list text :=
  match s with
  | [] => [[]]
  | c :: s =>
      if decide (c = sep) then [] :: split sep s
      else match split sep s with
           | [] => [[c]]
           | w :: ws => (c :: w) :: ws
           end
  end.

(** [sep.join(l)] *)
Fixpoint join (sep : text) (l : list text) : text :=
  match l with
  | [] => []
  | [w] => w
  | w :: ws => w ++ sep ++ join sep ws
  end.

(** [s.split()]: the maximal runs of characters that are not blank. *)
Fixpoint split_ws (s : text) : list text :=
  match s with
  | [] => []
  | c :: s' =>
      if is_space c then split_ws s'
      else match split_ws s' with
           | w :: ws =>
               if match s' with c' :: _ => is_space c' | [] => true end
               then [c] :: w :: ws else (c :: w) :: ws
           | [] => [[c]]
           end
  end.

(** [s.rfind(c)]: the last index, or -1. *)
Definition rfind (s : text) (c : ascii) : Z :=
  (fst (foldl (λ '(r, i) x, (if decide (x = c) then i else r, i + 1)) (-1, 0) s))%Z.

(** [s.startswith(p)] *)
Fixpoint startswith (p s : text) : bool :=
  match p, s with
  | [], _ => true
  | c :: p, d :: s => bool_decide (c = d) && startswith p s
  | _ :: _, [] => false
  end.

(** [os.path.normpath] of POSIX; [os.path.normcase] is the identity there. *)
Definition norm_step (absolute : bool) (new_comps : list text) (comp : text) : list text :=
  if decide (comp = [] ∨ comp = T ".") then new_comps
  else if decide (comp ≠ T ".." ∨ (absolute = false ∧ new_comps = []) ∨
                  last new_comps = Some (T ".."))
  then new_comps ++ [comp]
  else take (pred (length new_comps)) new_comps.

Definition initial_slashes (path : text) : nat :=
  if startswith (T "//") path && negb (startswith (T "///") path) then 2
  else if startswith (T "/") path then 1 else 0.

Definition normpath (path : text) : text :=
  let slashes := initial_slashes path in
  let comps := foldl (norm_step (bool_decide (slashes ≠ 0))) [] (split "/"%char path) in
  match replicate slashes "/"%char ++ join (T "/") comps with
  | [] => T "."
  | p => p
  end.

Example normpath_dots : normpath (T "a//b/.././c/") = T "a/c".
Proof. reflexivity. Qed.
Example normpath_root : normpath (T "/../x") = T "/x".
Proof. reflexivity. Qed.

(** ** Pieces of regular expressions *)

(** [pattern.sub(repl, s)] for a pattern that does not match the empty text:
    [m] gives the replacement of a match at the front and the rest. *)
Fixpoint re_sub_loop (fuel : nat) (m : text → option (text * text)) (s : text) : text :=
  match fuel with
  | O => s
  | S fuel =>
      match s with
      | [] => []
      | c :: s' =>
          match m s with
          | Some (repl, rest) => repl ++ re_sub_loop fuel m rest
          | None => c :: re_sub_loop fuel m s'
          end
      end
  end.
Definition re_sub (m : text → option (text * text)) (s : text) : text :=
  re_sub_loop (length s) m s.

(** [p*] for a class of characters, greedy. *)
Fixpoint span (p : ascii → bool) (s : text) : text * text :=
  match s with
  | [] => ([], [])
  | c :: s' => if p c then let '(a, b) := span p s' in (c :: a, b) else ([], s)
  end.

(** A literal at the front. *)
Fixpoint after (lit s : text) : option text :=
  match lit, s with
  | [], _ => Some s
  | c :: lit, d :: s => if decide (c = d) then after lit s else None
  | _ :: _, [] => None
  end.

(** [os.path.split]: the head up to the last slash, without the slashes at its end
    unless there is nothing else, and the tail. *)
Definition is_slash (c : ascii) : bool := bool_decide (c = "/"%char).
Definition path_split (p : text) : text * text :=
  let '(tail, head) := span (λ c, negb (is_slash c)) (rev p) in
  (rev (if forallb is_slash head then head else (span is_slash head).2), rev tail).

Example path_split_file : path_split (T "/a//b/c.h") = (T "/a//b", T "c.h").
Proof. reflexivity. Qed.
Example path_split_root : path_split (T "/x") = (T "/", T "x").
Proof. reflexivity. Qed.

(** ** Laws *)

Lemma split_nonnil sep s : split sep s ≠ [].
Proof. destruct s as [|c s]; simpl; [done|]. case_decide; [done|]. by destruct (split sep s). Qed.

(** The head of a split is the text up to the first separator. *)
Lemma join_cons sep w ws : ws ≠ [] → join sep (w :: ws) = w ++ sep ++ join sep ws.
Proof. by destruct ws. Qed.

Lemma join_split sep s : join [sep] (split sep s) = s.
Proof.
  induction s as [|c s IH]; [done|]. simpl. pose proof (split_nonnil sep s) as Hn.
  case_decide as Hc.
  - rewrite join_cons by done. by rewrite IH, Hc.
  - destruct (split sep s) as [|w ws]; [done|].
    rewrite <- IH. by destruct ws.
Qed.

Lemma split_no_sep sep s : sep ∉ s → split sep s = [s].
Proof.
  induction s as [|c s IH]; [done|]. intros [Hc Hs]%not_elem_of_cons. simpl.
  rewrite decide_False by done. by rewrite IH.
Qed.

Lemma split_app sep w s : sep ∉ w → split sep (w ++ sep :: s) = w :: split sep s.
Proof.
  induction w as [|c w IH]; simpl; [by rewrite decide_True|].
  intros [Hc Hw]%not_elem_of_cons. rewrite decide_False by done. by rewrite IH.
Qed.

Lemma split_join sep ws :
  ws ≠ [] → Forall (λ w, sep ∉ w) ws → split sep (join [sep] ws) = ws.
Proof.
  intros Hn Hws. induction Hws as [|w ws Hw Hws IH]; [done|].
  destruct ws as [|w' ws]; [by apply split_no_sep|].
  rewrite join_cons by done. cbn [app]. rewrite split_app by done. by rewrite IH.
Qed.

Lemma elem_of_split sep s w : w ∈ split sep s → sep ∉ w.
Proof.
  revert w. induction s as [|c s IH]; intros w; simpl.
  - intros ->%list_elem_of_singleton. apply not_elem_of_nil.
  - case_decide as Hc.
    + intros [->|Hw]%elem_of_cons; [apply not_elem_of_nil|by apply IH].
    + destruct (split sep s) as [|w' ws] eqn:E; [by destruct (split_nonnil sep s)|].
      intros [->|Hw]%elem_of_cons; [|apply IH; by right].
      apply not_elem_of_cons. split; [congruence|]. apply IH. by left.
Qed.

(** [span] *)
Lemma span_split p s : let '(a, b) := span p s in s = a ++ b.
Proof.
  induction s as [|c s IH]; simpl; [done|]. destruct (p c); [|done].
  destruct (span p s). by rewrite IH.
Qed.

Lemma span_app p a s :
  Forall (λ c, p c = true) a → match s with c :: _ => p c = false | [] => True end →
  span p (a ++ s) = (a, s).
Proof.
  intros Ha Hs. induction Ha as [|c a Hc Ha IH]; simpl.
  - destruct s as [|c s]; simpl; [done|]. by rewrite Hs.
  - by rewrite Hc, IH.
Qed.

Lemma span_cases p s : let '(a, b) := span p s in
  Forall (λ c, p c = true) a ∧ match b with c :: _ => p c = false | [] => True end.
Proof.
  induction s as [|c s IH]; simpl; [done|]. destruct (p c) eqn:Hc; [|done].
  destruct (span p s) as [a b]. destruct IH as [Ha Hb]. by split; [constructor|].
Qed.

(** The head is shorter, except that of a text of slashes. *)
Lemma path_split_shorter p dir name :
  path_split p = (dir, name) →
  length dir < length p ∨ dir = [] ∨ (name = [] ∧ head dir = Some "/"%char).
Proof.
  unfold path_split. pose proof (span_split (λ c, negb (is_slash c)) (rev p)) as Hs.
  destruct (span _ (rev p)) as [t h] eqn:E. intros [= <- <-].
  assert (length p = length t + length h) as Hl.
  { rewrite <- length_app, <- Hs. symmetry. apply length_rev. }
  rewrite length_rev. destruct (forallb is_slash h) eqn:Ea.
  - destruct t as [|c t]; [|left; rewrite Hl; simpl; lia].
    destruct h as [|c h]; [by right; left|]. right; right. split; [done|].
    rewrite forallb_forall in Ea. destruct (rev (c :: h)) as [|d r] eqn:Er.
    { apply (f_equal length) in Er. rewrite length_rev in Er. done. }
    assert (is_slash d = true) as Hd by (apply Ea, in_rev; rewrite Er; by left).
    unfold is_slash in Hd. apply bool_decide_eq_true in Hd as ->. done.
  - left. assert (length (span is_slash h).2 ≤ length h) as Hle.
    { pose proof (span_split is_slash h) as Hh. destruct (span is_slash h) as [a b].
      rewrite Hh, length_app. simpl. lia. }
    destruct h as [|c h]; [done|]. assert (is_slash c = true) as Hc.
    { clear -E. revert E. generalize (rev p) as l. intros l. revert t.
      induction l as [|d l IH]; intros t; [done|]. simpl. destruct (is_slash d) eqn:Ed; simpl.
      - intros [= _ <- _]. done.
      - destruct (span _ l) as [a b]. intros [= _ E']. by eapply IH; rewrite E'. }
    rewrite Hl. simpl. rewrite Hc. pose proof (span_split is_slash h) as Hh.
    destruct (span is_slash h) as [a b]. rewrite Hh, length_app. simpl. lia.
Qed.
