(* ===== verification/Util.v ===== *)
(** * Lists, paths and ordered dictionaries ([SCons/Util.py])

    [uniquer], [uniquer_hashables], [unique] and [UniqueList];
    [PrependPath] and [AppendPath]; [OrderedDict] and [Selector]. *)

From S2P Require Import Prelude Errors PyStr.
Open Scope nat_scope.

(** ** Removing duplicates *)

Section uniquer.
Context {A B : Type} `{Countable B}.

(** One turn of the loop: [(seen, result)]. *)
Definition uniquer_step (idfun : A → B) (acc : gset B * list A) (item : A)
    : gset B * list A :=
  let '(seen, result) := acc in
  let marker := idfun item in
  if decide (marker ∈ seen) then (seen, result)
  else ({[marker]} ∪ seen, result ++ [item]).

Definition uniquer (idfun : A → B) (seq : list A) : list A :=
  (foldl (uniquer_step idfun) (∅, []) seq).2.
End uniquer.

Definition uniquer_hashables {A} `{Countable A} (seq : list A) : list A :=
  (foldl (λ '(seen, result) item,
     if decide (item ∈ seen) then (seen, result)
     else ({[item]} ∪ seen, result ++ [item])) ((∅ : gset A), []) seq).2.

(** [unique]: the three ways, by what the elements support.  The order of
    [u.keys()] and the sort are the language's. *)
Inductive support := Hashable | Ordered | Comparable.

Section unique.
Context {A : Type} `{Countable A}.
Variable dict_keys : gset A → list A.
Variable sort : list A → list A.

(** [while i < n], the list being overwritten from the front. *)
Fixpoint unique_weed (todo : nat) (t : list A) (last : A) (lasti i : nat)
    : list A * nat :=
  match todo with
  | O => (t, lasti)
  | S todo =>
      match t !! i with
      | None => (t, lasti)
      | Some x =>
          if decide (x ≠ last)
          then unique_weed todo (<[lasti := x]> t) x (S lasti) (S i)
          else unique_weed todo t last lasti (S i)
      end
  end.

Definition unique_sorted (t : list A) : list A :=
  match t with
  | [] => []
  | x :: _ => let '(t, lasti) := unique_weed (length t - 1) t x 1 1 in take lasti t
  end.

Definition unique_brute (s : list A) : list A :=
  foldl (λ u x, if decide (x ∈ u) then u else u ++ [x]) [] s.

Definition unique (k : support) (s : list A) : list A :=
  match s with
  | [] => []
  | _ => match k with
         | Hashable => dict_keys (list_to_set s)
         | Ordered => unique_sorted (sort s)
         | Comparable => unique_brute s
         end
  end.
End unique.

(** [class UniqueList]: duplicates are removed when the list is next read. *)
Record UniqueList (A : Type) := UL { ul_data : list A; ul_unique : bool }.
Arguments UL {A}.
Arguments ul_data {A}.
Arguments ul_unique {A}.

Section unique_list.
Context {A : Type} `{Countable A}.
Implicit Types u : UniqueList A.

Definition ul_init (seq : list A) : UniqueList A := UL seq true.

Definition make_unique u : UniqueList A :=
  if ul_unique u then u else UL (uniquer_hashables (ul_data u)) true.

(** Reading operations return the list object as they leave it. *)
Definition ul_len u : UniqueList A * nat :=
  let u := make_unique u in (u, length (ul_data u)).
Definition ul_getitem u (i : nat) : UniqueList A * res exn A :=
  let u := make_unique u in
  (u, match ul_data u !! i with
      | Some x => Ok x
      | None => Raise (ExOther "IndexError" "list index out of range")
      end).
(** Iteration and [list(u)] go through [__len__] and [__getitem__]. *)
Definition ul_list u : UniqueList A * list A :=
  let u := make_unique u in (u, ul_data u).
Definition ul_append u (item : A) : UniqueList A := UL (ul_data u ++ [item]) false.
Definition ul_extend u (other : list A) : UniqueList A := UL (ul_data u ++ other) false.
Definition ul_setitem u (i : nat) (item : A) : UniqueList A * res exn unit :=
  match ul_data u !! i with
  | Some _ => (UL (<[i := item]> (ul_data u)) false, Ok tt)
  | None => (u, Raise (ExOther "IndexError" "list assignment index out of range"))
  end.
Definition ul_reverse u : UniqueList A :=
  let u := make_unique u in UL (reverse (ul_data u)) (ul_unique u).
End unique_list.

(** ** Search paths *)

(** A path argument: a string, a list, a tuple, or another object (a [Dir]),
    given by its string. *)
Inductive path_arg :=
| PStr (s : text)
| PList (l : list text)
| PTuple (l : list text)
| POther (d : text).

Definition sequence_of (p : path_arg) : list text :=
  match p with PStr s => [s] | PList l => l | PTuple l => l | POther d => [d] end.

Definition AttributeError_reverse : exn :=
  ExOther "AttributeError" "'tuple' object has no attribute 'reverse'".
Definition TypeError_concat : exn := ExOther "TypeError" "can only concatenate list".
Definition AttributeError_split : exn := ExOther "AttributeError" "split".

Section paths.
Variable sep : ascii.
Variable canonicalize : option (text → text).

(** [os.path.normpath(os.path.normcase(path))] *)
Definition normed (path : text) : text := normpath path.

(** The old path as a sequence, and [is_list]. *)
Definition old_paths (oldpath : path_arg) : res exn (path_arg * bool) :=
  match oldpath with
  | PList _ | PTuple _ => Ok (oldpath, true)
  | PStr s => Ok (PList (split sep s), false)
  | POther _ => Raise AttributeError_split
  end.

(** The new paths as a sequence, after [canonicalize]; the flag tells whether
    the sequence is the caller's own object. *)
Definition new_paths (newpath : path_arg) : path_arg * bool :=
  let '(p, own) :=
    match newpath with
    | PStr s => (PList (split sep s), false)
    | POther d => (PList [d], false)
    | _ => (newpath, true)
    end in
  match canonicalize with
  | Some f => (PList (map f (sequence_of p)), false)
  | None => (p, own)
  end.

(** [a + b] of two sequences: both lists or both tuples. *)
Definition concat_paths (a b : path_arg) : res exn path_arg :=
  match a, b with
  | PList a, PList b => Ok (PList (a ++ b))
  | PTuple a, PTuple b => Ok (PTuple (a ++ b))
  | _, _ => Raise TypeError_concat
  end.

Definition add_new_path (acc : list text * list text) (path : text)
    : list text * list text :=
  let '(paths, normpaths) := acc in
  if decide (path ≠ [] ∧ normed path ∉ normpaths)
  then (paths ++ [path], normpaths ++ [normed path])
  else acc.

Definition insert_new_path (acc : list text * list text) (path : text)
    : list text * list text :=
  let '(result, normpaths) := acc in
  if decide (path ≠ [] ∧ normed path ∉ normpaths)
  then (path :: result, normpaths ++ [normed path])
  else acc.

Definition add_any_path (acc : list text * list text) (path : text)
    : list text * list text :=
  let '(result, normpaths) := acc in
  if decide (path = []) then acc
  else (result ++ [path], normpaths ++ [normed path]).

Definition return_paths (is_list : bool) (paths : list text) : path_arg :=
  if is_list then PList paths else PStr (join [sep] paths).

(** The result, and the caller's [newpath] object after the call. *)
Definition PrependPath (oldpath newpath : path_arg) (delete_existing : bool)
    : res exn (path_arg * path_arg) :=
  match old_paths oldpath with
  | Raise e => Raise e
  | Ok (paths, is_list) =>
      let '(newpaths, own) := new_paths newpath in
      if delete_existing then
        match concat_paths newpaths paths with
        | Raise e => Raise e
        | Ok newpaths =>
            let paths := (foldl add_new_path ([], []) (sequence_of newpaths)).1 in
            Ok (return_paths is_list paths, newpath)
        end
      else
        match newpaths with
        | PList l =>
            let acc := foldl add_new_path ([], []) (sequence_of paths) in
            let result := (foldl insert_new_path acc (reverse l)).1 in
            Ok (return_paths is_list result,
                if own then PList (reverse l) else newpath)
        | _ => Raise AttributeError_reverse
        end
  end.

Definition AppendPath (oldpath newpath : path_arg) (delete_existing : bool)
    : res exn path_arg :=
  match old_paths oldpath with
  | Raise e => Raise e
  | Ok (paths, is_list) =>
      let '(newpaths, _) := new_paths newpath in
      if delete_existing then
        match concat_paths paths newpaths with
        | Ok (PList l) =>
            let paths := (foldl add_new_path ([], []) (reverse l)).1 in
            Ok (return_paths is_list (reverse paths))
        | Ok _ => Raise AttributeError_reverse
        | Raise e => Raise e
        end
      else
        let acc := foldl add_any_path ([], []) (sequence_of paths) in
        let result := (foldl add_new_path acc (sequence_of newpaths)).1 in
        Ok (return_paths is_list result)
  end.
End paths.

(** ** Ordered dictionaries *)

Record OrderedDict (K V : Type) `{Countable K} := OD {
  od_data : gmap K V;
  od_keys : list K
}.
Arguments OD {K V _ _}.
Arguments od_data {K V _ _}.
Arguments od_keys {K V _ _}.

Section ordered_dict.
Context {K V : Type} `{Countable K}.
Implicit Types d : OrderedDict K V.

Definition KeyError : exn := ExOther "KeyError" "".

Definition od_empty : OrderedDict K V := OD ∅ [].

(** [l.remove(k)]: the first occurrence. *)
Fixpoint remove_first (k : K) (l : list K) : list K :=
  match l with
  | [] => []
  | x :: l => if decide (x = k) then l else x :: remove_first k l
  end.

Definition od_getitem (key : K) d : res exn V :=
  match od_data d !! key with Some v => Ok v | None => Raise KeyError end.

Definition od_delitem (key : K) : eff (OrderedDict K V) exn unit := λ d,
  match od_data d !! key with
  | None => (d, Raise KeyError)
  | Some _ => (OD (delete key (od_data d)) (remove_first key (od_keys d)), Ok tt)
  end.

Definition od_setitem (key : K) (item : V) d : OrderedDict K V :=
  OD (<[key := item]> (od_data d))
     (if decide (key ∈ od_keys d) then od_keys d else od_keys d ++ [key]).

Definition od_clear d : OrderedDict K V := OD ∅ [].

(** [map(self.get, self._keys)]: [None] for a key without a value. *)
Definition od_values d : list (option V) := map (λ k, od_data d !! k) (od_keys d).
Definition od_items d : list (K * option V) := zip (od_keys d) (od_values d).

(** [update] with the items of a dictionary that has a value for each key. *)
Definition od_update (items : list (K * V)) d : OrderedDict K V :=
  foldl (λ d '(k, v), od_setitem k v d) d items.

Definition od_copy d : OrderedDict K V :=
  od_update (omap (λ '(k, o), v ← o; Some (k, v)) (od_items d)) od_empty.

Definition od_popitem : eff (OrderedDict K V) exn (K * V) := λ d,
  match last (od_keys d) with
  | None => (d, Raise (ExOther "KeyError" "dictionary is empty"))
  | Some key =>
      match od_getitem key d with
      | Raise e => (d, Raise e)
      | Ok val =>
          match od_delitem key d with
          | (d, Ok _) => (d, Ok (key, val))
          | (d, Raise e) => (d, Raise e)
          end
      end
  end.

(** The result is [None]: the method returns nothing. *)
Definition od_setdefault (key : K) (failobj : V) d : OrderedDict K V :=
  OD (match od_data d !! key with
      | Some _ => od_data d
      | None => <[key := failobj]> (od_data d)
      end)
     (if decide (key ∈ od_keys d) then od_keys d else od_keys d ++ [key]).
End ordered_dict.

(** [Selector.__call__]: a file suffix, or the substituted suffix, is looked
    up; [None] is the default key. *)
Section selector.
Context {V : Type}.
Variable subst : text → text.

Fixpoint subst_keys (items : list (option text * option V))
    (s_dict : gmap text (text * option V)) : res exn (gmap text (text * option V)) :=
  match items with
  | [] => Ok s_dict
  | (None, _) :: items => subst_keys items s_dict
  | (Some k, v) :: items =>
      match s_dict !! subst k with
      | Some _ => Raise KeyError
      | None => subst_keys items (<[subst k := (k, v)]> s_dict)
      end
  end.

(** [source] is given by the suffixes of its nodes. *)
Definition Selector_call (d : OrderedDict (option text) V) (source : list text)
    (ext : option text) : res exn (option V) :=
  let ext := match ext with Some e => e | None => default [] (head source) end in
  match od_getitem (Some ext) d with
  | Ok v => Ok (Some v)
  | Raise _ =>
      match subst_keys (od_items d) ∅ with
      | Raise e => Raise e
      | Ok s_dict =>
          match s_dict !! ext with
          | Some (_, v) => Ok v
          | None => Ok (od_data d !! None)
          end
      end
  end.
End selector.

(** ** Theorems: removing duplicates *)

Section uniquer_facts.
Context {A B : Type} `{Countable B}.
Variable idfun : A → B.

Lemma uniquer_seen l :
  (foldl (uniquer_step idfun) (∅, []) l).1 = list_to_set (idfun <$> l).
Proof.
  induction l as [|x l IH] using rev_ind; [done|].
  rewrite foldl_snoc. destruct (foldl _ _ l) as [seen result]. simpl in *.
  rewrite fmap_app, list_to_set_app_L. cbn [fmap list_fmap list_to_set].
  case_decide; simpl; set_solver.
Qed.

(** The law that determines [uniquer]: an element is kept when no earlier one
    has its marker. *)
Lemma uniquer_snoc l x :
  uniquer idfun (l ++ [x]) =
  uniquer idfun l ++ (if decide (idfun x ∈ idfun <$> l) then [] else [x]).
Proof.
  unfold uniquer. rewrite foldl_snoc. pose proof (uniquer_seen l) as Hs.
  destruct (foldl _ _ l) as [seen result]. simpl in *. subst seen.
  repeat case_decide; rewrite ?elem_of_list_to_set in *; simpl; by rewrite ?app_nil_r.
Qed.

Lemma uniquer_sublist l : uniquer idfun l `sublist_of` l.
Proof.
  induction l as [|x l IH] using rev_ind; [done|]. rewrite uniquer_snoc.
  apply sublist_app; [done|]. case_decide; [apply sublist_nil_l|done].
Qed.

Lemma uniquer_elem b l : b ∈ idfun <$> uniquer idfun l ↔ b ∈ idfun <$> l.
Proof.
  induction l as [|x l IH] using rev_ind; [done|]. rewrite uniquer_snoc, !fmap_app.
  rewrite !elem_of_app, IH. case_decide; cbn [fmap list_fmap]; set_solver.
Qed.

Lemma uniquer_NoDup l : NoDup (idfun <$> uniquer idfun l).
Proof.
  induction l as [|x l IH] using rev_ind; [apply NoDup_nil_2|].
  rewrite uniquer_snoc, fmap_app. apply NoDup_app. split; [done|].
  case_decide as Hx; cbn [fmap list_fmap]; [split; [set_solver|apply NoDup_nil_2]|].
  split; [|apply NoDup_singleton].
  intros b Hb ->%list_elem_of_singleton. by apply Hx, uniquer_elem.
Qed.

(** A list without repeated markers is unchanged. *)
Lemma uniquer_id l : NoDup (idfun <$> l) → uniquer idfun l = l.
Proof.
  induction l as [|x l IH] using rev_ind; [done|].
  rewrite fmap_app, NoDup_app. intros (Hl & Hx & _). rewrite uniquer_snoc, IH by done.
  rewrite decide_False; [done|]. intros Hin. apply (Hx _ Hin). by left.
Qed.

(** Removing duplicates of a part first changes nothing. *)
Lemma uniquer_app_uniquer l k :
  uniquer idfun (l ++ uniquer idfun k) = uniquer idfun (l ++ k).
Proof.
  induction k as [|x k IH] using rev_ind; [done|]. rewrite uniquer_snoc.
  rewrite (app_assoc l k [x]), uniquer_snoc, <- IH. case_decide as Hx.
  - rewrite app_nil_r. rewrite decide_True; [by rewrite app_nil_r|].
    rewrite fmap_app, elem_of_app. by right.
  - rewrite app_assoc, uniquer_snoc. f_equal.
    apply decide_ext. by rewrite !fmap_app, !elem_of_app, uniquer_elem.
Qed.

Lemma uniquer_app_l l k : (∀ x, x ∈ k → idfun x ∈ idfun <$> l) →
  uniquer idfun (l ++ k) = uniquer idfun l.
Proof.
  induction k as [|x k IH] using rev_ind; intros Hk; [by rewrite app_nil_r|].
  rewrite app_assoc, uniquer_snoc, IH by set_solver.
  rewrite decide_True; [by rewrite app_nil_r|].
  rewrite fmap_app, elem_of_app. left. apply Hk. set_solver.
Qed.
Lemma uniquer_twice l k : uniquer idfun (l ++ l ++ k) = uniquer idfun (l ++ k).
Proof.
  rewrite app_assoc. induction k as [|x k IH] using rev_ind.
  - rewrite !app_nil_r. apply uniquer_app_l. set_solver.
  - rewrite !app_assoc, !uniquer_snoc. rewrite <- IH. f_equal.
    apply decide_ext. rewrite !fmap_app, !elem_of_app. tauto.
Qed.
End uniquer_facts.

Section unique_facts.
Context {A : Type} `{Countable A}.

Lemma uniquer_hashables_uniquer (l : list A) : uniquer_hashables l = uniquer id l.
Proof.
  unfold uniquer_hashables, uniquer. f_equal. generalize (∅ : gset A, @nil A).
  induction l as [|x l IH]; intros [seen result]; [done|]. apply IH.
Qed.

Lemma unique_brute_uniquer (l : list A) : unique_brute l = uniquer id l.
Proof.
  induction l as [|x l IH] using rev_ind; [done|].
  rewrite uniquer_snoc. unfold unique_brute in *. rewrite foldl_snoc, IH.
  pose proof (uniquer_elem id x l) as Hx. rewrite !list_fmap_id in Hx.
  rewrite list_fmap_id. repeat case_decide; rewrite ?app_nil_r; tauto.
Qed.

(** What the in-place loop leaves: the elements that differ from the one
    before. *)
Fixpoint weed (last : A) (l : list A) : list A :=
  match l with
  | [] => []
  | x :: l => if decide (x ≠ last) then x :: weed x l else weed last l
  end.

Lemma unique_weed_spec rest t last lasti i :
  drop i t = rest → lasti ≤ i →
  let r := unique_weed (length rest) t last lasti i in
  take r.2 r.1 = take lasti t ++ weed last rest.
Proof.
  revert t last lasti i. induction rest as [|x rest IH]; intros t last lasti i Hd Hi; simpl.
  { by rewrite app_nil_r. }
  assert (t !! i = Some x) as Hx.
  { rewrite <- (Nat.add_0_r i), <- lookup_drop, Hd. done. }
  rewrite Hx. assert (drop (S i) t = rest) as Hd'.
  { rewrite <- Nat.add_1_r, <- drop_drop, Hd. done. }
  apply lookup_lt_Some in Hx as Hlt. case_decide as Hne.
  - rewrite IH; [|by rewrite drop_insert_lt by lia|lia].
    rewrite (take_S_r _ _ x) by (by rewrite list_lookup_insert_eq by lia).
    rewrite take_insert_ge by lia. by rewrite <- app_assoc.
  - rewrite IH by (auto; lia). done.
Qed.

Lemma unique_sorted_weed x l : unique_sorted (x :: l) = x :: weed x l.
Proof.
  unfold unique_sorted. replace (length (x :: l) - 1) with (length l) by (simpl; lia).
  pose proof (unique_weed_spec l (x :: l) x 1 1 eq_refl (le_n _)) as E. simpl in E.
  by destruct (unique_weed _ _ _ _ _).
Qed.

Lemma weed_spec (R : relation A) `{!Transitive R, !AntiSymm eq R} x l :
  StronglySorted R (x :: l) →
  NoDup (x :: weed x l) ∧ ∀ y, y ∈ x :: weed x l ↔ y ∈ x :: l.
Proof.
  revert x. induction l as [|z l IH]; intros x Hs; simpl.
  { split; [apply NoDup_singleton|done]. }
  apply StronglySorted_inv in Hs as [Hs Hx]. pose proof Hx as Hx'.
  apply Forall_cons in Hx' as [Hxz Hx']. case_decide as Hne.
  - destruct (IH z Hs) as [Hnd Hin]. split.
    + apply NoDup_cons. split; [|done]. rewrite Hin. intros [->|Hxl]%elem_of_cons; [done|].
      apply StronglySorted_inv in Hs as [_ Hz]. rewrite Forall_forall in Hz.
      apply Hne, (anti_symm R); [by apply Hz|done].
    + intros y. by rewrite elem_of_cons, Hin, (elem_of_cons (z :: l)).
  - assert (z = x) as -> by (by destruct (decide (z = x))).
    destruct (IH x Hs) as [Hnd Hin]. split; [done|].
    intros y. rewrite Hin. set_solver.
Qed.
End unique_facts.

(** ** Theorems: search paths *)

Definition nonempty (p : text) : Prop := p ≠ [].
#[export] Instance nonempty_dec p : Decision (nonempty p).
Proof. unfold nonempty. apply _. Defined.

Lemma filter_all {A} (P : A → Prop) `{!∀ x, Decision (P x)} l :
  Forall P l → filter P l = l.
Proof.
  induction 1 as [|x l Hx _ IH]; [done|]. by rewrite filter_cons_True, IH.
Qed.

(** The specification of a search path: the first of each directory. *)
Definition first_paths (l : list text) : list text :=
  uniquer normpath (filter nonempty l).

Lemma add_new_path_spec l :
  foldl add_new_path ([], []) l = (first_paths l, normpath <$> first_paths l).
Proof.
  unfold first_paths. induction l as [|p l IH] using rev_ind; [done|].
  rewrite foldl_snoc, IH, filter_app. unfold add_new_path, normed.
  rewrite filter_cons. destruct (decide (nonempty p)) as [Hp|Hp].
  - rewrite filter_nil, uniquer_snoc, fmap_app.
    pose proof (uniquer_elem normpath (normpath p) (filter nonempty l)) as Hin.
    destruct (decide (normpath p ∈ normpath <$> filter nonempty l)) as [Hd|Hd].
    + rewrite decide_False by (intros [_ Hd']; by rewrite Hin in Hd').
      cbn. by rewrite !app_nil_r.
    + rewrite decide_True by (split; [done|by rewrite Hin]). done.
  - rewrite decide_False by (intros [? _]; done).
    rewrite filter_nil, app_nil_r. done.
Qed.

Lemma split_join_first sep l :
  Forall (λ w, sep ∉ w) l →
  filter nonempty (split sep (join [sep] (first_paths l))) = first_paths l.
Proof.
  intros Hl. assert (Forall (λ w, sep ∉ w) (first_paths l) ∧
    Forall nonempty (first_paths l)) as [Hw Hn].
  { rewrite !Forall_forall in *. split; intros w Hw;
      apply (sublist_subseteq _ _ (uniquer_sublist normpath _)), list_elem_of_filter in Hw;
      naive_solver. }
  destruct (first_paths l) as [|w ws]; [done|].
  rewrite split_join by done. by apply filter_all.
Qed.

(** With [delete_existing], [PrependPath] returns the first of each
    normalised directory of the new path followed by the old, [AppendPath] the
    last of each of the old path followed by the new, for lists and for strings
    alike; and prepending the same path again changes nothing. *)
Theorem PrependPath_first sep (old new : text) (lold lnew : list text) :
  PrependPath sep None (PList lold) (PList lnew) true =
    Ok (PList (first_paths (lnew ++ lold)), PList lnew) ∧
  AppendPath sep None (PList lold) (PList lnew) true =
    Ok (PList (reverse (first_paths (reverse (lold ++ lnew))))) ∧
  ∃ r, r = join [sep] (first_paths (split sep new ++ split sep old)) ∧
    PrependPath sep None (PStr old) (PStr new) true = Ok (PStr r, PStr new) ∧
    PrependPath sep None (PStr r) (PStr new) true = Ok (PStr r, PStr new).
Proof.
  split_and!.
  - unfold PrependPath. simpl. by rewrite add_new_path_spec.
  - unfold AppendPath. simpl. by rewrite add_new_path_spec.
  - eexists. split; [done|]. set (l := split sep new ++ split sep old).
    unfold PrependPath. simpl. rewrite !add_new_path_spec. simpl.
    split; [done|]. do 3 f_equal. fold l. unfold first_paths at 1.
    rewrite filter_app, split_join_first.
    + unfold first_paths. rewrite uniquer_app_uniquer. unfold l.
      by rewrite filter_app, uniquer_twice.
    + subst l. rewrite Forall_app. split; rewrite Forall_forall; apply elem_of_split.
Qed.

Lemma insert_new_path_spec l result norms :
  let acc := foldl insert_new_path (result, norms) l in
  ∃ added, acc.1 = added ++ result ∧ acc.2 = norms ++ reverse (normpath <$> added) ∧
    (∀ p, p ∈ added → p ∈ l ∧ p ≠ []) ∧
    (NoDup norms → NoDup acc.2) ∧
    (∀ p, p ∈ l → p ≠ [] → normpath p ∈ acc.2).
Proof.
  induction l as [|p l IH] using rev_ind.
  { exists []. rewrite app_nil_r. split_and!; try done; set_solver. }
  destruct IH as (added & E1 & E2 & Ha & Hnd & Hin). cbn zeta. rewrite foldl_snoc.
  destruct (foldl _ _ l) as [r n]. simpl in *. subst r. unfold insert_new_path, normed.
  case_decide as Hd; simpl.
  - destruct Hd as [Hp Hd]. exists (p :: added). cbn [fmap list_fmap].
    rewrite reverse_cons, E2, app_assoc. split_and!; [done..| | |].
    + intros q [->|Hq]%elem_of_cons; set_solver.
    + intros Hn. rewrite <- E2. apply NoDup_app. split_and!; [auto| |apply NoDup_singleton].
      intros x Hx ->%list_elem_of_singleton. done.
    + rewrite <- E2. set_solver.
  - exists added. split_and!; [done..| |done|]; [set_solver|].
    intros q Hq Hne. apply elem_of_app in Hq as [Hq|Hq]; [auto|].
    apply list_elem_of_singleton in Hq as ->.
    destruct (decide (normpath p ∈ n)); [done|]. by destruct Hd.
Qed.

(** Without [delete_existing], [PrependPath] keeps the old path, each
    directory once, behind the new directories that are not in it, adds every
    new directory, and leaves a caller's list reversed. *)
Theorem PrependPath_keeps_old sep (lold lnew : list text) :
  ∃ added,
    PrependPath sep None (PList lold) (PList lnew) false =
      Ok (PList (added ++ first_paths lold), PList (reverse lnew)) ∧
    NoDup (normpath <$> (added ++ first_paths lold)) ∧
    (∀ p, p ∈ added → p ∈ lnew) ∧
    (∀ p, p ∈ lnew → p ≠ [] → normpath p ∈ normpath <$> (added ++ first_paths lold)).
Proof.
  unfold PrependPath. simpl. rewrite add_new_path_spec.
  destruct (insert_new_path_spec (reverse lnew) (first_paths lold)
    (normpath <$> first_paths lold)) as (added & E1 & E2 & Ha & Hnd & Hin).
  exists added. rewrite E1. split; [done|].
  assert (normpath <$> (added ++ first_paths lold) ≡ₚ
    (foldl insert_new_path (first_paths lold, normpath <$> first_paths lold)
       (reverse lnew)).2) as Hp.
  { rewrite E2, fmap_app, reverse_Permutation. apply Permutation_app_comm. }
  split_and!.
  - rewrite Hp. apply Hnd, uniquer_NoDup.
  - intros p Hp'. apply elem_of_reverse. by apply Ha.
  - intros p Hp' Hne. rewrite Hp. apply Hin; [by apply elem_of_reverse|done].
Qed.

(** ** Theorems: ordered dictionaries *)

Section ordered_dict_facts.
Context {K V : Type} `{Countable K}.
Implicit Types d : OrderedDict K V.

(** The list of keys has each key of the dictionary once. *)
Definition od_ok d : Prop :=
  NoDup (od_keys d) ∧ ∀ k, k ∈ od_keys d ↔ is_Some (od_data d !! k).

Lemma elem_of_remove_first k x (l : list K) : NoDup l →
  x ∈ remove_first k l ↔ x ∈ l ∧ x ≠ k.
Proof.
  induction 1 as [|y l Hy Hl IH]; simpl; [set_solver|].
  case_decide; subst; set_solver.
Qed.

Lemma NoDup_remove_first k (l : list K) : NoDup l → NoDup (remove_first k l).
Proof.
  intros Hl. induction Hl as [|y l Hy Hl IH]; simpl; [apply NoDup_nil_2|].
  case_decide; [done|]. apply NoDup_cons. split; [|done].
  by rewrite elem_of_remove_first by done; intros [? _].
Qed.

Lemma remove_first_last k (l : list K) : k ∉ l → remove_first k (l ++ [k]) = l.
Proof.
  induction l as [|x l IH]; simpl; intros Hk; [by rewrite decide_True|].
  apply not_elem_of_cons in Hk as [Hne Hk]. rewrite decide_False by done. by rewrite IH.
Qed.

Lemma od_ok_setitem k v d : od_ok d → od_ok (od_setitem k v d).
Proof.
  intros [Hn Hk]. split; simpl.
  - case_decide as Hd; [done|]. apply NoDup_app. split_and!; [done| |apply NoDup_singleton].
    intros x Hx ->%list_elem_of_singleton. done.
  - intros x. rewrite lookup_insert_is_Some, <- Hk. case_decide; [|set_solver].
    destruct (decide (k = x)); naive_solver.
Qed.

Lemma od_ok_setdefault k v d : od_ok d → od_ok (od_setdefault k v d).
Proof.
  intros Hd. destruct (od_data d !! k) as [w|] eqn:E.
  - unfold od_setdefault. rewrite E. destruct Hd as [Hn Hk].
    rewrite decide_True by (apply Hk; eauto). by destruct d.
  - unfold od_setdefault. rewrite E. by apply (od_ok_setitem k v).
Qed.

Lemma od_ok_delitem k d : od_ok d → od_ok (od_delitem k d).1.
Proof.
  intros [Hn Hk]. unfold od_delitem. destruct (od_data d !! k); [|done].
  split; simpl; [by apply NoDup_remove_first|]. intros x.
  rewrite elem_of_remove_first, Hk, lookup_delete_is_Some by done. naive_solver.
Qed.

Lemma od_ok_update l d : od_ok d → od_ok (od_update l d).
Proof.
  intros Hd. unfold od_update. apply (foldl_pred od_ok); [|done].
  intros ? [] _. apply od_ok_setitem.
Qed.

Lemma od_ok_popitem d : od_ok d → od_ok (od_popitem d).1.
Proof.
  intros Hd. unfold od_popitem. destruct (last _); [|done].
  destruct (od_getitem _ _); [|done].
  pose proof (od_ok_delitem k d Hd). by destruct (od_delitem k d) as [? []].
Qed.
End ordered_dict_facts.

(** on a dictionary whose key list has each of its keys once, every
    operation keeps that, [items] lists exactly the entries, in the order the
    keys were first set, and [popitem] undoes the setting of a new key. *)
Theorem OrderedDict_ordered {K V} `{Countable K} (d : OrderedDict K V) k v l :
  od_ok d →
  (od_ok (od_setitem k v d) ∧ od_ok (od_setdefault k v d) ∧
   od_ok (od_delitem k d).1 ∧ od_ok (od_popitem d).1 ∧ od_ok (od_update l d)) ∧
  (∀ x w, (x, Some w) ∈ od_items d ↔ od_data d !! x = Some w) ∧
  (k ∉ od_keys d →
   od_items (od_setitem k v d) = od_items d ++ [(k, Some v)] ∧
   od_popitem (od_setitem k v d) = (d, Ok (k, v))).
Proof.
  intros Hd. split_and!; [by apply od_ok_setitem|by apply od_ok_setdefault|
    by apply od_ok_delitem|by apply od_ok_popitem|by apply od_ok_update| |].
  - assert (od_items d = (λ x, (x, od_data d !! x)) <$> od_keys d) as ->.
    { unfold od_items, od_values. by induction (od_keys d); f_equal/=. }
    intros x w. rewrite list_elem_of_fmap. destruct Hd as [_ Hk].
    split; [naive_solver|]. intros E. exists x. split; [by rewrite E|]. apply Hk. eauto.
  - intros Hk. assert (od_data d !! k = None) as E.
    { destruct (od_data d !! k) eqn:E; [|done]. destruct Hk. apply Hd. eauto. }
    unfold od_items, od_values, od_popitem, od_setitem, od_getitem, od_delitem. simpl.
    rewrite decide_False by done. rewrite last_snoc, !lookup_insert_eq.
    rewrite delete_insert_id by done. rewrite remove_first_last by done.
    split; [|by destruct d]. rewrite map_app. simpl. rewrite lookup_insert_eq.
    assert (map (λ x, <[k:=v]> (od_data d) !! x) (od_keys d) =
            map (λ x, od_data d !! x) (od_keys d)) as ->.
    { apply map_ext_in. intros x Hx. apply lookup_insert_ne.
      intros ->. by apply Hk, list_elem_of_In. }
    rewrite zip_with_app by (by rewrite length_map). done.
Qed.

Example OrderedDict_ordered_witness :
  od_popitem (od_setitem 2 "b"%string (od_setitem 1 "a"%string od_empty)) =
    (od_setitem 1 "a"%string od_empty, Ok (2, "b"%string)).
Proof.
  apply (OrderedDict_ordered (od_setitem 1 "a"%string od_empty) 2 "b"%string []).
  - apply od_ok_setitem. split; [apply NoDup_nil_2|]. intros k. split.
    + by intros ?%elem_of_nil.
    + intros [? Hk]. simpl in Hk. by rewrite lookup_empty in Hk.
  - apply (bool_decide_unpack _). by vm_compute.
Defined.

(** Whatever the elements support, [unique] returns each element of the
    sequence exactly once. *)
Theorem unique_spec {A} `{Countable A} (R : relation A) `{!Transitive R, !AntiSymm eq R}
    (dict_keys : gset A → list A) (sort : list A → list A) (k : support) (s : list A) :
  (∀ X, dict_keys X ≡ₚ elements X) →
  (∀ l, sort l ≡ₚ l ∧ StronglySorted R (sort l)) →
  NoDup (unique dict_keys sort k s) ∧ ∀ x, x ∈ unique dict_keys sort k s ↔ x ∈ s.
Proof.
  intros Hk Hsort. destruct s as [|x0 s]; [split; [apply NoDup_nil_2|done]|].
  unfold unique. set (l := x0 :: s). destruct k.
  - rewrite Hk. split; [apply NoDup_elements|].
    intros x. by rewrite Hk, elem_of_elements, elem_of_list_to_set.
  - destruct (Hsort l) as [Hp Hs]. destruct (sort l) as [|y t] eqn:E.
    { by apply Permutation_nil_cons in Hp. }
    rewrite unique_sorted_weed. destruct (weed_spec R y t Hs) as [Hnd Hin].
    split; [done|]. intros x. by rewrite Hin, Hp.
  - rewrite unique_brute_uniquer. split.
    + pose proof (uniquer_NoDup id l) as Hnd. by rewrite list_fmap_id in Hnd.
    + intros x. pose proof (uniquer_elem id x l) as Hx. by rewrite !list_fmap_id in Hx.
Qed.

Example unique_spec_witness :
  NoDup (unique (A:=Z) elements (merge_sort Z.le) Ordered [3; 1; 3; 2; 1]%Z).
Proof.
  apply (unique_spec Z.le); [done|]. intros l. split; [apply merge_sort_Permutation|].
  apply (StronglySorted_merge_sort Z.le).
Defined.
