(* ===== verification/NodeData.v ===== *)
(** * Dependencies of nodes ([SCons/Node/__init__.py]): data

    The attributes of [Node], [BuildInfoBase] and of [SCons/Executor.py]'s
    executors, the store that holds the objects, and the methods of [Node] that
    change the lists of children without scanning. *)

From S2P Require Import Prelude Errors NodeState PyStr Util.
Open Scope nat_scope.

(** Actions, scanners, executors and signature objects are compared by
    identity. *)
Definition action : Type := nat.
Definition scanner : Type := nat.
Definition eid : Type := nat.
Definition ninfo : Type := nat.

(** The types of other components: construction environments
    ([Environment.py]), search paths, and the signature information read back
    from a [.sconsign] file. *)
Class DepTypes := {
  env : Type;
  path : Type;
  pinfo : Type
}.

(** [class BuildInfoBase]; the signatures are the [NodeInfo] objects of the
    running build, or those read back from the last one. *)
Record build_info (S : Type) := BuildInfo {
  bsources : list nid;
  bsourcesigs : list S;
  bdepends : list nid;
  bdependsigs : list S;
  bimplicit : list nid;
  bimplicitsigs : list S;
  bact : option string;
  bactsig : option string
}.
Arguments BuildInfo {S}.
Arguments bsources {S}.
Arguments bsourcesigs {S}.
Arguments bdepends {S}.
Arguments bdependsigs {S}.
Arguments bimplicit {S}.
Arguments bimplicitsigs {S}.
Arguments bact {S}.
Arguments bactsig {S}.

Section data.
Context `{DepTypes}.

(** What a node reads of its builder ([Builder.py]). *)
Record builder := Builder {
  bd_action : action;
  bd_env : option env;
  bd_overrides : gmap string string;
  bd_target_scanner : option scanner;
  bd_source_scanner : option scanner
}.

Record dnode := DNode {
  sources : list nid;
  sources_set : gset nid;
  specific_sources : bool;
  depends : list nid;
  depends_set : gset nid;
  ignore : list nid;
  ignore_set : gset nid;
  prerequisites : UniqueList nid;
  implicit : option (list nid);
  implicit_set : gset nid;
  n_waiting_parents : gset nid;
  n_env : option env;
  n_state : nstate;
  always_build : bool;
  side_effect : bool;
  n_side_effects : list nid;
  linked : bool;
  n_builder : option builder;
  n_executor : option eid;
  memo_build_env : option env;
  memo_children : option (list nid);
  n_binfo : option (build_info ninfo);
  n_ninfo : option ninfo
}.

(** [Node.__init__] *)
Definition dnode_init : dnode :=
  DNode [] ∅ false [] ∅ [] ∅ (ul_init []) None ∅ ∅ None no_state false false []
    false None None None None None None.

(** [class Batch] *)
Record batch := Batch { b_targets : list nid; b_sources : list nid }.

(** A memoised list of sources: the list object of a batch, which
    [add_sources] extends in place, or a list of its own. *)
Inductive memo_list := BatchSources (i : nat) | OwnList (l : list nid).

(** [class Executor], the same after [nullify], and [class Null]. *)
Inductive ex_kind := ExReal | ExNullified | ExNull.

Record executor := Executor {
  ex_kind_of : ex_kind;
  action_list : list action;
  pre_actions : list action;
  post_actions : list action;
  ex_env : option env;
  overridelist : list (gmap string string);
  batches : list batch;
  ex_memo_env : option env;
  ex_memo_contents : option string;
  ex_memo_unignored : gmap (option nid * list nid) memo_list
}.

(** [Null.__init__] *)
Definition Null_init (targets : list nid) : executor :=
  Executor ExNull [] [] [] None [] [Batch targets []] None None ∅.

(** [Executor.__init__], the action being an [Action] object. *)
Definition Executor_init (act : action) (e : option env)
    (overrides : list (gmap string string)) (targets srcs : list nid) : executor :=
  Executor ExReal [act] [] [] e overrides
    (if decide (targets ≠ [] ∨ srcs ≠ []) then [Batch targets srcs] else [])
    None None ∅.

(** The objects: nodes, executors, and the next fresh identity. *)
Record dstore := DStore {
  d_nodes : gmap nid dnode;
  d_execs : gmap eid executor;
  d_next : nat
}.

Definition node_of (s : dstore) (n : nid) : dnode := default dnode_init (d_nodes s !! n).
Definition exec_of (s : dstore) (e : eid) : executor :=
  default (Null_init []) (d_execs s !! e).

Definition upd_node (n : nid) (f : dnode → dnode) (s : dstore) : dstore :=
  DStore (<[n := f (node_of s n)]> (d_nodes s)) (d_execs s) (d_next s).
Definition upd_exec (e : eid) (f : executor → executor) (s : dstore) : dstore :=
  DStore (d_nodes s) (<[e := f (exec_of s e)]> (d_execs s)) (d_next s).

(** Assignments to attributes. *)
Definition with_sources l ls (d : dnode) : dnode :=
  let '(DNode _ _ ss dp ds ig igs pq im ims wp en st ab se ses lk bd ex me mc bi ni) := d in
  DNode l ls ss dp ds ig igs pq im ims wp en st ab se ses lk bd ex me mc bi ni.
Definition with_specific b (d : dnode) : dnode :=
  let '(DNode so sos _ dp ds ig igs pq im ims wp en st ab se ses lk bd ex me mc bi ni) := d in
  DNode so sos b dp ds ig igs pq im ims wp en st ab se ses lk bd ex me mc bi ni.
Definition with_depends l ls (d : dnode) : dnode :=
  let '(DNode so sos ss _ _ ig igs pq im ims wp en st ab se ses lk bd ex me mc bi ni) := d in
  DNode so sos ss l ls ig igs pq im ims wp en st ab se ses lk bd ex me mc bi ni.
Definition with_ignore l ls (d : dnode) : dnode :=
  let '(DNode so sos ss dp ds _ _ pq im ims wp en st ab se ses lk bd ex me mc bi ni) := d in
  DNode so sos ss dp ds l ls pq im ims wp en st ab se ses lk bd ex me mc bi ni.
Definition with_prerequisites u (d : dnode) : dnode :=
  let '(DNode so sos ss dp ds ig igs _ im ims wp en st ab se ses lk bd ex me mc bi ni) := d in
  DNode so sos ss dp ds ig igs u im ims wp en st ab se ses lk bd ex me mc bi ni.
Definition with_implicit o ls (d : dnode) : dnode :=
  let '(DNode so sos ss dp ds ig igs pq _ _ wp en st ab se ses lk bd ex me mc bi ni) := d in
  DNode so sos ss dp ds ig igs pq o ls wp en st ab se ses lk bd ex me mc bi ni.
Definition with_builder b (d : dnode) : dnode :=
  let '(DNode so sos ss dp ds ig igs pq im ims wp en st ab se ses lk _ ex me mc bi ni) := d in
  DNode so sos ss dp ds ig igs pq im ims wp en st ab se ses lk b ex me mc bi ni.
Definition with_executor e (d : dnode) : dnode :=
  let '(DNode so sos ss dp ds ig igs pq im ims wp en st ab se ses lk bd _ me mc bi ni) := d in
  DNode so sos ss dp ds ig igs pq im ims wp en st ab se ses lk bd e me mc bi ni.
Definition with_memo me mc (d : dnode) : dnode :=
  let '(DNode so sos ss dp ds ig igs pq im ims wp en st ab se ses lk bd ex _ _ bi ni) := d in
  DNode so sos ss dp ds ig igs pq im ims wp en st ab se ses lk bd ex me mc bi ni.
Definition with_binfo o (d : dnode) : dnode :=
  let '(DNode so sos ss dp ds ig igs pq im ims wp en st ab se ses lk bd ex me mc _ ni) := d in
  DNode so sos ss dp ds ig igs pq im ims wp en st ab se ses lk bd ex me mc o ni.
Definition with_ninfo o (d : dnode) : dnode :=
  let '(DNode so sos ss dp ds ig igs pq im ims wp en st ab se ses lk bd ex me mc bi _) := d in
  DNode so sos ss dp ds ig igs pq im ims wp en st ab se ses lk bd ex me mc bi o.

Definition with_ex_memo me mc mu (x : executor) : executor :=
  Executor (ex_kind_of x) (action_list x) (pre_actions x) (post_actions x)
    (ex_env x) (overridelist x) (batches x) me mc mu.

(** ** Methods of [Node] *)

(** [Executor.cleanup]; that of [Null] does nothing. *)
Definition Executor_cleanup (e : eid) (s : dstore) : dstore :=
  match ex_kind_of (exec_of s e) with
  | ExNull => s
  | _ => upd_exec e (with_ex_memo None None ∅) s
  end.

Definition executor_cleanup (n : nid) (s : dstore) : dstore :=
  match n_executor (node_of s n) with
  | None => s
  | Some e => Executor_cleanup e s
  end.

Definition reset_executor (n : nid) : dstore → dstore := upd_node n (with_executor None).
Definition set_executor (n : nid) (e : eid) : dstore → dstore :=
  upd_node n (with_executor (Some e)).

Definition builder_set (n : nid) (b : option builder) : dstore → dstore :=
  upd_node n (λ d, with_executor None (with_builder b d)).

Definition has_builder (s : dstore) (n : nid) : bool :=
  match n_builder (node_of s n) with Some _ => true | None => false end.

Definition is_derived (s : dstore) (n : nid) : bool :=
  has_builder s n || side_effect (node_of s n).

Definition clear_memoized_values (n : nid) : dstore → dstore :=
  upd_node n (with_memo None None).

Definition children_reset (n : nid) (s : dstore) : dstore :=
  executor_cleanup n (clear_memoized_values n s).

(** [get_executor], with [create=1]: the executor, made if there is none. *)
Definition get_executor (n : nid) (s : dstore) : dstore * eid :=
  let d := node_of s n in
  match n_executor d with
  | Some e => (s, e)
  | None =>
      let x := match n_builder d with
               | None => Null_init [n]
               | Some b =>
                   Executor_init (bd_action b)
                     (match n_env d with Some v => Some v | None => bd_env b end)
                     [bd_overrides b] [n] (sources d)
               end in
      let e := d_next s in
      (upd_node n (with_executor (Some e))
         (DStore (d_nodes s) (<[e := x]> (d_execs s)) (S e)), e)
  end.

(** [_add_child]: the loop over [child]; the list, its set, and [added]. *)
Definition add_child (collection : list nid) (set : gset nid) (child : list nid)
    : list nid * gset nid * bool :=
  foldl (λ '(collection, set, added) c,
    if decide (c ∈ set) then (collection, set, added)
    else (collection ++ [c], {[c]} ∪ set, true)) (collection, set, false) child.

Definition reset_if (added : bool) (n : nid) (s : dstore) : dstore :=
  if added then children_reset n s else s.

Definition add_dependency (n : nid) (depend : list nid) (s : dstore) : dstore :=
  let d := node_of s n in
  let '(l, ls, added) := add_child (depends d) (depends_set d) depend in
  reset_if added n (upd_node n (with_depends l ls) s).

Definition add_ignore (n : nid) (depend : list nid) (s : dstore) : dstore :=
  let d := node_of s n in
  let '(l, ls, added) := add_child (ignore d) (ignore_set d) depend in
  reset_if added n (upd_node n (with_ignore l ls) s).

Definition add_source (n : nid) (source : list nid) (s : dstore) : dstore :=
  let d := node_of s n in
  if specific_sources d then s
  else
    let '(l, ls, added) := add_child (sources d) (sources_set d) source in
    reset_if added n (upd_node n (with_sources l ls) s).

Definition set_specific_source (n : nid) (source : list nid) (s : dstore) : dstore :=
  upd_node n (with_specific true) (add_source n source s).

Definition add_prerequisite (n : nid) (prerequisite : list nid) (s : dstore) : dstore :=
  children_reset n
    (upd_node n (λ d, with_prerequisites (ul_extend (prerequisites d) prerequisite) d) s).

Definition add_to_implicit (n : nid) (deps : list nid) (s : dstore) : dstore :=
  let s := match implicit (node_of s n) with
           | None => children_reset n (upd_node n (with_implicit (Some []) ∅) s)
           | Some _ => s
           end in
  let d := node_of s n in
  let '(l, ls, added) := add_child (default [] (implicit d)) (implicit_set d) deps in
  reset_if added n (upd_node n (with_implicit (Some l) ls) s).

(** The list [_children_get] computes. *)
Definition compute_children (d : dnode) : list nid :=
  let all := sources d ++ depends d ++ default [] (implicit d) in
  if decide (ignore_set d = ∅) then all
  else filter (λ i, i ∉ ignore_set d) all.

Definition children_get (n : nid) (s : dstore) : dstore * list nid :=
  let d := node_of s n in
  match memo_children d with
  | Some c => (s, c)
  | None =>
      let c := compute_children d in
      (upd_node n (with_memo (memo_build_env d) (Some c)) s, c)
  end.

Definition del_binfo (n : nid) : dstore → dstore := upd_node n (with_binfo None).

Definition new_ninfo (s : dstore) : dstore * ninfo :=
  (DStore (d_nodes s) (d_execs s) (S (d_next s)), d_next s).

Definition get_ninfo (n : nid) (s : dstore) : dstore * ninfo :=
  match n_ninfo (node_of s n) with
  | Some i => (s, i)
  | None => let '(s, i) := new_ninfo s in (upd_node n (with_ninfo (Some i)) s, i)
  end.

(** [clear]; the attributes [includes] and [_calculated_sig] it also resets are
    not part of the state. *)
Definition clear (n : nid) (s : dstore) : dstore :=
  let s := clear_memoized_values n (del_binfo n s) in
  let '(s, i) := new_ninfo s in
  executor_cleanup n (upd_node n (with_ninfo (Some i)) s).

(** [built]: the implicit dependencies of the waiting parents are forgotten.
    The order of the set does not matter: the updates are all alike. *)
Definition built (n : nid) (s : dstore) : dstore :=
  clear n (foldl (λ s p, upd_node p (λ d, with_implicit None (implicit_set d) d) s)
             s (elements (n_waiting_parents (node_of s n)))).
End data.
