(* ===== verification/Executor.v ===== *)
(** * Executors ([SCons/Executor.py])

    The batches of targets and sources of an action, the actions run for them,
    the memoised values, and the scan for implicit dependencies; and the
    breadth-first search of a scanner ([Node.get_implicit_deps]). *)

From S2P Require Import Prelude Errors NodeState PyStr Util NodeData.
Open Scope nat_scope.

(** What an action returns: a false status, another status, or an exception
    object that is a [BuildError]. *)
Inductive act_status :=
| ActOk
| ActStatus (z : Z)
| ActError (b : build_error).

(** What the executor and the node promise each other and use of the other
    components: environments, actions ([Action.py]), scanners
    ([Scanner/__init__.py]) and the methods that the classes of nodes
    ([Node/FS.py] and others) define. *)
Class DepWorld `{DepTypes} := {
  Override : env → gmap string string → env;
  DefaultEnvironment : env;
  NullEnvironment : env;
  act_call : action → eid → env → eff dstore exn act_status;
  act_contents : action → list nid → list nid → env → string;
  act_genstring : action → list nid → list nid → env → string;
  act_implicit_deps : action → list nid → list nid → env → list nid;
  scanner_select : scanner → nid → option scanner;
  scanner_path : scanner → env → option nid → list nid → list nid → path;
  recurse_nodes : scanner → list nid → list nid;
  env_scanner : nid → env → option scanner;
  get_found_includes : nid → env → scanner → path → list nid;
  rexists : nid → bool;
  node_str : nid → string;
  get_stored_info : nid → option (build_info pinfo);
  get_stored_implicit : nid → option (list nid);
  is_up_to_date : nid → eff dstore exn bool;
  changed_since_last_build : nid → nid → option pinfo → eff dstore exn bool;
  MD5signature : string → string
}.

(** Calls that search with a bound: [None] in place of an exception says that
    the bound was too small. *)
Abbreviation fexn := (option exn).

Definition fuelled {S A} (m : eff S exn A) : eff S fexn A := λ s,
  match m s with
  | (s, Ok a) => (s, Ok a)
  | (s, Raise e) => (s, Raise (Some e))
  end.

(** [string.join(l, sep)] of Python strings. *)
Fixpoint join_strings (sep : string) (l : list string) : string :=
  match l with
  | [] => ""
  | [w] => w
  | w :: ws => w +:+ (sep +:+ join_strings sep ws)
  end.

Definition IndexError : exn := ExOther "IndexError" "list index out of range".
Definition AttributeError (name : string) : exn := ExOther "AttributeError" name.
Definition AssertionError : exn := ExOther "AssertionError" "".

Section executor.
Context `{DepWorld}.

Definition get_action_list (x : executor) : list action :=
  match ex_kind_of x with
  | ExNull => []
  | _ => pre_actions x ++ action_list x ++ post_actions x
  end.

Definition get_all_targets (x : executor) : list nid :=
  match ex_kind_of x with
  | ExNull => match batches x with b :: _ => b_targets b | [] => [] end
  | _ => concat (map b_targets (batches x))
  end.

(** [Null.get_all_sources] are the sources of its target. *)
Definition get_all_sources (s : dstore) (x : executor) : list nid :=
  match ex_kind_of x with
  | ExNull => match get_all_targets x with t :: _ => sources (node_of s t) | [] => [] end
  | _ => concat (map b_sources (batches x))
  end.

(** A later dictionary overrides an earlier one. *)
Definition overrides_of (l : list (gmap string string)) : gmap string string :=
  foldl (λ overrides odict, odict ∪ overrides) ∅ l.

Definition get_build_env (e : eid) (s : dstore) : dstore * env :=
  let x := exec_of s e in
  match ex_kind_of x, ex_memo_env x with
  | ExNull, _ => (s, NullEnvironment)
  | _, Some v => (s, v)
  | _, None =>
      let v := Override (default DefaultEnvironment (ex_env x))
                 (overrides_of (overridelist x)) in
      (upd_exec e (λ x, with_ex_memo (Some v) (ex_memo_contents x) (ex_memo_unignored x) x) s, v)
  end.

(** [scanner.path(env, cwd, targets, sources)], [cwd] being that of the first
    target if there is one. *)
Definition get_build_scanner_path (e : eid) (sc : scanner) (s : dstore) : dstore * path :=
  let '(s, v) := get_build_env e s in
  let x := exec_of s e in
  (s, scanner_path sc v (b ← head (batches x); head (b_targets b))
        (get_all_targets x) (get_all_sources s x)).

(** [Node.get_build_env] *)
Definition Node_get_build_env (n : nid) (s : dstore) : dstore * env :=
  match memo_build_env (node_of s n) with
  | Some v => (s, v)
  | None =>
      let '(s, e) := get_executor n s in
      let '(s, v) := get_build_env e s in
      (upd_node n (λ d, with_memo (Some v) (memo_children d) d) s, v)
  end.

(** ** Running the actions *)

(** The loop of [do_execute]; [status] is that of the last action. *)
Fixpoint run_actions (e : eid) (v : env) (l : list action) : eff dstore exn act_status :=
  match l with
  | [] => eret ActOk
  | act :: l =>
      (let! status := act_call act e v in
       match status with
       | ActError b =>
           eraise (ExBuildError (BuildError (be_node b) (be_errstr b) (be_status b)
             (be_exitstatus b) (be_filename b) (Some e) (be_action b) (be_command b)
             (be_exc_info b)))
       | ActStatus z =>
           let! bs := eget (λ s, batches (exec_of s e)) in
           match bs with
           | [] => eraise IndexError
           | b :: _ =>
               eraise (ExBuildError (BuildError (Some (ANodes (b_targets b)))
                 ("Error " +:+ pretty z) (StatusInt 2) (StatusInt 2) None
                 (Some e) (Some act) None None))
           end
       | ActOk => run_actions e v l
       end)%eff
  end.

Definition do_execute (e : eid) : eff dstore exn act_status := λ s,
  let '(s, v) := get_build_env e s in
  run_actions e v (get_action_list (exec_of s e)) s.

(** [Executor.__call__], also of [Null] and after [nullify]. *)
Definition Executor_call (e : eid) : eff dstore exn act_status := λ s,
  match ex_kind_of (exec_of s e) with
  | ExReal => do_execute e s
  | _ => (s, Ok ActOk)
  end.

(** [Node.build]: a build error is given the node. *)
Definition Node_build (n : nid) : eff dstore exn unit := λ s,
  let '(s, e) := get_executor n s in
  match Executor_call e s with
  | (s, Ok _) => (s, Ok tt)
  | (s, Raise (ExBuildError b)) =>
      (s, Raise (ExBuildError (BuildError (Some (ANode n)) (be_errstr b) (be_status b)
        (be_exitstatus b) (be_filename b) (be_executor b) (be_action b) (be_command b)
        (be_exc_info b))))
  | (s, Raise e) => (s, Raise e)
  end.

(** ** Batches and actions *)

Definition with_batches (bs : list batch) (x : executor) : executor :=
  Executor (ex_kind_of x) (action_list x) (pre_actions x) (post_actions x) (ex_env x)
    (overridelist x) bs (ex_memo_env x) (ex_memo_contents x) (ex_memo_unignored x).

(** The new sources are those that the batch does not have yet. *)
Definition add_sources (e : eid) (srcs : list nid) : eff dstore exn unit := λ s,
  match batches (exec_of s e) with
  | [b] =>
      (upd_exec e (with_batches
         [Batch (b_targets b) (b_sources b ++ filter (λ x, x ∉ b_sources b) srcs)]) s, Ok tt)
  | _ => (s, Raise AssertionError)
  end.

(** [Null] has neither [add_sources] nor [add_batch]: the builders ask for them
    on executors they made. *)
Definition add_batch (e : eid) (targets srcs : list nid) : dstore → dstore :=
  upd_exec e (λ x, with_batches (batches x ++ [Batch targets srcs]) x).

(** [Null._morph] *)
Definition morph (x : executor) : executor :=
  match ex_kind_of x with
  | ExNull => Executor ExReal [] [] [] None [∅] (batches x) None None ∅
  | _ => x
  end.

Definition with_actions (pre main post : list action) (x : executor) : executor :=
  Executor (ex_kind_of x) main pre post (ex_env x) (overridelist x) (batches x)
    (ex_memo_env x) (ex_memo_contents x) (ex_memo_unignored x).

Definition add_pre_action (e : eid) (a : action) : dstore → dstore :=
  upd_exec e (λ x, let x := morph x in
    with_actions (pre_actions x ++ [a]) (action_list x) (post_actions x) x).
Definition add_post_action (e : eid) (a : action) : dstore → dstore :=
  upd_exec e (λ x, let x := morph x in
    with_actions (pre_actions x) (action_list x) (post_actions x ++ [a]) x).
Definition set_action_list (e : eid) (l : list action) : dstore → dstore :=
  upd_exec e (λ x, let x := morph x in
    with_actions (pre_actions x) l (post_actions x) x).

Definition nullify (e : eid) (s : dstore) : dstore :=
  upd_exec e (λ x, Executor ExNullified (action_list x) (pre_actions x) (post_actions x)
    (ex_env x) (overridelist x) (batches x) (ex_memo_env x) (ex_memo_contents x)
    (ex_memo_unignored x)) (Executor_cleanup e s).

Definition missing (s : dstore) (n : nid) : bool :=
  negb (is_derived s n) && negb (linked (node_of s n)) && negb (rexists n).

(** [Executor.prepare] *)
Definition Executor_prepare (e : eid) : eff dstore exn unit := λ s,
  let x := exec_of s e in
  match ex_kind_of x with
  | ExNull => (s, Ok tt)
  | _ =>
      match filter (λ n, missing s n = true) (get_all_sources s x), batches x with
      | [], _ => (s, Ok tt)
      | n :: _, Batch (t :: _) _ :: _ =>
          (s, Raise (ExStopError ("Source `" +:+ (node_str n +:+
             ("' not found, needed by target `" +:+ (node_str t +:+ "'."))))))
      | _, _ => (s, Raise IndexError)
      end
  end.

(** ** Memoised values *)

(** [__str__] *)
Definition Executor_str (e : eid) (s : dstore) : dstore * string :=
  let x := exec_of s e in
  match ex_kind_of x with
  | ExReal =>
      let '(s, v) := get_build_env e s in
      (s, join_strings (String "010" "") (map (λ a,
            act_genstring a (get_all_targets x) (get_all_sources s x) v) (get_action_list x)))
  | _ => (s, "")
  end.

Definition get_contents (e : eid) (s : dstore) : dstore * string :=
  let x := exec_of s e in
  match ex_kind_of x, ex_memo_contents x with
  | ExNull, _ => (s, "")
  | _, Some c => (s, c)
  | _, None =>
      let '(s, v) := get_build_env e s in
      let c := join_strings "" (map (λ a,
                 act_contents a (get_all_targets x) (get_all_sources s x) v)
                 (get_action_list x)) in
      (upd_exec e (λ x, with_ex_memo (ex_memo_env x) (Some c) (ex_memo_unignored x) x) s, c)
  end.

(** The sources of the first batch of [node], or all of them. *)
Definition source_list (s : dstore) (x : executor) (node : option nid) : memo_list :=
  match node with
  | Some n =>
      match list_find (λ b, n ∈ b_targets b) (batches x) with
      | Some (i, _) => BatchSources i
      | None => OwnList []
      end
  | None => OwnList (get_all_sources s x)
  end.

Definition read_list (x : executor) (m : memo_list) : list nid :=
  match m with
  | BatchSources i => default [] (b_sources <$> batches x !! i)
  | OwnList l => l
  end.

Definition get_unignored_sources (e : eid) (node : option nid) (ignored : list nid)
    (s : dstore) : dstore * list nid :=
  let x := exec_of s e in
  match ex_kind_of x, ex_memo_unignored x !! (node, ignored) with
  | ExNull, _ => (s, [])
  | _, Some m => (s, read_list x m)
  | _, None =>
      let m := source_list s x node in
      let m := match ignored with
               | [] => m
               | _ => OwnList (filter (λ i, i ∉ ignored) (read_list x m))
               end in
      (upd_exec e (λ x, with_ex_memo (ex_memo_env x) (ex_memo_contents x)
         (<[(node, ignored) := m]> (ex_memo_unignored x)) x) s, read_list x m)
  end.

Definition get_implicit_deps (e : eid) (s : dstore) : dstore * list nid :=
  let '(s, v) := get_build_env e s in
  let x := exec_of s e in
  (s, concat (map (λ a, act_implicit_deps a (get_all_targets x) (get_all_sources s x) v)
        (get_action_list x))).

(** ** Scanning *)

(** The loop of [Node.get_implicit_deps], with the state of its three
    variables; [found] is [get_found_includes] of one scanner. *)
Fixpoint implicit_deps_loop (fuel : nat) (found : nid → list nid)
    (recurse : list nid → list nid) (nodes : list nid) (seen : gset nid)
    (deps : list nid) : option (list nid) :=
  match fuel with
  | O => None
  | S fuel =>
      match nodes with
      | [] => Some deps
      | n :: nodes =>
          let d := filter (λ x, x ∉ seen) (found n) in
          implicit_deps_loop fuel found recurse (nodes ++ recurse d)
            (seen ∪ list_to_set d) (deps ++ d)
      end
  end.

Definition Node_get_implicit_deps (fuel : nat) (n : nid) (v : env)
    (sc : option scanner) (p : path) : option (list nid) :=
  match sc with
  | None => Some []
  | Some sc =>
      implicit_deps_loop fuel (λ m, get_found_includes m v sc p) (recurse_nodes sc)
        [n] {[n]} []
  end.

(** The scanner of one node: that selected from the scanner given, or from the
    one the environment has for the node. *)
Definition select_for (sc : option scanner) (v : env) (n : nid) : option scanner :=
  match sc with
  | Some sc => scanner_select sc n
  | None => sc ← env_scanner n v; scanner_select sc n
  end.

(** The loop of [scan] over the nodes. *)
Fixpoint scan_nodes (fuel : nat) (e : eid) (sc : option scanner) (v : env)
    (l : list nid) (deps : list nid) : eff dstore fexn (list nid) :=
  match l with
  | [] => eret deps
  | n :: l =>
      match select_for sc v n with
      | None => scan_nodes fuel e sc v l deps
      | Some sc' => λ s,
          let '(s, p) := get_build_scanner_path e sc' s in
          match Node_get_implicit_deps fuel n v (Some sc') p with
          | None => (s, Raise None)
          | Some d => scan_nodes fuel e sc v l (deps ++ d) s
          end
      end
  end.

Definition Executor_scan (fuel : nat) (e : eid) (sc : option scanner)
    (node_list : list nid) : eff dstore fexn unit := λ s,
  let '(s, v) := get_build_env e s in
  match scan_nodes fuel e sc v node_list [] s with
  | (s, Raise r) => (s, Raise r)
  | (s, Ok deps) =>
      let '(s, more) := get_implicit_deps e s in
      (foldl (λ s tgt, add_to_implicit tgt (deps ++ more) s) s
         (get_all_targets (exec_of s e)), Ok tt)
  end.

Definition scan_targets (fuel : nat) (e : eid) (sc : option scanner)
    : eff dstore fexn unit := λ s,
  match ex_kind_of (exec_of s e) with
  | ExNull => (s, Raise (Some (AttributeError "scan_targets")))
  | _ => Executor_scan fuel e sc (get_all_targets (exec_of s e)) s
  end.

Definition scan_sources (fuel : nat) (e : eid) (sc : option scanner)
    : eff dstore fexn unit := λ s,
  let x := exec_of s e in
  match ex_kind_of x, batches x with
  | ExNull, _ => (s, Raise (Some (AttributeError "scan_sources")))
  | _, [] => (s, Raise (Some IndexError))
  | _, b :: _ =>
      if decide (b_sources b = []) then (s, Ok tt)
      else Executor_scan fuel e sc (get_all_sources s x) s
  end.
End executor.
