(* ===== verification/Node.v ===== *)
(** * Children and signatures of nodes ([SCons/Node/__init__.py])

    [Node.scan], [children], [all_children], [get_binfo], [prepare], [changed]
    and [children_are_up_to_date]; [Executor.get_all_children] and
    [get_all_prerequisites]. *)

From S2P Require Import Prelude Errors NodeState PyStr Util NodeData Executor.
Open Scope nat_scope.

(** [a, b = f(...)] of a call that changes the store and cannot raise. *)
Definition call {S E A} (f : S → S * A) : eff S E A := λ s, let '(s, a) := f s in (s, Ok a).

Section node.
Context `{DepWorld}.

(** The module's options. *)
Variables implicit_cache implicit_deps_unchanged implicit_deps_changed : bool.

(** ** Scanning *)

(** The [--implicit-cache] part of [scan]; true when [scan] returns there. *)
Definition scan_cached (n : nid) (e : eid) : eff dstore fexn bool :=
  (if implicit_cache && negb implicit_deps_changed then
     match get_stored_implicit n with
     | None => eret false
     | Some stored =>
         emod (λ s, foldl (λ s tgt, add_to_implicit tgt stored s) s
                      (get_all_targets (exec_of s e))) ;;;
         let! current :=
           if implicit_deps_unchanged then eret true else fuelled (is_up_to_date n) in
         if current : bool then eret true
         else
           emod (upd_node n (with_implicit (Some []) ∅)) ;;;
           eret false
     end
   else eret false)%eff.

Definition Node_scan (fuel : nat) (n : nid) : eff dstore fexn unit := λ s,
  match implicit (node_of s n) with
  | Some _ => (s, Ok tt)
  | None =>
      let s := children_reset n (upd_node n (with_implicit (Some []) ∅) s) in
      match n_builder (node_of s n) with
      | None => (s, Ok tt)
      | Some b =>
          (let! _ := call (Node_get_build_env n) in
           let! e := call (get_executor n) in
           let! done := scan_cached n e in
           if done : bool then eret tt
           else
             scan_sources fuel e (bd_source_scanner b) ;;;
             match bd_target_scanner b with
             | Some sc => scan_targets fuel e (Some sc)
             | None => eret tt
             end)%eff s
      end
  end.

Definition children (fuel : nat) (n : nid) : eff dstore fexn (list nid) :=
  (Node_scan fuel n ;;; call (children_get n))%eff.

Definition all_children (fuel : nat) (n : nid) : eff dstore fexn (list nid) :=
  (Node_scan fuel n ;;;
   eget (λ s, let d := node_of s n in
              sources d ++ depends d ++ default [] (implicit d)))%eff.

(** [Executor.get_all_children]: the list is unique when it is read. *)
Definition get_all_children (fuel : nat) (e : eid) : eff dstore fexn (UniqueList nid) := λ s,
  let x := exec_of s e in
  match ex_kind_of x with
  | ExNull => (s, Ok (UL (get_all_sources s x) true))
  | _ =>
      (fix go (l : list nid) (result : UniqueList nid) : eff dstore fexn (UniqueList nid) :=
         match l with
         | [] => eret result
         | target :: l =>
             (let! c := children fuel target in go l (ul_extend result c))%eff
         end) (get_all_targets x) (ul_init []) s
  end.

Definition get_all_prerequisites (e : eid) (s : dstore) : dstore * UniqueList nid :=
  let x := exec_of s e in
  match ex_kind_of x with
  | ExNull => (s, ul_init [])
  | _ =>
      foldl (λ '(s, result) target,
        let '(u, l) := ul_list (prerequisites (node_of s target)) in
        (upd_node target (with_prerequisites u) s, ul_extend result l))
        (s, ul_init []) (get_all_targets x)
  end.

(** ** Signatures *)

(** [[i.get_ninfo() for i in l]] *)
Fixpoint get_ninfos (l : list nid) (s : dstore) : dstore * list ninfo :=
  match l with
  | [] => (s, [])
  | i :: l =>
      let '(s, x) := get_ninfo i s in
      let '(s, xs) := get_ninfos l s in
      (s, x :: xs)
  end.

Definition unignored (d : dnode) (l : list nid) : list nid :=
  filter (λ i, i ∉ ignore_set d) l.

(** The sources recorded: those of the node itself, or those its executor has
    for it; each once. *)
Definition binfo_sources (n : nid) (e : eid) (s : dstore) : dstore * list nid :=
  let d := node_of s n in
  if specific_sources d then (s, uniquer_hashables (unignored d (sources d)))
  else let '(s, l) := get_unignored_sources e (Some n) (ignore d) s in
       (s, uniquer_hashables l).

Definition get_binfo (n : nid) (s : dstore) : dstore * build_info ninfo :=
  match n_binfo (node_of s n) with
  | Some b => (s, b)
  | None =>
      let '(s, e) := get_executor n s in
      let '(s, str, sig) :=
        if has_builder s n then
          let '(s, str) := Executor_str e s in
          let '(s, c) := get_contents e s in
          (s, Some str, Some (MD5signature c))
        else (s, None, None) in
      let '(s, srcs) := binfo_sources n e s in
      let '(s, srcsigs) := get_ninfos srcs s in
      let d := node_of s n in
      let '(s, depsigs) := get_ninfos (unignored d (depends d)) s in
      let '(s, impsigs) := get_ninfos (unignored d (default [] (implicit d))) s in
      let b := BuildInfo srcs srcsigs (depends d) depsigs
                 (default [] (implicit d)) impsigs str sig in
      (upd_node n (with_binfo (Some b)) s, b)
  end.

Definition prepare_error (kind : string) (d n : nid) : exn :=
  ExStopError (kind +:+ (" dependency `" +:+ (node_str d +:+
    ("' not found, needed by target `" +:+ (node_str n +:+ "'."))))).

(** [Node.prepare] *)
Definition Node_prepare (n : nid) : eff dstore exn unit := λ s,
  let d := node_of s n in
  match filter (λ i, missing s i = true) (depends d),
        filter (λ i, missing s i = true) (default [] (implicit d)) with
  | i :: _, _ => (s, Raise (prepare_error "Explicit" i n))
  | [], i :: _ => (s, Raise (prepare_error "Implicit" i n))
  | [], [] => ((get_binfo n s).1, Ok tt)
  end.

(** The loop of [changed] over [izip(children, then)]. *)
Fixpoint any_changed (n : nid) (l : list (nid * option pinfo)) (result : bool)
    : eff dstore fexn bool :=
  match l with
  | [] => eret result
  | (child, prev_ni) :: l =>
      (let! c := fuelled (changed_since_last_build child n prev_ni) in
       any_changed n l (if c : bool then true else result))%eff
  end.

Definition changed (fuel : nat) (n : nid) (node : option nid) : eff dstore fexn bool :=
  match get_stored_info (default n node) with
  | None => eraise (Some (AttributeError "binfo"))
  | Some bi =>
      let prev := bsourcesigs bi ++ bdependsigs bi ++ bimplicitsigs bi in
      (let! cs := children fuel n in
       let prev' := map Some prev ++ replicate (length cs - length prev) None in
       let! result := any_changed n (zip cs prev')
                        (bool_decide (length cs ≠ length prev)) in
       let! e := call (get_executor n) in
       let! contents := call (get_contents e) in
       let! b := eget (λ s, has_builder s n) in
       eret (if b : bool
             then if decide (bactsig bi ≠ Some (MD5signature contents)) then true
                  else result
             else result))%eff
  end.

(** The highest state of the kids, in the loop of [children_are_up_to_date]. *)
Definition max_state (l : list nstate) : Z :=
  foldl (λ state k, let s := nstate_val k in
    if decide (s ≠ 0 ∧ (state = 0 ∨ state < s))%Z then s else state) 0%Z l.

Definition children_are_up_to_date (n : nid) (s : dstore) : dstore * bool :=
  let '(s, _) := get_binfo n s in
  if always_build (node_of s n) then (s, false)
  else
    let '(s, kids) := children_get n s in
    let state := max_state (map (λ k, n_state (node_of s k)) kids) in
    (s, bool_decide (state = 0 ∨ state = nstate_val up_to_date)%Z).
End node.
