(* ===== verification/NodeFacts.v ===== *)
(** * Children and signatures of nodes: theorems *)

From S2P Require Import Prelude Errors NodeState PyStr Util NodeData Executor Node.
Open Scope nat_scope.

(** ** The search for implicit dependencies *)

Section implicit_deps.
Variable found : nid → list nid.
Context (P : nid → Prop) `{!∀ x, Decision (P x)}.

(** [y] is scanned because [x] is: it is an include of [x] that is recursed. *)
Definition scanned (x y : nid) : Prop := y ∈ found x ∧ P y.

(** The invariant of the loop started at [self]. *)
Record search_inv (self : nid) (nodes : list nid) (seen : gset nid)
    (deps : list nid) : Prop := {
  si_seen : ∀ x, x ∈ seen ↔ x = self ∨ x ∈ deps;
  si_deps : ∀ x, x ∈ deps → x ≠ self ∧ ∃ y, rtc scanned self y ∧ x ∈ found y;
  si_nodes : ∀ y, y ∈ nodes → rtc scanned self y;
  si_done : ∀ y, (y = self ∨ (y ∈ deps ∧ P y)) → y ∉ nodes →
              ∀ x, x ∈ found y → x ∈ seen
}.

Lemma search_inv_init self : search_inv self [self] {[self]} [].
Proof. split; set_solver. Qed.

Lemma search_inv_step self n nodes seen deps :
  search_inv self (n :: nodes) seen deps →
  let d := filter (λ x, x ∉ seen) (found n) in
  search_inv self (nodes ++ filter P d) (seen ∪ list_to_set d) (deps ++ d).
Proof.
  intros [Hs Hd Hn Hdone] d.
  assert (∀ x, x ∈ d ↔ (x ∉ seen) ∧ x ∈ found n) as Hin by apply list_elem_of_filter.
  assert (rtc scanned self n) as Hreach by (apply Hn; left). split.
  - intros x. rewrite elem_of_union, elem_of_list_to_set, elem_of_app, Hs. tauto.
  - intros x [Hx|Hx]%elem_of_app; [by apply Hd|]. apply Hin in Hx as [Hx1 Hx2].
    split; [|eauto]. intros ->. apply Hx1, Hs. by left.
  - intros y [Hy|Hy]%elem_of_app; [apply Hn; by right|].
    apply list_elem_of_filter in Hy as [HP [_ Hy]%Hin].
    eapply rtc_r; [exact Hreach|by split].
  - intros y Hy Hny x Hx. rewrite elem_of_union, elem_of_list_to_set, Hin.
    destruct (decide (x ∈ seen)) as [|Hxs]; [by left|]. right. split; [done|].
    destruct (decide (y = n)) as [->|Hne]; [done|]. exfalso. apply Hxs.
    apply Hdone with y; [|set_solver|done].
    destruct Hy as [->|[[Hy|Hy]%elem_of_app HP]]; [by left|by right|].
    exfalso. apply Hny, elem_of_app. right. by apply list_elem_of_filter.
Qed.

Lemma search_spec self fuel nodes seen deps r :
  search_inv self nodes seen deps →
  implicit_deps_loop fuel found (filter P) nodes seen deps = Some r →
  ∀ x, x ∈ r ↔ x ≠ self ∧ ∃ y, rtc scanned self y ∧ x ∈ found y.
Proof.
  revert nodes seen deps. induction fuel as [|fuel IH]; intros nodes seen deps HI; [done|].
  simpl. destruct nodes as [|n nodes]; [|by apply IH, search_inv_step].
  intros [= <-]. destruct HI as [Hs Hd _ Hdone]. intros x. split; [by apply Hd|].
  intros (Hne & y & Hy & Hx).
  assert (y = self ∨ (y ∈ deps ∧ P y)) as Hy'.
  { clear x Hne Hx. refine (rtc_ind_r (λ y, y = self ∨ (y ∈ deps ∧ P y)) self _ _ y Hy); [by left|].
    intros a b _ [Hab HP] IHa.
    assert (b ∈ seen) as Hb by (apply Hdone with a; [done|set_solver|done]).
    apply Hs in Hb as [->|Hb]; [by left|by right]. }
  assert (x ∈ seen) as Hxs by (apply Hdone with y; [done|set_solver|done]).
  by apply Hs in Hxs as [->|Hxs].
Qed.

Lemma search_total (U : gset nid) K fuel nodes seen deps :
  (∀ y x, y ∈ U → x ∈ found y → x ∈ U) →
  (∀ y, y ∈ U → length (found y) ≤ K) →
  (∀ y, y ∈ nodes → y ∈ U) →
  size (U ∖ seen) * K + length nodes < fuel →
  ∃ r, implicit_deps_loop fuel found (filter P) nodes seen deps = Some r.
Proof.
  intros HU HK. revert nodes seen deps.
  induction fuel as [|fuel IH]; intros nodes seen deps Hn Hf; [lia|]. simpl.
  destruct nodes as [|n nodes]; [eauto|].
  set (d := filter (λ x, x ∉ seen) (found n)).
  assert (∀ x, x ∈ d ↔ (x ∉ seen) ∧ x ∈ found n) as Hin by apply list_elem_of_filter.
  assert (n ∈ U) as HnU by (apply Hn; left).
  assert (length (filter P d) ≤ K) as Hlen.
  { etrans; [apply length_filter|]. etrans; [apply length_filter|]. by apply HK. }
  apply IH.
  - intros y [Hy|Hy]%elem_of_app; [apply Hn; by right|].
    apply list_elem_of_filter in Hy as [_ [_ Hy]%Hin]. eauto.
  - simpl in Hf. rewrite length_app. destruct d as [|x d'] eqn:Ed.
    + rewrite filter_nil. cbn [list_to_set length].
      rewrite union_empty_r_L. lia.
    + assert (size (U ∖ (seen ∪ list_to_set (x :: d'))) < size (U ∖ seen)).
      { apply subset_size. assert (x ∈ x :: d') as [Hx1 Hx2]%Hin by left.
        assert (x ∈ U) by eauto. set_solver. }
      nia.
Qed.
End implicit_deps.

(** C10: the search of a scanner ends on every finite set of nodes closed under
    inclusion, with the bound stated, and returns exactly the nodes other than
    the first that are included by a node reached through recursed includes. *)
Theorem get_implicit_deps_reachable `{DepWorld} n v sc p
    (P : nid → Prop) `{!∀ x, Decision (P x)} (U : gset nid) K fuel :
  (∀ l, recurse_nodes sc l = filter P l) →
  n ∈ U →
  (∀ y x, y ∈ U → x ∈ get_found_includes y v sc p → x ∈ U) →
  (∀ y, y ∈ U → length (get_found_includes y v sc p) ≤ K) →
  size U * K + 1 < fuel →
  ∃ deps, Node_get_implicit_deps fuel n v (Some sc) p = Some deps ∧
    ∀ x, x ∈ deps ↔ x ≠ n ∧ ∃ y,
      rtc (λ a b, b ∈ get_found_includes a v sc p ∧ P b) n y ∧
      x ∈ get_found_includes y v sc p.
Proof.
  intros Hrec Hn HU HK Hf. simpl.
  assert (∀ fuel nodes seen deps,
    implicit_deps_loop fuel (λ m, get_found_includes m v sc p) (recurse_nodes sc) nodes seen deps =
    implicit_deps_loop fuel (λ m, get_found_includes m v sc p) (filter P) nodes seen deps) as E.
  { induction fuel0 as [|f IH]; intros [|? ?] ? ?; simpl; [done..|]. by rewrite Hrec, IH. }
  rewrite E.
  destruct (search_total (λ m, get_found_includes m v sc p) P U K fuel [n] {[n]} [])
    as [deps Hdeps]; [done|done|by intros y ->%list_elem_of_singleton| |].
  { assert (size (U ∖ {[n]}) ≤ size U) by (apply subseteq_size; set_solver). simpl. nia. }
  exists deps. split; [done|].
  eapply search_spec; [apply search_inv_init|exact Hdeps].
Qed.

(** ** The store *)

Section store.
Context `{DepTypes}.
Implicit Types (s : dstore) (d : dnode).

Lemma node_of_upd n m f s :
  node_of (upd_node n f s) m = if decide (n = m) then f (node_of s n) else node_of s m.
Proof.
  unfold node_of, upd_node. simpl. case_decide; subst.
  - by rewrite lookup_insert_eq.
  - by rewrite lookup_insert_ne.
Qed.

Lemma node_of_upd_eq n f s : node_of (upd_node n f s) n = f (node_of s n).
Proof. rewrite node_of_upd. by rewrite decide_True. Qed.

Lemma node_of_upd_ne n m f s : m ≠ n → node_of (upd_node n f s) m = node_of s m.
Proof. intros. rewrite node_of_upd. by rewrite decide_False. Qed.

Lemma node_of_upd_exec e f s m : node_of (upd_exec e f s) m = node_of s m.
Proof. done. Qed.

Lemma node_of_cleanup n s m : node_of (executor_cleanup n s) m = node_of s m.
Proof.
  unfold executor_cleanup, Executor_cleanup. destruct (n_executor _); [|done].
  by destruct (ex_kind_of _).
Qed.

Lemma node_of_children_reset n s m :
  node_of (children_reset n s) m =
  if decide (n = m) then with_memo None None (node_of s n) else node_of s m.
Proof. unfold children_reset. by rewrite node_of_cleanup, <- node_of_upd. Qed.

(** The lists of a node and the sets beside them agree, and a memoised list of
    children of a scanned node is the list of its children. *)
Record node_ok (d : dnode) : Prop := {
  ok_sources : NoDup (sources d) ∧ sources_set d = list_to_set (sources d);
  ok_depends : NoDup (depends d) ∧ depends_set d = list_to_set (depends d);
  ok_ignore : NoDup (ignore d) ∧ ignore_set d = list_to_set (ignore d);
  ok_implicit : ∀ l, implicit d = Some l → NoDup l ∧ implicit_set d = list_to_set l;
  ok_memo : ∀ c, memo_children d = Some c → is_Some (implicit d) → c = compute_children d
}.

Definition store_ok s : Prop := ∀ n, node_ok (node_of s n).

Lemma store_ok_upd n f s :
  store_ok s → (node_ok (node_of s n) → node_ok (f (node_of s n))) →
  store_ok (upd_node n f s).
Proof. intros Hs Hf m. rewrite node_of_upd. case_decide; auto. Qed.

Lemma store_ok_children_reset n s : store_ok s → store_ok (children_reset n s).
Proof.
  intros Hs m. rewrite node_of_children_reset. case_decide; [|done].
  specialize (Hs n). destruct (node_of s n), Hs; simpl in *. by split.
Qed.

Lemma store_ok_cleanup n s : store_ok s → store_ok (executor_cleanup n s).
Proof. intros Hs m. rewrite node_of_cleanup. apply Hs. Qed.

(** [_add_child] appends the new children, each once. *)
Lemma add_child_spec collection set child :
  NoDup collection → set = list_to_set collection →
  let '(l, ls, added) := add_child collection set child in
  NoDup l ∧ ls = list_to_set l ∧ (∀ x, x ∈ l ↔ x ∈ collection ∨ x ∈ child) ∧
  collection `prefix_of` l ∧ (added = false → l = collection ∧ ls = set).
Proof.
  intros Hnd Hset. induction child as [|c child IH] using rev_ind.
  { simpl. split_and!; try done. set_solver. }
  unfold add_child in *. rewrite foldl_snoc.
  destruct (foldl _ _ child) as [[l ls] added]. destruct IH as (H1 & -> & H3 & H4 & H5).
  case_decide as Hc; rewrite elem_of_list_to_set in Hc.
  - split_and!; auto. set_solver.
  - split_and!; [| |set_solver|by apply prefix_app_r|done].
    + apply NoDup_app. split_and!; [done|set_solver|apply NoDup_singleton].
    + rewrite list_to_set_app_L. set_solver.
Qed.

(** The two ways a list of children is updated: with a reset of the memoised
    list, and without a change. *)
Lemma store_ok_reset_if added n f s :
  store_ok s →
  (node_ok (node_of s n) → node_ok (with_memo None None (f (node_of s n)))) →
  (added = false → f (node_of s n) = node_of s n) →
  store_ok (reset_if added n (upd_node n f s)).
Proof.
  intros Hs Hok Hsame m. destruct added; simpl.
  - rewrite node_of_children_reset, node_of_upd_eq, node_of_upd.
    destruct (decide (n = m)) as [->|]; auto.
  - rewrite node_of_upd, Hsame by done. destruct (decide (n = m)) as [->|]; auto.
Qed.

(** The methods that add children: what [add_child_spec] says of the list, and
    the two cases of [store_ok_reset_if]. *)
#[local] Ltac add_child_ok :=
  match goal with
  | |- context [add_child ?l ?ls ?new] =>
      let Ha := fresh in
      pose proof (add_child_spec l ls new) as Ha;
      destruct (add_child l ls new) as [[? ?] added];
      destruct Ha as (? & ? & _ & _ & Hsame); [assumption..|];
      apply store_ok_reset_if; [assumption| |intros E; destruct (Hsame E) as [-> ->]]
  end.

Lemma store_ok_add_dependency n l s : store_ok s → store_ok (add_dependency n l s).
Proof.
  intros Hs. destruct (Hs n) as [_ [??] _ _ _]. unfold add_dependency. add_child_ok.
  - destruct (node_of s n). intros []; by split.
  - by destruct (node_of s n).
Qed.

Lemma store_ok_add_ignore n l s : store_ok s → store_ok (add_ignore n l s).
Proof.
  intros Hs. destruct (Hs n) as [_ _ [??] _ _]. unfold add_ignore. add_child_ok.
  - destruct (node_of s n). intros []; by split.
  - by destruct (node_of s n).
Qed.

Lemma store_ok_add_source n l s : store_ok s → store_ok (add_source n l s).
Proof.
  intros Hs. destruct (Hs n) as [[??] _ _ _ _]. unfold add_source.
  destruct (specific_sources _); [done|]. add_child_ok.
  - destruct (node_of s n). intros []; by split.
  - by destruct (node_of s n).
Qed.

Lemma store_ok_scan_start n s :
  store_ok s → store_ok (children_reset n (upd_node n (with_implicit (Some []) ∅) s)).
Proof.
  intros Hs m. rewrite node_of_children_reset, node_of_upd_eq, node_of_upd.
  destruct (decide (n = m)) as [->|]; [|done]. specialize (Hs m).
  destruct (node_of s m), Hs; simpl in *. split; simpl; try done.
  intros l [= <-]. by split; [apply NoDup_nil_2|].
Qed.

Lemma store_ok_add_to_implicit n l s : store_ok s → store_ok (add_to_implicit n l s).
Proof.
  intros Hs. unfold add_to_implicit.
  assert (∃ s0, store_ok s0 ∧ (∃ i, implicit (node_of s0 n) = Some i) ∧
    match implicit (node_of s n) with
    | None => children_reset n (upd_node n (with_implicit (Some []) ∅) s)
    | Some _ => s end = s0) as (s0 & Hs0 & [i Hi] & ->).
  { destruct (implicit (node_of s n)) as [i|] eqn:E; [eauto|].
    eexists. split; [by apply store_ok_scan_start|]. split; [|done]. exists [].
    rewrite node_of_children_reset, node_of_upd_eq, decide_True by done.
    by destruct (node_of s n). }
  rewrite Hi. simpl. destruct (Hs0 n) as [_ _ _ Him _]. destruct (Him i Hi). add_child_ok.
  - destruct (node_of s0 n). intros []; split; simpl in *; try done.
    intros ? [= <-]. by split.
  - destruct (node_of s0 n). simpl in *. by subst.
Qed.

Lemma store_ok_nodes s s' : d_nodes s' = d_nodes s → store_ok s → store_ok s'.
Proof. intros E Hs n. unfold node_of. rewrite E. apply Hs. Qed.

(** A change of attributes other than the lists of children. *)
Lemma store_ok_other n f s :
  store_ok s →
  (sources (f (node_of s n)), sources_set (f (node_of s n)), depends (f (node_of s n)),
   depends_set (f (node_of s n)), ignore (f (node_of s n)), ignore_set (f (node_of s n)),
   implicit (f (node_of s n)), implicit_set (f (node_of s n)),
   memo_children (f (node_of s n))) =
  (sources (node_of s n), sources_set (node_of s n), depends (node_of s n),
   depends_set (node_of s n), ignore (node_of s n), ignore_set (node_of s n),
   implicit (node_of s n), implicit_set (node_of s n), memo_children (node_of s n)) →
  store_ok (upd_node n f s).
Proof.
  intros Hs E. apply store_ok_upd; [done|].
  destruct (node_of s n), (f _); simpl in E. injection E as -> -> -> -> -> -> -> -> ->.
  intros []; by split.
Qed.

Lemma store_ok_empty k : store_ok (DStore ∅ ∅ k).
Proof.
  intros n. unfold node_of. simpl. rewrite lookup_empty. split; simpl; try done;
    split; try done; apply NoDup_nil_2.
Qed.

Lemma store_ok_builder_set n b s : store_ok s → store_ok (builder_set n b s).
Proof. intros Hs. apply store_ok_other; [done|by destruct (node_of s n)]. Qed.

Lemma store_ok_clear n s : store_ok s → store_ok (clear n s).
Proof.
  intros Hs. unfold clear.
  assert (store_ok (clear_memoized_values n (del_binfo n s))) as Hs1.
  { apply store_ok_upd.
    - apply store_ok_other; [done|by destruct (node_of s n)].
    - destruct (node_of (del_binfo n s) n). intros []; by split. }
  simpl. apply store_ok_cleanup, store_ok_other; [|by destruct (node_of _ n)].
  by apply (store_ok_nodes (clear_memoized_values n (del_binfo n s))).
Qed.

Lemma store_ok_built n s : store_ok s → store_ok (built n s).
Proof.
  intros Hs. apply store_ok_clear, foldl_pred; [|done]. intros s' p _ Hs'.
  apply store_ok_upd; [done|]. destruct (node_of s' p).
  intros []; split; simpl in *; done.
Qed.

Lemma store_ok_children_get n s : store_ok s → store_ok (children_get n s).1.
Proof.
  intros Hs. unfold children_get. destruct (memo_children _) eqn:E; [done|].
  apply store_ok_upd; [done|]. destruct (node_of s n). intros []; split; simpl in *; try done.
  intros c [= <-] _. reflexivity.
Qed.

Lemma children_get_result n s :
  store_ok s → is_Some (implicit (node_of s n)) →
  (children_get n s).2 = compute_children (node_of (children_get n s).1 n) ∧
  is_Some (implicit (node_of (children_get n s).1 n)).
Proof.
  intros Hs Hi. unfold children_get. destruct (memo_children _) as [c|] eqn:E.
  - split; [|done]. by apply (ok_memo _ (Hs n)).
  - cbn [fst snd]. rewrite node_of_upd_eq. by destruct (node_of s n).
Qed.

Lemma store_ok_get_executor n s : store_ok s → store_ok (get_executor n s).1.
Proof.
  intros Hs. unfold get_executor. destruct (n_executor _); [done|]. cbn [fst].
  apply store_ok_other; [|by destruct (node_of _ n)]. by eapply store_ok_nodes.
Qed.
End store.

(** ** Scanning *)

Lemma keeps_call {S E A} (P : S → Prop) (f : S → S * A) :
  (∀ s, P s → P (f s).1) → keeps P (call (E:=E) f).
Proof. intros Hf s Hs. unfold call. specialize (Hf s Hs). by destruct (f s). Qed.
#[export] Hint Resolve keeps_call : eff.

Section scanning.
Context `{DepWorld}.
Implicit Types s : dstore.

Lemma get_build_env_nodes e s : d_nodes (get_build_env e s).1 = d_nodes s.
Proof. unfold get_build_env. by destruct (ex_kind_of (exec_of s e)), (ex_memo_env (exec_of s e)). Qed.

Lemma get_build_env_exec e s x :
  ex_kind_of (exec_of (get_build_env e s).1 x) = ex_kind_of (exec_of s x) ∧
  batches (exec_of (get_build_env e s).1 x) = batches (exec_of s x).
Proof.
  unfold get_build_env. destruct (ex_kind_of (exec_of s e)), (ex_memo_env (exec_of s e)); try done;
    unfold exec_of, upd_exec; simpl; destruct (decide (e = x)) as [->|];
    rewrite ?lookup_insert_eq, ?lookup_insert_ne by done; try done; by destruct (d_execs s !! x).
Qed.

Lemma get_build_scanner_path_frame e sc s x :
  let s' := (get_build_scanner_path e sc s).1 in
  d_nodes s' = d_nodes s ∧
  ex_kind_of (exec_of s' x) = ex_kind_of (exec_of s x) ∧
  batches (exec_of s' x) = batches (exec_of s x).
Proof.
  unfold get_build_scanner_path. pose proof (get_build_env_nodes e s).
  pose proof (get_build_env_exec e s x). destruct (get_build_env e s). simpl in *. tauto.
Qed.

(** The loop over the nodes changes only memoised values. *)
Lemma scan_nodes_frame fuel e sc v l deps s x :
  let s' := (scan_nodes fuel e sc v l deps s).1 in
  d_nodes s' = d_nodes s ∧
  ex_kind_of (exec_of s' x) = ex_kind_of (exec_of s x) ∧
  batches (exec_of s' x) = batches (exec_of s x).
Proof.
  revert deps s. induction l as [|n l IH]; intros deps s; [done|].
  cbn [scan_nodes]. destruct (select_for sc v n) as [sc'|]; [|apply IH].
  pose proof (get_build_scanner_path_frame e sc' s x) as Hf.
  destruct (get_build_scanner_path e sc' s) as [s1 p]. simpl in Hf.
  destruct (Node_get_implicit_deps _ _ _ _ _); [|done].
  specialize (IH (deps ++ l0) s1). simpl in *. naive_solver congruence.
Qed.

Lemma store_ok_scan fuel e sc l : keeps store_ok (Executor_scan fuel e sc l).
Proof.
  intros s Hs. unfold Executor_scan. pose proof (get_build_env_nodes e s) as E1.
  destruct (get_build_env e s) as [s1 v]. simpl in E1.
  pose proof (scan_nodes_frame fuel e sc v l [] s1 e) as [E2 _].
  destruct (scan_nodes _ _ _ _ _ _ s1) as [s2 [deps|r]]; simpl in E2;
    [|eapply store_ok_nodes; [|exact Hs]; simpl; congruence].
  unfold get_implicit_deps. pose proof (get_build_env_nodes e s2) as E3.
  destruct (get_build_env e s2) as [s3 v']. simpl in *.
  apply foldl_pred; [intros; by apply store_ok_add_to_implicit|].
  eapply store_ok_nodes; [|exact Hs]. congruence.
Qed.

Lemma store_ok_Node_get_build_env n s : store_ok s → store_ok (Node_get_build_env n s).1.
Proof.
  intros Hs. unfold Node_get_build_env. destruct (memo_build_env _); [done|].
  pose proof (store_ok_get_executor n s Hs) as H1.
  destruct (get_executor n s) as [s1 e]. pose proof (get_build_env_nodes e s1) as E2.
  destruct (get_build_env e s1) as [s2 v]. simpl in *.
  apply store_ok_other; [|by destruct (node_of s2 n)]. by eapply store_ok_nodes.
Qed.

Lemma store_ok_scan_sources fuel e sc : keeps store_ok (scan_sources fuel e sc).
Proof.
  intros s Hs. unfold scan_sources.
  destruct (ex_kind_of (exec_of s e)), (batches (exec_of s e)); try done;
    case_decide; try done; by apply store_ok_scan.
Qed.

Lemma store_ok_scan_targets fuel e sc : keeps store_ok (scan_targets fuel e sc).
Proof.
  intros s Hs. unfold scan_targets. destruct (ex_kind_of _); try done; by apply store_ok_scan.
Qed.
Hint Resolve store_ok_Node_get_build_env store_ok_get_executor store_ok_scan_sources
  store_ok_scan_targets store_ok_children_get : eff.

Variables (unchanged changed_ : bool).

Lemma store_ok_Node_scan fuel n : keeps store_ok (Node_scan false unchanged changed_ fuel n).
Proof.
  intros s Hs. unfold Node_scan. destruct (implicit _); [done|].
  pose proof (store_ok_scan_start n s Hs) as Hs'. revert Hs'.
  generalize (children_reset n (upd_node n (with_implicit (Some []) ∅) s)) as s1. intros s1 Hs1.
  destruct (n_builder _) as [b|]; [|done]. revert s1 Hs1.
  apply keeps_bind; [auto with eff|]. intros _.
  apply keeps_bind; [auto with eff|]. intros e.
  apply keeps_bind; [unfold scan_cached; simpl; auto with eff|]. intros [|]; [auto with eff|].
  apply keeps_bind; [auto with eff|]. intros _.
  destruct (bd_target_scanner b); auto with eff.
Qed.
End scanning.

(** ** What a scan finds, and where it is recorded *)

Section scan_result.
Context `{DepWorld}.
Implicit Types s : dstore.

Lemma exec_of_upd e f s : exec_of (upd_exec e f s) e = f (exec_of s e).
Proof. unfold exec_of, upd_exec. simpl. by rewrite lookup_insert_eq. Qed.

(** The environment is memoised: asking again changes nothing. *)
Lemma get_build_env_idem e s :
  let s1 := (get_build_env e s).1 in
  get_build_env e s1 = (s1, (get_build_env e s).2).
Proof.
  unfold get_build_env. destruct (ex_kind_of (exec_of s e)) eqn:Ek;
    destruct (ex_memo_env (exec_of s e)) eqn:Em; cbn [fst snd];
    rewrite ?exec_of_upd; cbn [with_ex_memo ex_kind_of ex_memo_env]; by rewrite ?Ek, ?Em.
Qed.

Definition scan_path (e : eid) (s : dstore) (sc : scanner) : path :=
  (get_build_scanner_path e sc s).2.

(** The nodes the loop of [scan] finds. *)
Definition found_by_scan (fuel : nat) (e : eid) (sc : option scanner) (v : env)
    (s : dstore) (l : list nid) (x : nid) : Prop :=
  ∃ n sc' d, n ∈ l ∧ select_for sc v n = Some sc' ∧
    Node_get_implicit_deps fuel n v (Some sc') (scan_path e s sc') = Some d ∧ x ∈ d.

Lemma scan_nodes_spec fuel e sc v l deps s s' r :
  get_build_env e s = (s, v) →
  scan_nodes fuel e sc v l deps s = (s', r) →
  s' = s ∧ ∀ deps', r = Ok deps' →
    ∀ x, x ∈ deps' ↔ x ∈ deps ∨ found_by_scan fuel e sc v s l x.
Proof.
  intros He. revert deps. induction l as [|n l IH]; intros deps.
  { intros [= <- <-]. split; [done|]. intros ? [= <-] x. split; [by left|].
    intros [|(n & ? & ? & Hn & _)]; [done|by apply elem_of_nil in Hn]. }
  cbn [scan_nodes]. destruct (select_for sc v n) as [sc'|] eqn:Es.
  - pose proof (eq_refl (scan_path e s sc')) as Hp. unfold scan_path at 1 in Hp.
    unfold get_build_scanner_path in *. rewrite He in *. cbn zeta iota beta in *. simpl in Hp.
    rewrite Hp. destruct (Node_get_implicit_deps fuel n v (Some sc') _) as [d|] eqn:Ed;
      [|by intros [= <- <-]].
    intros Hr. destruct (IH _ Hr) as [-> Hr']. split; [done|]. intros deps' E x.
    rewrite (Hr' deps' E), elem_of_app. unfold found_by_scan. split.
    + intros [[?|?]|(m & ? & ? & ? & ?)]; [by left|right|right]; [set_solver|].
      do 3 eexists. split; [by right|done].
    + intros [?|(m & sc2 & d2 & [->|Hm]%elem_of_cons & E1 & E2 & ?)]; [tauto| |right; set_solver].
      left. right. congruence.
  - intros Hr. destruct (IH _ Hr) as [-> Hr']. split; [done|]. intros deps' E x.
    rewrite (Hr' deps' E). unfold found_by_scan. split.
    + intros [?|(m & ? & ? & ? & ?)]; [by left|right]. do 3 eexists. split; [by right|done].
    + intros [?|(m & sc2 & d2 & [->|Hm]%elem_of_cons & E1 & ?)];
        [by left|congruence|right; by exists m, sc2, d2].
Qed.

(** [add_to_implicit] adds the dependencies to one node. *)
Lemma add_to_implicit_spec t l s :
  store_ok s →
  (∃ li, implicit (node_of (add_to_implicit t l s) t) = Some li ∧
     ∀ x, x ∈ li ↔ x ∈ default [] (implicit (node_of s t)) ∨ x ∈ l) ∧
  (∀ m, m ≠ t → node_of (add_to_implicit t l s) m = node_of s m).
Proof.
  intros Hs. unfold add_to_implicit.
  assert (∃ s0, store_ok s0 ∧
    implicit (node_of s0 t) = Some (default [] (implicit (node_of s t))) ∧
    (∀ m, m ≠ t → node_of s0 m = node_of s m) ∧
    match implicit (node_of s t) with
    | None => children_reset t (upd_node t (with_implicit (Some []) ∅) s)
    | Some _ => s end = s0) as (s0 & Hs0 & Hi & Hm & ->).
  { destruct (implicit (node_of s t)) as [i|] eqn:E; [by exists s|].
    eexists. split; [by apply store_ok_scan_start|]. split_and!; [| |done].
    - rewrite node_of_children_reset, node_of_upd_eq, decide_True by done.
      by destruct (node_of s t).
    - intros m Hne. by rewrite node_of_children_reset, decide_False, node_of_upd_ne. }
  rewrite Hi. cbn [default from_option id].
  destruct (ok_implicit _ (Hs0 t) _ Hi) as [Hd1 Hd2].
  pose proof (add_child_spec _ _ l Hd1 Hd2) as Ha.
  destruct (add_child _ _ l) as [[l' ls] added]. destruct Ha as (_ & _ & Hin & _ & _).
  split.
  - exists l'. split; [|done]. destruct added; simpl.
    + rewrite node_of_children_reset, decide_True, node_of_upd_eq by done.
      by destruct (node_of s0 t).
    + rewrite node_of_upd_eq. by destruct (node_of s0 t).
  - intros m Hne. rewrite <- Hm by done. destruct added; simpl.
    + by rewrite node_of_children_reset, decide_False, node_of_upd_ne.
    + by rewrite node_of_upd_ne.
Qed.

Lemma add_to_all_spec l ts s :
  store_ok s →
  let s' := foldl (λ s t, add_to_implicit t l s) s ts in
  store_ok s' ∧
  (∀ t, t ∈ ts → ∃ li, implicit (node_of s' t) = Some li ∧
     ∀ x, x ∈ li ↔ x ∈ default [] (implicit (node_of s t)) ∨ x ∈ l) ∧
  (∀ m, (m ∉ ts) → node_of s' m = node_of s m).
Proof.
  intros Hs. induction ts as [|t ts IH] using rev_ind; cbn zeta.
  { split_and!; [done| |done]. intros t Ht. by apply elem_of_nil in Ht. }
  rewrite foldl_snoc. destruct IH as (Hs' & Hts & Hm).
  destruct (add_to_implicit_spec t l _ Hs') as [(li & E & Hli) Hne].
  split_and!; [by apply store_ok_add_to_implicit| |].
  - intros t' [Ht'|Ht']%elem_of_app.
    + destruct (Hts t' Ht') as (li' & E' & Hli').
      destruct (decide (t' = t)) as [->|Hn]; [|exists li'; by rewrite Hne].
      exists li. split; [done|]. intros x. rewrite Hli, E'. simpl. rewrite Hli'. tauto.
    + apply list_elem_of_singleton in Ht' as ->. exists li. split; [done|].
      intros x. rewrite Hli. destruct (decide (t ∈ ts)) as [Ht|Ht]; [|by rewrite Hm].
      destruct (Hts t Ht) as (li' & E' & Hli'). rewrite E'. simpl. rewrite Hli'. tauto.
  - intros m Hn. rewrite Hne, Hm; set_solver.
Qed.
End scan_result.

(** A scan by an executor records, in the implicit dependencies of every
    target of every batch, exactly what was there, what the scanners find from
    each of the nodes scanned, and what the actions depend on; no other node
    changes. *)
Theorem Executor_scan_records `{DepWorld} fuel e sc l s s' :
  store_ok s →
  Executor_scan fuel e sc l s = (s', Ok tt) →
  let s1 := (get_build_env e s).1 in
  let v := (get_build_env e s).2 in
  let targets := get_all_targets (exec_of s1 e) in
  store_ok s' ∧
  (∀ t, t ∈ targets → ∃ li, implicit (node_of s' t) = Some li ∧
     ∀ x, x ∈ li ↔ x ∈ default [] (implicit (node_of s t)) ∨
       found_by_scan fuel e sc v s1 l x ∨
       ∃ a, a ∈ get_action_list (exec_of s1 e) ∧
         x ∈ act_implicit_deps a targets (get_all_sources s1 (exec_of s1 e)) v) ∧
  (∀ m, (m ∉ targets) → node_of s' m = node_of s m).
Proof.
  intros Hs Hscan s1 v targets. unfold Executor_scan in Hscan.
  pose proof (get_build_env_idem e s) as He. pose proof (get_build_env_nodes e s) as Hn.
  unfold targets, v, s1. clear targets v s1.
  destruct (get_build_env e s) as [s1 v]. simpl in *.
  destruct (scan_nodes _ _ _ _ _ _ s1) as [s2 r] eqn:Er.
  destruct (scan_nodes_spec _ _ _ _ _ _ _ _ _ He Er) as [-> Hdeps].
  destruct r as [deps|]; [|done]. unfold get_implicit_deps in Hscan. rewrite He in Hscan.
  injection Hscan as <-.
  assert (store_ok s1) as Hs1 by (by eapply store_ok_nodes).
  edestruct (add_to_all_spec (deps ++ concat (map (λ a, act_implicit_deps a
    (get_all_targets (exec_of s1 e)) (get_all_sources s1 (exec_of s1 e)) v)
    (get_action_list (exec_of s1 e)))) (get_all_targets (exec_of s1 e)) s1 Hs1)
    as (Hs' & Ht & Hm).
  assert (∀ m, node_of s1 m = node_of s m) as Hnode by (intros m; unfold node_of; by rewrite Hn).
  split_and!; [done| |by intros m Hm'; rewrite <- Hnode; apply Hm].
  intros t Htt. destruct (Ht t Htt) as (li & E & Hli). exists li. split; [done|].
  intros x. rewrite Hli, Hnode, elem_of_app, (Hdeps deps eq_refl), elem_of_nil.
  assert (∀ L, x ∈ concat L ↔ ∃ k, k ∈ L ∧ x ∈ k) as Hc.
  { intros L. rewrite !list_elem_of_In, in_concat. setoid_rewrite <- list_elem_of_In. done. }
  rewrite Hc. setoid_rewrite list_elem_of_fmap. naive_solver.
Qed.

(** ** The children of a node *)

Section children_facts.
Context `{DepWorld}.
Implicit Types s : dstore.

(** A store in which the node has been scanned. *)
Definition scanned_ok (n : nid) s : Prop :=
  store_ok s ∧ is_Some (implicit (node_of s n)).

Lemma scanned_ok_nodes n s s' : d_nodes s' = d_nodes s → scanned_ok n s → scanned_ok n s'.
Proof.
  intros E [Hs Hi]. split; [by eapply store_ok_nodes|]. unfold node_of in *. by rewrite E.
Qed.

Lemma scanned_ok_Executor_scan n fuel e sc l :
  keeps (scanned_ok n) (Executor_scan fuel e sc l).
Proof.
  intros s Hs. unfold Executor_scan.
  pose proof (get_build_env_idem e s) as He. pose proof (get_build_env_nodes e s) as Hn.
  destruct (get_build_env e s) as [s1 v]. simpl in *.
  destruct (scan_nodes _ _ _ _ _ _ s1) as [s2 r] eqn:Er.
  destruct (scan_nodes_spec _ _ _ _ _ _ _ _ _ He Er) as [-> _].
  pose proof (scanned_ok_nodes n s s1 Hn Hs) as [Hs1 [i Hi]].
  destruct r as [deps|]; [|by split; [|exists i]].
  unfold get_implicit_deps. rewrite He. cbn [fst].
  edestruct (add_to_all_spec (deps ++ concat (map (λ a, act_implicit_deps a
    (get_all_targets (exec_of s1 e)) (get_all_sources s1 (exec_of s1 e)) v)
    (get_action_list (exec_of s1 e)))) (get_all_targets (exec_of s1 e)) s1 Hs1)
    as (Hs' & Ht & Hm). split; [done|].
  destruct (decide (n ∈ get_all_targets (exec_of s1 e))) as [Hin|Hin].
  - destruct (Ht n Hin) as (li & E & _). eauto.
  - rewrite (Hm n Hin). eauto.
Qed.

Lemma implicit_get_executor n m s :
  implicit (node_of (get_executor n s).1 m) = implicit (node_of s m).
Proof.
  unfold get_executor. destruct (n_executor _); [done|]. cbn [fst].
  rewrite node_of_upd. case_decide; subst; [by destruct (node_of _ m)|done].
Qed.

Lemma implicit_Node_get_build_env n m s :
  implicit (node_of (Node_get_build_env n s).1 m) = implicit (node_of s m).
Proof.
  unfold Node_get_build_env. destruct (memo_build_env _); [done|].
  pose proof (implicit_get_executor n m s) as E1.
  destruct (get_executor n s) as [s1 e]. pose proof (get_build_env_nodes e s1) as E2.
  destruct (get_build_env e s1) as [s2 v]. simpl in *. rewrite <- E1.
  rewrite node_of_upd. unfold node_of. rewrite E2.
  case_decide; subst; [by destruct (default _ _)|done].
Qed.

Lemma scanned_ok_call {A} (f : dstore → dstore * A) n :
  (∀ s, store_ok s → store_ok (f s).1) →
  (∀ s, implicit (node_of (f s).1 n) = implicit (node_of s n)) →
  keeps (scanned_ok n) (call (E:=fexn) f).
Proof.
  intros Hok Hi. apply keeps_call. intros s [Hs His]. split; [auto|by rewrite Hi].
Qed.

Lemma scanned_ok_scan_sources n fuel e sc : keeps (scanned_ok n) (scan_sources fuel e sc).
Proof.
  intros s Hs. unfold scan_sources.
  destruct (ex_kind_of (exec_of s e)), (batches (exec_of s e)); try done;
    case_decide; try done; by apply scanned_ok_Executor_scan.
Qed.

Lemma scanned_ok_scan_targets n fuel e sc : keeps (scanned_ok n) (scan_targets fuel e sc).
Proof.
  intros s Hs. unfold scan_targets.
  destruct (ex_kind_of _); try done; by apply scanned_ok_Executor_scan.
Qed.
Hint Resolve scanned_ok_scan_sources scanned_ok_scan_targets : eff.

(** A scan that does not use cached dependencies leaves the node scanned. *)
Lemma Node_scan_scanned unchanged changed_ fuel n s :
  store_ok s → scanned_ok n (Node_scan false unchanged changed_ fuel n s).1.
Proof.
  intros Hs. unfold Node_scan. destruct (implicit _) eqn:E.
  { split; [done|]. cbn [fst]. rewrite E. eauto. }
  assert (scanned_ok n (children_reset n (upd_node n (with_implicit (Some []) ∅) s))) as Hs1.
  { split; [by apply store_ok_scan_start|].
    rewrite node_of_children_reset, node_of_upd_eq, decide_True by done.
    destruct (node_of s n). simpl. eauto. }
  revert Hs1. generalize (children_reset n (upd_node n (with_implicit (Some []) ∅) s)).
  intros s1 Hs1. destruct (n_builder _) as [b|]; [|done]. revert s1 Hs1.
  apply keeps_bind.
  { apply scanned_ok_call; intros; [by apply store_ok_Node_get_build_env|].
    apply implicit_Node_get_build_env. }
  intros _. apply keeps_bind.
  { apply scanned_ok_call; intros; [by apply store_ok_get_executor|].
    apply implicit_get_executor. }
  intros e. apply keeps_bind; [unfold scan_cached; simpl; auto with eff|].
  intros []; [auto with eff|]. apply keeps_bind; [auto with eff|].
  intros _. destruct (bd_target_scanner b); auto with eff.
Qed.

Lemma elem_of_compute_children d i :
  i ∈ compute_children d ↔
  (i ∈ sources d ∨ i ∈ depends d ∨ i ∈ default [] (implicit d)) ∧ (i ∉ ignore_set d).
Proof.
  unfold compute_children. case_decide as Hi.
  - rewrite Hi, !elem_of_app. set_solver.
  - rewrite list_elem_of_filter, !elem_of_app. tauto.
Qed.
End children_facts.

(** C11: with the option [implicit_cache] off (the first argument of [children]),
    whatever children were added before, and in whatever order, the memoised
    list is never stale: [children] returns the sources, dependencies
    and implicit dependencies the node has now, less the ignored ones; and
    every method that changes the lists keeps the invariant this rests on. *)
Theorem children_current `{DepWorld} unchanged changed_ fuel n l s :
  store_ok s →
  (store_ok (add_source n l s) ∧ store_ok (add_dependency n l s) ∧
   store_ok (add_ignore n l s) ∧ store_ok (add_to_implicit n l s) ∧
   store_ok (built n s)) ∧
  ∀ s' c, children false unchanged changed_ fuel n s = (s', Ok c) →
    store_ok s' ∧ c = compute_children (node_of s' n) ∧
    ∀ i, i ∈ c ↔ (i ∈ sources (node_of s' n) ∨ i ∈ depends (node_of s' n) ∨
                  i ∈ default [] (implicit (node_of s' n))) ∧
                 (i ∉ ignore_set (node_of s' n)).
Proof.
  intros Hs. split.
  { split_and!; [by apply store_ok_add_source|by apply store_ok_add_dependency|
      by apply store_ok_add_ignore|by apply store_ok_add_to_implicit|by apply store_ok_built]. }
  intros s' c. unfold children, ebind, call.
  pose proof (Node_scan_scanned unchanged changed_ fuel n s Hs) as [Hs1 Hi].
  destruct (Node_scan _ _ _ _ _ s) as [s1 [?|?]]; [|done]. simpl in *.
  destruct (children_get_result n s1 Hs1 Hi) as [E _].
  pose proof (store_ok_children_get n s1 Hs1) as Hs2.
  destruct (children_get n s1) as [s2 c2]. simpl in *. intros [= <- <-].
  split_and!; [done|done|]. intros i. rewrite E. apply elem_of_compute_children.
Qed.

(** ** Build information *)

Section binfo.
Context `{DepWorld}.
Implicit Types s : dstore.

Definition core (d : dnode) :=
  (sources d, depends d, ignore d, ignore_set d, implicit d, specific_sources d).

(** The lists stay, and a signature object once made is not replaced. *)
Definition extends s s' : Prop := ∀ m,
  core (node_of s' m) = core (node_of s m) ∧
  ∀ x, n_ninfo (node_of s m) = Some x → n_ninfo (node_of s' m) = Some x.

#[global] Instance extends_po : PreOrder extends.
Proof.
  split; [by intros s m|]. intros s1 s2 s3 H12 H23 m.
  destruct (H12 m) as [E1 N1], (H23 m) as [E2 N2]. split; [congruence|auto].
Qed.

Lemma extends_nodes s s' : d_nodes s' = d_nodes s → extends s s'.
Proof. intros E m. unfold node_of. by rewrite E. Qed.

Lemma extends_upd n f s :
  core (f (node_of s n)) = core (node_of s n) →
  (∀ x, n_ninfo (node_of s n) = Some x → n_ninfo (f (node_of s n)) = Some x) →
  extends s (upd_node n f s).
Proof. intros Hc Hn m. rewrite node_of_upd. case_decide; subst; auto. Qed.

Lemma get_ninfo_spec i s :
  extends s (get_ninfo i s).1 ∧
  n_ninfo (node_of (get_ninfo i s).1 i) = Some (get_ninfo i s).2.
Proof.
  unfold get_ninfo. destruct (n_ninfo (node_of s i)) as [x|] eqn:E; [done|]. simpl.
  split; [|rewrite node_of_upd_eq; by destruct (node_of _ i)].
  transitivity (new_ninfo s).1; [by apply extends_nodes|].
  apply extends_upd; [by destruct (node_of _ i)|].
  intros x Hx. unfold node_of in *. simpl in *. congruence.
Qed.

Lemma get_ninfos_spec l s :
  extends s (get_ninfos l s).1 ∧
  Forall2 (λ i x, n_ninfo (node_of (get_ninfos l s).1 i) = Some x) l (get_ninfos l s).2.
Proof.
  revert s. induction l as [|i l IH]; intros s; simpl; [done|].
  destruct (get_ninfo_spec i s) as [H1 H2]. destruct (get_ninfo i s) as [s1 x]. simpl in *.
  destruct (IH s1) as [H3 H4]. destruct (get_ninfos l s1) as [s2 xs]. simpl in *.
  split; [by etrans|]. constructor; [|done]. by apply H3.
Qed.

(** What [get_binfo] reads of an executor survives the memoised calls. *)
Definition same_exec s s' : Prop := ∀ e,
  ex_kind_of (exec_of s' e) = ex_kind_of (exec_of s e) ∧
  batches (exec_of s' e) = batches (exec_of s e) ∧
  ex_memo_unignored (exec_of s' e) = ex_memo_unignored (exec_of s e).

Lemma same_exec_memo e me mc s :
  same_exec s (upd_exec e (λ x, with_ex_memo (me x) (mc x) (ex_memo_unignored x) x) s).
Proof.
  intros x. unfold exec_of, upd_exec. simpl. destruct (decide (e = x)) as [->|].
  - by rewrite lookup_insert_eq.
  - by rewrite lookup_insert_ne.
Qed.

Lemma get_build_env_same e s : same_exec s (get_build_env e s).1.
Proof.
  unfold get_build_env. destruct (ex_kind_of (exec_of s e)), (ex_memo_env (exec_of s e));
    try done; apply same_exec_memo.
Qed.

Lemma Executor_str_frame e s :
  d_nodes (Executor_str e s).1 = d_nodes s ∧ same_exec s (Executor_str e s).1.
Proof.
  unfold Executor_str. pose proof (get_build_env_nodes e s). pose proof (get_build_env_same e s).
  destruct (ex_kind_of _); try done. by destruct (get_build_env e s).
Qed.

Lemma get_contents_frame e s :
  d_nodes (get_contents e s).1 = d_nodes s ∧ same_exec s (get_contents e s).1.
Proof.
  unfold get_contents. pose proof (get_build_env_nodes e s) as Hn.
  pose proof (get_build_env_same e s) as He.
  destruct (ex_kind_of (exec_of s e)), (ex_memo_contents (exec_of s e)); try done;
    destruct (get_build_env e s) as [s1 v]; simpl in *; (split; [done|]);
    intros x; destruct (same_exec_memo e ex_memo_env (λ _, Some (join_strings ""
      (map (λ a, act_contents a (get_all_targets (exec_of s e))
         (get_all_sources s1 (exec_of s e)) v) (get_action_list (exec_of s e))))) s1 x)
      as (-> & -> & ->); apply He.
Qed.

(** The sources recorded are those the node has, less the ignored ones, when it
    has sources of its own or its executor is made for it. *)
Lemma binfo_sources_spec n e s d :
  d = node_of s n → NoDup (sources d) → ignore_set d = list_to_set (ignore d) →
  specific_sources d = true ∨
  (ex_kind_of (exec_of s e) = ExReal ∧ batches (exec_of s e) = [Batch [n] (sources d)] ∧
   ex_memo_unignored (exec_of s e) = ∅) →
  (binfo_sources n e s).2 = unignored d (sources d) ∧ d_nodes (binfo_sources n e s).1 = d_nodes s.
Proof.
  intros -> Hnd Hig Hsrc.
  assert (∀ l : list nid, NoDup l → uniquer_hashables l = l) as Hu.
  { intros l Hl. rewrite uniquer_hashables_uniquer. apply uniquer_id. by rewrite list_fmap_id. }
  unfold binfo_sources, unignored. destruct (specific_sources (node_of s n)).
  { split; [|done]. by apply Hu, NoDup_filter. }
  destruct Hsrc as [|(Hk & Hb & Hm)]; [done|].
  unfold get_unignored_sources. rewrite Hk, Hm, lookup_empty. unfold source_list. rewrite Hb. simpl.
  rewrite decide_True by set_solver. split; [|done]. simpl. rewrite Hig.
  destruct (ignore (node_of s n)) as [|i l]; unfold read_list; rewrite ?Hb; simpl.
  - rewrite Hu by done. symmetry. apply filter_all, Forall_forall. set_solver.
  - rewrite Hu by by apply NoDup_filter. apply list_filter_iff. intros x.
    by rewrite elem_of_union, elem_of_singleton, elem_of_list_to_set, elem_of_cons.
Qed.

Lemma get_executor_extends n s : extends s (get_executor n s).1.
Proof.
  unfold get_executor. destruct (n_executor _); [done|]. cbn [fst].
  etrans; [|apply extends_upd]; [by apply (extends_nodes _ (DStore (d_nodes s) _ _))| |];
    by destruct (node_of _ n).
Qed.

(** The executor made for a node that has none. *)
Lemma get_executor_fresh n s b :
  n_executor (node_of s n) = None → n_builder (node_of s n) = Some b →
  let '(s1, e) := get_executor n s in
  ex_kind_of (exec_of s1 e) = ExReal ∧
  batches (exec_of s1 e) = [Batch [n] (sources (node_of s n))] ∧
  ex_memo_unignored (exec_of s1 e) = ∅.
Proof.
  intros He Hb. unfold get_executor. rewrite He, Hb. unfold exec_of, upd_node.
  cbn [d_execs]. rewrite lookup_insert_eq. unfold Executor_init.
  by rewrite decide_True by (by left).
Qed.

Lemma same_exec_trans s1 s2 s3 : same_exec s1 s2 → same_exec s2 s3 → same_exec s1 s3.
Proof. intros H12 H23 e. destruct (H12 e) as (<- & <- & <-). apply H23. Qed.

(** The strings of the action, which [get_binfo] asks for first. *)
Lemma binfo_action_frame (hb : bool) e s :
  let r := if hb then
             let '(s, str) := Executor_str e s in
             let '(s, c) := get_contents e s in
             (s, Some str, Some (MD5signature c))
           else (s, None, None) in
  d_nodes r.1.1 = d_nodes s ∧ same_exec s r.1.1.
Proof.
  destruct hb; [|done]. destruct (Executor_str_frame e s) as [H1 H2].
  destruct (Executor_str e s) as [s1 str]. destruct (get_contents_frame e s1) as [H3 H4].
  destruct (get_contents e s1) as [s2 c]. simpl in *.
  split; [congruence|by eapply same_exec_trans].
Qed.

Lemma compute_children_unignored d :
  compute_children d =
  unignored d (sources d) ++ unignored d (depends d) ++
  unignored d (default [] (implicit d)).
Proof.
  unfold compute_children, unignored. rewrite <- !filter_app. case_decide as Hi; [|done].
  symmetry. apply filter_all, Forall_forall. rewrite Hi. set_solver.
Qed.

Lemma Forall2_ninfo_extends s s' l xs :
  extends s s' → Forall2 (λ i x, n_ninfo (node_of s i) = Some x) l xs →
  Forall2 (λ i x, n_ninfo (node_of s' i) = Some x) l xs.
Proof. intros He Hl. eapply Forall2_impl; [exact Hl|]. intros i x. apply He. Qed.
End binfo.

(** the build information of a node has one signature for each child
    [children] lists, in the same order, and it is the signature object of that
    child: this is what [changed] relies on when it pairs the two lists. *)
Theorem get_binfo_aligned `{DepWorld} n s :
  store_ok s → n_binfo (node_of s n) = None →
  specific_sources (node_of s n) = true ∨
    (n_executor (node_of s n) = None ∧ has_builder s n = true) →
  let '(s', b) := get_binfo n s in
  n_binfo (node_of s' n) = Some b ∧
  Forall2 (λ i x, n_ninfo (node_of s' i) = Some x) (compute_children (node_of s n))
    (bsourcesigs b ++ bdependsigs b ++ bimplicitsigs b).
Proof.
  intros Hs Hb Hsrc. unfold get_binfo. rewrite Hb.
  pose proof (get_executor_extends n s) as Hx1.
  assert (specific_sources (node_of s n) = true ∨
    let '(s1, e) := get_executor n s in
    ex_kind_of (exec_of s1 e) = ExReal ∧
    batches (exec_of s1 e) = [Batch [n] (sources (node_of s n))] ∧
    ex_memo_unignored (exec_of s1 e) = ∅) as Hexec.
  { destruct Hsrc as [?|[He Hbd]]; [by left|right]. unfold has_builder in Hbd.
    destruct (n_builder (node_of s n)) eqn:E; [|done]. by eapply get_executor_fresh. }
  destruct (get_executor n s) as [s1 e]. simpl in Hx1.
  pose proof (binfo_action_frame (has_builder s1 n) e s1) as [Hn2 He2].
  destruct (if has_builder s1 n then _ else _) as [[s2 str] sig]. cbn [fst snd] in Hn2, He2.
  assert (extends s s2) as Hx2 by (etrans; [exact Hx1|by apply extends_nodes]).
  destruct (Hx2 n) as [Hcore _]. unfold core in Hcore. injection Hcore as E1 E2 E3 E4 E5 E6.
  destruct (Hs n) as [[Hnd _] _ [_ Hig] _ _].
  destruct (binfo_sources_spec n e s2 (node_of s2 n)) as [Hsrcs Hn3];
    [done|by rewrite E1|by rewrite E4, E3| |].
  { destruct Hexec as [?|(?&?&?)]; [left; congruence|right].
    destruct (He2 e) as (-> & -> & ->). rewrite E1. done. }
  destruct (binfo_sources n e s2) as [s3 srcs]. simpl in Hsrcs, Hn3.
  destruct (get_ninfos_spec srcs s3) as [Hx4 HF4].
  destruct (get_ninfos srcs s3) as [s4 sigs4]. simpl in Hx4, HF4.
  set (d := node_of s4 n).
  destruct (get_ninfos_spec (unignored d (depends d)) s4) as [Hx5 HF5].
  destruct (get_ninfos (unignored d (depends d)) s4) as [s5 sigs5]. simpl in Hx5, HF5.
  destruct (get_ninfos_spec (unignored d (default [] (implicit d))) s5) as [Hx6 HF6].
  destruct (get_ninfos (unignored d _) s5) as [s6 sigs6]. simpl in Hx6, HF6.
  split; [rewrite node_of_upd_eq; by destruct (node_of s6 n)|]. cbn [bsourcesigs bdependsigs bimplicitsigs].
  assert (extends s s4) as Hx by (etrans; [exact Hx2|]; etrans; [by apply extends_nodes|done]).
  destruct (Hx n) as [Hc _]. unfold core in Hc. fold d in Hc. injection Hc as F1 F2 F3 F4 F5 F6.
  rewrite compute_children_unignored. subst srcs.
  unfold unignored in *. rewrite ?F2, ?F4, ?F5, ?E1, ?E4 in *.
  assert (extends s6 (upd_node n (with_binfo (Some (BuildInfo
    (filter (λ i, i ∉ ignore_set (node_of s n)) (sources (node_of s n))) sigs4
    (depends (node_of s n)) sigs5 (default [] (implicit (node_of s n))) sigs6 str sig))) s6)) as Hx7
    by (apply extends_upd; by destruct (node_of s6 n)).
  repeat apply Forall2_app; eapply Forall2_ninfo_extends; try exact Hx7; [| |done].
  - do 2 (eapply Forall2_ninfo_extends; [eassumption|]). done.
  - eapply Forall2_ninfo_extends; [eassumption|]. done.
Qed.

(** ** Deciding what to rebuild *)

Section changed_facts.
Context `{DepWorld}.
Implicit Types s : dstore.

Lemma any_changed_spec n g h l result s :
  (∀ child p st, changed_since_last_build child n p st = (h child p st, Ok (g child p))) →
  any_changed n l result s =
    (foldl (λ st '(c, p), h c p st) s l,
     Ok (result || existsb (λ '(c, p), g c p) l)).
Proof.
  intros Hg. revert result s. induction l as [|[c p] l IH]; intros result s; simpl.
  { by rewrite orb_false_r. }
  unfold ebind, fuelled. rewrite Hg, IH. f_equal. f_equal.
  by destruct (g c p), result; rewrite ?orb_true_r.
Qed.

Lemma nstate_val_range k : (0 ≤ nstate_val k ≤ 5)%Z.
Proof. destruct k; simpl; lia. Qed.

(** The loop computes the maximum. *)
Lemma max_state_spec l :
  (0 ≤ max_state l)%Z ∧ (∀ k, k ∈ l → nstate_val k ≤ max_state l)%Z ∧
  (max_state l = 0%Z ∨ ∃ k, k ∈ l ∧ max_state l = nstate_val k).
Proof.
  induction l as [|k l IH] using rev_ind.
  { split_and!; [done| |by left]. by intros k Hk%elem_of_nil. }
  unfold max_state in *. rewrite foldl_snoc. destruct IH as (H1 & H2 & H3).
  pose proof (nstate_val_range k) as Hk. case_decide as Hd.
  - split_and!; [lia| |right; exists k; set_solver].
    intros k' [Hk'|Hk']%elem_of_app; [specialize (H2 k' Hk'); lia|].
    apply list_elem_of_singleton in Hk' as ->. lia.
  - split_and!; [done| |destruct H3 as [|(k' & ? & ?)]; [by left|right; exists k'; set_solver]].
    intros k' [Hk'|Hk']%elem_of_app; [by apply H2|].
    apply list_elem_of_singleton in Hk' as ->. destruct (decide (nstate_val k = 0%Z)); lia.
Qed.

(** The actions of [l] run one after the other, all with a false status. *)
Fixpoint all_ok (e : eid) (v : env) (l : list action) (s : dstore) : option dstore :=
  match l with
  | [] => Some s
  | a :: l =>
      match act_call a e v s with
      | (s, Ok ActOk) => all_ok e v l s
      | _ => None
      end
  end.

(** How the loop ends at the action [a]. *)
Definition fails_at (e : eid) (a : action) (r : dstore * res exn act_status)
    (x : exn) : Prop :=
  match r.2 with
  | Ok ActOk => False
  | Ok (ActStatus z) =>
      match batches (exec_of r.1 e) with
      | [] => x = IndexError
      | b :: _ => x = ExBuildError (BuildError (Some (ANodes (b_targets b)))
                    ("Error " +:+ pretty z) (StatusInt 2) (StatusInt 2) None
                    (Some e) (Some a) None None)
      end
  | Ok (ActError b) =>
      ∃ b', x = ExBuildError b' ∧ be_executor b' = Some e ∧
        be_node b' = be_node b ∧ be_errstr b' = be_errstr b ∧ be_status b' = be_status b
  | Raise y => x = y
  end.

Lemma run_actions_spec e v l s :
  match run_actions e v l s with
  | (s', Ok st) => st = ActOk ∧ all_ok e v l s = Some s'
  | (s', Raise x) => ∃ l1 a l2 s1, l = l1 ++ a :: l2 ∧ all_ok e v l1 s = Some s1 ∧
      s' = (act_call a e v s1).1 ∧ fails_at e a (act_call a e v s1) x
  end.
Proof.
  revert s. induction l as [|a l IH]; intros s; [done|]. cbn [run_actions all_ok].
  unfold ebind. destruct (act_call a e v s) as [s1 r] eqn:Ea.
  assert (∀ s' x, s' = s1 → fails_at e a (s1, r) x →
    ∃ l1 a' l2 s2, a :: l = l1 ++ a' :: l2 ∧ all_ok e v l1 s = Some s2 ∧
      s' = (act_call a' e v s2).1 ∧ fails_at e a' (act_call a' e v s2) x) as Hstop.
  { intros s' x -> Hx. exists [], a, l, s. by rewrite Ea. }
  destruct r as [[|z|b]|y].
  - specialize (IH s1). destruct (run_actions e v l s1) as [s' [st|x]]; [done|].
    destruct IH as (l1 & a' & l2 & s2 & -> & E & E2 & E3).
    exists (a :: l1), a', l2, s2. split_and!; try done. simpl. by rewrite Ea.
  - unfold eget, eraise, fails_at in *. simpl in *. destruct (batches (exec_of s1 e)); by apply Hstop.
  - unfold eraise, fails_at in *. simpl in *. apply Hstop; eauto 10.
  - by apply Hstop.
Qed.
End changed_facts.

(** C12: [changed] asks every child, whatever the answers before it, and tells
    the node to be rebuilt exactly when the number of children differs from the
    number of stored signatures, some child says it changed against the
    signature stored at its place, or the signature of the action differs. *)
Theorem changed_exactly `{DepWorld} ic un ch fuel n node s s1 cs bi g h :
  get_stored_info (default n node) = Some bi →
  (∀ child p st, changed_since_last_build child n p st = (h child p st, Ok (g child p))) →
  children ic un ch fuel n s = (s1, Ok cs) →
  let prev := bsourcesigs bi ++ bdependsigs bi ++ bimplicitsigs bi in
  let pairs := zip cs (map Some prev ++ replicate (length cs - length prev) None) in
  let s2 := foldl (λ st '(c, p), h c p st) s1 pairs in
  let s3 := (get_executor n s2).1 in
  let '(s4, contents) := get_contents (get_executor n s2).2 s3 in
  ∃ r, changed ic un ch fuel n node s = (s4, Ok r) ∧
    (r = true ↔ length cs ≠ length prev ∨ (∃ c p, (c, p) ∈ pairs ∧ g c p = true) ∨
                (has_builder s4 n = true ∧ bactsig bi ≠ Some (MD5signature contents))).
Proof.
  intros Hbi Hg Hcs prev pairs s2 s3. unfold changed. rewrite Hbi. fold prev.
  unfold ebind at 1. rewrite Hcs. fold pairs. unfold ebind at 1.
  rewrite (any_changed_spec n g h) by done. fold s2. unfold ebind, call, eget, eret.
  unfold s3. destruct (get_executor n s2) as [s3' e]. simpl.
  destruct (get_contents e s3') as [s4 contents]. eexists. split; [done|].
  assert (existsb (λ '(c, p), g c p) pairs = true ↔ ∃ c p, (c, p) ∈ pairs ∧ g c p = true) as He.
  { rewrite existsb_exists. setoid_rewrite <- list_elem_of_In. split.
    - intros ([c p] & ? & ?). eauto.
    - intros (c & p & ? & ?). by exists (c, p). }
  rewrite <- He. destruct (has_builder s4 n); [case_decide as Hsig|];
    rewrite ?orb_true_iff, ?bool_decide_eq_true; naive_solver.
Qed.

(** With no child still to be built, [children_are_up_to_date] says so
    exactly when the node is not always built and no child was built or failed. *)
Theorem children_are_up_to_date_iff `{DepWorld} n s :
  let s1 := (get_binfo n s).1 in
  let '(s2, kids) := children_get n s1 in
  (∀ k, k ∈ kids → n_state (node_of s2 k) ≠ pending ∧ n_state (node_of s2 k) ≠ executing) →
  (children_are_up_to_date n s).2 = true ↔
  always_build (node_of s1 n) = false ∧
  ∀ k, k ∈ kids → n_state (node_of s2 k) = no_state ∨ n_state (node_of s2 k) = up_to_date.
Proof.
  unfold children_are_up_to_date. destruct (get_binfo n s) as [s1 b]. simpl.
  destruct (children_get n s1) as [s2 kids]. intros Hk.
  destruct (always_build (node_of s1 n)); [naive_solver|]. simpl.
  rewrite bool_decide_eq_true. set (l := map (λ k, n_state (node_of s2 k)) kids).
  destruct (max_state_spec l) as (H1 & H2 & H3).
  assert (∀ k, k ∈ l ↔ ∃ i, k = n_state (node_of s2 i) ∧ i ∈ kids) as Hl
    by (intros; apply list_elem_of_fmap).
  split.
  - intros Hm. split; [done|]. intros k Hin. destruct (Hk k Hin) as [Hp He].
    assert (nstate_val (n_state (node_of s2 k)) ≤ max_state l)%Z as Hle by (apply H2, Hl; eauto).
    destruct (n_state (node_of s2 k)); simpl in *; auto; congruence || lia.
  - intros [_ Hall]. destruct H3 as [|(k & (i & -> & Hi)%Hl & ->)]; [by left|].
    destruct (Hall i Hi) as [-> | ->]; [by left|by right].
Qed.

(** C13: [Node.build] runs the actions of the executor in order, the first
    that does not return a false status being the last to run; the error then
    names the node, the executor and, for a status, the action; and it returns
    only when every action returned a false status. *)
Theorem Node_build_runs `{DepWorld} n s :
  let '(s0, e) := get_executor n s in
  let '(s1, v) := get_build_env e s0 in
  let l := get_action_list (exec_of s1 e) in
  ex_kind_of (exec_of s0 e) = ExReal →
  match Node_build n s with
  | (s', Ok _) => all_ok e v l s1 = Some s'
  | (s', Raise x) => ∃ l1 a l2 s2 y,
      l = l1 ++ a :: l2 ∧ all_ok e v l1 s1 = Some s2 ∧
      s' = (act_call a e v s2).1 ∧ fails_at e a (act_call a e v s2) y ∧
      match y with
      | ExBuildError b => ∃ b', x = ExBuildError b' ∧ be_node b' = Some (ANode n) ∧
          be_errstr b' = be_errstr b ∧ be_executor b' = be_executor b ∧
          be_action b' = be_action b
      | _ => x = y
      end
  end.
Proof.
  unfold Node_build. destruct (get_executor n s) as [s0 e].
  destruct (get_build_env e s0) as [s1 v] eqn:Ev. cbn zeta. intros Hk.
  unfold Executor_call. rewrite Hk. unfold do_execute. rewrite Ev.
  pose proof (run_actions_spec e v (get_action_list (exec_of s1 e)) s1) as Hr.
  destruct (run_actions _ _ _ s1) as [s' [st|x]]; [by destruct Hr|].
  destruct Hr as (l1 & a & l2 & s2 & -> & E & -> & Hf).
  destruct x as [b| | | | | |] eqn:Ex; exists l1, a, l2, s2, x; subst x; split_and!;
    try done. by eexists.
Qed.
