(* ===== verification/Walker.v ===== *)
(** * Walking the dependency graph ([Walker] of [SCons/Node/__init__.py])

    The iterator keeps a stack of nodes, the kids each of them has yet to visit
    (the attribute [wkids] of the node) and the set of nodes on the stack.  It
    is compared with the recursive post-order it replaces. *)

From S2P Require Import Prelude Errors.
Open Scope nat_scope.

(** The calls of [cycle_func(node, stack)] and [eval_func(node, parent)]. *)
Inductive event :=
| CycleEvent (n : nid) (stack : list nid)
| EvalEvent (n : nid) (parent : option nid).

(** The stack is written top first; a missing entry of [wkids] is [None]. *)
Record walker := Walker {
  stack : list nid;
  wkids : gmap nid (list nid);
  history : gset nid
}.

Section walker.
(** [kids_func(node, parent)] *)
Variable kids_func : nid → option nid → list nid.

Definition wkids_of (w : walker) (n : nid) : list nid := default [] (wkids w !! n).

Definition Walker_init (node : nid) : walker :=
  Walker [node] {[node := kids_func node None]} {[node]}.

(** One turn of the loop of [next]: the walker, the calls made, and the node
    returned if the turn returns; [None] when the stack is empty. *)
Definition turn (w : walker) : option (walker * list event * option nid) :=
  match stack w with
  | [] => None
  | top :: rest =>
      match wkids_of w top with
      | node :: kids =>
          let wk := match kids with
                    | [] => delete top (wkids w)
                    | _ => <[top := kids]> (wkids w)
                    end in
          if decide (node ∈ history w)
          then Some (Walker (stack w) wk (history w), [CycleEvent node (stack w)], None)
          else Some (Walker (node :: stack w) (<[node := kids_func node (Some top)]> wk)
                       ({[node]} ∪ history w), [], None)
      | [] =>
          Some (Walker rest (wkids w) (history w ∖ {[top]}),
                [EvalEvent top (head rest)], Some top)
      end
  end.

Fixpoint Walker_next (fuel : nat) (w : walker)
    : option (walker * list event * option nid) :=
  match fuel with
  | O => None
  | S fuel =>
      match turn w with
      | None => Some (w, [], None)
      | Some (w, evs, Some n) => Some (w, evs, Some n)
      | Some (w, evs, None) =>
          match Walker_next fuel w with
          | Some (w, evs', r) => Some (w, evs ++ evs', r)
          | None => None
          end
      end
  end.

Definition is_done (w : walker) : bool := bool_decide (stack w = []).

(** Calling [next] until it returns [None]: the nodes returned. *)
Fixpoint Walker_all (calls fuel : nat) (w : walker) : option (list nid) :=
  match calls with
  | O => None
  | S calls =>
      match Walker_next fuel w with
      | None => None
      | Some (_, _, None) => Some []
      | Some (w, _, Some n) => l ← Walker_all calls fuel w; Some (n :: l)
      end
  end.

(** The recursive post-order: the kids that are not on the path, then the node. *)
Fixpoint postorder (depth : nat) (path : list nid) (n : nid) : list nid :=
  match depth with
  | O => []
  | S depth =>
      flat_map (λ k, if decide (k ∈ n :: path) then []
                     else postorder depth (n :: path) k)
        (kids_func n (head path)) ++ [n]
  end.

(** ** Theorems *)

(** A number of turns, with the nodes returned on the way. *)
Fixpoint turns (k : nat) (w : walker) : option (walker * list nid) :=
  match k with
  | O => Some (w, [])
  | S k =>
      '(w1, _, r) ← turn w;
      '(w2, l) ← turns k w1;
      Some (w2, match r with Some n => n :: l | None => l end)
  end.

Lemma turns_app k j w1 l1 w2 l2 w3 :
  turns k w1 = Some (w2, l1) → turns j w2 = Some (w3, l2) →
  turns (k + j) w1 = Some (w3, l1 ++ l2).
Proof.
  revert w1 l1. induction k as [|k IH]; intros w1 l1; simpl.
  { by intros [= -> <-]. }
  destruct (turn w1) as [[[w evs] r]|]; simpl; [|done].
  destruct (turns k w) as [[w' l]|] eqn:E; simpl; [|done]. intros [= -> <-] Hj.
  rewrite (IH w l E Hj). simpl. by destruct r.
Qed.

(** A path of distinct nodes below the bound, which is what the stack is. *)
Record path_ok (U : gset nid) (w : walker) : Prop := {
  po_nodup : NoDup (stack w);
  po_hist : history w = list_to_set (stack w);
  po_in : ∀ n, n ∈ stack w → n ∈ U
}.

Variable U : gset nid.
Hypothesis U_closed : ∀ n p k, n ∈ U → k ∈ kids_func n p → k ∈ U.

(** The visit of the top of the stack, whose kids left are [ks]. *)
Definition visits (depth : nat) (n : nid) (path : list nid) (ks : list nid) (w : walker) : Prop :=
  ∃ k w', turns k w =
      Some (w', flat_map (λ k, if decide (k ∈ n :: path) then []
                               else postorder depth (n :: path) k) ks ++ [n]) ∧
    stack w' = path ∧ history w' = history w ∖ {[n]} ∧
    ∀ m, m ∈ path → wkids_of w' m = wkids_of w m.

Lemma wkids_pop w top node kids m wk :
  wkids_of w top = node :: kids →
  wk = (match kids with [] => delete top (wkids w) | _ => <[top := kids]> (wkids w) end) →
  default [] (wk !! m) = if decide (m = top) then kids else wkids_of w m.
Proof.
  intros Ht ->. unfold wkids_of. destruct (decide (m = top)) as [->|Hne]; destruct kids.
  - by rewrite lookup_delete_eq.
  - by rewrite lookup_insert_eq.
  - by rewrite lookup_delete_ne.
  - by rewrite lookup_insert_ne.
Qed.

Lemma visit_kids depth n path ks w :
  size U ≤ depth + length (n :: path) →
  (∀ k w, path_ok U w → stack w = k :: n :: path →
     wkids_of w k = kids_func k (Some n) → ∀ d, S d = depth →
     visits d k (n :: path) (kids_func k (Some n)) w) →
  path_ok U w → stack w = n :: path → wkids_of w n = ks → (∀ k, k ∈ ks → k ∈ U) →
  visits depth n path ks w.
Proof.
  intros Hd Hsub. revert w. induction ks as [|node ks IH]; intros w Hw Hst Hks HU.
  { exists 1, (Walker path (wkids w) (history w ∖ {[n]})). simpl.
    unfold turn. rewrite Hst, Hks. done. }
  destruct Hw as [Hnd Hh Hin]. rewrite Hst in *.
  set (wk := match ks with [] => delete n (wkids w) | _ => <[n := ks]> (wkids w) end).
  pose proof (λ m, wkids_pop w n node ks m wk Hks eq_refl) as Hwk.
  assert (node ∈ history w ↔ node ∈ n :: path) as Hmem by (by rewrite Hh, elem_of_list_to_set).
  destruct (decide (node ∈ n :: path)) as [Hc|Hc].
  - destruct (IH (Walker (stack w) wk (history w))) as (k & w' & Hk & H1 & H2 & H3);
      [by split; simpl; rewrite Hst|done| |set_solver|].
    { unfold wkids_of at 1. simpl. rewrite Hwk. by rewrite decide_True. }
    exists (S k), w'. simpl. unfold turn. rewrite Hst, Hks, decide_True by (by rewrite Hmem).
    fold wk. simpl in *. rewrite Hst in Hk. rewrite Hk. simpl. rewrite decide_True by done.
    split_and!; try done. intros m Hm. rewrite H3 by done.
    unfold wkids_of at 1. simpl. rewrite Hwk. apply NoDup_cons in Hnd as [Hn _].
    rewrite decide_False; [done|]. intros ->. done.
  - set (w1 := Walker (node :: n :: path) (<[node := kids_func node (Some n)]> wk)
                 ({[node]} ∪ history w)).
    assert (path_ok U w1) as Hw1.
    { split; simpl; [by constructor|by rewrite Hh|]. intros m [->|Hm]%elem_of_cons; [|auto].
      apply HU. by left. }
    destruct depth as [|depth].
    { exfalso. assert (length (node :: n :: path) ≤ size U); [|simpl in *; lia].
      rewrite <- (size_list_to_set (C:=gset nid)) by (by constructor).
      apply subseteq_size. intros m Hm%elem_of_list_to_set. by apply (po_in _ _ Hw1). }
    destruct (Hsub node w1 Hw1 eq_refl) with (d := depth) as (k & w2 & Hk & H1 & H2 & H3);
      [unfold wkids_of; simpl; by rewrite lookup_insert_eq|done|].
    destruct (IH w2) as (j & w3 & Hj & J1 & J2 & J3).
    { split; rewrite ?H1, ?H2; simpl; [done| |done]. rewrite Hh. set_solver. }
    { done. }
    { rewrite H3 by by left. unfold wkids_of. simpl. rewrite lookup_insert_ne by set_solver.
      rewrite Hwk. by rewrite decide_True. }
    { set_solver. }
    exists (S (k + j)), w3. split_and!; [|done| |].
    + cbn [turns]. unfold turn at 1. rewrite Hst, Hks, decide_False by (by rewrite Hmem).
      fold wk. cbn [mbind option_bind]. fold w1.
      rewrite (turns_app _ _ _ _ _ _ _ Hk Hj). cbn [mbind option_bind flat_map].
      rewrite (decide_False (P := node ∈ n :: path)) by done. cbn [postorder head].
      by rewrite <- !app_assoc.
    + rewrite J2, H2. simpl. rewrite Hh. set_solver.
    + intros m Hm. rewrite J3, H3 by (done || by right). unfold wkids_of at 1. simpl.
      rewrite lookup_insert_ne by set_solver. rewrite Hwk.
      apply NoDup_cons in Hnd as [Hn _]. rewrite decide_False; [done|]. by intros ->.
Qed.

Lemma visit_node depth n path w :
  size U ≤ depth + length (n :: path) →
  path_ok U w → stack w = n :: path → wkids_of w n = kids_func n (head path) →
  visits depth n path (kids_func n (head path)) w.
Proof.
  revert n path w. induction depth as [|depth IH]; intros n path w Hd Hw Hst Hks;
    (apply visit_kids; [done| |done|done|done|]).
  - intros. lia.
  - intros k Hk. apply (U_closed n (head path)); [|done]. apply (po_in _ _ Hw). rewrite Hst. by left.
  - intros k w1 Hw1 Hst1 Hks1 d [= ->]. apply IH; [simpl in *; lia|done..].
  - intros k Hk. apply (U_closed n (head path)); [|done]. apply (po_in _ _ Hw). rewrite Hst. by left.
Qed.

(** Turns grouped into calls of [next]. *)
Lemma turns_all k w w' l fuel calls :
  turns k w = Some (w', l) → stack w' = [] → k < fuel → length l < calls →
  Walker_all calls fuel w = Some l.
Proof.
  revert w l calls. induction k as [k IH] using lt_wf_ind.
  intros w l calls Hk Hs Hf Hc.
  assert (∀ j v lv f, j ≤ k → turns j v = Some (w', lv) → j < f →
    match Walker_next f v with
    | Some (_, _, None) => lv = []
    | Some (v', _, Some n) => ∃ lv' i, lv = n :: lv' ∧ i < j ∧ turns i v' = Some (w', lv')
    | None => False
    end) as Hnext.
  { clear -Hs. induction j as [|j IHj]; intros v lv f Hj Ht Hf; (destruct f as [|f]; [lia|]); simpl in *.
    - injection Ht as -> <-. unfold turn. by rewrite Hs.
    - destruct (turn v) as [[[v1 evs] r]|]; simpl in Ht; [|done].
      destruct (turns j v1) as [[v2 l2]|] eqn:E; simpl in Ht; [|done].
      injection Ht as -> <-. destruct r as [n|]; [by exists l2, j; auto with lia|].
      specialize (IHj v1 l2 f ltac:(lia) E ltac:(lia)).
      destruct (Walker_next f v1) as [[[v3 evs'] [n|]]|]; try done.
      destruct IHj as (lv' & i & -> & ? & ?). exists lv', i. split_and!; auto with lia. }
  destruct calls as [|calls]; [lia|]. simpl. specialize (Hnext k w l fuel (le_n _) Hk Hf).
  destruct (Walker_next fuel w) as [[[v evs] [n|]]|]; [|by subst|done].
  destruct Hnext as (l' & i & -> & Hi & Ht). simpl in Hc.
  rewrite (IH i Hi v l' calls Ht Hs); [done|lia|lia].
Qed.
End walker.

(** C14: on every finite graph, with or without cycles, the iterator ends, and
    the nodes it returns are those of the recursive post-order that does not
    go back to a node of the current path: each node after its kids, and the
    root last. *)
Theorem Walker_postorder kids_func (U : gset nid) root :
  (∀ n p k, n ∈ U → k ∈ kids_func n p → k ∈ U) → root ∈ U →
  ∃ calls fuel, Walker_all kids_func calls fuel (Walker_init kids_func root) =
    Some (postorder kids_func (size U) [] root).
Proof.
  intros HU Hr.
  assert (size U ≠ 0) as Hne by (intros E%size_empty_inv; set_solver).
  destruct (size U) as [|depth] eqn:Ed; [done|].
  destruct (visit_node kids_func U HU depth root [] (Walker_init kids_func root))
    as (k & w' & Hk & Hs & _ & _).
  - simpl. lia.
  - split; simpl; [apply NoDup_singleton|set_solver|set_solver].
  - done.
  - unfold wkids_of. simpl. by rewrite lookup_singleton_eq.
  - do 2 eexists. eapply turns_all; [exact Hk|done|apply Nat.lt_succ_diag_r|].
    apply Nat.lt_succ_diag_r.
Qed.

(** A graph with a cycle: 0 needs 1 and 2, both of which need 3, and 3 needs 1. *)
Example Walker_postorder_witness :
  ∃ calls fuel,
    Walker_all (λ n _, nth n [[1; 2]; [3]; [3]; [1]] []) calls fuel
      (Walker_init (λ n _, nth n [[1; 2]; [3]; [3]; [1]] []) 0) = Some [3; 1; 1; 3; 2; 0].
Proof.
  edestruct (Walker_postorder (λ n _, nth n [[1; 2]; [3]; [3]; [1]] [])
    (list_to_set [0; 1; 2; 3]) 0) as (calls & fuel & E).
  - intros n p k Hn. destruct n as [|[|[|[|n]]]]; simpl; set_solver.
  - set_solver.
  - exists calls, fuel. rewrite E. vm_compute. reflexivity.
Defined.
