(* ===== verification/NodeWitness.v ===== *)
(** * Children and signatures of nodes: concrete runs

    A small world in which the theorems of [NodeFacts] apply, and a run in which
    cached implicit dependencies leave a stale list of children behind. *)

From S2P Require Import Prelude Errors NodeState PyStr Util NodeData Executor Node.
From S2P Require Import NodeFacts.
Open Scope nat_scope.

#[local] Instance demo_types : DepTypes := {| env := unit; path := unit; pinfo := nat |}.

(** [includes] is what the scanner finds, [status] what an action returns,
    [cached] the stored implicit dependencies. *)
Definition demo_dep (includes : nid → list nid) (status : action → act_status)
    (cached : nid → option (list nid)) : DepWorld := {|
  Override _ _ := tt;
  DefaultEnvironment := tt;
  NullEnvironment := tt;
  act_call a e v := λ s, (s, Ok (status a));
  act_contents a _ _ _ := pretty a;
  act_genstring a _ _ _ := pretty a;
  act_implicit_deps _ _ _ _ := [];
  scanner_select sc _ := Some sc;
  scanner_path _ _ _ _ _ := tt;
  recurse_nodes _ l := filter (λ _, True) l;
  env_scanner _ _ := Some 0;
  get_found_includes n _ _ _ := includes n;
  rexists _ := true;
  node_str := pretty;
  get_stored_info _ := Some (BuildInfo [1] [7] [] [] [] [] None (Some "5"));
  get_stored_implicit := cached;
  is_up_to_date n := λ s, ((children_get n s).1, Ok false);
  changed_since_last_build c n p := λ s, (s, Ok (bool_decide (p = None)));
  MD5signature s := s
|}.

Definition v0 : env := tt.
Definition p0 : path := tt.

(** Node 0 is built by the action 5 from the source 1. *)
Definition demo_store : dstore :=
  add_source 0 [1]
    (builder_set 0 (Some (Builder 5 None ∅ None (Some 0))) (DStore ∅ ∅ 0)).

Lemma demo_store_ok : store_ok demo_store.
Proof. apply store_ok_add_source, store_ok_builder_set, store_ok_empty. Qed.

(** 1 includes 2, 2 includes 3 and 1. *)
Definition demo_includes (n : nid) : list nid :=
  match n with 1 => [2] | 2 => [3; 1] | _ => [] end.

Section runs.
#[local] Instance demo_world1 : DepWorld := demo_dep demo_includes (λ _, ActOk) (λ _, None).

Example get_implicit_deps_reachable_witness :
  Node_get_implicit_deps 20 1 v0 (Some 0) p0 = Some [2; 3].
Proof.
  edestruct (get_implicit_deps_reachable 1 v0 0 p0 (λ _, True)
    (list_to_set [0; 1; 2; 3]) 2 20) as (deps & E & _).
  - done.
  - set_solver.
  - intros y x _. destruct y as [|[|[|y]]]; simpl; set_solver.
  - intros y _. destruct y as [|[|[|y]]]; simpl; lia.
  - vm_compute. lia.
  - vm_compute in E. injection E as <-. vm_compute. reflexivity.
Defined.

Definition demo_scanned : dstore := (get_executor 0 demo_store).1.

Example Executor_scan_records_witness :
  ∃ s', Executor_scan 20 0 None [1] demo_scanned = (s', Ok tt) ∧ store_ok s'.
Proof.
  eexists. split; [reflexivity|].
  eapply (Executor_scan_records 20 0 None [1] demo_scanned); [|reflexivity].
  apply store_ok_get_executor, demo_store_ok.
Defined.

Example children_current_witness :
  ∃ s', children false false false 20 0 demo_store = (s', Ok [1; 2; 3]) ∧ store_ok s'.
Proof.
  destruct (children false false false 20 0 demo_store) as [s' r] eqn:E.
  assert (r = Ok [1; 2; 3]) as ->
    by (change r with (s', r).2; rewrite <- E; vm_compute; reflexivity).
  exists s'. split; [done|].
  exact (proj1 (proj2 (children_current false false 20 0 [] demo_store demo_store_ok) s' _ E)).
Defined.

Example get_binfo_aligned_witness :
  ∃ b, (get_binfo 0 demo_store).2 = b ∧ bsources b = [1] ∧
    n_binfo (node_of (get_binfo 0 demo_store).1 0) = Some b.
Proof.
  pose proof (get_binfo_aligned 0 demo_store demo_store_ok eq_refl
    (or_intror (conj eq_refl eq_refl))) as Hb.
  destruct (get_binfo 0 demo_store) as [s' b] eqn:E. exists b. split; [done|].
  split; [|apply Hb]. change b with (s', b).2. rewrite <- E. vm_compute. reflexivity.
Defined.

Example changed_exactly_witness :
  ∃ s r, changed false false false 20 0 None demo_store = (s, Ok r).
Proof.
  destruct (children false false false 20 0 demo_store) as [s1 [cs|]] eqn:E;
    [|by exfalso; vm_compute in E].
  pose proof (changed_exactly false false false 20 0 None demo_store s1 cs
    (BuildInfo [1] [7] [] [] [] [] None (Some "5"))
    (λ _ p, bool_decide (p = None)) (λ _ _ s, s) eq_refl (λ _ _ _, eq_refl) E) as Hc.
  simpl in Hc. destruct (get_contents _ _) as [s4 c]. destruct Hc as (r & Hr & _). eauto.
Defined.

Example children_are_up_to_date_iff_witness :
  (children_are_up_to_date 0 demo_store).2 = true.
Proof.
  pose proof (children_are_up_to_date_iff 0 demo_store) as Hc. cbn zeta in Hc.
  destruct (children_get 0 (get_binfo 0 demo_store).1) as [s2 kids] eqn:E.
  assert (kids = [1]) as ->
    by (change kids with (s2, kids).2; rewrite <- E; vm_compute; reflexivity).
  assert (n_state (node_of s2 1) = no_state) as Hs
    by (assert (s2 = (children_get 0 (get_binfo 0 demo_store).1).1) as -> by (by rewrite E);
        vm_compute; reflexivity).
  apply Hc.
  - intros k ->%list_elem_of_singleton. by rewrite Hs.
  - split; [vm_compute; reflexivity|]. intros k ->%list_elem_of_singleton. by left.
Defined.
End runs.

(** An action that fails with the status 2. *)
Section failing_action.
#[local] Instance demo_world2 : DepWorld :=
  demo_dep demo_includes (λ a, if decide (a = 5) then ActStatus 2 else ActOk) (λ _, None).

Example Node_build_runs_witness :
  ∃ s' x, Node_build 0 demo_store = (s', Raise x).
Proof.
  pose proof (Node_build_runs 0 demo_store) as Hn.
  destruct (get_executor 0 demo_store) as [s0 e] eqn:E.
  destruct (get_build_env e s0) as [s1 v] eqn:Ev.
  assert (ex_kind_of (exec_of s0 e) = ExReal) as Hk.
  { change s0 with (s0, e).1. change e with (s0, e).2 at 2. rewrite <- E. vm_compute. reflexivity. }
  specialize (Hn Hk).
  destruct (Node_build 0 demo_store) as [s' [u|x]] eqn:Eb; [|eauto].
  exfalso. vm_compute in Eb. discriminate.
Defined.
End failing_action.

(** ** A stale list of children

    The stored implicit dependency 2 of node 0 is gone: the scanner finds
    nothing any more.  With [--implicit-cache], [scan] first adds the stored
    dependency, [is_up_to_date] has the children memoised with it, and then
    [implicit] is emptied without a reset; the new scan adds nothing, so the
    memoised list stays. *)
Section stale.
#[local] Instance demo_world3 : DepWorld :=
  demo_dep (λ _, []) (λ _, ActOk) (λ n, if decide (n = 0) then Some [2] else None).

(** After this scan [children] returns the dependency that is gone. *)
Theorem implicit_cache_stale :
  ∃ s', children true false false 20 0 demo_store = (s', Ok [1; 2]) ∧
    implicit (node_of s' 0) = Some [] ∧ compute_children (node_of s' 0) = [1].
Proof. eexists. split; [vm_compute; reflexivity|]. split; reflexivity. Qed.
End stale.
