(* ===== verification/Engine.v ===== *)
(** * The engine on real nodes: [NodeWorld] from [Node/__init__.py] and [Executor.py]

    The task master is written against the interface [NodeWorld]; this file
    builds that interface from the nodes and executors of [NodeData], [Executor]
    and [Node].  The methods that subclasses of [Node] override are the class
    [NodeMethods], of which [Node] itself is an instance. *)

From S2P Require Import Prelude Errors NodeState PyStr Util Taskmaster.
From S2P Require Import NodeData Executor Node.
Open Scope nat_scope.

(** The methods of [Node] that its subclasses override, and what an action tells
    of its targets ([Action.get_targets] with the variables of the executor). *)
Class NodeMethods `{DepWorld} := {
  nm_alter_targets : dstore → nid → list nid * option string;
  nm_make_ready : nid → eff dstore exn unit;
  nm_retrieve_from_cache : nid → eff dstore exn bool;
  nm_push_to_cache : nid → dstore → dstore;
  nm_ninfo_update : nid → dstore → dstore;
  nm_store_info : nid → dstore → dstore;
  nm_repr : nid → string;
  act_targets : action → executor → list nid
}.

(** The methods of [Node] itself; [repr] and the targets of an action are not its. *)
Definition Node_methods `{DepWorld} (repr : nid → string)
    (targets : action → executor → list nid) : NodeMethods := {|
  nm_alter_targets _ _ := ([], None);
  nm_make_ready _ := eret tt;
  nm_retrieve_from_cache _ := eret false;
  nm_push_to_cache _ s := s;
  nm_ninfo_update _ s := s;
  nm_store_info _ s := s;
  nm_repr := repr;
  act_targets := targets
|}.

Section data.
Context `{DepTypes}.

Definition with_n_state st (d : dnode) : dnode :=
  let '(DNode so sos ss dp ds ig igs pq im ims wp en _ ab se ses lk bd ex me mc bi ni) := d in
  DNode so sos ss dp ds ig igs pq im ims wp en st ab se ses lk bd ex me mc bi ni.
Definition with_n_waiting wp (d : dnode) : dnode :=
  let '(DNode so sos ss dp ds ig igs pq im ims _ en st ab se ses lk bd ex me mc bi ni) := d in
  DNode so sos ss dp ds ig igs pq im ims wp en st ab se ses lk bd ex me mc bi ni.

(** The scheduling state is kept by the task master: the states of the nodes of
    the store as it sees them. *)
Definition with_states (st : nid → nstate) (s : dstore) : dstore :=
  DStore (map_imap (λ n d, Some (with_n_state (st n) d)) (d_nodes s)) (d_execs s) (d_next s).
End data.

(** A search that is out of fuel; [engine_builds] shows that none is. *)
Definition out_of_fuel : exn := ExOther "RuntimeError" "out of fuel".
Definition bounded {S A} (m : eff S fexn A) : eff S exn A := λ s,
  match m s with
  | (s, Ok a) => (s, Ok a)
  | (s, Raise (Some e)) => (s, Raise e)
  | (s, Raise None) => (s, Raise out_of_fuel)
  end.

Section engine.
Context `{NodeMethods}.
Variables implicit_cache implicit_deps_unchanged implicit_deps_changed : bool.
(** The bound of the searches for implicit dependencies. *)
Variable fuel : nat.

(** What [node.get_executor().m()] gives, for an [m] that only reads. *)
Definition of_executor {A} (f : dstore → eid → A) (s : dstore) (n : nid) : A :=
  let '(s, e) := get_executor n s in f s e.

(** [Executor.get_action_targets] *)
Definition get_action_targets (s : dstore) (e : eid) : list nid :=
  let x := exec_of s e in
  match ex_kind_of x, action_list x with
  | ExNull, _ | _, [] => []
  | _, a :: _ => act_targets a x
  end.

(** [Executor.get_action_side_effects] *)
Definition get_action_side_effects (s : dstore) (e : eid) : list nid :=
  (ul_list (foldl (λ u t, ul_extend u (n_side_effects (node_of s t)))
              (ul_init []) (get_action_targets s e))).2.

Definition engine_children (n : nid) : eff dstore exn (list nid) :=
  (let! e := call (get_executor n) in
   let! u := bounded (get_all_children implicit_cache implicit_deps_unchanged
                        implicit_deps_changed fuel e) in
   eret (ul_list u).2)%eff.

(** [Node.visited] *)
Definition Node_visited (n : nid) (s : dstore) : dstore :=
  match n_binfo (node_of s n) with
  | None => s
  | Some _ => nm_store_info n (nm_ninfo_update n s)
  end.

(** [Node.built], for the waiting parents that the task master keeps. *)
Definition Node_built (parents : gset nid) (n : nid) (s : dstore) : dstore :=
  nm_ninfo_update n (built n (upd_node n (with_n_waiting parents) s)).

#[export] Instance engine_world : NodeWorld dstore := {|
  Taskmaster.get_all_targets := of_executor (λ s e, get_all_targets (exec_of s e));
  Taskmaster.get_action_targets := of_executor get_action_targets;
  Taskmaster.get_all_children := engine_children;
  Taskmaster.get_all_prerequisites :=
    of_executor (λ s e, (ul_list (get_all_prerequisites e s).2).2);
  Taskmaster.get_action_side_effects := of_executor get_action_side_effects;
  Taskmaster.executor_prepare n := (let! e := call (get_executor n) in Executor_prepare e)%eff;
  Taskmaster.side_effects s n := n_side_effects (node_of s n);
  Taskmaster.alter_targets := nm_alter_targets;
  Taskmaster.prepare := Node_prepare;
  Taskmaster.make_ready := nm_make_ready;
  Taskmaster.has_builder := has_builder;
  Taskmaster.always_build s n := always_build (node_of s n);
  Taskmaster.is_up_to_date st n := (emod (with_states st) ;;; is_up_to_date n)%eff;
  Taskmaster.retrieve_from_cache := nm_retrieve_from_cache;
  Taskmaster.build := Node_build;
  Taskmaster.push_to_cache := nm_push_to_cache;
  Taskmaster.built := Node_built;
  Taskmaster.visited := Node_visited;
  Taskmaster.executor_cleanup := executor_cleanup;
  Taskmaster.node_str _ := node_str;
  Taskmaster.node_repr _ := nm_repr
|}.
End engine.
