(* ===== verification/EngineFacts.v ===== *)
(** * A serial build of real nodes

    The interface of the task master holds of the nodes and executors: on the
    states [good] of the store the calls return and keep to these states, the
    children found are those the graph allows, and the theorem on serial builds
    applies. *)

From S2P Require Import Prelude Errors NodeState PyStr Util Taskmaster TaskmasterFacts.
From S2P Require Import TaskmasterWitness Job SerialFacts NodeData Executor Node NodeFacts Engine.
Open Scope nat_scope.

(** ** What stays *)

Section stays.
Context `{DepWorld}.
Implicit Types s : dstore.

(** The attributes that a build does not change. *)
Definition static (d : dnode) :=
  (sources d, depends d, ignore_set d, prerequisites d, n_builder d,
   side_effect d, n_side_effects d, linked d).

(** What a call that only memoises and makes signature objects leaves alone. *)
Definition lasting (d : dnode) := (static d, implicit d, memo_children d, n_executor d).
Definition shape (x : executor) := (ex_kind_of x, batches x).

Record stays s s' : Prop := {
  st_nodes : ∀ n, lasting (node_of s' n) = lasting (node_of s n);
  st_execs : ∀ e, shape (exec_of s' e) = shape (exec_of s e);
  st_next : d_next s ≤ d_next s'
}.

#[global] Instance stays_po : PreOrder stays.
Proof.
  split; [by intros s|]. intros s1 s2 s3 [N1 E1 L1] [N2 E2 L2].
  split; [intros n|intros e|lia]; [by rewrite N2, N1|by rewrite E2, E1].
Qed.

Lemma stays_upd n f s : (∀ d, lasting (f d) = lasting d) → stays s (upd_node n f s).
Proof.
  intros Hf. split; [|done..]. intros m. rewrite node_of_upd. case_decide; subst; [apply Hf|done].
Qed.

Lemma stays_upd_exec e f s : (∀ x, shape (f x) = shape x) → stays s (upd_exec e f s).
Proof.
  intros Hf. split; [done| |done]. intros e'. unfold exec_of, upd_exec. cbn [d_execs].
  destruct (decide (e = e')) as [->|]; [rewrite lookup_insert_eq; apply Hf|by rewrite lookup_insert_ne].
Qed.

Lemma stays_get_build_env e s : stays s (get_build_env e s).1.
Proof.
  unfold get_build_env. destruct (ex_kind_of (exec_of s e)), (ex_memo_env (exec_of s e)); try done;
    cbn [fst]; by apply stays_upd_exec; intros [].
Qed.

Lemma stays_Executor_str e s : stays s (Executor_str e s).1.
Proof.
  unfold Executor_str. destruct (ex_kind_of _); try done.
  pose proof (stays_get_build_env e s). by destruct (get_build_env e s).
Qed.

Lemma stays_get_contents e s : stays s (get_contents e s).1.
Proof.
  unfold get_contents. pose proof (stays_get_build_env e s) as Hb.
  destruct (ex_kind_of (exec_of s e)), (ex_memo_contents (exec_of s e)); try done;
    destruct (get_build_env e s); (etrans; [exact Hb|cbn [fst]; by apply stays_upd_exec; intros []]).
Qed.

Lemma stays_get_unignored e n l s : stays s (get_unignored_sources e n l s).1.
Proof.
  unfold get_unignored_sources.
  destruct (ex_kind_of (exec_of s e)), (ex_memo_unignored (exec_of s e) !! (n, l)); try done;
    cbn [fst]; by apply stays_upd_exec; intros [].
Qed.

Lemma stays_get_ninfo n s : stays s (get_ninfo n s).1.
Proof.
  unfold get_ninfo. destruct (n_ninfo _); [done|]. unfold new_ninfo. cbn [fst].
  transitivity (DStore (d_nodes s) (d_execs s) (S (d_next s))).
  - split; cbn; [done..|lia].
  - apply stays_upd. by intros [].
Qed.

Lemma stays_get_ninfos l s : stays s (get_ninfos l s).1.
Proof.
  revert s. induction l as [|n l IH]; intros s; [done|]. cbn [get_ninfos].
  pose proof (stays_get_ninfo n s) as H1. destruct (get_ninfo n s) as [s1 x].
  pose proof (IH s1) as H2. destruct (get_ninfos l s1). by transitivity s1.
Qed.

Lemma stays_binfo_sources n e s : stays s (binfo_sources n e s).1.
Proof.
  unfold binfo_sources. destruct (specific_sources _); [done|].
  pose proof (stays_get_unignored e (Some n) (ignore (node_of s n)) s) as H1.
  by destruct (get_unignored_sources _ _ _ _).
Qed.

(** After the executor is there, [get_binfo] only memoises. *)
Lemma stays_get_binfo n s : stays (get_executor n s).1 (get_binfo n s).1 ∨ (get_binfo n s).1 = s.
Proof.
  unfold get_binfo. destruct (n_binfo _); [by right|left].
  destruct (get_executor n s) as [s1 e]. cbn [fst].
  assert (∀ s2 (str sig : option string), stays s1 s2 →
    stays s1 (let '(s, srcs) := binfo_sources n e s2 in
      let '(s, srcsigs) := get_ninfos srcs s in
      let d := node_of s n in
      let '(s, depsigs) := get_ninfos (unignored d (depends d)) s in
      let '(s, impsigs) := get_ninfos (unignored d (default [] (implicit d))) s in
      let b := BuildInfo srcs srcsigs (depends d) depsigs (default [] (implicit d)) impsigs str sig in
      (upd_node n (with_binfo (Some b)) s, b)).1) as Hrest.
  { intros s2 str sig Hs2. pose proof (stays_binfo_sources n e s2) as H2.
    destruct (binfo_sources n e s2) as [s3 srcs]. pose proof (stays_get_ninfos srcs s3) as H3.
    destruct (get_ninfos srcs s3) as [s4 sg]. cbv zeta. set (d := node_of s4 n).
    pose proof (stays_get_ninfos (unignored d (depends d)) s4) as H4.
    destruct (get_ninfos (unignored d (depends d)) s4) as [s5 dg].
    pose proof (stays_get_ninfos (unignored d (default [] (implicit d))) s5) as H5.
    destruct (get_ninfos (unignored d (default [] (implicit d))) s5) as [s6 ig]. cbn [fst] in *.
    do 5 (etrans; [eassumption|]). apply stays_upd. by intros []. }
  destruct (has_builder s1 n); [|by apply Hrest].
  pose proof (stays_Executor_str e s1) as H2. destruct (Executor_str e s1) as [s2 str].
  pose proof (stays_get_contents e s2) as H3. destruct (get_contents e s2) as [s3 c].
  apply Hrest. by etrans.
Qed.

Lemma stays_with_states st s : stays s (with_states st s).
Proof.
  split; [|done..]. intros n. unfold node_of, with_states. cbn [d_nodes].
  rewrite map_lookup_imap. by destruct (d_nodes s !! n) as [[]|].
Qed.
End stays.

(** ** The states of a build *)

Section engine_facts.
Context `{NodeMethods}.
Implicit Types s : dstore.

(** The project: the store at the start; for each node what it may depend on,
    the nodes built with it, and the files its text may name. *)
Variables (s0 : dstore) (v : gset nid) (deps group incl : nid → list nid) (rank : nid → nat).

(** An executor of the nodes built with [n]. *)
Definition fits (n : nid) (x : executor) : Prop :=
  get_all_targets x = group n ∧
  match ex_kind_of x with
  | ExNull => n_builder (node_of s0 n) = None
  | _ => batches x ≠ [] ∧ ∀ c, c ∈ concat (map b_sources (batches x)) → c ∈ deps n
  end.

(** What a memoised list of children must hold, and may. *)
Definition memo_fits (n : nid) (l : list nid) : Prop :=
  (∀ c, c ∈ l → c ∈ deps n) ∧
  ∀ c, c ∈ sources (node_of s0 n) ++ depends (node_of s0 n) → c ∉ ignore_set (node_of s0 n) → c ∈ l.

Record good s : Prop := {
  g_static : ∀ n, static (node_of s n) = static (node_of s0 n);
  g_implicit : ∀ n c, c ∈ default [] (implicit (node_of s n)) → c ∈ deps n;
  g_memo : ∀ n l, memo_children (node_of s n) = Some l → memo_fits n l;
  g_exec : ∀ n e, n_executor (node_of s n) = Some e →
    e < d_next s ∧ fits n (exec_of s e) ∧ ∀ m, m ∈ group n → n_executor (node_of s m) = Some e;
  g_none : ∀ n, n_executor (node_of s n) = None → group n = [n]
}.

(** The attributes one by one. *)
Record same_static (d d' : dnode) : Prop := {
  ss_sources : sources d = sources d';
  ss_depends : depends d = depends d';
  ss_ignore : ignore_set d = ignore_set d';
  ss_prerequisites : prerequisites d = prerequisites d';
  ss_builder : n_builder d = n_builder d';
  ss_side_effect : side_effect d = side_effect d';
  ss_side_effects : n_side_effects d = n_side_effects d';
  ss_linked : linked d = linked d'
}.
Lemma good_static s n : good s → same_static (node_of s n) (node_of s0 n).
Proof.
  intros Hg. pose proof (g_static s Hg n) as E. unfold static in E.
  injection E as ? ? ? ? ? ? ? ?. by split.
Qed.

Lemma fits_shape n x x' : shape x' = shape x → fits n x → fits n x'.
Proof.
  unfold shape, fits, get_all_targets. intros [= -> ->]. done.
Qed.

Lemma good_stays s s' : stays s s' → good s → good s'.
Proof.
  intros [Hn He Hl] [Gs Gi Gm Gx Gn].
  assert (∀ n, static (node_of s' n) = static (node_of s n) ∧
    implicit (node_of s' n) = implicit (node_of s n) ∧
    memo_children (node_of s' n) = memo_children (node_of s n) ∧
    n_executor (node_of s' n) = n_executor (node_of s n)) as E.
  { intros n. split_and!; [exact (f_equal (λ t, t.1.1.1) (Hn n))|exact (f_equal (λ t, t.1.1.2) (Hn n))|
      exact (f_equal (λ t, t.1.2) (Hn n))|exact (f_equal (λ t, t.2) (Hn n))]. }
  split; intros n; destruct (E n) as (E1 & E2 & E3 & E4); rewrite ?E1, ?E2, ?E3, ?E4; auto.
  intros e Hx. destruct (Gx n e Hx) as (? & Hf & Hm). split_and!; [lia|by eapply fits_shape; [apply He|]|].
  intros m. destruct (E m) as (_ & _ & _ & ->). apply Hm.
Qed.

Lemma good_upd n f s :
  (∀ d, static (f d) = static d ∧ n_executor (f d) = n_executor d) →
  (∀ c, c ∈ default [] (implicit (f (node_of s n))) → c ∈ deps n) →
  (∀ l, memo_children (f (node_of s n)) = Some l → memo_fits n l) →
  good s → good (upd_node n f s).
Proof.
  intros Hf Hi Hm [Gs Gi Gm Gx Gn].
  assert (∀ m, n_executor (node_of (upd_node n f s) m) = n_executor (node_of s m)) as Hx.
  { intros m. rewrite node_of_upd. case_decide; subst; [apply Hf|done]. }
  split; intros m; try rewrite Hx.
  - rewrite node_of_upd. case_decide; subst; [rewrite (proj1 (Hf _))|]; apply Gs.
  - rewrite node_of_upd. case_decide; subst; [apply Hi|apply Gi].
  - rewrite node_of_upd. case_decide; subst; [apply Hm|apply Gm].
  - intros e He. destruct (Gx m e He) as (? & ? & Hgr). split_and!; [done..|]. intros k. rewrite Hx. auto.
  - apply Gn.
Qed.

(** Forgetting implicit dependencies and children. *)
Lemma good_reset n f s :
  (∀ d, static (f d) = static d ∧ n_executor (f d) = n_executor d ∧
     (default [] (implicit (f d)) = [] ∨ implicit (f d) = implicit d) ∧
     (memo_children (f d) = None ∨ memo_children (f d) = memo_children d)) →
  good s → good (upd_node n f s).
Proof.
  intros Hf Hg. apply good_upd; [intros d; by destruct (Hf d) as (? & ? & _)|..|done].
  - intros c. destruct (Hf (node_of s n)) as (_ & _ & [-> | ->] & _); [by intros ?%elem_of_nil|].
    by apply (g_implicit s).
  - intros l. destruct (Hf (node_of s n)) as (_ & _ & _ & [-> | ->]); [done|]. by apply (g_memo s).
Qed.

Lemma stays_cleanup n s : stays s (executor_cleanup n s).
Proof.
  unfold executor_cleanup, Executor_cleanup. destruct (n_executor _); [|done].
  destruct (ex_kind_of _); try done; by apply stays_upd_exec; intros [].
Qed.

Lemma good_children_reset n s : good s → good (children_reset n s).
Proof.
  intros Hg. eapply good_stays; [apply stays_cleanup|]. apply good_reset; [|done].
  intros []. cbn. auto.
Qed.

Lemma good_scan_start n s : good s →
  good (children_reset n (upd_node n (with_implicit (Some []) ∅) s)).
Proof. intros Hg. apply good_children_reset, good_reset; [|done]. intros []. cbn. auto. Qed.

Lemma good_clear n s : good s → good (clear n s).
Proof.
  intros Hg. unfold clear, new_ninfo. eapply good_stays; [apply stays_cleanup|].
  set (s1 := clear_memoized_values n (del_binfo n s)).
  assert (good s1) as Hg1.
  { apply good_reset; [intros []; cbn; auto|]. eapply good_stays; [|exact Hg].
    apply stays_upd. by intros []. }
  eapply good_stays; [|exact Hg1].
  transitivity (DStore (d_nodes s1) (d_execs s1) (S (d_next s1))).
  - split; cbn; [done..|lia].
  - apply stays_upd. by intros [].
Qed.

Lemma good_built n s : good s → good (built n s).
Proof.
  intros Hg. apply good_clear, foldl_pred; [|done]. intros s' p _ Hs'.
  apply good_reset; [|done]. intros []. cbn. auto.
Qed.

(** Only the members of a list are added. *)
Lemma add_child_in l ls new x : x ∈ (add_child l ls new).1.1 → x ∈ l ∨ x ∈ new.
Proof.
  unfold add_child. cut (x ∈ (foldl (λ '(collection, set, added) c,
    if decide (c ∈ set) then (collection, set, added)
    else (collection ++ [c], {[c]} ∪ set, true)) (l, ls, false) new).1.1 →
    x ∈ (l, ls, false).1.1 ∨ x ∈ new); [done|].
  generalize (l, ls, false). induction new as [|c new IH]; intros a; cbn [foldl]; [by left|].
  intros [Hx|Hx]%IH; [|right; by right]. destruct a as [[l' ls'] b].
  case_decide; cbn in Hx; [by left|]. apply elem_of_app in Hx as [Hx|Hx]; [by left|].
  apply list_elem_of_singleton in Hx as ->. right. left.
Qed.

Lemma good_add_to_implicit n l s : (∀ c, c ∈ l → c ∈ deps n) → good s → good (add_to_implicit n l s).
Proof.
  intros Hl Hg. unfold add_to_implicit.
  set (s1 := match implicit (node_of s n) with None => _ | Some _ => s end).
  assert (good s1) as Hg1.
  { subst s1. destruct (implicit _); [done|by apply good_scan_start]. }
  pose proof (λ x, add_child_in (default [] (implicit (node_of s1 n))) (implicit_set (node_of s1 n)) l x)
    as Hin.
  destruct (add_child _ _ l) as [[l' ls'] added]. cbn [fst] in Hin.
  assert (∀ m, default [] (implicit (with_implicit (Some l') ls' m)) = l') as Ei by by intros [].
  assert (∀ c, c ∈ l' → c ∈ deps n) as Hl'.
  { intros c [Hc|Hc]%Hin; [by eapply g_implicit|by apply Hl]. }
  assert (good (upd_node n (with_implicit (Some l') ls') s1)) as Hg2.
  { apply good_upd; [by intros []|by intros c; rewrite Ei; apply Hl'| |done].
    intros l2. destruct (node_of s1 n) eqn:E. cbn. intros El. apply (g_memo s1 Hg1). by rewrite E. }
  destruct added; [by apply good_children_reset|done].
Qed.

(** ** Scans *)

(** What the project promises: dependencies stay in [v] and go down in rank, also
    those the scanners can find; nothing is missing and nothing has side effects. *)
Record project (fuel : nat) : Prop := {
  p_self : ∀ n, n ∈ group n;
  p_lists : ∀ n c, c ∈ sources (node_of s0 n) ++ depends (node_of s0 n) ++
    ul_data (prerequisites (node_of s0 n)) → c ∈ deps n;
  p_closed : ∀ n t c, n ∈ v → t ∈ group n → c ∈ deps t → c ∈ v;
  p_rank : ∀ n t c, n ∈ v → t ∈ group n → c ∈ deps t → rank c < rank n;
  p_plain : ∀ n, n_side_effects (node_of s0 n) = [];
  p_there : ∀ n, missing s0 n = false;
  p_found : ∀ n w sc p c, c ∈ get_found_includes n w sc p → c ∈ incl n;
  p_incl : ∀ n t y c, t ∈ group n → y ∈ deps n ∨ y ∈ group n → c ∈ incl y → c ∈ deps t;
  p_action : ∀ n t a l w c, t ∈ group n → c ∈ act_implicit_deps a (group n) l w → c ∈ deps t;
  p_recurse : ∀ sc, ∃ recursed : nid → bool,
    ∀ l, recurse_nodes sc l = filter (λ c, recursed c = true) l;
  p_bound : ∃ (U : gset nid) K, (∀ y c, c ∈ incl y → c ∈ U) ∧
    (∀ y w sc p, length (get_found_includes y w sc p) ≤ K) ∧ (size U + 1) * K + 1 < fuel
}.

Variable fuel : nat.
Hypothesis Hproject : project fuel.

(** The nodes that a scan of [m] may start from. *)
Definition near (m y : nid) : Prop := y ∈ deps m ∨ y ∈ group m.

Lemma search_near m n w sc p : near m n →
  ∃ d, Node_get_implicit_deps fuel n w (Some sc) p = Some d ∧
    ∀ t c, t ∈ group m → c ∈ d → c ∈ deps t.
Proof.
  intros Hn. destruct (p_recurse _ Hproject sc) as (recursed & Hrec).
  set (found := λ y, get_found_includes y w sc p).
  assert (∀ k nodes seen d, implicit_deps_loop k found (recurse_nodes sc) nodes seen d =
    implicit_deps_loop k found (filter (λ c, recursed c = true)) nodes seen d) as E.
  { induction k as [|k IH]; intros [|? ?] ? ?; simpl; [done..|]. by rewrite Hrec, IH. }
  destruct (p_bound _ Hproject) as (U & K & HU & HK & Hf).
  destruct (search_total found (λ c, recursed c = true) ({[n]} ∪ U) K fuel [n] {[n]} []) as [d Hd].
  - intros y c _ Hc%(p_found _ Hproject). apply elem_of_union_r. by eapply HU.
  - intros y _. apply HK.
  - intros y ->%list_elem_of_singleton. set_solver.
  - assert (size (({[n]} ∪ U) ∖ {[n]}) ≤ size U) by (apply subseteq_size; set_solver). simpl. nia.
  - exists d. split; [by rewrite <- Hd, <- E|]. intros t c Ht Hc.
    apply (search_spec found (λ c, recursed c = true) n fuel [n] {[n]} [] d) in Hc as (_ & y & Hy & Hc);
      [|apply search_inv_init|done].
    assert (near m y) as Hny.
    { refine (rtc_ind_r (near m) n Hn _ y Hy). intros a b _ [Hab _] Ha. left.
      eapply (p_incl _ Hproject m m a b); [apply (p_self _ Hproject)|done|].
      by eapply p_found. }
    eapply (p_incl _ Hproject m t y c); [done..|]. by eapply p_found.
Qed.

Lemma scan_nodes_near m e sc w l d s : (∀ y, y ∈ l → near m y) →
  (∀ t c, t ∈ group m → c ∈ d → c ∈ deps t) → get_build_env e s = (s, w) →
  ∃ d', scan_nodes fuel e sc w l d s = (s, Ok d') ∧ ∀ t c, t ∈ group m → c ∈ d' → c ∈ deps t.
Proof.
  intros Hl Hd He. revert d Hd. induction l as [|n l IH]; intros d Hd; [by exists d|].
  assert (∀ y, y ∈ l → near m y) as Hl' by (intros; apply Hl; by right).
  cbn [scan_nodes]. destruct (select_for sc w n) as [sc'|]; [|by apply IH].
  unfold get_build_scanner_path. rewrite He. cbn zeta iota beta.
  destruct (search_near m n w sc' (scanner_path sc' w
    (b ← head (batches (exec_of s e)); head (b_targets b)) (get_all_targets (exec_of s e))
    (get_all_sources s (exec_of s e)))) as (d' & -> & Hd'); [apply Hl; left|].
  apply IH; [done|]. intros t c Ht [Hc|Hc]%elem_of_app; eauto.
Qed.

Lemma executor_add_to_implicit n l s m :
  n_executor (node_of (add_to_implicit n l s) m) = n_executor (node_of s m).
Proof.
  assert (∀ s0 n f m, (∀ d, n_executor (f d) = n_executor d) →
    n_executor (node_of (upd_node n f s0) m) = n_executor (node_of s0 m)) as Hu.
  { intros s1 n' f m' Hf. rewrite node_of_upd. case_decide; subst; [apply Hf|done]. }
  assert (∀ s0 n m, n_executor (node_of (children_reset n s0) m) = n_executor (node_of s0 m)) as Hr.
  { intros s1 n' m'. unfold children_reset. rewrite node_of_cleanup. apply Hu. by intros []. }
  unfold add_to_implicit. destruct (implicit (node_of s n)) as [i|] eqn:Ei.
  - destruct (add_child _ _ l) as [[l' ls'] []]; cbn [reset_if]; rewrite ?Hr, Hu; [done| |done|]; by intros [].
  - destruct (add_child _ _ l) as [[l' ls'] []]; cbn [reset_if]; rewrite ?Hr, Hu, Hr, Hu;
      try done; by intros [].
Qed.

(** The executor of [m] is [e]. *)
Definition run_by (m : nid) (e : eid) s : Prop := good s ∧ n_executor (node_of s m) = Some e.

Lemma run_by_stays m e s s' : stays s s' → run_by m e s → run_by m e s'.
Proof.
  intros Hs [Hg He]. split; [by eapply good_stays|]. rewrite <- He.
  exact (f_equal (λ t, t.2) (st_nodes _ _ Hs m)).
Qed.

Lemma scan_returns m e sc l : (∀ y, y ∈ l → near m y) →
  returns (run_by m e) (Executor_scan fuel e sc l).
Proof.
  intros Hl s Hs. unfold Executor_scan.
  pose proof (get_build_env_idem e s) as Hidem. pose proof (stays_get_build_env e s) as Hst.
  destruct (get_build_env e s) as [s1 w]. cbn [fst snd] in *.
  pose proof (run_by_stays m e s s1 Hst Hs) as Hs1.
  destruct (scan_nodes_near m e sc w l [] s1 Hl) as (d & -> & Hd);
    [by intros t c _ ?%elem_of_nil|done|].
  unfold get_implicit_deps. rewrite Hidem. do 2 eexists. split; [done|].
  destruct (g_exec s1 (proj1 Hs1) m e (proj2 Hs1)) as (_ & [Hf _] & _). rewrite Hf.
  apply foldl_pred; [|done]. intros s' t Ht [Hg He]. split; [|by rewrite executor_add_to_implicit].
  apply good_add_to_implicit; [|done]. intros c [Hc|Hc]%elem_of_app; [by eapply Hd|].
  apply list_elem_of_In, in_concat in Hc as (k & Hk & Hc). apply in_map_iff in Hk as (a & <- & _).
  apply list_elem_of_In in Hc. by eapply p_action.
Qed.

Lemma scan_targets_returns m e sc : n_builder (node_of s0 m) ≠ None →
  returns (run_by m e) (scan_targets fuel e sc).
Proof.
  intros Hb s Hs. unfold scan_targets. destruct (g_exec s (proj1 Hs) m e (proj2 Hs)) as (_ & [Hf Hk] & _).
  destruct (ex_kind_of (exec_of s e)); [| |done]; rewrite Hf; apply (scan_returns m); [|done| |done];
    intros y Hy; by right.
Qed.

Lemma scan_sources_returns m e sc : n_builder (node_of s0 m) ≠ None →
  returns (run_by m e) (scan_sources fuel e sc).
Proof.
  intros Hb s Hs. unfold scan_sources. destruct (g_exec s (proj1 Hs) m e (proj2 Hs)) as (_ & [Hf Hk] & _).
  assert (∀ x, x = exec_of s e → ex_kind_of x ≠ ExNull → ∀ y, y ∈ get_all_sources s x → near m y) as Hsrc.
  { intros x -> Hx y. unfold get_all_sources. left. destruct (ex_kind_of (exec_of s e)); [| |done];
      by apply Hk. }
  destruct (ex_kind_of (exec_of s e)) eqn:Ek; [| |done]; destruct Hk as [Hne _];
    (destruct (batches (exec_of s e)) as [|b bs]; [done|]); (case_decide; [by exists s, tt|]);
    apply (scan_returns m); [|done| |done]; (apply Hsrc; [done|congruence]).
Qed.

(** ** Children *)

Lemma returns_call {E A} (P : dstore → Prop) (f : dstore → dstore * A) :
  (∀ s, P s → P (f s).1) → returns P (call (E:=E) f).
Proof. intros Hf s Hs. unfold call. specialize (Hf s Hs). destruct (f s) as [s' a]. by exists s', a. Qed.

Lemma run_by_get_executor n s : good s → run_by n (get_executor n s).2 (get_executor n s).1.
Proof.
  intros Hg. unfold get_executor. destruct (n_executor (node_of s n)) as [e|] eqn:He; [by split|].
  cbn [fst snd]. set (x := match n_builder (node_of s n) with None => _ | Some b => _ end).
  set (s1 := DStore (d_nodes s) _ _).
  pose proof (g_none s Hg n He) as Hgr.
  assert (fits n x) as Hfit.
  { pose proof (ss_builder _ _ (good_static s n Hg)) as Eb.
    subst x. destruct (n_builder (node_of s n)) as [b|]; [|by split; rewrite ?Hgr].
    unfold Executor_init. rewrite decide_True by (by left).
    split; [by rewrite Hgr|]. cbn. split; [done|]. rewrite app_nil_r. intros c Hc.
    apply (p_lists _ Hproject). rewrite elem_of_app. left.
    by rewrite <- (ss_sources _ _ (good_static s n Hg)). }
  assert (∀ e', exec_of s1 e' = if decide (e' = d_next s) then x else exec_of s e') as Hex.
  { intros e'. unfold exec_of, s1. cbn [d_execs]. case_decide; subst;
      [by rewrite lookup_insert_eq|by rewrite lookup_insert_ne]. }
  assert (∀ m, n_executor (node_of (upd_node n (with_executor (Some (d_next s))) s1) m) =
    if decide (n = m) then Some (d_next s) else n_executor (node_of s m)) as Hne.
  { intros m. rewrite node_of_upd. case_decide; [|done]. by destruct (node_of s1 n). }
  split; [|by rewrite Hne, decide_True].
  destruct Hg as [Gs Gi Gm Gx Gn]. split; intros m; rewrite ?Hne.
  - rewrite node_of_upd. case_decide as E; [subst m|apply Gs].
    rewrite <- Gs. change (node_of s1 n) with (node_of s n). by destruct (node_of s n).
  - rewrite node_of_upd. case_decide as E; [subst m|apply Gi]. intros c Hc. apply Gi.
    change (node_of s1 n) with (node_of s n) in Hc. by destruct (node_of s n).
  - rewrite node_of_upd. case_decide as E; [subst m|apply Gm]. intros l Hl. apply Gm.
    change (node_of s1 n) with (node_of s n) in Hl. by destruct (node_of s n).
  - intros e'. change (exec_of (upd_node n _ s1) e') with (exec_of s1 e'). rewrite Hex.
    case_decide as Em; [intros [= <-]|intros Hm].
    + subst m. rewrite decide_True by done. split_and!; [cbn; lia|done|]. intros k.
      rewrite Hgr, Hne. intros ->%list_elem_of_singleton. by rewrite decide_True.
    + destruct (Gx m e' Hm) as (Hlt & Hf & Hk). rewrite decide_False by lia.
      split_and!; [cbn; lia|done|]. intros k Hin. rewrite Hne, decide_False; [by apply Hk|].
      intros ->. specialize (Hk k Hin). congruence.
  - case_decide; [done|]. apply Gn.
Qed.

Lemma good_get_executor n s : good s → good (get_executor n s).1.
Proof. intros Hg. by destruct (run_by_get_executor n s Hg). Qed.

Lemma good_Node_get_build_env n s : good s → good (Node_get_build_env n s).1.
Proof.
  intros Hg. unfold Node_get_build_env. destruct (memo_build_env _); [done|].
  pose proof (good_get_executor n s Hg) as G1. destruct (get_executor n s) as [s1 e].
  pose proof (stays_get_build_env e s1) as G2. destruct (get_build_env e s1) as [s2 w]. cbn [fst] in *.
  eapply good_stays; [|exact G1]. etrans; [exact G2|]. apply stays_upd. by intros [].
Qed.

Variables (unchanged changed_ : bool).

Lemma Node_scan_returns n : returns good (Node_scan false unchanged changed_ fuel n).
Proof.
  intros s Hg. unfold Node_scan. destruct (implicit (node_of s n)); [by exists s, tt|].
  pose proof (good_scan_start n s Hg) as Hg1. revert Hg1.
  generalize (children_reset n (upd_node n (with_implicit (Some []) ∅) s)). intros s1 Hg1.
  destruct (n_builder (node_of s1 n)) as [b|] eqn:Eb; [|by exists s1, tt].
  assert (n_builder (node_of s0 n) ≠ None) as Hb.
  { rewrite <- (ss_builder _ _ (good_static s1 n Hg1)). by rewrite Eb. }
  clear Eb Hg s. revert s1 Hg1.
  apply returns_bind; [apply returns_call, good_Node_get_build_env|intros _].
  intros s Hg. pose proof (run_by_get_executor n s Hg) as Hrun. unfold call, ebind at 1.
  destruct (get_executor n s) as [s1 e]. cbn [fst snd] in Hrun.
  assert (returns (run_by n e) (let! done := scan_cached false unchanged changed_ n e in
    if done : bool then eret tt
    else scan_sources fuel e (bd_source_scanner b) ;;;
         match bd_target_scanner b with
         | Some sc => scan_targets fuel e (Some sc)
         | None => eret tt
         end)%eff) as Hall.
  { apply returns_bind; [apply returns_ret|]. intros []; [apply returns_ret|].
    apply returns_bind; [by apply scan_sources_returns|intros _].
    destruct (bd_target_scanner b); [by apply scan_targets_returns|apply returns_ret]. }
  destruct (Hall s1 Hrun) as (s' & [] & E & Hs'). exists s', tt. split; [exact E|apply Hs'].
Qed.

Lemma compute_children_fits n s : good s → memo_fits n (compute_children (node_of s n)).
Proof.
  intros Hg. destruct (good_static s n Hg) as [E1 E2 E3 _ _ _ _ _].
  split; intros c; rewrite elem_of_compute_children, E1, E2, E3.
  - intros [[Hc|[Hc|Hc]] _]; [| |by apply (g_implicit s)];
      apply (p_lists _ Hproject); rewrite !elem_of_app; auto.
  - rewrite elem_of_app. tauto.
Qed.

Lemma children_returns n s : good s → ∃ s' l,
  children false unchanged changed_ fuel n s = (s', Ok l) ∧ good s' ∧ memo_fits n l.
Proof.
  intros Hg. unfold children, ebind, call.
  destruct (Node_scan_returns n s Hg) as (s1 & [] & -> & Hg1).
  unfold children_get. destruct (memo_children (node_of s1 n)) as [l|] eqn:E.
  - exists s1, l. split_and!; [done..|]. by apply (g_memo s1 Hg1).
  - pose proof (compute_children_fits n s1 Hg1) as Hf. do 2 eexists. split_and!; [done| |done].
    apply good_upd; [by intros []| |intros l; by destruct (node_of s1 n) eqn:E2; intros [= <-]|done].
    intros c Hc. apply (g_implicit s1 Hg1). by destruct (node_of s1 n).
Qed.

(** The children of an executor are those of its targets. *)
Definition unit_fits (n : nid) (l : list nid) : Prop :=
  (∀ c, c ∈ l → ∃ t, t ∈ group n ∧ c ∈ deps t) ∧
  (n_builder (node_of s0 n) ≠ None → ∀ t c, t ∈ group n →
    c ∈ sources (node_of s0 t) ++ depends (node_of s0 t) → c ∉ ignore_set (node_of s0 t) → c ∈ l).

Lemma get_all_children_returns n e s : run_by n e s → ∃ s' u,
  get_all_children false unchanged changed_ fuel e s = (s', Ok u) ∧ good s' ∧ unit_fits n (ul_data u).
Proof.
  intros Hs. destruct (g_exec s (proj1 Hs) n e (proj2 Hs)) as (_ & [Hf Hk] & _).
  unfold get_all_children. destruct (ex_kind_of (exec_of s e)) eqn:Ek.
  3: { exists s, (UL (get_all_sources s (exec_of s e)) true). split_and!; [done|apply Hs|].
    split; [|by rewrite Hk]. intros c. cbn [ul_data]. unfold get_all_sources. rewrite Ek, Hf.
    destruct (group n) as [|t l]; [by intros ?%elem_of_nil|]. intros Hc. exists t. split; [left|].
    apply (p_lists _ Hproject). rewrite elem_of_app. left.
    by rewrite <- (ss_sources _ _ (good_static s t (proj1 Hs))). }
  all: rewrite Hf; clear Hf Hk Ek; destruct Hs as [Hg _].
  all: assert (∀ l u s, (∀ t, t ∈ l → t ∈ group n) → good s →
    (∀ c, c ∈ ul_data u → ∃ t, t ∈ group n ∧ c ∈ deps t) → ∃ s' u',
    (fix go (l : list nid) (result : UniqueList nid) : eff dstore fexn (UniqueList nid) :=
       match l with
       | [] => eret result
       | target :: l => (let! c := children false unchanged changed_ fuel target in
                         go l (ul_extend result c))%eff
       end) l u s = (s', Ok u') ∧ good s' ∧
    (∀ c, c ∈ ul_data u' → ∃ t, t ∈ group n ∧ c ∈ deps t) ∧
    (∀ c, c ∈ ul_data u → c ∈ ul_data u') ∧
    (∀ t c, t ∈ l → c ∈ sources (node_of s0 t) ++ depends (node_of s0 t) →
       c ∉ ignore_set (node_of s0 t) → c ∈ ul_data u')) as Hgo.
  1,3: clear s Hg; induction l as [|t l IH]; intros u s Hl Hg Hu;
    [exists s, u; split_and!; try done; by intros t c ?%elem_of_nil|];
    destruct (children_returns t s Hg) as (s1 & k & E & Hg1 & Hk1 & Hk2); unfold ebind; rewrite E;
    destruct (IH (ul_extend u k) s1) as (s' & u' & E' & Hg' & K1 & K2 & K3);
      [by intros; apply Hl; right|done|
       intros c [Hc|Hc]%elem_of_app; [by apply Hu|exists t; split; [apply Hl; left|by apply Hk1]]|];
    exists s', u'; split_and!; [done..| |];
      [intros c Hc; apply K2, elem_of_app; by left|
       intros t' c [->|Ht']%elem_of_cons; [|by apply K3];
       intros Hc Hi; apply K2, elem_of_app; right; by apply Hk2].
  all: destruct (Hgo (group n) (ul_init []) s) as (s' & u' & E & Hg' & K1 & _ & K3);
    [done..|by intros c ?%elem_of_nil|]; exists s', u'; split_and!; [done..|]; split; auto.
Qed.

(** ** The interface *)

(** The calls of other components return, with the status of success, and keep
    to the good states; alternate targets are nodes of the project. *)
Record calls_return : Prop := {
  c_act : ∀ a e w s, good s → ∃ s', act_call a e w s = (s', Ok ActOk) ∧ good s';
  c_up_to_date : ∀ n, returns good (is_up_to_date n);
  c_make_ready : ∀ n, returns good (nm_make_ready n);
  c_retrieve : ∀ n, returns good (nm_retrieve_from_cache n);
  c_push : ∀ n s, good s → good (nm_push_to_cache n s);
  c_update : ∀ n s, good s → good (nm_ninfo_update n s);
  c_store : ∀ n s, good s → good (nm_store_info n s);
  c_alter : ∀ s n c, n ∈ v → c ∈ (nm_alter_targets s n).1 → c ∈ v
}.
Hypothesis Hcalls : calls_return.

#[local] Instance project_world : NodeWorld dstore := engine_world false unchanged changed_ fuel.

Lemma missing_static s n : good s → missing s n = false.
Proof.
  intros Hg. rewrite <- (p_there _ Hproject n). destruct (good_static s n Hg) as [_ _ _ _ E1 E2 _ E3].
  unfold missing, is_derived, has_builder. by rewrite E1, E2, E3.
Qed.

Lemma none_missing s l : good s → filter (λ n, missing s n = true) l = [].
Proof.
  intros Hg. induction l as [|n l IH]; [done|].
  rewrite filter_cons_False; [done|]. by rewrite missing_static.
Qed.

Lemma elem_of_ul_list (u : UniqueList nid) c :
  (c ∈ (ul_list u).2 ↔ c ∈ ul_data u) ∧ (c ∈ ul_data (ul_list u).1 ↔ c ∈ ul_data u).
Proof.
  unfold ul_list, make_unique. destruct (ul_unique u); [done|]. cbn [fst snd ul_data].
  rewrite uniquer_hashables_uniquer. pose proof (uniquer_elem id c (ul_data u)) as E.
  rewrite !list_fmap_id in E. by rewrite E.
Qed.

Lemma same_executor n y s : good s → y ∈ group n → get_executor y s = get_executor n s.
Proof.
  intros Hg Hy. destruct (n_executor (node_of s n)) as [e|] eqn:E.
  - destruct (g_exec s Hg n e E) as (_ & _ & Hall). unfold get_executor. by rewrite E, Hall.
  - rewrite (g_none s Hg n E) in Hy. by apply list_elem_of_singleton in Hy as ->.
Qed.

Lemma targets_of s n : good s → get_all_targets (exec_of (get_executor n s).1 (get_executor n s).2) = group n.
Proof. intros Hg. destruct (run_by_get_executor n s Hg) as [Hg1 He]. by apply (g_exec _ Hg1 n). Qed.

(** The prerequisites of an executor are those of its targets. *)
Lemma fold_prerequisites l s u k :
  (∀ m x, x ∈ ul_data (prerequisites (node_of s m)) ↔ x ∈ ul_data (prerequisites (node_of s0 m))) →
  k ∈ ul_data (foldl (λ '(s, result) target,
        let '(u, l) := ul_list (prerequisites (node_of s target)) in
        (upd_node target (with_prerequisites u) s, ul_extend result l)) (s, u) l).2 ↔
  k ∈ ul_data u ∨ ∃ t, t ∈ l ∧ k ∈ ul_data (prerequisites (node_of s0 t)).
Proof.
  revert s u. induction l as [|t l IH]; intros s u Hs; cbn [foldl].
  { split; [by left|]. intros [?|(t & ?%elem_of_nil & _)]; done. }
  pose proof (λ k, elem_of_ul_list (prerequisites (node_of s t)) k) as Hk.
  destruct (ul_list (prerequisites (node_of s t))) as [u1 k1]. cbn [fst snd] in Hk. rewrite IH.
  - cbn [ul_extend ul_data]. rewrite elem_of_app, (proj1 (Hk k)), Hs. split.
    + intros [[?|?]|(t' & ? & ?)]; [by left|right; exists t; split; [left|done]|right; exists t'; split; [by right|done]].
    + intros [?|(t' & [->|?]%elem_of_cons & ?)]; [auto..|]. right. by exists t'.
  - intros m x. rewrite node_of_upd. case_decide as E; [subst m|apply Hs].
    assert (prerequisites (with_prerequisites u1 (node_of s t)) = u1) as -> by (by destruct (node_of s t)).
    by rewrite (proj2 (Hk x)), Hs.
Qed.

Lemma prerequisites_of n s c : good s →
  (c ∈ Taskmaster.get_all_prerequisites s n →
     ∃ t, t ∈ group n ∧ c ∈ ul_data (prerequisites (node_of s0 t))) ∧
  (n_builder (node_of s0 n) ≠ None → ∀ t, t ∈ group n →
     c ∈ ul_data (prerequisites (node_of s0 t)) → c ∈ Taskmaster.get_all_prerequisites s n).
Proof.
  intros Hg. cbn [Taskmaster.get_all_prerequisites project_world engine_world]. unfold of_executor.
  pose proof (run_by_get_executor n s Hg) as [Hg1 He].
  destruct (get_executor n s) as [s1 e]. cbn [fst snd] in *.
  destruct (g_exec s1 Hg1 n e He) as (_ & [Ht Hk] & _).
  assert (∀ m x, x ∈ ul_data (prerequisites (node_of s1 m)) ↔ x ∈ ul_data (prerequisites (node_of s0 m)))
    as Hs by (intros m x; by rewrite (ss_prerequisites _ _ (good_static s1 m Hg1))).
  split; [rewrite (proj1 (elem_of_ul_list _ c))|intros Hb t Hin Hc; apply elem_of_ul_list];
    unfold get_all_prerequisites; destruct (ex_kind_of (exec_of s1 e)); try done;
    rewrite ?Ht, ?fold_prerequisites by done.
  1,2: by intros [?%elem_of_nil|?].
  - by intros ?%elem_of_nil.
  - right. by exists t.
  - right. by exists t.
Qed.

Lemma engine_children_returns n s : good s → ∃ s' l,
  engine_children false unchanged changed_ fuel n s = (s', Ok l) ∧ good s' ∧ unit_fits n l.
Proof.
  intros Hg. unfold engine_children, ebind, call, bounded. pose proof (run_by_get_executor n s Hg) as Hrun.
  destruct (get_executor n s) as [s1 e]. cbn [fst snd] in Hrun.
  destruct (get_all_children_returns n e s1 Hrun) as (s' & u & -> & Hg' & Hu1 & Hu2).
  exists s', (ul_list u).2. split_and!; [done..|]. split.
  - intros c Hc. by apply Hu1, elem_of_ul_list.
  - intros Hb t c Ht Hc Hi. apply elem_of_ul_list. by eapply Hu2.
Qed.

Lemma run_actions_returns e w l s : good s → ∃ s', run_actions e w l s = (s', Ok ActOk) ∧ good s'.
Proof.
  revert s. induction l as [|a l IH]; intros s Hg; [by exists s|]. cbn [run_actions]. unfold ebind.
  destruct (c_act Hcalls a e w s Hg) as (s1 & -> & Hg1). by apply IH.
Qed.

Lemma Node_build_returns n : returns good (Node_build n).
Proof.
  intros s Hg. unfold Node_build. pose proof (good_get_executor n s Hg) as Hg1.
  destruct (get_executor n s) as [s1 e]. unfold Executor_call, do_execute.
  pose proof (stays_get_build_env e s1) as Hst. destruct (get_build_env e s1) as [s2 w]. cbn [fst] in *.
  destruct (ex_kind_of (exec_of s1 e)); [|by exists s1, tt..].
  destruct (run_actions_returns e w (get_action_list (exec_of s2 e)) s2) as (s3 & -> & Hg3);
    [by eapply good_stays|]. by exists s3, tt.
Qed.

Lemma good_get_binfo n s : good s → good (get_binfo n s).1.
Proof.
  intros Hg. destruct (stays_get_binfo n s) as [Hst| ->]; [|done].
  eapply good_stays; [exact Hst|]. by apply good_get_executor.
Qed.

Lemma good_Node_built ps n s : good s → good (Node_built ps n s).
Proof.
  intros Hg. apply (c_update Hcalls), good_built. eapply good_stays; [|exact Hg].
  apply stays_upd. by intros [].
Qed.

Lemma engine_no_failures : no_failures good.
Proof.
  split; cbn.
  - intros n s Hg. destruct (engine_children_returns n s Hg) as (s' & l & -> & Hg' & _). by exists s', l.
  - intros n s Hg. unfold ebind, call. pose proof (good_get_executor n s Hg) as Hg1.
    destruct (get_executor n s) as [s1 e]. unfold Executor_prepare. rewrite none_missing by done.
    exists s1, tt. by destruct (ex_kind_of (exec_of s1 e)).
  - intros n s Hg. unfold Node_prepare. rewrite !none_missing by done.
    exists (get_binfo n s).1, tt. split; [done|by apply good_get_binfo].
  - apply (c_make_ready Hcalls).
  - intros st n. apply returns_bind; [|intros _; apply (c_up_to_date Hcalls)].
    apply returns_mod. intros s Hg. eapply good_stays; [apply stays_with_states|done].
  - apply (c_retrieve Hcalls).
  - apply Node_build_returns.
  - apply (c_push Hcalls).
  - intros ps n s. apply good_Node_built.
  - intros n s Hg. unfold Node_visited. destruct (n_binfo _); [|done].
    by apply (c_store Hcalls), (c_update Hcalls).
  - intros n s Hg. eapply good_stays; [apply stays_cleanup|done].
Qed.

Lemma engine_plain : plain_actions good group.
Proof.
  assert (∀ s n, good s → n_side_effects (node_of s n) = []) as Hse.
  { intros s n Hg. by rewrite (ss_side_effects _ _ (good_static s n Hg)), (p_plain _ Hproject). }
  split; cbn.
  - intros s n Hg. unfold of_executor. pose proof (targets_of s n Hg). by destruct (get_executor n s).
  - apply (p_self _ Hproject).
  - intros s n y Hg Hy. unfold engine_children, ebind, call. by rewrite (same_executor n y).
  - intros s n y Hg Hy. unfold of_executor. by rewrite (same_executor n y).
  - apply Hse.
  - intros s n Hg. unfold of_executor, get_action_side_effects.
    pose proof (good_get_executor n s Hg) as Hg1. destruct (get_executor n s) as [s1 e]. cbn [fst] in Hg1.
    set (l := get_action_targets s1 e).
    assert (∀ u : UniqueList nid, ul_data u = [] →
      ul_data (foldl (λ u t, ul_extend u (n_side_effects (node_of s1 t))) u l) = []) as Hl.
    { induction l as [|t l IH]; [done|]. intros u Hu. cbn [foldl]. apply IH. cbn. by rewrite Hu, Hse. }
    specialize (Hl (ul_init []) eq_refl). unfold ul_list, make_unique.
    destruct (ul_unique _); [done|]. cbn. by rewrite Hl.
Qed.

Lemma unit_below n c s' l : unit_fits n l →
  c ∈ Taskmaster.get_all_prerequisites s' n ++ l → good s' → ∃ t, t ∈ group n ∧ c ∈ deps t.
Proof.
  intros [Hl _] [Hc|Hc]%elem_of_app Hg; [|by apply Hl].
  destruct (proj1 (prerequisites_of n s' c Hg) Hc) as (t & Ht & Hp). exists t. split; [done|].
  apply (p_lists _ Hproject). by rewrite !elem_of_app; auto.
Qed.

Lemma engine_closed : closed good v.
Proof.
  split.
  - intros n s Hg. cbn. by destruct (engine_children_returns n s Hg) as (s' & l & -> & Hg' & _).
  - intros n s s' l Hg Hn E c Hc. destruct (engine_children_returns n s Hg) as (s2 & l2 & E2 & _ & Hu & _).
    cbn in E. rewrite E2 in E. injection E as <- <-. destruct (Hu c Hc) as (t & ? & ?).
    by eapply p_closed.
  - intros n s c Hg Hn Hc. destruct (proj1 (prerequisites_of n s c Hg) Hc) as (t & Ht & Hp).
    eapply p_closed; [done..|]. apply (p_lists _ Hproject). by rewrite !elem_of_app; auto.
  - intros n s c _. by apply (c_alter Hcalls).
Qed.

Lemma engine_ranked : ranked good v rank.
Proof.
  intros n s s' l c Hg Hn E Hc. destruct (engine_children_returns n s Hg) as (s2 & l2 & E2 & Hg2 & Hu).
  cbn in E. rewrite E2 in E. injection E as <- <-.
  destruct (unit_below n c s2 l2 Hu Hc Hg2) as (t & ? & ?). by eapply p_rank.
Qed.

(** What is below a node in the sense of the walk. *)
Lemma engine_below x (m : tm dstore) t c : below good m x → n_builder (node_of s0 x) ≠ None →
  t ∈ group x →
  c ∈ ul_data (prerequisites (node_of s0 t)) ∨
  (c ∈ sources (node_of s0 t) ++ depends (node_of s0 t) ∧ c ∉ ignore_set (node_of s0 t)) →
  finished (get_state (tm_nodes m) c).
Proof.
  intros (w & w' & l & Hg & E & Hall) Hb Ht Hc.
  destruct (engine_children_returns x w Hg) as (s' & l2 & E2 & Hg2 & _ & Hu).
  cbn in E. rewrite E2 in E. injection E as <- <-. apply Hall, elem_of_app.
  destruct Hc as [Hc|[Hc Hi]]; [left|right; by eapply Hu].
  by eapply (proj2 (prerequisites_of x s' c Hg2)).
Qed.
End engine_facts.

(** C2: a serial build of a project of nodes, from the classes [Serial],
    [Taskmaster], [Task], [Node] and [Executor] together.  The project ([project]):
    what the nodes list and what scanners and actions can find stays in a finite
    set and goes down in rank, nothing is missing and nothing has side effects;
    no call raises and every action succeeds ([calls_return]); the option
    [implicit_cache] is off and no signal comes.  The build ends and returns
    normally, and every target asked for is finished.  In every state in which
    the loop asks for a task: a finished node stays finished, and if it has a
    builder, then all that it and the nodes built with it list as prerequisites,
    sources and dependencies, less the ignored ones, is finished; a task handed
    out is one for all the nodes built with a node that is not finished, and
    what these list, and all the children that the search finds for them,
    implicit ones too, was finished before. *)
Theorem engine_serial_build `{NodeMethods} `{Orders} tk (s0 : dstore) v deps group incl rank fuel
    unchanged changed_ ts
    (Hp : project s0 v deps group incl rank fuel) (Hc : calls_return s0 v deps group)
    (Hg : good s0 deps group s0) (Hts : ∀ t, t ∈ ts → t ∈ v) :
  let world := engine_world false unchanged changed_ fuel in
  let listed t c := c ∈ ul_data (prerequisites (node_of s0 t)) ∨
    (c ∈ sources (node_of s0 t) ++ depends (node_of s0 t) ∧ c ∉ ignore_set (node_of s0 t)) in
  ∃ k s, Serial_start tk k (Taskmaster_init s0 ∅ ts) = Some (s, Ok tt) ∧
    (∀ t, t ∈ ts → finished (get_state (tm_nodes s) t)) ∧
    ∀ s1, loop_head tk (Taskmaster_init s0 ∅ ts) s1 →
      (∀ x, finished (get_state (tm_nodes s1) x) → finished (get_state (tm_nodes s) x) ∧
         (n_builder (node_of s0 x) ≠ None → ∀ t c, t ∈ group x → listed t c →
            finished (get_state (tm_nodes s1) c))) ∧
      ∀ f s2 t, next_task tk f s1 = Some (s2, Some t) →
        targets t = group (tnode_ t) ∧ ¬ finished (get_state (tm_nodes s1) (tnode_ t)) ∧
        (n_builder (node_of s0 (tnode_ t)) ≠ None → ∀ x c, x ∈ targets t → listed x c →
           finished (get_state (tm_nodes s1) c)) ∧
        ∃ s', find_next_ready_node f s1 = Some (s', Some (tnode_ t)) ∧
          ∀ x, x ∈ targets t → ∃ w l,
            engine_children false unchanged changed_ fuel x w = (Taskmaster.world s', Ok l) ∧
            ∀ c, c ∈ l → finished (get_state (tm_nodes s1) c).
Proof.
  intros world listed.
  pose proof (engine_closed s0 v deps group incl rank fuel Hp unchanged changed_ Hc) as G1.
  pose proof (engine_no_failures s0 v deps group incl rank fuel Hp unchanged changed_ Hc) as G2.
  pose proof (engine_plain s0 v deps group incl rank fuel Hp unchanged changed_) as G3.
  pose proof (engine_ranked s0 v deps group incl rank fuel Hp unchanged changed_) as G4.
  destruct (serial_build _ v group rank G1 G2 G3 G4 tk (Taskmaster_init s0 ∅ ts))
    as (k & s & E & [_ Ht _ Hk Hr]); [by apply walk_init|].
  assert (∀ m x, below (good s0 deps group) m x → n_builder (node_of s0 x) ≠ None →
    ∀ t c, t ∈ group x → listed t c → finished (get_state (tm_nodes m) c)) as Hb.
  { intros m x Hb Hx t c Ht' Hl.
    by eapply (engine_below s0 v deps group incl rank fuel Hp unchanged changed_), Hl. }
  exists k, s. split_and!; [done|exact Ht|]. intros s1 Hs1. split.
  - intros x Hx. destruct (Hk s1 x Hs1 Hx) as [Hbx Hfx]. split; [done|]. by apply Hb.
  - intros f s2 t En. destruct (Hr s1 f s2 t Hs1 En) as (s' & Ef & Htg & Hin & Hnf & Hready).
    destruct (Hready (tnode_ t) Hin) as (w & l & Hw & El & Hl).
    assert (targets t = group (tnode_ t)) as Hgr.
    { rewrite Htg. apply (plain_targets _ _ G3).
      destruct (ok_children _ G2 (tnode_ t) w Hw) as (w2 & l2 & E2 & Hw2). congruence. }
    split_and!; [done|done| |].
    + rewrite Hgr. intros Hx. apply Hb; [|done]. by exists w, (Taskmaster.world s'), l.
    + exists s'. split; [done|]. intros x Hx. destruct (Hready x Hx) as (w3 & l3 & _ & E3 & Hl3).
      exists w3, l3. split; [exact E3|]. intros c Hc'. apply Hl3, elem_of_app. by right.
Qed.

(** ** A project *)

(** Node 0 is built from 1 after 4, node 1 from 2, which includes 3. *)
Section example.
#[local] Instance ex_types : DepTypes := {| env := unit; path := unit; pinfo := unit |}.

Definition ex_includes (n : nid) : list nid := if decide (n = 2) then [3] else [].

#[local] Instance ex_dep : DepWorld := {|
  Override _ _ := tt;
  DefaultEnvironment := tt;
  NullEnvironment := tt;
  act_call a e v := λ s, (s, Ok ActOk);
  act_contents a _ _ _ := pretty a;
  act_genstring a _ _ _ := pretty a;
  act_implicit_deps _ _ _ _ := [];
  scanner_select sc _ := Some sc;
  scanner_path _ _ _ _ _ := tt;
  recurse_nodes _ l := filter (λ c, true = true) l;
  env_scanner _ _ := Some 0;
  get_found_includes n _ _ _ := ex_includes n;
  rexists _ := true;
  node_str := pretty;
  get_stored_info _ := None;
  get_stored_implicit _ := None;
  is_up_to_date n := eret false;
  changed_since_last_build c n p := eret true;
  MD5signature s := s
|}.
#[local] Instance ex_methods : NodeMethods := Node_methods pretty (λ _ x, get_all_targets x).
#[local] Instance ex_orders : Orders := {|
  set_iter := elements;
  set_iter_perm _ := reflexivity _;
  order l := l;
  order_perm _ := reflexivity _
|}.

Definition ex_store : dstore :=
  add_prerequisite 0 [4] (add_source 1 [2] (add_source 0 [1]
    (builder_set 1 (Some (Builder 6 None ∅ None (Some 0)))
      (builder_set 0 (Some (Builder 5 None ∅ (Some 0) (Some 0))) (DStore ∅ ∅ 0))))).
Definition ex_deps (n : nid) : list nid :=
  match n with 0 => [1; 4] | 1 => [2; 3] | 2 => [3] | _ => [] end.
Definition ex_v : gset nid := list_to_set [0; 1; 2; 3; 4].

Lemma all_nodes (P : nid → dnode → Prop) s :
  (∀ n, P n dnode_init) → map_Forall P (d_nodes s) → ∀ n, P n (node_of s n).
Proof.
  intros Hd Hm n. unfold node_of. destruct (d_nodes s !! n) as [d|] eqn:E; [|apply Hd].
  by apply Hm.
Qed.

Lemma ex_good : good ex_store ex_deps (λ n, [n]) ex_store.
Proof.
  assert (∀ n, let d := node_of ex_store n in
    n_executor d = None ∧ implicit d = None ∧ memo_children d = None) as H.
  { apply (all_nodes (λ _ d, n_executor d = None ∧ implicit d = None ∧ memo_children d = None)); [done|].
    apply (bool_decide_unpack _). vm_compute. exact I. }
  split; intros n; destruct (H n) as (E1 & E2 & E3); rewrite ?E1, ?E2, ?E3; try done.
  by intros c ?%elem_of_nil.
Qed.

Lemma ex_project : project ex_store ex_v ex_deps (λ n, [n]) ex_includes (λ n, 4 - n) 20.
Proof.
  split; try done.
  - intros n. left.
  - intros n. apply Forall_forall. revert n.
    apply (all_nodes (λ n d, Forall (λ c, c ∈ ex_deps n) (sources d ++ depends d ++ ul_data (prerequisites d))));
      [by constructor|]. apply (bool_decide_unpack _). vm_compute. exact I.
  - intros n t c _ ->%list_elem_of_singleton. destruct n as [|[|[|n]]]; cbn [ex_deps]; set_solver.
  - intros n t c _ ->%list_elem_of_singleton. destruct n as [|[|[|n]]]; cbn [ex_deps];
      rewrite ?elem_of_cons, elem_of_nil; lia.
  - apply (all_nodes (λ _ d, n_side_effects d = [])); [done|].
    apply (bool_decide_unpack _). vm_compute. exact I.
  - intros n. unfold missing. cbn. by rewrite andb_false_r.
  - intros n t y c ->%list_elem_of_singleton Hy. unfold ex_includes. case_decide as E; [subst y|by intros ?%elem_of_nil].
    intros ->%list_elem_of_singleton. destruct n as [|[|[|n]]]; cbn in *; set_solver.
  - by intros n t a l w c _ ?%elem_of_nil.
  - intros sc. by exists (λ _, true).
  - exists {[3]}, 1. split_and!; [|intros y w sc p; cbn; unfold ex_includes; case_decide; cbn; lia|
      vm_compute; lia].
    intros y c. unfold ex_includes. case_decide; set_solver.
Qed.

Lemma ex_calls : calls_return ex_store ex_v ex_deps (λ n, [n]).
Proof.
  split; cbn; try done; try (intros; apply returns_ret).
  - intros a e w s Hs. by exists s.
  - by intros s n c _ ?%elem_of_nil.
Qed.

Lemma engine_serial_build_witness :
  let world := engine_world false false false 20 in
  ∃ k s, Serial_start default_tasker k (Taskmaster_init ex_store ∅ [0]) = Some (s, Ok tt) ∧
    (∀ t, t ∈ [0] → finished (get_state (tm_nodes s) t)).
Proof.
  destruct (engine_serial_build default_tasker ex_store ex_v ex_deps (λ n, [n]) ex_includes (λ n, 4 - n) 20
    false false [0] ex_project ex_calls ex_good) as (k & s & E & Ht & _).
  - intros t ->%list_elem_of_singleton. apply (bool_decide_unpack _). vm_compute. exact I.
  - exists k, s. split; [exact E|exact Ht].
Defined.

(** The run itself, and the implicit dependency that it found. *)
Example ex_run :
  let world := engine_world false false false 20 in
  (Serial_start default_tasker 30 (Taskmaster_init ex_store ∅ [0])) ≫= (λ '(s, r),
     match r with
     | Ok _ => Some (map (λ n, (get_state (tm_nodes s) n)) [0; 1; 2; 3; 4])
     | Raise _ => None
     end) = Some [executed; executed; up_to_date; up_to_date; up_to_date].
Proof. vm_compute. reflexivity. Qed.
End example.
