(* ===== verification/Cpp.v ===== *)
(** * The C preprocessor ([SCons/cpp.py])

    The regular expressions that pull the directives out of a file and turn an
    [#if] expression into Python, function-like macros, and the interpreter of
    the directives: a stack of dispatch tables.  Regular expressions are written
    out as functions on texts, a match from the front being a prefix and a rest;
    Python's [eval] and the file system are parameters. *)

From S2P Require Import Prelude Errors PyStr.
Open Scope nat_scope.

(** ** Regular expressions *)

Definition newline : ascii := "010".
Definition not_newline (c : ascii) : bool := bool_decide (c ≠ newline).

(** [line_continuations]: a backslash, perhaps a carriage return, a newline. *)
Definition line_continuation (s : text) : option (text * text) :=
  match s with
  | "\"%char :: s =>
      match s with
      | "010"%char :: s => Some ([], s)
      | "013"%char :: "010"%char :: s => Some ([], s)
      | _ => None
      end
  | _ => None
  end.

(** ** The directives of a file *)

(** A tuple: the directive, and the groups of its pattern ([None] for a group
    that did not take part). *)
Definition dtuple : Type := string * list (option text).

(** The keys of [Table].  Their order, and that of the alternation made of
    them, is that of the dictionary: a parameter below.  Here a directive comes
    before those that are a prefix of it. *)
Definition directives : list string :=
  ["ifndef"; "ifdef"; "if"; "elif"; "import"; "include_next"; "include";
   "else"; "endif"; "define"; "undef"]%string.

(** The alternation of directives, tried in the order [l]; an [if] is not
    followed by [def]. *)
Fixpoint match_directive (l : list string) (s : text) : option (string * text) :=
  match l with
  | [] => None
  | op :: l =>
      match after (T op) s with
      | Some rest =>
          if bool_decide (op = "if"%string) && startswith (T "def") rest
          then match_directive l s else Some (op, rest)
      | None => match_directive l s
      end
  end.

(** [CPP_Expression] at a line start: the directive, the rest of the line, and
    what follows. *)
Definition match_line (l : list string) (s : text) : option (string * text * text) :=
  match (span is_space s).2 with
  | "#"%char :: s =>
      match match_directive l (span is_space s).2 with
      | Some (op, rest) => let '(line, s) := span not_newline rest in Some (op, line, s)
      | None => None
      end
  | _ => None
  end.

(** [findall], from a line start or from inside a line. *)
Fixpoint find_directives (fuel : nat) (l : list string) (at_start : bool) (s : text)
    : list (string * text) :=
  match fuel with
  | O => []
  | S fuel =>
      match (if at_start then match_line l s else None), s with
      | Some (op, line, rest), _ => (op, line) :: find_directives fuel l false rest
      | None, [] => []
      | None, c :: s => find_directives fuel l (bool_decide (c = newline)) s
      end
  end.

Definition AttributeError_groups : exn :=
  ExOther "AttributeError" "'NoneType' object has no attribute 'groups'".

(** [(.+)] after blanks: the rest of the line, or the last of the blanks. *)
Definition rest_after_blanks (least : nat) (s : text) : res exn (list (option text)) :=
  let '(blanks, rest) := span is_space s in
  if decide (length blanks < least) then Raise AttributeError_groups
  else match rest with
       | _ :: _ => Ok [Some rest]
       | [] => if decide (least < length blanks)
               then Ok [Some (drop (pred (length blanks)) blanks)]
               else Raise AttributeError_groups
       end.

Definition is_ident_start (c : ascii) : bool := is_letter c || bool_decide (c = "_"%char).

Definition identifier (s : text) : option (text * text) :=
  match s with
  | c :: s => if is_ident_start c then let '(a, b) := span is_word s in Some (c :: a, b)
              else None
  | [] => None
  end.

(** [(\([^)]*\))?] *)
Definition paren_group (s : text) : option text * text :=
  match s with
  | "("%char :: s' =>
      match span (λ c, bool_decide (c ≠ ")"%char)) s' with
      | (a, ")"%char :: b) => (Some (T "(" ++ a ++ T ")"), b)
      | _ => (None, s)
      end
  | _ => (None, s)
  end.

(** [Table[op].match(line).groups()] *)
Definition match_groups (op : string) (line : text) : res exn (list (option text)) :=
  if decide (op ∈ ["if"; "elif"; "ifdef"; "ifndef"]%string) then rest_after_blanks 1 line
  else if decide (op ∈ ["import"; "include"; "include_next"]%string)
  then rest_after_blanks 0 line
  else if decide (op ∈ ["else"; "endif"]%string) then Ok []
  else
    let '(blanks, rest) := span is_space line in
    match blanks, identifier rest with
    | _ :: _, Some (name, rest) =>
        if decide (op = "undef"%string) then Ok [Some name]
        else let '(args, rest) := paren_group rest in
             Ok [Some name; args; Some (span is_space rest).2]
    | _, _ => Raise AttributeError_groups
    end.

Fixpoint to_tuples (l : list (string * text)) : res exn (list dtuple) :=
  match l with
  | [] => Ok []
  | (op, line) :: l =>
      match match_groups op line with
      | Raise e => Raise e
      | Ok gs => match to_tuples l with
                 | Raise e => Raise e
                 | Ok ts => Ok ((op, gs) :: ts)
                 end
      end
  end.

(** [keys] is the order of the alternation. *)
Definition tupleize (keys : list string) (contents : text) : res exn (list dtuple) :=
  let contents := re_sub line_continuation contents in
  to_tuples (find_directives (S (length contents)) keys true contents).

(** ** Expressions *)

Definition CPP_to_Python_Op (s : text) : option (text * text) :=
  match s with
  | "!"%char :: "="%char :: s => Some (T " != ", s)
  | "&"%char :: "&"%char :: s => Some (T " and ", s)
  | "|"%char :: "|"%char :: s => Some (T " or ", s)
  | "!"%char :: s => Some (T " not ", s)
  | "?"%char :: s => Some (T " and ", s)
  | ":"%char :: s => Some (T " or ", s)
  | "013"%char :: s => Some ([], s)
  | _ => None
  end.

Definition dquote : text := ["034"%char].
Definition has_key (w : text) : text := T "__dict__.has_key(" ++ dquote ++ w ++ dquote ++ T ")".

(** [defined\s+(\w+)] *)
Definition defined_word (s : text) : option (text * text) :=
  s ← after (T "defined") s;
  match span is_space s with
  | (_ :: _, s) => match span is_word s with
                   | ((_ :: _) as w, s) => Some (has_key w, s)
                   | _ => None
                   end
  | _ => None
  end.

(** [defined\s*\((\w+)\)] *)
Definition defined_paren (s : text) : option (text * text) :=
  s ← after (T "defined") s;
  match (span is_space s).2 with
  | "("%char :: s => match span is_word s with
                     | ((_ :: _) as w, ")"%char :: s) => Some (has_key w, s)
                     | _ => None
                     end
  | _ => None
  end.

(** What follows the last [*/] of the text before a newline. *)
Fixpoint after_last_close (s : text) : option text :=
  match s with
  | [] => None
  | c :: s' =>
      if decide (c = newline) then None
      else match after_last_close s' with
           | Some r => Some r
           | None => after (T "*/") s
           end
  end.

(** [/\*.*\*/], [/\*.*] and [//.*] *)
Definition closed_comment (s : text) : option (text * text) :=
  s ← after (T "/*") s; r ← after_last_close s; Some ([], r).
Definition open_comment (s : text) : option (text * text) :=
  s ← after (T "/*") s; Some ([], (span not_newline s).2).
Definition line_comment (s : text) : option (text * text) :=
  s ← after (T "//") s; Some ([], (span not_newline s).2).

Definition is_hex (c : ascii) : bool :=
  let n := nat_of_ascii c in
  is_digit c || bool_decide ((65 ≤ n ∧ n ≤ 70) ∨ (97 ≤ n ∧ n ≤ 102)).

(** [0x] and hexadecimal digits, with the suffix [[UL]+] replaced by [L]. *)
Definition hex_suffix (s : text) : option (text * text) :=
  s ← after (T "0x") s;
  let '(digits, s) := span is_hex s in
  match span (λ c, char_in c "UL") s with
  | (_ :: _, s) => Some (T "0x" ++ digits ++ T "L", s)
  | _ => None
  end.

Definition CPP_to_Python (s : text) : text :=
  foldl (λ s m, re_sub m s) (re_sub CPP_to_Python_Op s)
    [defined_word; defined_paren; closed_comment; open_comment; line_comment; hex_suffix].

Example CPP_to_Python_ex :
  CPP_to_Python (T "defined(FOO) && !defined BAR || X != 0x1fUL /* c */") =
  T "__dict__.has_key(" ++ dquote ++ T "FOO" ++ dquote ++ T ")  and   not __dict__.has_key("
    ++ dquote ++ T "BAR" ++ dquote ++ T ")  or  X  !=  0x1fL ".
Proof. vm_compute. reflexivity. Qed.

(** ** Macros *)

(** [function_arg_separator.split]: at each comma, with the blanks after it. *)
Fixpoint split_args_loop (fuel : nat) (s acc : text) : list text :=
  match fuel with
  | O => [acc]
  | S fuel =>
      match s with
      | [] => [acc]
      | ","%char :: s => acc :: split_args_loop fuel (span is_space s).2 []
      | c :: s => split_args_loop fuel s (acc ++ [c])
      end
  end.
Definition split_args (s : text) : list text := split_args_loop (S (length s)) s [].

(** [string.split(expansion, '##')] *)
Fixpoint split_paste (s acc : text) : list text :=
  match s with
  | [] => [acc]
  | c :: s' =>
      match s' with
      | d :: s'' => if decide (c = "#"%char ∧ d = "#"%char) then acc :: split_paste s'' []
                    else split_paste s' (acc ++ [c])
      | [] => [acc ++ [c]]
      end
  end.

(** The expansion of a macro: an integer is not split. *)
Inductive expansion := ExpInt (z : Z) | ExpParts (l : list text).

Record FunctionEvaluator := FE {
  fe_name : text;
  fe_args : list text;
  fe_expansion : expansion
}.

(** The values of the namespace. *)
Inductive value :=
| VInt (z : Z)
| VStr (s : text)
| VFun (f : FunctionEvaluator)
| VNone.

Definition digits_value (s : text) : Z :=
  foldl (λ z c, z * 10 + (Z.of_nat (nat_of_ascii c) - 48))%Z 0%Z s.

(** [int(s)]: blanks around, a sign, decimal digits. *)
Definition parse_int (s : text) : option Z :=
  let s := (span is_space s).2 in
  let '(neg, s) := match s with
                   | "-"%char :: s => (true, s)
                   | "+"%char :: s => (false, s)
                   | _ => (false, s)
                   end in
  match span is_digit s with
  | ((_ :: _) as ds, rest) =>
      if forallb is_space rest
      then Some (if neg then - digits_value ds else digits_value ds)%Z else None
  | _ => None
  end.

Definition FunctionEvaluator_init (name args : text) (e : value) : FunctionEvaluator :=
  FE name (split_args args)
    match e with
    | VStr s => ExpParts (split_paste s [])
    | VInt z => ExpInt z
    | _ => ExpParts []
    end.

(** [locals]: a later argument of the same name wins. *)
Definition bind_args (args values : list text) : gmap text text :=
  foldl (λ m '(k, v), <[k := v]> m) ∅ (zip args values).

Definition is_identifier (s : text) : bool :=
  match identifier s with Some (_, []) => true | _ => false end.

(** [eval] of the statement: literals and arguments joined by [+].  An argument
    that is no identifier makes the statement wrong. *)
Fixpoint eval_parts (args : list text) (locals : gmap text text) (l : list text)
    : res exn text :=
  match l with
  | [] => Ok []
  | s :: l =>
      match eval_parts args locals l with
      | Raise e => Raise e
      | Ok r =>
          if decide (s ∈ args) then
            if is_identifier s then Ok (default [] (locals !! s) ++ r)
            else Raise (ExOther "SyntaxError" "invalid syntax")
          else Ok (s ++ r)
      end
  end.

Definition FunctionEvaluator_call (f : FunctionEvaluator) (values : list text) : res exn text :=
  if decide (length (fe_args f) ≠ length values)
  then Raise (ExOther "ValueError" "Incorrect number of arguments")
  else match fe_expansion f with
       | ExpInt _ => Raise (ExOther "TypeError" "iteration over non-sequence")
       | ExpParts l => eval_parts (fe_args f) (bind_args (fe_args f) values) l
       end.

(** [function_name.search]: the leftmost call of a macro, its name and its
    arguments. *)
Definition call_at (s : text) : option (text * text) :=
  let '(run, _) := span (λ c, negb (is_space c)) s in
  (fix back (j : nat) : option (text * text) :=
     match j with
     | O => None
     | S j' =>
         match drop j s with
         | "("%char :: rest =>
             match span (λ c, bool_decide (c ≠ ")"%char)) rest with
             | (a, ")"%char :: _) => Some (take j s, a)
             | _ => back j'
             end
         | _ => back j'
         end
     end) (length run).

Fixpoint search_call (s : text) : option (text * text) :=
  match call_at s with
  | Some r => Some r
  | None => match s with [] => None | _ :: s => search_call s end
  end.

Example search_call_ex : search_call (T "a FILE(x, y)") = Some (T "FILE", T "x, y").
Proof. reflexivity. Qed.

(** ** The interpreter of the directives *)

(** What a dispatch table maps a directive to. *)
Inductive method :=
| do_if | do_elif | do_else | do_endif | do_ifdef | do_ifndef
| do_define | do_undef | do_import | do_include | all_include
| do_nothing | scons_current_file
| start_handling_includes | stop_handling_includes.

Abbreviation table := (gmap string method).

(** The elements of [result]: file names, and for [all_include] the resolved
    tuples. *)
Inductive entry :=
| EName (f : option text)
| EInclude (t : option (string * ascii * text)).

Record pp := PP {
  stack : list table;
  dispatch_table : table;
  current_file : option text;
  tuples : list dtuple;
  result : list entry;
  cpp_namespace : gmap text value
}.

Definition set_table (f : table → table) (p : pp) : pp :=
  PP (stack p) (f (dispatch_table p)) (current_file p) (tuples p) (result p) (cpp_namespace p).
Definition set_stack (l : list table) (t : table) (p : pp) : pp :=
  PP l t (current_file p) (tuples p) (result p) (cpp_namespace p).
Definition set_current (f : option text) (p : pp) : pp :=
  PP (stack p) (dispatch_table p) f (tuples p) (result p) (cpp_namespace p).
Definition set_tuples (l : list dtuple) (p : pp) : pp :=
  PP (stack p) (dispatch_table p) (current_file p) l (result p) (cpp_namespace p).
Definition add_result (e : entry) (p : pp) : pp :=
  PP (stack p) (dispatch_table p) (current_file p) (tuples p) (result p ++ [e]) (cpp_namespace p).
Definition set_ns (f : gmap text value → gmap text value) (p : pp) : pp :=
  PP (stack p) (dispatch_table p) (current_file p) (tuples p) (result p) (f (cpp_namespace p)).

(** [os.path.join] of POSIX *)
Definition path_join (d f : text) : text :=
  match f with
  | "/"%char :: _ => f
  | _ => if decide (d = [] ∨ last d = Some "/"%char) then d ++ f else d ++ T "/" ++ f
  end.

(** The rest of an include line, [t[1]]. *)
Definition arg1 (t : dtuple) : text := default [] (mjoin (head t.2)).

Section preprocessor.
(** The order of the alternation of directives; the directories of the search
    path; [os.path.isfile]; [open(file).read()]; and [eval]. *)
Variable keys : list string.
Variable current : text.
Variable cpppath : list text.
Variable isfile : text → bool.
Variable readable : text → option text.
Variable eval : text → gmap text value → res exn bool.
(** The flag [all] of the constructor. *)
Variable all : bool.

(** [self.do_include], an attribute of the object when [all] is set; the class
    attribute [do_include_next] stays [PreProcessor.do_include]. *)
Definition self_do_include : method := if all then all_include else do_include.

Definition default_table : table :=
  list_to_map [("scons_current_file", scons_current_file); ("if", do_if);
    ("elif", do_elif); ("else", do_else); ("endif", do_endif); ("ifdef", do_ifdef);
    ("ifndef", do_ifndef); ("define", do_define); ("undef", do_undef);
    ("import", do_import); ("include", self_do_include);
    ("include_next", do_include)]%string.

(** [DumbPreProcessor.__init__] *)
Definition dumb_table : table :=
  foldl (λ d op, <[op := do_nothing]> d) default_table
    ["if"; "elif"; "else"; "endif"; "ifdef"; "ifndef"]%string.

(** The [default_table] of the object at hand. *)
Variable default_tbl : table.

Definition save (p : pp) : pp := set_stack (dispatch_table p :: stack p) default_tbl p.

Definition restore (p : pp) : pp :=
  match stack p with
  | t :: l => set_stack l t p
  | [] => p
  end.

Definition start_includes (d : table) : table :=
  <["include_next" := self_do_include]> (<["include" := self_do_include]>
    (<["import" := do_import]> d)).
Definition stop_includes (d : table) : table :=
  <["include_next" := do_nothing]> (<["include" := do_nothing]>
    (<["import" := do_nothing]> d)).
Definition set_branches (elif els : method) (d : table) : table :=
  <["else" := els]> (<["elif" := elif]> d).

(** [_do_if_else_condition] *)
Definition if_else_condition (condition : bool) (p : pp) : pp :=
  let p := save p in
  if condition
  then set_table (λ d, set_branches stop_handling_includes stop_handling_includes
                         (start_includes d)) p
  else set_table (λ d, set_branches do_elif start_handling_includes (stop_includes d)) p.

(** [eval_expression]; a [NameError] or [TypeError] is false. *)
Definition eval_expression (t : dtuple) (p : pp) : res exn bool :=
  match eval (CPP_to_Python (arg1 t)) (cpp_namespace p) with
  | Ok b => Ok b
  | Raise e => if decide (class_name e = "NameError" ∨ class_name e = "TypeError")
               then Ok false else Raise e
  end.

Definition searchpath (quote : ascii) : list text :=
  if decide (quote = "034"%char) then current :: cpppath else cpppath ++ [current].

(** [find_include_file] *)
Definition find_include_file (quote : ascii) (fname : text) : option text :=
  head (filter (λ f, isfile f = true)
    (map (λ d, if decide (d = T ".") then fname else path_join d fname) (searchpath quote))).

(** [resolve_include]: the name is expanded until it is quoted; [None] when the
    bound on the expansions is too small. *)
Fixpoint resolve_include (fuel : nat) (op : string) (s : text) (ns : gmap text value)
    : res (option exn) (option (string * ascii * text)) :=
  match fuel with
  | O => Raise None
  | S fuel =>
      match s with
      | [] => Raise (Some (ExOther "IndexError" "string index out of range"))
      | c :: body =>
          if decide (c = "<"%char ∨ c = "034"%char)
          then Ok (Some (op, c, take (pred (length body)) body))
          else
            let next (v : value) : res (option exn) (option (string * ascii * text)) :=
              match v with
              | VStr [] | VNone => Ok None
              | VStr s => resolve_include fuel op s ns
              | VInt z => if decide (z = 0%Z) then Ok None
                          else Raise (Some (ExOther "TypeError" "unsubscriptable object"))
              | VFun _ => Raise (Some (ExOther "AttributeError" "__getitem__"))
              end in
            match ns !! s with
            | Some v => next v
            | None =>
                match search_call s with
                | None => Raise (Some (ExOther "AttributeError"
                            "'NoneType' object has no attribute 'group'"))
                | Some (name, args) =>
                    match ns !! name with
                    | None => Raise (Some (ExOther "KeyError" ""))
                    | Some (VFun f) =>
                        match FunctionEvaluator_call f (split_args args) with
                        | Ok s => next (VStr s)
                        | Raise e => Raise (Some e)
                        end
                    | Some v => next v
                    end
                end
            end
      end
  end.

Definition call_define (t : dtuple) (p : pp) : pp :=
  match t.2 with
  | [Some name; args; Some expansion] =>
      let v := match parse_int expansion with
               | Some z => VInt z
               | None => VStr expansion
               end in
      match args with
      | Some ((_ :: _) as a) =>
          set_ns <[name := VFun (FunctionEvaluator_init name
            (take (length a - 2) (drop 1 a)) v)]> p
      | _ => set_ns <[name := v]> p
      end
  | _ => p
  end.

(** [do_include]: the directives of the file found come next. *)
Definition call_include (fuel : nat) (t : dtuple) : eff pp (option exn) unit := λ p,
  match resolve_include fuel t.1 (arg1 t) (cpp_namespace p) with
  | Raise r => (p, Raise r)
  | Ok None => (p, Raise (Some (ExOther "TypeError" "'NoneType' object is unsubscriptable")))
  | Ok (Some (_, quote, fname)) =>
      match find_include_file quote fname with
      | None => (p, Ok tt)
      | Some [] => (p, Ok tt)
      | Some f =>
          let p := add_result (EName (Some f)) p in
          match readable f with
          | None => (p, Raise (Some (ExEnvironmentError "IOError" 2
                       "No such file or directory" None)))
          | Some contents =>
              match tupleize keys contents with
              | Raise e => (p, Raise (Some e))
              | Ok new =>
                  (set_tuples (("scons_current_file"%string, [Some f]) :: new ++
                     [("scons_current_file"%string, [current_file p])] ++ tuples p) p, Ok tt)
              end
          end
      end
  end.

(** One call of [self.dispatch_table[t[0]](t)]. *)
Definition call_method (fuel : nat) (m : method) (t : dtuple) : eff pp (option exn) unit := λ p,
  match m with
  | do_nothing | do_else | do_import => (p, Ok tt)
  | scons_current_file => (set_current (mjoin (head t.2)) p, Ok tt)
  | do_ifdef => (if_else_condition (bool_decide (is_Some (cpp_namespace p !! arg1 t))) p, Ok tt)
  | do_ifndef =>
      (if_else_condition (negb (bool_decide (is_Some (cpp_namespace p !! arg1 t)))) p, Ok tt)
  | do_if =>
      match eval_expression t p with
      | Ok b => (if_else_condition b p, Ok tt)
      | Raise e => (p, Raise (Some e))
      end
  | do_elif =>
      match eval_expression t p with
      | Ok true => (set_table (λ d, set_branches stop_handling_includes stop_handling_includes
                                      (start_includes d)) p, Ok tt)
      | Ok false => (p, Ok tt)
      | Raise e => (p, Raise (Some e))
      end
  | do_endif => (restore p, Ok tt)
  | do_define => (call_define t p, Ok tt)
  | do_undef => (set_ns (delete (arg1 t)) p, Ok tt)
  | do_include => call_include fuel t p
  | all_include =>
      match resolve_include fuel t.1 (arg1 t) (cpp_namespace p) with
      | Ok r => (add_result (EInclude r) p, Ok tt)
      | Raise r => (p, Raise r)
      end
  | start_handling_includes => (set_table start_includes p, Ok tt)
  | stop_handling_includes => (set_table stop_includes p, Ok tt)
  end.

Definition dispatch (fuel : nat) (t : dtuple) : eff pp (option exn) unit := λ p,
  match dispatch_table p !! t.1 with
  | Some m => call_method fuel m t p
  | None => (p, Raise (Some (ExOther "KeyError" t.1)))
  end.

(** The loop of [process_contents]: [None] when the fuel is used up. *)
Fixpoint process_tuples (fuel : nat) : eff pp (option exn) unit := λ p,
  match tuples p with
  | [] => (p, Ok tt)
  | t :: l =>
      match fuel with
      | O => (p, Raise None)
      | S fuel => (dispatch fuel t ;;; process_tuples fuel)%eff (set_tuples l p)
      end
  end.

Definition process_contents (fuel : nat) (contents : text) (fname : option text)
    (ns : gmap text value) : res (option exn) (list entry) :=
  match tupleize keys contents with
  | Raise e => Raise (Some e)
  | Ok ts =>
      match process_tuples fuel (PP [] default_tbl fname ts [EName fname] ns) with
      | (p, Ok _) => Ok (drop 1 (result p))
      | (_, Raise r) => Raise r
      end
  end.
End preprocessor.
