(* ===== verification/CppFacts.v ===== *)
(** * The C preprocessor: theorems

    The stack machine of [Cpp] is related to a structured reading of a file, in
    which a conditional group is a list of branches. *)

From S2P Require Import Prelude Errors PyStr Cpp.
Open Scope nat_scope.

(** ** Structured files *)

(** [Plain]: a directive that opens, continues or closes no group. *)
Inductive item :=
| Plain (t : dtuple)
| Group (hd : dtuple) (body : list item) (elifs : list (dtuple * list item))
    (els : option (list item)).

Definition t_else : dtuple := ("else"%string, []).
Definition t_endif : dtuple := ("endif"%string, []).

Fixpoint flatten_item (i : item) : list dtuple :=
  match i with
  | Plain t => [t]
  | Group hd body elifs els =>
      hd :: flat_map flatten_item body ++
      flat_map (λ b, b.1 :: flat_map flatten_item b.2) elifs ++
      match els with
      | Some body => t_else :: flat_map flatten_item body
      | None => []
      end ++ [t_endif]
  end.
Definition flatten (l : list item) : list dtuple := flat_map flatten_item l.

Definition flatten_elifs (elifs : list (dtuple * list item)) : list dtuple :=
  flat_map (λ b, b.1 :: flatten b.2) elifs.
Definition flatten_else (els : option (list item)) : list dtuple :=
  match els with Some body => t_else :: flatten body | None => [] end.

(** What the directives change: the namespace, the result, the current file. *)
Record world := World {
  w_ns : gmap text value;
  w_result : list entry;
  w_current : option text
}.

Section structured.
Variables (keys : list string) (current : text) (cpppath : list text).
Variables (isfile : text → bool) (readable : text → option text).
Variable eval : text → gmap text value → res exn bool.

Definition machine (fuel : nat) : dtuple → eff pp (option exn) unit :=
  dispatch keys current cpppath isfile readable eval false (default_table false) fuel.

(** The condition of a group in a namespace. *)
Definition condition (t : dtuple) (ns : gmap text value) : res exn bool :=
  if decide (t.1 = "ifdef"%string) then Ok (bool_decide (is_Some (ns !! arg1 t)))
  else if decide (t.1 = "ifndef"%string)
  then Ok (negb (bool_decide (is_Some (ns !! arg1 t))))
  else eval_expression eval t (PP [] ∅ None [] [] ns).

(** Including a file: the name found, and its items. *)
Definition include_found (fuel : nat) (t : dtuple) (ns : gmap text value)
    (f : option text) : Prop :=
  ∃ q name, resolve_include fuel t.1 (arg1 t) ns = Ok (Some q) ∧ q.2 = name ∧
    find_include_file current cpppath isfile q.1.2 name = f.

(** A directive that is not an include that is handled. *)
Inductive simple (en : bool) (t : dtuple) : world → world → Prop :=
| simple_define w :
    t.1 = "define"%string →
    simple en t w (World (cpp_namespace (call_define t (PP [] ∅ None [] [] (w_ns w))))
                     (w_result w) (w_current w))
| simple_undef w :
    t.1 = "undef"%string →
    simple en t w (World (delete (arg1 t) (w_ns w)) (w_result w) (w_current w))
| simple_import w : t.1 = "import"%string → simple en t w w
| simple_skipped w :
    en = false → t.1 ∈ ["include"; "include_next"]%string → simple en t w w
| simple_not_found w fuel f :
    en = true → t.1 ∈ ["include"; "include_next"]%string →
    include_found fuel t (w_ns w) f → f = None ∨ f = Some [] → simple en t w w.

(** The structured reading: [en] tells whether includes are handled.  A branch
    is handled when its condition is the first to be true; the conditions after
    it are not evaluated.  A nested group does not look at [en]. *)
Inductive run : bool → list item → world → world → Prop :=
| run_nil en w : run en [] w w
| run_simple en t l w w1 w2 :
    simple en t w w1 → run en l w1 w2 → run en (Plain t :: l) w w2
| run_include t l w fuel f contents l' w1 w2 :
    t.1 ∈ ["include"; "include_next"]%string →
    include_found fuel t (w_ns w) (Some f) → f ≠ [] →
    readable f = Some contents → tupleize keys contents = Ok (flatten l') →
    run true l' (World (w_ns w) (w_result w ++ [EName (Some f)]) (Some f)) w1 →
    run true l (World (w_ns w1) (w_result w1) (w_current w)) w2 →
    run true (Plain t :: l) w w2
| run_group en hd body elifs els l b w w1 w2 w3 :
    hd.1 ∈ ["if"; "ifdef"; "ifndef"]%string →
    condition hd (w_ns w) = Ok b → run b body w w1 →
    run_branches b elifs els w1 w2 → run en l w2 w3 →
    run en (Group hd body elifs els :: l) w w3
with run_branches : bool → list (dtuple * list item) → option (list item) →
    world → world → Prop :=
| branches_end taken w : run_branches taken [] None w w
| branches_else taken body w w1 :
    run (negb taken) body w w1 → run_branches taken [] (Some body) w w1
| branches_skip t body elifs els w w1 w2 :
    t.1 = "elif"%string → run false body w w1 → run_branches true elifs els w1 w2 →
    run_branches true ((t, body) :: elifs) els w w2
| branches_elif t body elifs els b w w1 w2 :
    t.1 = "elif"%string → condition t (w_ns w) = Ok b →
    run b body w w1 → run_branches b elifs els w1 w2 →
    run_branches false ((t, body) :: elifs) els w w2.

Scheme run_mut := Minimality for run Sort Prop
  with run_branches_mut := Minimality for run_branches Sort Prop.
Combined Scheme run_both from run_mut, run_branches_mut.

(** ** Steps of the machine *)

Definition step (p p' : pp) : Prop :=
  ∃ fuel t l, tuples p = t :: l ∧ machine fuel t (set_tuples l p) = (p', Ok tt).

(** A table in which includes are handled or not, and all else is default. *)
Definition plain_table (tb : table) (en : bool) : Prop :=
  (∀ op, op ∈ ["if"; "ifdef"; "ifndef"; "endif"; "define"; "undef"; "scons_current_file"]%string →
     tb !! op = default_table false !! op) ∧
  tb !! "import"%string = Some (if en then do_import else do_nothing) ∧
  tb !! "include"%string = Some (if en then do_include else do_nothing) ∧
  tb !! "include_next"%string = Some (if en then do_include else do_nothing).

(** The table inside a group, by whether a branch has been taken. *)
Definition group_table (tb : table) (taken en : bool) : Prop :=
  plain_table tb en ∧
  tb !! "elif"%string = Some (if taken then stop_handling_includes else do_elif) ∧
  tb !! "else"%string = Some (if taken then stop_handling_includes else start_handling_includes).

#[local] Ltac table_lookup :=
  repeat match goal with
  | |- context [<[?k := _]> _ !! ?k] => rewrite lookup_insert_eq
  | |- context [<[_ := _]> _ !! _] => rewrite lookup_insert_ne by done
  end.

Lemma start_plain tb en : plain_table tb en → plain_table (start_includes false tb) true.
Proof.
  intros (H1 & _). unfold start_includes, self_do_include. split_and!; table_lookup; try done.
  intros op Hop. rewrite <- H1 by done. set_unfold. destruct_or! Hop; subst; by table_lookup.
Qed.

Lemma stop_plain tb en : plain_table tb en → plain_table (stop_includes tb) false.
Proof.
  intros (H1 & _). unfold stop_includes. split_and!; table_lookup; try done.
  intros op Hop. rewrite <- H1 by done. set_unfold. destruct_or! Hop; subst; by table_lookup.
Qed.

Lemma branches_plain tb en a b : plain_table tb en → plain_table (set_branches a b tb) en.
Proof.
  intros (H1 & H2 & H3 & H4). unfold set_branches. split_and!; table_lookup; try done.
  intros op Hop. rewrite <- H1 by done. set_unfold. destruct_or! Hop; subst; by table_lookup.
Qed.

Lemma default_plain : plain_table (default_table false) true.
Proof. by split_and!. Qed.

(** The tables the directives of a group lead to. *)
Lemma opened_table b :
  group_table (if b : bool
    then set_branches stop_handling_includes stop_handling_includes
           (start_includes false (default_table false))
    else set_branches do_elif start_handling_includes (stop_includes (default_table false))) b b.
Proof.
  destruct b; (split; [|unfold set_branches; split; by table_lookup]); apply branches_plain.
  - eapply start_plain, default_plain.
  - eapply stop_plain, default_plain.
Qed.

Lemma elif_table tb en :
  group_table tb false en →
  group_table (set_branches stop_handling_includes stop_handling_includes
    (start_includes false tb)) true true.
Proof.
  intros (H1 & _). split; [by eapply branches_plain, start_plain|].
  unfold set_branches. split; by table_lookup.
Qed.

Lemma stop_table tb en : group_table tb true en → group_table (stop_includes tb) true false.
Proof.
  intros (H1 & H2 & H3). split; [by eapply stop_plain|].
  unfold stop_includes. split; by table_lookup.
Qed.

(** The machine in front of [l], with the stack and table given. *)
Definition at_world (stk : list table) (tb : table) (l : list dtuple) (w : world) : pp :=
  PP stk tb (w_current w) l (w_result w) (w_ns w).

Lemma step_method stk tb t l w m p' fuel :
  tb !! t.1 = Some m →
  call_method keys current cpppath isfile readable eval false (default_table false) fuel m t
    (at_world stk tb l w) = (p', Ok tt) →
  step (at_world stk tb (t :: l) w) p'.
Proof.
  intros Hm Hc. exists fuel, t, l. split; [done|]. unfold machine, dispatch. simpl.
  rewrite Hm. exact Hc.
Qed.

Lemma plain_lookup tb en op :
  plain_table tb en →
  op ∈ ["if"; "ifdef"; "ifndef"; "endif"; "define"; "undef"; "scons_current_file"]%string →
  tb !! op = default_table false !! op.
Proof. intros (H1 & _). apply H1. Qed.

Lemma include_lookup tb en (t : dtuple) :
  plain_table tb en → t.1 ∈ ["include"; "include_next"]%string →
  tb !! t.1 = Some (if en then do_include else do_nothing).
Proof. intros (_ & _ & H3 & H4) Ht. set_unfold. destruct Ht as [-> | [-> | []]]; done. Qed.

Lemma step_simple en t w w1 stk tb l :
  plain_table tb en → simple en t w w1 →
  step (at_world stk tb (t :: l) w) (at_world stk tb l w1).
Proof.
  intros Htb Hs. destruct Hs as [w E|w E|w E|w -> E|w fuel f -> E (q & name & Hr & <- & Hf) Hn].
  - eapply (step_method _ _ _ _ _ do_define _ 0).
    + rewrite (plain_lookup tb en) by (done || rewrite E; set_solver). by rewrite E.
    + simpl. unfold call_define. destruct (t.2) as [|[name|] [|args [|[e|] [|]]]]; try done.
      by destruct args as [[|a args]|].
  - eapply (step_method _ _ _ _ _ do_undef _ 0); [|done].
    rewrite (plain_lookup tb en) by (done || rewrite E; set_solver). by rewrite E.
  - destruct Htb as (_ & Hi & _). rewrite <- E in Hi.
    eapply (step_method _ _ _ _ _ _ _ 0); [exact Hi|by destruct en].
  - eapply (step_method _ _ _ _ _ _ _ 0); [by eapply include_lookup|done].
  - eapply (step_method _ _ _ _ _ _ _ fuel); [by eapply include_lookup|].
    simpl. unfold call_include. simpl. rewrite Hr. destruct q as [[op quote] name].
    simpl in Hf. rewrite Hf. by destruct Hn as [-> | ->].
Qed.

(** An [#if], [#ifdef] or [#ifndef]. *)
Lemma step_open hd b w stk tb en l :
  plain_table tb en → hd.1 ∈ ["if"; "ifdef"; "ifndef"]%string →
  condition hd (w_ns w) = Ok b →
  ∃ tb', group_table tb' b b ∧
    step (at_world stk tb (hd :: l) w) (at_world (tb :: stk) tb' l w).
Proof.
  intros Htb Hop Hc. eexists. split; [apply (opened_table b)|].
  assert (tb !! hd.1 = default_table false !! hd.1) as Hm.
  { eapply plain_lookup; [done|]. set_solver. }
  assert (Hif : ∀ b', if_else_condition false (default_table false) b' (at_world stk tb l w) =
    at_world (tb :: stk) (if b' : bool
    then set_branches stop_handling_includes stop_handling_includes
           (start_includes false (default_table false))
    else set_branches do_elif start_handling_includes (stop_includes (default_table false))) l w)
    by by intros [].
  unfold condition in Hc. set_unfold. destruct Hop as [E|[E|[E|[]]]]; rewrite E in *.
  - eapply (step_method _ _ _ _ _ do_if _ 0); [by rewrite E, Hm|]. simpl in *.
    unfold eval_expression in *. simpl in *.
    destruct (eval _ (w_ns w)) as [b'|e]; [injection Hc as ->; by rewrite Hif|].
    case_decide; [injection Hc as <-; by rewrite Hif|done].
  - eapply (step_method _ _ _ _ _ do_ifdef _ 0); [by rewrite E, Hm|].
    simpl in *. injection Hc as <-. by rewrite Hif.
  - eapply (step_method _ _ _ _ _ do_ifndef _ 0); [by rewrite E, Hm|].
    simpl in *. injection Hc as <-. by rewrite Hif.
Qed.

(** An [#elif] and an [#else], after a branch taken or not. *)
Lemma step_elif_taken t w stk tb en l :
  group_table tb true en → t.1 = "elif"%string →
  step (at_world stk tb (t :: l) w) (at_world stk (stop_includes tb) l w).
Proof.
  intros (_ & He & _) E. rewrite <- E in He.
  by eapply (step_method _ _ _ _ _ _ _ 0); [exact He|].
Qed.

Lemma step_elif t b w stk tb en l :
  group_table tb false false → t.1 = "elif"%string → condition t (w_ns w) = Ok b → en = b →
  ∃ tb', group_table tb' b en ∧ step (at_world stk tb (t :: l) w) (at_world stk tb' l w).
Proof.
  intros Htb E Hc ->. exists (if b : bool
    then set_branches stop_handling_includes stop_handling_includes (start_includes false tb)
    else tb).
  split; [destruct b; [by eapply elif_table|done]|].
  destruct Htb as (_ & He & _). rewrite <- E in He.
  eapply (step_method _ _ _ _ _ _ _ 0); [exact He|]. simpl.
  unfold condition in Hc. rewrite E in Hc. simpl in Hc. unfold eval_expression in *. simpl in *.
  destruct (eval _ (w_ns w)) as [[]|e]; [by injection Hc as <-..|].
  case_decide; [by injection Hc as <-|done].
Qed.

Lemma step_else taken w stk tb en l :
  group_table tb taken en → (taken = false → en = false) →
  ∃ tb', plain_table tb' (negb taken) ∧
    step (at_world stk tb (t_else :: l) w) (at_world stk tb' l w).
Proof.
  intros (Hp & _ & He) Hen. change "else"%string with (t_else.1) in He.
  destruct taken; eexists; (split; [|eapply (step_method _ _ _ _ _ _ _ 0); [exact He|done]]).
  - by eapply stop_plain.
  - by eapply start_plain.
Qed.

Lemma step_endif tb0 tb en w stk l :
  plain_table tb en →
  step (at_world (tb0 :: stk) tb (t_endif :: l) w) (at_world stk tb0 l w).
Proof.
  intros Hp. eapply (step_method _ _ _ _ _ do_endif _ 0); [|done].
  by rewrite (plain_lookup tb en) by (done || set_solver).
Qed.

Lemma step_include t w fuel f contents l' stk tb rest :
  plain_table tb true → t.1 ∈ ["include"; "include_next"]%string →
  include_found fuel t (w_ns w) (Some f) → f ≠ [] →
  readable f = Some contents → tupleize keys contents = Ok (flatten l') →
  rtc step (at_world stk tb (t :: rest) w)
    (at_world stk tb (flatten l' ++
       ("scons_current_file"%string, [w_current w]) :: rest)
       (World (w_ns w) (w_result w ++ [EName (Some f)]) (Some f))).
Proof.
  intros Htb Ht ([[op quote] name'] & name & Hr & <- & Hf) Hne Hread Htup.
  destruct f as [|c f]; [done|]. eapply rtc_l.
  - eapply (step_method _ _ _ _ _ _ _ fuel); [by eapply include_lookup|]. simpl.
    unfold call_include. simpl in *. by rewrite Hr, Hf, Hread, Htup.
  - eapply rtc_l; [|apply rtc_refl].
    eapply (step_method _ _ _ _
      (World (w_ns w) (w_result w ++ [EName (Some (c :: f))]) (w_current w))
      scons_current_file _ 0); [|done].
    by rewrite (plain_lookup tb true) by (done || set_solver).
Qed.

Lemma flatten_group hd body elifs els l rest :
  flatten (Group hd body elifs els :: l) ++ rest =
  hd :: flatten body ++ flatten_elifs elifs ++ flatten_else els ++
    t_endif :: flatten l ++ rest.
Proof.
  unfold flatten. cbn [flat_map flatten_item]. unfold flatten_elifs, flatten_else, flatten.
  cbn [app]. f_equal. rewrite <- !app_assoc. do 2 f_equal.
Qed.

(** Every structured reading is a run of the machine, whatever directives
    follow; inside a group, up to its [#endif]. *)
Lemma simulation :
  (∀ en l w w', run en l w w' → ∀ tb stk rest, plain_table tb en →
     rtc step (at_world stk tb (flatten l ++ rest) w) (at_world stk tb rest w')) ∧
  (∀ taken elifs els w w', run_branches taken elifs els w w' →
     ∀ tb en stk rest, group_table tb taken en → (taken = false → en = false) →
     ∃ tb' en', plain_table tb' en' ∧
       rtc step (at_world stk tb (flatten_elifs elifs ++ flatten_else els ++ t_endif :: rest) w)
         (at_world stk tb' (t_endif :: rest) w')).
Proof.
  apply run_both.
  - intros en w tb stk rest Htb. apply rtc_refl.
  - intros en t l w w1 w2 Hs _ IH tb stk rest Htb. cbn [flatten flat_map flatten_item app].
    eapply rtc_l; [by eapply step_simple|]. by apply IH.
  - intros t l w fuel f contents l' w1 w2 Ht Hf Hne Hread Htup _ IH1 _ IH2 tb stk rest Htb.
    cbn [flatten flat_map flatten_item app].
    etrans; [by eapply step_include|].
    etrans; [by apply IH1|].
    eapply rtc_l; [|by apply (IH2 tb stk)].
    eapply (step_method _ _ _ _ w1 scons_current_file _ 0); [|done].
    by rewrite (plain_lookup tb true) by (done || set_solver).
  - intros en hd body elifs els l b w w1 w2 w3 Hop Hc _ IH1 _ IH2 _ IH3 tb stk rest Htb.
    rewrite flatten_group.
    destruct (step_open hd b w stk tb en (flatten body ++ flatten_elifs elifs ++
      flatten_else els ++ t_endif :: flatten l ++ rest) Htb Hop Hc) as (tb1 & Hg & Hst).
    eapply rtc_l; [exact Hst|]. etrans; [apply IH1, Hg|].
    destruct (IH2 tb1 b (tb :: stk) (flatten l ++ rest) Hg) as (tb2 & en' & Hp & Hrun).
    { by intros ->. }
    etrans; [exact Hrun|]. eapply rtc_l; [by eapply step_endif|].
    by apply IH3.
  - intros taken w tb en stk rest Hg _. exists tb, en. split; [apply Hg|apply rtc_refl].
  - intros taken body w w1 _ IH tb en stk rest Hg Hen.
    destruct (step_else taken w stk tb en (flatten body ++ t_endif :: rest) Hg Hen)
      as (tb' & Hp & Hst).
    exists tb', (negb taken). split; [done|]. cbn [flatten_elifs flat_map flatten_else app].
    eapply rtc_l; [exact Hst|]. by apply IH.
  - intros t body elifs els w w1 w2 E _ IH1 _ IH2 tb en stk rest Hg _.
    pose proof (stop_table tb en Hg) as Hg'.
    destruct (IH2 (stop_includes tb) false stk rest Hg') as (tb' & en' & Hp & Hrun); [done|].
    exists tb', en'. split; [done|]. unfold flatten_elifs. cbn [flat_map fst snd app].
    rewrite <- app_assoc. eapply rtc_l; [by eapply step_elif_taken|].
    etrans; [|exact Hrun]. apply IH1, Hg'.
  - intros t body elifs els b w w1 w2 E Hc _ IH1 _ IH2 tb en stk rest Hg Hen.
    rewrite (Hen eq_refl) in Hg. unfold flatten_elifs. cbn [flat_map fst snd app].
    rewrite <- app_assoc.
    edestruct (step_elif t b w stk tb b) as (tb1 & Hg1 & Hst); [done..|].
    destruct (IH2 tb1 b stk rest Hg1) as (tb' & en' & Hp & Hrun); [by intros ->|].
    exists tb', en'. split; [done|]. eapply rtc_l; [exact Hst|].
    etrans; [|exact Hrun]. apply IH1, Hg1.
Qed.

(** ** Fuel *)

Lemma resolve_include_mono fuel fuel' op s ns r :
  fuel ≤ fuel' → resolve_include fuel op s ns = r → r ≠ Raise None →
  resolve_include fuel' op s ns = r.
Proof.
  revert fuel' s. induction fuel as [|fuel IH]; intros fuel' s Hle; [by intros <-|].
  destruct fuel' as [|fuel']; [lia|]. simpl. intros Hr Hn. revert Hr.
  repeat first [ done | case_match ]; intros Hr; (done || apply IH; [lia|done|done]).
Qed.

Lemma dispatch_mono fuel fuel' t p p' :
  fuel ≤ fuel' → machine fuel t p = (p', Ok tt) → machine fuel' t p = (p', Ok tt).
Proof.
  intros Hle. unfold machine, dispatch. destruct (dispatch_table p !! t.1) as [m|]; [|done].
  destruct m; try done; simpl; unfold call_include;
    destruct (resolve_include fuel t.1 (arg1 t) (cpp_namespace p)) as [r|[e|]] eqn:E; try done;
    by rewrite (resolve_include_mono _ _ _ _ _ _ Hle E).
Qed.

Lemma process_steps p p' :
  rtc step p p' → tuples p' = [] →
  ∃ fuel0, ∀ fuel, fuel0 ≤ fuel →
    process_tuples keys current cpppath isfile readable eval false (default_table false) fuel p =
    (p', Ok tt).
Proof.
  intros Hr He. induction Hr as [p|p1 p2 p3 (fuel1 & t & l & Ht & Hd) _ IH].
  - exists 0. intros [|fuel] _; simpl; by rewrite He.
  - destruct (IH He) as [fuel2 H2]. exists (S (fuel1 + fuel2)).
    intros [|fuel] Hf; [lia|]. cbn [process_tuples]. rewrite Ht. unfold ebind.
    assert (machine fuel t (set_tuples l p1) = (p2, Ok tt)) as Hd'
      by (eapply dispatch_mono; [|exact Hd]; lia).
    unfold machine in Hd'. rewrite Hd'. apply H2. lia.
Qed.
End structured.

(** C36: a file whose directives are the structured items [l], and for which there
    is a run of the structured reading [run], is processed as it says, with any
    fuel that is large enough: of every group one branch is taken, the first whose
    condition is true or else that of [#else], and its includes are handled;
    conditions of the group after it are not evaluated; the
    directives of an included file come in the place of its [#include]; and
    what is returned are the files found.  In the branches not taken the includes
    are skipped, but [#define] and [#undef] act, and a group nested in them is
    read as any other: its conditions are evaluated and the includes of the branch
    it takes are handled ([nested_group_revives_includes]). *)
Theorem process_structured keys current cpppath isfile readable eval
    contents l fname ns w :
  tupleize keys contents = Ok (flatten l) →
  run keys current cpppath isfile readable eval true l (World ns [EName fname] fname) w →
  ∃ fuel0, ∀ fuel, fuel0 ≤ fuel →
    process_contents keys current cpppath isfile readable eval false (default_table false)
      fuel contents fname ns = Ok (drop 1 (w_result w)).
Proof.
  intros Ht Hr. unfold process_contents. rewrite Ht.
  destruct (simulation keys current cpppath isfile readable eval) as [Hsim _].
  specialize (Hsim _ _ _ _ Hr (default_table false) [] [] default_plain).
  rewrite app_nil_r in Hsim. destruct (process_steps _ _ _ _ _ _ _ _ Hsim eq_refl) as [fuel0 H].
  exists fuel0. intros fuel Hf.
  change (PP [] (default_table false) fname (flatten l) [EName fname] ns)
    with (at_world [] (default_table false) (flatten l) (World ns [EName fname] fname)).
  by rewrite (H fuel Hf).
Qed.

(** ** Concrete files *)

(** The only expression that is true is [1]; [a.h] and [b.h] exist and are empty. *)
Definition demo_eval (t : text) (_ : gmap text value) : res exn bool :=
  Ok (bool_decide (t = T "1")).
Definition demo_isfile (f : text) : bool := bool_decide (f = T "a.h" ∨ f = T "b.h").
Definition demo_process (contents : text) : res (option exn) (list entry) :=
  process_contents directives (T ".") [] demo_isfile (λ _, Some []) demo_eval false
    (default_table false) 20 contents None ∅.

Example process_structured_witness :
  ∃ fuel, process_contents directives (T ".") [] demo_isfile (λ _, Some []) demo_eval false
    (default_table false) fuel (T "#ifdef A
#include <a.h>
#else
#  include <b.h>
#endif
") None ∅ = Ok [EName (Some (T "b.h"))].
Proof.
  edestruct (process_structured directives (T ".") [] demo_isfile (λ _, Some []) demo_eval
    (T "#ifdef A
#include <a.h>
#else
#  include <b.h>
#endif
") [Group ("ifdef"%string, [Some (T "A")])
      [Plain ("include"%string, [Some (T "<a.h>")])] []
      (Some [Plain ("include"%string, [Some (T "<b.h>")])])] None ∅) as [fuel Hf].
  - vm_compute. reflexivity.
  - eapply run_group; [set_solver|vm_compute; reflexivity| | |apply run_nil].
    + eapply run_simple; [apply simple_skipped; [done|set_solver]|apply run_nil].
    + apply branches_else. eapply (run_include _ _ _ _ _ _ _ _ _ 5 (T "b.h") [] []);
        [set_solver| |done|done|done|apply run_nil|apply run_nil].
      eexists _, _. split_and!; vm_compute; reflexivity.
  - exists fuel. by rewrite Hf.
Defined.

(** A group nested in a branch that is not taken has its includes handled,
    and a macro defined in such a branch is defined. *)
Theorem nested_group_revives_includes :
  demo_process (T "#if 0
#include <b.h>
#if 1
#include <a.h>
#endif
#define X
#endif
#ifdef X
#include <b.h>
#endif
") = Ok [EName (Some (T "a.h")); EName (Some (T "b.h"))].
Proof. vm_compute. reflexivity. Qed.
