(* ===== verification/Dblite.v ===== *)
(** * The signature database ([SCons/dblite.py])

    [dblite] keeps a dictionary in memory and writes it, pickled, to a temporary
    file that then takes the place of the database.  The file system is a map
    from names to contents, the calls that change it are listed one by one so
    that a crash between two of them can be described; pickling is a parameter,
    with what its documentation says as a hypothesis of the theorems. *)

From S2P Require Import Prelude Errors PyStr.
Open Scope nat_scope.

(** Keys and values are strings, or something else that is refused. *)
Inductive key_arg := KStr (s : text) | KOther (cls : string).

(** One change of the file system. *)
Inductive fs_call :=
| Write (name contents : text)
| Unlink (name : text)
| Rename (old new : text).

Record fs := FS {
  files : gmap text text;
  (** Writing to the directory is allowed. *)
  writable : bool
}.

Record dblite := Dblite {
  file_name : text;
  tmp_name : text;
  flag : ascii;
  dict : gmap text text;
  needs_sync : bool
}.

Definition IOError (msg : string) (file : text) : exn :=
  ExEnvironmentError "IOError" 2 msg (Some (String.string_of_list_ascii file)).
Definition OSError (msg : string) (file : text) : exn :=
  ExEnvironmentError "OSError" 2 msg (Some (String.string_of_list_ascii file)).

Definition dblite_suffix : text := T ".dblite".
Definition tmp_suffix : text := T ".tmp".

(** [os.path.splitext]: at the last dot behind the last slash, when some other
    character than a dot stands before it in the name. *)
Definition splitext (s : text) : text * text :=
  let sep := rfind s "/" in
  let dot := rfind s "." in
  if decide (sep < dot)%Z then
    let name := take (Z.to_nat (dot - (sep + 1))) (drop (Z.to_nat (sep + 1)) s) in
    if existsb (λ c, negb (bool_decide (c = "."%char))) name
    then (take (Z.to_nat dot) s, drop (Z.to_nat dot) s) else (s, [])
  else (s, []).

Example splitext_dblite : splitext (T "a.b/sconsign.dblite") = (T "a.b/sconsign", T ".dblite").
Proof. reflexivity. Qed.
Example splitext_hidden : splitext (T "/.sconsign") = (T "/.sconsign", []).
Proof. reflexivity. Qed.

(** The names of the database and of the temporary file. *)
Definition names (file_base_name : text) : text * text :=
  let '(base, ext) := splitext file_base_name in
  if decide (ext = dblite_suffix) then (file_base_name, base ++ tmp_suffix)
  else (file_base_name ++ dblite_suffix, file_base_name ++ tmp_suffix).

Section dblite.
(** [cPickle.loads] (with its exceptions as [None]) and [cPickle.dump]. *)
Variable loads : text → option (gmap text text).
Variable dumps : gmap text text → text.
(** The module's [ignore_corrupt_dbfiles]: an exception is raised when it is 0. *)
Variable ignore_corrupt : nat.

(** A file opened for writing is empty. *)
Definition open_write (name : text) : eff fs exn unit := λ f,
  if writable f then (FS (<[name := []]> (files f)) true, Ok tt)
  else (f, Raise (IOError "Permission denied" name)).

(** [__init__]; the flag is one of [r], [w], [c], [n], and [r] by default. *)
Definition dblite_init (file_base_name : text) (fl : option ascii) : eff fs exn dblite := λ f,
  let fl := default "r"%char fl in
  let '(name, tmp) := names file_base_name in
  if negb (char_in fl "rwcn") then (f, Raise (ExOther "AssertionError" ""))
  else if decide (fl = "n"%char) then
    (let! _ := open_write name in eret (Dblite name tmp fl ∅ false))%eff f
  else
    match files f !! name with
    | None =>
        if decide (fl = "c"%char)
        then (let! _ := open_write name in eret (Dblite name tmp fl ∅ false))%eff f
        else (f, Raise (IOError "No such file or directory" name))
    | Some [] => (f, Ok (Dblite name tmp fl ∅ false))
    | Some p =>
        match loads p with
        | Some d => (f, Ok (Dblite name tmp fl d false))
        | None =>
            if decide (ignore_corrupt = 0)
            then (f, Raise (ExOther "UnpicklingError" ""))
            else (f, Ok (Dblite name tmp fl ∅ false))
        end
    end.

Definition check_writable (d : dblite) : res exn unit :=
  if decide (flag d = "r"%char)
  then Raise (ExEnvironmentError "IOError" 0
    ("Read-only database: " +:+ String.string_of_list_ascii (file_name d)) None)
  else Ok tt.

(** The calls of [sync], in order: the temporary file is opened, then written,
    the database unlinked, and the temporary file renamed to it. *)
Definition sync_calls (d : dblite) : list fs_call :=
  [Write (tmp_name d) []; Write (tmp_name d) (dumps (dict d)); Unlink (file_name d);
   Rename (tmp_name d) (file_name d)].

Definition fs_step (c : fs_call) : eff fs exn unit := λ f,
  if negb (writable f) then
    (f, Raise match c with
              | Write name _ => IOError "Permission denied" name
              | Unlink name | Rename name _ => OSError "Permission denied" name
              end)
  else
  match c with
  | Write name contents => (FS (<[name := contents]> (files f)) true, Ok tt)
  | Unlink name =>
      match files f !! name with
      | Some _ => (FS (delete name (files f)) true, Ok tt)
      | None => (f, Raise (OSError "No such file or directory" name))
      end
  | Rename old new =>
      match files f !! old with
      | Some p => (FS (<[new := p]> (delete old (files f))) true, Ok tt)
      | None => (f, Raise (OSError "No such file or directory" old))
      end
  end.

Fixpoint fs_steps (l : list fs_call) : eff fs exn unit :=
  match l with
  | [] => eret tt
  | c :: l => (let! _ := fs_step c in fs_steps l)%eff
  end.

(** [sync], [keep_all_files] being off as it is set; changing the mode and the
    owner of the file has no effect on its contents. *)
Definition sync (d : dblite) : eff fs exn dblite := λ f,
  match check_writable d with
  | Raise e => (f, Raise e)
  | Ok _ =>
      match fs_steps (sync_calls d) f with
      | (f, Ok _) => (f, Ok (Dblite (file_name d) (tmp_name d) (flag d) (dict d) false))
      | (f, Raise e) => (f, Raise e)
      end
  end.

(** [__del__] *)
Definition dblite_del (d : dblite) : eff fs exn dblite :=
  if needs_sync d then sync d else eret d.

Definition getitem (d : dblite) (key : text) : res exn text :=
  match dict d !! key with Some v => Ok v | None => Raise (ExOther "KeyError" "") end.

Definition setitem (key value : key_arg) : eff dblite exn unit := λ d,
  match check_writable d with
  | Raise e => (d, Raise e)
  | Ok _ =>
      match key, value with
      | KStr k, KStr v =>
          (Dblite (file_name d) (tmp_name d) (flag d) (<[k := v]> (dict d)) true, Ok tt)
      | KOther c, _ => (d, Raise (ExOther "TypeError" ("key must be a string but is " +:+ c)))
      | _, KOther c => (d, Raise (ExOther "TypeError" ("value must be a string but is " +:+ c)))
      end
  end.

Definition has_key (d : dblite) (key : text) : bool := bool_decide (is_Some (dict d !! key)).
Definition len (d : dblite) : nat := size (dict d).

(** A session: items set one after the other, stopping at an exception. *)
Fixpoint setitems (l : list (key_arg * key_arg)) : eff dblite exn unit :=
  match l with
  | [] => eret tt
  | (k, v) :: l => (setitem k v ;;; setitems l)%eff
  end.

(** ** Theorems *)

Lemma names_differ b : (names b).1 ≠ (names b).2.
Proof.
  unfold names. destruct (splitext b) as [base ext] eqn:E.
  case_decide as Hd; simpl; intros H; [|by apply app_inv_head in H].
  subst ext. assert (b = base ++ dblite_suffix) as Hb.
  { unfold splitext in E. repeat case_match; injection E as <- Hd; try done.
    by rewrite <- Hd, take_drop. }
  rewrite Hb in H. by apply app_inv_head in H.
Qed.

(** The states a [sync] goes through. *)
Definition sync_state (d : dblite) (m : gmap text text) (k : nat) : gmap text text :=
  let m2 := <[tmp_name d := dumps (dict d)]> m in
  match k with
  | 0 => m
  | 1 => <[tmp_name d := []]> m
  | 2 => m2
  | 3 => delete (file_name d) m2
  | _ => <[file_name d := dumps (dict d)]> (delete (tmp_name d) (delete (file_name d) m2))
  end.

Lemma sync_states d m k old :
  m !! file_name d = Some old → file_name d ≠ tmp_name d →
  fs_steps (take k (sync_calls d)) (FS m true) = (FS (sync_state d m k) true, Ok tt).
Proof.
  intros Hf Hne. destruct k as [|[|[|[|k]]]]; cbn [sync_calls take fs_steps];
    unfold ebind, eret, fs_step; cbn [writable files negb sync_state];
    rewrite ?insert_insert_eq; try done;
    rewrite lookup_insert_ne, Hf by done; cbn [writable files negb]; [done|].
  rewrite lookup_delete_ne, lookup_insert_eq by done. cbn [files writable negb].
  by rewrite take_nil.
Qed.
End dblite.

(** What a session stores is what the next one finds: opening the file
    after a [sync] gives back the dictionary, the temporary file is gone, every
    other file is untouched, and a further [sync] is not needed. *)
Theorem sync_open loads dumps ic b d f old fl :
  (∀ m, loads (dumps m) = Some m) → (∀ m, dumps m ≠ []) →
  (file_name d, tmp_name d) = names b → flag d ≠ "r"%char → writable f = true →
  files f !! file_name d = Some old → fl ≠ "n"%char → fl ∈ T "rwc" →
  ∃ f', sync dumps d f = (f', Ok (Dblite (file_name d) (tmp_name d) (flag d) (dict d) false)) ∧
    dblite_init loads ic b (Some fl) f' =
      (f', Ok (Dblite (file_name d) (tmp_name d) fl (dict d) false)) ∧
    files f' !! tmp_name d = None ∧
    ∀ n, n ≠ file_name d → n ≠ tmp_name d → files f' !! n = files f !! n.
Proof.
  intros Hl Hd Hn Hr Hw Hf Hfl Hin. pose proof (names_differ b) as Hne. rewrite <- Hn in Hne.
  simpl in Hne. destruct f as [m w]. simpl in *. subst w. unfold sync, check_writable.
  rewrite decide_False by done.
  pose proof (sync_states dumps d m 4 old Hf Hne) as E. cbn [take sync_calls] in E.
  fold (sync_calls dumps d) in E. rewrite E. cbn [sync_state].
  eexists. split; [done|]. split_and!.
  - unfold dblite_init. rewrite <- Hn. cbn [default from_option id].
    assert (negb (char_in fl "rwcn") = false) as ->.
    { unfold char_in. rewrite bool_decide_eq_true_2; [done|].
      cbn in *. set_unfold. tauto. }
    rewrite decide_False by done. cbn [files]. rewrite lookup_insert_eq.
    destruct (dumps (dict d)) as [|c p] eqn:Ed; [by destruct (Hd (dict d))|].
    by rewrite <- Ed, Hl.
  - cbn [files]. by rewrite lookup_insert_ne, lookup_delete_eq.
  - intros n H1 H2. cbn [files].
    by rewrite lookup_insert_ne, lookup_delete_ne, lookup_delete_ne, lookup_insert_ne.
Qed.

(** C38: a crash between any two of the calls of [sync] loses nothing: the old
    contents are still under the name of the database, or the new ones are
    complete in one of the two files.  *)
Theorem sync_crash_safe dumps d f k old :
  writable f = true → files f !! file_name d = Some old → file_name d ≠ tmp_name d →
  let f' := (fs_steps (take k (sync_calls dumps d)) f).1 in
  files f' !! file_name d = Some old ∨ files f' !! tmp_name d = Some (dumps (dict d)) ∨
  files f' !! file_name d = Some (dumps (dict d)).
Proof.
  destruct f as [m w]. simpl. intros -> Hf Hne.
  rewrite (sync_states dumps d m k old) by done. cbn [fst files].
  destruct k as [|[|[|[|k]]]]; cbn [sync_state].
  - by left.
  - left. by rewrite lookup_insert_ne.
  - left. by rewrite lookup_insert_ne.
  - right. left. by rewrite lookup_delete_ne, lookup_insert_eq.
  - right. right. by rewrite lookup_insert_eq.
Qed.

Lemma setitem_frame k v d :
  flag (setitem k v d).1 = flag d ∧
  (flag d = "r"%char → (setitem k v d).1 = d ∧ ∀ u, (setitem k v d).2 ≠ Ok u).
Proof.
  unfold setitem, check_writable. case_decide as Hr; [done|]. by destruct k, v.
Qed.

(** A database opened for reading is never written: no item can be set,
    and neither [sync] nor the destructor touches a file. *)
Theorem read_only dumps l d f :
  flag d = "r"%char → needs_sync d = false →
  (setitems l d).1 = d ∧ (l ≠ [] → ∀ u, (setitems l d).2 ≠ Ok u) ∧
  (sync dumps d f).1 = f ∧ (∀ d', (sync dumps d f).2 ≠ Ok d') ∧
  dblite_del dumps d f = (f, Ok d).
Proof.
  intros Hr Hs. split_and!.
  - destruct l as [|[k v] l]; [done|]. simpl. unfold ebind.
    destruct (setitem_frame k v d) as [_ Hf]. destruct (Hf Hr) as [E Hn].
    destruct (setitem k v d) as [d' [u|e]]; [by destruct (Hn u)|done].
  - intros Hne u. destruct l as [|[k v] l]; [done|]. simpl. unfold ebind.
    destruct (setitem_frame k v d) as [_ Hf]. destruct (Hf Hr) as [E Hn].
    destruct (setitem k v d) as [d' [u'|e]]; [by destruct (Hn u')|done].
  - unfold sync, check_writable. by rewrite decide_True.
  - intros d'. unfold sync, check_writable. by rewrite decide_True.
  - unfold dblite_del. by rewrite Hs.
Qed.

(** ** A database written and read back *)

(** A pickling for the witness: the binary digits of a numbering of the
    dictionaries, behind a mark. *)
Fixpoint pos_digits (p : positive) : text :=
  match p with
  | xH => []
  | xO p => "0"%char :: pos_digits p
  | xI p => "1"%char :: pos_digits p
  end.
Fixpoint digits_pos (s : text) : positive :=
  match s with
  | [] => xH
  | c :: s => if decide (c = "1"%char) then xI (digits_pos s) else xO (digits_pos s)
  end.
Definition demo_dumps (m : gmap text text) : text := "("%char :: pos_digits (encode m).
Definition demo_loads (s : text) : option (gmap text text) :=
  match s with _ :: s => decode (digits_pos s) | [] => None end.

Lemma demo_loads_dumps m : demo_loads (demo_dumps m) = Some m.
Proof.
  simpl. assert (∀ p, digits_pos (pos_digits p) = p) as E.
  { induction p; simpl; by rewrite ?IHp. }
  by rewrite E, decode_encode.
Qed.

Definition demo_db : dblite :=
  Dblite (T "x.dblite") (T "x.tmp") "w" {[T "k" := T "v"]} true.
Definition demo_fs : fs := FS {[T "x.dblite" := T "old"]} true.

Example sync_open_witness :
  ∃ f', dblite_init demo_loads 0 (T "x") (Some "c"%char) f' =
    (f', Ok (Dblite (T "x.dblite") (T "x.tmp") "c" {[T "k" := T "v"]} false)).
Proof.
  edestruct (sync_open demo_loads demo_dumps 0 (T "x") demo_db demo_fs (T "old") "c")
    as (f' & _ & E & _); [apply demo_loads_dumps|done|reflexivity|done|done|reflexivity|done| |].
  - set_solver.
  - by exists f'.
Defined.

Example sync_crash_safe_witness :
  files (fs_steps (take 3 (sync_calls demo_dumps demo_db)) demo_fs).1 !! T "x.tmp" =
    Some (demo_dumps {[T "k" := T "v"]}).
Proof.
  destruct (sync_crash_safe demo_dumps demo_db demo_fs 3 (T "old")) as [E|[E|E]];
    [done|reflexivity|done|vm_compute in E; discriminate|exact E|vm_compute in E; discriminate].
Defined.

Example read_only_witness :
  let d := Dblite (T "x.dblite") (T "x.tmp") "r" ∅ false in
  (setitems [(KStr (T "k"), KStr (T "v"))] d).1 = d.
Proof. apply (read_only demo_dumps _ _ demo_fs); done. Defined.
