(* ===== verification/Shlex.v ===== *)
(** * The shell lexer ([SCons/compat/_scons_shlex.py])

    [shlex.read_token], a state machine that reads a character at a time,
    [get_token] with pushed-back tokens and stacked sources, and [split]. *)

From S2P Require Import Prelude Errors PyStr.
Open Scope nat_scope.

(** [self.state]: [None], a blank, a quote, the escape character, or ['a']. *)
Inductive lstate :=
| S_none
| S_space
| S_quote (q : ascii)
| S_escape
| S_word.

(** A token read, or the end: [None] in POSIX mode, the empty text otherwise. *)
Abbreviation token_value := (option text).

Record lexer := Lexer {
  instream : text;
  posix : bool;
  whitespace_split : bool;
  commenters : text;
  state : lstate;
  pushback : list token_value;
  lineno : nat;
  token : text;
  filestack : list (text * nat)
}.

(** [__init__] on a string. *)
Definition shlex_init (s : text) (px : bool) : lexer :=
  Lexer s px false (T "#") S_space [] 1 [] [].

Definition eof (l : lexer) : token_value := if posix l then None else Some [].

(** The letters of Latin-1 that POSIX mode adds. *)
Definition is_latin_letter (c : ascii) : bool :=
  let n := nat_of_ascii c in
  bool_decide (192 ≤ n ∧ n ≠ 215 ∧ n ≠ 247).

Definition in_wordchars (l : lexer) (c : ascii) : bool :=
  is_word c || (posix l && is_latin_letter c).
(** [' \t\r\n'] *)
Definition in_whitespace (c : ascii) : bool :=
  let n := nat_of_ascii c in bool_decide (n = 32 ∨ n = 9 ∨ n = 13 ∨ n = 10).
Definition quote1 : ascii := "'".
Definition quote2 : ascii := "034".
Definition backslash : ascii := "\".
Definition in_quotes (c : ascii) : bool := bool_decide (c = quote1 ∨ c = quote2).
Definition in_escape (c : ascii) : bool := bool_decide (c = backslash).

Definition set_state (st : lstate) (l : lexer) : lexer :=
  Lexer (instream l) (posix l) (whitespace_split l) (commenters l) st (pushback l)
    (lineno l) (token l) (filestack l).
Definition set_token (t : text) (l : lexer) : lexer :=
  Lexer (instream l) (posix l) (whitespace_split l) (commenters l) (state l) (pushback l)
    (lineno l) t (filestack l).
Definition set_input (s : text) (n : nat) (l : lexer) : lexer :=
  Lexer s (posix l) (whitespace_split l) (commenters l) (state l) (pushback l)
    n (token l) (filestack l).
Definition set_pushback (p : list token_value) (l : lexer) : lexer :=
  Lexer (instream l) (posix l) (whitespace_split l) (commenters l) (state l) p
    (lineno l) (token l) (filestack l).

Definition push_token (tok : token_value) (l : lexer) : lexer :=
  set_pushback (tok :: pushback l) l.

(** [push_source], a stream being its text; file names are left out. *)
Definition push_source (s : text) (l : lexer) : lexer :=
  Lexer s (posix l) (whitespace_split l) (commenters l) (state l) (pushback l)
    1 (token l) ((instream l, lineno l) :: filestack l).

Definition pop_source (l : lexer) : lexer :=
  match filestack l with
  | (s, n) :: fs =>
      Lexer s (posix l) (whitespace_split l) (commenters l) S_space (pushback l)
        n (token l) fs
  | [] => l
  end.

(** [self.instream.read(1)], counting lines. *)
Definition read1 (l : lexer) : option ascii * lexer :=
  match instream l with
  | [] => (None, l)
  | c :: s => (Some c, set_input s (if decide (c = "010"%char) then S (lineno l) else lineno l) l)
  end.

(** [self.instream.readline()] *)
Fixpoint drop_line (s : text) : text :=
  match s with
  | [] => []
  | c :: s => if decide (c = "010"%char) then s else drop_line s
  end.
Definition readline (l : lexer) : lexer := set_input (drop_line (instream l)) (S (lineno l)) l.

(** One turn of the loop: it goes on with the local variables [quoted] and
    [escapedstate], or leaves, or raises. *)
Inductive turn :=
| Continue (l : lexer) (quoted : bool) (escapedstate : lstate)
| Break (l : lexer) (quoted : bool)
| Error (msg : string).

(** The token is emitted if there is one, or one was quoted. *)
Definition emit (l : lexer) (quoted : bool) (esc : lstate) : turn :=
  if bool_decide (token l ≠ []) || (posix l && quoted) then Break l quoted
  else Continue l quoted esc.

Definition turn_space (next : option ascii) (l : lexer) (quoted : bool) (esc : lstate) : turn :=
  match next with
  | None => Break (set_state S_none l) quoted
  | Some c =>
      if in_whitespace c then emit l quoted esc
      else if bool_decide (c ∈ commenters l) then Continue (readline l) quoted esc
      else if posix l && in_escape c then Continue (set_state S_escape l) quoted S_word
      else if in_wordchars l c then Continue (set_state S_word (set_token [c] l)) quoted esc
      else if in_quotes c then
        let l := if posix l then l else set_token [c] l in
        Continue (set_state (S_quote c) l) quoted esc
      else if whitespace_split l
      then Continue (set_state S_word (set_token [c] l)) quoted esc
      else emit (set_token [c] l) quoted esc
  end.

Definition turn_quote (q : ascii) (next : option ascii) (l : lexer) (esc : lstate) : turn :=
  match next with
  | None => Error "No closing quotation"
  | Some c =>
      if decide (c = q) then
        if posix l then Continue (set_state S_word l) true esc
        else Break (set_state S_space (set_token (token l ++ [c]) l)) true
      else if posix l && in_escape c && bool_decide (q = quote2)
      then Continue (set_state S_escape l) true (S_quote q)
      else Continue (set_token (token l ++ [c]) l) true esc
  end.

Definition turn_escape (next : option ascii) (l : lexer) (quoted : bool) (esc : lstate) : turn :=
  match next with
  | None => Error "No escaped character"
  | Some c =>
      let l := match esc with
               | S_quote q => if decide (c ≠ backslash ∧ c ≠ q)
                              then set_token (token l ++ [backslash]) l else l
               | _ => l
               end in
      Continue (set_state esc (set_token (token l ++ [c]) l)) quoted esc
  end.

Definition turn_word (next : option ascii) (l : lexer) (quoted : bool) (esc : lstate) : turn :=
  match next with
  | None => Break (set_state S_none l) quoted
  | Some c =>
      if in_whitespace c then emit (set_state S_space l) quoted esc
      else if bool_decide (c ∈ commenters l) then
        let l := readline l in
        if posix l then emit (set_state S_space l) quoted esc else Continue l quoted esc
      else if posix l && in_quotes c then Continue (set_state (S_quote c) l) quoted esc
      else if posix l && in_escape c then Continue (set_state S_escape l) quoted S_word
      else if in_wordchars l c || in_quotes c || whitespace_split l
      then Continue (set_token (token l ++ [c]) l) quoted esc
      else
        let l := set_state S_space (push_token (Some [c]) l) in
        if decide (token l ≠ []) then Break l quoted else Continue l quoted esc
  end.

Definition read_turn (l : lexer) (quoted : bool) (esc : lstate) : turn :=
  let '(next, l) := read1 l in
  match state l with
  | S_none => Break (set_token [] l) quoted
  | S_space => turn_space next l quoted esc
  | S_quote q => turn_quote q next l esc
  | S_escape => turn_escape next l quoted esc
  | S_word => turn_word next l quoted esc
  end.

(** The result, and the end of a token. *)
Definition finish (l : lexer) (quoted : bool) : lexer * token_value :=
  let result := token l in
  (set_token [] l,
   if posix l && negb quoted && bool_decide (result = []) then None else Some result).

(** Loops with a bound; [None] when it is too small. *)
Fixpoint read_loop (fuel : nat) (l : lexer) (quoted : bool) (esc : lstate)
    : option (res exn (lexer * token_value)) :=
  match fuel with
  | O => None
  | S fuel =>
      match read_turn l quoted esc with
      | Continue l quoted esc => read_loop fuel l quoted esc
      | Break l quoted => Some (Ok (finish l quoted))
      | Error msg => Some (Raise (ExOther "ValueError" msg))
      end
  end.

Definition read_token (fuel : nat) (l : lexer) : option (res exn (lexer * token_value)) :=
  read_loop fuel l false S_space.

(** [get_token]; [self.source] is [None], as [__init__] leaves it. *)
Fixpoint get_token (fuel : nat) (l : lexer) : option (res exn (lexer * token_value)) :=
  match pushback l with
  | tok :: p => Some (Ok (set_pushback p l, tok))
  | [] =>
      match read_token fuel l with
      | None => None
      | Some (Raise e) => Some (Raise e)
      | Some (Ok (l, raw)) =>
          if decide (raw = eof l) then
            match filestack l, fuel with
            | [], _ => Some (Ok (l, eof l))
            | _, S fuel => get_token fuel (pop_source l)
            | _, O => None
            end
          else Some (Ok (l, raw))
      end
  end.

Fixpoint split_loop (fuel : nat) (l : lexer) (result : list token_value)
    : option (res exn (list token_value)) :=
  match fuel with
  | O => None
  | S fuel =>
      match get_token (S (S (length (instream l)))) l with
      | None => None
      | Some (Raise e) => Some (Raise e)
      | Some (Ok (l, token)) =>
          if decide (token = eof l) then Some (Ok result)
          else split_loop fuel l (result ++ [token])
      end
  end.

Definition split_lexer (s : text) (comments : bool) : lexer :=
  let l := shlex_init s true in
  Lexer s true true (if comments then commenters l else []) (state l) [] 1 [] [].

Definition split (fuel : nat) (s : text) (comments : bool) : option (res exn (list token_value)) :=
  split_loop fuel (split_lexer s comments) [].

Definition fuel_for (s : text) : nat := S (S (length s)).

Example split_ex :
  split 40 (T "cc -DX='a b' foo\ bar.c") false =
  Some (Ok (map Some [T "cc"; T "-DX=a b"; T "foo bar.c"])).
Proof. vm_compute. reflexivity. Qed.
Example split_comment :
  split 40 (T "a # b") true = Some (Ok [Some (T "a")]).
Proof. vm_compute. reflexivity. Qed.
