(* ===== verification/ShlexFacts.v ===== *)
(** * The shell lexer: theorems *)

From S2P Require Import Prelude Errors PyStr Shlex.
Open Scope nat_scope.

(** ** Every call of [split] ends *)

(** The attributes [split] does not change. *)
Definition same_mode (l l' : lexer) : Prop :=
  posix l' = posix l ∧ whitespace_split l' = whitespace_split l ∧
  commenters l' = commenters l ∧ pushback l' = pushback l ∧ filestack l' = filestack l.

#[global] Instance same_mode_po : PreOrder same_mode.
Proof.
  split; [by intros l|]. unfold same_mode. intros l1 l2 l3 H12 H23. naive_solver congruence.
Qed.

Lemma drop_line_length s : length (drop_line s) ≤ length s.
Proof. induction s as [|c s IH]; simpl; [done|]. case_decide; lia. Qed.

Definition turn_ok (l : lexer) (t : turn) : Prop :=
  match t with
  | Continue l' _ _ => same_mode l l' ∧ length (instream l') < length (instream l)
  | Break l' _ => same_mode l l' ∧
      (instream l = [] ∧ instream l' = [] ∨ length (instream l') < length (instream l))
  | Error msg => msg = "No closing quotation"%string ∨ msg = "No escaped character"%string
  end.

(** A turn reads a character, or ends the token. *)
Lemma read_turn_ok l quoted esc : whitespace_split l = true → turn_ok l (read_turn l quoted esc).
Proof.
  intros Hw. destruct l as [s px ws cm st pb ln tok fs]. simpl in Hw. subst ws.
  unfold read_turn. destruct s as [|c s]; simpl.
  - destruct st; simpl; unfold same_mode; simpl; auto 10.
  - pose proof (drop_line_length s) as Hd.
    destruct st as [| |q| |]; simpl;
      unfold turn_space, turn_quote, turn_escape, turn_word, emit, readline; simpl;
      repeat (case_match; simpl); unfold same_mode; simpl in *; split_and!;
      try done; try lia; try (right; lia); rewrite ?orb_true_r in *; done.
Qed.

Lemma read_loop_ok fuel l quoted esc :
  whitespace_split l = true → length (instream l) < fuel →
  match read_loop fuel l quoted esc with
  | None => False
  | Some (Raise e) => e = ExOther "ValueError" "No closing quotation" ∨
                      e = ExOther "ValueError" "No escaped character"
  | Some (Ok (l', tok)) => same_mode l l' ∧ token l' = [] ∧
      (instream l = [] ∧ instream l' = [] ∨ length (instream l') < length (instream l))
  end.
Proof.
  revert l quoted esc. induction fuel as [|fuel IH]; intros l quoted esc Hw Hf; [lia|]. simpl.
  pose proof (read_turn_ok l quoted esc Hw) as Ht.
  destruct (read_turn l quoted esc) as [l' q' e'|l' q'|msg]; simpl in Ht.
  - destruct Ht as [Hm Hlt]. assert (whitespace_split l' = true) as Hw' by (by rewrite (proj1 (proj2 Hm))).
    specialize (IH l' q' e' Hw' ltac:(lia)).
    destruct (read_loop fuel l' q' e') as [[[l2 tok]|e]|]; try done.
    destruct IH as (Hm2 & Ht2 & Hl). split_and!; [by etrans|done|]. right.
    destruct Hl as [[_ ->]|Hl]; simpl; lia.
  - destruct Ht as [Hm Hl]. destruct l', l. simpl in *. unfold same_mode in *. simpl in *. auto.
  - destruct Ht as [-> | ->]; auto.
Qed.

(** At the end of the input there is no token any more. *)
Lemma read_loop_eof fuel l l' tok :
  posix l = true → token l = [] → instream l = [] →
  read_loop fuel l false S_space = Some (Ok (l', tok)) → tok = None.
Proof.
  intros Hp Ht Hi. destruct l as [s px ws cm st pb ln tk fs]. simpl in *. subst.
  destruct fuel as [|fuel]; [done|]. simpl. unfold read_turn. simpl.
  destruct st; simpl; try done; by intros [= <- <-].
Qed.

(** The lexer [split] works with, between two tokens. *)
Definition split_mode (l : lexer) : Prop :=
  posix l = true ∧ whitespace_split l = true ∧ pushback l = [] ∧ filestack l = [] ∧ token l = [].

Definition value_error (e : exn) : Prop :=
  e = ExOther "ValueError" "No closing quotation" ∨ e = ExOther "ValueError" "No escaped character".

Lemma get_token_ok l :
  split_mode l →
  match get_token (S (S (length (instream l)))) l with
  | None => False
  | Some (Raise e) => value_error e
  | Some (Ok (l', tok)) => eof l' = None ∧ (tok = None ∨
      tok ≠ None ∧ split_mode l' ∧ commenters l' = commenters l ∧
       length (instream l') < length (instream l))
  end.
Proof.
  intros (Hp & Hw & Hb & Hfs & Ht). unfold get_token. rewrite Hb. unfold read_token.
  pose proof (read_loop_ok (S (S (length (instream l)))) l false S_space Hw ltac:(lia)) as Hr.
  destruct (read_loop _ l false S_space) as [[[l' tok]|e]|] eqn:E; [|done|done].
  destruct Hr as ((M1 & M2 & M3 & M4 & M5) & Ht' & Hl).
  assert (eof l' = None) as He by (unfold eof; by rewrite M1, Hp). rewrite He.
  case_decide as Hd.
  - rewrite M5, Hfs. rewrite He. auto.
  - split; [done|]. right. split; [done|]. split_and!; [split_and!; congruence|done|].
    destruct Hl as [[Hi _]|Hl]; [|done]. destruct Hd. by eapply read_loop_eof.
Qed.

Lemma split_loop_ok fuel l result :
  split_mode l → Forall (λ t, t ≠ None) result → length (instream l) < fuel →
  match split_loop fuel l result with
  | None => False
  | Some (Raise e) => value_error e
  | Some (Ok toks) => Forall (λ t, t ≠ None) toks
  end.
Proof.
  revert l result. induction fuel as [|fuel IH]; intros l result Hm Hres Hf; [lia|].
  cbn [split_loop]. pose proof (get_token_ok l Hm) as Hg.
  destruct (get_token _ l) as [[[l' tok]|e]|]; [|done|done].
  destruct Hg as [He [->|(Hne & Hm' & _ & Hlt)]]; rewrite He.
  - by rewrite decide_True.
  - rewrite decide_False by done. apply IH; [done| |lia].
    apply Forall_app. split; [done|]. by constructor.
Qed.

Lemma split_lexer_mode s comments : split_mode (split_lexer s comments).
Proof. done. Qed.

(** [split] ends on every text, within a bound by its length, with a list
    of tokens none of which is the end mark, or with one of its two value
    errors. *)
Theorem split_total s comments :
  (∃ toks, split (fuel_for s) s comments = Some (Ok (map Some toks))) ∨
  (∃ e, split (fuel_for s) s comments = Some (Raise e) ∧ value_error e).
Proof.
  pose proof (split_loop_ok (fuel_for s) (split_lexer s comments) []
    (split_lexer_mode s comments) (Forall_nil_2 _) ltac:(unfold fuel_for; simpl; lia)) as H.
  unfold split. destruct (split_loop _ _ []) as [[toks|e]|]; [left|right; eauto|done].
  induction H as [|[t|] toks Hn _ IH]; [by exists []| |done].
  destruct IH as [ts IH]. injection IH as ->. by exists (t :: ts).
Qed.

(** ** Quoted words *)

(** A piece of a word as a shell user writes it: bare characters, text in single
    quotes, text in double quotes with [\] before a double quote or a
    backslash, or any character behind a backslash. *)
Inductive segment :=
| Bare (t : text)
| Single (t : text)
| Double (t : text)
| Escaped (c : ascii).

Definition bare_char (c : ascii) : Prop :=
  in_whitespace c = false ∧ in_quotes c = false ∧ in_escape c = false.

Definition segment_ok (s : segment) : Prop :=
  match s with
  | Bare t => t ≠ [] ∧ Forall bare_char t
  | Single t => quote1 ∉ t
  | _ => True
  end.

Definition double_char (c : ascii) : text :=
  if decide (c = quote2 ∨ c = backslash) then [backslash; c] else [c].

Definition render_segment (s : segment) : text :=
  match s with
  | Bare t => t
  | Single t => quote1 :: t ++ [quote1]
  | Double t => quote2 :: flat_map double_char t ++ [quote2]
  | Escaped c => [backslash; c]
  end.
Definition segment_value (s : segment) : text :=
  match s with Bare t | Single t | Double t => t | Escaped c => [c] end.

(** A word is a non-empty list of pieces. *)
Definition word_ok (w : list segment) : Prop := w ≠ [] ∧ Forall segment_ok w.
Definition render (w : list segment) : text := flat_map render_segment w.
Definition value (w : list segment) : text := flat_map segment_value w.
Definition render_words (ws : list (list segment)) : text := join (T " ") (map render ws).

(** The lexer of [split] in front of [s]. *)
Definition at_text (st : lstate) (s tok : text) (n : nat) : lexer :=
  Lexer s true true [] st [] n tok [].

(** The loop started in one state goes on as in the other. *)
Definition goes (l : lexer) (q : bool) (e : lstate) (l' : lexer) (q' : bool) (e' : lstate) : Prop :=
  ∃ k, ∀ fuel, read_loop (k + fuel) l q e = read_loop fuel l' q' e'.

Lemma goes_refl l q e : goes l q e l q e.
Proof. by exists 0. Qed.

Lemma goes_turn l q e l1 q1 e1 l2 q2 e2 :
  read_turn l q e = Continue l1 q1 e1 → goes l1 q1 e1 l2 q2 e2 → goes l q e l2 q2 e2.
Proof. intros Ht [k Hk]. exists (S k). intros fuel. simpl. by rewrite Ht. Qed.

Lemma goes_trans l q e l1 q1 e1 l2 q2 e2 :
  goes l q e l1 q1 e1 → goes l1 q1 e1 l2 q2 e2 → goes l q e l2 q2 e2.
Proof.
  intros [k Hk] [j Hj]. exists (k + j). intros fuel. rewrite <- Nat.add_assoc. by rewrite Hk.
Qed.

Lemma bare_space c : bare_char c → in_whitespace c = false ∧ in_quotes c = false ∧ in_escape c = false.
Proof. done. Qed.

(** Bare characters are added to the token. *)
Lemma goes_bare t s tok n q e :
  Forall bare_char t →
  ∃ n', goes (at_text S_word (t ++ s) tok n) q e (at_text S_word s (tok ++ t) n') q e.
Proof.
  intros Ht. revert tok n. induction Ht as [|c t (H1 & H2 & H3) _ IH]; intros tok n.
  { exists n. rewrite app_nil_r. apply goes_refl. }
  destruct (IH (tok ++ [c]) (if decide (c = "010"%char) then S n else n)) as [n' Hg].
  exists n'. eapply goes_turn; [|rewrite <- app_assoc in Hg; exact Hg].
  unfold read_turn. simpl. unfold turn_word. rewrite H1. simpl. rewrite H2, H3.
  by rewrite orb_true_r.
Qed.

(** Text in single quotes. *)
Lemma goes_single t s tok n q e :
  quote1 ∉ t →
  ∃ n', goes (at_text (S_quote quote1) (t ++ quote1 :: s) tok n) q e
          (at_text S_word s (tok ++ t) n') true e.
Proof.
  intros Ht. revert tok n q. induction t as [|c t IH]; intros tok n q.
  { exists n. rewrite app_nil_r. by eapply goes_turn; [|apply goes_refl]. }
  apply not_elem_of_cons in Ht as [Hc Ht].
  destruct (IH Ht (tok ++ [c]) (if decide (c = "010"%char) then S n else n) true) as [n' Hg].
  exists n'. eapply goes_turn; [|rewrite <- app_assoc in Hg; exact Hg].
  unfold read_turn. simpl. unfold turn_quote. rewrite decide_False by done. simpl.
  by rewrite andb_false_r.
Qed.

(** Text in double quotes. *)
Lemma goes_double t s tok n q e :
  ∃ n' e', goes (at_text (S_quote quote2) (flat_map double_char t ++ quote2 :: s) tok n) q e
             (at_text S_word s (tok ++ t) n') true e'.
Proof.
  revert tok n q e. induction t as [|c t IH]; intros tok n q e.
  { exists n, e. rewrite app_nil_r. by eapply goes_turn; [|apply goes_refl]. }
  cbn [flat_map]. unfold double_char at 1. case_decide as Hc.
  - destruct (IH (tok ++ [c]) n true (S_quote quote2)) as (n' & e' & Hg). exists n', e'.
    rewrite <- app_assoc in Hg. cbn [app] in *.
    eapply goes_turn; [reflexivity|]. eapply goes_turn; [|exact Hg].
    by destruct Hc as [-> | ->].
  - destruct (IH (tok ++ [c]) (if decide (c = "010"%char) then S n else n) true e)
      as (n' & e' & Hg).
    exists n', e'. rewrite <- app_assoc in Hg. cbn [app] in *.
    eapply goes_turn; [|exact Hg]. unfold read_turn. simpl. unfold turn_quote.
    rewrite decide_False by (intros ->; by apply Hc; left). simpl.
    unfold in_escape. rewrite bool_decide_eq_false_2 by (intros ->; by apply Hc; right). done.
Qed.

Definition quoted_segment (s : segment) : bool :=
  match s with Single _ | Double _ => true | _ => false end.

(** A piece is read as its value, at the start of a word and inside it. *)
Lemma goes_segment sg s tok n q e st :
  segment_ok sg → st = S_word ∨ (st = S_space ∧ tok = []) →
  ∃ n' e', goes (at_text st (render_segment sg ++ s) tok n) q e
    (at_text S_word s (tok ++ segment_value sg) n') (q || quoted_segment sg) e'.
Proof.
  intros Hok Hst. destruct sg as [t|t|t|c]; cbn [render_segment segment_value quoted_segment].
  - rewrite orb_false_r. destruct Hok as [Hne Hb]. destruct Hst as [->|[-> ->]].
    { destruct (goes_bare t s tok n q e Hb) as [n' Hg]. eauto. }
    destruct Hb as [|c t (H1 & H2 & H3) Hb]; [done|].
    destruct (goes_bare t s [c] (if decide (c = "010"%char) then S n else n) q e Hb) as [n' Hg].
    exists n', e. eapply goes_turn; [|exact Hg]. unfold read_turn. simpl. unfold turn_space.
    rewrite H1. simpl. rewrite H2, H3. by destruct (in_wordchars _ c).
  - rewrite orb_true_r. cbn [app]. rewrite <- app_assoc. cbn [app].
    destruct (goes_single t s tok n q e Hok) as [n' Hg]. exists n', e.
    eapply goes_turn; [|exact Hg]. by destruct Hst as [->|[-> ->]].
  - rewrite orb_true_r. cbn [app]. rewrite <- app_assoc. cbn [app].
    destruct (goes_double t s tok n q e) as (n' & e' & Hg). exists n', e'.
    eapply goes_turn; [|exact Hg]. by destruct Hst as [->|[-> ->]].
  - rewrite orb_false_r. cbn [app].
    exists (if decide (c = "010"%char) then S n else n), S_word.
    eapply goes_turn; [by destruct Hst as [->|[-> ->]]|].
    by eapply goes_turn; [|apply goes_refl].
Qed.

Lemma goes_word w s tok n q e st :
  Forall segment_ok w → w ≠ [] → st = S_word ∨ (st = S_space ∧ tok = []) →
  ∃ n' q' e', goes (at_text st (render w ++ s) tok n) q e
    (at_text S_word s (tok ++ value w) n') q' e' ∧
    (q' = true ∨ tok ++ value w ≠ []).
Proof.
  intros Hw. revert tok n q e st. induction Hw as [|sg w Hsg _ IH]; intros tok n q e st Hne Hst;
    [done|]. unfold render, value. cbn [flat_map]. rewrite <- app_assoc.
  destruct (goes_segment sg (render w ++ s) tok n q e st Hsg Hst) as (n1 & e1 & H1).
  assert (q || quoted_segment sg = true ∨ tok ++ segment_value sg ≠ []) as Hq.
  { destruct sg as [t|t|t|c]; simpl; rewrite ?orb_true_r; auto.
    - right. destruct Hsg as [Ht _]. by destruct tok, t.
    - right. by destruct tok. }
  destruct w as [|sg' w].
  - exists n1, (q || quoted_segment sg), e1. cbn [flat_map]. rewrite app_nil_r.
    split; [exact H1|exact Hq].
  - destruct (IH (tok ++ segment_value sg) n1 (q || quoted_segment sg) e1 S_word)
      as (n2 & q2 & e2 & H2 & Hq2); [done|by left|].
    exists n2, q2, e2. rewrite (app_assoc tok). split; [by eapply goes_trans|exact Hq2].
Qed.

Lemma read_loop_mono fuel fuel' l q e r :
  fuel ≤ fuel' → read_loop fuel l q e = Some r → read_loop fuel' l q e = Some r.
Proof.
  revert fuel' l q e. induction fuel as [|fuel IH]; intros fuel' l q e Hle; [done|].
  destruct fuel' as [|fuel']; [lia|]. simpl. destruct (read_turn l q e); try done.
  apply IH. lia.
Qed.

(** One word is one token, at the end of the text or in front of a blank. *)
Lemma get_token_word w s n :
  word_ok w → s = [] ∨ (∃ s', s = " "%char :: s') →
  ∃ n' st, get_token (S (S (length (render w ++ s)))) (at_text S_space (render w ++ s) [] n) =
    Some (Ok (at_text st (drop 1 s) [] n', Some (value w))) ∧
    (st = S_space ∨ (st = S_none ∧ s = [])).
Proof.
  intros [Hne Hw] Hs.
  destruct (goes_word w s [] n false S_space S_space Hw Hne) as (n' & q' & e' & [k Hk] & Hq);
    [by right|]. simpl in Hq.
  assert (∃ st, (st = S_space ∨ (st = S_none ∧ s = [])) ∧
    ∀ fuel, read_loop (S fuel) (at_text S_word s (value w) n') q' e' =
      Some (Ok (at_text st (drop 1 s) [] n', Some (value w)))) as (st & Hst & Hlast).
  { assert (bool_decide (value w ≠ []) || q' = true) as Hem.
    { destruct Hq as [-> |Hv]; [by rewrite orb_true_r|by rewrite bool_decide_eq_true_2]. }
    assert (negb q' && bool_decide (value w = []) = false) as Hnone.
    { destruct Hq as [-> |Hv]; [done|rewrite bool_decide_eq_false_2 by done; by rewrite andb_false_r]. }
    destruct Hs as [->|[s' ->]]; eexists; (split; [by (left + right)|]); intros fuel; simpl;
      unfold read_turn; simpl; unfold emit; simpl; rewrite ?Hem; unfold finish; simpl;
      by rewrite Hnone. }
  exists n', st. split; [|done]. unfold get_token. cbn [pushback at_text]. unfold read_token.
  pose proof (read_loop_ok (S (S (length (render w ++ s)))) (at_text S_space (render w ++ s) [] n)
    false S_space eq_refl ltac:(simpl; lia)) as Htot.
  destruct (read_loop (S (S (length (render w ++ s)))) _ _ _) as [r|] eqn:Er; [|done].
  assert (Some r = Some (Ok (at_text st (drop 1 s) [] n', Some (value w)))) as Heq.
  { set (m := S (S (length (render w ++ s)))) in *.
    rewrite <- (read_loop_mono m (k + S m) _ _ _ _ ltac:(lia) Er). rewrite Hk. apply Hlast. }
  injection Heq as ->. by rewrite decide_False.
Qed.

(** The words, blank by blank. *)
Lemma split_loop_words ws n result :
  Forall word_ok ws →
  ∃ fuel, ∀ fuel', fuel ≤ fuel' →
    split_loop fuel' (at_text S_space (render_words ws) [] n) result =
    Some (Ok (result ++ map (λ w, Some (value w)) ws)).
Proof.
  assert (∀ st n result fuel, st = S_space ∨ st = S_none →
    split_loop (S fuel) (at_text st [] [] n) result = Some (Ok result)) as Hend.
  { intros st m r fuel [-> | ->]; done. }
  intros Hws. revert n result. induction Hws as [|w ws Hw Hws IH]; intros n result.
  { exists 1. intros [|fuel'] Hf; [lia|]. rewrite app_nil_r. apply Hend. by left. }
  assert (∃ s, render_words (w :: ws) = render w ++ s ∧ drop 1 s = render_words ws ∧
    (s = [] ∧ ws = [] ∨ ∃ s', s = " "%char :: s')) as (s & Es & Ed & Hs).
  { unfold render_words. destruct ws as [|w' ws].
    - exists []. cbn [map join]. rewrite app_nil_r. auto.
    - exists (T " " ++ render_words (w' :: ws)). split_and!; [done|done|right; by eexists]. }
  destruct (get_token_word w s n Hw) as (n' & st & Hg & Hst); [naive_solver|].
  destruct (IH n' (result ++ [Some (value w)])) as [fuel Hf].
  exists (S (S fuel)). intros [|fuel'] Hle; [lia|]. cbn [split_loop].
  rewrite Es. cbn [instream at_text]. fold (at_text S_space (render w ++ s) [] n). rewrite Hg.
  rewrite decide_False by done. rewrite Ed. cbn [map].
  change (Some (value w) :: map (λ w, Some (value w)) ws)
    with ([Some (value w)] ++ map (λ w, Some (value w)) ws). rewrite app_assoc.
  destruct Hst as [->|[-> ->]]; [apply Hf; lia|].
  destruct Hs as [[_ ->]|[s' ?]]; [|done]. rewrite app_nil_r.
  destruct fuel'; [lia|]. apply Hend. by right.
Qed.

Lemma split_loop_mono fuel fuel' l result r :
  fuel ≤ fuel' → split_loop fuel l result = Some r → split_loop fuel' l result = Some r.
Proof.
  revert fuel' l result. induction fuel as [|fuel IH]; intros fuel' l result Hle; [done|].
  destruct fuel' as [|fuel']; [lia|]. cbn [split_loop].
  destruct (get_token _ l) as [[[l' tok]|e]|]; try done. case_decide; [done|]. apply IH. lia.
Qed.

Lemma split_rendered ws :
  Forall word_ok ws →
  split (fuel_for (render_words ws)) (render_words ws) false =
    Some (Ok (map (λ w, Some (value w)) ws)).
Proof.
  intros Hws. destruct (split_loop_words ws 1 [] Hws) as [fuel Hf].
  pose proof (split_loop_ok (fuel_for (render_words ws)) (split_lexer (render_words ws) false) []
    (split_lexer_mode _ _) (Forall_nil_2 _) ltac:(unfold fuel_for; simpl; lia)) as Htot.
  unfold split in *. destruct (split_loop (fuel_for _) _ []) as [r|] eqn:E; [|done].
  rewrite <- (split_loop_mono _ (fuel + fuel_for (render_words ws)) _ _ _ (Nat.le_add_l _ _) E).
  apply Hf. lia.
Qed.

(** C37: splitting a command line gives back the words it was written from,
    however each was quoted: bare characters, single quotes, double quotes with
    escapes, backslashes, and any mixture of them, empty words included. *)
Theorem split_render ws :
  Forall word_ok ws →
  split (fuel_for (render_words ws)) (render_words ws) false =
    Some (Ok (map (λ w, Some (value w)) ws)).
Proof. exact (split_rendered ws). Qed.

Definition demo_words : list (list segment) :=
  [[Bare (T "a"); Single (T "b c")]; [Double (T "x\y")]; [Escaped " "%char; Bare (T "z")];
   [Single []]].

Lemma demo_words_ok : Forall word_ok demo_words.
Proof.
  unfold demo_words, word_ok. cbv [T String.list_ascii_of_string].
  repeat match goal with
  | |- Forall _ (_ :: _) => apply Forall_cons; split
  | |- Forall _ [] => apply Forall_nil_2
  | |- bare_char _ => by split_and!
  | |- segment_ok (Bare _) => split; [done|]
  | |- segment_ok (Single ?t) => apply (bool_decide_unpack (quote1 ∉ t)); vm_compute; exact I
  | |- segment_ok _ => exact I
  | |- _ ∧ _ => split; [done|]
  end.
Qed.

Example split_render_witness :
  render_words demo_words = T "a'b c' " ++ [quote2] ++ T "x\\y" ++ [quote2] ++ T " \ z ''" ∧
  split (fuel_for (render_words demo_words)) (render_words demo_words) false =
    Some (Ok (map Some [T "ab c"; T "x\y"; T " z"; T ""])).
Proof.
  split; [reflexivity|].
  rewrite (split_render demo_words demo_words_ok). reflexivity.
Defined.
