(* ===== verification/Wire.v ===== *)
(** * The protocol of the test clients
    ([framework/test/test_connectionmgr/]: [msgfactory.py], [msg.py],
    [translator.py], [network.py])

    Frames on a stream: a length, the length of the class name, the name, the
    length of the body, the body.  The socket is the list of pieces in which the
    bytes of the peer arrive, the bytes sent so far, and how many bytes each
    call of [send] takes. *)

From S2P Require Import Prelude Errors PyStr.
From Stdlib Require Import NArith.
Open Scope nat_scope.

(** ** [struct.pack] and [struct.unpack_from], for big-endian [I] and [s] *)

Definition struct_error {A} : res exn A := Raise (ExOther "struct.error" "").

(** [struct.pack('>I', n)] *)
Definition pack_I (n : nat) : res exn text :=
  let z := N.of_nat n in
  if decide (z < 2 ^ 32)%N then
    Ok (map (λ k, ascii_of_N (N.shiftr z k mod 256)) [24; 16; 8; 0]%N)
  else struct_error.

(** The value of bytes read big-endian, after those read before. *)
Definition be_value (acc : N) (s : text) : N :=
  foldl (λ z c, z * 256 + N_of_ascii c)%N acc s.

(** [struct.unpack_from('>I', data, offset)] *)
Definition unpack_I (data : text) (offset : nat) : res exn nat :=
  if decide (offset + 4 ≤ length data)
  then Ok (N.to_nat (be_value 0 (take 4 (drop offset data)))) else struct_error.

(** [struct.pack('>I<n>s', k, s)], [n] being the length of [s]. *)
Definition pack_Is (k : nat) (s : text) : res exn text :=
  match pack_I k with
  | Ok h => Ok (h ++ s)
  | Raise e => Raise e
  end.

(** ** Messages *)

(** What the clients use of the message classes.  [instantiate] calls the class
    with no argument.  [SerializeToString] and [ParseFromString] are those of
    the protocol buffer in the attribute [pmsg] of a [Msg]; [json_loads] is that
    of the module [json], whose value becomes the attribute [data] of a
    [JsonMsg]. *)
Class Messages := {
  Obj : Type;
  Cls : Type;
  Cls_eq : EqDecision Cls;
  Cls_countable : Countable Cls;
  type_of : Obj → Cls;
  instantiate : Cls → res exn Obj;
  SerializeToString : Obj → res exn text;
  ParseFromString : Obj → text → res exn Obj;
  Json : Type;
  json_loads : text → res exn Json;
  set_data : Json → Obj → Obj
}.
#[export] Existing Instances Cls_eq Cls_countable.

Section wire.
Context `{Messages}.

(** *** [MsgFactory], its two dictionaries being attributes of the class *)
Record factory := Factory { name2Class : gmap text Cls; class2Name : gmap Cls text }.

Definition factory_init : factory := Factory ∅ ∅.
Definition KeyError : exn := ExOther "KeyError" "".

Definition register (msgName : text) (func : Cls) (f : factory) : factory :=
  Factory (<[msgName := func]> (name2Class f)) (<[func := msgName]> (class2Name f)).

Definition create (f : factory) (msgName : text) : res exn Obj :=
  match name2Class f !! msgName with
  | Some c => instantiate c
  | None => Raise KeyError
  end.

Definition getClassName (f : factory) (o : Obj) : res exn text :=
  match class2Name f !! type_of o with
  | Some n => Ok n
  | None => Raise KeyError
  end.

(** *** [Msg] and [JsonMsg] *)
Definition Msg_encode (o : Obj) : res exn text := SerializeToString o.
Definition Msg_decode (o : Obj) (data : text) : res exn Obj := ParseFromString o data.

(** [jsonEncode] returns [None]. *)
Definition jsonEncode (o : Obj) : res exn (option text) := Ok None.
Definition jsonDecode (o : Obj) (data : text) : res exn Obj :=
  match json_loads data with
  | Ok j => Ok (set_data j o)
  | Raise e => Raise e
  end.

(** *** The translators *)

(** The frame of the name and the body; each is preceded by its length. *)
Definition frame (name body : text) : res exn text :=
  match pack_Is (length name) name with
  | Raise e => Raise e
  | Ok x =>
      match pack_Is (length body) body with
      | Raise e => Raise e
      | Ok y => pack_Is (length (x ++ y) + 4) (x ++ y)
      end
  end.

Definition ProtocolTranslator_encode (f : factory) (msg : Obj) : res exn text :=
  match getClassName f msg with
  | Raise e => Raise e
  | Ok name =>
      match Msg_encode msg with
      | Raise e => Raise e
      | Ok body => frame name body
      end
  end.

Definition JsonTranslator_encode (f : factory) (msg : Obj) : res exn text :=
  match getClassName f msg with
  | Raise e => Raise e
  | Ok name =>
      match jsonEncode msg with
      | Raise e => Raise e
      | Ok (Some body) => frame name body
      | Ok None =>
          match pack_Is (length name) name with
          | Raise e => Raise e
          | Ok _ => Raise (ExOther "TypeError" "object of type 'NoneType' has no len()")
          end
      end
  end.

(** Both [decode] methods: the length of the frame and that of the body are
    read and not used. *)
Definition decode_with (body : Obj → text → res exn Obj) (f : factory) (data : text)
    : res exn Obj :=
  match unpack_I data 0, unpack_I data 4 with
  | Ok _, Ok msgLen =>
      match unpack_I data (8 + msgLen) with
      | Raise e => Raise e
      | Ok protoLen =>
          match create f (take msgLen (drop 8 data)) with
          | Raise e => Raise e
          | Ok msg => body msg (drop (8 + msgLen + 4) data)
          end
      end
  | Raise e, _ | _, Raise e => Raise e
  end.

Definition ProtocolTranslator_decode := decode_with Msg_decode.
Definition JsonTranslator_decode := decode_with jsonDecode.

(** *** [NetConnection] *)
Record socket := Socket {
  incoming : list text;
  outgoing : text;
  accepts : list nat
}.

(** [recv(k)]: at most [k] bytes of the piece that is there; the empty text when
    the peer has closed the connection. *)
Definition recv (k : nat) (s : socket) : socket * text :=
  match incoming s with
  | [] => (s, [])
  | c :: cs =>
      (Socket (if decide (length c ≤ k) then cs else drop k c :: cs) (outgoing s) (accepts s),
       take k c)
  end.

(** [send(data)]: as much as the system takes; the rest is not sent. *)
Definition send (data : text) (s : socket) : socket :=
  match accepts s with
  | [] => Socket (incoming s) (outgoing s ++ data) []
  | k :: ks => Socket (incoming s) (outgoing s ++ take k data) ks
  end.

(** The loop of [recvn], from the bytes in [buffer]; [None] when it has not
    ended after [fuel] calls of [recv]. *)
Fixpoint recvn_loop (fuel n : nat) (buffer : text) (s : socket) : option (socket * text) :=
  if decide (length buffer < n) then
    match fuel with
    | O => None
    | S fuel =>
        let '(s, data) := recv (n - length buffer) s in
        recvn_loop fuel n (buffer ++ data) s
    end
  else Some (s, buffer).

Definition recvn (fuel n : nat) (s : socket) : option (socket * text) :=
  recvn_loop fuel n [] s.

Definition sendAndRecv (fuel : nat) (data : text) (s : socket)
    : option (socket * res exn text) :=
  match recvn fuel 4 (send data s) with
  | None => None
  | Some (s, data) =>
      match unpack_I data 0 with
      | Raise e => Some (s, Raise e)
      | Ok datalen =>
          match recvn fuel (datalen - 4) s with
          | None => None
          | Some (s, more) => Some (s, Ok (data ++ more))
          end
      end
  end.

(** With a [ProtocolTranslator]; the trace of [debug] is left out. *)
Definition sendAndRecvMsg (fuel : nat) (f : factory) (req : Obj) (s : socket)
    : option (socket * res exn Obj) :=
  match ProtocolTranslator_encode f req with
  | Raise e => Some (s, Raise e)
  | Ok msg =>
      match sendAndRecv fuel msg s with
      | None => None
      | Some (s, Raise e) => Some (s, Raise e)
      | Some (s, Ok recvData) => Some (s, ProtocolTranslator_decode f recvData)
      end
  end.

(** A class used with the names it was registered under, in order. *)
Definition registers (l : list (text * Cls)) (f : factory) : factory :=
  foldl (λ f '(n, c), register n c f) f l.
End wire.

(** ** Theorems *)

Lemma digits_of (z : N) : (z < 2 ^ 32)%N →
  (((N.shiftr z 24 mod 256 * 256 + N.shiftr z 16 mod 256) * 256 + N.shiftr z 8 mod 256) * 256
     + N.shiftr z 0 mod 256 = z)%N.
Proof.
  intros Hz. rewrite !N.shiftr_div_pow2. change (2 ^ 0)%N with 1%N. rewrite N.div_1_r.
  change (2 ^ 24)%N with (256 * (256 * 256))%N. change (2 ^ 16)%N with (256 * 256)%N.
  change (2 ^ 8)%N with 256%N. rewrite <- !N.Div0.div_div.
  assert (z / 256 / 256 / 256 < 256)%N.
  { repeat apply N.Div0.div_lt_upper_bound. exact Hz. }
  rewrite (N.mod_small (z / 256 / 256 / 256)) by done.
  pose proof (N.div_mod' z 256). pose proof (N.div_mod' (z / 256) 256).
  pose proof (N.div_mod' (z / 256 / 256) 256). lia.
Qed.

Lemma pack_I_ok n : (N.of_nat n < 2 ^ 32)%N →
  ∃ h, pack_I n = Ok h ∧ length h = 4 ∧ be_value 0 h = N.of_nat n.
Proof.
  intros Hn. unfold pack_I. rewrite decide_True by done. eexists. split_and!; [done|done|].
  cbn [map be_value foldl]. unfold be_value. cbn [foldl].
  rewrite !N_ascii_embedding by (apply N.mod_lt; done).
  rewrite N.mul_0_l, N.add_0_l. by apply digits_of.
Qed.

Lemma pack_I_big n : ¬ (N.of_nat n < 2 ^ 32)%N → pack_I n = struct_error.
Proof. intros Hn. unfold pack_I. by rewrite decide_False. Qed.

(** Reading a number back from its place. *)
Lemma unpack_I_at a h b n :
  length h = 4 → be_value 0 h = N.of_nat n → unpack_I (a ++ h ++ b) (length a) = Ok n.
Proof.
  intros Hl Hv. unfold unpack_I. rewrite decide_True by (rewrite !length_app; lia).
  rewrite drop_app_length, <- Hl, take_app_length, Hv. by rewrite Nat2N.id.
Qed.

Section facts.
Context `{Messages}.

Lemma frame_ok name body : (N.of_nat (12 + length name + length body) < 2 ^ 32)%N →
  ∃ a b c, frame name body = Ok (a ++ b ++ name ++ c ++ body) ∧
    length a = 4 ∧ length b = 4 ∧ length c = 4 ∧
    be_value 0 a = N.of_nat (12 + length name + length body) ∧
    be_value 0 b = N.of_nat (length name) ∧ be_value 0 c = N.of_nat (length body).
Proof.
  intros Hs. unfold frame, pack_Is.
  destruct (pack_I_ok (length name)) as (b & -> & ? & ?); [lia|].
  destruct (pack_I_ok (length body)) as (c & -> & ? & ?); [lia|].
  destruct (pack_I_ok (12 + length name + length body)) as (a & Ea & ? & ?); [lia|].
  replace (length ((b ++ name) ++ c ++ body) + 4) with (12 + length name + length body)
    by (rewrite !length_app; lia).
  rewrite Ea. exists a, b, c. by rewrite <- !app_assoc.
Qed.

Lemma frame_big name body : ¬ (N.of_nat (12 + length name + length body) < 2 ^ 32)%N →
  frame name body = struct_error.
Proof.
  intros Hs. unfold frame, pack_Is.
  destruct (decide (N.of_nat (length name) < 2 ^ 32)%N) as [Hn|Hn];
    [|by rewrite (pack_I_big (length name))].
  destruct (pack_I_ok (length name)) as (b & -> & ? & ?); [done|].
  destruct (decide (N.of_nat (length body) < 2 ^ 32)%N) as [Hb|Hb];
    [|by rewrite (pack_I_big (length body))].
  destruct (pack_I_ok (length body)) as (c & -> & ? & ?); [done|].
  rewrite pack_I_big; [done|]. rewrite !length_app. lia.
Qed.

(** The name and the body are found again. *)
Lemma decode_frame body_ f name body data o o0 c :
  frame name body = Ok data → (N.of_nat (12 + length name + length body) < 2 ^ 32)%N →
  name2Class f !! name = Some c → instantiate c = Ok o0 → body_ o0 body = Ok o →
  decode_with body_ f data = Ok o.
Proof.
  intros Hf Hs Hn Ho Hb.
  destruct (frame_ok name body Hs) as (x & y & z & E & Hx & Hy & Hz & Vx & Vy & Vz).
  rewrite E in Hf. injection Hf as <-. unfold decode_with, create.
  assert (unpack_I (x ++ y ++ name ++ z ++ body) 0 = Ok (12 + length name + length body))
    as -> by (by apply (unpack_I_at [])).
  assert (unpack_I (x ++ y ++ name ++ z ++ body) 4 = Ok (length name)) as ->
    by (rewrite <- Hx; by apply unpack_I_at).
  replace (x ++ y ++ name ++ z ++ body) with ((x ++ y ++ name) ++ z ++ body)
    by by rewrite <- !app_assoc.
  assert (8 + length name = length (x ++ y ++ name)) as El by (rewrite !length_app; lia).
  rewrite El, (unpack_I_at _ _ _ (length body)) by done. rewrite <- !app_assoc.
  replace (take (length name) (drop 8 (x ++ y ++ name ++ z ++ body))) with name.
  2:{ rewrite (app_assoc x), drop_app_length', take_app_length; [done|]. rewrite length_app. lia. }
  rewrite Hn, Ho, <- El, (app_assoc x), (app_assoc _ name), (app_assoc _ z).
  rewrite drop_app_length'; [done|]. rewrite !length_app. lia.
Qed.

(** *** The factory *)

Lemma name2Class_registers l f n :
  (n ∉ l.*1) → name2Class (registers l f) !! n = name2Class f !! n.
Proof.
  revert f. induction l as [|[m c] l IH]; intros f; [done|].
  cbn [fmap list_fmap fst]. intros [Hm Hl]%not_elem_of_cons.
  change (registers ((m, c) :: l) f) with (registers l (register m c f)).
  rewrite IH by done. simpl. by rewrite lookup_insert_ne.
Qed.

(** With distinct names, the name of a class leads back to it. *)
Lemma registers_back l f n c :
  NoDup l.*1 →
  (∀ n c, class2Name f !! c = Some n → name2Class f !! n = Some c ∧ (n ∉ l.*1)) →
  class2Name (registers l f) !! c = Some n → name2Class (registers l f) !! n = Some c.
Proof.
  revert f. induction l as [|[m d] l IH]; intros f; cbn [fmap list_fmap fst]; [naive_solver|].
  intros [Hm Hl]%NoDup_cons Hf. change (registers ((m, d) :: l) f) with (registers l (register m d f)).
  apply IH; [done|]. intros n' c'. simpl. destruct (decide (c' = d)) as [->|Hc].
  - rewrite lookup_insert_eq. intros [= <-]. by rewrite lookup_insert_eq.
  - rewrite lookup_insert_ne by done. intros [Hn Hn']%Hf.
    apply not_elem_of_cons in Hn' as [? ?]. by rewrite lookup_insert_ne.
Qed.

Lemma class2Name_registers l f c :
  c ∈ l.*2 → is_Some (class2Name (registers l f) !! c).
Proof.
  assert (∀ l f, is_Some (class2Name f !! c) → is_Some (class2Name (registers l f) !! c)) as Hk.
  { clear. induction l as [|[m d] l IH]; intros f Hf; [done|]. apply (IH (register m d f)). simpl.
    destruct (decide (c = d)) as [->|]; [by rewrite lookup_insert_eq|by rewrite lookup_insert_ne]. }
  revert f. induction l as [|[m d] l IH]; intros f; cbn [fmap list_fmap snd]; [by intros ?%not_elem_of_nil|].
  change (registers ((m, d) :: l) f) with (registers l (register m d f)).
  intros [->|Hc]%elem_of_cons; [|by apply IH]. apply Hk. simpl. by rewrite lookup_insert_eq.
Qed.

(** *** Receiving *)

(** The bytes that are still to come, in pieces that are not empty. *)
Definition holds (s : socket) (bytes : text) : Prop :=
  concat (incoming s) = bytes ∧ Forall (λ c, c ≠ []) (incoming s).

(** The socket but for what was received. *)
Definition same_sent (s s' : socket) : Prop := outgoing s' = outgoing s ∧ accepts s' = accepts s.

Lemma recv_some k s bytes : 0 < k → holds s bytes → bytes ≠ [] →
  let '(s', d) := recv k s in
  ∃ rest, bytes = d ++ rest ∧ 0 < length d ≤ k ∧ holds s' rest ∧ same_sent s s'.
Proof.
  destruct s as [[|c cs] out acc]; intros Hk [<- Hp] Hb; [done|].
  inversion Hp as [|? ? Hc Hcs]; subst. cbn. exists (concat (if decide (length c ≤ k) then cs
    else drop k c :: cs)). destruct c as [|x c]; [done|].
  assert (0 < length (take k (x :: c)) ≤ k) by (rewrite length_take; simpl; lia).
  case_decide as Hl; (split; [|split; [done|split; [split|done]]]); cbn [concat incoming].
  - by rewrite take_ge.
  - done.
  - done.
  - by rewrite app_assoc, take_drop.
  - done.
  - constructor; [|done]. intros E%(f_equal length). rewrite length_drop in E. simpl in E, Hl. lia.
Qed.

Lemma recvn_loop_enough fuel n buffer s bytes :
  holds s bytes → length buffer ≤ n → n ≤ length buffer + length bytes →
  n - length buffer ≤ fuel →
  ∃ s', recvn_loop fuel n buffer s = Some (s', buffer ++ take (n - length buffer) bytes) ∧
    holds s' (drop (n - length buffer) bytes) ∧ same_sent s s'.
Proof.
  revert buffer s bytes. induction fuel as [|fuel IH]; intros buffer s bytes Hs Hn Hb Hf; simpl.
  - rewrite decide_False by lia. exists s. replace (n - length buffer) with 0 by lia.
    by rewrite take_0, app_nil_r, drop_0.
  - case_decide as Hl.
    + pose proof (recv_some (n - length buffer) s bytes) as Hr.
      destruct (recv _ s) as [s1 d].
      destruct Hr as (rest & -> & Hd & Hs1 & Hsame); [lia|done|by intros ->; simpl in Hb; lia|].
      rewrite length_app in Hb.
      destruct (IH (buffer ++ d) s1 rest) as (s2 & -> & Hs2 & Hsame2);
        [done|rewrite ?length_app; lia..|]. rewrite length_app in *.
      exists s2. replace (n - length buffer) with (length d + (n - (length buffer + length d))) by lia.
      rewrite take_app_add, drop_app_add, <- app_assoc. split_and!; [done|done|].
      destruct Hsame, Hsame2. split; congruence.
    + exists s. replace (n - length buffer) with 0 by lia.
      by rewrite take_0, app_nil_r, drop_0.
Qed.

Lemma recvn_loop_short fuel n buffer s bytes :
  holds s bytes → length buffer + length bytes < n → recvn_loop fuel n buffer s = None.
Proof.
  revert buffer s bytes. induction fuel as [|fuel IH]; intros buffer s bytes Hs Hn; simpl;
    rewrite decide_True by lia; [done|].
  destruct (decide (bytes = [])) as [->|Hb].
  - destruct s as [[|c cs] out acc], Hs as [Hc Hp]; cbn.
    + eapply (IH _ _ []); [done|]. rewrite length_app. simpl in *. lia.
    + apply Forall_cons in Hp as [Hp _]. by destruct c.
  - pose proof (recv_some (n - length buffer) s bytes) as Hr.
    destruct (recv _ s) as [s1 d]. destruct Hr as (rest & -> & Hd & Hs1 & _); [lia|done..|].
    eapply IH; [done|]. rewrite length_app in *. lia.
Qed.

(** Whatever the pieces the bytes come in, recvn takes exactly the [n] bytes
    asked for and leaves the others; and when the peer closes the connection
    before [n] bytes have come, it never returns.  *)
Theorem recvn_exact n s bytes :
  holds s bytes →
  (n ≤ length bytes → ∀ fuel, n ≤ fuel →
     ∃ s', recvn fuel n s = Some (s', take n bytes) ∧ holds s' (drop n bytes) ∧ same_sent s s') ∧
  (length bytes < n → ∀ fuel, recvn fuel n s = None).
Proof.
  intros Hs. split; intros Hn fuel.
  - intros Hf. destruct (recvn_loop_enough fuel n [] s bytes) as (s' & E & Hs');
      [done|simpl; lia..|]. exists s'. simpl in *. by rewrite Nat.sub_0_r in *.
  - by apply (recvn_loop_short fuel n [] s bytes).
Qed.

(** *** Requests and replies *)

(** Parsing the serialised form of a message in a new object of its class gives
    the message. *)
Definition parse_serialize (o : Obj) : Prop :=
  ∃ body o0, SerializeToString o = Ok body ∧ instantiate (type_of o) = Ok o0 ∧
    ParseFromString o0 body = Ok o.

(** The classes were registered under different names, [o]'s among them. *)
Definition registered (f : factory) (o : Obj) : Prop :=
  ∃ l, f = registers l factory_init ∧ NoDup l.*1 ∧ type_of o ∈ l.*2.

Lemma encode_cases f o : registered f o → parse_serialize o →
  ∃ name body, getClassName f o = Ok name ∧ SerializeToString o = Ok body ∧
    ((N.of_nat (12 + length name + length body) < 2 ^ 32)%N ∧
     (∃ data, frame name body = Ok data ∧ ProtocolTranslator_encode f o = Ok data ∧
        ProtocolTranslator_decode f data = Ok o) ∨
     ¬ (N.of_nat (12 + length name + length body) < 2 ^ 32)%N ∧
     ProtocolTranslator_encode f o = struct_error).
Proof.
  intros (l & -> & Hnd & Hl) (body & o0 & Hser & Hnew & Hparse).
  destruct (class2Name_registers l factory_init _ Hl) as [name Hname].
  exists name, body. unfold ProtocolTranslator_encode, getClassName, Msg_encode.
  rewrite Hname, Hser. split_and!; [done|done|].
  destruct (decide (N.of_nat (12 + length name + length body) < 2 ^ 32)%N) as [Hs|Hs].
  - left. split; [done|]. destruct (frame_ok name body Hs) as (a & b & c & E & _).
    eexists. split_and!; [exact E..|].
    eapply decode_frame; [exact E|exact Hs| |exact Hnew|exact Hparse].
    apply registers_back; [done| |done]. intros n c'. simpl. by rewrite lookup_empty.
  - right. split; [done|]. by apply frame_big.
Qed.

(** C39: a message of a registered class that fits into a frame is encoded, and
    decoding gives it back; a larger one is refused by struct.  *)
Theorem protocol_roundtrip f o :
  registered f o → parse_serialize o →
  ∃ name body, getClassName f o = Ok name ∧ SerializeToString o = Ok body ∧
    match ProtocolTranslator_encode f o with
    | Ok data => length data = 12 + length name + length body ∧
        ProtocolTranslator_decode f data = Ok o
    | Raise e => (2 ^ 32 ≤ N.of_nat (12 + length name + length body))%N ∧
        Raise e = struct_error (A:=Obj)
    end.
Proof.
  intros Hr Hp. destruct (encode_cases f o Hr Hp) as (name & body & Hn & Hb & [[Hs H1]|[Hs H1]]);
    exists name, body; split_and!; try done.
  - destruct H1 as (data & Ef & -> & ->). split; [|done].
    destruct (frame_ok name body Hs) as (a & b & c & E & Ha & Hb' & Hc & _).
    rewrite E in Ef. injection Ef as <-. rewrite !length_app. lia.
  - rewrite H1. simpl. split; [lia|done].
Qed.

(** a client that sends a request and whose peer answers with the frame of a
    message, in any pieces and with more to come, gets this message, has sent
    the whole request if the system took it, and leaves the other bytes.  *)
Theorem request_reply f req reply data answer rest s fuel :
  registered f reply → parse_serialize reply →
  ProtocolTranslator_encode f req = Ok data →
  ProtocolTranslator_encode f reply = Ok answer →
  holds s (answer ++ rest) → Forall (λ k, length data ≤ k) (accepts s) →
  length answer ≤ fuel →
  ∃ s', sendAndRecvMsg fuel f req s = Some (s', Ok reply) ∧
    holds s' rest ∧ outgoing s' = outgoing s ++ data.
Proof.
  intros Hr Hp Hdata Hanswer Hs Hacc Hf. unfold sendAndRecvMsg. rewrite Hdata.
  assert (∃ s0, send data s = s0 ∧ holds s0 (answer ++ rest) ∧ outgoing s0 = outgoing s ++ data)
    as (s0 & Es & Hs0 & Hout).
  { eexists. split; [done|]. destruct s as [i o [|k ks]]; simpl in *; [done|].
    apply Forall_cons in Hacc as [Hk _]. by rewrite take_ge. }
  destruct (encode_cases f reply Hr Hp) as (name & body & _ & _ & [[Hsz H1]|[_ H1]]);
    [|by rewrite Hanswer in H1].
  destruct H1 as (d & Ef & Ed & Hdec). assert (d = answer) as -> by congruence.
  destruct (frame_ok name body Hsz) as (a & b & c & E & Ha & Hb & Hc & Va & _).
  rewrite E in Ef. injection Ef as <-. unfold sendAndRecv. rewrite Es.
  destruct (recvn_loop_enough fuel 4 [] s0 _ Hs0) as (s1 & E1 & Hs1 & Hsame1);
    [simpl; rewrite ?length_app in *; lia..|]. unfold recvn at 1. rewrite E1.
  cbn [app length Nat.sub] in *. rewrite <- !app_assoc in *.
  assert (take 4 (a ++ b ++ name ++ c ++ body ++ rest) = a) as -> by by apply take_app_length'.
  rewrite drop_app_length' in Hs1 by done.
  assert (unpack_I a 0 = Ok (12 + length name + length body)) as ->.
  { rewrite <- (app_nil_r a). by apply (unpack_I_at []). }
  destruct (recvn_loop_enough fuel (12 + length name + length body - 4) [] s1 _ Hs1)
    as (s2 & E2 & Hs2 & Hsame2); [simpl; rewrite ?length_app in *; lia..|].
  unfold recvn. rewrite E2. exists s2. cbn [app length] in *. rewrite Nat.sub_0_r in *.
  assert (12 + length name + length body - 4 = length (b ++ name ++ c ++ body)) as El
    by (rewrite !length_app; lia). rewrite El in *.
  replace (b ++ name ++ c ++ body ++ rest) with ((b ++ name ++ c ++ body) ++ rest) in *
    by by rewrite <- !app_assoc.
  rewrite take_app_length. rewrite drop_app_length in Hs2. rewrite Hdec. split_and!; [done|done|].
  destruct Hsame1, Hsame2. congruence.
Qed.
End facts.

(** ** A concrete exchange *)

(** A message is its class and its body. *)
#[local] Instance demo_messages : Messages := {|
  Obj := nat * text; Cls := nat; type_of := fst; instantiate := λ c, Ok (c, []);
  SerializeToString := λ o, Ok o.2; ParseFromString := λ o s, Ok (o.1, s);
  Json := text; json_loads := Ok; set_data := λ j o, (o.1, j) |}.

Definition demo_factory : factory :=
  registers [(T "AddRequest", 0); (T "AddResult", 1)] factory_init.
Definition demo_reply : text :=
  match ProtocolTranslator_encode demo_factory (1, T "sum=3") with Ok d => d | _ => [] end.
(** The reply comes in three pieces, the last with a byte of the next one. *)
Definition demo_socket : socket :=
  Socket [take 3 demo_reply; drop 3 (take 12 demo_reply); drop 12 demo_reply ++ T "x"] [] [].

Lemma demo_registered : registered demo_factory (1, T "sum=3").
Proof.
  eexists. split; [reflexivity|]. split; [|by right; left].
  apply NoDup_cons; split; [by intros ?%list_elem_of_singleton|apply NoDup_singleton].
Qed.

Lemma demo_holds : holds demo_socket (demo_reply ++ T "x").
Proof. split; [by vm_compute|]. by repeat constructor. Qed.

Lemma recvn_exact_witness :
  (∃ s', recvn 30 5 demo_socket = Some (s', take 5 (demo_reply ++ T "x")) ∧
     holds s' (drop 5 (demo_reply ++ T "x")) ∧ same_sent demo_socket s') ∧
  recvn 1000 100 demo_socket = None.
Proof.
  destruct (recvn_exact 5 demo_socket _ demo_holds) as [H1 _].
  destruct (recvn_exact 100 demo_socket _ demo_holds) as [_ H2].
  split; [apply H1|apply H2]; vm_compute; lia.
Defined.

Lemma protocol_roundtrip_witness :
  ∃ name body, getClassName demo_factory (1, T "sum=3") = Ok name ∧
    SerializeToString (1, T "sum=3") = Ok body ∧
    match ProtocolTranslator_encode demo_factory (1, T "sum=3") with
    | Ok data => length data = 12 + length name + length body ∧
        ProtocolTranslator_decode demo_factory data = Ok (1, T "sum=3")
    | Raise e => (2 ^ 32 ≤ N.of_nat (12 + length name + length body))%N ∧
        Raise e = struct_error (A:=Obj)
    end.
Proof.
  apply (protocol_roundtrip demo_factory (1, T "sum=3") demo_registered).
  by exists (T "sum=3"), (1, []).
Defined.

Lemma request_reply_witness :
  ∃ s', sendAndRecvMsg 40 demo_factory (0, T "1+2") demo_socket = Some (s', Ok (1, T "sum=3")) ∧
    holds s' (T "x") ∧
    outgoing s' = match ProtocolTranslator_encode demo_factory (0, T "1+2") with
                  | Ok d => d | _ => [] end.
Proof.
  apply (request_reply demo_factory (0, T "1+2") (1, T "sum=3") _ demo_reply (T "x") demo_socket 40).
  - exact demo_registered.
  - by exists (T "sum=3"), (1, []).
  - vm_compute. reflexivity.
  - vm_compute. reflexivity.
  - exact demo_holds.
  - constructor.
  - vm_compute. lia.
Defined.
