(* ===== verification/Subst.v ===== *)
(** * Substitution of construction variables ([SCons/Subst.py])

    [scons_subst] expands the variables of a string or list, [scons_subst_list]
    also separates the result into the words of command lines,
    [scons_subst_once] expands one variable once.  [eval], callable values and
    the methods of other objects are parameters. *)

From S2P Require Import Prelude Errors PyStr.
Open Scope nat_scope.
Open Scope res_scope.

(** ** Values

    [VCmd] is a [CmdStringHolder] with its attribute [literal]; [VList] a list,
    a tuple or a [Targets_or_Sources]; [VTarget] a [Target_or_Source] around the
    list; [VNull] the object [NullNodesList]; [VCall] a callable and [VObj] any
    other object. *)
Inductive value :=
| VStr (s : text)
| VCmd (s : text) (literal : bool)
| VList (l : list value)
| VTarget (l : list value)
| VCall (f : nat)
| VNull
| VNone
| VObj (o : nat).

Abbreviation vars := (gmap text value).

(** [SUBST_CMD], [SUBST_RAW], [SUBST_SIG] *)
Inductive mode := SUBST_CMD | SUBST_RAW | SUBST_SIG.
#[export] Instance mode_eq : EqDecision mode.
Proof. solve_decision. Defined.

(** Out of fuel is [Raise None]. *)
Abbreviation fexn := (option exn).
Definition TypeError {A} : res fexn A := Raise (Some (ExOther "TypeError" "")).
Definition lift {A} (r : res exn A) : res fexn A :=
  match r with Ok a => Ok a | Raise e => Raise (Some e) end.

(** What a call of a callable value does; [CallTypeError] is a [TypeError]. *)
Inductive call_result := Returned (v : value) | CallTypeError | CallRaises (e : exn).

(** ** The regular expressions *)

Definition is_name_start (c : ascii) : bool := is_letter c || bool_decide (c = "_"%char).
Definition is_attr_char (c : ascii) : bool := is_word c || bool_decide (c = "."%char).

(** [_dollar_exps] at the front: the match and the rest. *)
Definition dollar_exp (s : text) : option (text * text) :=
  match s with
  | "$"%char :: c :: s =>
      if char_in c "$()" then Some (["$"%char; c], s)
      else if is_name_start c then
        let '(a, rest) := span is_attr_char s in Some ("$"%char :: c :: a, rest)
      else if decide (c = "{"%char) then
        match span (λ d, bool_decide (d ≠ "}"%char)) s with
        | (a, "}"%char :: rest) => Some ("$"%char :: c :: a ++ T "}", rest)
        | _ => None
        end
      else None
  | _ => None
  end.

(** A string as [_dollar_exps.sub] sees it. *)
Inductive piece := PChar (c : ascii) | PExp (t : text).
Fixpoint pieces_loop (fuel : nat) (s : text) : list piece :=
  match fuel with
  | O => []
  | S fuel =>
      match s with
      | [] => []
      | c :: s' =>
          match dollar_exp s with
          | Some (t, rest) => PExp t :: pieces_loop fuel rest
          | None => PChar c :: pieces_loop fuel s'
          end
      end
  end.
Definition pieces (s : text) : list piece := pieces_loop (length s) s.

Definition is_dollar (c : ascii) : bool := bool_decide (c = "$"%char).

(** [_separate_args.findall] *)
Fixpoint separate_loop (fuel : nat) (s : text) : list text :=
  match fuel with
  | O => []
  | S fuel =>
      match s with
      | [] => []
      | c :: s' =>
          match dollar_exp s with
          | Some (t, rest) => t :: separate_loop fuel rest
          | None =>
              if is_space c then
                let '(a, rest) := span is_space s in a :: separate_loop fuel rest
              else if is_dollar c then [c] :: separate_loop fuel s'
              else
                let '(a, rest) := span (λ d, negb (is_space d) && negb (is_dollar d)) s in
                a :: separate_loop fuel rest
          end
      end
  end.
Definition separate_args (s : text) : list text := separate_loop (length s) s.

(** [_rm]: a dollar and a parenthesis. *)
Definition rm_match (s : text) : option (text * text) :=
  match s with
  | "$"%char :: c :: s => if char_in c "()" then Some ([], s) else None
  | _ => None
  end.

(** [_remove]: from an opening to the closing parenthesis. *)
Fixpoint to_close (fuel : nat) (s : text) : option text :=
  match fuel with
  | O => None
  | S fuel =>
      match (span (λ c, negb (is_dollar c)) s).2 with
      | "$"%char :: ")"%char :: s => Some s
      | "$"%char :: _ :: s => to_close fuel s
      | _ => None
      end
  end.
Definition remove_match (s : text) : option (text * text) :=
  match s with
  | "$"%char :: "("%char :: s =>
      match to_close (S (length s)) s with Some rest => Some ([], rest) | None => None end
  | _ => None
  end.

(** [_space_sep]: blanks that no closing brace follows before an opening one. *)
Definition is_blank (c : ascii) : bool := bool_decide (c = " "%char ∨ c = "009"%char).
Definition space_match (s : text) : option (text * text) :=
  let '(a, rest) := span is_blank s in
  let ahead := (span (λ c, bool_decide (c ≠ "{"%char)) rest).1 in
  if bool_decide (a ≠ []) && negb (bool_decide ("}"%char ∈ ahead))
  then Some ([" "%char], rest) else None.

(** [string.strip] *)
Definition strip (s : text) : text :=
  rev (span is_space (rev (span is_space s).2)).2.

Section subst.
(** [AllowableExceptions], by class name; [eval]; calling a value with
    [TARGETS], [SOURCES] and [for_signature]; [str] of values that are no strings;
    the methods [for_signature] and [is_literal] of objects. *)
Variable AllowableExceptions : list string.
Variable eval : text → vars → vars → res exn value.
Variable call : nat → value → value → bool → call_result.
Variable py_str : value → text.
Variable for_signature : nat → option text.
Variable obj_is_literal : nat → bool.

Definition str (v : value) : text :=
  match v with
  | VStr s | VCmd s _ => s
  | VTarget [] | VNull => []
  | VTarget (VStr s :: _) | VTarget (VCmd s _ :: _) => s
  | VTarget (v :: _) => py_str v
  | _ => py_str v
  end.

(** [string.join] of elements: only [str] objects can be joined. *)
Fixpoint join_strs (l : list value) : res fexn (list text) :=
  match l with
  | [] => Ok []
  | VStr s :: l => let? r := join_strs l in Ok (s :: r)
  | _ :: _ => TypeError
  end.

(** [to_String_for_subst] of [Util.py]; the elements of a list are converted,
    and then the list itself is joined. *)
Fixpoint to_String_for_subst (v : value) : res fexn text :=
  match v with
  | VStr s | VCmd s _ => Ok s
  | VList l =>
      let? _ := (fix go l := match l with
                             | [] => Ok []
                             | v :: l => let? s := to_String_for_subst v in
                                         let? r := go l in Ok (s :: r)
                             end) l in
      let? r := join_strs l in Ok (join (T " ") r)
  | _ => Ok (str v)
  end.

Definition to_String_for_signature (v : value) : res fexn text :=
  match v with
  | VObj o | VTarget (VObj o :: _) =>
      match for_signature o with Some s => Ok s | None => to_String_for_subst v end
  | _ => to_String_for_subst v
  end.

(** [_strconv[mode]] *)
Definition strconv (m : mode) (v : value) : res fexn value :=
  let? s := match m with
            | SUBST_SIG => to_String_for_signature v
            | _ => to_String_for_subst v
            end in Ok (VStr s).

(** [subst_dict]; the proxies of the nodes are given. *)
Definition subst_dict (target source : list value) : vars :=
  list_to_map
    ((match target with
      | [] => [(T "TARGETS", VNull); (T "TARGET", VNull)]
      | _ => [(T "TARGETS", VList target); (T "TARGET", VTarget target);
              (T "CHANGED_TARGETS", VStr (T "$TARGETS"));
              (T "UNCHANGED_TARGETS", VStr (T "$TARGETS"))]
      end) ++
     (match source with
      | [] => [(T "SOURCES", VNull); (T "SOURCE", VNull)]
      | _ => [(T "SOURCES", VList source); (T "SOURCE", VTarget source);
              (T "CHANGED_SOURCES", VStr (T "$SOURCES"));
              (T "UNCHANGED_SOURCES", VStr (T "$SOURCES"))]
      end)).

(** [d[key]] *)
Definition dict_item (d : vars) (key : text) : res fexn value :=
  match d !! key with Some v => Ok v | None => Raise (Some (ExOther "KeyError" "")) end.

Definition of_text (s : text) : string := String.string_of_list_ascii s.

(** [str(exception)] *)
Definition exn_str (e : exn) : string :=
  match e with
  | ExUserError m | ExStopError m | ExOther _ m => m
  | ExBuildError b => be_errstr b
  | ExExplicitExit _ z | ExSystemExit z => pretty z
  | ExEnvironmentError _ _ m _ => m
  end.

(** [raise_exception]; of the target, a node is kept in the error.  [target] is a
    list or [NullNodesList], or text that a caller put in place of one. *)
Definition raise_exception {A} (e : exn) (target : value) (s : text) : res fexn A :=
  let msg := class_name e +:+ (" `" +:+ (exn_str e +:+ ("' trying to evaluate `" +:+
               (of_text s +:+ "'")))) in
  match target with
  | VList (v :: _) =>
      Raise (Some (ExBuildError (BuildError_init
        match v with VObj n => Some (ANode n) | _ => None end msg
        (StatusInt 2) (StatusInt 2) None None)))
  | VStr (_ :: _) | VCmd (_ :: _) _ =>
      Raise (Some (ExBuildError (BuildError_init None msg (StatusInt 2) (StatusInt 2) None None)))
  | _ => Raise (Some (ExUserError msg))
  end.

(** [key] of a token [s] of at least two characters, and its value: [None] when
    the exception is one of those allowed. *)
Definition token_key (s : text) : text :=
  match drop 1 s with
  | "{"%char :: key => take (pred (length key)) key
  | key => key
  end.

Definition token_value (name_error : text → string) (gvars lvars : vars) (s : text)
    : res fexn (option value) :=
  let key := drop 1 s in
  if bool_decide (head key = Some "{"%char ∨ "."%char ∈ key) then
    match eval (token_key s) gvars lvars with
    | Ok v => Ok (Some v)
    | Raise e =>
        if negb (is_Exception e) then Raise (Some e)
        else if decide (class_name e ∈ AllowableExceptions) then Ok None
        else let? t := dict_item lvars (T "TARGETS") in raise_exception e t s
    end
  else
    match lvars !! key, gvars !! key with
    | Some v, _ | None, Some v => Ok (Some v)
    | None, None =>
        if decide ("NameError"%string ∈ AllowableExceptions) then Ok None
        else let? t := dict_item lvars (T "TARGETS") in
             raise_exception (ExOther "NameError" (name_error key)) t s
    end.

(** [lv]: the variable just expanded is empty. *)
Definition without_key (s : text) (lvars : vars) : vars :=
  <[default [] (head (split "."%char (token_key s))) := VStr []]> lvars.

(** The value a callable stands for: a value to substitute, or one to return. *)
Definition call_value (m : mode) (conv : value → res fexn value) (f : nat) (lvars : vars)
    : res fexn (value * bool) :=
  let? t := dict_item lvars (T "TARGETS") in
  let? src := dict_item lvars (T "SOURCES") in
  match call f t src (bool_decide (m ≠ SUBST_CMD)) with
  | Returned v => Ok (v, true)
  | CallTypeError =>
      if decide (m = SUBST_RAW) then Ok (VCall f, false)
      else let? v := conv (VCall f) in Ok (v, true)
  | CallRaises e => Raise (Some e)
  end.

(** ** class StringSubber *)

(** [expand], [substitute] being given. *)
Definition expand_string (substitute : value → vars → res fexn value) (gvars : vars)
    (v : value) (s : text) (lvars : vars) : res fexn value :=
  match s with
  | s0 :: s1 :: _ =>
      if decide (s0 ≠ "$"%char) then Ok v
      else if decide (s1 = "$"%char) then Ok (VStr (T "$"))
      else if char_in s1 "()" then Ok v
      else
        let? r := token_value of_text gvars lvars s in
        match r with
        | None => Ok (VStr [])
        | Some v => substitute v (without_key s lvars)
        end
  | _ => Ok v
  end.

Definition expand (m : mode) (conv : value → res fexn value)
    (substitute : value → vars → res fexn value) (gvars : vars) (v : value) (lvars : vars)
    : res fexn value :=
  match v with
  | VStr s | VCmd s _ => expand_string substitute gvars v s lvars
  | VList l =>
      let? l := rmap (λ x, let? r := substitute x lvars in conv r) l in Ok (VList l)
  | VCall f =>
      let? r := call_value m conv f lvars in
      let '(v, again) := r in
      if again : bool then substitute v lvars else Ok v
  | VNull => substitute (VStr []) lvars
  | VNone => Ok (VStr [])
  | VTarget _ | VObj _ => Ok v
  end.

(** The result of [_dollar_exps.sub]: [None] is the [TypeError] of a replacement
    that is not a string; [None] objects are left out. *)
Fixpoint join_replacements (l : list (ascii + value)) : option text :=
  match l with
  | [] => Some []
  | inl c :: l => s ← join_replacements l; Some (c :: s)
  | inr (VStr t) :: l => s ← join_replacements l; Some (t ++ s)
  | inr VNone :: l => join_replacements l
  | inr _ :: _ => None
  end.

Definition is_TypeError (e : exn) : bool := bool_decide (class_name e = "TypeError").

Definition substitute_string (m : mode) (conv : value → res fexn value)
    (expand : value → vars → res fexn value) (s : text) (lvars : vars) : res fexn value :=
  let one (t : text) := let? v := expand (VStr t) lvars in conv v in
  let fallback :=
    let? result := rmap one (separate_args s) in
    match result with
    | [v] => Ok v
    | _ => Ok (VStr (concat (map str result)))
    end in
  match rmap (λ p, match p with
                   | PChar c => Ok (inl c)
                   | PExp t => let? v := one t in Ok (inr v)
                   end) (pieces s) with
  | Ok l => match join_replacements l with Some t => Ok (VStr t) | None => fallback end
  | Raise (Some e) => if is_TypeError e then fallback else Raise (Some e)
  | Raise None => Raise None
  end.

Fixpoint substitute (fuel : nat) (m : mode) (conv : value → res fexn value) (gvars : vars)
    (v : value) (lvars : vars) : res fexn value :=
  match fuel with
  | O => Raise None
  | S fuel =>
      let ex := expand m conv (substitute fuel m conv gvars) gvars in
      match v with
      | VStr s => substitute_string m conv ex s lvars
      | _ => ex v lvars
      end
  end.

(** [if not lvars.has_key('TARGET'): ...]; the entry [__builtins__] that [eval]
    is given and that is taken out afterwards is left out. *)
Definition with_targets (target source : list value) (lvars : vars) : vars :=
  match lvars !! T "TARGET" with
  | Some _ => lvars
  | None => subst_dict target source ∪ lvars
  end.

(** [l == '$('] for strings of either kind *)
Definition is_text (t : text) (v : value) : bool :=
  match v with VStr s | VCmd s _ => bool_decide (s = t) | _ => false end.

(** [_remove_list], with [appending] for the binding of [do_append] *)
Fixpoint remove_list (appending : bool) (l : list value) : list value :=
  match l with
  | [] => []
  | v :: l =>
      if is_text (T "$(") v then remove_list false l
      else if is_text (T "$)") v then remove_list true l
      else if appending then v :: remove_list appending l else remove_list appending l
  end.

Definition rm_list (l : list value) : list value :=
  filter (λ v, is_text (T "$(") v || is_text (T "$)") v = false) l.

Definition clean_text (m : mode) (s : text) : text :=
  match m with
  | SUBST_CMD => strip (re_sub space_match (re_sub rm_match s))
  | SUBST_RAW => s
  | SUBST_SIG => strip (re_sub space_match (re_sub remove_match s))
  end.

(** The end of [scons_subst]; regular expressions refuse a [CmdStringHolder]. *)
Definition clean_result (m : mode) (v : value) : res fexn value :=
  match v with
  | VStr s => Ok (VStr (clean_text m s))
  | VCmd s _ => if decide (m = SUBST_RAW) then Ok v else TypeError
  | VList l => Ok (VList match m with
                         | SUBST_CMD => rm_list l
                         | SUBST_RAW => l
                         | SUBST_SIG => remove_list true l
                         end)
  | _ => Ok v
  end.

(** [conv] is [None] for the default. *)
Definition conv_of (m : mode) (conv : option (value → res fexn value)) : value → res fexn value :=
  default (strconv m) conv.

Definition scons_subst (fuel : nat) (strSubst : value) (m : mode) (target source : list value)
    (gvars lvars : vars) (conv : option (value → res fexn value)) : res fexn value :=
  match strSubst with
  | VStr s =>
      if decide ("$"%char ∉ s) then Ok strSubst
      else let? v := substitute fuel m (conv_of m conv) gvars strSubst
                       (with_targets target source lvars) in
           clean_result m v
  | _ => let? v := substitute fuel m (conv_of m conv) gvars strSubst
                     (with_targets target source lvars) in
         clean_result m v
  end.

(** ** class ListSubber

    [lines] is the list of lines of words; [new_word] tells which method
    [append] is bound to. *)
Record list_subber := LS {
  lines : list (list value);
  new_word : bool;
  in_strip : bool
}.

Abbreviation lsm := (eff list_subber fexn unit).

Definition next_word (s : list_subber) : list_subber := LS (lines s) true (in_strip s).
Definition this_word (s : list_subber) : list_subber := LS (lines s) false (in_strip s).
Definition next_line (s : list_subber) : list_subber :=
  next_word (LS (lines s ++ [[]]) (new_word s) (in_strip s)).
Definition ls_init : list_subber := next_line (LS [] false false).

Definition is_literal (v : value) : bool :=
  match v with
  | VCmd _ l => l
  | VObj o | VTarget (VObj o :: _) => obj_is_literal o
  | _ => false
  end.

(** [CmdStringHolder(x, literal)] of strings. *)
Definition hold (v : value) (literal : bool) : value :=
  match v with VStr s | VCmd s _ => VCmd s literal | _ => v end.

(** [self[-1] = f(self[-1])] *)
Definition on_last (f : list value → list value) (l : list (list value)) : list (list value) :=
  match rev l with w :: ws => rev (f w :: ws) | [] => [] end.

Definition skipping (m : mode) (s : list_subber) : bool :=
  in_strip s && bool_decide (m = SUBST_SIG).

Definition add_new_word (m : mode) (conv : value → res fexn value) (x : value) : lsm := λ s,
  if skipping m s then (LS (lines s) false (in_strip s), Ok tt)
  else match conv x with
       | Ok y => (LS (on_last (λ w, w ++ [hold y (is_literal x)]) (lines s)) false (in_strip s),
                  Ok tt)
       | Raise e => (s, Raise e)
       end.

(** [current_word + x] *)
Definition concat_values (w x : value) : res fexn value :=
  match w, x with
  | VCmd a b, x => Ok (VCmd (a ++ str x) false)
  | VStr a, VStr b => Ok (VStr (a ++ b))
  | VStr a, VCmd b l => Ok (VCmd (a ++ b) false)
  | _, _ => TypeError
  end.

Definition add_to_current_word (m : mode) (conv : value → res fexn value) (x : value) : lsm := λ s,
  if skipping m s then (s, Ok tt)
  else match last (lines s) ≫= last with
       | None => add_new_word m conv x s
       | Some w =>
           if match last (str w) with Some c => char_in c "<>|" | None => false end
           then add_new_word m conv x s
           else match (let? y := concat_values w x in conv y) with
                | Ok y => (LS (on_last (λ ws, removelast ws ++ [hold y false]) (lines s))
                             (new_word s) (in_strip s), Ok tt)
                | Raise e => (s, Raise e)
                end
       end.

Definition append (m : mode) (conv : value → res fexn value) (x : value) : lsm := λ s,
  if new_word s then add_new_word m conv x s else add_to_current_word m conv x s.

(** [open_strip] and [close_strip] *)
Definition set_strip (m : mode) (conv : value → res fexn value) (b : bool) (x : text) : lsm :=
  (match m with SUBST_RAW => append m conv (VStr x) | _ => eret tt end ;;;
   emod (λ s, LS (lines s) (new_word s) b))%eff.

Definition liftr {A} (r : res fexn A) : eff list_subber fexn A := λ s, (s, r).

Definition list_expand_string (m : mode) (conv : value → res fexn value)
    (substitute : value → vars → bool → lsm) (gvars : vars) (v : value) (s : text)
    (lvars : vars) : lsm :=
  match s with
  | s0 :: s1 :: _ =>
      if decide (s0 ≠ "$"%char) then append m conv v
      else if decide (s1 = "$"%char) then append m conv (VStr (T "$"))
      else if decide (s1 = "("%char) then set_strip m conv true (T "$(")
      else if decide (s1 = ")"%char) then set_strip m conv false (T "$)")
      else
        (let! r := liftr (token_value (λ _, ""%string) gvars lvars s) in
         match r with
         | None => eret tt
         | Some v => substitute v (without_key s lvars) false ;;; emod this_word
         end)%eff
  | _ => append m conv v
  end.

Definition list_expand (m : mode) (conv : value → res fexn value)
    (substitute : value → vars → bool → lsm) (gvars : vars) (v : value) (lvars : vars)
    (within_list : bool) : lsm :=
  match v with
  | VStr s | VCmd s _ => list_expand_string m conv substitute gvars v s lvars
  | VList l => efor l (λ a, (substitute a lvars true ;;; emod next_word)%eff)
  | VCall f =>
      (let! r := liftr (call_value m conv f lvars) in
       let '(v, again) := r in
       if again : bool then substitute v lvars within_list else append m conv v)%eff
  | VNull => substitute (VStr []) lvars within_list
  | VNone => emod this_word
  | VTarget _ | VObj _ => append m conv v
  end.

(** The loop of [substitute] over the tokens of a string. *)
Definition list_token (m : mode) (conv : value → res fexn value)
    (expand : value → vars → bool → lsm) (lvars : vars) (within_list : bool) (a : text) : lsm :=
  match a with
  | c :: _ =>
      if is_space c then
        if bool_decide ("010"%char ∈ a) then emod next_line
        else if within_list then append m conv (VStr a)
        else emod next_word
      else expand (VStr a) lvars within_list
  | [] => eret tt
  end.

Fixpoint list_substitute (fuel : nat) (m : mode) (conv : value → res fexn value) (gvars : vars)
    (v : value) (lvars : vars) (within_list : bool) : lsm :=
  match fuel with
  | O => eraise None
  | S fuel =>
      let ex := list_expand m conv (list_substitute fuel m conv gvars) gvars in
      match v with
      | VStr s => efor (separate_args s) (list_token m conv ex lvars within_list)
      | _ => ex v lvars within_list
      end
  end.

Definition scons_subst_list (fuel : nat) (strSubst : value) (m : mode)
    (target source : list value) (gvars lvars : vars)
    (conv : option (value → res fexn value)) : res fexn (list (list value)) :=
  match list_substitute fuel m (conv_of m conv) gvars strSubst
          (with_targets target source lvars) false ls_init with
  | (s, Ok _) => Ok (lines s)
  | (_, Raise e) => Raise e
  end.

(** ** [scons_subst_once] *)

(** [sub_match]: the variable [key], written in either way, becomes [val]. *)
Definition once_match (key : text) (val : value) (s : text) : option (text * text) :=
  match dollar_exp s with
  | None => None
  | Some (a, rest) =>
      Some (if decide (a = T "$" ++ key ∨ a = T "${" ++ key ++ T "}")
            then match val with
                 | VList l => join (T " ") (map str l)
                 | _ => str val
                 end
            else a, rest)
  end.

Definition once_arg (key : text) (val : value) (arg : value) : res fexn (list value) :=
  match arg with
  | VStr s | VCmd s _ =>
      if decide (s = T "$" ++ key ∨ s = T "${" ++ key ++ T "}")
      then Ok match val with VList l => l | _ => [val] end
      else match arg with
           | VCmd _ _ => TypeError
           | _ => Ok [VStr (re_sub (once_match key val) s)]
           end
  | _ => Ok [arg]
  end.

Definition scons_subst_once (strSubst : value) (env : vars) (key : text) : res fexn value :=
  let val := default (VStr []) (env !! key) in
  match strSubst with
  | VStr s => if decide ("$"%char ∉ s) then Ok strSubst
              else Ok (VStr (re_sub (once_match key val) s))
  | VCmd _ _ => TypeError
  | VList l => let? r := rmap (once_arg key val) l in Ok (VList (concat r))
  | _ => Ok strSubst
  end.
End subst.

(** ** Escaping of the words of a command *)

Definition quote_spaces (arg : text) : text :=
  if existsb is_blank arg then "034"%char :: arg ++ ["034"%char] else arg.

(** [CmdStringHolder.escape] and [escape_list]; [obj_escape] is the method
    [escape] of the objects that have one. *)
Definition cmd_escape (escape_func quote_func : text → text) (s : text) (literal : bool) : text :=
  if literal then escape_func s else if existsb is_blank s then quote_func s else s.
Definition escape_list (obj_escape : nat → option ((text → text) → text))
    (escape_func : text → text) (l : list value) : list value :=
  map (λ v, match v with
            | VCmd s b => VStr (cmd_escape escape_func quote_spaces s b)
            | VObj o | VTarget (VObj o :: _) =>
                match obj_escape o with Some e => VStr (e escape_func) | None => v end
            | _ => v
            end) l.

(** ** Examples *)

Section examples.
Definition ex_eval (key : text) (gvars lvars : vars) : res exn value :=
  if decide ("."%char ∈ key) then Raise (ExOther "AttributeError" "")
  else match lvars !! key, gvars !! key with
       | Some v, _ | None, Some v => Ok v
       | None, None => Raise (ExOther "NameError" "")
       end.
Definition ex_call (f : nat) (t s : value) (b : bool) : call_result := CallTypeError.
Definition ex_vars : vars :=
  list_to_map [(T "CC", VStr (T "gcc")); (T "FLAGS", VList [VStr (T "-O2"); VStr (T "-I $INC")]);
               (T "INC", VStr (T "a  b")); (T "LOOP", VStr (T "x$LOOP"));
               (T "CMD", VStr (T "$CC $FLAGS $( -j4 $) -o $TARGET"))].

Example subst_raw :
  scons_subst ["NameError"; "IndexError"] ex_eval ex_call (λ _, []) (λ _, None) 20
    (VStr (T "$CMD $LOOP ${CC}$$ $NONE")) SUBST_RAW [VStr (T "t.o")] [] ex_vars ∅ None =
  Ok (VStr (T "gcc -O2 -I a  b $( -j4 $) -o t.o x gcc$ ")).
Proof. vm_compute. reflexivity. Qed.
Example subst_sig :
  scons_subst ["NameError"; "IndexError"] ex_eval ex_call (λ _, []) (λ _, None) 20
    (VStr (T "$CMD")) SUBST_SIG [VStr (T "t.o")] [] ex_vars ∅ None =
  Ok (VStr (T "gcc -O2 -I a b -o t.o")).
Proof. vm_compute. reflexivity. Qed.
Example subst_list_cmd :
  scons_subst_list ["NameError"; "IndexError"] ex_eval ex_call (λ _, []) (λ _, None) (λ _, false)
    20 (VStr (T "$CMD")) SUBST_CMD [VStr (T "t.o")] [] ex_vars ∅ None =
  Ok [map (λ s, VCmd s false) [T "gcc"; T "-O2"; T "-I a"; T "b"; T "-j4"; T "-o"; T "t.o"]].
Proof. vm_compute. reflexivity. Qed.
End examples.
