(* ===== verification/SubstFacts.v ===== *)
(** * Substitution of construction variables: theorems

    The expansion of variables that refer to themselves ends; texts and command
    lines survive it when their dollars are doubled. *)

From S2P Require Import Prelude Errors PyStr Subst.
Open Scope nat_scope.

(** ** Texts without dollars *)

Lemma dollar_exp_head c s : c ≠ "$"%char → dollar_exp (c :: s) = None.
Proof. by destruct c as [[] [] [] [] [] [] [] []]. Qed.

Lemma pieces_plain s : "$"%char ∉ s → pieces s = map PChar s.
Proof.
  unfold pieces. induction s as [|c s IH]; [done|]. intros [Hc Hs]%not_elem_of_cons.
  cbn [pieces_loop length map]. rewrite dollar_exp_head by done. by rewrite IH.
Qed.

(** The tokens hold characters of the text. *)
Lemma dollar_exp_split s a rest : dollar_exp s = Some (a, rest) → s = a ++ rest ∧ a ≠ [].
Proof.
  destruct s as [|c s]; [done|].
  destruct (decide (c = "$"%char)) as [->|Hc]; [|by rewrite dollar_exp_head].
  destruct s as [|d s]; [done|]. unfold dollar_exp.
  destruct (char_in d "$()"); [by intros [= <- <-]|].
  destruct (is_name_start d).
  { pose proof (span_split is_attr_char s) as Hs. destruct (span is_attr_char s) as [x y].
    subst. by intros [= <- <-]. }
  case_decide; [|done]. pose proof (span_split (λ e, bool_decide (e ≠ "}"%char)) s) as Hs.
  destruct (span _ s) as [x [|e y]]; [done|]. subst.
  destruct (decide (e = "}"%char)) as [->|He]; [|by destruct e as [[] [] [] [] [] [] [] []]].
  intros [= <- <-]. split; [|done]. simpl. by rewrite <- app_assoc.
Qed.

Lemma separate_loop_chars fuel s t c : t ∈ separate_loop fuel s → c ∈ t → c ∈ s.
Proof.
  revert s. induction fuel as [|fuel IH]; intros s; cbn [separate_loop]; [by intros ?%elem_of_nil|].
  destruct s as [|d s]; [by intros ?%elem_of_nil|].
  assert (∀ a rest, d :: s = a ++ rest → t ∈ a :: separate_loop fuel rest → c ∈ t → c ∈ d :: s) as Hgo.
  { intros a rest -> [->|Ht]%elem_of_cons Hc; rewrite elem_of_app; [by left|right; by eapply IH]. }
  destruct (dollar_exp (d :: s)) as [[a rest]|] eqn:E.
  { apply Hgo. by apply dollar_exp_split. }
  destruct (is_space d).
  { pose proof (span_split is_space (d :: s)) as Hs. destruct (span is_space (d :: s)).
    by apply Hgo. }
  destruct (is_dollar d); [by apply Hgo|].
  pose proof (span_split (λ d, negb (is_space d) && negb (is_dollar d)) (d :: s)) as Hs.
  destruct (span _ (d :: s)). by apply Hgo.
Qed.

(** ** Termination *)

Section termination.
Variable AllowableExceptions : list string.
Variable eval : text → vars → vars → res exn value.
Variable call : nat → value → value → bool → call_result.
Variable py_str : value → text.
Variable for_signature : nat → option text.
Variable obj_is_literal : nat → bool.
Variables (m : mode) (conv : value → res fexn value) (gvars : vars).

(** How deep the callables called one after the other can go, and the values of
    the variables. *)
Variables (crank : nat → nat) (D : nat).
(** The callables in question, and the depth of the values of expressions. *)
Variables (C : nat → Prop) (De : nat).

Fixpoint vdepth (v : value) : nat :=
  match v with
  | VList l => S (foldr (λ v n, vdepth v `max` n) 0 l)
  | VCall f => S (crank f)
  | VNull => 1
  | _ => 0
  end.

(** Nothing in the value is expanded further. *)
Fixpoint plain (v : value) : bool :=
  match v with
  | VStr s | VCmd s _ => negb (bool_decide ("$"%char ∈ s))
  | VList l => forallb plain l
  | VCall _ => false
  | _ => true
  end.

(** The value of a variable. *)
Definition lookup_var (lvars : vars) (k : text) : option value :=
  match lvars !! k with Some v => Some v | None => gvars !! k end.

(** An expression that gives the value of the variable it names, or a value that
    holds nothing to expand. *)
Definition fine (k : text) : Prop := ∀ lvars v, eval k gvars lvars = Ok v →
  (plain v = true ∧ vdepth v ≤ De) ∨ (("."%char ∉ k) ∧ lookup_var lvars k = Some v).

(** If the token is evaluated, then it is such an expression. *)
Definition token_fine (s : text) : Prop :=
  head s = Some "$"%char → head (drop 1 s) = Some "{"%char ∨ "."%char ∈ drop 1 s →
  fine (token_key s).

(** All expressions that occur in the value are such, all callables are in [C]. *)
Fixpoint all_fine (v : value) : Prop :=
  match v with
  | VStr s => ∀ a, PExp a ∈ pieces s ∨ a ∈ separate_args s → token_fine a
  | VCmd s _ => token_fine s
  | VList l => foldr (λ v P, all_fine v ∧ P) True l
  | VCall f => C f
  | _ => True
  end.

Lemma all_fine_in v l : v ∈ l → all_fine (VList l) → all_fine v.
Proof.
  cbn [all_fine]. induction l as [|w l IH]; [by intros ?%elem_of_nil|].
  intros [->|Hv]%elem_of_cons [Hw Hl]; [done|by apply IH].
Qed.

Lemma all_fine_nil : all_fine (VStr []).
Proof. by intros a [?%elem_of_nil|?%elem_of_nil]. Qed.

(** [conv] ends; what a callable returns is less deep than the callable, and its
    expressions are fine, as are those of the text of the callable and of the
    values of variables. *)
Record ends : Prop := {
  conv_ends : ∀ v, conv v ≠ Raise None;
  conv_call : ∀ f v, C f → conv (VCall f) = Ok v → vdepth v ≤ crank f ∧ all_fine v;
  call_returns : ∀ f t s b v, C f → call f t s b = Returned v → vdepth v ≤ crank f ∧ all_fine v;
  gvars_fine : ∀ k v, gvars !! k = Some v → vdepth v ≤ D ∧ all_fine v;
  expression_depth : De ≤ D
}.
Hypothesis Hends : ends.

Definition shallow (lvars : vars) : Prop :=
  ∀ k v, lvars !! k = Some v → vdepth v ≤ D ∧ all_fine v.

(** The variables that are not yet empty. *)
Definition settled (lvars : vars) (k : text) : bool :=
  match lookup_var lvars k with Some (VStr []) => true | _ => false end.
Definition live (lvars : vars) : gset text :=
  filter (λ k, settled lvars k = false) (dom gvars ∪ dom lvars).

Lemma shallow_without s lvars : shallow lvars → shallow (without_key s lvars).
Proof.
  intros Hl k v. unfold without_key. rewrite lookup_insert.
  case_decide; [intros [= <-]; split; [simpl; lia|apply all_fine_nil]|apply Hl].
Qed.

Lemma lookup_var_fine lvars k v :
  shallow lvars → lookup_var lvars k = Some v → vdepth v ≤ D ∧ all_fine v.
Proof.
  unfold lookup_var. intros Hl. destruct (lvars !! k) eqn:E; [intros [= <-]; by eapply Hl|].
  by eapply gvars_fine.
Qed.

Lemma live_without s lvars v :
  ("."%char ∉ token_key s) → lookup_var lvars (token_key s) = Some v → v ≠ VStr [] →
  size (live (without_key s lvars)) < size (live lvars).
Proof.
  intros Hs Hv Hne. unfold without_key. rewrite split_no_sep by done. cbn [head default].
  apply subset_size. unfold live. set (k := token_key s) in *.
  assert (k ∈ dom gvars ∪ dom lvars) as Hk.
  { apply elem_of_union. unfold lookup_var in Hv. destruct (lvars !! k) eqn:E.
    - right. by apply elem_of_dom.
    - left. by apply elem_of_dom. }
  assert (∀ x, settled (<[k:=VStr []]> lvars) x = if decide (k = x) then true else settled lvars x)
    as Hset.
  { intros x. unfold settled, lookup_var. rewrite lookup_insert. by case_decide. }
  split.
  - intros x. rewrite !elem_of_filter, dom_insert_L, Hset. case_decide; [naive_solver|].
    rewrite !elem_of_union, elem_of_singleton. naive_solver.
  - intros Hsub.
    assert (k ∈ filter (λ k, settled lvars k = false) (dom gvars ∪ dom lvars)) as Hin.
    { apply elem_of_filter. split; [|done]. unfold settled. rewrite Hv.
      by destruct v as [[]| | | | | | |]. }
    apply Hsub, elem_of_filter in Hin as [Hin _]. by rewrite Hset, decide_True in Hin.
Qed.

(** What the value of a token can be. *)
Lemma token_value_cases err lvars s : shallow lvars → head s = Some "$"%char → token_fine s →
  match token_value AllowableExceptions eval err gvars lvars s with
  | Ok (Some v) => (plain v = true ∧ vdepth v ≤ D) ∨ v = VStr [] ∨
      ((vdepth v ≤ D ∧ all_fine v) ∧ size (live (without_key s lvars)) < size (live lvars))
  | Ok None => True
  | Raise r => r ≠ None
  end.
Proof.
  intros Hl Hhead Hfine. assert (∀ v, ("."%char ∉ token_key s) → lookup_var lvars (token_key s) = Some v →
    v = VStr [] ∨ ((vdepth v ≤ D ∧ all_fine v) ∧ size (live (without_key s lvars)) < size (live lvars))) as Hvar.
  { intros v Hs Hv. assert (Decision (v = VStr [])) as [->|Hne]
      by (destruct v as [[]| | | | | | |]; (by left) || (by right)); [by left|right].
    split; [by eapply lookup_var_fine|by eapply live_without]. }
  assert (∀ (A : Type) e, ∃ x, (rbind (dict_item lvars (T "TARGETS")) (λ t, raise_exception e t s)
    : res fexn A) = Raise (Some x)) as Hr.
  { intros A e. unfold dict_item, raise_exception.
    destruct (lvars !! T "TARGETS") as [t|]; simpl; [|by eexists].
    repeat case_match; by eexists. }
  unfold token_value. case_bool_decide as Hk.
  - destruct (eval (token_key s) gvars lvars) as [v|e] eqn:Ev.
    + pose proof (expression_depth Hends). destruct (Hfine Hhead Hk _ _ Ev) as [[? ?]|[? ?]];
        [left; split; [done|lia]|right; by apply Hvar].
    + destruct (negb (is_Exception e)); [done|]. case_decide; [done|].
      by destruct (Hr (option value) e) as [x ->].
  - assert (token_key s = drop 1 s) as Ek.
    { unfold token_key. destruct (drop 1 s) as [|c k]; [done|]. simpl in Hk.
      destruct (decide (c = "{"%char)) as [->|]; [naive_solver|].
      by destruct c as [[] [] [] [] [] [] [] []]. }
    rewrite Ek in Hvar. unfold lookup_var, text in *.
    assert ("."%char ∉ drop 1 s) as Hs by naive_solver.
    destruct (lvars !! drop 1 s) as [v|] eqn:E1; [right; apply Hvar; [exact Hs|reflexivity]|].
    destruct (gvars !! drop 1 s) as [v|] eqn:E2; [right; apply Hvar; [exact Hs|reflexivity]|].
    case_decide; [done|].
    by destruct (Hr (option value) (ExOther "NameError" (err (drop 1 s)))) as [x ->].
Qed.

Abbreviation lsm := (eff list_subber fexn unit).
Abbreviation sub fuel := (substitute AllowableExceptions eval call py_str fuel m conv gvars).
Abbreviation lsub fuel :=
  (list_substitute AllowableExceptions eval call py_str obj_is_literal fuel m conv gvars).

Lemma rmap_ends {A B} (f : A → res fexn B) l :
  (∀ x, x ∈ l → f x ≠ Raise None) → rmap f l ≠ Raise None.
Proof.
  induction l as [|x l IH]; intros Hf; simpl; [done|].
  pose proof (Hf x ltac:(left)) as Hx. destruct (f x) as [y|r]; simpl; [|congruence].
  assert (rmap f l ≠ Raise None) as Hl by (apply IH; intros; apply Hf; by right).
  destruct (rmap f l) as [ys|r]; simpl; [done|congruence].
Qed.

Lemma rbind_ends {A B} (r : res fexn A) (k : A → res fexn B) :
  r ≠ Raise None → (∀ a, r = Ok a → k a ≠ Raise None) → rbind r k ≠ Raise None.
Proof. intros Hr Hk. destruct r as [a|e]; simpl; [by apply Hk|congruence]. Qed.

Lemma vdepth_in v l : v ∈ l → vdepth v < vdepth (VList l).
Proof.
  simpl. induction l as [|w l IH]; [by intros ?%elem_of_nil|].
  intros [->|Hv]%elem_of_cons; simpl; [lia|]. specialize (IH Hv). simpl in IH. lia.
Qed.

Lemma call_value_ends f lvars : C f →
  match call_value call m conv f lvars with
  | Ok (v, true) => vdepth v ≤ crank f ∧ all_fine v
  | Ok (v, false) => True
  | Raise r => r ≠ None
  end.
Proof.
  intros HC. unfold call_value, dict_item.
  destruct (lvars !! T "TARGETS") as [t|]; cbn [rbind]; [|done].
  destruct (lvars !! T "SOURCES") as [s|]; cbn [rbind]; [|done].
  destruct (call f t s _) as [v| |e] eqn:Ev; [exact (call_returns Hends _ _ _ _ _ HC Ev)| |done].
  destruct (decide (m = SUBST_RAW)); [done|]. pose proof (conv_ends Hends (VCall f)) as Hc.
  destruct (conv (VCall f)) as [v|r] eqn:Ec; simpl; [exact (conv_call Hends _ _ HC Ec)|congruence].
Qed.

(** What is expanded: a value, or a token of a string. *)
Definition piece_fine (v : value) : Prop :=
  match v with VStr s | VCmd s _ => token_fine s | VCall f => C f | _ => True end.

(** It is expanded with the fuel that is left. *)
Lemma expand_ends (substitute : value → vars → res fexn value) lvars v :
  (∀ x, x ∈ match v with VList l => l | _ => [] end → substitute x lvars ≠ Raise None) →
  (∀ f x, v = VCall f → call_value call m conv f lvars = Ok (x, true) →
     substitute x lvars ≠ Raise None) →
  (v = VNull → substitute (VStr []) lvars ≠ Raise None) →
  (∀ s x, v = VStr s ∨ (∃ b, v = VCmd s b) →
     token_value AllowableExceptions eval of_text gvars lvars s = Ok (Some x) →
     head s = Some "$"%char → substitute x (without_key s lvars) ≠ Raise None) →
  shallow lvars → piece_fine v →
  expand AllowableExceptions eval call m conv substitute gvars v lvars ≠ Raise None.
Proof.
  intros Hl Hc He Ht Hsh Hpf.
  assert (∀ s, v = VStr s ∨ (∃ b, v = VCmd s b) →
    expand_string AllowableExceptions eval substitute gvars v s lvars ≠ Raise None) as Hs.
  { intros s Hv. unfold expand_string. destruct s as [|s0 [|s1 s2]] eqn:Es; [done..|].
    case_decide as H0; [done|]. case_decide; [done|]. destruct (char_in s1 "()"); [done|].
    subst s0.
    assert (token_fine ("$"%char :: s1 :: s2)) as Hf by by destruct Hv as [->|[b ->]].
    pose proof (token_value_cases of_text lvars ("$"%char :: s1 :: s2) Hsh eq_refl Hf) as Hcase.
    apply rbind_ends; [intros Ev; by rewrite Ev in Hcase|].
    intros [x|] Ev; [|done]. by apply (Ht ("$"%char :: s1 :: s2)). }
  destruct v as [s|s b|l|l|f| | |o]; simpl; try done;
    [by apply Hs; left|by apply Hs; right; eexists| | |by apply He].
  - apply rbind_ends; [|done]. apply rmap_ends. intros x Hx.
    apply rbind_ends; [by apply Hl|]. intros y _. apply (conv_ends Hends).
  - pose proof (call_value_ends f lvars Hpf) as Hf. apply rbind_ends; [intros Ev; by rewrite Ev in Hf|].
    intros [x []] Ev; [by eapply Hc|done].
Qed.

(** How much fuel is enough, for [n] variables that are not empty and a value of
    depth [d]. *)
Definition need (n d : nat) : nat := n * (2 * D + 6) + 2 * d + 2 * D + 6.

Lemma substitute_string_ends ex s lvars :
  (∀ t, PExp t ∈ pieces s ∨ t ∈ separate_args s → ex (VStr t) lvars ≠ Raise None) →
  substitute_string py_str m conv ex s lvars ≠ Raise None.
Proof.
  intros Hex. assert (∀ t, PExp t ∈ pieces s ∨ t ∈ separate_args s →
    rbind (ex (VStr t) lvars) conv ≠ Raise None) as Hone.
  { intros t Ht. apply rbind_ends; [by apply Hex|]. intros v _. apply (conv_ends Hends). }
  unfold substitute_string.
  assert (∀ (k : list value → res fexn value), (∀ l, k l ≠ Raise None) →
    rbind (rmap (λ t, let? v := ex (VStr t) lvars in conv v)%res (separate_args s)) k ≠ Raise None)
    as Hfb.
  { intros k Hk. apply rbind_ends; [|by intros]. apply rmap_ends. intros t Ht. apply Hone. by right. }
  destruct (rmap _ (pieces s)) as [l|[e|]] eqn:Er.
  - destruct (join_replacements l); [done|]. apply Hfb. by intros [|? []].
  - destruct (is_TypeError e); [|congruence]. apply Hfb. by intros [|? []].
  - exfalso. revert Er. apply rmap_ends. intros [c|t] Ht; [done|].
    apply rbind_ends; [apply Hone; by left|done].
Qed.

Lemma expand_string_plain f v s lvars : "$"%char ∉ s →
  expand_string AllowableExceptions eval f gvars v s lvars = Ok v.
Proof.
  intros Hs. destruct s as [|c [|d s]]; [done..|]. apply not_elem_of_cons in Hs as [Hc _].
  unfold expand_string. by rewrite decide_True.
Qed.

Lemma substitute_plain_text fuel s lvars : "$"%char ∉ s →
  sub (S fuel) (VStr s) lvars = Ok (VStr s).
Proof.
  intros Hs. cbn [substitute]. unfold substitute_string. rewrite pieces_plain by done.
  match goal with |- context [rmap ?f (map PChar s)] =>
    assert (rmap f (map PChar s) = Ok (map inl s)) as -> end.
  { clear Hs. induction s as [|c s IH]; [done|]. cbn [map rmap rbind]. by rewrite IH. }
  assert (join_replacements (map inl s) = Some s) as ->; [|done].
  { clear Hs. induction s as [|c s IH]; [done|]. simpl. by rewrite IH. }
Qed.

(** Values that hold nothing to expand. *)
Lemma substitute_plain fuel v lvars : plain v = true → 2 * vdepth v + 2 ≤ fuel →
  sub fuel v lvars ≠ Raise None.
Proof.
  revert v. induction fuel as [|fuel IH]; intros v Hv Hf; [lia|].
  destruct v as [s|s b|l|l|f| | |o]; try done.
  - simpl in Hv. rewrite substitute_plain_text; [done|]. by case_bool_decide.
  - cbn [substitute expand]. rewrite expand_string_plain; [done|]. simpl in Hv. by case_bool_decide.
  - cbn [substitute expand]. apply rbind_ends; [|done]. apply rmap_ends. intros x Hx.
    pose proof (vdepth_in x l Hx). apply rbind_ends; [|intros y _; apply (conv_ends Hends)].
    apply IH; [|lia]. simpl in Hv. rewrite forallb_forall in Hv. apply Hv. by apply list_elem_of_In.
  - cbn [substitute expand]. simpl in Hf. destruct fuel as [|fuel]; [lia|].
    rewrite substitute_plain_text; [done|]. apply not_elem_of_nil.
Qed.

(** The value of a token, when it is expanded with one variable less. *)
Lemma token_ends (P : value → vars → Prop) err fuel lvars (s : text) (x : value) :
  shallow lvars → head s = Some "$"%char → token_fine s → need (size (live lvars)) 0 ≤ S fuel →
  (∀ v (l : vars), plain v = true → 2 * vdepth v + 3 ≤ fuel → P v l) →
  (∀ v (l : vars), shallow l → all_fine v → need (size (live l)) (vdepth v) ≤ fuel → P v l) →
  token_value AllowableExceptions eval err gvars lvars s = Ok (Some x) →
  P x (without_key s lvars).
Proof.
  intros Hsh Hh Htf Hf Hplain Hrec Ev. unfold need in *.
  pose proof (token_value_cases err lvars s Hsh Hh Htf) as Hc. rewrite Ev in Hc.
  destruct Hc as [[Hp Hd]|[->|[[Hd Hfi] Hl]]].
  - apply Hplain; [done|]. nia.
  - apply Hplain; [done|]. simpl. nia.
  - apply Hrec; [by apply shallow_without|done|]. unfold need. nia.
Qed.

Lemma substitute_ends fuel v lvars : shallow lvars → all_fine v →
  need (size (live lvars)) (vdepth v) ≤ fuel → sub fuel v lvars ≠ Raise None.
Proof.
  revert v lvars. induction fuel as [|fuel IH]; intros v lvars Hsh Hfi Hf; [unfold need in Hf; lia|].
  assert (∀ w, vdepth w ≤ vdepth v → match w with VList _ => w = v | _ => True end → piece_fine w →
    expand AllowableExceptions eval call m conv (sub fuel) gvars w lvars ≠ Raise None) as Hex.
  { intros w Hw Hwv Hpf. apply expand_ends; [| | | |done..].
    - intros x Hx. destruct w as [| |l| | | | |]; try by apply elem_of_nil in Hx. subst v.
      pose proof (vdepth_in x l Hx). apply IH; [done|by eapply all_fine_in|]. unfold need in *. lia.
    - intros f x -> Ev. pose proof (call_value_ends f lvars Hpf) as Hcv. rewrite Ev in Hcv.
      apply IH; [done|apply Hcv|]. simpl in Hw. unfold need in *. lia.
    - intros ->. apply IH; [done|apply all_fine_nil|]. simpl in *. unfold need in *. lia.
    - intros s x Hs Ev Hh. assert (token_fine s) as Htf by by destruct Hs as [->|[b ->]].
      apply (token_ends (λ v l, sub fuel v l ≠ Raise None) of_text fuel lvars s x);
        [done..|unfold need in *; lia| |by intros; apply IH|done].
      intros y l Hy ?. apply substitute_plain; [done|lia]. }
  destruct v as [s| | | | | | |]; cbn [substitute]; try (by apply Hex).
  apply substitute_string_ends. intros t Ht. apply Hex; [simpl; lia|done|by apply Hfi].
Qed.

(** The same for words: a call that does not run out of fuel. *)
Definition quiet (c : lsm) : Prop := ∀ s, (c s).2 ≠ Raise None.

Lemma quiet_mod f : quiet (emod f).
Proof. done. Qed.
Lemma quiet_ret : quiet (eret tt).
Proof. done. Qed.
Lemma quiet_bind {A} (c : eff list_subber fexn A) (k : A → lsm) :
  (∀ s, (c s).2 ≠ Raise None) → (∀ s a, (c s).2 = Ok a → quiet (k a)) → quiet (ebind c k).
Proof.
  intros Hc Hk s. unfold ebind. specialize (Hc s). specialize (Hk s).
  destruct (c s) as [s' [a|e]]; [by apply (Hk a)|]. simpl in *. congruence.
Qed.
Lemma quiet_for {A} (l : list A) (f : A → lsm) : (∀ x, x ∈ l → quiet (f x)) → quiet (efor l f).
Proof.
  induction l as [|x l IH]; intros Hf; cbn [efor]; [apply quiet_ret|].
  apply quiet_bind; [apply Hf; left|]. intros _ _ _. apply IH. intros. apply Hf. by right.
Qed.
Lemma quiet_new_word x : quiet (add_new_word obj_is_literal m conv x).
Proof.
  intros s. unfold add_new_word. destruct (skipping m s); [done|].
  pose proof (conv_ends Hends x). destruct (conv x); simpl; congruence.
Qed.
Lemma quiet_append x : quiet (append py_str obj_is_literal m conv x).
Proof.
  intros s. unfold append, add_to_current_word. destruct (new_word s); [apply quiet_new_word|].
  destruct (skipping m s); [done|].
  destruct (last (lines s) ≫= last) as [w|]; [|apply quiet_new_word].
  destruct (match last _ with Some c => _ | None => _ end); [apply quiet_new_word|].
  destruct (rbind _ conv) as [y|r] eqn:E; [done|]. simpl. intros [= ->]. revert E.
  apply rbind_ends; [|intros; apply (conv_ends Hends)].
  unfold concat_values. by destruct w, x.
Qed.
Lemma quiet_strip b x : quiet (set_strip py_str obj_is_literal m conv b x).
Proof.
  unfold set_strip. apply quiet_bind; [|done].
  generalize (quiet_append (VStr x)). generalize (append py_str obj_is_literal m conv (VStr x)).
  intros c Hc. by destruct m.
Qed.

Lemma list_token_quiet ex lvars wl a : quiet (ex (VStr a) lvars wl) →
  quiet (list_token py_str obj_is_literal m conv ex lvars wl a).
Proof.
  intros Hex. destruct a as [|c a]; [done|]. unfold list_token.
  repeat case_match; try done. apply quiet_append.
Qed.

(** What is left when the token of a string has a value. *)
Lemma list_expand_string_quiet (substitute : value → vars → bool → lsm) v s lvars :
  shallow lvars → token_fine s →
  (∀ x, head s = Some "$"%char →
     token_value AllowableExceptions eval (λ _, ""%string) gvars lvars s = Ok (Some x) →
     quiet (substitute x (without_key s lvars) false)) →
  quiet (list_expand_string AllowableExceptions eval py_str obj_is_literal m conv substitute
           gvars v s lvars).
Proof.
  intros Hsh Htf Hx. unfold list_expand_string.
  destruct s as [|s0 [|s1 s]]; [apply quiet_append..|]. case_decide; [apply quiet_append|].
  subst s0. repeat (case_decide; [apply quiet_append || apply quiet_strip|]).
  pose proof (token_value_cases (λ _, ""%string) lvars ("$"%char :: s1 :: s) Hsh eq_refl Htf) as Hcase.
  apply quiet_bind; [intros st; simpl; intros Ev; by rewrite Ev in Hcase|].
  intros st [x|] Ev; [|apply quiet_ret]. apply quiet_bind; [by apply Hx|done].
Qed.

Lemma list_expand_quiet (substitute : value → vars → bool → lsm) lvars wl v :
  (∀ x, x ∈ match v with VList l => l | _ => [] end → quiet (substitute x lvars true)) →
  (∀ f x, v = VCall f → call_value call m conv f lvars = Ok (x, true) →
     quiet (substitute x lvars wl)) →
  (v = VNull → quiet (substitute (VStr []) lvars wl)) →
  (∀ s x, v = VStr s ∨ (∃ b, v = VCmd s b) → head s = Some "$"%char →
     token_value AllowableExceptions eval (λ _, ""%string) gvars lvars s = Ok (Some x) →
     quiet (substitute x (without_key s lvars) false)) →
  shallow lvars → piece_fine v →
  quiet (list_expand AllowableExceptions eval call py_str obj_is_literal m conv substitute
           gvars v lvars wl).
Proof.
  intros Hl Hc He Ht Hsh Hpf. destruct v as [s|s b|l|l|f| | |o]; cbn [list_expand];
    try apply quiet_append; try apply quiet_mod; try by apply He.
  - apply list_expand_string_quiet; [done..|]. intros x. apply Ht. by left.
  - apply list_expand_string_quiet; [done..|]. intros x. apply Ht. right. by eexists.
  - apply quiet_for. intros x Hx. apply quiet_bind; [by apply Hl|done].
  - pose proof (call_value_ends f lvars Hpf) as Hf.
    apply quiet_bind; [intros s; simpl; intros Ev; by rewrite Ev in Hf|].
    intros s [x []] Ev; [by eapply Hc|apply quiet_append].
Qed.

Lemma list_substitute_plain fuel v lvars wl : plain v = true → shallow lvars →
  2 * vdepth v + 2 ≤ fuel → quiet (lsub fuel v lvars wl).
Proof.
  revert v wl. induction fuel as [|fuel IH]; intros v wl Hv Hsh Hf; [lia|].
  assert (∀ w wl, match w with VStr s | VCmd s _ => "$"%char ∉ s | _ => w = v end →
    quiet (list_expand AllowableExceptions eval call py_str obj_is_literal m conv (lsub fuel)
             gvars w lvars wl)) as Hex.
  { clear wl. intros w wl Hw. apply list_expand_quiet; [| | | |done|].
    - intros x Hx. destruct w as [| |l| | | | |]; try by apply elem_of_nil in Hx. subst v.
      pose proof (vdepth_in x l Hx). apply IH; [|done|lia].
      simpl in Hv. rewrite forallb_forall in Hv. apply Hv. by apply list_elem_of_In.
    - by intros f x -> _; subst v.
    - intros ->. subst v. apply IH; [done..|]. simpl in *. lia.
    - intros s x Hws Hs _. destruct s; [done|]. injection Hs as ->. exfalso.
      destruct Hws as [->|[b ->]]; apply Hw; left.
    - assert (∀ s, "$"%char ∉ s → token_fine s) as Hnd.
      { intros [|c s] Hs; [done|]. intros [= ->]. by destruct Hs; left. }
      destruct w; cbn; auto. by subst v. }
  destruct v as [s|s b| | | | | |]; cbn [list_substitute]; try by apply Hex.
  - apply quiet_for. intros a Ha. apply list_token_quiet, Hex. intros Hd.
    simpl in Hv. case_bool_decide as Hs; [done|]. apply Hs. by eapply separate_loop_chars.
  - apply Hex. simpl in Hv. by case_bool_decide.
Qed.

Lemma list_substitute_ends fuel v lvars wl : shallow lvars → all_fine v →
  need (size (live lvars)) (vdepth v) ≤ fuel → quiet (lsub fuel v lvars wl).
Proof.
  revert v lvars wl. induction fuel as [|fuel IH]; intros v lvars wl Hsh Hfi Hf;
    [unfold need in Hf; lia|].
  assert (∀ w wl, vdepth w ≤ vdepth v → match w with VList _ => w = v | _ => True end → piece_fine w →
    quiet (list_expand AllowableExceptions eval call py_str obj_is_literal m conv (lsub fuel)
             gvars w lvars wl)) as Hex.
  { clear wl. intros w wl Hw Hwv Hpf. apply list_expand_quiet; [| | | |done..].
    - intros x Hx. destruct w as [| |l| | | | |]; try by apply elem_of_nil in Hx. subst v.
      pose proof (vdepth_in x l Hx). apply IH; [done|by eapply all_fine_in|]. unfold need in *. lia.
    - intros f x -> Ev. pose proof (call_value_ends f lvars Hpf) as Hcv. rewrite Ev in Hcv.
      apply IH; [done|apply Hcv|]. simpl in Hw. unfold need in *. lia.
    - intros ->. apply IH; [done|apply all_fine_nil|]. simpl in *. unfold need in *. lia.
    - intros s x Hs Hh Ev. assert (token_fine s) as Htf by by destruct Hs as [->|[b ->]].
      apply (token_ends (λ v l, shallow l → quiet (lsub fuel v l false)) (λ _, ""%string)
               fuel lvars s x);
        [done..|unfold need in *; lia| |by intros; apply IH|done|by apply shallow_without].
      intros y l Hy ? ?. apply list_substitute_plain; [done..|lia]. }
  destruct v as [s| | | | | | |]; cbn [list_substitute]; try by apply Hex.
  apply quiet_for. intros a Ha. apply list_token_quiet, Hex; [simpl; lia|done|].
  apply Hfi. by right.
Qed.
End termination.

(** Any larger bound on the depth of the values does as well. *)
Lemma lookup_depth (crank : nat → nat) (vs : vars) (k : text) (v : value) :
  vs !! k = Some v → vdepth crank v ≤ foldr (λ kv n, vdepth crank kv.2 `max` n) 0 (map_to_list vs).
Proof.
  rewrite <- elem_of_map_to_list. induction (map_to_list vs) as [|x l IH];
    [by intros ?%elem_of_nil|]. intros [<-|Hk]%elem_of_cons; simpl; [lia|]. specialize (IH Hk). lia.
Qed.

(** Induction on a value through the lists in it. *)
Lemma value_list_ind (P : value → Prop) :
  (∀ l, Forall P l → P (VList l)) →
  (∀ v, match v with VList _ => False | _ => True end → P v) → ∀ v, P v.
Proof.
  intros Hl Hv. fix IH 1. intros v.
  destruct v as [s|s b|l|l|f| | |o]; [by apply Hv|by apply Hv| |by apply Hv..].
  apply Hl. induction l as [|v l IHl]; [constructor|]. constructor; [apply IH|apply IHl].
Qed.

Section conversion.
Variable py_str : value → text.
Variable for_signature : nat → option text.

Lemma join_strs_ends l : join_strs l ≠ Raise None.
Proof.
  induction l as [|[] l IH]; simpl; try done. by apply rbind_ends.
Qed.

Lemma to_String_ends v : to_String_for_subst py_str v ≠ Raise None.
Proof.
  induction v as [l Hl|v Hv] using value_list_ind; [|by destruct v].
  cbn [to_String_for_subst]. apply rbind_ends.
  - induction Hl as [|v l Hv Hl IH]; [done|]. apply rbind_ends; [done|]. intros s _.
    by apply rbind_ends.
  - intros r _. apply rbind_ends; [apply join_strs_ends|done].
Qed.

Lemma strconv_ends m v : strconv py_str for_signature m v ≠ Raise None.
Proof.
  unfold strconv, to_String_for_signature.
  apply rbind_ends; [|done]. destruct m; try apply to_String_ends.
  repeat case_match; try done; apply to_String_ends.
Qed.
End conversion.

Section promises.
Variable AllowableExceptions : list string.
Variable eval : text → vars → vars → res exn value.
Variable call : nat → value → value → bool → call_result.
Variable py_str : value → text.
Variable for_signature : nat → option text.
Variable obj_is_literal : nat → bool.

(** C35: variables may refer to each other and to themselves in any way: every
    expansion ends, of a string and into words, because a variable is empty while
    its value is expanded.  Two conditions on what occurs in the text, in the
    values of the variables and in what the callables return ([all_fine]): an
    expression (in braces or with a period) gives the value of the variable it
    names, or a value of depth [De] at most that holds no dollar; and the
    callables are in a set [C], where each returns values less deep in callables
    than itself.  Without the first an expansion need not end, as
    [expression_never_ends] shows. *)
Theorem subst_terminates (crank : nat → nat) (C : nat → Prop) (De : nat) (v : value) (m : mode)
    (target source : list value) (gvars lvars : vars)
    (Hcall : ∀ f t s b v, C f → call f t s b = Returned v →
       vdepth crank v ≤ crank f ∧ all_fine eval gvars crank C De v)
    (Htext : ∀ f v, C f → strconv py_str for_signature m (VCall f) = Ok v → all_fine eval gvars crank C De v)
    (Hg : ∀ k v, gvars !! k = Some v → all_fine eval gvars crank C De v)
    (Hl : ∀ k v, with_targets target source lvars !! k = Some v → all_fine eval gvars crank C De v)
    (Hv : all_fine eval gvars crank C De v) :
  ∃ N, ∀ fuel, N ≤ fuel →
    scons_subst AllowableExceptions eval call py_str for_signature fuel v m target source
      gvars lvars None ≠ Raise None ∧
    scons_subst_list AllowableExceptions eval call py_str for_signature obj_is_literal fuel v m
      target source gvars lvars None ≠ Raise None.
Proof.
  set (lv := with_targets target source lvars).
  set (depth (vs : vars) := foldr (λ kv n, vdepth crank kv.2 `max` n) 0 (map_to_list vs)).
  set (D' := (De `max` depth gvars) `max` depth lv).
  assert (ends eval call (conv_of py_str for_signature m None) gvars crank D' C De) as He.
  { split; [apply strconv_ends| |exact Hcall| |lia].
    - intros f w Hf Ew. split; [by destruct m; injection Ew as <-; simpl; lia|by eapply Htext].
    - intros k w Hk. split; [|by eapply Hg].
      pose proof (lookup_depth crank gvars k w Hk). fold (depth gvars) in *. lia. }
  assert (shallow eval gvars crank D' C De lv) as Hsh.
  { intros k w Hk. split; [|by eapply Hl].
    pose proof (lookup_depth crank lv k w Hk). fold (depth lv) in *. lia. }
  exists (need D' (size (live gvars lv)) (vdepth crank v)). intros fuel Hf. split.
  - assert (rbind (substitute AllowableExceptions eval call py_str fuel m
      (conv_of py_str for_signature m None) gvars v lv) (clean_result m) ≠ Raise None) as H.
    { apply rbind_ends; [by eapply substitute_ends|]. intros w _.
      destruct w; try done. simpl. by case_decide. }
    unfold scons_subst. destruct v; try exact H. by case_decide.
  - unfold scons_subst_list. fold lv.
    destruct (list_substitute _ _ _ _ _ _ _ _ _ _ _ _ _) as [s [[]|e]] eqn:E; [done|].
    intros [= ->]. apply (f_equal snd) in E. revert E. by eapply list_substitute_ends.
Qed.
End promises.

(** ** Escaped texts *)

(** Every dollar doubled. *)
Fixpoint escape (s : text) : text :=
  match s with
  | [] => []
  | c :: s => if decide (c = "$"%char) then c :: c :: escape s else c :: escape s
  end.

Lemma pieces_loop_fuel f g s : length s ≤ f → length s ≤ g → pieces_loop f s = pieces_loop g s.
Proof.
  revert g s. induction f as [|f IH]; intros [|g] [|c s]; cbn [pieces_loop length];
    try done; try lia.
  intros Hf Hg. destruct (dollar_exp (c :: s)) as [[a rest]|] eqn:E; [|f_equal; apply IH; lia].
  apply dollar_exp_split in E as [E Ha]. apply (f_equal length) in E.
  rewrite length_app in E. destruct a; [done|]. simpl in E. f_equal. apply IH; lia.
Qed.

Lemma pieces_dollar s : pieces ("$"%char :: "$"%char :: s) = PExp (T "$$") :: pieces s.
Proof.
  change (PExp (T "$$") :: pieces_loop (S (length s)) s = PExp (T "$$") :: pieces s).
  f_equal. apply pieces_loop_fuel; lia.
Qed.

Lemma pieces_char c s : c ≠ "$"%char → pieces (c :: s) = PChar c :: pieces s.
Proof. intros Hc. unfold pieces. cbn [pieces_loop length]. by rewrite dollar_exp_head. Qed.

Lemma escape_plain s : "$"%char ∉ s → escape s = s.
Proof.
  induction s as [|c s IH]; [done|]. intros [Hc Hs]%not_elem_of_cons. simpl.
  rewrite decide_False by done. by rewrite IH.
Qed.

Lemma escape_app a b : escape (a ++ b) = escape a ++ escape b.
Proof. induction a as [|c a IH]; [done|]. simpl. case_decide; simpl; by rewrite IH. Qed.

Lemma escape_dollar s : "$"%char ∉ escape s → "$"%char ∉ s.
Proof.
  induction s as [|c s IH]; [done|]. simpl. case_decide as Hc; rewrite !not_elem_of_cons.
  - intros [? _]. congruence.
  - intros [? ?]. split; [done|by apply IH].
Qed.

(** ** The words of command lines *)

Lemma separate_loop_fuel f g s :
  length s ≤ f → length s ≤ g → separate_loop f s = separate_loop g s.
Proof.
  revert g s. induction f as [|f IH]; intros [|g] [|c s]; cbn [separate_loop length];
    try done; try lia.
  intros Hf Hg.
  assert (∀ a rest, c :: s = a ++ rest → a ≠ [] → separate_loop f rest = separate_loop g rest) as Hgo.
  { intros a rest E Ha. apply (f_equal length) in E. rewrite length_app in E.
    destruct a; [done|]. simpl in E. apply IH; lia. }
  destruct (dollar_exp (c :: s)) as [[a rest]|] eqn:E.
  { apply dollar_exp_split in E as [? ?]. f_equal. by eapply Hgo. }
  destruct (is_space c) eqn:Hc.
  { pose proof (span_split is_space (c :: s)) as Hs. simpl in *. rewrite Hc in *.
    destruct (span is_space s) as [a b]. f_equal. by eapply Hgo. }
  destruct (is_dollar c) eqn:Hd; [f_equal; apply IH; lia|].
  pose proof (span_split (λ d, negb (is_space d) && negb (is_dollar d)) (c :: s)) as Hs.
  simpl in *. rewrite Hc, Hd in *. simpl in *. destruct (span _ s) as [a b].
  f_equal. by eapply Hgo.
Qed.

Lemma separate_dollar s :
  separate_args ("$"%char :: "$"%char :: s) = T "$$" :: separate_args s.
Proof.
  change (T "$$" :: separate_loop (S (length s)) s = T "$$" :: separate_args s).
  f_equal. apply separate_loop_fuel; lia.
Qed.

Definition is_text_char (c : ascii) : bool := negb (is_space c) && negb (is_dollar c).

(** A run of blanks, and a run of other characters. *)
Lemma separate_space a s :
  a ≠ [] → Forall (λ c, is_space c = true) a →
  match s with c :: _ => is_space c = false | [] => True end →
  separate_args (a ++ s) = a :: separate_args s.
Proof.
  intros Hne Ha Hs. pose proof (span_app is_space a s Ha Hs) as E.
  destruct a as [|c a]; [done|]. inversion Ha as [|? ? Hc ?]; subst.
  unfold separate_args. cbn [app length separate_loop] in *.
  rewrite dollar_exp_head by (by intros ->). rewrite Hc, E. f_equal.
  apply separate_loop_fuel; rewrite ?length_app; lia.
Qed.

Lemma separate_run a s :
  a ≠ [] → Forall (λ c, is_text_char c = true) a →
  match s with c :: _ => is_text_char c = false | [] => True end →
  separate_args (a ++ s) = a :: separate_args s.
Proof.
  intros Hne Ha Hs. pose proof (span_app is_text_char a s Ha Hs) as E.
  destruct a as [|c a]; [done|]. inversion Ha as [|? ? Hc ?]; subst.
  unfold separate_args. cbn [app length separate_loop] in *.
  unfold is_text_char in *. rewrite dollar_exp_head by (by intros ->).
  apply andb_prop in Hc as [Hc1%negb_true_iff Hc2%negb_true_iff]. rewrite Hc1, Hc2, E. f_equal.
  apply separate_loop_fuel; rewrite ?length_app; lia.
Qed.

Definition is_redirect (c : ascii) : bool := char_in c "<>|".

Section roundtrip.
Variable AllowableExceptions : list string.
Variable eval : text → vars → vars → res exn value.
Variable call : nat → value → value → bool → call_result.
Variable py_str : value → text.
Variable for_signature : nat → option text.
Variable obj_is_literal : nat → bool.

(** A text whose dollars are doubled expands to the text itself. *)
Theorem subst_escape fuel s target source gvars lvars :
  scons_subst AllowableExceptions eval call py_str for_signature (S fuel) (VStr (escape s)) SUBST_RAW
    target source gvars lvars None = Ok (VStr s).
Proof.
  unfold scons_subst. case_decide as Hd.
  { apply escape_dollar in Hd. by rewrite escape_plain. }
  cbn [substitute]. unfold substitute_string. set (lv := with_targets target source lvars).
  match goal with |- context [rmap ?f _] => set (F := f) end.
  assert (rmap F (pieces (escape s)) =
    Ok (map (λ c, if decide (c = "$"%char) then inr (VStr [c]) else inl c) s)) as ->.
  { clear Hd. induction s as [|c s IH]; [done|]. cbn [escape map]. case_decide as Hc.
    - subst. rewrite pieces_dollar. cbn [rmap]. by rewrite IH.
    - rewrite pieces_char by done. cbn [rmap]. by rewrite IH. }
  assert (join_replacements
    (map (λ c, if decide (c = "$"%char) then inr (VStr [c]) else inl c) s) = Some s) as ->; [|done].
  clear. induction s as [|c s IH]; [done|]. cbn [map]. case_decide; simpl; by rewrite IH.
Qed.

(** *** Words *)
Variables (m : mode) (gvars : vars).
Abbreviation conv := (conv_of py_str for_signature m None).
Abbreviation token sub lvars := (list_token py_str obj_is_literal m conv
  (list_expand AllowableExceptions eval call py_str obj_is_literal m conv sub gvars) lvars false).

(** The state within a word and between words. *)
Definition within (L : list (list value)) (ws : list value) (u : text) : list_subber :=
  LS (L ++ [ws ++ [VCmd u false]]) false false.
Definition between (L : list (list value)) (ws : list value) : list_subber :=
  LS (L ++ [ws]) true false.

Lemma on_last_app f (L : list (list value)) w : on_last f (L ++ [w]) = L ++ [f w].
Proof. unfold on_last. rewrite rev_app_distr. simpl. by rewrite rev_involutive. Qed.

Lemma conv_str s : conv (VStr s) = Ok (VStr s).
Proof. by destruct m. Qed.
Lemma conv_cmd s b : conv (VCmd s b) = Ok (VStr s).
Proof. by destruct m. Qed.

Lemma append_new s L ws :
  append py_str obj_is_literal m conv (VStr s) (between L ws) = (within L ws s, Ok tt).
Proof.
  unfold append, between, within. cbn [new_word]. unfold add_new_word, skipping. cbn [in_strip andb].
  rewrite conv_str. cbn [lines]. by rewrite on_last_app.
Qed.

Lemma append_more s L ws u : Forall (λ c, is_redirect c = false) u →
  append py_str obj_is_literal m conv (VStr s) (within L ws u) = (within L ws (u ++ s), Ok tt).
Proof.
  intros Hu. unfold append, within. cbn [new_word]. unfold add_to_current_word, skipping.
  cbn [in_strip andb lines]. rewrite last_snoc. cbn [mbind option_bind]. rewrite last_snoc.
  cbn [str]. assert (match last u with Some c => char_in c "<>|" | None => false end = false) as ->.
  { destruct (last u) as [c|] eqn:E; [|done]. apply last_Some_elem_of in E.
    rewrite Forall_forall in Hu. by apply Hu. }
  cbn [concat_values str rbind]. rewrite conv_cmd. cbn [hold].
  rewrite on_last_app, removelast_last. done.
Qed.
(** A word: no blanks, and no redirections, which start a word of their own. *)
Definition is_word_text (w : text) : Prop :=
  Forall (λ c, is_space c = false ∧ is_redirect c = false) w.
Definition ends_word (rest : text) : Prop :=
  match rest with c :: _ => is_space c = true | [] => True end.

Lemma token_text sub lvars a : a ≠ [] → Forall (λ c, is_text_char c = true) a →
  token sub lvars a = append py_str obj_is_literal m conv (VStr a).
Proof.
  intros Ha Hc. destruct a as [|c a]; [done|]. inversion Hc as [|? ? Hc0 _]; subst.
  unfold is_text_char in Hc0. apply andb_prop in Hc0 as [H1%negb_true_iff H2%negb_true_iff].
  unfold list_token. rewrite H1. cbn [list_expand]. unfold list_expand_string.
  destruct a as [|d a]; [done|]. case_decide as H; [done|]. subst c. done.
Qed.

(** The first token of a word. *)
Lemma word_chunk w rest : w ≠ [] → is_word_text w → ends_word rest →
  ∃ t a b, w = a ++ b ∧ a ≠ [] ∧
    separate_args (escape w ++ rest) = t :: separate_args (escape b ++ rest) ∧
    ∀ sub lvars, token sub lvars t = append py_str obj_is_literal m conv (VStr a).
Proof.
  intros Hne Hw Hrest. destruct w as [|c w]; [done|]. destruct (decide (c = "$"%char)) as [->|Hc].
  { exists (T "$$"), (T "$"), w. split_and!; [done..| |done].
    cbn [escape app]. rewrite decide_True by done. apply separate_dollar. }
  pose proof (span_split is_text_char (c :: w)) as Hs.
  pose proof (span_cases is_text_char (c :: w)) as Hab.
  assert (is_text_char c = true) as Hct.
  { inversion Hw as [|? ? [Hsp _] _]; subst. unfold is_text_char, is_dollar. rewrite Hsp.
    by rewrite bool_decide_eq_false_2. }
  assert ((span is_text_char (c :: w)).1 ≠ []) as Ha.
  { cbn [span]. rewrite Hct. by destruct (span is_text_char w). }
  destruct (span is_text_char (c :: w)) as [a b]. simpl in Ha. destruct Hab as [Hta Hb].
  exists a, a, b. split_and!; [done..| |intros; by apply token_text].
  rewrite Hs, escape_app, <- app_assoc.
  rewrite (escape_plain a).
  2:{ intros Hin. rewrite Forall_forall in Hta. by specialize (Hta _ Hin). }
  apply separate_run; [done..|]. destruct b as [|d b]; simpl.
  { destruct rest as [|d rest]; [done|]. simpl in Hrest. unfold is_text_char. by rewrite Hrest. }
  by case_decide.
Qed.

Lemma word_more sub lvars w rest L ws u : is_word_text (u ++ w) → ends_word rest →
  efor (separate_args (escape w ++ rest)) (token sub lvars) (within L ws u) =
  efor (separate_args rest) (token sub lvars) (within L ws (u ++ w)).
Proof.
  remember (length w) as n eqn:Hn. assert (length w ≤ n) as Hle by lia. clear Hn.
  revert w u Hle. induction n as [|n IH]; intros w u Hle Hw Hrest.
  { destruct w; [|simpl in Hle; lia]. by rewrite app_nil_r. }
  destruct (decide (w = [])) as [->|Hne]; [by rewrite app_nil_r|].
  apply Forall_app in Hw as [Hu Hw].
  destruct (word_chunk w rest Hne Hw Hrest) as (t & a & b & -> & Ha & -> & Ht).
  cbn [efor]. unfold ebind. rewrite Ht, append_more by (eapply Forall_impl; [exact Hu|naive_solver]).
  rewrite app_assoc. apply IH; [|by rewrite <- app_assoc; apply Forall_app|done].
  rewrite length_app in Hle. destruct a; [done|]. simpl in Hle. lia.
Qed.

Lemma word_new sub lvars w rest L ws : w ≠ [] → is_word_text w → ends_word rest →
  efor (separate_args (escape w ++ rest)) (token sub lvars) (between L ws) =
  efor (separate_args rest) (token sub lvars) (within L ws w).
Proof.
  intros Hne Hw Hrest. destruct (word_chunk w rest Hne Hw Hrest) as (t & a & b & -> & Ha & -> & Ht).
  cbn [efor]. unfold ebind. rewrite Ht, append_new. by apply word_more.
Qed.

(** A line, and the lines of a command. *)
Definition is_line (l : list text) : Prop := l ≠ [] ∧ Forall (λ w, w ≠ [] ∧ is_word_text w) l.
Definition line_text (l : list text) : text := join (T " ") (map escape l).
Definition command_text (ls : list (list text)) : text := join ["010"%char] (map line_text ls).
Definition plain_words (l : list text) : list value := map (λ w, VCmd w false) l.

Lemma line_words sub lvars l rest L ws : is_line l →
  match rest with c :: _ => c = "010"%char | [] => True end →
  ∃ ws' u, efor (separate_args (line_text l ++ rest)) (token sub lvars) (between L ws) =
           efor (separate_args rest) (token sub lvars) (within L ws' u) ∧
           ws' ++ [VCmd u false] = ws ++ plain_words l.
Proof.
  intros [Hl Hws] Hrest. revert ws. induction Hws as [|w l [Hne Hw] Hws IH]; [done|]. intros ws.
  assert (ends_word rest) as Her by (destruct rest; [done|by subst]).
  destruct l as [|w' l].
  { exists ws, w. split; [|done]. by apply word_new. }
  unfold line_text in *. cbn [map join app] in *. rewrite <- !app_assoc. cbn [app].
  rewrite word_new by done.
  rewrite (separate_space (T " ")); [|done|by repeat constructor|].
  2:{ inversion Hws as [|? ? [Hne' Hw'] _]; subst. destruct w' as [|c w']; [done|].
      inversion Hw' as [|? ? [Hc _] _]; subst. cbn [escape]. case_decide; simpl; by destruct (map escape l). }
  cbn [efor]. unfold ebind.
  destruct (IH ltac:(done) (ws ++ [VCmd w false])) as (ws' & u & E & Hu).
  exists ws', u. split; [exact E|]. rewrite Hu. cbn [plain_words map]. by rewrite <- app_assoc.
Qed.

Lemma command_words sub lvars ls L : ls ≠ [] → Forall is_line ls →
  ∃ s, efor (separate_args (command_text ls)) (token sub lvars) (between L []) = (s, Ok tt) ∧
       lines s = L ++ map plain_words ls.
Proof.
  intros Hne Hls. revert L. induction Hls as [|l ls Hl Hls IH]; [done|]. intros L.
  destruct ls as [|l' ls].
  { destruct (line_words sub lvars l [] L [] Hl I) as (ws & u & E & Hu).
    rewrite app_nil_r in E. exists (within L ws u). split; [exact E|].
    cbn [lines within]. by rewrite Hu. }
  unfold command_text in *. cbn [map join app] in *.
  destruct (line_words sub lvars l ("010"%char :: join ["010"%char] (line_text l' :: map line_text ls))
              L [] Hl eq_refl) as (ws & u & E & Hu).
  cbn [app] in Hu. cbn [map join app] in E. rewrite E.
  pose proof (separate_space ["010"%char] (join ["010"%char] (line_text l' :: map line_text ls))) as Hnl.
  cbn [map join app] in Hnl. rewrite Hnl; [|done|by repeat constructor|].
  2:{ inversion Hls as [|? ? [Hn Hw] _]; subst. destruct l' as [|w l']; [done|].
      inversion Hw as [|? ? [Hw0 Hc] _]; subst. destruct w as [|c w]; [done|].
      inversion Hc as [|? ? [Hsp _] _]; subst. unfold line_text. cbn [map escape].
      destruct (decide (c = "$"%char)); by destruct (map escape l'), ls. }
  cbn [efor]. unfold ebind.
  destruct (IH ltac:(done) (L ++ [plain_words l])) as (s & E' & Hs).
  exists s. rewrite <- Hu in *. split; [exact E'|]. rewrite Hs. by rewrite <- app_assoc.
Qed.

(** The lines of words of a command, joined by blanks and newlines with
    their dollars doubled, are separated into the same lines of words. *)
Theorem subst_list_words fuel ls target source lvars
    (Hne : ls ≠ []) (Hls : Forall is_line ls) :
  scons_subst_list AllowableExceptions eval call py_str for_signature obj_is_literal (S fuel)
    (VStr (command_text ls)) m target source gvars lvars None = Ok (map plain_words ls).
Proof.
  unfold scons_subst_list. cbn [list_substitute].
  destruct (command_words (list_substitute AllowableExceptions eval call py_str obj_is_literal fuel m
    conv gvars) (with_targets target source lvars) ls [] Hne Hls) as (s & E & Hs).
  change ls_init with (between [] []). by rewrite E, Hs.
Qed.
End roundtrip.

(** ** An expression that is expanded for ever *)

(** [${X or 1}] for the variable [X] of that value: the key [X or 1] is what is
    emptied, not the variable. *)
Definition or_eval (key : text) (gvars lvars : vars) : res exn value :=
  if decide (key = T "X or 1") then
    match lookup_var gvars lvars (T "X") with
    | Some (VStr []) => Ok (VStr (T "1"))
    | Some v => Ok v
    | None => Raise (ExOther "NameError" "")
    end
  else ex_eval key gvars lvars.
Definition or_vars : vars := {[T "X" := VStr (T "${X or 1}")]}.

Theorem expression_never_ends fuel :
  scons_subst ["NameError"; "IndexError"] or_eval ex_call (λ _, []) (λ _, None) fuel
    (VStr (T "${X or 1}")) SUBST_RAW [] [] or_vars ∅ None = Raise None.
Proof.
  set (sub := λ fuel, substitute ["NameError"; "IndexError"] or_eval ex_call (λ _, []) fuel SUBST_RAW
         (conv_of (λ _, []) (λ _, None) SUBST_RAW None) or_vars).
  assert (∀ fuel (lvars : vars), lvars !! T "X" = None →
    sub fuel (VStr (T "${X or 1}")) lvars = Raise None) as Hsub.
  { clear fuel. induction fuel as [|fuel IH]; [done|]. intros lvars Hl.
    unfold sub. cbn [substitute]. unfold substitute_string.
    change (pieces (T "${X or 1}")) with [PExp (T "${X or 1}")]. cbn [rmap expand].
    assert (token_value ["NameError"; "IndexError"] or_eval of_text or_vars lvars (T "${X or 1}") =
      Ok (Some (VStr (T "${X or 1}")))) as E.
    { unfold token_value. change (or_eval _ _ lvars) with
        (match lookup_var or_vars lvars (T "X") with
         | Some (VStr []) => Ok (VStr (T "1")) | Some v => Ok v
         | None => Raise (ExOther "NameError" "") end : res exn value).
      unfold lookup_var. rewrite Hl. reflexivity. }
    assert (expand_string ["NameError"; "IndexError"] or_eval (sub fuel) or_vars
      (VStr (T "${X or 1}")) (T "${X or 1}") lvars = Raise None) as E'.
    { change (expand_string ["NameError"; "IndexError"] or_eval (sub fuel) or_vars
        (VStr (T "${X or 1}")) (T "${X or 1}") lvars) with
        (rbind (token_value ["NameError"; "IndexError"] or_eval of_text or_vars lvars (T "${X or 1}"))
          (λ r, match r with None => Ok (VStr []) | Some v =>
             sub fuel v (without_key (T "${X or 1}") lvars) end)).
      rewrite E. cbn [rbind]. apply IH. unfold without_key.
      by rewrite lookup_insert_ne. }
    unfold sub in E'. rewrite E'. reflexivity. }
  unfold scons_subst. rewrite decide_False by (intros H; apply H; left).
  assert (with_targets [] [] (∅ : vars) !! T "X" = None) as Hx by reflexivity.
  pose proof (Hsub fuel _ Hx) as H. unfold sub in H. by rewrite H.
Qed.

(** ** Witnesses *)

(** Every expression is a variable. *)
Lemma ex_all_fine v : all_fine ex_eval ex_vars (λ _, 0) (λ _, True) 0 v.
Proof.
  assert (∀ s, token_fine ex_eval ex_vars (λ _, 0) 0 s) as Ht.
  { intros s _ _ lvars w. unfold ex_eval, lookup_var. case_decide; [done|]. intros E. right.
    split; [done|]. by destruct (lvars !! token_key s), (ex_vars !! token_key s); simplify_eq. }
  induction v as [l Hl|v Hv] using value_list_ind; [|by destruct v; cbn; auto].
  cbn [all_fine]. by induction Hl.
Qed.

(** [LOOP] refers to itself. *)
Lemma subst_terminates_witness : ∃ N, ∀ fuel, N ≤ fuel →
  scons_subst ["NameError"; "IndexError"] ex_eval ex_call (λ _, []) (λ _, None) fuel
    (VStr (T "$LOOP ${LOOP}")) SUBST_CMD [] [] ex_vars ∅ None ≠ Raise None ∧
  scons_subst_list ["NameError"; "IndexError"] ex_eval ex_call (λ _, []) (λ _, None) (λ _, false) fuel
    (VStr (T "$LOOP ${LOOP}")) SUBST_CMD [] [] ex_vars ∅ None ≠ Raise None.
Proof.
  apply (subst_terminates ["NameError"; "IndexError"] ex_eval ex_call (λ _, []) (λ _, None)
    (λ _, false) (λ _, 0) (λ _, True) 0); intros; by (discriminate || apply ex_all_fine).
Defined.

(** [cp a$b $$], and [rm $(x$)]. *)
Lemma subst_list_words_witness :
  scons_subst_list [] ex_eval ex_call (λ _, []) (λ _, None) (λ _, false) 1
    (VStr (T "cp a$$b $$$$" ++ ["010"%char] ++ T "rm $$(x$$)")) SUBST_CMD [] [] ex_vars ∅ None =
  Ok (map plain_words [[T "cp"; T "a$b"; T "$$"]; [T "rm"; T "$(x$)"]]).
Proof.
  apply (subst_list_words [] ex_eval ex_call (λ _, []) (λ _, None) (λ _, false) SUBST_CMD ex_vars 0
    [[T "cp"; T "a$b"; T "$$"]; [T "rm"; T "$(x$)"]]); [done|].
  repeat (split || constructor); done.
Defined.
