(* ===== verification/FSTree.v ===== *)
(** * The tree of file system nodes ([SCons/Node/FS.py])

    The objects [FS], [Entry], [File], [Dir] and [RootDir]: names are looked up
    in a table of absolute paths, nodes are made and change their class, and
    directories are linked to variant and repository directories.  POSIX
    ([os.sep] is [/], one root, case matters).  The file system itself, asked
    through [stat], is a parameter.  The messages of exceptions are
    left out. *)

From S2P Require Import Prelude Errors PyStr.
Open Scope nat_scope.

(** ** Nodes *)

Inductive fclass := CEntry | CFile | CDir | CRoot.
#[export] Instance fclass_eq : EqDecision fclass.
Proof. solve_decision. Defined.

(** Set once by [Base.__init__]. *)
Record ident := Ident {
  fname : text;
  abspath : text;
  labspath : text;
  path_elements : list nat;
  ndir : nat
}.

(** The attributes that [Dir._morph] makes. *)
Record dirdata := DirData {
  entries : gmap text nat;
  srcdir : option nat;
  repositories : list nat;
  variant_dirs : list nat
}.
Definition no_dir : dirdata := DirData ∅ None [] [].

(** [_memo], as far as methods of this file use it. *)
Record fmemo := FMemo {
  memo_rdirs : option (list nat);
  memo_srcdirs : option (list nat)
}.
Definition no_memo : fmemo := FMemo None None.

Record fnode := FNode {
  kind : fclass;
  fid : ident;
  path : text;
  tpath : text;
  duplicate : bool;
  ddata : dirdata;
  fmemos : fmemo;
  fimplicit : option (list nat)
}.

(** An [FS] object: the nodes by identity, [_lookupDict] of the root, [Top] and
    [_cwd].  The root is node [0]. *)
Record fstate := FS {
  fnodes : gmap nat fnode;
  lookupDict : gmap text nat;
  Top : nat;
  cwd : nat
}.
Definition root : nat := 0.

(** Out of fuel is [Raise None]. *)
Abbreviation fexn := (option exn).
Abbreviation fsm := (eff fstate fexn).
Definition TypeError {A} : fsm A := eraise (Some (ExOther "TypeError" "")).
Definition UserError {A} (msg : string) : fsm A := eraise (Some (ExUserError msg)).

#[export] Instance fnode_inhabited : Inhabited fnode :=
  populate (FNode CEntry (Ident [] [] [] [] 0) [] [] false no_dir no_memo None).

Definition upd (n : nat) (f : fnode → fnode) (s : fstate) : fstate :=
  FS (alter f n (fnodes s)) (lookupDict s) (Top s) (cwd s).

Definition with_kind (k : fclass) (x : fnode) : fnode :=
  FNode k (fid x) (path x) (tpath x) (duplicate x) (ddata x) (fmemos x) (fimplicit x).
Definition with_fpath (p : text) (x : fnode) : fnode :=
  FNode (kind x) (fid x) p (tpath x) (duplicate x) (ddata x) (fmemos x) (fimplicit x).
Definition with_tpath (p : text) (x : fnode) : fnode :=
  FNode (kind x) (fid x) (path x) p (duplicate x) (ddata x) (fmemos x) (fimplicit x).
Definition with_duplicate (b : bool) (x : fnode) : fnode :=
  FNode (kind x) (fid x) (path x) (tpath x) b (ddata x) (fmemos x) (fimplicit x).
Definition with_ddata (d : dirdata) (x : fnode) : fnode :=
  FNode (kind x) (fid x) (path x) (tpath x) (duplicate x) d (fmemos x) (fimplicit x).
Definition with_fmemos (m : fmemo) (x : fnode) : fnode :=
  FNode (kind x) (fid x) (path x) (tpath x) (duplicate x) (ddata x) m (fimplicit x).
Definition with_fimplicit (i : option (list nat)) (x : fnode) : fnode :=
  FNode (kind x) (fid x) (path x) (tpath x) (duplicate x) (ddata x) (fmemos x) i.

Definition is_dir (k : fclass) : bool :=
  match k with CDir | CRoot => true | _ => false end.

(** [isinstance(self, klass)] for a class of these four. *)
Definition isinstance (k klass : fclass) : bool :=
  bool_decide (k = klass) || (bool_decide (k = CRoot) && bool_decide (klass = CDir)).

(** [entry_abspath] and its relatives, of [Dir] and of [RootDir]. *)
Definition entry_abspath (d : fnode) (name : text) : text :=
  if decide (kind d = CRoot) then abspath (fid d) ++ name
  else abspath (fid d) ++ T "/" ++ name.
Definition entry_labspath (d : fnode) (name : text) : text :=
  if decide (kind d = CRoot) then T "/" ++ name else labspath (fid d) ++ T "/" ++ name.
Definition entry_path (d : fnode) (name : text) : text :=
  if decide (kind d = CRoot) then path d ++ name else path d ++ T "/" ++ name.
Definition entry_tpath (d : fnode) (name : text) : text :=
  if decide (kind d = CRoot) then tpath d ++ name else tpath d ++ T "/" ++ name.

(** [Base.__init__] for a node that will have identity [n]. *)
Definition Base_init (n : nat) (k : fclass) (name : text) (d : nat) (dn : fnode) : fnode :=
  FNode k (Ident name (entry_abspath dn name) (entry_labspath dn name)
             (path_elements (fid dn) ++ [n]) d)
    (if decide (path dn = T ".") then name else entry_path dn name)
    (if decide (tpath dn = T ".") then name else entry_tpath dn name)
    (duplicate dn) no_dir no_memo None.

(** [Dir._morph] and [File._morph]; builders and executors are in [NodeData]. *)
Definition morph_dir (n : nat) (x : fnode) : fnode :=
  with_ddata (DirData (<[T "." := n]> (<[T ".." := ndir (fid x)]> ∅)) None [] []) x.
Definition fmorph (n : nat) (x : fnode) : fnode :=
  match kind x with CDir | CRoot => morph_dir n x | _ => x end.

(** [clear]: of the attributes kept here it resets the memos. *)
Definition fclear (x : fnode) : fnode := with_fmemos no_memo x.

(** ** [os.path] *)

Definition rstrip_slash (s : text) : text :=
  rev (span (λ c, bool_decide (c = "/"%char)) (rev s)).2.
Definition os_path_split (p : text) : text * text :=
  let i := Z.to_nat (rfind p "/"%char + 1) in
  let head := take i p in
  (if decide (head = replicate (length head) "/"%char) then head else rstrip_slash head,
   drop i p).
Definition isabs (p : text) : bool := startswith (T "/") p.

(** [needs_normpath_check]: a slash in the first line, or one or two dots; the
    end may be a newline. *)
Definition needs_normpath (p : text) : bool :=
  bool_decide ("/"%char ∈ (span (λ c, bool_decide (c ≠ "010"%char)) p).1) ||
  bool_decide (p ∈ [T "."; T ".."; T "." ++ ["010"%char]; T ".." ++ ["010"%char]]).

(** ** Look-up *)

Inductive ftype := TDir | TReg | TOther.
#[export] Instance ftype_eq : EqDecision ftype.
Proof. solve_decision. Defined.

Section lookup.
(** What the disk has at a path; whether nodes are checked against the disk
    ([diskcheck_match]). *)
Variable stat : text → option ftype.
Variable do_match : bool.

Definition isdir (x : fnode) : bool := bool_decide (stat (abspath (fid x)) = Some TDir).
Definition isfile (x : fnode) : bool := bool_decide (stat (abspath (fid x)) = Some TReg).

(** [must_be_same] of the four classes. *)
Definition must_be_same (n : nat) (klass : fclass) : fsm unit := λ s,
  let k := kind (fnodes s !!! n) in
  match k with
  | CEntry =>
      if decide (klass = CEntry) then (s, Ok tt)
      else (upd n (λ x, fclear (fmorph n (with_kind klass x))) s, Ok tt)
  | _ => if isinstance k klass || bool_decide (klass = CEntry) then (s, Ok tt)
         else TypeError s
  end.

(** [diskcheck_match] of a new node. *)
Definition diskcheck_fails (x : fnode) : bool :=
  do_match && match kind x with
              | CFile => isdir x
              | CDir | CRoot => isfile x
              | CEntry => false
              end.

(** [klass(name, dir_node, fs)] *)
Definition new_node (n : nat) (klass : fclass) (name : text) (d : nat) (dn : fnode) : fnode :=
  fmorph n (Base_init n klass name d dn).

Definition add_entry (name : text) (n : nat) (x : fnode) : fnode :=
  with_ddata (DirData (<[name := n]> (entries (ddata x))) (srcdir (ddata x))
                (repositories (ddata x)) (variant_dirs (ddata x))) x.

(** The identity of the next object. *)
Definition fresh_id (s : fstate) : nat := size (fnodes s).

Fixpoint _lookup_abs (fuel : nat) (p : text) (klass : fclass) (create : bool) : fsm nat :=
  match fuel with
  | O => eraise None
  | S fuel => λ s,
      match lookupDict s !! p with
      | Some n => (must_be_same n klass ;;; eret n)%eff s
      | None =>
          if create then
            let '(dir_name, file_name) := os_path_split p in
            (let! d := _lookup_abs fuel dir_name CDir true in
             λ s,
               let n := fresh_id s in
               let x := new_node n klass file_name d (fnodes s !!! d) in
               if diskcheck_fails x then TypeError s
               else (upd d (λ y, with_fimplicit None (add_entry file_name n y))
                       (FS (<[n := x]> (fnodes s)) (<[p := n]> (lookupDict s)) (Top s) (cwd s)),
                     Ok n))%eff s
          else UserError "No such file or directory" s
      end
  end.

(** Enough fuel for every path ([lookup_abs_fuel]). *)
Definition lookup_abs (p : text) (klass : fclass) (create : bool) : fsm nat :=
  _lookup_abs (S (length p)) p klass create.

(** The argument of a look-up: a node, or a string. *)
Inductive fs_arg := ANode (n : nat) | AStr (p : text).

(** The string [p] after the [#], and with the directory in front. *)
Definition lookup_name (p : text) : text :=
  if decide (head p = Some "#"%char) then drop 1 p else p.
Definition lookup_text (s : fstate) (p : text) (directory : option nat) : text :=
  let initial_hash := bool_decide (head p = Some "#"%char) in
  let directory := if initial_hash then Top s else default (cwd s) directory in
  let p := lookup_name p in
  if initial_hash || negb (isabs p) then
    match p with
    | [] => labspath (fid (fnodes s !!! directory))
    | _ => labspath (fid (fnodes s !!! directory)) ++ T "/" ++ p
    end
  else p.
Definition lookup_path (s : fstate) (p : text) (directory : option nat) : text :=
  let q := lookup_text s p directory in
  if needs_normpath (lookup_name p) then normpath q else q.

Definition lookup_in (p : fs_arg) (directory : option nat) (klass : fclass) (create : bool)
    : fsm nat :=
  match p with
  | ANode n => must_be_same n klass ;;; eret n
  | AStr p => λ s, lookup_abs (lookup_path s p directory) klass create s
  end%eff.

(** [_lookup]: a directory that is no [Dir] is looked up first; an empty string
    is no directory. *)
Definition _lookup (p : fs_arg) (directory : option fs_arg) (klass : fclass) (create : bool)
    : fsm nat := λ s,
  match p, directory with
  | ANode _, _ | _, None | _, Some (AStr []) => lookup_in p None klass create s
  | AStr q, Some d =>
      let d := if bool_decide (head q = Some "#"%char) then ANode (Top s) else d in
      match d with
      | ANode n =>
          if is_dir (kind (fnodes s !!! n)) then lookup_in p (Some n) klass create s
          else (let! n := lookup_in d None CDir true in lookup_in p (Some n) klass create)%eff s
      | AStr _ =>
          (let! n := lookup_in d None CDir true in lookup_in p (Some n) klass create)%eff s
      end
  end.

Definition FS_Entry (name : fs_arg) (directory : option fs_arg) (create : bool) : fsm nat :=
  _lookup name directory CEntry create.
Definition FS_File (name : fs_arg) (directory : option fs_arg) (create : bool) : fsm nat :=
  _lookup name directory CFile create.
Definition FS_Dir (name : fs_arg) (directory : option fs_arg) (create : bool) : fsm nat :=
  _lookup name directory CDir create.

(** [RootDir.__init__] and [FS.__init__] *)
Definition RootDir_init : fnode :=
  morph_dir root (FNode CRoot (Ident [] (T "/") [] [root] root) (T "/") (T "/") false
                    no_dir no_memo None).
Definition root_state : fstate :=
  FS {[root := RootDir_init]} {[ [] := root; T "/" := root; T "//" := root ]} root root.

Definition FS_init (pathTop : text) : fstate * res fexn nat :=
  (let! top := FS_Dir (AStr pathTop) None true in
   emod (upd top (λ x, with_tpath (T ".") (with_fpath (T ".") x))) ;;;
   emod (λ s, FS (fnodes s) (lookupDict s) top top) ;;;
   eret top)%eff root_state.

(** [chdir], without changing the directory of the process. *)
Definition fchdir (dir : option nat) : fsm unit :=
  match dir with
  | Some d => emod (λ s, FS (fnodes s) (lookupDict s) (Top s) d)
  | None => eret tt
  end.
Definition getcwd : fsm nat := eget cwd.
End lookup.

(** ** Paths between nodes *)

Definition names_of (s : fstate) (l : list nat) : list text :=
  map (λ n, fname (fid (fnodes s !!! n))) l.

(** [l.index(x)], and [l[l.index(x)+1:]] *)
Fixpoint index_of (x : nat) (l : list nat) : option nat :=
  match l with
  | [] => None
  | y :: l => if decide (y = x) then Some 0 else S <$> index_of x l
  end.

(** [get_path]; [dir] is [None] for the current directory. *)
Definition get_path (s : fstate) (n : nat) (dir : option nat) : text :=
  let dir := default (cwd s) dir in
  if decide (n = dir) then T "."
  else
    let path_elems := path_elements (fid (fnodes s !!! n)) in
    let path_elems := match index_of dir path_elems with
                      | Some i => drop (i + 1) path_elems
                      | None => path_elems
                      end in
    join (T "/") (names_of s path_elems).

(** [rel_path] of a directory; the memo holds the same results.  [fuel] bounds
    the climb from [other], [None] is the end of it; of the root [get_dir] is
    [None]. *)
Fixpoint rel_path_loop (fuel : nat) (s : fstate) (self other : nat) : option text :=
  match fuel with
  | O => None
  | S fuel =>
      let x := fnodes s !!! self in
      let y := fnodes s !!! other in
      if decide (self = other) then Some (T ".")
      else
        match index_of other (path_elements (fid x)) with
        | None =>
            if decide (kind y = CRoot) then Some (fname (fid y))
            else r ← rel_path_loop fuel s self (ndir (fid y));
                 Some (if decide (r = T ".") then fname (fid y) else r ++ T "/" ++ fname (fid y))
        | Some i =>
            Some (join (T "/")
              (replicate (length (path_elements (fid x)) - (i + 1)) (T "..") ++
               names_of s (drop (i + 1) (path_elements (fid y)))))
        end
  end.
Definition rel_path (s : fstate) (self other : nat) : option text :=
  rel_path_loop (S (length (path_elements (fid (fnodes s !!! other))))) s self other.

(** [is_under] *)
Fixpoint is_under_loop (fuel : nat) (s : fstate) (n dir : nat) : option bool :=
  match fuel with
  | O => None
  | S fuel =>
      if decide (n = dir) then Some true
      else if decide (kind (fnodes s !!! n) = CRoot) then Some false
      else is_under_loop fuel s (ndir (fid (fnodes s !!! n))) dir
  end.
Definition is_under (s : fstate) (n dir : nat) : option bool :=
  is_under_loop (S (length (path_elements (fid (fnodes s !!! n))))) s n dir.

(** [up] *)
Definition up (s : fstate) (n : nat) : option nat :=
  let x := fnodes s !!! n in
  if decide (kind x = CRoot) then None else entries (ddata x) !! T "..".

(** ** Examples *)

Definition ex_stat (p : text) : option ftype :=
  if decide (p ∈ [T "/"; T "/w"; T "/w/src"]) then Some TDir
  else if decide (p = T "/w/src/a.c") then Some TReg else None.

Definition ex_build : fstate * res fexn (text * text) :=
  (let! _ := (λ _, FS_init ex_stat true (T "/w")) in
   let! f := FS_File ex_stat true (AStr (T "src/../src/a.c")) None true in
   let! d := FS_Dir ex_stat true (AStr (T "#build//x")) None true in
   let! g := FS_Entry ex_stat true (AStr (T "../../src/a.c")) (Some (ANode d)) true in
   λ s, match rel_path s d f with
        | Some p => if decide (f = g) then (s, Ok (get_path s f None, p)) else TypeError s
        | None => TypeError s
        end)%eff root_state.

Example ex_build_paths : ex_build.2 = Ok (T "src/a.c", T "../../src/a.c").
Proof. vm_compute. reflexivity. Qed.
