(* ===== verification/FSTreeFacts.v ===== *)
(** * The tree of file system nodes: theorems

    One node for each path; classes only become more precise; relative paths
    lead to the nodes they are made from. *)

From S2P Require Import Prelude Errors PyStr FSTree.
Open Scope nat_scope.

(** ** Paths *)

Definition good_name (w : text) : Prop :=
  w ≠ [] ∧ ("/"%char ∉ w) ∧ w ≠ T "." ∧ w ≠ T "..".

(** The absolute path of names. *)
Definition key_text (ws : list text) : text := concat (map (λ w, "/"%char :: w) ws).

(** What a normalised path with at most one leading slash looks like. *)
Definition root_keys : list text := [[]; T "/"; T "//"].
Definition ok_key (p : text) : Prop :=
  p ∈ root_keys ∨ ∃ ws, ws ≠ [] ∧ Forall good_name ws ∧ p = key_text ws.

Lemma key_text_app a b : key_text (a ++ b) = key_text a ++ key_text b.
Proof. unfold key_text. by rewrite map_app, concat_app. Qed.
Lemma key_text_snoc a w : key_text (a ++ [w]) = key_text a ++ "/"%char :: w.
Proof. rewrite key_text_app. unfold key_text at 2. simpl. by rewrite app_nil_r. Qed.

Lemma key_text_cons w ws : key_text (w :: ws) = "/"%char :: w ++ key_text ws.
Proof. done. Qed.

Definition rfind_step (c : ascii) : Z * Z → ascii → Z * Z :=
  λ '(r, i) x, (if decide (x = c) then i else r, (i + 1)%Z).
Lemma rfind_step_eq c r i x :
  rfind_step c (r, i) x = (if decide (x = c) then i else r, (i + 1)%Z).
Proof. done. Qed.
Lemma rfind_loop (s : text) (c : ascii) (r i : Z) :
  foldl (rfind_step c) (r, i) s =
  ((if decide (c ∈ s) then i + (foldl (rfind_step c) (-1, 0)%Z s).1 else r)%Z,
   (i + Z.of_nat (length s))%Z).
Proof.
  revert r i. induction s as [|x s IH]; intros r i; cbn [foldl length].
  { rewrite decide_False by apply not_elem_of_nil. f_equal. lia. }
  rewrite !rfind_step_eq, IH, (IH (if decide (x = c) then 0 else -1)%Z (0 + 1)%Z).
  f_equal; [|lia]. cbn [fst].
  assert (c ∈ x :: s ↔ c = x ∨ c ∈ s) as Hcons by apply elem_of_cons.
  repeat case_decide; try lia; exfalso; (intuition congruence) || (subst x; intuition congruence).
Qed.

Lemma rfind_last a w c : c ∉ w → rfind (a ++ c :: w) c = Z.of_nat (length a).
Proof.
  intros Hw. change (rfind ?s ?c) with (foldl (rfind_step c) (-1, 0)%Z s).1. rewrite foldl_app.
  destruct (foldl _ (-1, 0)%Z a) as [r i] eqn:E.
  assert (i = Z.of_nat (length a)) as ->.
  { pose proof (rfind_loop a c (-1) 0) as H. rewrite E in H. injection H. lia. }
  cbn [foldl]. rewrite rfind_step_eq, decide_True by done.
  by rewrite rfind_loop, decide_False by done.
Qed.

Lemma rstrip_slash_app a c : c ≠ "/"%char → rstrip_slash (a ++ [c]) = a ++ [c].
Proof.
  intros Hc. unfold rstrip_slash. rewrite rev_app_distr. cbn [rev app span].
  rewrite bool_decide_eq_false_2 by done. cbn [snd]. cbn [rev]. by rewrite rev_involutive.
Qed.
Lemma rstrip_slash_slash a : rstrip_slash (a ++ T "/") = rstrip_slash a.
Proof.
  unfold rstrip_slash. rewrite rev_app_distr. simpl. by destruct (span _ (rev a)).
Qed.

Lemma split_key ws w : Forall good_name ws → good_name w →
  os_path_split (key_text (ws ++ [w])) = (match ws with [] => T "/" | _ => key_text ws end, w).
Proof.
  intros Hws (Hw & Hs & _). rewrite key_text_snoc. unfold os_path_split.
  rewrite rfind_last by done.
  replace (Z.to_nat (Z.of_nat (length (key_text ws)) + 1)) with (length (key_text ws) + 1) by lia.
  rewrite take_app_add, drop_app_add. simpl. rewrite take_0, drop_0.
  destruct ws as [|w0 ws] using rev_ind; [done|clear IHws].
  apply Forall_app in Hws as [_ Hw0]. inversion Hw0 as [|? ? (Hne & Hsl & _) _]; subst.
  rewrite key_text_snoc. destruct w0 as [|c w0] using rev_ind; [done|clear IHw0].
  assert (c ≠ "/"%char) as Hc by (intros ->; apply Hsl, elem_of_app; right; left).
  rewrite decide_False.
  - rewrite rstrip_slash_slash, app_comm_cons, app_assoc.
    rewrite rstrip_slash_app by done. f_equal. by destruct ws.
  - intros E. apply Hc. assert (c ∈ ((key_text ws ++ "/"%char :: w0 ++ [c]) ++ ["/"%char])) as Hin.
    { rewrite !elem_of_app, elem_of_cons, elem_of_app. left. right. right. right. left. }
    rewrite E in Hin. apply elem_of_replicate in Hin as [-> _]. done.
Qed.

(** *** [normpath] of absolute paths *)

Lemma norm_step_good comps w : Forall good_name comps → ("/"%char ∉ w) →
  Forall good_name (norm_step true comps w).
Proof.
  intros Hc Hw. unfold norm_step. case_decide as H1; [done|]. case_decide as H2.
  - apply Forall_app. split; [done|]. apply Forall_singleton.
    assert (w ≠ T "..").
    { destruct H2 as [?|[[? _]|H2]]; [done..|]. intros ->.
      apply last_Some_elem_of in H2. rewrite Forall_forall in Hc. by destruct (Hc _ H2) as (_&_&_&?). }
    split_and!; naive_solver.
  - by apply Forall_take.
Qed.

Lemma norm_comps_good p : Forall good_name (foldl (norm_step true) [] (split "/"%char p)).
Proof.
  assert (Forall (λ w, "/"%char ∉ w) (split "/"%char p)) as Hp.
  { apply Forall_forall. intros w. apply elem_of_split. }
  generalize (Forall_nil_2 good_name). generalize (@nil text) as comps.
  induction Hp as [|w l Hw Hl IH]; intros comps Hc; [done|]. apply IH. by apply norm_step_good.
Qed.

Lemma join_key ws : ws ≠ [] → "/"%char :: join (T "/") ws = key_text ws.
Proof.
  intros Hne. induction ws as [|w ws IH]; [done|]. destruct ws as [|w' ws]; simpl.
  - unfold key_text. simpl. by rewrite app_nil_r.
  - unfold key_text in *. cbn [map concat app]. f_equal. f_equal. apply IH. done.
Qed.

Lemma normpath_absolute p : initial_slashes p = 1 →
  normpath p = match foldl (norm_step true) [] (split "/"%char p) with
               | [] => T "/" | ws => key_text ws end.
Proof.
  intros Hp. unfold normpath. rewrite Hp. cbn [replicate app].
  change (bool_decide (1 ≠ 0)) with true.
  destruct (foldl _ _ _) as [|w ws]; [done|]. by rewrite <- join_key.
Qed.

Lemma normpath_ok_key p : initial_slashes p = 1 → ok_key (normpath p).
Proof.
  intros Hp. rewrite normpath_absolute by done. pose proof (norm_comps_good p) as Hg.
  destruct (foldl _ _ _) as [|w ws]; [left; right; left|]. right. by exists (w :: ws).
Qed.

Lemma split_key_text ws s : Forall good_name ws →
  split "/"%char (key_text ws ++ "/"%char :: s) = [] :: ws ++ split "/"%char s.
Proof.
  intros Hws. induction Hws as [|w ws (_ & Hw & _) Hws IH].
  - done.
  - rewrite key_text_cons. cbn [app split]. rewrite decide_True by done. f_equal.
    rewrite <- app_assoc. destruct ws as [|w' ws].
    + simpl. by rewrite split_app.
    + rewrite key_text_cons in *. cbn [app] in *. rewrite split_app by done. f_equal.
      cbn [split] in IH. rewrite decide_True in IH by done. by injection IH.
Qed.

Lemma norm_step_name comps w : good_name w → norm_step true comps w = comps ++ [w].
Proof.
  intros (H1 & _ & H2 & H3). unfold norm_step. rewrite decide_False by naive_solver.
  rewrite decide_True by naive_solver. done.
Qed.
Lemma norm_names comps ws : Forall good_name ws →
  foldl (norm_step true) comps ws = comps ++ ws.
Proof.
  intros Hws. revert comps. induction Hws as [|w ws Hw Hws IH]; intros comps; cbn [foldl].
  - by rewrite app_nil_r.
  - by rewrite norm_step_name, IH, <- app_assoc.
Qed.
Lemma norm_up comps w : good_name w → norm_step true (comps ++ [w]) (T "..") = comps.
Proof.
  intros (_ & _ & _ & Hw). unfold norm_step. rewrite decide_False by naive_solver.
  rewrite decide_False.
  - rewrite length_app. simpl. replace (pred (length comps + 1)) with (length comps) by lia.
    by rewrite take_app_length.
  - rewrite last_snoc. naive_solver.
Qed.
Lemma norm_ups comps ws : Forall good_name ws →
  foldl (norm_step true) (comps ++ ws) (replicate (length ws) (T "..")) = comps.
Proof.
  induction ws as [|w ws IH] using rev_ind; intros Hws; [by rewrite app_nil_r|].
  apply Forall_app in Hws as [Hws Hw]. inversion Hw; subst.
  rewrite length_app, Nat.add_comm. cbn [length Nat.add replicate foldl].
  rewrite app_assoc, norm_up by done. by apply IH.
Qed.

Lemma initial_slashes_key ws s : ws ≠ [] → Forall good_name ws →
  initial_slashes (key_text ws ++ s) = 1.
Proof.
  intros Hne Hws. destruct Hws as [|w ws (Hw & Hs & _) _]; [done|].
  destruct w as [|c w]; [done|]. rewrite key_text_cons. unfold initial_slashes.
  assert (c ≠ "/"%char) as Hc by (intros ->; apply Hs; left). simpl.
  by rewrite bool_decide_eq_false_2.
Qed.

(** ** The table and the tree *)

(** The fixed attributes of a node in its directory. *)
Definition ident_in (d : fnode) (dn n : nat) (w : text) : ident :=
  Ident w (entry_abspath d w) (entry_labspath d w) (path_elements (fid d) ++ [n]) dn.

Definition is_child (s : fstate) (n : nat) (w : text) (m : nat) : Prop :=
  m ≠ root ∧ ∃ y, fnodes s !! m = Some y ∧ ndir (fid y) = n ∧ fname (fid y) = w.

Record node_inv (s : fstate) (n : nat) (x : fnode) : Prop := {
  ni_kind : kind x ≠ CRoot;
  ni_name : good_name (fname (fid x));
  ni_dir : ∃ d, ndir (fid x) < n ∧ fnodes s !! ndir (fid x) = Some d ∧ is_dir (kind d) = true ∧
           fid x = ident_in d (ndir (fid x)) n (fname (fid x)) ∧
           entries (ddata d) !! fname (fid x) = Some n
}.

Record dir_inv (s : fstate) (n : nat) (x : fnode) : Prop := {
  di_dot : entries (ddata x) !! T "." = Some n;
  di_dots : entries (ddata x) !! T ".." = Some (ndir (fid x));
  di_entries : ∀ w m, entries (ddata x) !! w = Some m →
               w = T "." ∨ w = T ".." ∨ is_child s n w m
}.

Record tree_inv (s : fstate) : Prop := {
  ti_root : ∃ r, fnodes s !! root = Some r ∧ kind r = CRoot ∧
            fid r = Ident [] (T "/") [] [root] root;
  ti_ids : ∀ n, is_Some (fnodes s !! n) ↔ n < size (fnodes s);
  ti_keys : ∀ p n, lookupDict s !! p = Some n ↔
            (n = root ∧ p ∈ root_keys) ∨
            (n ≠ root ∧ ∃ x, fnodes s !! n = Some x ∧ p = labspath (fid x));
  ti_node : ∀ n x, fnodes s !! n = Some x → n ≠ root → node_inv s n x;
  ti_entries : ∀ n x, fnodes s !! n = Some x → is_dir (kind x) = true → dir_inv s n x;
  ti_top : ∃ x, fnodes s !! Top s = Some x ∧ is_dir (kind x) = true;
  ti_cwd : ∃ x, fnodes s !! cwd s = Some x ∧ is_dir (kind x) = true
}.

(** What a look-up may change: nodes are added, an [Entry] becomes a [File] or a
    [Dir]; source directories stay, and cached lists of them at most go. *)
Definition class_le (k k' : fclass) : Prop := k = k' ∨ k = CEntry.
Record calm_node (x y : fnode) : Prop := {
  cn_memo : memo_srcdirs (fmemos y) = memo_srcdirs (fmemos x) ∨ memo_srcdirs (fmemos y) = None;
  cn_srcdir : srcdir (ddata y) = srcdir (ddata x) ∨
              (is_dir (kind x) = false ∧ srcdir (ddata y) = None)
}.
Record extends (s s' : fstate) : Prop := {
  ex_nodes : ∀ n x, fnodes s !! n = Some x →
             ∃ y, fnodes s' !! n = Some y ∧ fid y = fid x ∧ class_le (kind x) (kind y) ∧
                  calm_node x y;
  ex_keys : ∀ p n, lookupDict s !! p = Some n → lookupDict s' !! p = Some n;
  ex_new : ∀ n y, fnodes s !! n = None → fnodes s' !! n = Some y →
           srcdir (ddata y) = None ∧ memo_srcdirs (fmemos y) = None;
  ex_top : Top s' = Top s
}.

Lemma calm_refl x : calm_node x x.
Proof. by split; left. Qed.
Lemma calm_trans x y z : class_le (kind x) (kind y) → calm_node x y → calm_node y z → calm_node x z.
Proof.
  intros Hl [H1 H2] [H3 H4]. split.
  - destruct H3 as [H3|H3], H1 as [H1|H1]; rewrite H3, ?H1; tauto.
  - assert (is_dir (kind y) = false → is_dir (kind x) = false) as Hd by (by destruct Hl as [-> | ->]).
    destruct H4 as [H4|[? H4]], H2 as [H2|[? H2]]; rewrite H4, ?H2; tauto.
Qed.
#[export] Instance extends_preorder : PreOrder extends.
Proof.
  split.
  - intros s. split; try done.
    + intros n x Hn. exists x. split_and!; [done..|by left|apply calm_refl].
    + intros n y E1 E2. by rewrite E1 in E2.
  - intros a b c [Hn Hk Hw Ht] [Hn' Hk' Hw' Ht']. split; [|by auto| |congruence].
    + intros n x Hx. destruct (Hn n x Hx) as (y & Hy & Hi & Hl & Hc).
      destruct (Hn' n y Hy) as (z & Hz & Hi' & Hl' & Hc'). exists z.
      split_and!; [done|congruence| |by apply (calm_trans x y)].
      destruct Hl as [-> | ->]; [done|by right].
    + intros n z Ha Hz. destruct (fnodes b !! n) as [y|] eqn:Hb; [|by apply (Hw' n)].
      destruct (Hw n y Ha Hb) as [Hs Hm]. destruct (Hn' n y Hb) as (z' & Hz' & _ & _ & [H1 H2]).
      assert (z' = z) as -> by congruence. rewrite Hm in H1. rewrite Hs in H2. tauto.
Qed.

(** The labels of the path from the root. *)
Lemma labspath_key s n x : tree_inv s → fnodes s !! n = Some x → n ≠ root →
  ∃ ws, ws ≠ [] ∧ Forall good_name ws ∧ labspath (fid x) = key_text ws ∧
        length (path_elements (fid x)) = S (length ws).
Proof.
  intros Hs. revert x. induction n as [n IH] using lt_wf_ind. intros x Hx Hn.
  destruct (ti_node s Hs n x Hx Hn) as [_ Hw (d & Hlt & Hd & Hk & Hi & _)].
  destruct (decide (ndir (fid x) = root)) as [Hr|Hr].
  - destruct (ti_root s Hs) as (r & Hrt & Hkr & Hir). rewrite Hr in Hd. simplify_eq.
    exists [fname (fid x)]. split_and!; [done|by apply Forall_singleton| |].
    + rewrite Hi. simpl. unfold entry_labspath. rewrite decide_True by done.
      unfold key_text. simpl. by rewrite app_nil_r.
    + rewrite Hi. simpl. rewrite Hir. done.
  - destruct (IH _ Hlt d Hd Hr) as (ws & Hne & Hg & Hl & Hlen).
    exists (ws ++ [fname (fid x)]). split_and!.
    + by destruct ws.
    + apply Forall_app. split; [done|by apply Forall_singleton].
    + rewrite key_text_snoc, <- Hl, Hi. simpl. unfold entry_labspath.
      rewrite decide_False; [done|]. apply (ti_node s Hs _ d Hd Hr).
    + rewrite Hi. simpl. rewrite !length_app, Hlen. simpl. lia.
Qed.

(** A node is its path. *)
Lemma labspath_inj s n m x y : tree_inv s → fnodes s !! n = Some x → fnodes s !! m = Some y →
  n ≠ root → m ≠ root → labspath (fid x) = labspath (fid y) → n = m.
Proof.
  intros Hs Hx Hy Hn Hm Hl.
  assert (lookupDict s !! labspath (fid x) = Some n) as E1.
  { apply (ti_keys s Hs). right. eauto. }
  assert (lookupDict s !! labspath (fid y) = Some m) as E2.
  { apply (ti_keys s Hs). right. eauto. }
  rewrite Hl in E1. congruence.
Qed.

(** A node after some calls: it may have become a [File], or a [Dir] that has no
    entries yet. *)
Record refines_node (n : nat) (x y : fnode) : Prop := {
  rn_id : fid y = fid x;
  rn_kind : kind y = kind x ∨ (kind x = CEntry ∧ kind y ≠ CRoot);
  rn_entries : is_dir (kind y) = true →
    entries (ddata y) = if is_dir (kind x) then entries (ddata x)
                        else <[T "." := n]> (<[T ".." := ndir (fid x)]> ∅)
}.

Lemma size_alter (f : fnode → fnode) (n : nat) (m : gmap nat fnode) : size (alter f n m) = size m.
Proof. by rewrite <- !size_dom, dom_alter_L. Qed.

Lemma lookup_upd s f n m : fnodes (upd n f s) !! m = (if decide (m = n) then f else id) <$> fnodes s !! m.
Proof.
  unfold upd. simpl. case_decide as H; subst; [by rewrite lookup_alter_eq|].
  rewrite lookup_alter_ne by done. by rewrite option_fmap_id.
Qed.

Lemma refines_dir n x y : refines_node n x y → is_dir (kind x) = true →
  is_dir (kind y) = true ∧ entries (ddata y) = entries (ddata x).
Proof.
  intros [_ [Hk|[Hk _]] He] Hx; [|by rewrite Hk in Hx]. rewrite Hk, Hx in He.
  split; [congruence|by apply He].
Qed.
Lemma refines_entry n x y w : refines_node n x y →
  entry_abspath y w = entry_abspath x w ∨ kind x = CEntry.
Proof. intros [Hi [Hk|[Hk _]] _]; [left|by right]. unfold entry_abspath. by rewrite Hk, Hi. Qed.
Lemma refines_ident n x y d m w : refines_node n x y → is_dir (kind x) = true →
  ident_in y d m w = ident_in x d m w.
Proof.
  intros [Hi [Hk|[Hk _]] _] Hx; [|by rewrite Hk in Hx].
  unfold ident_in, entry_abspath, entry_labspath. by rewrite Hk, Hi.
Qed.

(** Calls that refine the nodes keep the invariant. *)
Lemma refines_tree s s' : tree_inv s →
  (∀ n, option_Forall2 (refines_node n) (fnodes s !! n) (fnodes s' !! n)) →
  lookupDict s' = lookupDict s →
  (∃ x, fnodes s !! Top s' = Some x ∧ is_dir (kind x) = true) →
  (∃ x, fnodes s !! cwd s' = Some x ∧ is_dir (kind x) = true) →
  tree_inv s'.
Proof.
  intros Hs Hn Hk Ht Hc.
  assert (∀ n x, fnodes s !! n = Some x → ∃ y, fnodes s' !! n = Some y ∧ refines_node n x y) as Hfw.
  { intros n x Hx. specialize (Hn n). rewrite Hx in Hn. inversion Hn; subst. eauto. }
  assert (∀ n y, fnodes s' !! n = Some y → ∃ x, fnodes s !! n = Some x ∧ refines_node n x y) as Hbw.
  { intros n y Hy. specialize (Hn n). rewrite Hy in Hn. inversion Hn; subst. eauto. }
  assert (dom (fnodes s') = dom (fnodes s)) as Hdom.
  { apply set_eq. intros n. rewrite !elem_of_dom. split.
    - intros [y (x & ? & _)%Hbw]. eauto.
    - intros [x (y & ? & _)%Hfw]. eauto. }
  assert (∀ n, (∃ x, fnodes s !! n = Some x ∧ is_dir (kind x) = true) →
               ∃ y, fnodes s' !! n = Some y ∧ is_dir (kind y) = true) as Hdirs.
  { intros n (x & Hx & Hd). destruct (Hfw n x Hx) as (y & Hy & Hr). exists y. split; [done|].
    by eapply refines_dir. }
  split.
  - destruct (ti_root s Hs) as (r & Hr & Hkr & Hir).
    destruct (Hfw _ _ Hr) as (r' & Hr' & [Hi [Hkk|[? _]] _]); [|congruence].
    exists r'. split_and!; congruence.
  - intros n. rewrite <- elem_of_dom, Hdom, <- size_dom, Hdom, size_dom, elem_of_dom.
    apply (ti_ids s Hs).
  - intros p n. rewrite Hk, (ti_keys s Hs). split; (intros [?|[? (x & Hx & ->)]]; [by left|right]).
    + destruct (Hfw n x Hx) as (y & Hy & [Hi _ _]). split; [done|]. exists y. by rewrite Hi.
    + destruct (Hbw n x Hx) as (y & Hy & [Hi _ _]). split; [done|]. exists y. by rewrite Hi.
  - intros n y Hy Hroot. destruct (Hbw n y Hy) as (x & Hx & Hr).
    destruct (ti_node s Hs n x Hx Hroot) as [Hkx Hw (d & Hlt & Hd & Hkd & Hi & He)].
    destruct (Hfw _ d Hd) as (d' & Hd' & Hrd). destruct Hr as [Hid Hkk _]. split; rewrite ?Hid.
    + destruct Hkk as [->|[_ ?]]; done.
    + done.
    + exists d'. destruct (refines_dir _ _ _ Hrd Hkd) as [Hkd' Hed]. rewrite Hed.
      split_and!; try done. by rewrite (refines_ident _ _ _ _ _ _ Hrd Hkd).
  - intros n y Hy Hky. destruct (Hbw n y Hy) as (x & Hx & Hr).
    pose proof (rn_entries _ _ _ Hr Hky) as He.
    assert (∀ w m, is_child s n w m → is_child s' n w m) as Hchild.
    { intros w m [Hm (z & Hz & Hzn & Hzw)]. split; [done|].
      destruct (Hfw m z Hz) as (z' & Hz' & [Hi _ _]). exists z'. rewrite Hi. done. }
    destruct (is_dir (kind x)) eqn:Hkx.
    + destruct (ti_entries s Hs n x Hx Hkx) as [H1 H2 H3].
      split; rewrite He, ?(rn_id _ _ _ Hr); [done..|]. intros w m Hw. destruct (H3 w m Hw) as [?|[?|?]]; eauto.
    + split; rewrite He, ?(rn_id _ _ _ Hr).
      * apply lookup_insert_eq.
      * rewrite lookup_insert_ne by done. apply lookup_insert_eq.
      * intros w m. rewrite !lookup_insert. repeat case_decide; try by eauto.
  - by apply Hdirs.
  - by apply Hdirs.
Qed.

Lemma refines_extends s s' :
  (∀ n, option_Forall2 (refines_node n) (fnodes s !! n) (fnodes s' !! n)) →
  (∀ n x y, fnodes s !! n = Some x → fnodes s' !! n = Some y → calm_node x y) →
  lookupDict s' = lookupDict s → Top s' = Top s → extends s s'.
Proof.
  intros Hn Hc Hk Ht. split; [|by rewrite Hk| |done].
  - intros n x Hx. specialize (Hn n). rewrite Hx in Hn. inversion Hn as [? y [Hi Hkk _]|]; subst.
    exists y. split_and!; [done|done| |by eapply Hc]. destruct Hkk as [->|[? _]]; [by left|by right].
  - intros n y E1 E2. specialize (Hn n). rewrite E1, E2 in Hn. inversion Hn.
Qed.

Lemma refines_node_refl n x : refines_node n x x.
Proof. split; [done|by left|]. intros H. by rewrite H. Qed.
Lemma refines_refl n (x : option fnode) : option_Forall2 (refines_node n) x x.
Proof. destruct x; constructor. apply refines_node_refl. Qed.

(** An update of one node. *)
Lemma upd_refines s n f :
  (∀ x, fnodes s !! n = Some x → refines_node n x (f x)) →
  ∀ m, option_Forall2 (refines_node m) (fnodes s !! m) (fnodes (upd n f s) !! m).
Proof.
  intros Hf m. rewrite lookup_upd. case_decide as Hm; subst.
  - destruct (fnodes s !! n) eqn:E; constructor. by apply Hf.
  - rewrite option_fmap_id. apply refines_refl.
Qed.
Lemma upd_tree s n f : tree_inv s → (∀ x, fnodes s !! n = Some x → refines_node n x (f x)) →
  tree_inv (upd n f s).
Proof.
  intros Hs Hf. pose proof (upd_refines s n f Hf) as Hr.
  apply (refines_tree s); [done|done|done|apply (ti_top s Hs)|apply (ti_cwd s Hs)].
Qed.
Lemma upd_extends s n f : (∀ x, fnodes s !! n = Some x → refines_node n x (f x) ∧ calm_node x (f x)) →
  extends s (upd n f s).
Proof.
  intros Hf. apply refines_extends; [apply upd_refines; intros; by apply Hf| |done..].
  intros m x y Hx Hy. rewrite lookup_upd, Hx in Hy. case_decide; injection Hy as <-; [|apply calm_refl].
  subst. by apply Hf.
Qed.

(** ** A new node *)

Lemma kind_morph n x : kind (fmorph n x) = kind x.
Proof. by destruct x as [[]]. Qed.
Lemma fid_morph n x : fid (fmorph n x) = fid x.
Proof. by destruct x as [[]]. Qed.

Lemma new_entries n k w d dn : is_dir k = true →
  entries (ddata (new_node n k w d dn)) = <[T "." := n]> (<[T ".." := d]> ∅).
Proof. by destruct k. Qed.

(** The state after a node was made. *)
Definition added (s : fstate) (w : text) (p : text) (k : fclass) (d : nat) : fstate :=
  let n := fresh_id s in
  upd d (λ y, with_fimplicit None (add_entry w n y))
    (FS (<[n := new_node n k w d (fnodes s !!! d)]> (fnodes s)) (<[p := n]> (lookupDict s))
       (Top s) (cwd s)).

Section added.
Context (s : fstate) (d : nat) (dn : fnode) (w p : text) (k : fclass).
Hypotheses (Hs : tree_inv s) (Hd : fnodes s !! d = Some dn) (Hk : is_dir (kind dn) = true)
  (Hw : good_name w) (Hroot : k ≠ CRoot) (Hp : p = entry_labspath dn w)
  (Hfree : lookupDict s !! p = None).
Let n := fresh_id s.
Let x := new_node n k w d dn.
Let s' := added s w p k d.

Lemma fresh_none : fnodes s !! n = None.
Proof.
  apply eq_None_not_Some. rewrite (ti_ids s Hs). unfold n, fresh_id. lia.
Qed.
Lemma added_d : d ≠ n.
Proof. intros ->. by rewrite fresh_none in Hd. Qed.

Lemma lookup_added m : fnodes s' !! m =
  if decide (m = n) then Some x
  else if decide (m = d) then Some (with_fimplicit None (add_entry w n dn)) else fnodes s !! m.
Proof.
  unfold s', added. rewrite lookup_upd. cbn [fnodes]. fold n.
  rewrite (lookup_total_correct _ _ _ Hd). pose proof added_d.
  destruct (decide (m = d)) as [->|Hmd].
  - rewrite lookup_insert_ne by done. rewrite Hd, (decide_False (P := d = n)) by done. done.
  - rewrite option_fmap_id, lookup_insert. repeat case_decide; by subst.
Qed.

Lemma added_old m y : fnodes s !! m = Some y → ∃ y', fnodes s' !! m = Some y' ∧
  kind y' = kind y ∧ fid y' = fid y ∧ calm_node y y' ∧
  entries (ddata y') = if decide (m = d) then <[w := n]> (entries (ddata y)) else entries (ddata y).
Proof.
  intros Hm. rewrite lookup_added. rewrite decide_False by (intros ->; by rewrite fresh_none in Hm).
  case_decide; [|exists y; split_and!; [done..|apply calm_refl|done]].
  subst. rewrite Hd in Hm. simplify_eq.
  eexists. split; [reflexivity|]. split_and!; [done..| |done]. by split; left.
Qed.
Lemma added_inv m y' : fnodes s' !! m = Some y' →
  (m = n ∧ y' = x) ∨ (m ≠ n ∧ ∃ y, fnodes s !! m = Some y ∧ kind y' = kind y ∧ fid y' = fid y).
Proof.
  intros Hm. destruct (decide (m = n)) as [->|Hne].
  - left. rewrite lookup_added, decide_True in Hm by done. by simplify_eq.
  - right. split; [done|]. destruct (fnodes s !! m) as [y|] eqn:E.
    + destruct (added_old m y E) as (y2 & Hy2 & ? & ? & _ & _). simplify_eq. eauto.
    + rewrite lookup_added, decide_False in Hm by done. case_decide; [|congruence].
      subst m. congruence.
Qed.

Lemma x_kind : kind x = k.
Proof. unfold x, new_node. by rewrite kind_morph. Qed.
Lemma x_id : fid x = ident_in dn d n w.
Proof. unfold x, new_node. by rewrite fid_morph. Qed.
Lemma ident_added dn' m v : kind dn' = kind dn → fid dn' = fid dn →
  ident_in dn' d m v = ident_in dn d m v.
Proof. intros E1 E2. unfold ident_in, entry_abspath, entry_labspath. by rewrite E1, E2. Qed.

(** No other node has this place. *)
Lemma place_free m y : fnodes s !! m = Some y → m ≠ root →
  ¬ (ndir (fid y) = d ∧ fname (fid y) = w).
Proof.
  intros Hy Hm [E1 E2].
  destruct (ti_node s Hs m y Hy Hm) as [_ _ (d' & _ & Hd' & _ & Hi & _)].
  assert (d' = dn) as -> by congruence.
  assert (lookupDict s !! p = Some m) as E; [|congruence].
  apply (ti_keys s Hs). right. split; [done|]. exists y. split; [done|].
  by rewrite Hi, E2, Hp.
Qed.

Lemma added_keys q m : lookupDict s' !! q = Some m ↔
  (m = root ∧ q ∈ root_keys) ∨ (m ≠ root ∧ ∃ y, fnodes s' !! m = Some y ∧ q = labspath (fid y)).
Proof.
  assert (n ≠ root) as Hn.
  { intros E. destruct (ti_root s Hs) as (r & Hr & _). by rewrite <- E, fresh_none in Hr. }
  unfold s' at 1, added, upd. cbn [lookupDict]. fold n. rewrite lookup_insert. case_decide as Hq.
  - subst q. split.
    + intros [= <-]. right. split; [done|]. exists x. rewrite lookup_added, decide_True by done.
      split; [done|]. rewrite x_id. done.
    + intros [[-> Hr]|[Hm (y & Hy & E)]].
      * assert (lookupDict s !! p = Some root) as E; [|congruence]. apply (ti_keys s Hs). by left.
      * destruct (added_inv m y Hy) as [[-> _]|[Hmn (z & Hz & _ & Hi)]]; [done|].
        assert (lookupDict s !! p = Some m) as E2; [|congruence]. apply (ti_keys s Hs). right.
        split; [done|]. exists z. by rewrite <- Hi.
  - rewrite (ti_keys s Hs). split; (intros [?|[Hm (y & Hy & E)]]; [by left|right; split; [done|]]).
    + destruct (added_old m y Hy) as (z & Hz & _ & Hi & _). exists z. by rewrite Hi.
    + destruct (added_inv m y Hy) as [[-> ->]|[Hmn (z & Hz & _ & Hi)]].
      * rewrite x_id in E. simpl in E. congruence.
      * exists z. by rewrite <- Hi.
Qed.

Lemma added_child m v y : is_child s m v y → is_child s' m v y.
Proof.
  intros [Hy (z & Hz & E1 & E2)]. split; [done|].
  destruct (added_old y z Hz) as (z' & Hz' & _ & Hi & _). exists z'. by rewrite Hi.
Qed.

Lemma added_node_inv m y : fnodes s' !! m = Some y → m ≠ root → node_inv s' m y.
Proof.
  intros Hy Hm. destruct (added_inv m y Hy) as [[-> ->]|[Hmn (y0 & Hy0 & Hky & Hiy)]].
  - split; rewrite ?x_id; [by rewrite x_kind|done|]. cbn [fname ident_in ndir].
    destruct (added_old d dn Hd) as (d' & Hd' & Hkd & Hid & _ & He).
    exists d'. rewrite Hkd, He, decide_True by done. split_and!; [|done|done| |].
    + apply (ti_ids s Hs). eauto.
    + symmetry. by apply ident_added.
    + apply lookup_insert_eq.
  - destruct (ti_node s Hs m y0 Hy0 Hm) as [H1 H2 (e & Hlt & He & Hke & Hi & Hee)].
    split; rewrite ?Hky, ?Hiy; [done|done|].
    destruct (added_old _ e He) as (e' & He' & Hke' & Hie & _ & Hent).
    exists e'. rewrite Hke'. split_and!; [done|done|done| |].
    + rewrite Hi at 1. unfold ident_in, entry_abspath, entry_labspath. by rewrite Hke', Hie.
    + rewrite Hent. case_decide as Hdd; [|done]. rewrite lookup_insert_ne; [done|].
      intros Hww. by destruct (place_free m y0 Hy0 Hm).
Qed.

Lemma added_dir_inv m y : fnodes s' !! m = Some y → is_dir (kind y) = true → dir_inv s' m y.
Proof.
  intros Hy Hky. destruct (added_inv m y Hy) as [[-> ->]|[Hmn (y0 & Hy0 & Hk0 & Hiy)]].
  - assert (entries (ddata x) = <[T "." := n]> (<[T ".." := d]> ∅)) as He.
    { apply new_entries. by rewrite <- x_kind. }
    split; rewrite He, ?x_id.
    + apply lookup_insert_eq.
    + rewrite lookup_insert_ne by done. apply lookup_insert_eq.
    + intros v l. rewrite !lookup_insert. repeat case_decide; by eauto.
  - rewrite Hk0 in Hky. destruct (ti_entries s Hs m y0 Hy0 Hky) as [H1 H2 H3].
    destruct (added_old m y0 Hy0) as (y2 & Hy2 & _ & _ & _ & He).
    assert (y2 = y) as -> by congruence. destruct Hw as (_ & _ & Hw1 & Hw2).
    split; rewrite He, ?Hiy.
    + case_decide; [by rewrite lookup_insert_ne|done].
    + case_decide; [by rewrite lookup_insert_ne|done].
    + intros v l Hl.
      assert (entries (ddata y0) !! v = Some l ∨ (m = d ∧ v = w ∧ l = n)) as [Hvl|(-> & -> & ->)].
      { revert Hl. case_decide; [|by left]. rewrite lookup_insert. case_decide; [|by left].
        intros [= <-]. by right. }
      * destruct (H3 v l Hvl) as [?|[?|?]]; [by left|by right; left|]. right. right.
        by apply added_child.
      * right. right. split.
        -- intros E. destruct (ti_root s Hs) as (r & Hr & _). by rewrite <- E, fresh_none in Hr.
        -- exists x. rewrite lookup_added, decide_True by done. by rewrite x_id.
Qed.

Lemma added_extends : extends s s'.
Proof.
  split; [| | |done].
  - intros m y Hy. destruct (added_old m y Hy) as (y' & Hy' & Hk' & Hi & Hc & _). exists y'.
    split_and!; [done..| |done]. left. done.
  - intros q m Hq. unfold s', added, upd. cbn [lookupDict]. rewrite lookup_insert_ne; [done|].
    congruence.
  - intros m y E Hy. destruct (added_inv m y Hy) as [[-> ->]|[_ (z & Hz & _)]]; [|congruence].
    unfold x, new_node. by destruct k.
Qed.

Lemma added_tree : tree_inv s'.
Proof.
  assert (∀ m, (∃ y, fnodes s !! m = Some y ∧ is_dir (kind y) = true) →
               ∃ y, fnodes s' !! m = Some y ∧ is_dir (kind y) = true) as Hdirs.
  { intros m (y & Hy & Hky). destruct (added_old m y Hy) as (y' & Hy' & Hk' & _). exists y'.
    by rewrite Hk'. }
  split.
  - destruct (ti_root s Hs) as (r & Hr & Hkr & Hir).
    destruct (added_old _ r Hr) as (r' & Hr' & Hk' & Hi' & _). exists r'. split_and!; congruence.
  - intros m. assert (size (fnodes s') = S (size (fnodes s))) as ->.
    { unfold s', added, upd. cbn [fnodes]. rewrite size_alter, map_size_insert_None; [done|].
      apply fresh_none. }
    split.
    + intros [y Hy]. destruct (added_inv m y Hy) as [[-> _]|[_ (z & Hz & _)]].
      * unfold n, fresh_id. lia.
      * enough (m < size (fnodes s)) by lia. apply (ti_ids s Hs). eauto.
    + intros Hlt. destruct (decide (m = n)) as [->|Hne].
      * rewrite lookup_added, decide_True by done. eauto.
      * assert (is_Some (fnodes s !! m)) as [y Hy].
        { apply (ti_ids s Hs). unfold n, fresh_id in Hne. lia. }
        destruct (added_old m y Hy) as (y' & -> & _). eauto.
  - apply added_keys.
  - apply added_node_inv.
  - apply added_dir_inv.
  - apply Hdirs, (ti_top s Hs).
  - apply Hdirs, (ti_cwd s Hs).
Qed.

Lemma added_new : fnodes s' !! n = Some x ∧ lookupDict s' !! p = Some n.
Proof.
  split; [by rewrite lookup_added, decide_True|].
  unfold s', added, upd. cbn [lookupDict]. apply lookup_insert_eq.
Qed.
End added.

(** ** Looking up *)

Section lookup.
Variable stat : text → option ftype.
Variable do_match : bool.
Abbreviation lookup_abs := (lookup_abs stat do_match).
Abbreviation _lookup_abs := (_lookup_abs stat do_match).

(** A node of this class will do. *)
Definition class_ok (klass k : fclass) : bool :=
  bool_decide (klass = CEntry) || isinstance k klass.

Definition is_TypeError (e : exn) : Prop := e = ExOther "TypeError" "".

(** A call returns or raises in a tree that extends the old one. *)
Definition sound (s : fstate) {A} (r : fstate * res fexn A) (Q : fstate → A → Prop)
    (X : exn → Prop) : Prop :=
  tree_inv r.1 ∧ extends s r.1 ∧
  match r.2 with Ok a => Q r.1 a | Raise (Some e) => X e | Raise None => False end.

Lemma sound_bind {A B} s (c : fsm A) (k : A → fsm B) Q Q' X :
  sound s (c s) Q X →
  (∀ a s', tree_inv s' → extends s s' → Q s' a → sound s' (k a s') Q' X) →
  sound s (ebind c k s) Q' X.
Proof.
  intros (Hi & He & Hr) Hk. unfold ebind. destruct (c s) as [s' [a|[e|]]]; simpl in *; [|done|done].
  destruct (Hk a s' Hi He Hr) as (Hi' & He' & Hr'). split_and!; [done|by transitivity s'|done].
Qed.

Lemma extends_trans_sound {A} s s' (r : fstate * res fexn A) Q X :
  extends s s' → sound s' r Q X → sound s r Q X.
Proof. intros He (Hi & He' & Hr). split_and!; [done|by transitivity s'|done]. Qed.

Lemma must_be_same_sound s n x klass : tree_inv s → fnodes s !! n = Some x → klass ≠ CRoot →
  sound s (must_be_same n klass s)
    (λ s' _, ∃ y, fnodes s' !! n = Some y ∧ class_ok klass (kind y) = true)
    (λ e, is_TypeError e ∧ kind x ≠ CEntry ∧ class_ok klass (kind x) = false).
Proof.
  intros Hs Hx Hroot. unfold must_be_same. rewrite (lookup_total_correct _ _ _ Hx).
  assert (extends s s) as Hrefl by reflexivity. unfold sound, class_ok.
  destruct (kind x) eqn:Hk.
  - case_decide as Hc; [subst; simpl; split_and!; [done..|by exists x]|].
    assert (∀ y, fnodes s !! n = Some y → refines_node n y (fclear (fmorph n (with_kind klass y)))) as Hf.
    { intros y Hy. assert (y = x) as -> by congruence. unfold fmorph. cbn [kind with_kind].
      destruct klass; try done; (split; [done|by right; split|]); rewrite Hk; done. }
    pose proof (upd_tree s n _ Hs Hf) as Hi.
    assert (extends s (upd n (λ x, fclear (fmorph n (with_kind klass x))) s)) as He.
    { apply upd_extends. intros y Hy. split; [by apply Hf|]. assert (y = x) as -> by congruence.
      split; [by right|]. destruct klass; try done; [by left|right]. by rewrite Hk. }
    cbn [fst snd]. split_and!; [done..|].
    exists (fclear (fmorph n (with_kind klass x))). rewrite lookup_upd, decide_True, Hx by done.
    split; [done|]. by destruct klass, x as [[]].
  - destruct klass; cbn; split_and!; try done; exists x; by rewrite Hk.
  - destruct klass; cbn; split_and!; try done; exists x; by rewrite Hk.
  - destruct klass; cbn; split_and!; try done; exists x; by rewrite Hk.
Qed.

(** What [_lookup_abs] gives: the node in the table, of the class asked for; no
    longer paths are added. *)
Definition found (s : fstate) (p : text) (klass : fclass) (s' : fstate) (n : nat) : Prop :=
  lookupDict s' !! p = Some n ∧
  (∃ y, fnodes s' !! n = Some y ∧ class_ok klass (kind y) = true) ∧
  ∀ q, length p < length q → lookupDict s' !! q = lookupDict s !! q.
Definition refused (create : bool) (e : exn) : Prop :=
  is_TypeError e ∨ (create = false ∧ ∃ m, e = ExUserError m).

Lemma key_text_not_root ws : ws ≠ [] → Forall good_name ws → key_text ws ∉ root_keys.
Proof.
  intros Hne Hws. destruct Hws as [|w ws (Hw & Hs & _) _]; [done|]. destruct w as [|c w]; [done|].
  rewrite key_text_cons. unfold root_keys. intros Hin.
  rewrite !elem_of_cons in Hin. destruct Hin as [Hin|[Hin|[Hin|Hin]]]; try done.
  - injection Hin as -> _. apply Hs. left.
  - by apply elem_of_nil in Hin.
Qed.

Lemma lookup_root s p : tree_inv s → p ∈ root_keys → lookupDict s !! p = Some root.
Proof. intros Hs Hp. apply (ti_keys s Hs). by left. Qed.

Lemma sound_use {A} s (r : fstate * res fexn A) (Q Q' : fstate → A → Prop) (X : exn → Prop) :
  sound s r Q X → (∀ s' a, tree_inv s' → extends s s' → Q s' a → Q' s' a) → sound s r Q' X.
Proof. intros (Hi & He & Hr) HQ. split_and!; [done..|]. destruct r.2 as [a|[e|]]; [by apply HQ|done..]. Qed.
Lemma sound_weaken {A} s (r : fstate * res fexn A) (Q Q' : fstate → A → Prop) (X X' : exn → Prop) :
  sound s r Q X → (∀ s' a, Q s' a → Q' s' a) → (∀ e, X e → X' e) → sound s r Q' X'.
Proof.
  intros (Hi & He & Hr) HQ HX. split_and!; [done..|]. destruct r.2 as [a|[e|]]; [by apply HQ|by apply HX|done].
Qed.

(** The label of an entry in a directory found by its path. *)
Lemma labspath_found s ws n x : tree_inv s → Forall good_name ws →
  lookupDict s !! (match ws with [] => T "/" | _ => key_text ws end) = Some n →
  fnodes s !! n = Some x → ∀ w, entry_labspath x w = key_text ws ++ "/"%char :: w.
Proof.
  intros Hs Hws Hn Hx w. unfold entry_labspath. destruct (ti_root s Hs) as (r & Hr & Hkr & Hir).
  destruct ws as [|w0 ws].
  - rewrite (lookup_root s (T "/") Hs) in Hn by (right; left). injection Hn as <-.
    assert (x = r) as -> by congruence. by rewrite decide_True.
  - apply (ti_keys s Hs) in Hn as [[_ Hp]|[Hne (y & Hy & Hp)]].
    + by destruct (key_text_not_root (w0 :: ws)).
    + assert (y = x) as -> by congruence. rewrite decide_False by apply (ti_node s Hs n x Hx Hne).
      by rewrite <- Hp.
Qed.

(** A new node in a directory that was found. *)
Lemma lookup_new s s1 d dir w p klass : tree_inv s1 → lookupDict s !! p = None →
  found s dir CDir s1 d → length dir < length p → good_name w → klass ≠ CRoot →
  (∀ y, fnodes s1 !! d = Some y → p = entry_labspath y w) →
  sound s1 (let n := fresh_id s1 in
            let x := new_node n klass w d (fnodes s1 !!! d) in
            if diskcheck_fails stat do_match x then TypeError s1
            else (added s1 w p klass d, Ok n))
    (found s p klass) (λ e, is_TypeError e).
Proof.
  intros Hs1 Hfree (Hd & (dn & Hdn & Hk) & Hlong) Hlen Hw Hroot Hp. cbv zeta.
  rewrite (lookup_total_correct _ _ _ Hdn). specialize (Hp dn Hdn).
  assert (is_dir (kind dn) = true) as Hkd by (by destruct (kind dn)).
  destruct (diskcheck_fails _ _ _).
  { split_and!; [done|reflexivity|done]. }
  assert (lookupDict s1 !! p = None) as Hfree1 by (by rewrite Hlong).
  split_and!; [by eapply added_tree|by eapply added_extends|].
  destruct (added_new s1 d dn w p klass Hs1 Hdn Hp Hfree1) as [Hx Hk']. cbn [fst snd].
  split; [done|]. split.
  - exists (new_node (fresh_id s1) klass w d dn). split; [done|]. unfold new_node. rewrite kind_morph.
    by destruct klass.
  - intros q Hq. unfold added, upd. cbn [lookupDict]. rewrite lookup_insert_ne by (intros ->; lia).
    apply Hlong. lia.
Qed.

Lemma lookup_abs_sound fuel ws p klass create s : tree_inv s → klass ≠ CRoot →
  (p ∈ root_keys ∧ 0 < fuel) ∨ (p = key_text ws ∧ Forall good_name ws ∧ length ws < fuel) →
  sound s (_lookup_abs fuel p klass create s) (found s p klass) (refused create).
Proof.
  revert ws p klass create s. induction fuel as [|fuel IH]; intros ws p klass create s Hs Hk Hp.
  { exfalso. destruct Hp as [[_ ?]|(_ & _ & ?)]; lia. }
  cbn [FSTree._lookup_abs]. destruct (lookupDict s !! p) as [n|] eqn:E.
  { assert (∃ x, fnodes s !! n = Some x) as [x Hx].
    { apply (ti_keys s Hs) in E as [[-> _]|[_ (x & Hx & _)]]; [|by eauto].
      destruct (ti_root s Hs) as (r & Hr & _). eauto. }
    destruct (must_be_same_sound s n x klass Hs Hx Hk) as (Hi & He & Hr).
    assert (lookupDict (must_be_same n klass s).1 = lookupDict s) as Hd.
    { unfold must_be_same. by repeat case_match. }
    unfold ebind. destruct (must_be_same n klass s) as [s' [[]|[e|]]]; simpl in *; [| |done].
    - split; [done|split; [done|]]. cbn [eret fst snd]. split; [by rewrite Hd|]. split; [done|]. intros q _. by rewrite Hd.
    - split; [done|split; [done|]]. left. apply Hr. }
  destruct create.
  2:{ split_and!; [done|reflexivity|]. right. split; [done|]. by eexists. }
  destruct Hp as [[Hp _]|(-> & Hws & Hlen)].
  { by rewrite (lookup_root s p Hs Hp) in E. }
  destruct ws as [|w ws _] using rev_ind.
  { change (key_text []) with (@nil ascii) in E. by rewrite (lookup_root s [] Hs) in E by left. }
  apply Forall_app in Hws as [Hws Hw]. rewrite Forall_singleton in Hw.
  rewrite (split_key ws w Hws Hw). rewrite length_app in Hlen. simpl in Hlen.
  set (dir := match ws with [] => T "/" | _ => key_text ws end).
  apply (sound_bind _ _ _ (found s dir CDir)).
  - eapply sound_weaken; [apply (IH ws)|done|].
    + done.
    + done.
    + unfold dir. destruct ws; [left; split; [right; left|lia]|right; split_and!; [done..|lia]].
    + intros e [?|[? _]]; [by left|done].
  - intros d s1 Hs1 He Hf. eapply sound_weaken; [eapply lookup_new; try done|done|by left].
    + unfold dir. destruct ws as [|w0 ws]; [|rewrite key_text_snoc, length_app; simpl; lia].
      destruct Hw as (Hw & _). destruct w; [done|]. simpl. lia.
    + intros y Hy. rewrite key_text_snoc. symmetry.
      by apply (labspath_found s1 ws d y Hs1 Hws (proj1 Hf)).
Qed.
End lookup.
