(* ===== verification/FSPathFacts.v ===== *)
(** * Names of file system nodes: theorems

    Every history of look-ups keeps one node for each path, and relative paths
    between nodes lead back to them. *)

From S2P Require Import Prelude Errors PyStr FSTree FSTreeFacts.
Open Scope nat_scope.

(** ** The elements of a path *)

Section elements.
Context (s : fstate) (Hs : tree_inv s).

Lemma node_is_dir n x : fnodes s !! n = Some x → n = root → is_dir (kind x) = true.
Proof.
  intros Hx ->. destruct (ti_root s Hs) as (r & Hr & Hk & _).
  assert (x = r) as -> by congruence. by rewrite Hk.
Qed.
Lemma kind_root n x : fnodes s !! n = Some x → kind x = CRoot ↔ n = root.
Proof.
  intros Hx. split.
  - intros Hk. destruct (decide (n = root)) as [|Hn]; [done|].
    by destruct (ni_kind _ _ _ (ti_node s Hs n x Hx Hn)).
  - intros ->. destruct (ti_root s Hs) as (r & Hr & Hk & _). congruence.
Qed.

(** The fixed attributes of a node, from those of its directory. *)
Lemma node_parent n x : fnodes s !! n = Some x → n ≠ root →
  ∃ d, ndir (fid x) < n ∧ fnodes s !! ndir (fid x) = Some d ∧ is_dir (kind d) = true ∧
       path_elements (fid x) = path_elements (fid d) ++ [n] ∧
       labspath (fid x) = labspath (fid d) ++ "/"%char :: fname (fid x) ∧
       good_name (fname (fid x)).
Proof.
  intros Hx Hn. destruct (ti_node s Hs n x Hx Hn) as [_ Hw (d & Hlt & Hd & Hk & Hi & _)].
  exists d. split_and!; [done..|by rewrite Hi at 1| |done].
  rewrite Hi at 1. cbn [labspath ident_in]. unfold entry_labspath. case_decide as Hr; [|done].
  apply (kind_root _ d Hd) in Hr. destruct (ti_root s Hs) as (r & Hrt & _ & Hir).
  rewrite Hr in Hd. assert (d = r) as -> by congruence. by rewrite Hir.
Qed.

Lemma node_elements n x : fnodes s !! n = Some x →
  ∃ l, path_elements (fid x) = root :: l ∧ Forall good_name (names_of s l) ∧
       labspath (fid x) = key_text (names_of s l) ∧
       last (root :: l) = Some n ∧
       ∀ i m, (root :: l) !! i = Some m →
         ∃ y, fnodes s !! m = Some y ∧ path_elements (fid y) = take (S i) (root :: l) ∧
              (m = n ∨ is_dir (kind y) = true).
Proof.
  revert x. induction n as [n IH] using lt_wf_ind. intros x Hx.
  destruct (decide (n = root)) as [->|Hn].
  { destruct (ti_root s Hs) as (r & Hr & _ & Hir). assert (x = r) as -> by congruence.
    exists []. rewrite Hir. split_and!; [done|constructor|done..|].
    intros [|i] m; [|done]. intros [= <-]. exists r. rewrite Hir. by split_and!; [..|left]. }
  destruct (node_parent n x Hx Hn) as (d & Hlt & Hd & Hk & Hp & Hl & Hg).
  destruct (IH _ Hlt d Hd) as (l & Hpl & Hgl & Hll & Hlast & Hel).
  assert (names_of s (l ++ [n]) = names_of s l ++ [fname (fid x)]) as Hnames.
  { unfold names_of. rewrite map_app. simpl. by rewrite (lookup_total_correct _ _ _ Hx). }
  exists (l ++ [n]). split_and!.
  - by rewrite Hp, Hpl.
  - rewrite Hnames. apply Forall_app. split; [done|by apply Forall_singleton].
  - by rewrite Hnames, key_text_snoc, <- Hll.
  - by rewrite app_comm_cons, last_snoc.
  - intros i m. rewrite app_comm_cons. intros [Hi|[Hi Hm]]%lookup_app_Some.
    + destruct (Hel i m Hi) as (y & Hy & Hpy & Hky). exists y.
      apply lookup_lt_Some in Hi as Hlen. rewrite take_app_le by lia. split_and!; [done..|].
      right. destruct Hky as [->|?]; [|done]. by assert (y = d) as -> by congruence.
    + apply lookup_lt_Some in Hm as Hlen. simpl in Hlen, Hi, Hm.
      assert (i - S (length l) = 0) as E by lia. simpl in E. rewrite E in Hm. injection Hm as <-.
      exists x. split_and!; [done| |by left]. rewrite take_ge; [by rewrite Hp, Hpl|].
      rewrite length_app. simpl in *. lia.
Qed.
End elements.

(** ** The path a name stands for *)

(** One line, and not two slashes in front: see [double_slash_two_nodes]. *)
Definition plain_name (s : fstate) (p : text) : Prop :=
  ("010"%char ∉ p) ∧
  if decide (head p = Some "#"%char)
  then Top s ≠ root ∨ isabs (lookup_name p) = false
  else startswith (T "//") p = false.

Definition is_dir_node (s : fstate) (n : nat) : Prop :=
  ∃ x, fnodes s !! n = Some x ∧ is_dir (kind x) = true.

Lemma span_all p s : Forall (λ c, p c = true) s → span p s = (s, []).
Proof. induction 1 as [|c s Hc Hs IH]; [done|]. cbn [span]. by rewrite Hc, IH. Qed.

Lemma not_needs_normpath p : ("010"%char ∉ p) → needs_normpath p = false → p ≠ [] → good_name p.
Proof.
  intros Hnl Hn Hp. unfold needs_normpath in Hn. rewrite span_all in Hn.
  2:{ apply Forall_forall. intros c Hc. rewrite bool_decide_eq_true. by intros ->. }
  apply orb_false_iff in Hn as [H1%bool_decide_eq_false H2%bool_decide_eq_false].
  split_and!; [done|done| |]; intros ->; apply H2; [left|right; left].
Qed.

Lemma isabs_cases p : isabs p = bool_decide (head p = Some "/"%char).
Proof.
  destruct p as [|c p]; [done|]. unfold isabs. simpl. rewrite andb_true_r.
  apply bool_decide_ext. split; congruence.
Qed.

(** A path that starts with one slash. *)
Lemma slash_then p : startswith (T "/") p = false → p ≠ [] → initial_slashes ("/"%char :: p) = 1.
Proof.
  intros Hp Hne. destruct p as [|c p]; [done|]. unfold initial_slashes. simpl in *.
  by rewrite andb_true_r in *; rewrite Hp.
Qed.
Lemma one_slash p : isabs p = true → startswith (T "//") p = false → initial_slashes p = 1.
Proof. unfold isabs, initial_slashes. intros -> ->. done. Qed.

(** The label of a directory. *)
Lemma dir_label s d x : tree_inv s → fnodes s !! d = Some x →
  ∃ ws, Forall good_name ws ∧ labspath (fid x) = key_text ws ∧ (ws = [] ↔ d = root).
Proof.
  intros Hs Hx. destruct (decide (d = root)) as [->|Hd].
  - exists []. destruct (ti_root s Hs) as (r & Hr & _ & Hir). assert (x = r) as -> by congruence.
    by rewrite Hir.
  - destruct (labspath_key s d x Hs Hx Hd) as (ws & Hne & Hg & Hl & _). by exists ws.
Qed.

(** The text looked up is a path of names, or is normalised and starts with one
    slash. *)
Lemma lookup_text_ok s p dir : tree_inv s → plain_name s p →
  match dir with Some d => is_dir_node s d | None => True end →
  let q := lookup_text s p dir in
  ok_key (if needs_normpath (lookup_name p) then normpath q else q).
Proof.
  intros Hs [Hnl Hp] Hdir q. subst q. unfold lookup_text.
  set (d := if bool_decide (head p = Some "#"%char) then Top s else default (cwd s) dir).
  assert (is_dir_node s d) as (x & Hx & _).
  { unfold d. case_bool_decide; [apply (ti_top s Hs)|]. destruct dir; [done|apply (ti_cwd s Hs)]. }
  rewrite (lookup_total_correct _ _ _ Hx).
  destruct (dir_label s d x Hs Hx) as (ws & Hws & -> & Hroot).
  assert ("010"%char ∉ lookup_name p) as Hnl'.
  { unfold lookup_name. case_decide; [|done]. destruct p; [done|].
    apply not_elem_of_cons in Hnl as [_ ?]. simpl. by rewrite drop_0. }
  assert (∀ p', p' ≠ [] → ("010"%char ∉ p') → (ws = [] → isabs p' = false) →
    ok_key (if needs_normpath p' then normpath (key_text ws ++ T "/" ++ p')
            else key_text ws ++ T "/" ++ p')) as Hrel.
  { intros p' Hne Hnl2 Habs. destruct (needs_normpath p') eqn:E.
    - apply normpath_ok_key. destruct ws as [|w ws]; [apply slash_then; [by apply Habs|done]|].
      by apply initial_slashes_key.
    - right. exists (ws ++ [p']). split_and!; [by destruct ws| |by rewrite key_text_snoc].
      apply Forall_app. split; [done|]. apply Forall_singleton. by apply not_needs_normpath. }
  assert (ok_key (key_text ws)) as Hlab.
  { destruct ws as [|w ws]; [left; left|right; exists (w :: ws)]; done. }
  destruct (decide (head p = Some "#"%char)) as [Hh|Hh].
  - rewrite bool_decide_eq_true_2 by done. cbn [orb].
    destruct (lookup_name p) as [|c p'] eqn:E; [exact Hlab|]. apply Hrel; [done..|].
    intros Hw. destruct Hp as [Hp|Hp]; [|done]. apply Hroot in Hw. unfold d in Hw.
    by rewrite bool_decide_eq_true_2 in Hw.
  - rewrite bool_decide_eq_false_2 by done. cbn [orb].
    assert (lookup_name p = p) as -> by (unfold lookup_name; by rewrite decide_False).
    destruct (isabs p) eqn:Habs; cbn [negb].
    + destruct (needs_normpath p) eqn:E; [by apply normpath_ok_key, one_slash|].
      exfalso. assert (p ≠ []) as Hne by (by intros ->).
      destruct (not_needs_normpath p Hnl E Hne) as (_ & Hsl & _). apply Hsl.
      rewrite isabs_cases in Habs. apply bool_decide_eq_true in Habs.
      destruct p; [done|]. injection Habs as ->. left.
    + destruct p as [|c p]; [exact Hlab|]. by apply Hrel.
Qed.

Lemma key_text_length ws : Forall good_name ws → length ws ≤ length (key_text ws).
Proof.
  induction 1 as [|w ws _ _ IH]; [done|]. rewrite key_text_cons. simpl. rewrite length_app. lia.
Qed.

(** ** Histories *)

Section history.
Variable stat : text → option ftype.
Variable do_match : bool.
Abbreviation lookup_in := (lookup_in stat do_match).

Definition valid_arg (s : fstate) (a : fs_arg) : Prop :=
  match a with ANode n => is_Some (fnodes s !! n) | AStr p => plain_name s p end.
Definition valid_dir (s : fstate) (dir : option nat) : Prop :=
  match dir with Some d => is_dir_node s d | None => True end.

(** The node a look-up returns. *)
Definition returned (s : fstate) (a : fs_arg) (dir : option nat) (klass : fclass)
    (s' : fstate) (n : nat) : Prop :=
  (∃ y, fnodes s' !! n = Some y ∧ class_ok klass (kind y) = true) ∧
  match a with
  | ANode m => n = m
  | AStr p => lookupDict s' !! lookup_path s p dir = Some n
  end.

Lemma lookup_in_sound s a dir klass create : tree_inv s → valid_arg s a → valid_dir s dir →
  klass ≠ CRoot →
  sound s (lookup_in a dir klass create s) (returned s a dir klass) (refused create).
Proof.
  intros Hs Ha Hd Hk. destruct a as [m|p]; simpl in Ha.
  - destruct Ha as [x Hx]. apply (sound_bind _ _ _ (λ s' _, ∃ y, fnodes s' !! m = Some y ∧
      class_ok klass (kind y) = true)).
    + eapply sound_weaken; [by apply (must_be_same_sound s m x)|done|]. intros e [? _]. by left.
    + intros _ s' Hs' _ Hy. split; [done|split; [reflexivity|]]. by split.
  - assert (ok_key (lookup_path s p dir)) as Hq by (by apply lookup_text_ok).
    unfold FSTree.lookup_in, lookup_abs. destruct Hq as [Hq|(ws & Hne & Hws & Hq)].
    + eapply sound_weaken; [apply (lookup_abs_sound stat do_match _ []); [done..|left]|..].
      * split; [done|lia].
      * intros s' n (H1 & H2 & _). done.
      * done.
    + eapply sound_weaken; [apply (lookup_abs_sound stat do_match _ ws); [done..|right]|..].
      * split_and!; [done..|]. rewrite Hq. pose proof (key_text_length ws Hws). lia.
      * intros s' n (H1 & H2 & _). done.
      * done.
Qed.

Lemma extends_valid s s' a : extends s s' → valid_arg s a → valid_arg s' a.
Proof.
  intros [Hn _ _ Ht]. destruct a as [n|p]; simpl.
  - intros [x Hx]. destruct (Hn n x Hx) as (y & Hy & _). eauto.
  - unfold plain_name. by rewrite Ht.
Qed.
Lemma extends_dir s s' d : extends s s' → is_dir_node s d → is_dir_node s' d.
Proof.
  intros [Hn _ _ _] (x & Hx & Hk). destruct (Hn d x Hx) as (y & Hy & _ & Hl & _). exists y. split; [done|].
  destruct Hl as [<-|E]; [done|]. by rewrite E in Hk.
Qed.

(** The general look-up, whose directory may be a name itself. *)
Lemma _lookup_sound s a dir klass create : tree_inv s → valid_arg s a →
  (∀ d, dir = Some d → valid_arg s d) → klass ≠ CRoot →
  sound s (_lookup stat do_match a dir klass create s)
    (λ s' n, ∃ y, fnodes s' !! n = Some y ∧ class_ok klass (kind y) = true) (refused create).
Proof.
  intros Hs Ha Hdir Hk.
  assert (∀ s' d, tree_inv s' → extends s s' → valid_dir s' d →
    sound s' (lookup_in a d klass create s')
      (λ s' n, ∃ y, fnodes s' !! n = Some y ∧ class_ok klass (kind y) = true) (refused create)) as Hin.
  { intros s' d Hs' He Hd. eapply sound_weaken;
      [apply lookup_in_sound; [done|by eapply extends_valid|done..]|by intros ? ? [? _]|done]. }
  assert (∀ d, valid_arg s d → sound s
    ((let! n := lookup_in d None CDir true in lookup_in a (Some n) klass create)%eff s)
      (λ s' n, ∃ y, fnodes s' !! n = Some y ∧ class_ok klass (kind y) = true) (refused create)) as Hvia.
  { intros d Hd. eapply sound_bind.
    - eapply sound_weaken; [apply lookup_in_sound; done|done|]. intros e [?|[? _]]; [by left|done].
    - intros n s' Hs' He [(y & Hy & Hky) _]. apply Hin; [done..|]. exists y. split; [done|].
      by destruct (kind y). }
  assert (extends s s) as Hrefl by reflexivity.
  assert (∀ n, is_Some (fnodes s !! n) → sound s
    (if is_dir (kind (fnodes s !!! n)) then lookup_in a (Some n) klass create s
     else (let! n := lookup_in (ANode n) None CDir true in lookup_in a (Some n) klass create)%eff s)
      (λ s' n, ∃ y, fnodes s' !! n = Some y ∧ class_ok klass (kind y) = true) (refused create)) as Hnode.
  { intros n [x Hx]. rewrite (lookup_total_correct _ _ _ Hx). destruct (is_dir (kind x)) eqn:Hkx.
    - apply Hin; [done..|]. by exists x.
    - apply Hvia. by exists x. }
  unfold _lookup. destruct a as [m|p]; [by apply (Hin s None)|].
  destruct dir as [d|]; [|by apply (Hin s None)]. specialize (Hdir d eq_refl).
  assert (is_Some (fnodes s !! Top s)) as Htop by (destruct (ti_top s Hs) as (x & Hx & _); eauto).
  destruct d as [d|[|c q]]; [|by apply (Hin s None)|];
    case_bool_decide; (by apply Hnode) || (by apply Hvia).
Qed.

(** A history: look-ups, the check of a node's class, changes of directory. *)
Inductive fs_step : fstate → fstate → Prop :=
| step_lookup s a dir klass create :
    valid_arg s a → (∀ d, dir = Some d → valid_arg s d) → klass ≠ CRoot →
    fs_step s (_lookup stat do_match a dir klass create s).1
| step_chdir s d : is_dir_node s d → fs_step s (fchdir (Some d) s).1.

Lemma chdir_inv s d : tree_inv s → is_dir_node s d →
  tree_inv (fchdir (Some d) s).1 ∧ extends s (fchdir (Some d) s).1.
Proof.
  intros Hs Hd.
  assert (∀ n, option_Forall2 (refines_node n) (fnodes s !! n) (fnodes s !! n)) as Hr.
  { intros n. apply refines_refl. }
  split; [by apply (refines_tree s); [..|apply (ti_top s Hs)|]|].
  apply refines_extends; [done| |done..]. intros n x y E1 E2. cbn in E2.
  assert (y = x) as -> by congruence. apply calm_refl.
Qed.

Lemma fs_step_inv s s' : tree_inv s → fs_step s s' → tree_inv s' ∧ extends s s'.
Proof.
  intros Hs Hst. destruct Hst as [s a dir klass create Ha Hd Hk|s d Hd]; [|by apply chdir_inv].
  by destruct (_lookup_sound s a dir klass create Hs Ha Hd Hk) as (? & ? & _).
Qed.

Lemma history_inv s s' : tree_inv s → rtc fs_step s s' → tree_inv s' ∧ extends s s'.
Proof.
  intros Hs Hst. revert Hs. induction Hst as [s|s s1 s' Hst _ IH]; intros Hs; [done|].
  destruct (fs_step_inv s s1 Hs Hst) as [Hs1 He]. destruct (IH Hs1) as [Hs' He'].
  split; [done|]. by transitivity s1.
Qed.

(** The states of an [FS] object made for an absolute path. *)
Definition reachable (s : fstate) : Prop :=
  ∃ pathTop s0 top, isabs pathTop = true ∧ plain_name root_state pathTop ∧
    FS_init stat do_match pathTop = (s0, Ok top) ∧ rtc fs_step s0 s.

Lemma root_state_inv : tree_inv root_state.
Proof.
  split.
  - exists RootDir_init. done.
  - intros n. unfold root_state. cbn [fnodes]. rewrite map_size_singleton, lookup_singleton. split.
    + intros [x Hx]. case_decide; [|done]. subst. unfold root. lia.
    + intros Hn. assert (n = 0) as -> by lia. by rewrite decide_True.
  - intros p n. unfold root_state, root_keys. cbn [lookupDict fnodes]. split.
    + intros Hp. left. rewrite !lookup_insert, lookup_singleton in Hp. rewrite !elem_of_cons.
      repeat case_decide; simplify_eq; auto.
    + intros [[-> Hp]|[Hn (x & Hx & _)]].
      * rewrite !elem_of_cons in Hp. destruct Hp as [->|[->|[->|Hp]]]; [done..|].
        by apply elem_of_nil in Hp.
      * rewrite lookup_singleton_ne in Hx by done. done.
  - intros n x Hx Hn. unfold root_state in Hx. cbn [fnodes] in Hx.
    by rewrite lookup_singleton_ne in Hx.
  - intros n x Hx _. unfold root_state in Hx. cbn [fnodes] in Hx.
    apply lookup_singleton_Some in Hx as [<- <-]. split; [done..|].
    intros w m. cbn. rewrite !lookup_insert. repeat case_decide; by eauto.
  - by exists RootDir_init.
  - by exists RootDir_init.
Qed.

(** The state that [FS.__init__] leaves: look-ups from the root alone, and [Top]
    and [_cwd]. *)
Lemma FS_init_inv p s0 top : plain_name root_state p →
  FS_init stat do_match p = (s0, Ok top) →
  tree_inv s0 ∧ ∃ s1, tree_inv s1 ∧ extends root_state s1 ∧ fnodes s0 = fnodes s1.
Proof.
  intros Hp Hi. unfold FS_init in Hi.
  destruct (_lookup_sound root_state (AStr p) None CDir true root_state_inv Hp ltac:(done) ltac:(done))
    as (Hs1 & He & Hr).
  unfold ebind at 1 in Hi. unfold FS_Dir in Hi.
  destruct (_lookup stat do_match (AStr p) None CDir true root_state) as [s1 [t|e]]; [|done].
  simpl in Hs1, He, Hr. destruct Hr as (y & Hy & Hky). injection Hi as <- _.
  set (f := λ x, with_tpath (T ".") (with_fpath (T ".") x)).
  assert (∀ x, refines_node t x (f x) ∧ calm_node x (f x)) as Hf.
  { intros x. split; [split; [done|by left|]|by split; left]. intros H.
    change (is_dir (kind x) = true) in H. by rewrite H. }
  assert (tree_inv (upd t f s1)) as Hs2 by (apply upd_tree; [done|]; intros x _; apply Hf).
  assert (is_dir_node (upd t f s1) t) as Ht.
  { exists (f y). rewrite lookup_upd, decide_True, Hy by done. split; [done|]. by destruct y as [[]]. }
  split.
  - apply (refines_tree (upd t f s1)); [done| |done|done|done]. intros n. apply refines_refl.
  - exists (upd t f s1). split_and!; [done| |done]. transitivity s1; [done|]. by apply upd_extends.
Qed.

Lemma reachable_inv s : reachable s → tree_inv s.
Proof.
  intros (p & s0 & top & Habs & Hp & Hi & Hst). eapply history_inv; [|exact Hst].
  by eapply FS_init_inv.
Qed.

(** ** One node for each path *)

Definition same_path (p q : text) : Prop := p = q ∨ (p ∈ root_keys ∧ q ∈ root_keys).

Lemma keys_same s p q n m : tree_inv s → lookupDict s !! p = Some n → lookupDict s !! q = Some m →
  n = m ↔ same_path p q.
Proof.
  intros Hs Hp Hq. split.
  - intros <-. apply (ti_keys s Hs) in Hp as [[-> Hp]|[Hn (x & Hx & ->)]],
      Hq as [[Hr Hq]|[Hm (y & Hy & ->)]]; try done; [by right|]. left. congruence.
  - intros [<-|[H1 H2]]; [congruence|].
    rewrite (lookup_root s p Hs H1) in Hp. rewrite (lookup_root s q Hs H2) in Hq. congruence.
Qed.

(** C31: whatever was looked up before and in between, two names lead to the same
    node exactly if they stand for the same absolute path; and looking up a name
    never runs out of fuel. *)
Theorem one_node_per_path s s1 s2 s3 p q d e klass klass' create create' n m
    (Hs : reachable s)
    (Hp : plain_name s p) (Hd : valid_dir s d) (Hk : klass ≠ CRoot)
    (Hn : lookup_in (AStr p) d klass create s = (s1, Ok n))
    (Hrun : rtc fs_step s1 s2)
    (Hq : plain_name s2 q) (He : valid_dir s2 e) (Hk' : klass' ≠ CRoot)
    (Hm : lookup_in (AStr q) e klass' create' s2 = (s3, Ok m)) :
  n = m ↔ same_path (lookup_path s p d) (lookup_path s2 q e).
Proof.
  apply reachable_inv in Hs.
  destruct (lookup_in_sound s (AStr p) d klass create Hs Hp Hd Hk) as (Hs1 & _ & Hr1).
  rewrite Hn in *. destruct Hr1 as [_ Hr1]. cbn [fst snd] in *.
  destruct (history_inv s1 s2 Hs1 Hrun) as [Hs2 Hx2].
  destruct (lookup_in_sound s2 (AStr q) e klass' create' Hs2 Hq He Hk') as (Hs3 & Hx3 & Hr3).
  rewrite Hm in *. destruct Hr3 as [_ Hr3]. cbn [fst snd] in *.
  apply (keys_same s3); [done| |done]. apply (ex_keys _ _ Hx3), (ex_keys _ _ Hx2), Hr1.
Qed.

Lemma class_ok_le klass k k' : class_ok klass k = true → class_le k k' → class_ok klass k' = true.
Proof. intros Hk [<- | ->]; [done|]. by destruct klass. Qed.

(** The result for a path that has a node. *)
Lemma lookup_existing s p d klass create n x : tree_inv s → klass ≠ CRoot →
  lookupDict s !! lookup_path s p d = Some n → fnodes s !! n = Some x →
  lookup_in (AStr p) d klass create s =
    if decide (kind x = CEntry) then
      (if decide (klass = CEntry) then s else upd n (λ x, fclear (fmorph n (with_kind klass x))) s,
       Ok n)
    else if class_ok klass (kind x) then (s, Ok n)
    else (s, Raise (Some (ExOther "TypeError" ""))).
Proof.
  intros Hs Hk Hn Hx. unfold FSTree.lookup_in, lookup_abs. cbn [_lookup_abs]. rewrite Hn.
  unfold ebind, must_be_same. rewrite (lookup_total_correct _ _ _ Hx).
  destruct (kind x), klass; try done.
Qed.

(** C32: a node that was looked up as a file or as a directory is one from then
    on, whatever is looked up later, and a look-up of its path as the other
    class raises a [TypeError] and changes nothing. *)
Theorem class_is_kept s s1 s2 p q d e klass klass' create create' n
    (Hs : reachable s) (Hp : plain_name s p) (Hd : valid_dir s d)
    (Hk : klass = CFile ∨ klass = CDir) (Hk' : klass' = CFile ∨ klass' = CDir)
    (Hn : lookup_in (AStr p) d klass create s = (s1, Ok n))
    (Hrun : rtc fs_step s1 s2)
    (Hq : lookup_path s2 q e = lookup_path s p d) :
  (∃ z, fnodes s2 !! n = Some z ∧ isinstance (kind z) klass = true) ∧
  lookup_in (AStr q) e klass' create' s2 =
    if decide (klass' = klass) then (s2, Ok n)
    else (s2, Raise (Some (ExOther "TypeError" ""))).
Proof.
  apply reachable_inv in Hs. assert (klass ≠ CRoot) as Hroot by (by destruct Hk as [-> | ->]).
  destruct (lookup_in_sound s (AStr p) d klass create Hs Hp Hd Hroot) as (Hs1 & _ & Hr).
  rewrite Hn in *. destruct Hr as [(y & Hy & Hky) Hkey]. cbn [fst snd] in *.
  destruct (history_inv s1 s2 Hs1 Hrun) as [Hs2 Hx].
  destruct (ex_nodes _ _ Hx n y Hy) as (z & Hz & _ & Hle & _).
  pose proof (class_ok_le _ _ _ Hky Hle) as Hkz.
  assert (isinstance (kind z) klass = true) as Hinst.
  { unfold class_ok in Hkz. rewrite bool_decide_eq_false_2 in Hkz; [done|]. by destruct Hk as [-> | ->]. }
  split; [by exists z|].
  assert (klass' ≠ CRoot) as Hroot' by (by destruct Hk' as [-> | ->]).
  assert (lookupDict s2 !! lookup_path s2 q e = Some n) as Hkey2.
  { rewrite Hq. by apply (ex_keys _ _ Hx). }
  pose proof (lookup_existing s2 q e klass' create' n z Hs2 Hroot' Hkey2 Hz) as H.
  by destruct Hk as [-> | ->], Hk' as [-> | ->], (kind z).
Qed.

(** ** Paths between nodes *)

Lemma index_of_Some x l i : index_of x l = Some i → l !! i = Some x.
Proof.
  revert i. induction l as [|y l IH]; intros i; simpl; [done|]. case_decide as Hy.
  - intros [= <-]. by rewrite Hy.
  - intros (j & Hj & ->)%fmap_Some. by apply IH.
Qed.
Lemma index_of_None x l : index_of x l = None → x ∉ l.
Proof.
  induction l as [|y l IH]; simpl; [intros _; apply not_elem_of_nil|]. case_decide as Hy; [done|].
  intros H%fmap_None. apply not_elem_of_cons. split; [congruence|by apply IH].
Qed.

Lemma join_snoc sep l w : l ≠ [] → join sep (l ++ [w]) = join sep l ++ sep ++ w.
Proof.
  induction l as [|v l IH]; [done|]. intros _. destruct l as [|v' l]; [done|].
  change ((v :: v' :: l) ++ [w]) with (v :: ((v' :: l) ++ [w])).
  rewrite join_cons, IH, (join_cons sep v (v' :: l)) by done.
  by rewrite <- !app_assoc.
Qed.

Lemma join_not_dot l : Forall (λ w, w = T ".." ∨ good_name w) l → l ≠ [] → join (T "/") l ≠ T ".".
Proof.
  intros Hl Hne. destruct Hl as [|w l Hw Hl]; [done|]. destruct l as [|w' l].
  - simpl. destruct Hw as [->|(_ & _ & ? & _)]; done.
  - rewrite join_cons by done. intros E. assert ("/"%char ∈ T ".") as Hin.
    { rewrite <- E. rewrite !elem_of_app. right. left. left. }
    by apply list_elem_of_singleton in Hin.
Qed.

(** What [rel_path] gives: up to a common directory and down again. *)
Lemma rel_path_spec s d m x y : tree_inv s → fnodes s !! d = Some x → fnodes s !! m = Some y →
  ∃ P A B r, path_elements (fid x) = P ++ A ∧ path_elements (fid y) = P ++ B ∧ P ≠ [] ∧
    rel_path s d m = Some r ∧
    r = (match A, B with [], [] => T "." | _, _ =>
           join (T "/") (replicate (length A) (T "..") ++ names_of s B) end).
Proof.
  intros Hs Hx. unfold rel_path.
  destruct (node_elements s Hs d x Hx) as (l & Hpl & Hgl & _ & Hlast & Hel).
  enough (∀ f m y, fnodes s !! m = Some y → length (path_elements (fid y)) < f →
    ∃ P A B r, path_elements (fid x) = P ++ A ∧ path_elements (fid y) = P ++ B ∧ P ≠ [] ∧
    rel_path_loop f s d m = Some r ∧
    r = (match A, B with [], [] => T "." | _, _ =>
           join (T "/") (replicate (length A) (T "..") ++ names_of s B) end)) as H.
  { intros Hy. rewrite (lookup_total_correct _ _ _ Hy). apply H; [done|lia]. }
  clear m y. induction f as [|f IH]; intros m y Hy Hf; [lia|].
  cbn [rel_path_loop]. rewrite (lookup_total_correct _ _ _ Hx), (lookup_total_correct _ _ _ Hy).
  case_decide as Hdm.
  { subst m. assert (y = x) as -> by congruence.
    exists (path_elements (fid x)), [], [], (T "."). rewrite !app_nil_r, Hpl. by split_and!. }
  destruct (index_of m (path_elements (fid x))) as [i|] eqn:Hi.
  - apply index_of_Some in Hi. rewrite Hpl in Hi.
    destruct (Hel i m Hi) as (y' & Hy' & Hpy & _). assert (y' = y) as -> by congruence.
    exists (take (S i) (root :: l)), (drop (S i) (root :: l)), []. eexists.
    rewrite Hpl, take_drop, Hpy, app_nil_r. split_and!; [done..|].
    assert (length (drop (S i) (root :: l)) ≠ 0) as Hne.
    { rewrite length_drop. apply lookup_lt_Some in Hi as Hlt.
      intros E. assert (S i = length (root :: l)) as El by lia.
      rewrite last_lookup, <- El in Hlast. simpl in Hlast. congruence. }
    replace (i + 1) with (S i) by lia. rewrite <- length_drop.
    rewrite (drop_ge (take _ _)) by (rewrite length_take; lia).
    by destruct (drop (S i) (root :: l)).
  - apply index_of_None in Hi. assert (m ≠ root) as Hm.
    { intros ->. apply Hi. rewrite Hpl. left. }
    rewrite decide_False by (intros Hk; by apply (kind_root s Hs m y Hy) in Hk).
    destruct (node_parent s Hs m y Hy Hm) as (e & _ & He & _ & Hpe & _ & Hg).
    destruct (IH _ e He) as (P & A & B & r & HA & HB & HP & Hr & Er).
    { rewrite Hpe, length_app in Hf. simpl in Hf. lia. }
    exists P, A, (B ++ [m]). rewrite Hr. eexists. split_and!; [done| |done|reflexivity|].
    { by rewrite Hpe, HB, <- app_assoc. }
    assert (names_of s (B ++ [m]) = names_of s B ++ [fname (fid y)]) as Hn.
    { unfold names_of. rewrite map_app. simpl. by rewrite (lookup_total_correct _ _ _ Hy). }
    rewrite Hn.
    assert (r = T "." ↔ A = [] ∧ B = []) as Hdot.
    { destruct (node_elements s Hs _ e He) as (l' & Hpl' & Hg' & _).
      assert (Forall good_name (names_of s B)) as HgB.
      { destruct P as [|p0 P]; [done|]. rewrite Hpl' in HB. injection HB as _ HB.
        rewrite HB in Hg'. unfold names_of in *. rewrite map_app in Hg'. by apply Forall_app in Hg' as [_ ?]. }
      split; [|by intros [-> ->]]. destruct A as [|a A], B as [|b B]; try done; intros E; exfalso;
        rewrite Er in E; revert E; apply join_not_dot; try done; apply Forall_app;
        (split; [apply Forall_replicate; by left|eapply Forall_impl; [exact HgB|intros ? ?; by right]]). }
    case_decide as Hd.
    + destruct (proj1 Hdot Hd) as [-> ->]. done.
    + assert (replicate (length A) (T "..") ++ names_of s B ≠ []) as Hne.
      { intros E. apply Hd, Hdot. destruct A, B; done. }
      transitivity (join (T "/") ((replicate (length A) (T "..") ++ names_of s B) ++ [fname (fid y)]));
        [|rewrite <- app_assoc; by destruct A, B].
      rewrite join_snoc by done. destruct A, B; try done; by rewrite Er.
Qed.

(** The key of the names from the root. *)
Definition key_of (ws : list text) : text := match ws with [] => T "/" | _ => key_text ws end.

Lemma node_key s m y l : tree_inv s → fnodes s !! m = Some y → path_elements (fid y) = root :: l →
  lookupDict s !! key_of (names_of s l) = Some m.
Proof.
  intros Hs Hy Hl. destruct (node_elements s Hs m y Hy) as (l' & Hl' & _ & Hlab & Hlast & _).
  assert (l' = l) as -> by congruence. apply (ti_keys s Hs). destruct l as [|a l].
  - left. injection Hlast as <-. split; [done|]. right. left.
  - destruct (decide (m = root)) as [->|Hm].
    { destruct (ti_root s Hs) as (r & Hr & _ & Hi). assert (y = r) as -> by congruence.
      by rewrite Hi in Hl. }
    right. split; [done|]. exists y. split; [done|]. by rewrite Hlab.
Qed.

Lemma lookup_key s r d m create : tree_inv s → lookupDict s !! lookup_path s r d = Some m →
  lookup_in (AStr r) d CEntry create s = (s, Ok m).
Proof.
  intros Hs Hm. assert (∃ x, fnodes s !! m = Some x) as [x Hx].
  { apply (ti_keys s Hs) in Hm as H. destruct H as [[-> _]|[_ (x & Hx & _)]]; [|by exists x].
    destruct (ti_root s Hs) as (r' & Hr & _). by exists r'. }
  rewrite (lookup_existing s r d CEntry create m x Hs ltac:(done) Hm Hx).
  case_decide; [done|]. by destruct (kind x).
Qed.

(** Going up and down again, in text. *)
Lemma normpath_walk ws1 ws2 v : Forall good_name (ws1 ++ ws2) → Forall good_name v →
  replicate (length ws2) (T "..") ++ v ≠ [] →
  normpath (key_text (ws1 ++ ws2) ++ T "/" ++ join (T "/") (replicate (length ws2) (T "..") ++ v)) =
  key_of (ws1 ++ v).
Proof.
  intros Hws Hv Hne. rewrite normpath_absolute.
  - change (T "/") with ["/"%char]. change (["/"%char] ++ ?t) with ("/"%char :: t).
    rewrite split_key_text by done. rewrite split_join; [|done|].
    + cbn [foldl]. change (norm_step true [] []) with (@nil text). rewrite foldl_app.
      rewrite (norm_names [] (ws1 ++ ws2)) by done. cbn [app].
      apply Forall_app in Hws as [_ Hws2]. rewrite foldl_app, norm_ups, norm_names by done.
      by destruct (ws1 ++ v).
    + apply Forall_app. split; [apply Forall_replicate; by apply (bool_decide_unpack _)|].
      eapply Forall_impl; [exact Hv|]. by intros w (_ & ? & _).
  - destruct (decide (ws1 ++ ws2 = [])) as [E|E]; [|by apply initial_slashes_key].
    rewrite E. apply app_eq_nil in E as [-> ->]. cbn [length replicate app] in *.
    change (key_text [] ++ T "/" ++ join (T "/") v) with ("/"%char :: join (T "/") v).
    rewrite join_key by done. rewrite <- (app_nil_r (key_text v)). by apply initial_slashes_key.
Qed.

Lemma lookup_relative s d x r ws : fnodes s !! d = Some x → labspath (fid x) = key_text ws →
  head r ≠ Some "#"%char → isabs r = false → r ≠ [] →
  lookup_path s r (Some d) =
    (if needs_normpath r then normpath (key_text ws ++ T "/" ++ r) else key_text ws ++ T "/" ++ r).
Proof.
  intros Hx Hl Hh Ha Hr. unfold lookup_path, lookup_text, lookup_name.
  rewrite bool_decide_eq_false_2, decide_False by done. cbn [orb]. rewrite Ha. cbn [negb default].
  rewrite (lookup_total_correct _ _ _ Hx), Hl. by destruct r.
Qed.

Lemma isabs_join l : Forall (λ w, w = T ".." ∨ good_name w) l → isabs (join (T "/") l) = false.
Proof.
  intros Hl. destruct Hl as [|w l Hw _]; [done|]. rewrite isabs_cases. apply bool_decide_eq_false_2.
  assert (∃ c w', w = c :: w' ∧ c ≠ "/"%char) as (c & w' & -> & Hc).
  { destruct Hw as [->|(Hne & Hs & _)]; [by eexists _, _|]. destruct w as [|c w]; [done|].
    exists c, w. split; [done|]. intros ->. apply Hs. left. }
  destruct l; simpl; congruence.
Qed.

Lemma needs_normpath_up n v : needs_normpath (join (T "/") (replicate (S n) (T "..") ++ v)) = true.
Proof.
  cbn [replicate app]. destruct (replicate n (T "..") ++ v) as [|w l]; [done|].
  rewrite join_cons by done. unfold needs_normpath. apply orb_true_intro. left.
  apply bool_decide_eq_true_2. cbn. destruct (span _ _). right. right. left.
Qed.

(** The look-up of a path up from a directory and down again. *)
Lemma lookup_walk s d x m y P A B : tree_inv s → fnodes s !! d = Some x → fnodes s !! m = Some y →
  path_elements (fid x) = root :: P ++ A → path_elements (fid y) = root :: P ++ B →
  replicate (length A) (T "..") ++ names_of s B ≠ [] →
  let r := join (T "/") (replicate (length A) (T "..") ++ names_of s B) in
  head r ≠ Some "#"%char → lookupDict s !! lookup_path s r (Some d) = Some m.
Proof.
  intros Hs Hx Hy HA HB Hne r Hh.
  destruct (node_elements s Hs d x Hx) as (l & Hl & Hgl & Hlab & _).
  destruct (node_elements s Hs m y Hy) as (l' & Hl' & Hgl' & _).
  rewrite HA in Hl. rewrite HB in Hl'. injection Hl as <-. injection Hl' as <-.
  unfold names_of in Hgl, Hgl', Hlab, Hne. rewrite map_app in Hgl, Hgl', Hlab.
  fold (names_of s P) (names_of s A) (names_of s B) in *.
  apply Forall_app in Hgl' as [HgP HgB].
  assert (length A = length (names_of s A)) as Hlen by (unfold names_of; by rewrite length_map).
  assert (Forall (λ w, w = T ".." ∨ good_name w) (replicate (length A) (T "..") ++ names_of s B)) as Hall.
  { apply Forall_app. split; [apply Forall_replicate; by left|].
    eapply Forall_impl; [exact HgB|]. intros ? ?. by right. }
  assert (r ≠ []) as Hr.
  { unfold r. destruct Hall as [|w v Hw _]; [done|]. assert (w ≠ []) by (destruct Hw as [->|[? _]]; done).
    destruct v; [done|]. rewrite join_cons by done. by destruct w. }
  rewrite (lookup_relative s d x r _ Hx Hlab Hh (isabs_join _ Hall) Hr).
  assert (lookupDict s !! key_of (names_of s P ++ names_of s B) = Some m) as Hkey.
  { pose proof (node_key s m y (P ++ B) Hs Hy HB) as Hk. unfold names_of in Hk.
    rewrite map_app in Hk. exact Hk. }
  destruct (needs_normpath r) eqn:E.
  - unfold r. rewrite Hlen in *. by rewrite normpath_walk.
  - destruct A as [|a A]; [|unfold r in E; cbn [length] in E; by rewrite needs_normpath_up in E].
    cbn in Hne. rewrite app_nil_r. change (T "/" ++ r) with ("/"%char :: r). unfold r. cbn [length replicate app].
    rewrite join_key, <- key_text_app by done.
    by destruct (names_of s P), (names_of s B).
Qed.

Lemma dir_names_good s m y l : tree_inv s → fnodes s !! m = Some y →
  path_elements (fid y) = root :: l → Forall good_name (names_of s l).
Proof.
  intros Hs Hy Hl. destruct (node_elements s Hs m y Hy) as (l' & Hl' & Hg & _). congruence.
Qed.

(** [.] is the directory itself. *)
Lemma lookup_dot s d x : tree_inv s → fnodes s !! d = Some x →
  lookupDict s !! lookup_path s (T ".") (Some d) = Some d.
Proof.
  intros Hs Hx. destruct (node_elements s Hs d x Hx) as (l & Hl & Hg & Hlab & _).
  rewrite (lookup_relative s d x (T ".") _ Hx Hlab) by done.
  change (needs_normpath (T ".")) with true. cbn iota. rewrite normpath_absolute.
  - change (T "/" ++ T ".") with ("/"%char :: T "."). rewrite split_key_text by done.
    change (split "/"%char (T ".")) with [T "."]. cbn [foldl]. rewrite foldl_app.
    change (norm_step true [] []) with (@nil text). rewrite (norm_names [] (names_of s l)) by done. cbn [foldl app].
    replace (norm_step true (names_of s l) (T ".")) with (names_of s l) by done.
    pose proof (node_key s d x l Hs Hx Hl) as Hk. by destruct (names_of s l).
  - destruct (decide (names_of s l = [])) as [->|Hne]; [done|by apply initial_slashes_key].
Qed.

(** An absolute path is looked up as it is. *)
Lemma lookup_absolute s ws d : Forall good_name ws → ws ≠ [] →
  lookup_path s (key_text ws) d = key_text ws.
Proof.
  intros Hg Hne. assert (normpath (key_text ws) = key_text ws) as Hn.
  { pose proof (initial_slashes_key ws [] Hne Hg) as Hi. rewrite app_nil_r in Hi.
    destruct ws as [|w ws _] using rev_ind; [done|]. apply Forall_app in Hg as [Hg Hw].
    rewrite Forall_singleton in Hw.
    rewrite normpath_absolute by done. rewrite key_text_snoc, split_key_text by done.
    rewrite split_no_sep by apply Hw. cbn [foldl]. change (norm_step true [] []) with (@nil text).
    rewrite foldl_app, (norm_names [] ws) by done. cbn [foldl app]. rewrite norm_step_name by done.
    rewrite <- key_text_snoc. by destruct ws. }
  destruct ws as [|w ws]; [done|]. unfold lookup_path, lookup_text, lookup_name.
  rewrite key_text_cons in *. cbn [head]. rewrite bool_decide_eq_false_2, decide_False by done.
  cbn [orb]. rewrite isabs_cases. cbn [head]. rewrite bool_decide_eq_true_2 by done. cbn [negb].
  by destruct (needs_normpath _).
Qed.

(** The empty path is the directory itself. *)
Lemma lookup_empty s d x : tree_inv s → fnodes s !! d = Some x → d ≠ root →
  lookupDict s !! lookup_path s [] (Some d) = Some d.
Proof.
  intros Hs Hx Hd. destruct (node_elements s Hs d x Hx) as (l & Hl & Hg & Hlab & Hlast & _).
  change (lookup_path s [] (Some d)) with (labspath (fid (fnodes s !!! d))).
  rewrite (lookup_total_correct _ _ _ Hx), Hlab. pose proof (node_key s d x l Hs Hx Hl) as Hk.
  destruct l as [|n l]; [by injection Hlast as <-|]. exact Hk.
Qed.

(** C33: after any look-ups, the path that [rel_path] makes from a directory to a
    node leads back to the node, and so does the path that [get_path] makes, when
    it is looked up from the directory, and looking it up changes nothing.  Two
    exceptions: a path whose first character is [#], which is looked up from the
    top; and the root, for which [get_path] from another directory gives the
    empty path, which leads to that directory. *)
Theorem paths_lead_back s d m x y
    (Hs : reachable s) (Hx : fnodes s !! d = Some x) (Hy : fnodes s !! m = Some y) :
  (∃ r, rel_path s d m = Some r ∧ (head r ≠ Some "#"%char → ∀ create,
     lookup_in (AStr r) (Some d) CEntry create s = (s, Ok m))) ∧
  let g := get_path s m (Some d) in
  if decide (m = root ∧ d ≠ root)
  then g = [] ∧ ∀ create, lookup_in (AStr g) (Some d) CEntry create s = (s, Ok d)
  else head g ≠ Some "#"%char → ∀ create, lookup_in (AStr g) (Some d) CEntry create s = (s, Ok m).
Proof.
  apply reachable_inv in Hs.
  destruct (node_elements s Hs d x Hx) as (l & Hl & Hgl & Hlab & Hlast & Hel).
  destruct (node_elements s Hs m y Hy) as (l' & Hl' & Hgl' & Hlab' & Hlast' & Hel'). split.
  - destruct (rel_path_spec s d m x y Hs Hx Hy) as (P & A & B & r & HA & HB & HP & Hr & Er).
    exists r. split; [done|]. intros Hh create. apply lookup_key; [done|]. destruct P as [|p P]; [done|].
    assert (p = root) as -> by (rewrite Hl in HA; by injection HA).
    destruct (decide (A = [] ∧ B = [])) as [[-> ->]|Hne].
    + rewrite Er. rewrite !app_nil_r in *.
      assert (m = d) as ->; [|by eapply lookup_dot]. rewrite Hl in HA. rewrite Hl' in HB.
      assert (l = P) as E1 by congruence. assert (l' = P) as E2 by congruence. congruence.
    + assert (r = join (T "/") (replicate (length A) (T "..") ++ names_of s B)) as Er'.
      { destruct A, B; try done. by destruct Hne. }
      rewrite Er'. eapply lookup_walk; [done..| |by rewrite <- Er'].
      intros E. apply Hne. destruct A, B; done.
  - cbv zeta. case_decide as Hmr.
    { assert (get_path s m (Some d) = []) as ->; [|split; [done|]; intros create;
        apply lookup_key; [done|]; by eapply lookup_empty; [..|apply Hmr]]. destruct Hmr as [-> Hd].
      unfold get_path. change (default (cwd s) (Some d)) with d. rewrite decide_False by done.
      destruct (ti_root s Hs) as (r & Hr & _ & Hir). rewrite (lookup_total_correct _ _ _ Hr), Hir.
      cbn [path_elements index_of]. rewrite decide_False by done. cbn [fmap option_fmap option_map].
      unfold names_of. cbn [map]. by rewrite (lookup_total_correct _ _ _ Hr), Hir. }
    intros Hh create. apply lookup_key; [done|]. revert Hh. unfold get_path.
    change (default (cwd s) (Some d)) with d. case_decide as Hmd.
    { subst m. intros _. by eapply lookup_dot. }
    rewrite (lookup_total_correct _ _ _ Hy), Hl'.
    destruct (index_of d (root :: l')) as [i|] eqn:Hi; intros Hh.
    + apply index_of_Some in Hi. destruct (Hel' i d Hi) as (x' & Hx' & Hpx & _).
      assert (x' = x) as -> by congruence. replace (i + 1) with (S i) in * by lia.
      rewrite Hl in Hpx. change (take (S i) (root :: l')) with (root :: take i l') in Hpx.
      change (drop (S i) (root :: l')) with (drop i l') in *.
      assert (l = take i l') as El by congruence.
      apply (lookup_walk s d x m y l [] (drop i l')); [done..| | | |done].
      * by rewrite app_nil_r.
      * by rewrite Hl', El, take_drop.
      * cbn [length replicate app]. intros E. assert (drop i l' = []) as E2 by (by destruct (drop i l')).
        apply Hmd. assert (l = l') as ->; [|congruence].
        rewrite El. rewrite <- (take_drop i l') at 2. by rewrite E2, app_nil_r.
    + destruct (decide (l' = [])) as [->|Hne].
      { destruct Hmr. injection Hlast' as <-. by split; [|intros ->]. }
      assert (names_of s (root :: l') = [] :: names_of s l') as ->.
      { destruct (ti_root s Hs) as (r & Hr & _ & Hir). unfold names_of. cbn [map].
        by rewrite (lookup_total_correct _ _ _ Hr), Hir. }
      assert (names_of s l' ≠ []) as Hne' by (by destruct l').
      rewrite join_cons by done. change (T "/" ++ join (T "/") ?l) with ("/"%char :: join (T "/") l).
      cbn [app]. rewrite join_key by done. rewrite lookup_absolute by done.
      pose proof (node_key s m y l' Hs Hy Hl') as Hk. by destruct (names_of s l').
Qed.
End history.

(** ** Witnesses *)

Definition ex_s0 : fstate := (FS_init ex_stat true (T "/w")).1.
Definition ex_s1 : fstate :=
  (lookup_in ex_stat true (AStr (T "src/../src/a.c")) None CFile true ex_s0).1.
Definition ex_s2 : fstate := (lookup_in ex_stat true (AStr (T "#/src/./a.c")) None CEntry false ex_s1).1.

Lemma ex_reachable : reachable ex_stat true ex_s0.
Proof.
  exists (T "/w"), ex_s0, 1. split_and!; [done| |by vm_compute|apply rtc_refl].
  split; [apply (bool_decide_unpack _); done|done].
Qed.

Lemma ex_plain s p : Top s ≠ root → ("010"%char ∉ p) → startswith (T "//") p = false → plain_name s p.
Proof. intros Ht Hn Hp. split; [done|]. case_decide; [by left|done]. Qed.

Lemma one_node_per_path_witness :
  3 = 3 ↔ same_path (lookup_path ex_s0 (T "src/../src/a.c") None)
                    (lookup_path ex_s1 (T "#/src/./a.c") None).
Proof.
  apply (one_node_per_path ex_stat true ex_s0 ex_s1 ex_s1 ex_s2 (T "src/../src/a.c")
    (T "#/src/./a.c") None None CFile CEntry true false).
  - exact ex_reachable.
  - apply ex_plain; [by vm_compute|by apply (bool_decide_unpack _)|done].
  - done.
  - done.
  - by vm_compute.
  - apply rtc_refl.
  - apply ex_plain; [by vm_compute|by apply (bool_decide_unpack _)|done].
  - done.
  - done.
  - by vm_compute.
Defined.

Lemma class_is_kept_witness :
  (∃ z, fnodes ex_s1 !! 3 = Some z ∧ isinstance (kind z) CFile = true) ∧
  lookup_in ex_stat true (AStr (T "/w/src/a.c")) None CDir true ex_s1 =
    if decide (CDir = CFile) then (ex_s1, Ok 3)
    else (ex_s1, Raise (Some (ExOther "TypeError" ""))).
Proof.
  apply (class_is_kept ex_stat true ex_s0 ex_s1 ex_s1 (T "src/../src/a.c") (T "/w/src/a.c") None None
    CFile CDir true true 3).
  - exact ex_reachable.
  - apply ex_plain; [by vm_compute|by apply (bool_decide_unpack _)|done].
  - done.
  - by left.
  - by right.
  - by vm_compute.
  - apply rtc_refl.
  - by vm_compute.
Defined.

(** From [/w/src/a.c] to [/w] and back. *)
Lemma ex_reachable1 : reachable ex_stat true ex_s1.
Proof.
  destruct ex_reachable as (p & s0 & top & Hp & Hi & E & Hr). exists p, s0, top.
  split_and!; [done..|]. eapply rtc_r; [exact Hr|].
  apply (step_lookup _ _ _ (AStr (T "src/../src/a.c")) None CFile true); [|done|done].
  apply ex_plain; [by vm_compute|by apply (bool_decide_unpack _)|done].
Qed.

Lemma paths_lead_back_witness :
  get_path ex_s1 3 (Some 1) = T "src/a.c" ∧
  lookup_in ex_stat true (AStr (get_path ex_s1 3 (Some 1))) (Some 1) CEntry false ex_s1 = (ex_s1, Ok 3) ∧
  rel_path ex_s1 2 1 = Some (T "..") ∧
  lookup_in ex_stat true (AStr (T "..")) (Some 2) CEntry false ex_s1 = (ex_s1, Ok 1).
Proof.
  destruct (paths_lead_back ex_stat true ex_s1 1 3 (fnodes ex_s1 !!! 1) (fnodes ex_s1 !!! 3)
    ex_reachable1 ltac:(by vm_compute) ltac:(by vm_compute)) as [_ Hg].
  destruct (paths_lead_back ex_stat true ex_s1 2 1 (fnodes ex_s1 !!! 2) (fnodes ex_s1 !!! 1)
    ex_reachable1 ltac:(by vm_compute) ltac:(by vm_compute)) as [(r & Er & Hr) _].
  assert (rel_path ex_s1 2 1 = Some (T "..")) as Er2 by (vm_compute; reflexivity).
  split; [vm_compute; reflexivity|]. split; [|split; [exact Er2|]].
  - cbv zeta in Hg. rewrite decide_False in Hg by (intros [? _]; discriminate).
    apply Hg. vm_compute. discriminate.
  - rewrite Er2 in Er. injection Er as <-. apply Hr. vm_compute. discriminate.
Defined.

(** POSIX keeps two slashes at the start of a path, and only the root is in the
    table with two: [/x] and [//x] are two nodes with the same paths. *)
Theorem double_slash_two_nodes :
  let s1 := lookup_in ex_stat true (AStr (T "/x")) None CFile true ex_s0 in
  let s2 := lookup_in ex_stat true (AStr (T "//x")) None CFile true s1.1 in
  s1.2 = Ok 2 ∧ s2.2 = Ok 3 ∧
  abspath (fid (fnodes s2.1 !!! 2)) = abspath (fid (fnodes s2.1 !!! 3)).
Proof. vm_compute. done. Qed.
