(* ===== verification/FSVariant.v ===== *)
(** * Variant directories and repositories ([SCons/Node/FS.py])

    A directory can stand for a source directory ([VariantDir]) and be backed by
    repositories ([Repository]); this file has the methods that find the
    corresponding nodes and the caches they keep. *)

From S2P Require Import Prelude Errors PyStr FSTree.
Open Scope nat_scope.

Definition with_srcdir (o : option nat) (x : fnode) : fnode :=
  with_ddata (DirData (entries (ddata x)) o (repositories (ddata x)) (variant_dirs (ddata x))) x.
Definition with_repositories (l : list nat) (x : fnode) : fnode :=
  with_ddata (DirData (entries (ddata x)) (srcdir (ddata x)) l (variant_dirs (ddata x))) x.
Definition with_variant_dirs (l : list nat) (x : fnode) : fnode :=
  with_ddata (DirData (entries (ddata x)) (srcdir (ddata x)) (repositories (ddata x)) l) x.
Definition with_memo_rdirs (l : list nat) (x : fnode) : fnode :=
  with_fmemos (FMemo (Some l) (memo_srcdirs (fmemos x))) x.
Definition with_memo_srcdirs (l : list nat) (x : fnode) : fnode :=
  with_fmemos (FMemo (memo_rdirs (fmemos x)) (Some l)) x.

(** [os.path.join] of two *)
Definition os_path_join (a b : text) : text :=
  if isabs b then b
  else match last a with
       | Some "/"%char | None => a ++ b
       | Some _ => a ++ T "/" ++ b
       end.

(** ** Caches of a subtree

    [__clearRepositoryCache]: the node itself is among its entries, as [.]; the
    order of [entries.values()] does not matter. *)
Definition clear_one (dup : option bool) (x : fnode) : fnode :=
  match dup with
  | Some b => with_duplicate b (fclear x)
  | None => fclear x
  end.

(** The turn of the loop for the entry [n] of [d]; [parent] is [self.dir]. *)
Definition clear_turn (clear : nat → fstate → fstate) (dup : option bool) (d parent : nat)
    (s : fstate) (n : nat) : fstate :=
  if decide (n = parent) then s
  else if bool_decide (n ≠ d) && is_dir (kind (fnodes s !!! n)) then clear n s
  else upd n (clear_one dup) s.

Fixpoint clear_repository_cache (fuel : nat) (dup : option bool) (d : nat) (s : fstate) : fstate :=
  match fuel with
  | O => s
  | S fuel =>
      let x := fnodes s !!! d in
      foldl (clear_turn (clear_repository_cache fuel dup) dup d (ndir (fid x))) s
        (map snd (map_to_list (entries (ddata x))))
  end.

(** Deep enough for the tree. *)
Definition clear_cache (dup : option bool) (d : nat) (s : fstate) : fstate :=
  clear_repository_cache (size (fnodes s)) dup d s.

(** [link] *)
Definition link (d src : nat) (dup : bool) : fsm unit := λ s,
  let s := upd d (λ x, with_duplicate dup (with_srcdir (Some src) x)) s in
  let s := clear_cache (Some dup) d s in
  (upd src (λ x, with_variant_dirs (variant_dirs (ddata x) ++ [d]) x) s, Ok tt).

(** [addRepository] *)
Definition addRepository (d dir : nat) : fsm unit := λ s,
  if bool_decide (dir ≠ d) && bool_decide (dir ∉ repositories (ddata (fnodes s !!! d))) then
    let s := upd d (λ x, with_repositories (repositories (ddata x) ++ [dir]) x) s in
    let s := upd dir (with_tpath (T ".")) s in
    (clear_cache None d s, Ok tt)
  else (s, Ok tt).

Section variant.
Variable stat : text → option ftype.
Variable listdir : text → option (list text).
Variable do_match : bool.
Abbreviation FS_Dir := (FS_Dir stat do_match).
Abbreviation FS_Entry := (FS_Entry stat do_match).

Definition fs_arg_dir (a : fs_arg) : fsm nat :=
  match a with ANode n => eret n | AStr _ => FS_Dir a None true end.

(** [FS.VariantDir] *)
Definition VariantDir (variant_dir src_dir : fs_arg) (dup : bool) : fsm unit :=
  (let! src := fs_arg_dir src_dir in
   let! var := fs_arg_dir variant_dir in
   λ s, match is_under s src var with
        | None => (s, Raise None)
        | Some true => UserError "Source directory cannot be under variant directory." s
        | Some false =>
            match srcdir (ddata (fnodes s !!! var)) with
            | Some d => if decide (d = src) then (s, Ok tt)
                        else UserError "already has a source directory" s
            | None => link var src dup s
            end
        end)%eff.

(** [FS.Repository] *)
Definition Repository (dirs : list fs_arg) : fsm unit :=
  efor dirs (λ a, let! d := fs_arg_dir a in λ s, addRepository (Top s) d s)%eff.

(** ** Source directories *)

(** The loop of [srcdir_list]; [fuel] bounds the climb. *)
Fixpoint srcdir_list_loop (fuel : nat) (dirname : text) (d : nat) : fsm (list nat) :=
  match fuel with
  | O => eraise None
  | S fuel => λ s,
      let x := fnodes s !!! d in
      (let! l := match srcdir (ddata x) with
                 | Some src => let! n := FS_Dir (AStr dirname) (Some (ANode src)) true in eret [n]
                 | None => eret []
                 end in
       let! r := match up s d with
                 | Some p => srcdir_list_loop fuel (fname (fid x) ++ T "/" ++ dirname) p
                 | None => eret []
                 end in
       eret (l ++ r))%eff s
  end.

Definition depth (s : fstate) (n : nat) : nat := length (path_elements (fid (fnodes s !!! n))).

Definition srcdir_list (d : nat) : fsm (list nat) := λ s,
  match memo_srcdirs (fmemos (fnodes s !!! d)) with
  | Some l => (s, Ok l)
  | None =>
      (let! l := srcdir_list_loop (depth s d) (T ".") d in
       emod (upd d (with_memo_srcdirs l)) ;;; eret l)%eff s
  end.

(** [srcnode] of [Base] and of [Dir]; [Entry] is called as a method of the
    directory, and [must_be_same] with the class of the node. *)
Definition Base_srcnode (n : nat) : fsm nat := λ s,
  let x := fnodes s !!! n in
  (let! l := srcdir_list (ndir (fid x)) in
   match l with
   | d :: _ =>
       let! m := FS_Entry (AStr (fname (fid x))) (Some (ANode d)) true in
       must_be_same m (kind x) ;;; eret m
   | [] => eret n
   end)%eff s.
Definition srcnode (n : nat) : fsm nat := λ s,
  let x := fnodes s !!! n in
  if is_dir (kind x) then
    match srcdir (ddata x) with
    | Some d => (s, Ok d)
    | None => Base_srcnode n s
    end
  else Base_srcnode n s.

(** [entry_exists_on_disk] *)
Definition entry_exists_on_disk (s : fstate) (d : nat) (name : text) : bool :=
  match listdir (abspath (fid (fnodes s !!! d))) with
  | Some l => bool_decide (name ∈ l)
  | None => false
  end.

(** [Entry.disambiguate]; of the other classes it does nothing. *)
Definition become (k : fclass) (n : nat) : fsm unit :=
  emod (upd n (λ x, match k with
                    | CDir => fmorph n (with_kind CDir x)
                    | _ => fclear (fmorph n (with_kind k x))
                    end)).
Definition disambiguate (n : nat) (must_exist : bool) : fsm unit := λ s,
  let x := fnodes s !!! n in
  match kind x with
  | CEntry =>
      if isdir stat x then become CDir n s
      else if isfile stat x then become CFile n s
      else
        (let! src := srcnode (ndir (fid x)) in
         let! in_src := λ s,
           if bool_decide (src ≠ ndir (fid x)) && entry_exists_on_disk s src (fname (fid x)) then
             (let! m := srcnode n in λ s, (s, Ok (isdir stat (fnodes s !!! m)))) s
           else (s, Ok false) in
         if in_src : bool then become CDir n
         else if must_exist then UserError "No such file or directory"
         else become CFile n)%eff s
  | _ => (s, Ok tt)
  end.

(** ** Repositories *)

Definition getRepositories (rdirs : nat → fsm (list nat)) (d : nat) : fsm (list nat) := λ s,
  let x := fnodes s !!! d in
  match srcdir (ddata x) with
  | Some src => if duplicate x then (s, Ok (repositories (ddata x)))
                else (let! l := rdirs src in
                      λ s, (s, Ok (l ++ repositories (ddata (fnodes s !!! d)))))%eff s
  | None => (s, Ok (repositories (ddata x)))
  end.

Fixpoint all_rdirs_loop (rdirs : nat → fsm (list nat)) (fuel : nat) (fname' : text) (d : nat)
    : fsm (list nat) :=
  match fuel with
  | O => eraise None
  | S fuel => λ s,
      (let! reps := getRepositories rdirs d in
       let! l := emap (λ rep, FS_Dir (AStr fname') (Some (ANode rep)) true) reps in
       let! r := λ s, let name := fname (fid (fnodes s !!! d)) in
                 match up s d with
                 | Some p => all_rdirs_loop rdirs fuel
                               (if decide (fname' = T ".") then name else name ++ T "/" ++ fname') p s
                 | None => (s, Ok [])
                 end in
       eret (l ++ r))%eff s
  end.

(** [get_all_rdirs]; [fuel] bounds how often a source directory is followed. *)
Fixpoint get_all_rdirs (fuel : nat) (d : nat) : fsm (list nat) :=
  match fuel with
  | O => eraise None
  | S fuel => λ s,
      match memo_rdirs (fmemos (fnodes s !!! d)) with
      | Some l => (s, Ok l)
      | None =>
          (let! l := all_rdirs_loop (get_all_rdirs fuel) (depth s d) (T ".") d in
           emod (upd d (with_memo_rdirs (d :: l))) ;;; eret (d :: l))%eff s
      end
  end.

(** ** Targets in variant directories

    [variant_dir_target_climb]: the targets, and the nodes that the message
    names. *)
Fixpoint climb_variants (fuel : nat) (start orig d : nat) (tail : list text) (targets : list nat)
    : fsm (list nat * option (list nat)) :=
  match fuel with
  | O => eraise None
  | S fuel => λ s,
      let fix each (bds : list nat) (targets : list nat) : fsm (list nat + list nat) :=
        match bds with
        | [] => eret (inr targets)
        | bd :: bds => λ s,
            match is_under s start bd with
            | None => (s, Raise None)
            | Some true => (s, Ok (inl [orig]))
            | Some false =>
                (let! t := FS_Entry (AStr (foldl os_path_join (path (fnodes s !!! bd)) tail)) None true in
                 each bds (targets ++ [t]))%eff s
            end
        end in
      (let! r := each (variant_dirs (ddata (fnodes s !!! d))) targets in
       match r with
       | inl l => eret (l, Some l)
       | inr targets => λ s,
           match up s d with
           | Some p => climb_variants fuel start orig p (fname (fid (fnodes s !!! d)) :: tail) targets s
           | None => (s, Ok (targets, match targets with [] => None | _ => Some targets end))
           end
       end)%eff s
  end.
Definition variant_dir_target_climb (orig d : nat) (tail : list text)
    : fsm (list nat * option (list nat)) := λ s,
  climb_variants (depth s d) d orig d tail [] s.
End variant.
