(* ===== verification/FSVariantFacts.v ===== *)
(** * Variant directories and repositories: theorems *)

From S2P Require Import Prelude Errors PyStr FSTree FSTreeFacts FSPathFacts FSVariant.
Open Scope nat_scope.

(** ** The caches of a subtree *)

Lemma clear_one_idem dup x : clear_one dup (clear_one dup x) = clear_one dup x.
Proof. by destruct dup, x. Qed.
Lemma clear_one_refines n dup x : refines_node n x (clear_one dup x).
Proof.
  assert (kind (clear_one dup x) = kind x ∧ fid (clear_one dup x) = fid x ∧
    ddata (clear_one dup x) = ddata x) as (H1 & H2 & H3) by (by destruct dup).
  split; [done|by left|]. rewrite H1, H3. intros H. by rewrite H.
Qed.

(** [s'] is [s] with the nodes of [U] cleared. *)
Definition cleared (dup : option bool) (U : nat → bool) (s s' : fstate) : Prop :=
  lookupDict s' = lookupDict s ∧ Top s' = Top s ∧ cwd s' = cwd s ∧
  ∀ m, fnodes s' !! m = (if U m then clear_one dup else id) <$> fnodes s !! m.

Lemma cleared_refl dup U s : (∀ m, U m = false) → cleared dup U s s.
Proof.
  intros HU. split_and!; [done..|]. intros m. by rewrite HU, option_fmap_id.
Qed.
Lemma cleared_trans dup U V W s s1 s2 : (∀ m, W m = U m || V m) →
  cleared dup U s s1 → cleared dup V s1 s2 → cleared dup W s s2.
Proof.
  intros HW (H1 & H2 & H3 & H4) (H1' & H2' & H3' & H4'). split_and!; [congruence..|].
  intros m. rewrite H4', H4, HW, <- option_fmap_compose. destruct (fnodes s !! m) as [x|]; [|done].
  simpl. destruct (U m), (V m); simpl; by rewrite ?clear_one_idem.
Qed.
Lemma cleared_upd dup n s : cleared dup (λ m, bool_decide (m = n)) s (upd n (clear_one dup) s).
Proof.
  split_and!; [done..|]. intros m. rewrite lookup_upd. case_bool_decide as H.
  - by rewrite decide_True.
  - by rewrite decide_False.
Qed.
Lemma cleared_ext dup U V s s' : (∀ m, is_Some (fnodes s !! m) → U m = V m) →
  cleared dup U s s' → cleared dup V s s'.
Proof.
  intros HU (H1 & H2 & H3 & H4). split_and!; [done..|]. intros m. rewrite H4.
  destruct (fnodes s !! m) eqn:E; [|done]. by rewrite (HU m) by (rewrite E; eauto).
Qed.
Lemma cleared_refines dup U s s' : cleared dup U s s' →
  ∀ n, option_Forall2 (refines_node n) (fnodes s !! n) (fnodes s' !! n).
Proof.
  intros (_ & _ & _ & H) n. rewrite H. destruct (fnodes s !! n) as [x|]; simpl; constructor.
  destruct (U n); [apply clear_one_refines|apply refines_node_refl].
Qed.
Lemma cleared_tree dup U s s' : tree_inv s → cleared dup U s s' → tree_inv s'.
Proof.
  intros Hs Hc. apply (refines_tree s); [done|by eapply cleared_refines|apply Hc|..];
    destruct Hc as (_ & Ht & Hw & _); rewrite ?Ht, ?Hw; [apply (ti_top s Hs)|apply (ti_cwd s Hs)].
Qed.

(** A node below a directory, in the tree. *)
Definition below (s : fstate) (d m : nat) : bool :=
  bool_decide (d ∈ path_elements (fid (fnodes s !!! m))).

Lemma cleared_below dup U s s' d m : cleared dup U s s' → is_Some (fnodes s !! m) →
  below s' d m = below s d m.
Proof.
  intros (_ & _ & _ & H) [x Hx]. unfold below. specialize (H m). rewrite Hx in H. simpl in H.
  rewrite (lookup_total_correct _ _ _ Hx), (lookup_total_correct _ _ _ H).
  destruct (U m), dup; done.
Qed.

(** Below a directory are itself and what is below its children. *)
Lemma below_children s d m y : tree_inv s → fnodes s !! m = Some y → m ≠ d →
  below s d m = true ↔ ∃ c x, fnodes s !! c = Some x ∧ c ≠ root ∧ ndir (fid x) = d ∧ below s c m = true.
Proof.
  intros Hs Hy Hmd. unfold below. rewrite (lookup_total_correct _ _ _ Hy).
  destruct (node_elements s Hs m y Hy) as (l & Hl & _ & _ & Hlast & Hel). rewrite Hl.
  rewrite bool_decide_eq_true. split.
  - intros [i Hi]%list_elem_of_lookup.
    assert (S i < length (root :: l)) as Hlt.
    { apply lookup_lt_Some in Hi as Hlt. destruct (decide (S i = length (root :: l))) as [E|]; [|lia].
      rewrite last_lookup, <- E in Hlast. simpl in Hlast. congruence. }
    apply lookup_lt_is_Some in Hlt as [c Hc]. destruct (Hel _ _ Hc) as (x & Hx & Hpx & _).
    exists c, x. rewrite bool_decide_eq_true. split; [done|].
    assert (c ≠ root) as Hcr.
    { intros ->. destruct (ti_root s Hs) as (r & Hr & _ & Hir). assert (x = r) as -> by congruence.
      rewrite Hir in Hpx. apply (f_equal length) in Hpx. rewrite length_take in Hpx.
      apply lookup_lt_Some in Hc. cbn [length path_elements] in *. lia. }
    split; [done|]. split; [|by eapply list_elem_of_lookup_2].
    destruct (node_parent s Hs c x Hx Hcr) as (e & _ & He & _ & Hpe & _).
    destruct (node_elements s Hs _ e He) as (le & Hle & _ & _ & Hlaste & _).
    rewrite Hpx, Hle in Hpe. rewrite (take_S_r _ _ _ Hc) in Hpe.
    apply app_inj_2 in Hpe as [Hpe _]; [|done]. rewrite <- Hpe in Hlaste.
    rewrite last_lookup, length_take in Hlaste. apply lookup_lt_Some in Hc.
    replace (pred (S i `min` length (root :: l))) with i in Hlaste by lia.
    rewrite lookup_take_lt in Hlaste by lia. congruence.
  - intros (c & x & Hx & Hcr & <- & Hc). rewrite bool_decide_eq_true in Hc.
    apply list_elem_of_lookup in Hc as [i Hi]. destruct (Hel _ _ Hi) as (x' & Hx' & Hpx & _).
    assert (x' = x) as -> by congruence.
    destruct (node_parent s Hs c x Hx Hcr) as (e & _ & He & _ & Hpe & _).
    destruct (node_elements s Hs _ e He) as (le & Hle & _ & _ & Hlaste & _).
    rewrite <- (take_drop (S i) (root :: l)), <- Hpx, Hpe, Hle. rewrite !elem_of_app. left. left.
    apply last_Some_elem_of. exact Hlaste.
Qed.

Lemma below_self s d x : tree_inv s → fnodes s !! d = Some x → below s d d = true.
Proof.
  intros Hs Hx. unfold below. rewrite (lookup_total_correct _ _ _ Hx).
  destruct (node_elements s Hs d x Hx) as (l & -> & _ & _ & Hl & _).
  apply bool_decide_eq_true. by apply last_Some_elem_of.
Qed.
Lemma below_leaf s c m x y : tree_inv s → fnodes s !! c = Some x → is_dir (kind x) = false →
  fnodes s !! m = Some y → below s c m = bool_decide (m = c).
Proof.
  intros Hs Hx Hk Hy. destruct (decide (m = c)) as [->|Hne].
  { rewrite bool_decide_eq_true_2 by done. by eapply below_self. }
  rewrite (bool_decide_eq_false_2 (m = c)) by done. unfold below.
  rewrite (lookup_total_correct _ _ _ Hy).
  destruct (node_elements s Hs m y Hy) as (l & -> & _ & _ & _ & Hel). apply bool_decide_eq_false.
  intros [i Hi]%list_elem_of_lookup. destruct (Hel i c Hi) as (z & Hz & _ & [?|Hd]); [done|].
  assert (z = x) as -> by congruence. congruence.
Qed.

(** What one turn of the loop clears. *)
Definition turn_clears (s : fstate) (d up : nat) (n m : nat) : bool :=
  bool_decide (n ≠ up) && if decide (n = d) then bool_decide (m = d) else below s n m.

Lemma clear_loop dup s d x fuel L : tree_inv s → fnodes s !! d = Some x →
  (∀ n, n ∈ L → n = ndir (fid x) ∨ n = d ∨ ∃ y, fnodes s !! n = Some y ∧ d < n) →
  (∀ c s0 y, tree_inv s0 → fnodes s0 !! c = Some y → is_dir (kind y) = true → d < c →
     size (fnodes s0) = size (fnodes s) →
     cleared dup (below s0 c) s0 (clear_repository_cache fuel dup c s0)) →
  ∀ s0 U, cleared dup U s s0 →
  cleared dup (λ m, U m || existsb (λ n, turn_clears s d (ndir (fid x)) n m) L) s
    (foldl (clear_turn (clear_repository_cache fuel dup) dup d (ndir (fid x))) s0 L).
Proof.
  intros Hs Hx HL Hrec. induction L as [|n L IH]; intros s0 U HU; cbn [foldl existsb].
  { eapply cleared_ext; [|exact HU]. intros m _. by rewrite orb_false_r. }
  specialize (IH ltac:(intros; apply HL; by right)). specialize (HL n ltac:(left)).
  assert (∀ s1, cleared dup (λ m, U m || turn_clears s d (ndir (fid x)) n m) s s1 →
    cleared dup (λ m, U m || (turn_clears s d (ndir (fid x)) n m ||
      existsb (λ n, turn_clears s d (ndir (fid x)) n m) L)) s
    (foldl (clear_turn (clear_repository_cache fuel dup) dup d (ndir (fid x))) s1 L)) as Hgo.
  { intros s1 H1. eapply cleared_ext; [|exact (IH s1 _ H1)]. intros m _. simpl. by rewrite orb_assoc. }
  apply Hgo. clear Hgo IH. unfold turn_clears, clear_turn.
  destruct (decide (n = ndir (fid x))) as [Hup|Hup].
  { rewrite (bool_decide_eq_false_2 (n ≠ ndir (fid x))) by (intros H; by apply H).
    eapply cleared_ext; [|exact HU]. intros m _. by rewrite orb_false_r. }
  rewrite (bool_decide_eq_true_2 (n ≠ ndir (fid x))) by done. cbn [andb].
  destruct HL as [?|[->|(y & Hy & Hlt)]]; [done| |].
  { rewrite (bool_decide_eq_false_2 (d ≠ d)) by (intros H; by apply H). cbn [andb].
    eapply cleared_trans; [|exact HU|apply cleared_upd]. intros m. by rewrite decide_True. }
  assert (n ≠ d) as Hnd by lia. rewrite (bool_decide_eq_true_2 (n ≠ d)) by done. cbn [andb].
  assert (tree_inv s0) as Hs0 by by eapply cleared_tree.
  destruct HU as (Hk0 & Ht0 & Hw0 & HU). pose proof (HU n) as Hn. rewrite Hy in Hn. simpl in Hn.
  rewrite (lookup_total_correct _ _ _ Hn).
  assert (kind ((if U n then clear_one dup else id) y) = kind y) as ->.
  { destruct (U n), dup; done. }
  assert (size (fnodes s0) = size (fnodes s)) as Hsize.
  { rewrite <- !size_dom. f_equal. apply set_eq. intros m. rewrite !elem_of_dom, HU.
    by rewrite fmap_is_Some. }
  assert (cleared dup U s s0) as Hc by by split_and!.
  destruct (is_dir (kind y)) eqn:Hky.
  - eapply (cleared_trans dup U (below s n)); [|exact Hc|].
    { intros m. by rewrite decide_False. }
    eapply cleared_ext; [|eapply Hrec; [done|exact Hn| |done|done]].
    + intros m Hm. apply (cleared_below dup U); [done|]. specialize (HU m). rewrite HU in Hm.
      by rewrite fmap_is_Some in Hm.
    + by destruct (U n), dup.
  - eapply cleared_ext; [|eapply (cleared_trans dup U _ (λ m, U m || bool_decide (m = n))); [done|exact Hc|apply cleared_upd]].
    intros m [z Hz]. rewrite decide_False by done. by rewrite (below_leaf s n m y z).
Qed.

Lemma clear_repository_below fuel dup d s x : tree_inv s → fnodes s !! d = Some x →
  is_dir (kind x) = true → d ≠ root → size (fnodes s) - d ≤ fuel →
  cleared dup (below s d) s (clear_repository_cache fuel dup d s).
Proof.
  revert d s x. induction fuel as [|fuel IH]; intros d s x Hs Hx Hk Hd Hf.
  { assert (d < size (fnodes s)) by (apply (ti_ids s Hs); eauto). lia. }
  cbn [clear_repository_cache]. rewrite (lookup_total_correct _ _ _ Hx).
  destruct (node_parent s Hs d x Hx Hd) as (p & Hlt & _).
  destruct (ti_entries s Hs d x Hx Hk) as [H1 H2 H3].
  set (L := map snd (map_to_list (entries (ddata x)))).
  assert (∀ n, n ∈ L ↔ ∃ w, entries (ddata x) !! w = Some n) as HL.
  { intros n. unfold L. rewrite list_elem_of_fmap. split.
    - intros ((w & n') & -> & Hw). exists w. by apply elem_of_map_to_list.
    - intros (w & Hw). exists (w, n). split; [done|]. by apply elem_of_map_to_list. }
  assert (∀ w n, entries (ddata x) !! w = Some n →
    n = d ∨ n = ndir (fid x) ∨ ∃ y, fnodes s !! n = Some y ∧ n ≠ root ∧ ndir (fid y) = d ∧ d < n) as Hent.
  { intros w n Hw. destruct (H3 w n Hw) as [->|[->|[Hn (y & Hy & Hyd & _)]]].
    - left. congruence.
    - right. left. congruence.
    - right. right. exists y. split_and!; [done..|].
      destruct (node_parent s Hs n y Hy Hn) as (e & Hlt' & _). lia. }
  eapply cleared_ext; [|apply (clear_loop dup s d x fuel L Hs Hx) with (U := λ _, false)].
  - intros m [y Hy]. cbn [orb]. destruct (decide (m = d)) as [->|Hmd].
    + rewrite (below_self s d x Hs Hx). apply existsb_exists. exists d. split.
      { apply list_elem_of_In, HL. eauto. }
      unfold turn_clears. rewrite !bool_decide_eq_true_2 by (done || lia). by rewrite decide_True.
    + apply eq_true_iff_eq. rewrite (below_children s d m y Hs Hy Hmd), existsb_exists. split.
      * intros (n & Hn%list_elem_of_In%HL & Ht). destruct Hn as [w Hw].
        unfold turn_clears in Ht. apply andb_prop in Ht as [Hup%bool_decide_eq_true Ht].
        destruct (Hent w n Hw) as [->|[->|(z & Hz & Hzr & Hzd & Hlt')]]; [|done|].
        -- rewrite decide_True in Ht by done. by apply bool_decide_eq_true in Ht.
        -- rewrite decide_False in Ht by lia. by exists n, z.
      * intros (c & z & Hz & Hc & Hzd & Hb). exists c.
        destruct (ti_node s Hs c z Hz Hc) as [_ _ (e & Hlt' & He & _ & _ & Hee)]. rewrite Hzd in *.
        assert (e = x) as -> by congruence. split; [apply list_elem_of_In, HL; eauto|].
        unfold turn_clears. rewrite bool_decide_eq_true_2 by lia. by rewrite decide_False by lia.
  - intros n [w Hw]%HL. destruct (Hent w n Hw) as [?|[?|(y & Hy & _ & _ & ?)]]; eauto.
  - intros c s0 y Hs0 Hy Hky Hdc Hsize. eapply IH; [done..| |]; [unfold root; lia|].
    assert (c < size (fnodes s0)) by (apply (ti_ids s0 Hs0); eauto). lia.
  - by apply cleared_refl.
Qed.

(** ** Source directories *)

(** The paths that correspond to a place, by the source directories of what is
    above it: [ups] are the directories from the nearest to the root, [rest]
    the names below them. *)
Definition label (s : fstate) (n : nat) : text := labspath (fid (fnodes s !!! n)).
Definition source_of (s : fstate) (n : nat) : option nat := srcdir (ddata (fnodes s !!! n)).
Fixpoint srcdir_paths_up (s : fstate) (ups : list nat) (rest : list text) : list text :=
  match ups with
  | [] => []
  | d :: ups =>
      match source_of s d with Some src => [label s src ++ key_text rest] | None => [] end ++
      srcdir_paths_up s ups (fname (fid (fnodes s !!! d)) :: rest)
  end.
Definition elements_of (s : fstate) (n : nat) : list nat := path_elements (fid (fnodes s !!! n)).
Definition srcdir_paths (s : fstate) (d : nat) : list text :=
  srcdir_paths_up s (rev (elements_of s d)) [].

(** One line, and no [#] in front: other names are looked up differently. *)
Definition simple_name (w : text) : Prop := ("010"%char ∉ w) ∧ head w ≠ Some "#"%char.
Definition simple (s : fstate) (n : nat) : Prop :=
  Forall simple_name (names_of s (drop 1 (elements_of s n))).

(** The names that the loop of [srcdir_list] makes. *)
Definition dot_path (rest : list text) : text := join (T "/") (rest ++ [T "."]).
Lemma dot_path_cons w rest : w ++ T "/" ++ dot_path rest = dot_path (w :: rest).
Proof. unfold dot_path. cbn [app]. rewrite join_cons; [done|by destruct rest]. Qed.

Lemma span_into p a c s : Forall (λ c, p c = true) a → p c = true →
  c ∈ (span p (a ++ c :: s)).1.
Proof.
  intros Ha Hc. induction Ha as [|b a Hb Ha IH]; cbn [app span].
  - rewrite Hc. destruct (span p s). left.
  - rewrite Hb. destruct (span p (a ++ c :: s)). by right.
Qed.

Lemma dot_path_lines rest : Forall simple_name rest → "010"%char ∉ dot_path rest.
Proof.
  unfold dot_path. induction 1 as [|w ws [Hw _] Hws IH].
  - by apply (bool_decide_unpack _).
  - cbn [app]. rewrite join_cons by (by destruct ws). rewrite !elem_of_app. intros [?|[Hs|?]]; [done| |].
    + by apply list_elem_of_singleton in Hs.
    + by apply IH.
Qed.

Section dot.
Context (rest : list text) (Hrest : Forall good_name rest) (Hsimple : Forall simple_name rest).

Lemma dot_path_head : ∃ c t, dot_path rest = c :: t ∧ c ≠ "/"%char ∧ c ≠ "#"%char.
Proof using Hrest Hsimple.
  destruct rest as [|w ws]; [by eexists _, _|]. rewrite <- dot_path_cons.
  inversion Hrest as [|? ? (Hne & Hs & _) _]; subst. inversion Hsimple as [|? ? [_ Hh] _]; subst.
  destruct w as [|c w]; [done|]. exists c. eexists. split_and!; [reflexivity| |].
  - intros ->. apply Hs. left.
  - intros ->. by apply Hh.
Qed.

Lemma dot_path_norm : needs_normpath (dot_path rest) = true.
Proof using Hrest Hsimple.
  destruct rest as [|w ws]; [done|]. rewrite <- dot_path_cons. inversion Hsimple as [|? ? [Hw _] _]; subst.
  unfold needs_normpath. apply orb_true_intro. left. apply bool_decide_eq_true_2. apply span_into; [|done].
  apply Forall_forall. intros c Hc. apply bool_decide_eq_true_2. by intros ->.
Qed.

Lemma lookup_dot_path s src x ws : fnodes s !! src = Some x → Forall good_name ws →
  labspath (fid x) = key_text ws →
  plain_name s (dot_path rest) ∧ lookup_path s (dot_path rest) (Some src) = key_of (ws ++ rest).
Proof using Hrest Hsimple.
  intros Hx Hws Hl. destruct dot_path_head as (c & t & E & Hc & Hh).
  assert (isabs (dot_path rest) = false) as Habs.
  { rewrite isabs_cases, E. apply bool_decide_eq_false_2. simpl. congruence. }
  split.
  { split; [by apply dot_path_lines|]. rewrite decide_False by (rewrite E; simpl; congruence).
    rewrite E. simpl. by rewrite bool_decide_eq_false_2. }
  rewrite (lookup_relative s src x _ _ Hx Hl); [|by rewrite E; simpl; congruence|done|by rewrite E].
  rewrite dot_path_norm. change (T "/" ++ dot_path rest) with ("/"%char :: dot_path rest).
  rewrite normpath_absolute.
  - rewrite split_key_text by done. unfold dot_path. change (T "/") with ["/"%char].
    rewrite split_join; [|by destruct rest|].
    + cbn [foldl]. change (norm_step true [] []) with (@nil text). rewrite foldl_app, (norm_names [] ws) by done.
      cbn [app]. rewrite foldl_app, (norm_names ws rest) by done. cbn [foldl].
      change (norm_step true (ws ++ rest) (T ".")) with (ws ++ rest). by destruct (ws ++ rest).
    + apply Forall_app. split; [|by apply Forall_singleton, (bool_decide_unpack _)].
      eapply Forall_impl; [exact Hrest|]. by intros w (_ & ? & _).
  - destruct (decide (ws = [])) as [->|Hne]; [|by apply initial_slashes_key].
    rewrite E. apply slash_then; [|done]. simpl. by rewrite bool_decide_eq_false_2.
Qed.
End dot.

Lemma key_label s n ws : tree_inv s → Forall good_name ws → lookupDict s !! key_of ws = Some n →
  is_Some (fnodes s !! n) ∧ label s n = key_text ws.
Proof.
  intros Hs Hws Hn. unfold label. destruct (ti_root s Hs) as (r & Hr & _ & Hir).
  destruct ws as [|w ws].
  - rewrite (lookup_root s) in Hn by (done || (right; left)). injection Hn as <-.
    rewrite (lookup_total_correct _ _ _ Hr), Hir. split; [by exists r|done].
  - apply (ti_keys s Hs) in Hn as [[_ Hin]|[_ (x & Hx & E)]].
    + by destruct (key_text_not_root (w :: ws)).
    + rewrite (lookup_total_correct _ _ _ Hx). split; [by exists x|done].
Qed.

(** ** The cached lists of source directories are current *)

Record var_inv (s : fstate) : Prop := {
  vi_tree : tree_inv s;
  vi_srcdir : ∀ n x src, fnodes s !! n = Some x → srcdir (ddata x) = Some src →
              is_dir (kind x) = true ∧ is_dir_node s src;
  vi_memo : ∀ n x l, fnodes s !! n = Some x → memo_srcdirs (fmemos x) = Some l →
            is_dir (kind x) = true ∧ (simple s n →
            Forall (λ m, is_Some (fnodes s !! m)) l ∧ map (label s) l = srcdir_paths s n)
}.

Lemma label_extends s s' n : extends s s' → is_Some (fnodes s !! n) → label s' n = label s n.
Proof.
  intros He [x Hx]. destruct (ex_nodes _ _ He n x Hx) as (y & Hy & Hi & _). unfold label.
  by rewrite (lookup_total_correct _ _ _ Hx), (lookup_total_correct _ _ _ Hy), Hi.
Qed.

Lemma paths_up_same s s' ups rest :
  (∀ n, n ∈ ups → is_Some (fnodes s !! n) ∧ source_of s' n = source_of s n ∧
     fname (fid (fnodes s' !!! n)) = fname (fid (fnodes s !!! n))) →
  (∀ n src, n ∈ ups → source_of s n = Some src → label s' src = label s src) →
  srcdir_paths_up s' ups rest = srcdir_paths_up s ups rest.
Proof.
  revert rest. induction ups as [|d ups IH]; intros rest Hn Hl; cbn [srcdir_paths_up]; [done|].
  destruct (Hn d ltac:(left)) as (_ & Hs & Hf). rewrite Hs, Hf, IH.
  - destruct (source_of s d) as [src|] eqn:E; [|done]. by rewrite (Hl d src ltac:(left) E).
  - intros. apply Hn. by right.
  - intros n src ?. apply Hl. by right.
Qed.

Lemma elements_exist s n x m : tree_inv s → fnodes s !! n = Some x → m ∈ elements_of s n →
  is_Some (fnodes s !! m).
Proof.
  intros Hs Hx. unfold elements_of. rewrite (lookup_total_correct _ _ _ Hx).
  destruct (node_elements s Hs n x Hx) as (l & -> & _ & _ & _ & Hel).
  intros [i Hi]%list_elem_of_lookup. destruct (Hel i m Hi) as (y & Hy & _). by exists y.
Qed.

(** Look-ups change neither the source directories nor the paths. *)
Lemma source_extends s s' n : var_inv s → extends s s' → is_Some (fnodes s !! n) →
  source_of s' n = source_of s n.
Proof.
  intros Hs He [x Hx]. destruct (ex_nodes _ _ He n x Hx) as (y & Hy & _ & _ & [_ Hsd]).
  unfold source_of. rewrite (lookup_total_correct _ _ _ Hx), (lookup_total_correct _ _ _ Hy).
  destruct Hsd as [->|[Hk ->]]; [done|]. destruct (srcdir (ddata x)) as [src|] eqn:E; [|done].
  destruct (vi_srcdir s Hs n x src Hx E) as [Hk' _]. congruence.
Qed.
Lemma elements_extends s s' n : extends s s' → is_Some (fnodes s !! n) →
  elements_of s' n = elements_of s n ∧ fname (fid (fnodes s' !!! n)) = fname (fid (fnodes s !!! n)).
Proof.
  intros He [x Hx]. destruct (ex_nodes _ _ He n x Hx) as (y & Hy & Hi & _). unfold elements_of.
  by rewrite (lookup_total_correct _ _ _ Hx), (lookup_total_correct _ _ _ Hy), Hi.
Qed.
Lemma paths_extends s s' ups rest : var_inv s → extends s s' →
  (∀ n, n ∈ ups → is_Some (fnodes s !! n)) →
  srcdir_paths_up s' ups rest = srcdir_paths_up s ups rest.
Proof.
  intros Hs He Hups. apply paths_up_same.
  - intros n Hn. specialize (Hups n Hn). split_and!; [done|by apply source_extends|].
    by apply elements_extends.
  - intros n src Hn Hsrc. apply label_extends; [done|]. destruct (Hups n Hn) as [x Hx].
    unfold source_of in Hsrc. rewrite (lookup_total_correct _ _ _ Hx) in Hsrc.
    destruct (vi_srcdir s Hs n x src Hx Hsrc) as [_ (y & Hy & _)]. by exists y.
Qed.
Lemma names_extends s s' l : extends s s' → (∀ n, n ∈ l → is_Some (fnodes s !! n)) →
  names_of s' l = names_of s l.
Proof.
  intros He Hl. unfold names_of. apply map_ext_in. intros n Hn%list_elem_of_In.
  by apply elements_extends, Hl.
Qed.

Lemma var_extends s s' : var_inv s → tree_inv s' → extends s s' → var_inv s'.
Proof.
  intros Hs Ht He. split; [done|..].
  - intros n y src Hy Hsrc. destruct (fnodes s !! n) as [x|] eqn:Hx.
    + pose proof (source_extends s s' n Hs He ltac:(eauto)) as E. unfold source_of in E.
      rewrite (lookup_total_correct _ _ _ Hx), (lookup_total_correct _ _ _ Hy), Hsrc in E.
      destruct (vi_srcdir s Hs n x src Hx (eq_sym E)) as [Hk Hd].
      split; [|by eapply extends_dir]. destruct (ex_nodes _ _ He n x Hx) as (y' & Hy' & _ & Hl & _).
      assert (y' = y) as -> by congruence. destruct Hl as [<- | Hl]; [done|by rewrite Hl in Hk].
    + destruct (ex_new _ _ He n y Hx Hy) as [E _]. congruence.
  - intros n y l Hy Hm. destruct (fnodes s !! n) as [x|] eqn:Hx.
    2:{ destruct (ex_new _ _ He n y Hx Hy) as [_ E]. congruence. }
    destruct (ex_nodes _ _ He n x Hx) as (y' & Hy' & _ & Hl & [Hmm _]).
    assert (y' = y) as -> by congruence. destruct Hmm as [Hmm|Hmm]; [|congruence].
    rewrite Hmm in Hm. destruct (vi_memo s Hs n x l Hx Hm) as [Hkx Hcur].
    split; [destruct Hl as [<- | Hl]; [done|by rewrite Hl in Hkx]|]. intros Hsimple.
    assert (∀ m, m ∈ elements_of s n → is_Some (fnodes s !! m)) as Hex.
    { intros m. by apply (elements_exist s n x m (vi_tree s Hs) Hx). }
    destruct (elements_extends s s' n He ltac:(eauto)) as [Eel _].
    destruct Hcur as [Hall Hmap].
    { unfold simple in *. rewrite Eel, (names_extends s s') in Hsimple; [done|done|].
      intros m Hm'. apply Hex. rewrite <- (take_drop 1 (elements_of s n)). apply elem_of_app. by right. }
    split.
    + eapply Forall_impl; [exact Hall|]. intros m [z Hz].
      destruct (ex_nodes _ _ He m z Hz) as (z' & Hz' & _). by exists z'.
    + transitivity (map (label s) l).
      { apply map_ext_in. intros m Hin%list_elem_of_In. apply label_extends; [done|].
        rewrite Forall_forall in Hall. by apply Hall. }
      rewrite Hmap. unfold srcdir_paths. rewrite Eel. symmetry. apply paths_extends; [done..|].
      intros m Hin. apply Hex. by apply list_elem_of_In, in_rev, list_elem_of_In in Hin.
Qed.

Section caches.
Variable stat : text → option ftype.
Variable listdir : text → option (list text).
Variable do_match : bool.
Abbreviation lookup_in := (lookup_in stat do_match).
Abbreviation srcdir_list_loop := (srcdir_list_loop stat do_match).
Abbreviation srcdir_list := (srcdir_list stat do_match).
Abbreviation fs_step := (fs_step stat do_match).

(** The look-up below a source directory. *)
Lemma source_lookup s src rest : tree_inv s → is_dir_node s src →
  Forall good_name rest → Forall simple_name rest →
  sound s (FS_Dir stat do_match (AStr (dot_path rest)) (Some (ANode src)) true s)
    (λ s' n, is_Some (fnodes s' !! n) ∧ label s' n = label s src ++ key_text rest) (refused true).
Proof.
  intros Hs Hd Hg Hsi. destruct Hd as (x & Hx & Hk).
  destruct (dir_label s src x Hs Hx) as (ws & Hws & Hl & _).
  destruct (lookup_dot_path rest Hg Hsi s src x ws Hx Hws Hl) as [Hplain Hpath].
  destruct (dot_path_head rest Hg Hsi) as (c & t & E & _ & Hc).
  assert (FS_Dir stat do_match (AStr (dot_path rest)) (Some (ANode src)) true s =
    lookup_in (AStr (dot_path rest)) (Some src) CDir true s) as ->.
  { unfold FS_Dir, _lookup. rewrite bool_decide_eq_false_2 by (rewrite E; simpl; congruence).
    by rewrite (lookup_total_correct _ _ _ Hx), Hk. }
  eapply sound_use; [apply (lookup_in_sound stat do_match s (AStr (dot_path rest)) (Some src) CDir true);
    [done|done|by exists x|done]|].
  intros s' n Hs' _ [_ Hn]. rewrite Hpath in Hn.
  destruct (key_label s' n (ws ++ rest) Hs') as [Hex Hlab]; [by apply Forall_app|done|].
  split; [done|]. rewrite Hlab, key_text_app. unfold label.
  by rewrite (lookup_total_correct _ _ _ Hx), Hl.
Qed.

(** Going up the tree. *)
Lemma rev_elements s d x : tree_inv s → fnodes s !! d = Some x →
  if decide (d = root) then rev (elements_of s d) = [root] ∧ up s d = None
  else ∃ p px, fnodes s !! p = Some px ∧ p < d ∧ ndir (fid x) = p ∧
       rev (elements_of s d) = d :: rev (elements_of s p) ∧
       depth s d = S (depth s p) ∧ good_name (fname (fid x)) ∧
       (is_dir (kind x) = true → up s d = Some p ∧ is_dir (kind px) = true).
Proof.
  intros Hs Hx. unfold elements_of, up, depth. rewrite (lookup_total_correct _ _ _ Hx).
  case_decide as Hd.
  - subst. destruct (ti_root s Hs) as (r & Hr & Hk & Hir). assert (x = r) as -> by congruence.
    rewrite Hir, decide_True by done. done.
  - destruct (node_parent s Hs d x Hx Hd) as (p & Hlt & Hp & Hkp & Hpe & _ & Hg).
    exists (ndir (fid x)), p. rewrite (lookup_total_correct _ _ _ Hp), Hpe, rev_app_distr, length_app.
    split_and!; [done..|simpl; lia|done|]. intros Hk. split; [|done].
    rewrite decide_False by apply (ti_node s Hs d x Hx Hd).
    by destruct (ti_entries s Hs d x Hx Hk).
Qed.

Lemma simple_up s d x p : tree_inv s → fnodes s !! d = Some x → d ≠ root → ndir (fid x) = p →
  simple s d → simple_name (fname (fid x)) ∧ simple s p.
Proof.
  intros Hs Hx Hd <- Hsd. destruct (node_parent s Hs d x Hx Hd) as (px & _ & Hp & _ & Hpe & _).
  unfold simple, elements_of in *. rewrite (lookup_total_correct _ _ _ Hx), Hpe in Hsd.
  rewrite (lookup_total_correct _ _ _ Hp).
  destruct (node_elements s Hs _ px Hp) as (l & Hl & _). rewrite Hl in *.
  change (drop 1 ((root :: l) ++ [d])) with (l ++ [d]) in Hsd. change (drop 1 (root :: l)) with l.
  unfold names_of in *. rewrite map_app in Hsd. apply Forall_app in Hsd as [Hl' Hd'].
  split; [|done]. inversion Hd' as [|? ? H _]; subst. by rewrite (lookup_total_correct _ _ _ Hx) in H.
Qed.

Lemma srcdir_loop_sound fuel s d x rest : var_inv s → fnodes s !! d = Some x →
  is_dir (kind x) = true → depth s d ≤ fuel → Forall good_name rest →
  Forall simple_name rest → simple s d →
  sound s (srcdir_list_loop fuel (dot_path rest) d s)
    (λ s' l, Forall (λ m, is_Some (fnodes s' !! m)) l ∧
             map (label s') l = srcdir_paths_up s (rev (elements_of s d)) rest) (refused true).
Proof.
  revert s d x rest. induction fuel as [|fuel IH]; intros s d x rest Hs Hx Hk Hf Hg Hsi Hsd.
  { destruct (node_elements s (vi_tree s Hs) d x Hx) as (l & Hl & _). unfold depth in Hf.
    rewrite (lookup_total_correct _ _ _ Hx), Hl in Hf. simpl in Hf. lia. }
  cbn [FSVariant.srcdir_list_loop]. rewrite (lookup_total_correct _ _ _ Hx).
  apply (sound_bind _ _ _ (λ s' l, Forall (λ m, is_Some (fnodes s' !! m)) l ∧ map (label s') l =
    match source_of s d with Some src => [label s src ++ key_text rest] | None => [] end)).
  { unfold source_of. rewrite (lookup_total_correct _ _ _ Hx).
    destruct (srcdir (ddata x)) as [src|] eqn:Hsrc.
    - destruct (vi_srcdir s Hs d x src Hx Hsrc) as [_ Hdn].
      eapply sound_bind; [by apply source_lookup; [apply (vi_tree s Hs)|..]|].
      intros n s1 Hs1 _ [Hn Hlab]. split_and!; [done|reflexivity|]. split; [by apply Forall_singleton|].
      simpl. by rewrite Hlab.
    - split_and!; [apply (vi_tree s Hs)|reflexivity|done]. }
  intros l s1 Hs1 He1 [Hall Hmap].
  pose proof (var_extends s s1 Hs Hs1 He1) as Hv1.
  destruct (ex_nodes _ _ He1 d x Hx) as (x1 & Hx1 & Hi1 & Hkl & _).
  assert (is_dir (kind x1) = true) as Hk1 by (destruct Hkl as [<- | E]; [done|by rewrite E in Hk]).
  pose proof (rev_elements s d x (vi_tree s Hs) Hx) as Hup.
  eapply (sound_bind _ _ _ (λ s' r, Forall (λ m, is_Some (fnodes s' !! m)) r ∧ map (label s') r =
    srcdir_paths_up s (tail (rev (elements_of s d))) (fname (fid x) :: rest))).
  - case_decide as Hd.
    { destruct Hup as [Hrev ->]. rewrite Hrev. split_and!; [done|reflexivity|done]. }
    destruct Hup as (p & px & Hp & Hlt & Hnd & Hrev & Hdep & Hgn & Hdir). destruct (Hdir Hk) as [-> Hkp].
    rewrite Hrev, dot_path_cons. cbn [tail].
    destruct (ex_nodes _ _ He1 p px Hp) as (px1 & Hp1 & Hip & Hlp & _).
    destruct (elements_extends s s1 p He1 ltac:(eauto)) as [Eel _].
    assert (∀ m, m ∈ elements_of s p → is_Some (fnodes s !! m)) as Hexp.
    { intros m. by apply (elements_exist s p px m (vi_tree s Hs) Hp). }
    assert (simple_name (fname (fid x)) ∧ simple s p) as [Hsx Hsp]
      by exact (simple_up s d x p (vi_tree s Hs) Hx Hd Hnd Hsd).
    eapply sound_weaken; [apply (IH s1 p px1 (fname (fid x) :: rest)); try done| |done].
    + destruct Hlp as [<- | E]; [done|by rewrite E in Hkp].
    + unfold depth in *. unfold elements_of in Eel. rewrite Eel. lia.
    + by constructor.
    + by constructor.
    + unfold simple. rewrite Eel, (names_extends s s1); [done|done|]. intros m Hm. apply Hexp.
      rewrite <- (take_drop 1 (elements_of s p)). apply elem_of_app. by right.
    + intros s' r [Hr1 Hr2]. split; [done|]. rewrite Hr2, Eel. apply paths_extends; [done..|].
      intros m Hm. apply Hexp. by apply list_elem_of_In, in_rev, list_elem_of_In in Hm.
  - intros r s2 Hs2 He2 [Hr1 Hr2]. unfold sound, eret. cbn [fst snd].
    split_and!; [done|reflexivity| |].
    + apply Forall_app. split; [|done]. eapply Forall_impl; [exact Hall|]. intros m [z Hz].
      destruct (ex_nodes _ _ He2 m z Hz) as (z' & Hz' & _). by exists z'.
    + rewrite map_app, Hr2.
      assert (map (label s2) l = map (label s1) l) as ->.
      { apply map_ext_in. intros m Hm%list_elem_of_In. apply label_extends; [done|].
        rewrite Forall_forall in Hall. by apply Hall. }
      rewrite Hmap. assert (∃ t, rev (elements_of s d) = d :: t) as [t Ht].
      { case_decide as Hd; [subst; by destruct Hup as [-> _]; eexists|].
        destruct Hup as (p & px & _ & _ & _ & -> & _). by eexists. }
      rewrite Ht. cbn [srcdir_paths_up tail]. by rewrite (lookup_total_correct _ _ _ Hx).
Qed.

(** *** Updates that keep what the lists depend on *)

Lemma upd_proj {A} (g : fnode → A) s n f m : (∀ x, g (f x) = g x) →
  g (fnodes (upd n f s) !!! m) = g (fnodes s !!! m).
Proof.
  intros Hf. rewrite !lookup_total_alt, lookup_upd. case_decide; [|by rewrite option_fmap_id].
  destruct (fnodes s !! m); simpl; [apply Hf|done].
Qed.
Lemma cleared_proj {A} (g : fnode → A) dup U s s' m : (∀ x, g (clear_one dup x) = g x) →
  cleared dup U s s' → g (fnodes s' !!! m) = g (fnodes s !!! m).
Proof.
  intros Hg (_ & _ & _ & H). rewrite !lookup_total_alt, H.
  destruct (fnodes s !! m); [|done]. simpl. destruct (U m); [apply Hg|done].
Qed.

(** The lists follow from the identities of the nodes and their sources. *)
Lemma paths_fid s s' d : (∀ m, fid (fnodes s' !!! m) = fid (fnodes s !!! m)) →
  (∀ m, m ∈ elements_of s d → source_of s' m = source_of s m) →
  srcdir_paths s' d = srcdir_paths s d.
Proof.
  intros Hi Hs. unfold srcdir_paths. assert (elements_of s' d = elements_of s d) as ->.
  { unfold elements_of. by rewrite Hi. }
  assert (∀ m, m ∈ rev (elements_of s d) → source_of s' m = source_of s m) as Hup.
  { intros m Hm. apply Hs. by apply list_elem_of_In, in_rev, list_elem_of_In in Hm. }
  revert Hup. generalize (rev (elements_of s d)) as ups. generalize (@nil text) as rest.
  intros rest ups. revert rest. induction ups as [|e ups IH]; intros rest Hup; [done|].
  cbn [srcdir_paths_up]. rewrite (Hup e) by left. rewrite Hi, IH by (intros; apply Hup; by right).
  destruct (source_of s e); [|done]. unfold label. by rewrite Hi.
Qed.
Lemma simple_fid s s' d : (∀ m, fid (fnodes s' !!! m) = fid (fnodes s !!! m)) →
  simple s' d ↔ simple s d.
Proof.
  intros Hi. unfold simple, elements_of, names_of. rewrite Hi.
  assert (∀ l, map (λ n, fname (fid (fnodes s' !!! n))) l = map (λ n, fname (fid (fnodes s !!! n))) l) as ->;
    [|done]. intros l. apply map_ext. intros n. by rewrite Hi.
Qed.
Lemma labels_fid s s' l : (∀ m, fid (fnodes s' !!! m) = fid (fnodes s !!! m)) →
  map (label s') l = map (label s) l.
Proof. intros Hi. apply map_ext. intros n. unfold label. by rewrite Hi. Qed.

Lemma srcdir_list_spec s d : var_inv s → is_dir_node s d → simple s d →
  var_inv (srcdir_list d s).1 ∧
  match (srcdir_list d s).2 with
  | Ok l => map (label (srcdir_list d s).1) l = srcdir_paths s d
  | Raise (Some e) => refused true e
  | Raise None => False
  end.
Proof.
  intros Hs (x & Hx & Hk) Hsd. unfold FSVariant.srcdir_list. rewrite (lookup_total_correct _ _ _ Hx).
  destruct (memo_srcdirs (fmemos x)) as [l|] eqn:Hm.
  { split; [done|]. by apply (vi_memo s Hs d x l Hx Hm). }
  change (T ".") with (dot_path []).
  destruct (srcdir_loop_sound (depth s d) s d x [] Hs Hx Hk) as (Ht & He & Hr);
    [done|constructor|constructor|done|].
  unfold ebind. destruct (srcdir_list_loop _ _ _ _) as [s1 [l|[e|]]]; cbn [fst snd] in *.
  2:{ split; [by eapply var_extends|done]. }
  2:{ done. }
  destruct Hr as [Hall Hmap]. pose proof (var_extends s s1 Hs Ht He) as Hv.
  unfold emod, eret. cbn [fst snd].
  set (f := with_memo_srcdirs l). set (s2 := upd d f s1).
  assert (∀ m, fid (fnodes s2 !!! m) = fid (fnodes s1 !!! m)) as Hi by (intros; by apply upd_proj).
  assert (∀ m, source_of s2 m = source_of s1 m) as Hsrc.
  { intros. unfold source_of. by apply (upd_proj (λ x, srcdir (ddata x))). }
  split; [|by rewrite (labels_fid s1 s2)].
  assert (∀ n y, fnodes s2 !! n = Some y → ∃ z, fnodes s1 !! n = Some z ∧ kind y = kind z ∧
    srcdir (ddata y) = srcdir (ddata z) ∧
    memo_srcdirs (fmemos y) = if decide (n = d) then Some l else memo_srcdirs (fmemos z)) as Hback.
  { intros n y. unfold s2. rewrite lookup_upd. intros (z & Hz & ->)%fmap_Some. exists z. by case_decide. }
  split.
  - apply upd_tree; [done|]. intros y _. split; [done|by left|]. intros H.
    change (is_dir (kind y) = true) in H. by rewrite H.
  - intros n y src Hy Hsy. destruct (Hback n y Hy) as (z & Hz & -> & Hsz & _). rewrite Hsz in Hsy.
    destruct (vi_srcdir s1 Hv n z src Hz Hsy) as [? (w & Hw & Hkw)]. split; [done|].
    destruct (fnodes s2 !! src) as [w'|] eqn:E.
    + exists w'. split; [done|]. destruct (Hback src w' E) as (w2 & Hw2 & -> & _). congruence.
    + unfold s2 in E. rewrite lookup_upd, Hw in E. done.
  - intros n y l' Hy Hmy. destruct (Hback n y Hy) as (z & Hz & Hkz & _ & Hmz). rewrite Hmz in Hmy. rewrite Hkz.
    assert (is_dir (kind z) = true ∧ (simple s1 n → Forall (λ m, is_Some (fnodes s1 !! m)) l' ∧
      map (label s1) l' = srcdir_paths s1 n)) as [Hkn Hcur].
    { case_decide as Hn; [|by apply (vi_memo s1 Hv n z l')]. subst n. injection Hmy as <-.
      destruct (ex_nodes _ _ He d x Hx) as (x1 & Hx1 & _ & Hl & _). assert (x1 = z) as -> by congruence.
      split; [destruct Hl as [<- | E]; [done|by rewrite E in Hk]|]. intros _. split; [done|]. rewrite Hmap.
      unfold srcdir_paths. destruct (elements_extends s s1 d He ltac:(eauto)) as [-> _]. symmetry.
      apply paths_extends; [done..|]. intros m Hin. apply (elements_exist s d x m (vi_tree s Hs) Hx).
      by apply list_elem_of_In, in_rev, list_elem_of_In in Hin. }
    split; [done|]. rewrite (simple_fid s1 s2), (labels_fid s1 s2), (paths_fid s1 s2) by done.
    intros Hsn. destruct (Hcur Hsn) as [Ha Hp]. split; [|done]. eapply Forall_impl; [exact Ha|].
    intros m [w Hw]. unfold s2. rewrite lookup_upd, Hw. eauto.
Qed.

(** *** Linking *)

Lemma is_under_loop_below fuel s n d x : tree_inv s → fnodes s !! n = Some x →
  depth s n ≤ fuel → is_under_loop fuel s n d = Some (below s d n).
Proof.
  intros Hs. revert n x. induction fuel as [|fuel IH]; intros n x Hx Hf.
  { destruct (node_elements s Hs n x Hx) as (l & Hl & _). unfold depth in Hf.
    rewrite (lookup_total_correct _ _ _ Hx), Hl in Hf. simpl in Hf. lia. }
  cbn [is_under_loop]. rewrite (lookup_total_correct _ _ _ Hx). case_decide as Hnd.
  { subst. by rewrite (below_self s d x Hs Hx). }
  destruct (decide (n = root)) as [Hn|Hn].
  - rewrite decide_True by by apply (kind_root s Hs n x Hx). f_equal. symmetry. unfold below.
    rewrite (lookup_total_correct _ _ _ Hx). subst n.
    destruct (ti_root s Hs) as (r & Hr & _ & Hir). assert (x = r) as -> by congruence. rewrite Hir.
    apply bool_decide_eq_false_2. cbn [path_elements]. intros ?%list_elem_of_singleton. congruence.
  - rewrite decide_False by by rewrite (kind_root s Hs n x Hx).
    destruct (node_parent s Hs n x Hx Hn) as (p & _ & Hp & _ & Hpe & _).
    rewrite (IH _ p Hp).
    + unfold below. rewrite (lookup_total_correct _ _ _ Hp), (lookup_total_correct _ _ _ Hx), Hpe.
      f_equal. apply bool_decide_ext. rewrite elem_of_app, list_elem_of_singleton. naive_solver.
    + unfold depth in *. rewrite (lookup_total_correct _ _ _ Hx), Hpe, length_app in Hf.
      rewrite (lookup_total_correct _ _ _ Hp). simpl in Hf. lia.
Qed.
Lemma is_under_below s n d : tree_inv s → is_Some (fnodes s !! n) → is_under s n d = Some (below s d n).
Proof.
  intros Hs [x Hx]. unfold is_under. apply (is_under_loop_below _ s n d x Hs Hx).
  unfold depth. lia.
Qed.

(** What [link] does to the nodes. *)
Lemma link_nodes s d src dup x : tree_inv s → fnodes s !! d = Some x → is_dir (kind x) = true →
  d ≠ root → is_Some (fnodes s !! src) →
  let s' := (link d src dup s).1 in
  (link d src dup s).2 = Ok tt ∧ tree_inv s' ∧
  ∀ n, option_Forall2 (λ x y, fid y = fid x ∧ kind y = kind x ∧
    srcdir (ddata y) = (if decide (n = d) then Some src else srcdir (ddata x)) ∧
    duplicate y = (if below s d n then dup else duplicate x) ∧
    fmemos y = (if below s d n then no_memo else fmemos x))
    (fnodes s !! n) (fnodes s' !! n).
Proof.
  intros Hs Hx Hk Hd Hsrc s'. split; [done|]. subst s'. unfold link. cbn [fst].
  set (s1 := upd d (λ x, with_duplicate dup (with_srcdir (Some src) x)) s).
  assert (tree_inv s1) as Hs1.
  { apply upd_tree; [done|]. intros y _. split; [done|by left|]. intros H.
    change (is_dir (kind y) = true) in H. by rewrite H. }
  assert (∃ x1, fnodes s1 !! d = Some x1 ∧ is_dir (kind x1) = true) as (x1 & Hx1 & Hk1).
  { unfold s1. rewrite lookup_upd, decide_True, Hx by done. eexists. by split. }
  assert (cleared (Some dup) (below s1 d) s1 (clear_cache (Some dup) d s1)) as Hc.
  { unfold clear_cache. apply (clear_repository_below _ _ _ _ x1); [done..|lia]. }
  set (s2 := clear_cache (Some dup) d s1) in *.
  pose proof (cleared_tree _ _ _ _ Hs1 Hc) as Hs2. split.
  - apply upd_tree; [done|]. intros y _. split; [done|by left|]. intros H.
    change (is_dir (kind y) = true) in H. by rewrite H.
  - intros n. rewrite lookup_upd. destruct Hc as (_ & _ & _ & Hc). rewrite Hc. unfold s1 at 2.
    rewrite lookup_upd. destruct (fnodes s !! n) as [y|] eqn:Hy; simpl; constructor.
    assert (below s1 d n = below s d n) as ->.
    { unfold below, s1. by rewrite (upd_proj fid). }
    destruct (decide (n = src)) as [Hns|Hns], (decide (n = d)) as [->|Hnd]; simpl;
      rewrite ?(below_self s d x Hs Hx); try by split_and!.
    all: destruct (below s d n); by split_and!.
Qed.

Lemma link_var s d src dup : var_inv s → is_dir_node s d → d ≠ root → is_dir_node s src →
  var_inv (link d src dup s).1.
Proof.
  intros Hs (x & Hx & Hk) Hd Hsrc.
  assert (is_Some (fnodes s !! src)) as Hex by (destruct Hsrc as (y & ? & _); by exists y).
  destruct (link_nodes s d src dup x (vi_tree s Hs) Hx Hk Hd Hex) as (_ & Ht & Hn).
  set (s' := (link d src dup s).1) in *.
  assert (∀ n y, fnodes s' !! n = Some y → ∃ z, fnodes s !! n = Some z ∧ fid y = fid z ∧ kind y = kind z ∧
    srcdir (ddata y) = (if decide (n = d) then Some src else srcdir (ddata z)) ∧
    fmemos y = (if below s d n then no_memo else fmemos z)) as Hback.
  { intros n y Hy. specialize (Hn n). rewrite Hy in Hn. inversion Hn as [z ? (? & ? & ? & _ & ?)|]; subst. eauto 8. }
  assert (∀ m, is_dir_node s m → is_dir_node s' m) as Hdirs.
  { intros m (z & Hz & Hkz). specialize (Hn m). rewrite Hz in Hn.
    inversion Hn as [? y (_ & E & _)|]; subst. exists y. by rewrite E. }
  assert (∀ m, fid (fnodes s' !!! m) = fid (fnodes s !!! m)) as Hi.
  { intros m. rewrite !lookup_total_alt. generalize (Hn m).
    generalize (fnodes s !! m), (fnodes s' !! m). by destruct 1 as [? ? (E & _)|]. }
  assert (∀ m, m ≠ d → source_of s' m = source_of s m) as Hsame.
  { intros m Hm. unfold source_of. rewrite !lookup_total_alt. generalize (Hn m).
    generalize (fnodes s !! m), (fnodes s' !! m).
    destruct 1 as [? ? (_ & _ & E & _)|]; [|done]. by rewrite decide_False in E. }
  split; [done|..].
  - intros n y s0 Hy Hsy. destruct (Hback n y Hy) as (z & Hz & _ & Hkz & Hsz & _). rewrite Hkz.
    rewrite Hsz in Hsy. case_decide as Hnd.
    + injection Hsy as <-. subst n. assert (z = x) as -> by congruence. split; [done|by apply Hdirs].
    + destruct (vi_srcdir s Hs n z s0 Hz Hsy). split; [done|by apply Hdirs].
  - intros n y l Hy Hmy. destruct (Hback n y Hy) as (z & Hz & _ & Hkz & _ & Hmz). rewrite Hkz.
    rewrite Hmz in Hmy. destruct (below s d n) eqn:Hb; [done|].
    destruct (vi_memo s Hs n z l Hz Hmy) as [Hkn Hcur]. split; [done|].
    rewrite (simple_fid s s'), (labels_fid s s'), (paths_fid s s'); [|done| |done..].
    2:{ intros m Hm. apply Hsame. intros ->. unfold below in Hb. by apply bool_decide_eq_false in Hb. }
    intros Hsn. destruct (Hcur Hsn) as [Ha Hp]. split; [|done]. eapply Forall_impl; [exact Ha|].
    intros m [w Hw]. specialize (Hn m). rewrite Hw in Hn. inversion Hn; subst. eauto.
Qed.

(** *** Histories *)

(** Look-ups, calls of [VariantDir], and requests for source directories. *)
Inductive variant_step : fstate → fstate → Prop :=
| variant_fs s s' : fs_step s s' → variant_step s s'
| variant_link s var src dup : is_dir_node s var → is_dir_node s src →
    variant_step s (VariantDir stat do_match (ANode var) (ANode src) dup s).1
| variant_list s d : is_dir_node s d → simple s d → variant_step s (srcdir_list d s).1.

Definition variant_reachable (s : fstate) : Prop :=
  ∃ pathTop s0 top, isabs pathTop = true ∧ plain_name root_state pathTop ∧
    FS_init stat do_match pathTop = (s0, Ok top) ∧ rtc variant_step s0 s.

Lemma VariantDir_var s var src dup : var_inv s → is_dir_node s var → is_dir_node s src →
  var_inv (VariantDir stat do_match (ANode var) (ANode src) dup s).1.
Proof.
  intros Hs Hv Hsrc. assert (is_Some (fnodes s !! src)) as [y Hy].
  { destruct Hsrc as (y & ? & _). by exists y. }
  cbn [VariantDir fs_arg_dir ebind eret]. rewrite (is_under_below s src var (vi_tree s Hs)) by eauto.
  destruct (below s var src) eqn:Hb; [done|].
  destruct (srcdir (ddata (fnodes s !!! var))); [by case_decide|].
  apply link_var; [done|done| |done]. intros ->. unfold below in Hb.
  rewrite (lookup_total_correct _ _ _ Hy) in Hb.
  destruct (node_elements s (vi_tree s Hs) src y Hy) as (l & E & _). rewrite E in Hb.
  apply bool_decide_eq_false in Hb. apply Hb. left.
Qed.

Lemma variant_step_inv s s' : var_inv s → variant_step s s' → var_inv s'.
Proof.
  intros Hs Hst. destruct Hst as [s s' Hst|s var src dup Hv Hsrc|s d Hd Hsd].
  - destruct (fs_step_inv stat do_match s s' (vi_tree s Hs) Hst). by eapply var_extends.
  - by apply VariantDir_var.
  - by apply srcdir_list_spec.
Qed.

Lemma root_state_var : var_inv root_state.
Proof.
  assert (∀ n x, fnodes root_state !! n = Some x →
    srcdir (ddata x) = None ∧ memo_srcdirs (fmemos x) = None) as H.
  { intros n x Hx. unfold root_state in Hx. cbn [fnodes] in Hx.
    by apply lookup_singleton_Some in Hx as [<- <-]. }
  split; [apply root_state_inv|..]; intros n x ? Hx E; destruct (H n x Hx); congruence.
Qed.

Lemma variant_reachable_inv s : variant_reachable s → var_inv s.
Proof.
  intros (p & s0 & top & _ & Hp & Hi & Hst).
  destruct (FS_init_inv stat do_match p s0 top Hp Hi) as (Ht & s1 & Ht1 & He & Hn).
  assert (var_inv s0) as H0.
  { pose proof (var_extends _ _ root_state_var Ht1 He) as [_ H2 H3].
    destruct s0 as [ns ks t c]. cbn [fnodes] in Hn. subst ns. split; [done|exact H2|].
    intros n x l Hx Hm. destruct (H3 n x l Hx Hm) as [Hk Hc]. split; [done|]. intros Hsn.
    destruct (Hc Hsn) as [Ha Hl]. split; [exact Ha|]. rewrite (paths_fid s1) by done. exact Hl. }
  clear Hi Hp Ht He Hn Ht1. induction Hst as [|s0 s2 s Hst _ IH]; [done|]. apply IH. by eapply variant_step_inv.
Qed.

(** C34: after any look-ups of plain names, calls of [VariantDir] and requests for
    source directories, for a directory with no component of its path that begins
    with [#] or holds a newline ([simple]; such names are looked up differently):
    the list of its source directories, cached or not, is the one
    that its place and the links now in force give, although the caches of a
    whole subtree are only dropped when a directory is linked; or the call is
    refused, with a [TypeError], where a file is in the place of a directory. *)
Theorem srcdir_list_current s d
    (Hs : variant_reachable s) (Hd : is_dir_node s d) (Hsd : simple s d) :
  match srcdir_list d s with
  | (s', Ok l) => map (label s') l = srcdir_paths s d
  | (_, Raise (Some e)) => refused true e
  | (_, Raise None) => False
  end.
Proof.
  pose proof (srcdir_list_spec s d (variant_reachable_inv s Hs) Hd Hsd) as [_ H].
  by destruct (srcdir_list d s) as [s' [l|[e|]]].
Qed.
End caches.

(** ** Witness

    The list of [build/x] is asked for before [build] is linked to [src], and
    cached; it is current after the link. *)
Definition ex_s3 : fstate * res fexn nat := FS_Dir ex_stat true (AStr (T "build/x")) None true ex_s0.
Definition ex_s4 : fstate * res fexn nat := FS_Dir ex_stat true (AStr (T "src")) None true ex_s3.1.
Definition ex_s5 : fstate := (srcdir_list ex_stat true 3 ex_s4.1).1.
Definition ex_s6 : fstate := (VariantDir ex_stat true (ANode 2) (ANode 4) true ex_s5).1.
Definition ex_s7 := srcdir_list ex_stat true 3 ex_s6.
Example ex_s7_list :
  (memo_srcdirs (fmemos (fnodes ex_s5 !!! 3)), ex_s7.2, map (λ s, srcdir_paths s 3) [ex_s5; ex_s6])
  = (Some [], Ok [5], [[]; [T "/w/src/x"]]).
Proof. vm_compute. reflexivity. Qed.

Lemma ex_dir_step s p : Top s ≠ root → ("010"%char ∉ p) → startswith (T "//") p = false →
  variant_step ex_stat true s (FS_Dir ex_stat true (AStr p) None true s).1.
Proof. intros Ht Hn Hp. apply variant_fs, step_lookup; [by apply ex_plain|done|done]. Qed.

Lemma srcdir_list_current_witness :
  match srcdir_list ex_stat true 3 ex_s6 with
  | (s', Ok l) => map (label s') l = srcdir_paths ex_s6 3
  | (_, Raise (Some e)) => refused true e
  | (_, Raise None) => False
  end.
Proof.
  apply (srcdir_list_current ex_stat true ex_s6 3).
  - exists (T "/w"), ex_s0, 1. split_and!;
      [done|split; [by apply (bool_decide_unpack _)|done]|by vm_compute|].
    eapply rtc_l; [apply (ex_dir_step _ (T "build/x")); [by vm_compute|by apply (bool_decide_unpack _)|done]|].
    eapply rtc_l; [apply (ex_dir_step _ (T "src")); [by vm_compute|by apply (bool_decide_unpack _)|done]|].
    eapply rtc_l; [eapply (variant_list _ _ _ 3)|].
    + eexists. split; by vm_compute.
    + apply (bool_decide_unpack _). vm_compute. exact I.
    + eapply rtc_l; [eapply (variant_link _ _ _ 2 4 true)|apply rtc_refl].
      * eexists. split; by vm_compute.
      * eexists. split; by vm_compute.
  - eexists. split; by vm_compute.
  - apply (bool_decide_unpack _). vm_compute. exact I.
Defined.
