(* ===== verification/Textwrap.v ===== *)
(** * The text wrapper ([SCons/compat/_scons_textwrap.py])

    [TextWrapper] with its splitting expression written out, [wrap], [fill] and
    [dedent], for byte strings.  Lengths and widths are integers: the room that
    an indentation leaves on a line can be negative. *)

From S2P Require Import Prelude Errors PyStr.
Open Scope nat_scope.

Record TextWrapper := {
  width : Z;
  initial_indent : text;
  subsequent_indent : text;
  expand_tabs : bool;
  replace_whitespace : bool;
  fix_endings : bool;
  break_long_words : bool
}.

(** [TextWrapper.__init__] with its defaults *)
Definition TextWrapper_init (width : Z) : TextWrapper :=
  {| width := width; initial_indent := []; subsequent_indent := []; expand_tabs := true;
     replace_whitespace := true; fix_endings := false; break_long_words := true |}.

Definition zlen (s : text) : Z := Z.of_nat (length s).

(** ** [_munge_whitespace]

    [string.expandtabs], with the column reached. *)
Fixpoint expandtabs (col : nat) (s : text) : text :=
  match s with
  | [] => []
  | c :: s =>
      if decide (c = "009"%char) then
        let n := 8 - col mod 8 in replicate n " "%char ++ expandtabs (col + n) s
      else c :: expandtabs (if decide (c = "010"%char ∨ c = "013"%char) then 0 else S col) s
  end.

Definition munge_whitespace (w : TextWrapper) (t : text) : text :=
  let t := if expand_tabs w then expandtabs 0 t else t in
  if replace_whitespace w then map (λ c, if is_space c then " "%char else c) t else t.

(** ** [_split]

    A match of [wordsep_re] after the character [prev]: white space, a part of a
    hyphenated word, or a dash between words.  No alternative can backtrack. *)
Definition word2 (s : text) : bool :=
  match s with a :: b :: _ => is_word a && is_word b | _ => false end.
Definition is_mark (c : ascii) : bool := negb (is_space c) && negb (is_word c).
Definition before_dash (c : ascii) : bool :=
  is_word c || bool_decide (c ∈ ["!"; "034"; "'"; "&"; "."; ","; "?"]%char).

Definition hyphenated (s : text) : option (text * text) :=
  let '(marks, s1) := span is_mark s in
  let '(word, s2) := span is_word s1 in
  match s2 with
  | "-"%char :: rest =>
      if bool_decide (2 ≤ length word) && word2 rest then Some (marks ++ word ++ ["-"%char], rest)
      else None
  | _ => None
  end.
Definition em_dash (prev : option ascii) (s : text) : option (text * text) :=
  let '(dashes, rest) := span (λ c, bool_decide (c = "-"%char)) s in
  if match prev with Some c => before_dash c | None => false end
     && bool_decide (2 ≤ length dashes)
     && match rest with c :: _ => is_word c | [] => false end
  then Some (dashes, rest) else None.
Definition wordsep (prev : option ascii) (s : text) : option (text * text) :=
  match span is_space s with
  | ([], _) => match hyphenated s with Some m => Some m | None => em_dash prev s end
  | m => Some m
  end.

(** [wordsep_re.split]: [acc] is the piece since the last match. *)
Fixpoint split_chunks (fuel : nat) (prev : option ascii) (acc s : text) : list text :=
  match fuel, s with
  | S fuel, c :: s' =>
      match wordsep prev s with
      | Some (m, rest) => acc :: m :: split_chunks fuel (last m) [] rest
      | None => split_chunks fuel (Some c) (acc ++ [c]) s'
      end
  | _, _ => [acc]
  end.
Definition tw_split (t : text) : list text :=
  filter (λ c, c ≠ []) (split_chunks (length t) None [] t).

(** ** [_fix_sentence_endings]; the search of [sentence_end_re]. *)
Fixpoint sentence_end (s : text) : bool :=
  match s with
  | a :: ((b :: _) as s') =>
      is_lower a && bool_decide (b ∈ ["."; "!"; "?"]%char) || sentence_end s'
  | _ => false
  end.
Fixpoint fix_sentence_endings (chunks : list text) : list text :=
  match chunks with
  | c :: ((d :: rest) as l) =>
      if bool_decide (d = [" "%char]) && sentence_end c
      then c :: T "  " :: fix_sentence_endings rest
      else c :: fix_sentence_endings l
  | _ => chunks
  end.

(** ** [_wrap_chunks] *)

(** [string.strip(s) == ''] *)
Definition blank (s : text) : bool := forallb is_space s.

(** The inner loop: [cur_line], [cur_len] and the chunks left. *)
Fixpoint fill_line (room cur_len : Z) (cur_line chunks : list text) : list text * Z * list text :=
  match chunks with
  | [] => (cur_line, cur_len, [])
  | c :: rest =>
      if decide (cur_len + zlen c ≤ room)%Z
      then fill_line room (cur_len + zlen c)%Z (cur_line ++ [c]) rest
      else (cur_line, cur_len, chunks)
  end.

(** [_handle_long_word] for the chunks [c :: rest]. *)
Definition handle_long_word (w : TextWrapper) (c : text) (rest cur_line : list text)
    (cur_len room : Z) : list text * list text :=
  let space_left := Z.to_nat (Z.max (room - cur_len) 1) in
  if break_long_words w then (cur_line ++ [take space_left c], drop space_left c :: rest)
  else match cur_line with
       | [] => ([c], rest)
       | _ => (cur_line, c :: rest)
       end.

Definition drop_last_blank (cur_line : list text) : list text :=
  match last cur_line with
  | Some c => if blank c then take (pred (length cur_line)) cur_line else cur_line
  | None => cur_line
  end.

(** One turn of the outer loop; [started] is whether there is a line already. *)
Definition next_line (w : TextWrapper) (started : bool) (room : Z) (chunks : list text)
    : list text * list text :=
  let chunks := match chunks with
                | c :: rest => if blank c && started then rest else chunks
                | [] => []
                end in
  let '(cur_line, cur_len, chunks) := fill_line room 0 [] chunks in
  let '(cur_line, chunks) :=
    match chunks with
    | c :: rest => if decide (room < zlen c)%Z then handle_long_word w c rest cur_line cur_len room
                   else (cur_line, chunks)
    | [] => (cur_line, [])
    end in
  (drop_last_blank cur_line, chunks).

Definition indent_of (w : TextWrapper) (lines : list text) : text :=
  match lines with [] => initial_indent w | _ => subsequent_indent w end.

Fixpoint wrap_loop (fuel : nat) (w : TextWrapper) (lines chunks : list text) : option (list text) :=
  match chunks with
  | [] => Some lines
  | _ =>
      match fuel with
      | O => None
      | S fuel =>
          let indent := indent_of w lines in
          let '(cur_line, chunks) :=
            next_line w (negb (bool_decide (lines = []))) (width w - zlen indent) chunks in
          wrap_loop fuel w
            (match cur_line with [] => lines | _ => lines ++ [indent ++ concat cur_line] end) chunks
      end
  end.

(** Enough turns when the loop ends ([wrap_loop_spec]). *)
Definition chunks_size (chunks : list text) : nat := sum_list_with (λ c, S (length c)) chunks.

Definition wrap_chunks (w : TextWrapper) (chunks : list text) : res (option exn) (list text) :=
  if decide (width w ≤ 0)%Z then Raise (Some (ExOther "ValueError" "invalid width (must be > 0)"))
  else match wrap_loop (chunks_size chunks) w [] chunks with
       | Some l => Ok l
       | None => Raise None
       end.

(** ** [wrap] and [fill] *)
Definition chunks_of (w : TextWrapper) (t : text) : list text :=
  let chunks := tw_split (munge_whitespace w t) in
  if fix_endings w then fix_sentence_endings chunks else chunks.
Definition wrap (w : TextWrapper) (t : text) : res (option exn) (list text) :=
  wrap_chunks w (chunks_of w t).
Definition fill (w : TextWrapper) (t : text) : res (option exn) text :=
  (let? l := wrap w t in Ok (join ["010"%char] l))%res.

(** ** [dedent] *)
Definition lstrip (s : text) : text := (span is_space s).2.
Definition line_margin (margin : option nat) (line : text) : option nat :=
  let content := lstrip line in
  match content with
  | [] => margin
  | _ => let indent := length line - length content in
         Some (match margin with None => indent | Some m => min m indent end)
  end.
Definition dedent (t : text) : text :=
  let lines := split "010"%char (expandtabs 0 t) in
  let lines := match foldl line_margin None lines with
               | Some m => map (drop m) lines
               | None => lines
               end in
  join ["010"%char] lines.

(** ** Examples *)
Example tw_split_doc :
  tw_split (T "Look, goof-ball -- use the -b option!") =
    map T ["Look,"; " "; "goof-"; "ball"; " "; "--"; " "; "use"; " "; "the"; " "; "-b"; " ";
           "option!"].
Proof. vm_compute. reflexivity. Qed.
Example wrap_ex :
  wrap (TextWrapper_init 10) (T "the em-dash--like this" ++ ["009"%char; "x"%char]) =
    Ok (map T ["the em-"; "dash--like"; "this  x"]).
Proof. vm_compute. reflexivity. Qed.
