(* ===== verification/TextwrapFacts.v ===== *)
(** * Facts about the text wrapper

    No ink is lost: what is not white space comes out in order; how long lines
    get; words stay whole when they may not be broken; the loop ends. *)

From S2P Require Import Prelude Errors PyStr Textwrap.
Open Scope nat_scope.

(** What is not white space. *)
Definition ink (s : text) : text := List.filter (λ c, negb (is_space c)) s.
Definition inked (c : text) : Prop := blank c = false.
#[export] Instance inked_dec c : Decision (inked c).
Proof. unfold inked. apply _. Defined.

Lemma ink_app a b : ink (a ++ b) = ink a ++ ink b.
Proof. apply List.filter_app. Qed.
Lemma ink_blank s : blank s = true → ink s = [].
Proof.
  unfold blank, ink. induction s as [|c s IH]; [done|]. cbn [forallb]. intros [Hc Hs]%andb_true_iff.
  cbn [List.filter]. rewrite Hc. by apply IH.
Qed.
Lemma ink_concat_blank l : Forall (λ c, blank c = true) l → ink (concat l) = [].
Proof.
  induction 1 as [|c l Hc Hl IH]; [done|]. cbn [concat]. by rewrite ink_app, ink_blank, IH.
Qed.
Lemma inked_blank l : Forall (λ c, blank c = true) l → filter inked l = [].
Proof.
  induction 1 as [|c l Hc Hl IH]; [done|]. rewrite filter_cons_False; [done|]. unfold inked. congruence.
Qed.
Lemma blank_replicate n : blank (replicate n " "%char) = true.
Proof. by induction n. Qed.
Lemma len_app a b : zlen (a ++ b) = (zlen a + zlen b)%Z.
Proof. unfold zlen. rewrite length_app. lia. Qed.

(** ** From the text to its chunks *)

Lemma expandtabs_ink col s : ink (expandtabs col s) = ink s.
Proof.
  revert col. induction s as [|c s IH]; intros col; [done|]. cbn [expandtabs]. case_decide as Hc.
  - subst c. cbv zeta. by rewrite ink_app, ink_blank, IH by apply blank_replicate.
  - unfold ink in *. cbn [List.filter]. by rewrite IH.
Qed.

Lemma munge_ink w t : ink (munge_whitespace w t) = ink t.
Proof.
  unfold munge_whitespace. set (t' := if expand_tabs w then expandtabs 0 t else t).
  assert (ink t' = ink t) as <-.
  { unfold t'. destruct (expand_tabs w); [apply expandtabs_ink|done]. }
  destruct (replace_whitespace w); [|done]. induction t' as [|c s IH]; [done|].
  unfold ink in *. cbn [map List.filter]. destruct (is_space c) eqn:Hc; [done|].
  rewrite Hc. cbn [negb]. by rewrite IH.
Qed.

Lemma wordsep_split prev s m rest : wordsep prev s = Some (m, rest) → s = m ++ rest ∧ m ≠ [].
Proof.
  unfold wordsep. pose proof (span_split is_space s) as Hs.
  destruct (span is_space s) as [[|b blanks] r]; [|intros [= <- <-]; by split].
  unfold hyphenated, em_dash. pose proof (span_split is_mark s) as Hm.
  destruct (span is_mark s) as [marks s1]. pose proof (span_split is_word s1) as Hw.
  destruct (span is_word s1) as [word s2].
  pose proof (span_split (λ c, bool_decide (c = "-"%char)) s) as Hd.
  destruct (span (λ c, bool_decide (c = "-"%char)) s) as [dashes r2].
  assert ((if match prev with Some c => before_dash c | None => false end
              && bool_decide (2 ≤ length dashes)
              && match r2 with c :: _ => is_word c | [] => false end
           then Some (dashes, r2) else None) = Some (m, rest) → s = m ++ rest ∧ m ≠ []) as Hem.
  { destruct (_ && _ && _) eqn:E; [|done]. intros [= <- <-]. split; [done|].
    apply andb_true_iff in E as [[_ E]%andb_true_iff _]. apply bool_decide_eq_true in E.
    by destruct dashes; [simpl in E; lia|]. }
  destruct s2 as [|c s2]; [done|]. destruct (decide (c = "-"%char)) as [->|Hc].
  - destruct (bool_decide (2 ≤ length word) && word2 s2) eqn:E; [|done]. intros [= <- <-].
    subst. split; [by rewrite <- !app_assoc|]. by destruct marks, word.
  - destruct c as [[] [] [] [] [] [] [] []]; try done.
Qed.

Lemma split_chunks_concat fuel prev acc s : length s ≤ fuel →
  concat (split_chunks fuel prev acc s) = acc ++ s.
Proof.
  revert prev acc s. induction fuel as [|fuel IH]; intros prev acc [|c s] Hl;
    try (simpl in *; by rewrite ?app_nil_r by lia || lia); [simpl in Hl; lia|].
  cbn [split_chunks]. destruct (wordsep prev (c :: s)) as [[m rest]|] eqn:Hw.
  - destruct (wordsep_split _ _ _ _ Hw) as [Hs Hm]. cbn [concat].
    assert (length (c :: s) = length m + length rest) as Hlen by (by rewrite Hs, length_app).
    rewrite IH, Hs; [done|]. destruct m; [done|]. simpl in *. lia.
  - rewrite IH; [by rewrite <- app_assoc|simpl in Hl; lia].
Qed.

Lemma concat_nonempty (l : list text) : concat (filter (λ c, c ≠ []) l) = concat l.
Proof.
  induction l as [|c l IH]; [done|]. rewrite filter_cons. case_decide as Hc.
  - cbn [concat]. f_equal. exact IH.
  - subst c. exact IH.
Qed.

Lemma fix_sentence_endings_ink l : ink (concat (fix_sentence_endings l)) = ink (concat l).
Proof.
  remember (length l) as n eqn:Hn. revert l Hn.
  induction n as [n IH] using lt_wf_ind; intros l ->. destruct l as [|c [|d rest]]; [done..|].
  change (fix_sentence_endings (c :: d :: rest)) with
    (if bool_decide (d = [" "%char]) && sentence_end c
     then c :: T "  " :: fix_sentence_endings rest else c :: fix_sentence_endings (d :: rest)).
  destruct (_ && _) eqn:E.
  - apply andb_true_iff in E as [Hd%bool_decide_eq_true _]. subst d. cbn [concat].
    rewrite !ink_app, (IH (length rest)); [done|simpl; lia|done].
  - change (ink (c ++ concat (fix_sentence_endings (d :: rest))) = ink (c ++ concat (d :: rest))).
    rewrite !(ink_app c), (IH (length (d :: rest))); [done|simpl; lia|done].
Qed.

Lemma chunks_of_ink w t : ink (concat (chunks_of w t)) = ink t.
Proof.
  unfold chunks_of.
  assert (ink (concat (tw_split (munge_whitespace w t))) = ink t) as H.
  { unfold tw_split. rewrite concat_nonempty, split_chunks_concat by done. apply munge_ink. }
  destruct (fix_endings w); [by rewrite fix_sentence_endings_ink|done].
Qed.

(** ** One line *)

Lemma len_nonneg s : (0 ≤ zlen s)%Z.
Proof. unfold zlen. lia. Qed.

Lemma fill_line_spec room n (cur chunks cur' : list text) n' (rest : list text) :
  fill_line room n cur chunks = (cur', n', rest) →
  ∃ taken : list text, cur' = cur ++ taken ∧ chunks = taken ++ rest ∧ n' = (n + zlen (concat taken))%Z ∧
    (taken = [] ∨ n' ≤ room)%Z ∧ match rest with c :: _ => (room < n' + zlen c)%Z | [] => True end.
Proof.
  revert n cur. induction chunks as [|c chunks IH]; intros n cur; cbn [fill_line].
  - intros [= <- <- <-]. exists []. rewrite app_nil_r. unfold zlen. cbn. split_and!; [done..|lia|by left|done].
  - case_decide as Hc; [|intros [= <- <- <-]; exists []; rewrite app_nil_r; unfold zlen in *; cbn;
      split_and!; [done..|lia|by left|lia]].
    intros H. destruct (IH _ _ H) as (taken & -> & -> & -> & Hr & Hn).
    exists (c :: taken). cbn [concat app]. rewrite <- app_assoc, len_app.
    split_and!; [done..|lia| |done].
    right. destruct Hr as [-> |Hr]; [cbn [concat]; unfold zlen at 2; cbn [length]|]; lia.
Qed.

Lemma drop_last_blank_spec (cur : list text) :
  ∃ dropped : list text, cur = drop_last_blank cur ++ dropped ∧ Forall (λ c, blank c = true) dropped.
Proof.
  unfold drop_last_blank. destruct cur as [|c cur _] using rev_ind; [by exists []|].
  rewrite last_snoc. destruct (blank c) eqn:Hc.
  - exists [c]. rewrite length_app, Nat.add_comm. cbn [length plus pred].
    rewrite take_app_length. split; [done|]. by constructor.
  - exists []. by rewrite app_nil_r.
Qed.

(** What one turn does to the chunks: they come out, up to blanks, and a part of
    a long chunk may be cut off. *)
Lemma chunks_size_app a b : chunks_size (a ++ b) = chunks_size a + chunks_size b.
Proof. apply sum_list_with_app. Qed.
Lemma chunks_size_cons c l : chunks_size (c :: l) = S (length c) + chunks_size l.
Proof. done. Qed.

Section line.
Variable w : TextWrapper.

(** The chunks that [handle_long_word] is called with, or nothing. *)
Definition after_fill (room : Z) (cur chunks : list text) (n : Z) : list text * list text :=
  match chunks with
  | c :: rest => if decide (room < zlen c)%Z then handle_long_word w c rest cur n room
                 else (cur, chunks)
  | [] => (cur, [])
  end.

(** No chunk is cut: words may not be broken, or all fit. *)
Definition whole (room : Z) (chunks : list text) : Prop :=
  break_long_words w = false ∨ Forall (λ c, (zlen c ≤ room)%Z) chunks.

Lemma after_fill_spec room (taken chunks cur rest : list text) :
  (taken = [] ∨ zlen (concat taken) ≤ room)%Z →
  after_fill room taken chunks (zlen (concat taken)) = (cur, rest) →
  concat cur ++ concat rest = concat (taken ++ chunks) ∧
  (break_long_words w = true → (zlen (concat cur) ≤ Z.max room 0 + 1)%Z) ∧
  (whole room chunks → cur ++ rest = taken ++ chunks ∧
     ((zlen (concat cur) ≤ Z.max room 0)%Z ∨ length cur ≤ 1)) ∧
  chunks_size rest ≤ chunks_size chunks ∧
  (match chunks with
   | c :: _ => (room < zlen (concat taken) + zlen c)%Z ∧ (c ≠ [] ∨ break_long_words w = false)
   | [] => True
   end →
   taken = [] → chunks ≠ [] → chunks_size rest < chunks_size chunks).
Proof.
  intros Ht. assert (zlen (concat taken) ≤ Z.max room 0)%Z as Hl.
  { destruct Ht as [-> |Ht]; [cbn; unfold zlen; cbn; lia|lia]. }
  unfold after_fill. destruct chunks as [|c chunks].
  { intros [= <- <-]. cbn [concat]. rewrite !app_nil_r. split_and!; try done; [lia|intros _; split; [done|by left]]. }
  case_decide as Hc.
  - unfold handle_long_word. destruct (break_long_words w) eqn:Hb; [|destruct taken as [|t taken]].
    + intros [= <- <-]. set (k := Z.to_nat (Z.max (room - zlen (concat taken)) 1)).
      assert (1 ≤ k) as Hk by (unfold k; lia).
      rewrite !concat_app. cbn [concat]. rewrite app_nil_r.
      split_and!.
      * by rewrite <- (take_drop k c) at 3; rewrite <- !app_assoc.
      * intros _. rewrite len_app. unfold zlen at 2. rewrite length_take. unfold k. lia.
      * intros [Hw|Hw]; [congruence|]. apply Forall_cons in Hw as [Hw _]. lia.
      * rewrite !chunks_size_cons, length_drop. lia.
      * intros [_ [Hne|?]] _ _; [|done]. rewrite !chunks_size_cons, length_drop.
        destruct c; [done|]. simpl. lia.
    + intros [= <- <-]. cbn [concat app]. rewrite app_nil_r. rewrite chunks_size_cons.
      split_and!; try done; [|lia|lia]. intros _. split; [done|by right].
    + intros [= <- <-]. rewrite concat_app. split_and!; try done. intros _. split; [done|by left].
  - intros [= <- <-]. rewrite concat_app. split_and!; try done.
    + intros _. lia.
    + intros _. split; [done|by left].
    + intros [Hr _] -> _. cbn [concat] in Hr. unfold zlen at 1 in Hr. cbn in Hr. lia.
Qed.

Lemma next_line_spec started room (chunks cur rest : list text) : chunks ≠ [] →
  next_line w started room chunks = (cur, rest) →
  ink (concat cur) ++ ink (concat rest) = ink (concat chunks) ∧
  (break_long_words w = true → (zlen (concat cur) ≤ Z.max room 0 + 1)%Z) ∧
  (whole room chunks → filter inked cur ++ filter inked rest = filter inked chunks ∧
     ((zlen (concat cur) ≤ Z.max room 0)%Z ∨ length cur ≤ 1) ∧ (rest `suffix_of` chunks)) ∧
  (started = true ∨ (0 ≤ room)%Z ∨ break_long_words w = false → chunks_size rest < chunks_size chunks).
Proof.
  intros Hne Hl. destruct chunks as [|c0 chunks]; [done|]. clear Hne. unfold next_line in Hl.
  set (l := c0 :: chunks) in *.
  set (chunks0 := if blank c0 && started then chunks else l) in *.
  assert (∃ del : list text, l = del ++ chunks0 ∧ Forall (λ c, blank c = true) del ∧
    (del = [] → started = true → blank c0 = false)) as (del & Edel & Hdel & Hstart).
  { subst chunks0. destruct (blank c0 && started) eqn:E.
    - exists [c0]. apply andb_true_iff in E as [? ?]. split_and!; [done|by constructor|done].
    - exists []. split_and!; [done|constructor|]. intros _ ->. by rewrite andb_true_r in E. }
  destruct (fill_line room 0 [] chunks0) as [[taken n] chunks1] eqn:Hf.
  apply fill_line_spec in Hf as (taken' & -> & Hc0 & -> & Ht & Hr). cbn [app] in Hl.
  change (match chunks1 with
          | c :: rest => if decide (room < zlen c)%Z
                         then handle_long_word w c rest taken' (0 + zlen (concat taken')) room
                         else (taken', chunks1)
          | [] => (taken', [])
          end) with (after_fill room taken' chunks1 (zlen (concat taken'))) in Hl.
  destruct (after_fill room taken' chunks1 (zlen (concat taken'))) as [cur1 rest1] eqn:Ha.
  injection Hl as <- <-.
  destruct (after_fill_spec room taken' chunks1 cur1 rest1 Ht Ha) as (Hcat & Hlen & Hwh & Hle & Hlt).
  destruct (drop_last_blank_spec cur1) as (dr & Edr & Hdr).
  set (cur := drop_last_blank cur1) in *.
  assert (zlen (concat cur1) = zlen (concat cur) + zlen (concat dr))%Z as Elen
    by (by rewrite Edr, concat_app, len_app).
  pose proof (len_nonneg (concat dr)) as Hdr0.
  split_and!.
  - rewrite Edel, concat_app, ink_app, (ink_concat_blank del), Hc0 by done. cbn [app].
    transitivity (ink (concat cur1 ++ concat rest1)); [|by f_equal].
    rewrite ink_app. f_equal. transitivity (ink (concat cur ++ concat dr)); 
      [|f_equal; transitivity (concat (cur ++ dr)); [by rewrite concat_app|by f_equal]].
    by rewrite ink_app, (ink_concat_blank dr), app_nil_r.
  - intros Hb. specialize (Hlen Hb). lia.
  - intros Hw. destruct Hwh as [Hcr Hsm].
    { destruct Hw as [Hw|Hw]; [by left|right]. rewrite Edel, Hc0 in Hw. by decompose_Forall. }
    rewrite Hc0, <- Hcr in Edel. split_and!.
    + rewrite Edel, !filter_app, (inked_blank del) by done. cbn [app]. f_equal.
      by rewrite Edr at 1; rewrite filter_app, (inked_blank dr), app_nil_r.
    + destruct Hsm as [Hsm|Hsm]; [left; lia|right].
      assert (length cur1 = length cur + length dr) as E by (by rewrite Edr at 1; rewrite length_app). lia.
    + exists (del ++ cur1). by rewrite <- app_assoc.
  - intros Hp. rewrite Edel, Hc0, !chunks_size_app.
    destruct (decide (del = [])) as [->|Hd]; [|destruct del; [done|]; rewrite chunks_size_cons; lia].
    destruct taken' as [|t taken']; [|rewrite chunks_size_cons; lia].
    cbn [app chunks_size] in *. cut (chunks_size rest1 < chunks_size chunks1); [cbn; lia|].
    apply Hlt; [|done|intros ->; by rewrite Hc0 in Edel].
    destruct chunks1 as [|c chunks1]; [done|]. split; [done|].
    assert (c = c0) as -> by (rewrite Hc0 in Edel; by injection Edel).
    destruct Hp as [Hp|[Hp|Hp]]; [| |by right].
    + left. specialize (Hstart eq_refl Hp). by destruct c0.
    + left. intros ->. cbn in Hr. unfold zlen in Hr. cbn in Hr. lia.
Qed.
End line.

(** ** All lines *)

Definition bodies_of (groups : list (list text)) : list text := map (@concat ascii) groups.

(** The lines of the given bodies. *)
Fixpoint lay_out (w : TextWrapper) (started : bool) (bodies : list text) : list text :=
  match bodies with
  | [] => []
  | b :: bodies =>
      ((if started then subsequent_indent w else initial_indent w) ++ b) :: lay_out w true bodies
  end.

Definition started (lines : list text) : bool := negb (bool_decide (lines = [])).
Lemma indent_of_started w lines :
  indent_of w lines = if started lines then subsequent_indent w else initial_indent w.
Proof. by destruct lines. Qed.

(** The room of the first and of the other lines. *)
Definition room_of (w : TextWrapper) (st : bool) : Z :=
  width w - zlen (if st then subsequent_indent w else initial_indent w).

Definition too_long (w : TextWrapper) : Z :=
  Z.max (width w) (Z.max (zlen (initial_indent w)) (zlen (subsequent_indent w))).

Lemma whole_suffix w room room' (l l' : list text) : (∀ c, (zlen c ≤ room → zlen c ≤ room')%Z) →
  l' `suffix_of` l → whole w room l → whole w room' l'.
Proof.
  intros Hr [k ->] [Hb|Hl]; [by left|right]. apply Forall_app in Hl as [_ Hl].
  eapply Forall_impl; [exact Hl|]. auto.
Qed.

Definition uncut (w : TextWrapper) (chunks : list text) : Prop :=
  whole w (room_of w false) chunks ∧ whole w (room_of w true) chunks.

Lemma wrap_loop_spec w fuel lines chunks : chunks_size chunks ≤ fuel →
  (break_long_words w = false ∨ started lines = true ∨ 0 ≤ room_of w false)%Z →
  ∃ groups : list (list text),
    let new := lay_out w (started lines) (bodies_of groups) in
    wrap_loop fuel w lines chunks = Some (lines ++ new) ∧
    ink (concat (bodies_of groups)) = ink (concat chunks) ∧
    (break_long_words w = true → Forall (λ l, (zlen l ≤ too_long w + 1)%Z) new) ∧
    (uncut w chunks → filter inked (concat groups) = filter inked chunks ∧
       Forall2 (λ l g, (zlen l ≤ too_long w)%Z ∨ length g ≤ 1) new groups).
Proof.
  revert lines chunks. induction fuel as [|fuel IH]; intros lines chunks Hfuel Hroom.
  { destruct chunks; [|rewrite chunks_size_cons in Hfuel; lia]. exists []. cbn.
    rewrite app_nil_r. split_and!; [done..| |by intros _; constructor|by intros _; split; constructor]. done. }
  destruct chunks as [|c chunks].
  { exists []. cbn. rewrite app_nil_r. split_and!; [done..|by constructor|by intros _; split; constructor]. }
  cbn [wrap_loop]. set (l := c :: chunks) in *.
  assert (width w - zlen (indent_of w lines) = room_of w (started lines))%Z as ->
    by (unfold room_of; by rewrite indent_of_started).
  change (negb (bool_decide (lines = []))) with (started lines).
  destruct (next_line w (started lines) (room_of w (started lines)) l) as [cur rest] eqn:Hn.
  apply next_line_spec in Hn as (Hink & Hlen & Hwh & Hlt); [|done].
  set (lines1 := match cur with [] => lines | _ => lines ++ [indent_of w lines ++ concat cur] end).
  assert (started lines1 = match cur with [] => started lines | _ => true end) as Hst1.
  { unfold lines1, started. destruct cur; [done|]. apply negb_true_iff, bool_decide_eq_false. by destruct lines. }
  destruct (IH lines1 rest) as (groups & Hrun & Hink' & Hlen' & Hwh').
  { enough (chunks_size rest < chunks_size l) by lia. apply Hlt.
    destruct Hroom as [?|[?|?]]; [by right; right|by left|].
    destruct (started lines) eqn:E; [by left|by right; left]. }
  { destruct Hroom as [?|[Hs|?]]; [by left| |by right; right].
    right. left. rewrite Hst1, Hs. by destruct cur. }
  assert (zlen (indent_of w lines) + (Z.max (room_of w (started lines)) 0 + 1) ≤ too_long w + 1)%Z as Hb.
  { rewrite indent_of_started. unfold too_long, room_of. destruct (started lines); lia. }
  assert (uncut w l → whole w (room_of w (started lines)) l) as Hu.
  { intros [? ?]. by destruct (started lines). }
  assert (∀ r : list text, r `suffix_of` l → uncut w l → uncut w r) as Hur.
  { intros r Hr [? ?]. split; eapply (whole_suffix w _ _ l r); eauto. }
  destruct cur as [|x cur].
  - exists groups. rewrite Hst1 in *. split_and!; [done|by rewrite Hink', <- Hink|done|].
    intros Hw. destruct (Hwh (Hu Hw)) as (Hf & _ & Hsuf). cbn in Hf.
    destruct (Hwh' (Hur _ Hsuf Hw)) as [-> ?]. by split.
  - exists ((x :: cur) :: groups). rewrite Hst1 in *. set (g := x :: cur) in *.
    assert (lay_out w (started lines) (bodies_of (g :: groups)) =
            (indent_of w lines ++ concat g) :: lay_out w true (bodies_of groups)) as ->
      by (cbn [bodies_of map lay_out]; by rewrite indent_of_started).
    split_and!.
    + rewrite Hrun. unfold lines1. by rewrite <- app_assoc.
    + change (bodies_of (g :: groups)) with (concat g :: bodies_of groups).
      change (concat (concat g :: bodies_of groups)) with (concat g ++ concat (bodies_of groups)).
      by rewrite ink_app, Hink', Hink.
    + intros Hbr. constructor; [|by apply Hlen']. rewrite len_app. specialize (Hlen Hbr). lia.
    + intros Hw. destruct (Hwh (Hu Hw)) as (Hf & Hs & Hsuf).
      destruct (Hwh' (Hur _ Hsuf Hw)) as [Hf' H2]. split.
      * cbn [concat]. by rewrite filter_app, Hf', Hf.
      * constructor; [|done]. rewrite len_app. destruct Hs; [left; lia|by right].
Qed.

(** C40: with words broken, and a first indentation that is not wider than the
    lines, wrapping ends; no line is longer than one character more than the width
    (or the indentation); and nothing but white space is lost or moved. *)
Theorem wrap_bounded w t (Hw : (0 < width w)%Z) (Hi : (zlen (initial_indent w) ≤ width w)%Z)
    (Hb : break_long_words w = true) :
  ∃ bodies, wrap w t = Ok (lay_out w false bodies) ∧
    Forall (λ l, (zlen l ≤ too_long w + 1)%Z) (lay_out w false bodies) ∧
    ink (concat bodies) = ink t.
Proof.
  destruct (wrap_loop_spec w (chunks_size (chunks_of w t)) [] (chunks_of w t))
    as (groups & Hrun & Hink & Hlen & _); [done|right; right; unfold room_of; lia|].
  exists (bodies_of groups). unfold wrap, wrap_chunks. rewrite decide_False by lia. rewrite Hrun.
  split_and!; [done|by apply Hlen|]. by rewrite Hink, chunks_of_ink.
Qed.

(** with words kept whole, for any indentation, wrapping ends; every word of
    the text is whole on one line, in order, and a line that is too long holds
    one word only. *)
Theorem wrap_whole_words w t (Hw : (0 < width w)%Z) (Hb : break_long_words w = false) :
  ∃ groups : list (list text),
    wrap w t = Ok (lay_out w false (bodies_of groups)) ∧
    filter inked (concat groups) = filter inked (chunks_of w t) ∧
    Forall2 (λ l g, (zlen l ≤ too_long w)%Z ∨ length g ≤ 1)
      (lay_out w false (bodies_of groups)) groups.
Proof.
  destruct (wrap_loop_spec w (chunks_size (chunks_of w t)) [] (chunks_of w t))
    as (groups & Hrun & _ & _ & Hg); [done|by left|].
  exists groups. unfold wrap, wrap_chunks. rewrite decide_False by lia. rewrite Hrun.
  destruct Hg as [? ?]; [split; by left|]. done.
Qed.

(** ** [dedent] *)

Definition tab : ascii := "009"%char.
Definition newline : ascii := "010"%char.

Lemma expandtabs_no_tab col s : tab ∉ expandtabs col s.
Proof.
  revert col. induction s as [|c s IH]; intros col; [apply not_elem_of_nil|]. cbn [expandtabs].
  destruct (decide (c = "009"%char)) as [Hc|Hc].
  - cbv zeta. rewrite not_elem_of_app. split; [|apply IH].
    intros [H _]%elem_of_replicate. done.
  - apply not_elem_of_cons. split; [unfold tab; congruence|apply IH].
Qed.
Lemma expandtabs_same col s : tab ∉ s → expandtabs col s = s.
Proof.
  revert col. induction s as [|c s IH]; intros col Hs; [done|].
  apply not_elem_of_cons in Hs as [Hc Hs]. cbn [expandtabs].
  rewrite decide_False by (unfold tab in Hc; congruence). by rewrite IH.
Qed.

Lemma not_in_join (c : ascii) sep (l : list text) : c ∉ sep → Forall (λ s, c ∉ s) l → c ∉ join sep l.
Proof.
  intros Hsep. induction 1 as [|s l Hs Hl IH]; [apply not_elem_of_nil|]. destruct l; [done|].
  rewrite join_cons, !not_elem_of_app by done. done.
Qed.
Lemma in_join (c : ascii) sep (l : list text) s : s ∈ l → c ∈ s → c ∈ join sep l.
Proof.
  induction l as [|s' l IH]; [intros H; by apply elem_of_nil in H|].
  intros Hs Hc. destruct l as [|s2 l].
  - apply list_elem_of_singleton in Hs as ->. done.
  - rewrite join_cons, !elem_of_app by done. apply elem_of_cons in Hs as [-> |Hs]; [by left|].
    right. right. by apply IH.
Qed.

(** The length of the white space in front. *)
Definition indent (l : text) : nat := length l - length (lstrip l).

Lemma lstrip_drop m l : m ≤ indent l → lstrip (drop m l) = lstrip l.
Proof.
  unfold indent, lstrip. pose proof (span_split is_space l) as Hs.
  pose proof (span_cases is_space l) as Hc. destruct (span is_space l) as [a b]. cbn [snd].
  destruct Hc as [Ha Hb]. subst l. rewrite length_app. intros Hm.
  rewrite drop_app_le by lia. by rewrite span_app by (by apply Forall_drop || done).
Qed.
Lemma lstrip_blank m l : lstrip l = [] → lstrip (drop m l) = [].
Proof.
  unfold lstrip. pose proof (span_split is_space l) as Hs. pose proof (span_cases is_space l) as Hc.
  destruct (span is_space l) as [a b]. cbn [snd]. intros ->. destruct Hc as [Ha _].
  rewrite app_nil_r in Hs. subst l. rewrite <- (app_nil_r (drop m a)).
  by rewrite span_app by (by apply Forall_drop || done).
Qed.

Lemma line_margin_eq mg l : line_margin mg l =
  if decide (lstrip l = []) then mg else Some (match mg with None => indent l | Some m => min m (indent l) end).
Proof. unfold line_margin, indent. by destruct (lstrip l). Qed.

Lemma margin_least lines acc m : foldl line_margin acc lines = Some m →
  Forall (λ l, lstrip l ≠ [] → m ≤ indent l) lines ∧ (∀ k, acc = Some k → m ≤ k).
Proof.
  revert acc. induction lines as [|l lines IH]; intros acc; cbn [foldl].
  { intros ->. split; [done|]. intros k [= ->]. done. }
  intros H. destruct (IH _ H) as [Hl Hk]. rewrite line_margin_eq in Hk.
  destruct (decide (lstrip l = [])) as [He|He].
  - split; [|done]. by constructor.
  - specialize (Hk _ eq_refl). split; [constructor; [|done]; intros _; destruct acc; lia|intros k ->; lia].
Qed.

Lemma margin_shift m lines acc : Forall (λ l, lstrip l ≠ [] → m ≤ indent l) lines →
  foldl line_margin ((λ k, k - m) <$> acc) (map (drop m) lines) =
    (λ k, k - m) <$> foldl line_margin acc lines.
Proof.
  intros Hl. revert acc. induction Hl as [|l lines Hm Hl IH]; intros acc; [done|]. cbn [map foldl].
  rewrite <- IH. f_equal. rewrite !line_margin_eq. destruct (decide (lstrip l = [])) as [He|He].
  - by rewrite decide_True by (by apply lstrip_blank).
  - specialize (Hm He). rewrite decide_False by (by rewrite lstrip_drop). cbn [fmap option_fmap option_map].
    f_equal. assert (indent (drop m l) = indent l - m) as ->.
    { unfold indent. rewrite lstrip_drop, length_drop by done. lia. }
    destruct acc; cbn; lia.
Qed.

Definition take_margin (lines : list text) : list text :=
  match foldl line_margin None lines with Some m => map (drop m) lines | None => lines end.
Lemma take_margin_idem lines : take_margin (take_margin lines) = take_margin lines.
Proof.
  unfold take_margin at 2 3. destruct (foldl line_margin None lines) as [m|] eqn:E.
  - unfold take_margin. destruct (margin_least _ _ _ E) as [Hl _].
    pose proof (margin_shift m lines None Hl) as Hs. cbn [fmap option_fmap option_map] in Hs.
    rewrite Hs, E. cbn. rewrite Nat.sub_diag. by rewrite (map_ext _ id), map_id.
  - unfold take_margin. by rewrite E.
Qed.

(** Once the common margin is taken off there is none left: [dedent] of its own
    result changes nothing. *)
Theorem dedent_idempotent t : dedent (dedent t) = dedent t.
Proof.
  unfold dedent. fold (take_margin (split newline (expandtabs 0 t))).
  change ["010"%char] with [newline]. change "010"%char with newline.
  set (lines := split newline (expandtabs 0 t)). set (out := take_margin lines).
  assert (Forall (λ l, (newline ∉ l) ∧ (tab ∉ l)) lines) as Hlines.
  { apply Forall_forall. intros l Hl. split; [by eapply elem_of_split|]. intros Ht.
    apply (expandtabs_no_tab 0 t). rewrite <- (join_split newline (expandtabs 0 t)).
    by eapply in_join. }
  assert (Forall (λ l, (newline ∉ l) ∧ (tab ∉ l)) out) as Hout.
  { unfold out, take_margin. destruct (foldl line_margin None lines) as [m|]; [|done].
    apply Forall_forall. intros l (l' & <- & Hl')%list_elem_of_In%in_map_iff.
    apply list_elem_of_In in Hl'. rewrite Forall_forall in Hlines. destruct (Hlines _ Hl') as [H1 H2].
    split; intros H; [apply H1|apply H2]; by eapply subseteq_drop. }
  assert (out ≠ []) as Hne.
  { unfold out, take_margin. pose proof (split_nonnil newline (expandtabs 0 t)) as Hn. fold lines in Hn.
    destruct (foldl line_margin None lines); [|done]. by destruct lines. }
  rewrite expandtabs_same.
  - rewrite split_join; [|done|eapply Forall_impl; [exact Hout|by intros ? []]].
    change (join [newline] (take_margin out) = join [newline] out). f_equal. apply take_margin_idem.
  - apply not_in_join; [|eapply Forall_impl; [exact Hout|by intros ? []]].
    intros H%list_elem_of_singleton. done.
Qed.

(** ** Witnesses and runs *)

Definition ex_wrapper (b : bool) : TextWrapper :=
  {| width := 8; initial_indent := T "* "; subsequent_indent := T "  "; expand_tabs := true;
     replace_whitespace := true; fix_endings := true; break_long_words := b |}.

Lemma wrap_bounded_witness :
  ∃ bodies, wrap (ex_wrapper true) (T "ab extraordinary") = Ok (lay_out (ex_wrapper true) false bodies) ∧
    Forall (λ l, (zlen l ≤ too_long (ex_wrapper true) + 1)%Z) (lay_out (ex_wrapper true) false bodies) ∧
    ink (concat bodies) = ink (T "ab extraordinary").
Proof. apply (wrap_bounded (ex_wrapper true) (T "ab extraordinary")); by vm_compute. Defined.

Lemma wrap_whole_words_witness :
  ∃ groups : list (list text),
    wrap (ex_wrapper false) (T "ab extraordinary") =
      Ok (lay_out (ex_wrapper false) false (bodies_of groups)) ∧
    filter inked (concat groups) = filter inked (chunks_of (ex_wrapper false) (T "ab extraordinary")) ∧
    Forall2 (λ l g, (zlen l ≤ too_long (ex_wrapper false))%Z ∨ length g ≤ 1)
      (lay_out (ex_wrapper false) false (bodies_of groups)) groups.
Proof. apply (wrap_whole_words (ex_wrapper false) (T "ab extraordinary")); by vm_compute. Defined.

(** A line that is full takes one more character of a word that fits on no line. *)
Theorem line_over_width :
  wrap (TextWrapper_init 3) (T "ab cdefg") = Ok (map T ["ab c"; "def"; "g"]).
Proof. vm_compute. reflexivity. Qed.

(** When the first indentation is wider than the lines, a text that begins with
    a blank is never wrapped: the blank becomes an empty chunk that fits nowhere
    and is not dropped, since there is no line yet. *)
Theorem wrap_never_ends fuel :
  let w := {| width := 1; initial_indent := T "ab"; subsequent_indent := []; expand_tabs := true;
              replace_whitespace := true; fix_endings := false; break_long_words := true |} in
  wrap_loop fuel w [] (chunks_of w (T " x")) = None.
Proof.
  intros w. assert (∀ n, wrap_loop n w [] [[]; T "x"] = None) as H by (by induction n).
  destruct fuel as [|fuel]; [done|]. exact (H fuel).
Qed.
