(* ===== verification/Md5.v ===== *)
(** * The digests of [hashlib.md5]

    The message digest of RFC 1321, which the signatures of files are made with:
    words of 32 bits as integers with their wrap-around, blocks of 64 bytes, the
    result in hexadecimal.  An object of [hashlib] is the bytes it was given so
    far. *)

From S2P Require Import Prelude PyStr.
Open Scope Z_scope.

(** ** Words of 32 bits *)

Definition wrap32 (x : Z) : Z := x mod 2 ^ 32.
Definition add32 (a b : Z) : Z := wrap32 (a + b).
Definition not32 (x : Z) : Z := Z.lxor x (2 ^ 32 - 1).
Definition rotl32 (x c : Z) : Z :=
  Z.lor (wrap32 (Z.shiftl x c)) (Z.shiftr x (32 - c)).

(** The bytes of a word, the lowest first, and the words of a block. *)
Fixpoint le_bytes (n : nat) (w : Z) : list Z :=
  match n with
  | O => []
  | S n => w mod 256 :: le_bytes n (w / 256)
  end.
Fixpoint le_words (n : nat) (l : list Z) : list Z :=
  match n, l with
  | S n, a :: b :: c :: d :: l => a + 256 * (b + 256 * (c + 256 * d)) :: le_words n l
  | _, _ => []
  end.

(** ** The rounds *)

(** The integer parts of [2^32 |sin (i + 1)|]. *)
Definition sines : list Z :=
  [
   3614090360; 3905402710; 606105819; 3250441966; 4118548399; 1200080426;
   2821735955; 4249261313; 1770035416; 2336552879; 4294925233; 2304563134;
   1804603682; 4254626195; 2792965006; 1236535329; 4129170786; 3225465664;
   643717713; 3921069994; 3593408605; 38016083; 3634488961; 3889429448;
   568446438; 3275163606; 4107603335; 1163531501; 2850285829; 4243563512;
   1735328473; 2368359562; 4294588738; 2272392833; 1839030562; 4259657740;
   2763975236; 1272893353; 4139469664; 3200236656; 681279174; 3936430074;
   3572445317; 76029189; 3654602809; 3873151461; 530742520; 3299628645;
   4096336452; 1126891415; 2878612391; 4237533241; 1700485571; 2399980690;
   4293915773; 2240044497; 1873313359; 4264355552; 2734768916; 1309151649;
   4149444226; 3174756917; 718787259; 3951481745].
Definition rotations (i : nat) : Z :=
  nth (i mod 4)%nat
    (match (i / 16)%nat with
     | O => [7; 12; 17; 22] | S O => [5; 9; 14; 20]
     | S (S O) => [4; 11; 16; 23] | _ => [6; 10; 15; 21]
     end) 0.

Definition mix (i : nat) (b c d : Z) : Z :=
  match (i / 16)%nat with
  | O => Z.lor (Z.land b c) (Z.land (not32 b) d)
  | S O => Z.lor (Z.land d b) (Z.land (not32 d) c)
  | S (S O) => Z.lxor (Z.lxor b c) d
  | _ => Z.lxor c (Z.lor b (not32 d))
  end.
Definition word_index (i : nat) : nat :=
  match (i / 16)%nat with
  | O => i | S O => (5 * i + 1) mod 16
  | S (S O) => (3 * i + 5) mod 16 | _ => (7 * i) mod 16
  end%nat.

Record digest_state := DS { dA : Z; dB : Z; dC : Z; dD : Z }.
Definition digest_init : digest_state := DS 1732584193 4023233417 2562383102 271733878.

Definition turn (m : list Z) (s : digest_state) (i : nat) : digest_state :=
  let f := add32 (add32 (mix i (dB s) (dC s) (dD s)) (dA s))
                 (add32 (nth i sines 0) (nth (word_index i) m 0)) in
  DS (dD s) (add32 (dB s) (rotl32 f (rotations i))) (dB s) (dC s).

Definition block (s : digest_state) (m : list Z) : digest_state :=
  let t := foldl (turn (le_words 16 m)) s (seq 0 64) in
  DS (add32 (dA s) (dA t)) (add32 (dB s) (dB t)) (add32 (dC s) (dC t)) (add32 (dD s) (dD t)).

(** The blocks of a padded message; [n] is their number. *)
Fixpoint blocks (n : nat) (s : digest_state) (l : list Z) : digest_state :=
  match n with
  | O => s
  | S n => blocks n (block s (take 64 l)) (drop 64 l)
  end.

Definition padded (l : list Z) : list Z :=
  l ++ [128] ++ replicate (Z.to_nat ((55 - Z.of_nat (length l)) mod 64)) 0 ++
  le_bytes 8 (8 * Z.of_nat (length l)).

(** ** Objects of [hashlib] *)

Definition byte_of (c : ascii) : Z := Z.of_N (N_of_ascii c).
Definition hex_digit (d : Z) : ascii :=
  nth (Z.to_nat d) (T "0123456789abcdef") "0"%char.
Definition hex_byte (b : Z) : text := [hex_digit (b / 16); hex_digit (b mod 16)].

Definition md5 : Type := text.
Definition md5_new : md5 := [].
Definition md5_update (m : md5) (s : text) : md5 := m ++ s.
Definition md5_hexdigest (m : md5) : text :=
  let p := padded (byte_of <$> m) in
  let s := blocks (length p / 64)%nat digest_init p in
  concat (hex_byte <$> (le_bytes 4 (dA s) ++ le_bytes 4 (dB s) ++
                        le_bytes 4 (dC s) ++ le_bytes 4 (dD s))).

(** ** Facts *)

Lemma length_le_bytes (n : nat) (w : Z) : length (le_bytes n w) = n.
Proof. revert w. induction n as [|n IH]; intros w; cbn [le_bytes length]; [done|by rewrite IH]. Qed.

Lemma length_hex (l : list Z) : length (concat (hex_byte <$> l)) = (2 * length l)%nat.
Proof. induction l as [|b l IH]; [done|]. cbn [fmap list_fmap concat]. rewrite length_app, IH. cbn. lia. Qed.

(** A digest has 32 digits. *)
Lemma length_hexdigest (m : md5) : length (md5_hexdigest m) = 32%nat.
Proof. unfold md5_hexdigest. cbv zeta. by rewrite length_hex, !length_app, !length_le_bytes. Qed.

Lemma hexdigest_not_empty (m : md5) : md5_hexdigest m ≠ [].
Proof. intros E. pose proof (length_hexdigest m) as H. by rewrite E in H. Qed.

(** The test suite of the RFC. *)
Example md5_empty : md5_hexdigest md5_new = T "d41d8cd98f00b204e9800998ecf8427e".
Proof. vm_compute. reflexivity. Qed.
Example md5_abc : md5_hexdigest (md5_update (md5_update md5_new (T "a")) (T "bc")) =
  T "900150983cd24fb0d6963f7d28e17f72".
Proof. vm_compute. reflexivity. Qed.
Example md5_long : md5_hexdigest (T "12345678901234567890123456789012345678901234567890123456789012345678901234567890") =
  T "57edf4a22be3c955ac49da2e2107b67a".
Proof. vm_compute. reflexivity. Qed.
