(* ===== verification/FileSig.v ===== *)
(** * Signatures of files ([SCons/Node/FS.py], [SCons/SConsign.py])

    How a [File] node finds out whether it changed since the last build: its
    time stamp, size and content signature with their memos, the signature
    kept while a file is older than [max_drift], the decision functions, and
    the entries of the signature file that one run stores and the next one
    reads.  What [rfile()] reaches on the disk is a parameter, and so are the
    clock and the options; a file does not change while the signatures of one
    run are taken.  [CacheDir] is not modelled: its calls are recorded. *)

From S2P Require Import Prelude Errors NodeState PyStr Md5 Node.
Open Scope Z_scope.

(** ** [SCons.Util] with [hashlib] *)

Definition MD5signature (s : text) : text := md5_hexdigest (md5_update md5_new s).

(** [f.read(n)] on the rest of a file: what is read and what is left. *)
Definition file_read (n : Z) (rest : text) : text * text :=
  if n <? 0 then (rest, []) else (take (Z.to_nat n) rest, drop (Z.to_nat n) rest).

(** The loop over the blocks; [None] is the end of the fuel. *)
Fixpoint hash_blocks (fuel : nat) (chunksize : Z) (m : md5) (rest : text) : option md5 :=
  match fuel with
  | O => None
  | S fuel =>
      let '(blck, rest) := file_read chunksize rest in
      match blck with
      | [] => Some m
      | _ => hash_blocks fuel chunksize (md5_update m blck) rest
      end
  end.
Definition MD5filesignature (chunksize : Z) (contents : text) : option text :=
  m ← hash_blocks (S (length contents)) chunksize md5_new contents;
  Some (md5_hexdigest m).

Definition MD5collect (signatures : list text) : text :=
  match signatures with
  | [s] => s
  | _ => MD5signature (join (T ", ") signatures)
  end.

(** ** What is stored *)

(** [FileNodeInfo]: an attribute may be missing. *)
Record finfo := FInfo {
  csig : option text;
  timestamp : option Z;
  fsize : option Z
}.
Definition new_finfo : finfo := FInfo None None None.
Definition with_csig (c : option text) (i : finfo) : finfo := FInfo c (timestamp i) (fsize i).
Definition with_timestamp (t : option Z) (i : finfo) : finfo := FInfo (csig i) t (fsize i).
Definition with_fsize (z : option Z) (i : finfo) : finfo := FInfo (csig i) (timestamp i) z.

(** [x or y] of attributes that may be missing *)
Definition either {A} (x y : option A) : option A :=
  match x with Some a => Some a | None => y end.

(** [NodeInfoBase.merge] *)
Definition info_merge (self other : finfo) : finfo :=
  FInfo (either (csig other) (csig self)) (either (timestamp other) (timestamp self))
    (either (fsize other) (fsize self)).

(** [FileBuildInfo] is its dictionary of attributes; values are opaque. *)
Abbreviation attrs := (gmap text nat).
Definition binfo_merge (self other : attrs) : attrs := other ∪ self.

(** [SConsignEntry] *)
Record entry := Entry { e_binfo : attrs; e_ninfo : finfo }.

(** The entry that the memo of [get_stored_info] refers to: the object in
    [entries], or an object of its own that is not there yet. *)
Inductive stored_ref := InEntries | Own (e : entry).

(** The attributes of a [File] node. *)
Record frec := FRec {
  f_ninfo : option finfo;
  f_binfo : option attrs;
  m_size : option Z;
  m_timestamp : option Z;
  m_stored : option stored_ref
}.
Definition frec_init : frec := FRec None None None None None.
Definition with_f_ninfo i (r : frec) : frec :=
  FRec i (f_binfo r) (m_size r) (m_timestamp r) (m_stored r).
Definition with_f_binfo b (r : frec) : frec :=
  FRec (f_ninfo r) b (m_size r) (m_timestamp r) (m_stored r).
Definition with_m_size z (r : frec) : frec :=
  FRec (f_ninfo r) (f_binfo r) z (m_timestamp r) (m_stored r).
Definition with_m_timestamp t (r : frec) : frec :=
  FRec (f_ninfo r) (f_binfo r) (m_size r) t (m_stored r).
Definition with_m_stored o (r : frec) : frec :=
  FRec (f_ninfo r) (f_binfo r) (m_size r) (m_timestamp r) o.

(** The nodes; [entries] and [to_be_merged] of the signature objects of all
    directories, a file name in a directory being given as its node; the calls
    of [CacheDir.push_if_forced]. *)
Record sigs := Sigs {
  recs : gmap nat frec;
  sg_entries : gmap nat entry;
  to_be_merged : list nat;
  pushed : list nat
}.
Definition rec_of (s : sigs) (n : nat) : frec := default frec_init (recs s !! n).
Definition upd_rec (n : nat) (f : frec → frec) (s : sigs) : sigs :=
  Sigs (<[n := f (rec_of s n)]> (recs s)) (sg_entries s) (to_be_merged s) (pushed s).

Abbreviation fexn := (option exn).
Abbreviation sgm := (eff sigs fexn).

(** ** [SConsign.Base] and [File.get_stored_info] *)

Definition no_entry : entry := Entry ∅ new_finfo.

Definition get_entry (n : nat) (s : sigs) : option entry := sg_entries s !! n.
Definition set_entry (n : nat) (e : entry) (s : sigs) : sigs :=
  Sigs (recs s) (<[n := e]> (sg_entries s)) (to_be_merged s) (pushed s).

(** The entry a reference stands for, and an assignment to its attributes. *)
Definition deref (s : sigs) (n : nat) (r : stored_ref) : entry :=
  match r with InEntries => default no_entry (get_entry n s) | Own e => e end.
Definition assign (n : nat) (r : stored_ref) (e : entry) (s : sigs) : sigs :=
  match r with
  | InEntries => set_entry n e s
  | Own _ => upd_rec n (with_m_stored (Some (Own e))) s
  end.

Definition get_stored_info (n : nat) (s : sigs) : sigs * stored_ref :=
  match m_stored (rec_of s n) with
  | Some r => (s, r)
  | None =>
      let r := match get_entry n s with Some _ => InEntries | None => Own no_entry end in
      (upd_rec n (with_m_stored (Some r)) s, r)
  end.

Section filesig.
(** ** The world of one run *)

(** What [rfile()] of a node has on the disk: [data] is what the file holds, or
    the [IOError] of [open] or [read]. *)
Record dfile := DFile {
  st_path : string;
  st_mtime : Z;
  st_size : Z;
  data : (Z * string) + text
}.
Variable real : nat → option dfile.
(** [time.time()], [fs.max_drift] and [File.md5_chunksize] *)
Variables (now max_drift md5_chunksize : Z).
(** The module's [do_store_info]. *)
Variable do_store_info : bool.
(** [exists()] and [has_builder()] of a node, and the attributes that
    [get_binfo] computes. *)
Variables (exists_local has_builder : nat → bool) (make_binfo : nat → attrs).
(** Whether [builder_set] was called, or [_morph] found a builder. *)
Variable builder_was_set : nat → bool.
(** [repr] of a string. *)
Variable repr : string → string.

(** ** Node information *)

Definition get_ninfo (n : nat) (s : sigs) : sigs * finfo :=
  match f_ninfo (rec_of s n) with
  | Some i => (s, i)
  | None => (upd_rec n (with_f_ninfo (Some new_finfo)) s, new_finfo)
  end.

(** [self.get_ninfo().x = v] *)
Definition set_ninfo (n : nat) (f : finfo → finfo) (s : sigs) : sigs :=
  let '(s, i) := get_ninfo n s in upd_rec n (with_f_ninfo (Some (f i))) s.

Definition get_binfo (n : nat) (s : sigs) : sigs * attrs :=
  match f_binfo (rec_of s n) with
  | Some b => (s, b)
  | None => (upd_rec n (with_f_binfo (Some (make_binfo n))) s, make_binfo n)
  end.

(** ** Size, time and contents *)

Definition rexists (n : nat) : bool := bool_decide (is_Some (real n)).

Definition get_size (n : nat) (s : sigs) : sigs * Z :=
  match m_size (rec_of s n) with
  | Some z => (s, z)
  | None =>
      let size := match real n with Some f => st_size f | None => 0 end in
      (upd_rec n (with_m_size (Some size)) s, size)
  end.

Definition get_timestamp (n : nat) (s : sigs) : sigs * Z :=
  match m_timestamp (rec_of s n) with
  | Some t => (s, t)
  | None =>
      let stamp := match real n with Some f => st_mtime f | None => 0 end in
      (upd_rec n (with_m_timestamp (Some stamp)) s, stamp)
  end.

(** The [IOError], with the file name filled in. *)
Definition io_error {A} (f : dfile) (e : Z * string) : sgm A :=
  eraise (Some (ExEnvironmentError "IOError" e.1 e.2 (Some (st_path f)))).

Definition get_contents (n : nat) : sgm text :=
  match real n with
  | None => eret []
  | Some f => match data f with inr c => eret c | inl e => io_error f e end
  end.

Definition get_content_hash (n : nat) : sgm text :=
  match real n with
  | None => eret (MD5signature [])
  | Some f =>
      match data f with
      | inl e => io_error f e
      | inr c => match MD5filesignature (md5_chunksize * 1024) c with
                 | Some cs => eret cs
                 | None => eraise None
                 end
      end
  end.

(** ** The content signature *)

(** [if x], of a string and of a number *)
Definition true_text (c : text) : bool := match c with [] => false | _ => true end.
Definition true_int (t : Z) : bool := negb (t =? 0).

Definition get_max_drift_csig (n : nat) (s : sigs) : sigs * option text :=
  let '(s, r) := get_stored_info n s in
  let '(s, mtime) := get_timestamp n s in
  let old := e_ninfo (deref s n r) in
  (s, if 0 <? max_drift then
        if max_drift <? now - mtime then
          t ← timestamp old;
          if true_int t then
            c ← csig old;
            if true_text c && (t =? mtime) then Some c else None
          else None
        else None
      else if max_drift =? 0 then csig old
      else None).

Definition is_IOError (e : fexn) : bool :=
  match e with
  | Some (ExEnvironmentError cls _ _ _) => bool_decide (cls = "IOError"%string)
  | _ => false
  end.

(** The [try] of [get_csig]; after the second branch [contents] is not bound. *)
Definition hash_contents (n : nat) : sgm text :=
  ecatch
    (let! size := call (get_size n) in
     if size <? md5_chunksize then
       let! contents := get_contents n in
       eret (MD5signature contents)
     else
       let! c := get_content_hash n in
       if true_text c then eret c
       else eraise (Some (ExOther "UnboundLocalError" "contents")))%eff
    (λ e, if is_IOError e then eret [] else eraise e).

Definition get_csig (n : nat) : sgm text :=
  (let! ninfo := call (get_ninfo n) in
   match csig ninfo with
   | Some c => eret c
   | None =>
       let! drift := call (get_max_drift_csig n) in
       let! c := match drift with Some c => eret c | None => hash_contents n end in
       emod (set_ninfo n (with_csig (Some c))) ;;;
       eret c
   end)%eff.

(** ** Decisions *)

Definition changed_content (n : nat) (prev_ni : finfo) : sgm bool :=
  (let! cur := get_csig n in
   eret (match csig prev_ni with Some c => bool_decide (cur ≠ c) | None => true end))%eff.

Definition changed_state (st : nstate) : bool := bool_decide (st ≠ up_to_date).

Definition changed_timestamp_match (n : nat) (prev_ni : finfo) : sgm bool :=
  (let! t := call (get_timestamp n) in
   eret (match timestamp prev_ni with Some u => negb (t =? u) | None => true end))%eff.

Definition changed_timestamp_then_content (n : nat) (prev_ni : finfo) : sgm bool :=
  (let! differs := changed_timestamp_match n prev_ni in
   if differs : bool then changed_content n prev_ni
   else
     match csig prev_ni with
     | Some c => emod (set_ninfo n (with_csig (Some c)))
     | None => eret tt
     end ;;;
     eret false)%eff.

(** [target] is [None] when it has no [get_timestamp]. *)
Definition changed_timestamp_newer (n : nat) (target : option nat) (prev_ni : finfo) : sgm bool :=
  (let! t := call (get_timestamp n) in
   match target with
   | None => eret true
   | Some m => let! u := call (get_timestamp m) in eret (u <? t)
   end)%eff.

(** [Environment.Decider]: the functions it chooses from, what it is called
    with, and the attributes it sets. *)
Inductive decider :=
| ChangedContent | ChangedTimestampThenContent | ChangedTimestampNewer
| ChangedTimestampMatch
| Callable (f : nat → option nat → finfo → sgm bool).
Inductive decider_arg := DName (s : string) | DFun (f : nat → option nat → finfo → sgm bool) | DOther (r : string).
Inductive copier := CopyFromCache | Copy2FromCache.
Record deciders := Deciders {
  decide_target : decider;
  decide_source : decider;
  copy_from_cache : copier
}.

Definition Decider (function : decider_arg) : res exn deciders :=
  let unknown r := Raise (ExUserError ("Unknown Decider value " ++ r)) in
  let set f c := Ok (Deciders f f c) in
  match function with
  | DName s =>
      if bool_decide (s ∈ ["MD5"; "content"]) then set ChangedContent Copy2FromCache
      else if bool_decide (s = "MD5-timestamp") then set ChangedTimestampThenContent Copy2FromCache
      else if bool_decide (s ∈ ["timestamp-newer"; "make"]) then
        set ChangedTimestampNewer CopyFromCache
      else if bool_decide (s = "timestamp-match") then set ChangedTimestampMatch Copy2FromCache
      else unknown (repr s)
  | DFun f => set (Callable f) Copy2FromCache
  | DOther r => unknown r
  end%string.

(** [env.decide_source(self, target, prev_ni)] *)
Definition decide_by (d : decider) (n : nat) (target : option nat) (prev_ni : finfo) : sgm bool :=
  match d with
  | ChangedContent => changed_content n prev_ni
  | ChangedTimestampThenContent => changed_timestamp_then_content n prev_ni
  | ChangedTimestampNewer => changed_timestamp_newer n target prev_ni
  | ChangedTimestampMatch => changed_timestamp_match n prev_ni
  | Callable f => f n target prev_ni
  end.

(** [changed_since_last_build]: [decide_source] until a builder is set. *)
Definition changed_since_last_build (env : deciders) (n : nat) (target : option nat)
    (prev_ni : finfo) : sgm bool :=
  decide_by (if builder_was_set n then decide_target env else decide_source env) n target prev_ni.

(** ** Storing *)

(** [SConsign.Base.store_info] and [File.store_info] *)
Definition sconsign_store_info (n : nat) (s : sigs) : sigs :=
  let '(s, r) := get_stored_info n s in
  let '(s, b) := get_binfo n s in
  let e := deref s n r in
  let s := assign n r (Entry (binfo_merge (e_binfo e) b) (e_ninfo e)) s in
  Sigs (recs s) (sg_entries s)
    (if bool_decide (n ∈ to_be_merged s) then to_be_merged s else to_be_merged s ++ [n])
    (pushed s).
Definition store_info (n : nat) (s : sigs) : sigs :=
  if do_store_info then sconsign_store_info n s else s.

(** The turns of [SConsign.Base.merge]: the entry is the same object in
    [entries] and in the memo. *)
Definition merge_turn (s : sigs) (n : nat) : sigs :=
  let '(s, r) := get_stored_info n s in
  let '(s, i) := get_ninfo n s in
  let e := deref s n r in
  let e := Entry (e_binfo e) (info_merge (e_ninfo e) i) in
  upd_rec n (with_m_stored (Some InEntries)) (set_entry n e s).
Definition sconsign_merge (s : sigs) : sigs :=
  let s := foldl merge_turn s (to_be_merged s) in
  Sigs (recs s) (sg_entries s) [] (pushed s).

(** [NodeInfoBase.update] for the fields of a [FileNodeInfo] *)
Definition info_update (n : nat) : sgm unit :=
  (emod (set_ninfo n (with_csig None)) ;;;
   let! c := get_csig n in
   emod (set_ninfo n (with_csig (Some c))) ;;;
   emod (set_ninfo n (with_timestamp None)) ;;;
   let! t := call (get_timestamp n) in
   emod (set_ninfo n (with_timestamp (Some t))) ;;;
   emod (set_ninfo n (with_fsize None)) ;;;
   let! z := call (get_size n) in
   emod (set_ninfo n (with_fsize (Some z))))%eff.

(** [Node.clear] and [Node.built], as far as they concern signatures. *)
Definition sig_clear (n : nat) : sigs → sigs :=
  upd_rec n (λ _, FRec (Some new_finfo) None None None None).
Definition sig_built (n : nat) : sgm unit :=
  (emod (sig_clear n) ;;; info_update n)%eff.

(** [File.visited] *)
Definition File_visited (n : nat) : sgm unit :=
  ((if exists_local n then
      emod (λ s, Sigs (recs s) (sg_entries s) (to_be_merged s) (pushed s ++ [n]))
    else eret tt) ;;;
   let! _ := call (get_ninfo n) in
   let! c := call (get_max_drift_csig n) in
   (match c with
    | Some c => if true_text c then emod (set_ninfo n (with_csig (Some c))) else eret tt
    | None => eret tt
    end) ;;;
   let! t := call (get_timestamp n) in
   emod (set_ninfo n (with_timestamp (Some t))) ;;;
   let! z := call (get_size n) in
   emod (set_ninfo n (with_fsize (Some z))) ;;;
   (if has_builder n then eret tt
    else
      let! old := call (get_stored_info n) in
      let! b := call (get_binfo n) in
      emod (λ s, upd_rec n (with_f_binfo (Some (binfo_merge b (e_binfo (deref s n old))))) s)) ;;;
   emod (store_info n))%eff.
End filesig.

(** The state a new run begins with: what the last one stored. *)
Definition next_run (s : sigs) : sigs := Sigs ∅ (sg_entries s) [] [].

(** ** An example *)

Definition ex_files (n : nat) : option dfile :=
  if decide (n = 1%nat) then Some (DFile "a.c" 100 5 (inr (T "int a"))) else None.
Definition ex_run : sgm text :=
  (let! c := get_csig ex_files 1000000 172800 64 1 in
   File_visited ex_files 1000000 172800 true (λ _, true) (λ _, false) (λ _, ∅) 1 ;;;
   emod sconsign_merge ;;; eret c)%eff.
Definition ex_after : sigs := (ex_run (Sigs ∅ ∅ [] [])).1.

Example ex_stored : e_ninfo <$> get_entry 1 (next_run ex_after) =
  Some (FInfo (Some (MD5signature (T "int a"))) (Some 100) (Some 5)).
Proof. vm_compute. reflexivity. Qed.
