(* ===== verification/FileSigFacts.v ===== *)
(** * Theorems about the signatures of files

    Hashing a file in blocks gives the digest of its contents; [get_csig] is the
    digest of what the file holds, as long as what the last run stored can be
    trusted; a decision by time stamp and contents agrees with one by contents;
    and what one run stores lets the next one notice exactly the files whose
    contents changed. *)

From S2P Require Import Prelude Errors NodeState PyStr Md5 Node FileSig.
Open Scope Z_scope.

(** ** Hashing in blocks *)

Lemma file_read_parts (n : Z) (s : text) :
  (file_read n s).1 ++ (file_read n s).2 = s.
Proof. unfold file_read. case_match; cbn; [apply app_nil_r|apply take_drop]. Qed.

Lemma file_read_empty (n : Z) (s : text) : n ≠ 0 → (file_read n s).1 = [] → s = [].
Proof.
  unfold file_read. intros Hn. destruct (n <? 0) eqn:En; cbn; [done|].
  apply Z.ltb_ge in En. destruct s as [|c s]; [done|].
  destruct (Z.to_nat n) eqn:E; [lia|done].
Qed.

Lemma hash_blocks_whole (n : Z) (fuel : nat) (m : md5) (s : text) :
  n ≠ 0 → (length s < fuel)%nat → hash_blocks fuel n m s = Some (m ++ s).
Proof.
  intros Hn. revert m s. induction fuel as [|fuel IH]; intros m s Hf; [lia|].
  cbn [hash_blocks]. pose proof (file_read_parts n s) as Hp.
  pose proof (file_read_empty n s Hn) as He.
  destruct (file_read n s) as [b r]. cbn in Hp, He. destruct b as [|c b].
  - rewrite (He eq_refl). by rewrite app_nil_r.
  - rewrite <- Hp in Hf. rewrite length_app in Hf. cbn in Hf.
    rewrite IH by lia. unfold md5_update. by rewrite <- app_assoc, Hp.
Qed.

Lemma filesignature_digest (n : Z) (s : text) :
  n ≠ 0 → MD5filesignature n s = Some (MD5signature s).
Proof. intros Hn. unfold MD5filesignature. rewrite hash_blocks_whole by (done || lia). done. Qed.

(** The digest taken of a file in blocks of any size but zero ends, and is the digest of its
    whole contents: [get_content_hash] and [MD5signature] of [get_contents] agree. *)
Theorem MD5filesignature_whole (n : Z) (contents : text) :
  n ≠ 0 → MD5filesignature n contents = Some (MD5signature contents).
Proof. apply filesignature_digest. Qed.

Lemma MD5filesignature_whole_witness :
  MD5filesignature 3 (T "int main") = Some (MD5signature (T "int main")).
Proof. apply MD5filesignature_whole. lia. Defined.

(** ** The parts of the state *)

Lemma rec_of_upd (n m : nat) (f : frec → frec) (s : sigs) :
  rec_of (upd_rec n f s) m = if decide (m = n) then f (rec_of s n) else rec_of s m.
Proof.
  unfold rec_of at 1, upd_rec. cbn. case_decide as E; [subst m|].
  - by rewrite lookup_insert_eq.
  - by rewrite lookup_insert_ne.
Qed.
Lemma rec_of_upd_eq (n : nat) (f : frec → frec) (s : sigs) :
  rec_of (upd_rec n f s) n = f (rec_of s n).
Proof. rewrite rec_of_upd. by case_decide. Qed.
Lemma rec_of_set_entry (n m : nat) (e : entry) (s : sigs) :
  rec_of (set_entry n e s) m = rec_of s m.
Proof. done. Qed.
Lemma entry_upd (n m : nat) (f : frec → frec) (s : sigs) :
  get_entry m (upd_rec n f s) = get_entry m s.
Proof. done. Qed.

(** The entry that [get_stored_info] will give. *)
Definition stored_of (s : sigs) (n : nat) : entry :=
  match m_stored (rec_of s n) with
  | Some r => deref s n r
  | None => default no_entry (get_entry n s)
  end.

Lemma in_rest (X Y : gset nat) (n m : nat) : Y ⊆ {[n]} ∪ X → m ∈ Y → m ≠ n → m ∈ X.
Proof. set_solver. Qed.

#[local] Set Default Proof Using "Type*".

Section facts.
Variable real : nat → option dfile.
Variables (now max_drift md5_chunksize : Z).

(** The signature of what a file holds: empty if it cannot be read. *)
Definition digest (n : nat) : text :=
  match real n with
  | None => MD5signature []
  | Some f => match data f with inr c => MD5signature c | inl _ => [] end
  end.
Definition mtime (n : nat) : Z := match real n with Some f => st_mtime f | None => 0 end.
Definition size_of (n : nat) : Z := match real n with Some f => st_size f | None => 0 end.

(** Node information that says what is so. *)
Record info_true (n : nat) (i : finfo) : Prop := InfoTrue {
  true_csig : ∀ c, csig i = Some c → c = digest n;
  true_timestamp : ∀ t, timestamp i = Some t → t = mtime n;
  true_fsize : ∀ z, fsize i = Some z → z = size_of n
}.

(** The signature stored by the last run is used only if it is right. *)
Definition trusted (n : nat) (i : finfo) : Prop :=
  ∀ c, csig i = Some c →
  (0 < max_drift ∧ timestamp i = Some (mtime n) ∧ max_drift < now - mtime n ∨ max_drift = 0) →
  c = digest n.

Record sound_at (s : sigs) (n : nat) : Prop := SoundAt {
  sound_size : ∀ z, m_size (rec_of s n) = Some z → z = size_of n;
  sound_time : ∀ t, m_timestamp (rec_of s n) = Some t → t = mtime n;
  sound_info : ∀ i, f_ninfo (rec_of s n) = Some i → info_true n i;
  sound_stored : trusted n (e_ninfo (stored_of s n));
  sound_own : ∀ e, m_stored (rec_of s n) = Some (Own e) → get_entry n s = None
}.

Definition has_csig (s : sigs) (n : nat) : Prop :=
  ∃ i, f_ninfo (rec_of s n) = Some i ∧ csig i = Some (digest n).
Definition has_time (s : sigs) (n : nat) : Prop :=
  ∃ i, f_ninfo (rec_of s n) = Some i ∧ timestamp i = Some (mtime n).

(** The nodes [N] are sound; of the nodes [C] the signature is taken, of [TS]
    the time, and [M] are to be merged. *)
Record good (N : nat → Prop) (C TS M : gset nat) (s : sigs) : Prop := Good {
  good_sound : ∀ n, N n → sound_at s n;
  good_csig : ∀ n, n ∈ C → has_csig s n;
  good_time : ∀ n, n ∈ TS → has_time s n;
  good_merge : ∀ n, n ∈ M → n ∈ to_be_merged s
}.

Lemma new_info_true (n : nat) : info_true n new_finfo.
Proof. by split. Qed.
Lemma with_csig_true (n : nat) (i : finfo) :
  info_true n i → info_true n (with_csig (Some (digest n)) i).
Proof. intros [???]. split; cbn; [by intros ? [= <-]|done|done]. Qed.
Lemma with_timestamp_true (n : nat) (i : finfo) :
  info_true n i → info_true n (with_timestamp (Some (mtime n)) i).
Proof. intros [???]. split; cbn; [done|by intros ? [= <-]|done]. Qed.
Lemma with_fsize_true (n : nat) (i : finfo) :
  info_true n i → info_true n (with_fsize (Some (size_of n)) i).
Proof. intros [???]. split; cbn; [done|done|by intros ? [= <-]]. Qed.

(** ** Changing one node *)

Lemma sound_at_other (s : sigs) (n m : nat) (f : frec → frec) :
  m ≠ n → sound_at s m → sound_at (upd_rec n f s) m.
Proof.
  intros Hm [?????].
  split; unfold stored_of in *; rewrite !rec_of_upd, !(decide_False (P:=m = n)) by done; done.
Qed.

Section nodes.
Context (N : nat → Prop) (C TS M : gset nat).

(** A new record of one node, which may add what is known of it. *)
Lemma sig_good_upd (C' TS' : gset nat) (n : nat) (f : frec → frec) (s : sigs) :
  good N C TS M s →
  (sound_at s n → sound_at (upd_rec n f s) n) →
  (n ∈ C' → has_csig (upd_rec n f s) n) → (n ∈ TS' → has_time (upd_rec n f s) n) →
  C' ⊆ {[n]} ∪ C → TS' ⊆ {[n]} ∪ TS →
  good N C' TS' M (upd_rec n f s).
Proof.
  intros [Hs Hc Ht Hm] Hsn Hcn Htn HC HT. split; [| | |done].
  - intros m Hm'. destruct (decide (m = n)) as [-> |Hne]; [auto|].
    apply sound_at_other; auto.
  - intros m Hm'. destruct (decide (m = n)) as [-> |Hne]; [auto|].
    unfold has_csig. rewrite rec_of_upd, decide_False by done. by eapply Hc, in_rest.
  - intros m Hm'. destruct (decide (m = n)) as [-> |Hne]; [auto|].
    unfold has_time. rewrite rec_of_upd, decide_False by done. by eapply Ht, in_rest.
Qed.

(** A change that leaves the node information alone. *)
Lemma good_memo (n : nat) (f : frec → frec) (s : sigs) :
  good N C TS M s →
  (∀ r, f_ninfo (f r) = f_ninfo r) →
  (sound_at s n → sound_at (upd_rec n f s) n) →
  good N C TS M (upd_rec n f s).
Proof.
  intros Hg Hf Hs. apply sig_good_upd; [done|done| | |set_solver|set_solver].
  - intros Hn. unfold has_csig. rewrite rec_of_upd_eq, Hf. by apply (good_csig _ _ _ _ _ Hg).
  - intros Hn. unfold has_time. rewrite rec_of_upd_eq, Hf. by apply (good_time _ _ _ _ _ Hg).
Qed.

Lemma good_get_ninfo (n : nat) (s : sigs) :
  N n → good N C TS M s →
  good N C TS M (get_ninfo n s).1 ∧
  f_ninfo (rec_of (get_ninfo n s).1 n) = Some (get_ninfo n s).2 ∧
  info_true n (get_ninfo n s).2.
Proof.
  intros Hn Hg. unfold get_ninfo. destruct (f_ninfo (rec_of s n)) as [i|] eqn:E; cbn.
  - split_and!; [done|done|]. by apply (sound_info _ _ (good_sound _ _ _ _ _ Hg n Hn)).
  - split_and!; [|by rewrite rec_of_upd_eq|by apply new_info_true].
    apply sig_good_upd; [done| | | |set_solver|set_solver].
    + intros [?????]. split; unfold stored_of in *; rewrite !rec_of_upd_eq; cbn; try done.
      intros ? [= <-]. apply new_info_true.
    + intros Hc. destruct (good_csig _ _ _ _ _ Hg n Hc) as (i & E' & _). congruence.
    + intros Hc. destruct (good_time _ _ _ _ _ Hg n Hc) as (i & E' & _). congruence.
Qed.

(** An assignment to an attribute of the node information. *)
Lemma good_set_ninfo (C' TS' : gset nat) (n : nat) (f : finfo → finfo) (s : sigs) :
  N n → good N C TS M s →
  (∀ i, info_true n i → info_true n (f i)) →
  (n ∈ C' → ∀ i, (n ∈ C → csig i = Some (digest n)) → csig (f i) = Some (digest n)) →
  (n ∈ TS' → ∀ i, (n ∈ TS → timestamp i = Some (mtime n)) → timestamp (f i) = Some (mtime n)) →
  C' ⊆ {[n]} ∪ C → TS' ⊆ {[n]} ∪ TS →
  good N C' TS' M (set_ninfo n f s).
Proof.
  intros Hn Hg Hf Hc Ht HC HT.
  destruct (good_get_ninfo n s Hn Hg) as (Hg' & Ei & Hi).
  unfold set_ninfo. destruct (get_ninfo n s) as [s' i]. cbn in Hg', Ei, Hi.
  assert (Hcs : n ∈ C → csig i = Some (digest n)).
  { intros H. destruct (good_csig _ _ _ _ _ Hg' n H) as (j & Ej & E). congruence. }
  assert (Hts : n ∈ TS → timestamp i = Some (mtime n)).
  { intros H. destruct (good_time _ _ _ _ _ Hg' n H) as (j & Ej & E). congruence. }
  eapply sig_good_upd; [done| | | |done|done].
  - intros [?????]. split; unfold stored_of in *; rewrite !rec_of_upd_eq; cbn; try done.
    intros ? [= <-]. auto.
  - intros H. exists (f i). rewrite rec_of_upd_eq. auto.
  - intros H. exists (f i). rewrite rec_of_upd_eq. auto.
Qed.
(** ** The operations *)

Lemma good_get_size (n : nat) (s : sigs) :
  N n → good N C TS M s →
  good N C TS M (get_size real n s).1 ∧ (get_size real n s).2 = size_of n.
Proof.
  intros Hn Hg. unfold get_size. destruct (m_size (rec_of s n)) as [z|] eqn:E; cbn.
  - split; [done|]. by apply (sound_size _ _ (good_sound _ _ _ _ _ Hg n Hn)).
  - split; [|done]. apply good_memo; [done|done|].
    intros [?????]. split; unfold stored_of in *; rewrite !rec_of_upd_eq; cbn; try done.
    by intros ? [= <-].
Qed.

Lemma good_get_timestamp (n : nat) (s : sigs) :
  N n → good N C TS M s →
  good N C TS M (get_timestamp real n s).1 ∧ (get_timestamp real n s).2 = mtime n.
Proof.
  intros Hn Hg. unfold get_timestamp. destruct (m_timestamp (rec_of s n)) as [z|] eqn:E; cbn.
  - split; [done|]. by apply (sound_time _ _ (good_sound _ _ _ _ _ Hg n Hn)).
  - split; [|done]. apply good_memo; [done|done|].
    intros [?????]. split; unfold stored_of in *; rewrite !rec_of_upd_eq; cbn; try done.
    by intros ? [= <-].
Qed.

Lemma good_get_stored_info (n : nat) (s : sigs) :
  good N C TS M s →
  good N C TS M (get_stored_info n s).1 ∧
  m_stored (rec_of (get_stored_info n s).1 n) = Some (get_stored_info n s).2 ∧
  deref (get_stored_info n s).1 n (get_stored_info n s).2 = stored_of s n.
Proof.
  intros Hg. unfold get_stored_info, stored_of.
  destruct (m_stored (rec_of s n)) as [r|] eqn:E; cbn; [done|].
  rewrite rec_of_upd_eq. cbn. split_and!; [|done|].
  - apply good_memo; [done|done|].
    intros [?????]. split; unfold stored_of in *; rewrite !rec_of_upd_eq; cbn; try done.
    + rewrite E in sound_stored0. unfold deref. rewrite !entry_upd.
      destruct (get_entry n s) eqn:E'; cbn; rewrite ?entry_upd, ?E'; done.
    + intros e. rewrite entry_upd. by destruct (get_entry n s).
  - unfold deref. destruct (get_entry n s) eqn:E'; cbn; rewrite ?entry_upd, ?E'; done.
Qed.

Lemma sig_good_get_binfo (make_binfo : nat → attrs) (n : nat) (s : sigs) :
  good N C TS M s → good N C TS M (get_binfo make_binfo n s).1.
Proof.
  intros Hg. unfold get_binfo. destruct (f_binfo (rec_of s n)); cbn; [done|].
  apply good_memo; [done|done|].
  intros [?????]. by split; unfold stored_of in *; rewrite !rec_of_upd_eq.
Qed.

Lemma deref_get_timestamp (n : nat) (r : stored_ref) (s : sigs) :
  deref (get_timestamp real n s).1 n r = deref s n r.
Proof. unfold get_timestamp. by destruct (m_timestamp (rec_of s n)), r. Qed.

(** The stored signature that is used is the right one. *)
Lemma good_max_drift_csig (n : nat) (s : sigs) :
  N n → good N C TS M s →
  good N C TS M (get_max_drift_csig real now max_drift n s).1 ∧
  ∀ c, (get_max_drift_csig real now max_drift n s).2 = Some c → c = digest n.
Proof.
  intros Hn Hg. unfold get_max_drift_csig.
  destruct (good_get_stored_info n s Hg) as (Hg1 & _ & Hd).
  pose proof (sound_stored _ _ (good_sound _ _ _ _ _ Hg n Hn)) as Ht.
  destruct (get_stored_info n s) as [s1 r]. cbn in Hg1, Hd.
  pose proof (good_get_timestamp n s1 Hn Hg1) as [Hg2 Hm].
  pose proof (deref_get_timestamp n r s1) as Hd2.
  destruct (get_timestamp real n s1) as [s2 t]. cbn in Hg2, Hm, Hd2. subst t.
  cbn. split; [done|]. intros c. rewrite Hd2, Hd.
  set (i := e_ninfo (stored_of s n)) in *.
  destruct (0 <? max_drift) eqn:E0.
  - apply Z.ltb_lt in E0. destruct (max_drift <? now - mtime n) eqn:E1; [|done].
    apply Z.ltb_lt in E1. destruct (timestamp i) as [t|] eqn:Et; cbn; [|done].
    destruct (true_int t); [|done]. destruct (csig i) as [d|] eqn:Ec; cbn; [|done].
    destruct (true_text d && (t =? mtime n)) eqn:E2; [|done]. intros [= <-].
    apply andb_true_iff in E2 as [_ E2]. apply Z.eqb_eq in E2. subst t. apply Ht; auto.
  - destruct (max_drift =? 0) eqn:E1; [|done]. apply Z.eqb_eq in E1.
    intros Hc. apply Ht; auto.
Qed.
Lemma runs_call {A} (P : sigs → Prop) (f : sigs → sigs * A) (Q : A → sigs → Prop) :
  (∀ s, P s → Q (f s).2 (f s).1) → runs P (call (E:=fexn) f) Q.
Proof.
  intros HQ s Hs. exists (f s).1, (f s).2. split; [|auto].
  unfold call. by destruct (f s).
Qed.

Hypothesis chunk_ok : md5_chunksize ≠ 0.

Lemma content_hash_digest (n : nat) (f : dfile) (c : text) :
  real n = Some f → data f = inr c →
  get_content_hash real md5_chunksize n = eret (digest n).
Proof.
  intros Ef Ec. unfold get_content_hash, digest. rewrite Ef, Ec, filesignature_digest by lia. done.
Qed.

Lemma runs_hash_contents (n : nat) :
  N n → runs (good N C TS M) (hash_contents real md5_chunksize n)
          (λ c s, good N C TS M s ∧ c = digest n).
Proof.
  intros Hn s Hg. destruct (good_get_size n s Hn Hg) as [Hg' _].
  unfold hash_contents, ecatch, ebind, call.
  destruct (get_size real n s) as [s' z]. cbn in Hg'.
  destruct (real n) as [f|] eqn:Ef; [destruct (data f) as [e|c] eqn:Ec|].
  - exists s', []. unfold digest. rewrite Ef, Ec. split; [|done].
    unfold get_contents, get_content_hash. rewrite Ef, Ec. by destruct (z <? md5_chunksize).
  - exists s', (digest n). split; [|done]. destruct (z <? md5_chunksize).
    + unfold get_contents, digest. by rewrite Ef, Ec.
    + rewrite (content_hash_digest n f c Ef Ec). cbn.
      destruct (digest n) as [|x l] eqn:Ed; [|done].
      exfalso. revert Ed. unfold digest. rewrite Ef, Ec. apply hexdigest_not_empty.
  - exists s', (digest n). split; [|done]. unfold get_contents, get_content_hash, digest. rewrite Ef.
    destruct (z <? md5_chunksize); [done|]. unfold eret. cbn.
    destruct (MD5signature []) eqn:Ed; [|done].
    by destruct (hexdigest_not_empty (md5_update md5_new [])).
Qed.
End nodes.

Lemma good_subset (N : nat → Prop) (C C' TS TS' M : gset nat) (s : sigs) :
  good N C TS M s → C' ⊆ C → TS' ⊆ TS → good N C' TS' M s.
Proof. intros [????] HC HT. split; auto. Qed.

Section calls.
Context (N : nat → Prop) (C TS M : gset nat).
Lemma good_set_csig (n : nat) (s : sigs) :
  N n → good N C TS M s →
  good N ({[n]} ∪ C) TS M (set_ninfo n (with_csig (Some (digest n))) s).
Proof.
  intros Hn Hg. apply (good_set_ninfo _ C TS); [done|done|apply with_csig_true|done|auto|done|set_solver].
Qed.
Lemma good_set_time (n : nat) (s : sigs) :
  N n → good N C TS M s →
  good N C ({[n]} ∪ TS) M (set_ninfo n (with_timestamp (Some (mtime n))) s).
Proof.
  intros Hn Hg. apply (good_set_ninfo _ C TS); [done|done|apply with_timestamp_true|auto|done|set_solver|done].
Qed.
Lemma good_set_size (n : nat) (s : sigs) :
  N n → good N C TS M s →
  good N C TS M (set_ninfo n (with_fsize (Some (size_of n))) s).
Proof.
  intros Hn Hg. apply (good_set_ninfo _ C TS); [done|done|apply with_fsize_true|auto|auto|set_solver|set_solver].
Qed.

Lemma good_has_csig (n : nat) (s : sigs) (i : finfo) (c : text) :
  good N C TS M s → f_ninfo (rec_of s n) = Some i → csig i = Some c → c = digest n →
  good N ({[n]} ∪ C) TS M s.
Proof.
  intros [????] Ei Ec ->. split; try done. intros m. rewrite elem_of_union, elem_of_singleton.
  intros [-> |Hm]; [by exists i|auto].
Qed.

Hypothesis chunk_ok : md5_chunksize ≠ 0.

(** A call whose value is known. *)
Lemma runs_value {A} (P Q : sigs → Prop) (f : sigs → sigs * A) (a : A) :
  (∀ s, P s → Q (f s).1 ∧ (f s).2 = a) → runs P (call (E:=fexn) f) (λ b s, Q s ∧ b = a).
Proof. intros HQ. apply runs_call. intros s Hs. by apply HQ. Qed.

Lemma runs_get_ninfo (n : nat) :
  N n → runs (good N C TS M) (call (E:=fexn) (get_ninfo n))
          (λ i s, good N C TS M s ∧ f_ninfo (rec_of s n) = Some i ∧ info_true n i).
Proof. intros Hn. apply runs_call. intros s. by apply good_get_ninfo. Qed.
Lemma runs_timestamp (n : nat) :
  N n → runs (good N C TS M) (call (E:=fexn) (get_timestamp real n))
          (λ t s, good N C TS M s ∧ t = mtime n).
Proof. intros Hn. apply runs_value. intros s. by apply good_get_timestamp. Qed.
Lemma runs_size (n : nat) :
  N n → runs (good N C TS M) (call (E:=fexn) (get_size real n))
          (λ z s, good N C TS M s ∧ z = size_of n).
Proof. intros Hn. apply runs_value. intros s. by apply good_get_size. Qed.
Lemma runs_max_drift_csig (n : nat) :
  N n → runs (good N C TS M) (call (E:=fexn) (get_max_drift_csig real now max_drift n))
          (λ o s, good N C TS M s ∧ ∀ c, o = Some c → c = digest n).
Proof. intros Hn. apply runs_call. intros s. by apply good_max_drift_csig. Qed.

(** [get_csig] gives the digest, and keeps it. *)
Lemma runs_get_csig (n : nat) :
  N n → runs (good N C TS M) (get_csig real now max_drift md5_chunksize n)
          (λ c s, good N ({[n]} ∪ C) TS M s ∧ c = digest n).
Proof.
  intros Hn. eapply runs_bind; [by apply runs_get_ninfo|].
  intros i. destruct (csig i) as [c|] eqn:Ec.
  { apply runs_ret. intros s (Hg & Ei & Hi). pose proof (true_csig _ _ Hi c Ec) as Hc.
    split; [|done]. by eapply good_has_csig. }
  apply (runs_pre (good N C TS M)); [by intros s [? _]|].
  eapply runs_bind; [by apply runs_max_drift_csig|].
  intros o. apply runs_pure. intros Ho.
  apply (runs_bind _ _ _ (λ c s, good N C TS M s ∧ c = digest n)).
  { destruct o as [c|]; [apply runs_ret; auto|by apply runs_hash_contents]. }
  intros c. apply runs_pure. intros ->.
  eapply (runs_bind _ _ _ (λ _, good N ({[n]} ∪ C) TS M)).
  { apply runs_mod. intros s. by apply good_set_csig. }
  intros []. apply runs_ret. auto.
Qed.

(** A decision by contents compares digests. *)
Lemma runs_changed_content (n : nat) (prev : finfo) :
  N n → runs (good N C TS M) (changed_content real now max_drift md5_chunksize n prev)
          (λ b s, good N ({[n]} ∪ C) TS M s ∧
             b = match csig prev with Some c => bool_decide (digest n ≠ c) | None => true end).
Proof.
  intros Hn. eapply runs_bind; [by apply runs_get_csig|].
  intros c. apply runs_pure. intros ->. apply runs_ret. auto.
Qed.

Lemma runs_timestamp_match (n : nat) (prev : finfo) :
  N n → runs (good N C TS M) (changed_timestamp_match real n prev)
          (λ b s, good N C TS M s ∧
             b = match timestamp prev with Some t => negb (mtime n =? t) | None => true end).
Proof.
  intros Hn. eapply runs_bind; [by apply runs_timestamp|].
  intros t. apply runs_pure. intros ->. apply runs_ret. auto.
Qed.
(** What the caller knows of an earlier build: if the time is the same, so is
    the recorded signature. *)
Definition prev_honest (n : nat) (prev : finfo) : Prop :=
  timestamp prev = Some (mtime n) → csig prev = Some (digest n).

Lemma runs_timestamp_then_content (n : nat) (prev : finfo) :
  N n → prev_honest n prev →
  runs (good N C TS M) (changed_timestamp_then_content real now max_drift md5_chunksize n prev)
    (λ b s, good N C TS M s ∧
       b = match csig prev with Some c => bool_decide (digest n ≠ c) | None => true end).
Proof.
  intros Hn Hp. eapply runs_bind; [by apply runs_timestamp_match|].
  intros b. apply runs_pure. intros ->.
  destruct (timestamp prev) as [t|] eqn:Et; [destruct (Z.eqb_spec (mtime n) t) as [Ht|Ht]|]; cbn [negb].
  - rewrite Hp by congruence. eapply (runs_bind _ _ _ (λ _, good N C TS M)).
    + apply runs_mod. intros s Hg. by eapply good_subset; [apply good_set_csig| |]; [done|exact Hg|set_solver|].
    + intros []. apply runs_ret. intros s Hg. split; [done|]. rewrite Hp by congruence. symmetry. apply bool_decide_false. auto.
  - eapply runs_mono; [by apply runs_changed_content|]. intros b s [Hg Hb].
    split; [|done]. by eapply good_subset; [exact Hg|set_solver|].
  - eapply runs_mono; [by apply runs_changed_content|]. intros b s [Hg Hb].
    split; [|done]. by eapply good_subset; [exact Hg|set_solver|].
Qed.

(** ** Storing *)

Lemma good_assign (n : nat) (r : stored_ref) (e : entry) (s : sigs) :
  good N C TS M s → m_stored (rec_of s n) = Some r →
  e_ninfo e = e_ninfo (deref s n r) →
  good N C TS M (assign n r e s).
Proof.
  intros Hg Er Ee. destruct r as [|e']; cbn.
  - destruct Hg as [Hs ? ? ?]. split; [|done..]. intros m Hm.
    destruct (Hs m Hm) as [? ? ? Hst Ho]. split; [done..| |].
    + unfold stored_of in *. rewrite rec_of_set_entry. unfold set_entry, deref, get_entry in *. cbn.
      destruct (decide (m = n)) as [-> |Hne]; [|by rewrite lookup_insert_ne].
      rewrite Er in Hst |- *. rewrite lookup_insert_eq. cbn. by rewrite Ee.
    + intros e0. rewrite rec_of_set_entry. intros E0. specialize (Ho e0 E0).
      unfold get_entry, set_entry in *. cbn.
      rewrite lookup_insert_ne; [done|]. intros ->. rewrite Er in E0. done.
  - apply good_memo; [done|done|]. intros [? ? ? Hst Ho].
    split; unfold stored_of in *; rewrite !rec_of_upd_eq; cbn; [done..| |].
    + rewrite Er in Hst. cbn in Hst, Ee. by rewrite Ee.
    + intros e0 _. rewrite entry_upd. by apply (Ho e').
Qed.

Lemma get_binfo_stored (make_binfo : nat → attrs) (n : nat) (s : sigs) :
  m_stored (rec_of (get_binfo make_binfo n s).1 n) = m_stored (rec_of s n) ∧
  ∀ r, deref (get_binfo make_binfo n s).1 n r = deref s n r.
Proof.
  unfold get_binfo. destruct (f_binfo (rec_of s n)); cbn; [done|].
  rewrite rec_of_upd_eq. by split; [|intros []].
Qed.

Lemma good_store_info (make_binfo : nat → attrs) (n : nat) (s : sigs) :
  good N C TS M s →
  good N C TS ({[n]} ∪ M) (store_info true make_binfo n s).
Proof.
  intros Hg. unfold store_info, sconsign_store_info.
  destruct (good_get_stored_info _ _ _ _ n s Hg) as (Hg1 & Er & _).
  destruct (get_stored_info n s) as [s1 r]. cbn in Hg1, Er.
  pose proof (sig_good_get_binfo _ _ _ _ make_binfo n s1 Hg1) as Hg2.
  destruct (get_binfo_stored make_binfo n s1) as [Er2 Ed2].
  destruct (get_binfo make_binfo n s1) as [s2 b]. cbn in Hg2, Er2, Ed2.
  rewrite Er in Er2.
  destruct (good_assign n r (Entry (binfo_merge (e_binfo (deref s2 n r)) b)
              (e_ninfo (deref s2 n r))) s2 Hg2 Er2 eq_refl) as [Hs Hc Ht Hm].
  split; [|exact Hc|exact Ht|].
  { intros m Hm'. by destruct (Hs m Hm'). }
  intros m. rewrite elem_of_union, elem_of_singleton. cbn.
  set (l := to_be_merged _). intros [-> |Hm'].
  - destruct (bool_decide_reflect (n ∈ l)) as [H|H]; [done|]. apply elem_of_app. right. by left.
  - specialize (Hm m Hm'). fold l in Hm.
    destruct (bool_decide (n ∈ l)); [done|]. apply elem_of_app. by left.
Qed.
End calls.

Section handlers.
Context (N : nat → Prop) (C TS M : gset nat).

(** A step of a handler that keeps the state good. *)
Lemma runs_step {B} (C' TS' M' : gset nat) (f : sigs → sigs) (k : unit → eff sigs fexn B)
    (Q : B → sigs → Prop) :
  (∀ s, good N C TS M s → good N C' TS' M' (f s)) →
  runs (good N C' TS' M') (k tt) Q → runs (good N C TS M) (ebind (emod f) k) Q.
Proof.
  intros Hf Hk. apply (runs_bind _ _ _ (λ _, good N C' TS' M')); [by apply runs_mod|by intros []].
Qed.

Lemma good_pushed (n : nat) (s : sigs) :
  good N C TS M s →
  good N C TS M (Sigs (recs s) (sg_entries s) (to_be_merged s) (pushed s ++ [n])).
Proof. intros [Hs Hc Ht Hm]. split; [|exact Hc|exact Ht|exact Hm]. intros m Hm'. by destruct (Hs m Hm'). Qed.

Lemma good_with_binfo (n : nat) (b : option attrs) (s : sigs) :
  good N C TS M s → good N C TS M (upd_rec n (with_f_binfo b) s).
Proof.
  intros Hg. apply good_memo; [done|done|].
  intros [?????]. by split; unfold stored_of in *; rewrite !rec_of_upd_eq.
Qed.
End handlers.

(** [clear] forgets all but what is stored. *)
Lemma sig_good_clear (N : nat → Prop) (C TS M : gset nat) (n : nat) (s : sigs) :
  good N C TS M s → good N (C ∖ {[n]}) (TS ∖ {[n]}) M (sig_clear n s).
Proof.
  intros Hg. apply (sig_good_upd _ C TS); [done| |set_solver|set_solver|set_solver|set_solver].
  intros [? ? ? Hst Ho]. split; unfold stored_of in *; rewrite !rec_of_upd_eq; cbn; try done.
  - intros ? [= <-]. apply new_info_true.
  - destruct (m_stored (rec_of s n)) as [[|e]|]; [exact Hst| |exact Hst].
    change (get_entry n _) with (get_entry n s). by rewrite (Ho e eq_refl).
Qed.

Lemma runs_built (N : nat → Prop) (C TS M : gset nat) (n : nat) :
  md5_chunksize ≠ 0 → N n →
  runs (good N C TS M) (sig_built real now max_drift md5_chunksize n)
    (λ _, good N ({[n]} ∪ C) ({[n]} ∪ TS) M).
Proof.
  intros Hch Hn. eapply runs_step; [intros s; apply sig_good_clear|].
  set (C' := C ∖ {[n]}). set (T' := TS ∖ {[n]}).
  apply (runs_step _ _ _ _ C' T' M).
  { intros s Hg. eapply good_set_ninfo; [done|exact Hg| |set_solver|auto|set_solver|set_solver].
    intros i [???]. by split. }
  eapply runs_bind; [by apply runs_get_csig|]. intros c. apply runs_pure. intros ->.
  eapply (runs_step _ _ _ _ ({[n]} ∪ C') T' M).
  { intros s Hg. by eapply good_subset; [apply good_set_csig| |]; [done|exact Hg|set_solver|]. }
  apply (runs_step _ _ _ _ ({[n]} ∪ C') T' M).
  { intros s Hg. eapply good_set_ninfo; [done|exact Hg| |auto|set_solver|set_solver|set_solver].
    intros i [???]. by split. }
  eapply runs_bind; [by apply runs_timestamp|]. intros t. apply runs_pure. intros ->.
  eapply runs_step; [intros s; by apply good_set_time|].
  apply (runs_step _ _ _ _ ({[n]} ∪ C') ({[n]} ∪ T') M).
  { intros s Hg. eapply good_set_ninfo; [done|exact Hg| |auto|auto|set_solver|set_solver].
    intros i [???]. by split. }
  eapply runs_bind; [by apply runs_size|]. intros z. apply runs_pure. intros ->.
  apply runs_mod. intros s Hg. eapply good_subset; [by apply good_set_size| |];
    intros m; destruct (decide (m = n)); set_solver.
Qed.

Variables (exists_local has_builder : nat → bool) (make_binfo : nat → attrs).

(** [visited] records time and size and has the node merged. *)
Lemma runs_visited (N : nat → Prop) (C TS M : gset nat) (n : nat) :
  N n →
  runs (good N C TS M)
    (File_visited real now max_drift true exists_local has_builder make_binfo n)
    (λ _, good N C ({[n]} ∪ TS) ({[n]} ∪ M)).
Proof.
  intros Hn. apply (runs_bind _ _ _ (λ _, good N C TS M)).
  { destruct (exists_local n); [apply runs_mod|apply runs_ret; done]. intros s. apply good_pushed. }
  intros []. eapply runs_bind; [by apply runs_get_ninfo|].
  intros i. apply (runs_pre (good N C TS M)); [by intros s [? _]|].
  eapply runs_bind; [by apply runs_max_drift_csig|]. intros o. apply runs_pure. intros Ho.
  apply (runs_bind _ _ _ (λ _, good N C TS M)).
  { destruct o as [c|]; [|apply runs_ret; done]. rewrite (Ho c eq_refl).
    destruct (true_text (digest n)); [apply runs_mod|apply runs_ret; done].
    intros s Hg. by eapply good_subset; [apply good_set_csig| |]; [done|exact Hg|set_solver|]. }
  intros []. eapply runs_bind; [by apply runs_timestamp|]. intros t. apply runs_pure. intros ->.
  eapply runs_step; [intros s; by apply good_set_time|].
  eapply runs_bind; [by apply runs_size|]. intros z. apply runs_pure. intros ->.
  eapply runs_step; [intros s; by apply good_set_size|].
  apply (runs_bind _ _ _ (λ _, good N C ({[n]} ∪ TS) M)).
  - destruct (has_builder n); [apply runs_ret; done|].
    apply (runs_bind _ _ _ (λ _, good N C ({[n]} ∪ TS) M)).
    { apply runs_call. intros s Hg. by apply good_get_stored_info. }
    intros r. apply (runs_bind _ _ _ (λ _, good N C ({[n]} ∪ TS) M)).
    { apply runs_call. intros s Hg. by apply sig_good_get_binfo. }
    intros b. apply runs_mod. intros s. apply good_with_binfo.
  - intros []. apply runs_mod. intros s. by apply good_store_info.
Qed.

(** ** Merging *)

(** Complete information, of a node and of its entry. *)
Definition complete (n : nat) (i : finfo) : Prop :=
  csig i = Some (digest n) ∧ timestamp i = Some (mtime n).
Definition known (s : sigs) (n : nat) : Prop :=
  ∃ i, f_ninfo (rec_of s n) = Some i ∧ complete n i.
Definition merged (s : sigs) (n : nat) : Prop :=
  ∃ e, get_entry n s = Some e ∧ complete n (e_ninfo e).

Lemma good_known (N : nat → Prop) (C TS M : gset nat) (s : sigs) (n : nat) :
  good N C TS M s → n ∈ C → n ∈ TS → known s n.
Proof.
  intros Hg Hc Ht. destruct (good_csig _ _ _ _ _ Hg n Hc) as (i & Ei & Ec).
  destruct (good_time _ _ _ _ _ Hg n Ht) as (j & Ej & Et).
  exists i. split; [done|]. split; [done|congruence].
Qed.

Lemma merge_turn_known (s : sigs) (m n : nat) : known s n → known (merge_turn s m) n.
Proof.
  intros (i & Ei & Hi). exists i. split; [|done].
  unfold merge_turn, get_stored_info, get_ninfo. destruct (m_stored (rec_of s m));
    rewrite ?rec_of_upd_eq; cbn; destruct (f_ninfo (rec_of s m)) eqn:Em;
    rewrite ?rec_of_upd, ?rec_of_set_entry, ?rec_of_upd, ?rec_of_upd_eq; cbn;
    repeat (case_decide; subst; try congruence; cbn); congruence.
Qed.

(** What a turn leaves in the entries. *)
Lemma merge_turn_entries (s : sigs) (m : nat) :
  ∃ e, sg_entries (merge_turn s m) = <[m := e]> (sg_entries s) ∧
    ∀ i, f_ninfo (rec_of s m) = Some i → ∃ old, e_ninfo e = info_merge old i.
Proof.
  unfold merge_turn, get_stored_info, get_ninfo.
  destruct (m_stored (rec_of s m)); rewrite ?rec_of_upd_eq; cbn;
    destruct (f_ninfo (rec_of s m)) eqn:Em; cbn;
    (eexists; split; [reflexivity|cbn; intros ? [= <-]; eauto]) || (eexists; split; [reflexivity|done]).
Qed.

Lemma merge_turn_merged (s : sigs) (m n : nat) :
  known s n → n = m ∨ merged s n → merged (merge_turn s m) n.
Proof.
  intros (i & Ei & Hc & Ht) H. unfold merged, get_entry.
  destruct (merge_turn_entries s m) as (e & -> & He).
  destruct (decide (n = m)) as [-> |Hne].
  - destruct (He i Ei) as (old & Eo). exists e. rewrite lookup_insert_eq. split; [done|].
    unfold complete. rewrite Eo. cbn. by rewrite Hc, Ht.
  - rewrite lookup_insert_ne by done. destruct H as [?|H]; [done|exact H].
Qed.

Lemma merge_all (l : list nat) (s : sigs) (n : nat) :
  known s n → n ∈ l ∨ merged s n →
  known (foldl merge_turn s l) n ∧ merged (foldl merge_turn s l) n.
Proof.
  revert s. induction l as [|m l IH]; intros s Hk H; cbn [foldl].
  { destruct H as [H|H]; [by apply not_elem_of_nil in H|done]. }
  apply IH; [by apply merge_turn_known|]. rewrite elem_of_cons in H.
  destruct H as [[H|H]|H]; [right; apply merge_turn_merged; auto|by left|right; apply merge_turn_merged; auto].
Qed.

(** After [merge] the entry of a node that was visited is complete. *)
Lemma merge_complete (N : nat → Prop) (C TS M : gset nat) (s : sigs) (n : nat) :
  good N C TS M s → n ∈ C → n ∈ TS → n ∈ M →
  known (sconsign_merge s) n ∧ merged (sconsign_merge s) n.
Proof.
  intros Hg HC HT HM. apply merge_all; [by eapply good_known|].
  left. by apply (good_merge _ _ _ _ _ Hg).
Qed.
(** ** A whole run

    Files are visited once their signature is taken: of a source by a
    decision, of a target when it was built. *)
Definition take_signature (n : nat) (is_built : bool) : eff sigs fexn unit :=
  (if is_built then sig_built real now max_drift md5_chunksize n
   else let! _ := get_csig real now max_drift md5_chunksize n in eret tt)%eff.
Definition run_files (l : list (nat * bool)) : eff sigs fexn unit :=
  (efor l (λ '(n, is_built),
     take_signature n is_built ;;;
     File_visited real now max_drift true exists_local has_builder make_binfo n) ;;;
   emod sconsign_merge)%eff.

Hypothesis chunk_ok : md5_chunksize ≠ 0.

Lemma runs_take_signature (N : nat → Prop) (C TS M : gset nat) (n : nat) (b : bool) :
  N n → runs (good N C TS M) (take_signature n b) (λ _, good N ({[n]} ∪ C) TS M).
Proof.
  intros Hn. destruct b; cbn.
  - eapply runs_mono; [by apply runs_built|]. intros [] s Hg.
    eapply good_subset; [exact Hg|done|apply union_subseteq_r].
  - eapply runs_bind; [by apply runs_get_csig|]. intros c. apply runs_pure. intros _.
    apply runs_ret. done.
Qed.

Lemma runs_files_loop (N : nat → Prop) (l : list (nat * bool)) (C TS M : gset nat) :
  (∀ n, n ∈ l.*1 → N n) →
  runs (good N C TS M)
    (efor l (λ '(n, is_built),
       take_signature n is_built ;;;
       File_visited real now max_drift true exists_local has_builder make_binfo n)%eff)
    (λ _ s, ∃ C' TS' M', good N C' TS' M' s ∧
       C ⊆ C' ∧ TS ⊆ TS' ∧ M ⊆ M' ∧ ∀ n, n ∈ l.*1 → n ∈ C' ∧ n ∈ TS' ∧ n ∈ M').
Proof.
  revert C TS M. induction l as [|[n b] l IH]; intros C TS M HN; cbn [efor].
  { apply runs_ret. intros s Hg. exists C, TS, M. split_and!; [done..|].
    intros n Hn. by apply not_elem_of_nil in Hn. }
  apply (runs_bind _ _ _ (λ _, good N ({[n]} ∪ C) ({[n]} ∪ TS) ({[n]} ∪ M))).
  - eapply runs_bind; [apply runs_take_signature, HN; by left|].
    intros []. apply runs_visited, HN; by left.
  - intros []. eapply runs_mono; [apply IH; intros m Hm; apply HN; by right|].
    intros [] s (C' & T' & M' & Hg & H1 & H2 & H3 & Hl). exists C', T', M'.
    split_and!; [done|clear - H1|clear - H2|clear - H3|]; [set_solver..|]. cbn. intros m.
    rewrite elem_of_cons. intros [-> |Hm]; [clear - H1 H2 H3; set_solver|auto].
Qed.

Lemma runs_run_files (N : nat → Prop) (l : list (nat * bool)) :
  (∀ n, n ∈ l.*1 → N n) →
  runs (good N ∅ ∅ ∅) (run_files l) (λ _ s, ∀ n, n ∈ l.*1 → known s n ∧ merged s n).
Proof.
  intros HN. eapply runs_bind; [by apply runs_files_loop|].
  intros []. apply runs_mod. intros s (C & TS & M & Hg & _ & _ & _ & Hl) n Hn.
  destruct (Hl n Hn) as (? & ? & ?). by eapply merge_complete.
Qed.

Lemma sound_good (l : list nat) (s : sigs) :
  (∀ n, n ∈ l → sound_at s n) → good (λ n, n ∈ l) ∅ ∅ ∅ s.
Proof. intros Hs. split; [exact Hs|intros n Hn; by apply not_elem_of_empty in Hn..]. Qed.

(** A run begins soundly if what was stored can be trusted. *)
Lemma sound_next_run (s : sigs) (n : nat) :
  (∀ e, get_entry n s = Some e → trusted n (e_ninfo e)) → sound_at (next_run s) n.
Proof.
  intros Ht. assert (Er : rec_of (next_run s) n = frec_init) by done.
  split; unfold stored_of; rewrite ?Er; cbn; try done.
  change (get_entry n (next_run s)) with (get_entry n s).
  destruct (get_entry n s) as [e|]; [by apply Ht|by intros c Hc].
Qed.
End facts.

#[local] Unset Default Proof Using.

(** ** Which signature is taken *)

Section signatures.
Variable real : nat → option dfile.
Variables (now max_drift md5_chunksize : Z).

(** [c] is the signature that the last run stored, and it is used again: the file
    has the time stamp stored beside it and is older than [max_drift], or
    [max_drift] is zero. *)
Definition reused (n : nat) (s : sigs) (c : text) : Prop :=
  let i := e_ninfo (stored_of s n) in
  let t := default (mtime real n) (m_timestamp (rec_of s n)) in
  csig i = Some c ∧
  (0 < max_drift ∧ max_drift < now - t ∧ timestamp i = Some t ∧ t ≠ 0 ∧ c ≠ [] ∨ max_drift = 0).

(** The calls change the record of [n] only, and of that not the node information. *)
Definition only_memo (n : nat) (s s' : sigs) : Prop :=
  sg_entries s' = sg_entries s ∧ (∀ m, m ≠ n → rec_of s' m = rec_of s m) ∧
  f_ninfo (rec_of s' n) = f_ninfo (rec_of s n).

Lemma only_memo_trans n s1 s2 s3 : only_memo n s1 s2 → only_memo n s2 s3 → only_memo n s1 s3.
Proof.
  intros (E1 & R1 & N1) (E2 & R2 & N2). split_and!; [congruence| |congruence].
  intros m Hm. by rewrite R2, R1.
Qed.

Lemma only_memo_upd n f s :
  (∀ r, f_ninfo (f r) = f_ninfo r) → only_memo n s (upd_rec n f s).
Proof.
  intros Hf. split_and!; [done| |by rewrite rec_of_upd_eq]. intros m Hm.
  by rewrite rec_of_upd, decide_False.
Qed.

Lemma drift_exact n s :
  let '(s', o) := get_max_drift_csig real now max_drift n s in
  only_memo n s s' ∧ ∀ c, o = Some c ↔ reused n s c.
Proof.
  unfold get_max_drift_csig.
  assert (only_memo n s (get_stored_info n s).1 ∧
    m_timestamp (rec_of (get_stored_info n s).1 n) = m_timestamp (rec_of s n) ∧
    deref (get_stored_info n s).1 n (get_stored_info n s).2 = stored_of s n) as (H1 & Et & Ed).
  { unfold get_stored_info, stored_of. destruct (m_stored (rec_of s n)) eqn:E; cbn; [done|].
    split_and!; [by apply only_memo_upd|by rewrite rec_of_upd_eq|].
    unfold deref. destruct (get_entry n s) eqn:E'; cbn; by rewrite ?entry_upd, ?E'. }
  destruct (get_stored_info n s) as [s1 r]. cbn [fst snd] in *.
  assert (only_memo n s1 (get_timestamp real n s1).1 ∧
    (get_timestamp real n s1).2 = default (mtime real n) (m_timestamp (rec_of s n))) as [H2 Em].
  { unfold get_timestamp. rewrite Et. destruct (m_timestamp (rec_of s n)); cbn; [done|].
    split; [by apply only_memo_upd|done]. }
  pose proof (deref_get_timestamp real n r s1) as Ed2.
  destruct (get_timestamp real n s1) as [s2 t]. cbn [fst snd] in *.
  split; [by eapply only_memo_trans|]. intros c. rewrite Ed2, Ed. unfold reused. rewrite <- Em.
  set (i := e_ninfo (stored_of s n)). unfold true_int.
  destruct (Z.ltb_spec 0 max_drift); [destruct (Z.ltb_spec max_drift (now - t))|
    destruct (Z.eqb_spec max_drift 0)]; try (split; [done|lia]); [|naive_solver lia].
  destruct (timestamp i) as [u|]; cbn; [|split; [done|naive_solver lia]].
  destruct (Z.eqb_spec u 0); cbn; [split; [done|naive_solver lia]|].
  destruct (csig i) as [d|]; cbn; [|split; [done|naive_solver lia]].
  destruct d as [|x d]; cbn; [split; [done|naive_solver lia]|].
  destruct (Z.eqb_spec u t); naive_solver lia.
Qed.

Lemma hash_exact n s : md5_chunksize ≠ 0 →
  ∃ s', hash_contents real md5_chunksize n s = (s', Ok (digest real n)) ∧ only_memo n s s'.
Proof.
  intros Hch. assert (only_memo n s (get_size real n s).1) as Hm.
  { unfold get_size. destruct (m_size _); cbn; [done|by apply only_memo_upd]. }
  unfold hash_contents, ecatch, ebind, call.
  destruct (get_size real n s) as [s' z]. cbn in Hm. exists s'. split; [|done].
  destruct (real n) as [f|] eqn:Ef; [destruct (data f) as [e|c] eqn:Ec|].
  - unfold digest. rewrite Ef, Ec.
    unfold get_contents, get_content_hash. rewrite Ef, Ec. by destruct (z <? md5_chunksize).
  - destruct (z <? md5_chunksize).
    + unfold get_contents, digest. by rewrite Ef, Ec.
    + rewrite (content_hash_digest real md5_chunksize Hch n f c Ef Ec). cbn.
      destruct (digest real n) as [|x l] eqn:Ed; [|done].
      exfalso. revert Ed. unfold digest. rewrite Ef, Ec. apply hexdigest_not_empty.
  - unfold get_contents, get_content_hash, digest. rewrite Ef.
    destruct (z <? md5_chunksize); [done|]. unfold eret. cbn.
    destruct (MD5signature []) eqn:Ed; [|done].
    by destruct (hexdigest_not_empty (md5_update md5_new [])).
Qed.

(** A node without a signature gets one. *)
Lemma csig_taken n s : md5_chunksize ≠ 0 → f_ninfo (rec_of s n) ≫= csig = None →
  is_Some (f_ninfo (rec_of s n)) →
  ∃ s' c, get_csig real now max_drift md5_chunksize n s = (s', Ok c) ∧
    (f_ninfo (rec_of s' n) ≫= csig) = Some c ∧
    (reused n s c ∨ (∀ d, ¬ reused n s d) ∧ c = digest real n) ∧
    sg_entries s' = sg_entries s ∧ ∀ m, m ≠ n → rec_of s' m = rec_of s m.
Proof.
  intros Hch Hc [i Ei]. rewrite Ei in Hc. cbn in Hc.
  unfold get_csig, ebind, call, get_ninfo. rewrite Ei. cbn. rewrite Hc.
  pose proof (drift_exact n s) as Hd. destruct (get_max_drift_csig real now max_drift n s) as [s1 o].
  destruct Hd as [H1 Ho].
  assert (∃ s2 c, (match o with Some c => eret c | None => hash_contents real md5_chunksize n end) s1
    = (s2, Ok c) ∧ only_memo n s1 s2 ∧ (reused n s c ∨ (∀ d, ¬ reused n s d) ∧ c = digest real n))
    as (s2 & c & -> & H2 & Hr).
  { destruct o as [c|].
    - exists s1, c. split_and!; [done|done|]. left. by apply Ho.
    - destruct (hash_exact n s1 Hch) as (s2 & -> & H2). exists s2, (digest real n).
      split_and!; [done|done|]. right. split; [|done]. intros d Hd. by apply Ho in Hd. }
  destruct (only_memo_trans _ _ _ _ H1 H2) as (Ee & Er & En). rewrite Ei in En.
  unfold emod, eret. cbn. unfold set_ninfo, get_ninfo. rewrite En.
  eexists _, c. split_and!; [done|by rewrite rec_of_upd_eq|done|exact Ee|].
  intros m Hm. rewrite rec_of_upd, decide_False by done. by apply Er.
Qed.
End signatures.

(** ** Theorems *)

(** C16: with a block size that is not zero and in any state, [get_csig] returns.  The
    signature is the one the node already has; else the one stored by the last run, exactly if
    that is to be used again (the file has the time stamp stored with it, which is older than
    [max_drift], or [max_drift] is zero); and else the digest of what the file holds now (of the
    empty text if there is no file, nothing if it cannot be read), whether the contents are read
    whole or in blocks.  The node has the signature from then on, other nodes and what is stored
    stay as they are. *)
Theorem get_csig_exact (real : nat → option dfile) (now max_drift md5_chunksize : Z)
    (n : nat) (s : sigs) :
  md5_chunksize ≠ 0 →
  ∃ s' c, get_csig real now max_drift md5_chunksize n s = (s', Ok c) ∧
    (f_ninfo (rec_of s' n) ≫= csig) = Some c ∧
    match f_ninfo (rec_of s n) ≫= csig with
    | Some d => c = d
    | None => reused real now max_drift n s c ∨
        (∀ d, ¬ reused real now max_drift n s d) ∧ c = digest real n
    end ∧
    sg_entries s' = sg_entries s ∧ ∀ m, m ≠ n → rec_of s' m = rec_of s m.
Proof.
  intros Hch. destruct (f_ninfo (rec_of s n) ≫= csig) as [d|] eqn:Ec.
  { exists s, d. unfold get_csig, ebind, call, get_ninfo.
    destruct (f_ninfo (rec_of s n)) as [i|] eqn:Ei; [|done]. cbn in Ec |- *. by rewrite Ec. }
  destruct (f_ninfo (rec_of s n)) as [i|] eqn:Ei.
  { destruct (csig_taken real now max_drift md5_chunksize n s) as (s' & c & ?); rewrite ?Ei; eauto. }
  set (s0 := upd_rec n (with_f_ninfo (Some new_finfo)) s).
  assert (f_ninfo (rec_of s0 n) = Some new_finfo) as E0 by by (unfold s0; rewrite rec_of_upd_eq).
  destruct (csig_taken real now max_drift md5_chunksize n s0) as (s' & c & E & Hc & Hr & He & Hm);
    [done|by rewrite E0|by rewrite E0|].
  exists s', c. split_and!; [|done| |done|].
  - rewrite <- E. unfold get_csig, ebind, call, get_ninfo. by rewrite Ei, E0.
  - unfold reused, stored_of in Hr |- *. unfold s0 in Hr. by rewrite !rec_of_upd_eq in Hr.
  - intros m Hne. rewrite Hm by done. unfold s0. by rewrite rec_of_upd, decide_False.
Qed.

(** While the stored signature can be trusted, [get_csig] returns and gives the digest of what
    the file holds now (of the empty text if there is no file, nothing if it cannot be read), from
    whichever of the stored signature, the whole contents or the blocks it is made; and the
    state stays sound. *)
Theorem get_csig_current (real : nat → option dfile) (now max_drift md5_chunksize : Z)
    (n : nat) (s : sigs) :
  md5_chunksize ≠ 0 → sound_at real now max_drift s n →
  ∃ s', get_csig real now max_drift md5_chunksize n s = (s', Ok (digest real n)) ∧
    sound_at real now max_drift s' n.
Proof.
  intros Hch Hs.
  destruct (runs_get_csig real now max_drift md5_chunksize (λ m, m = n) ∅ ∅ ∅ Hch n eq_refl s)
    as (s' & c & E & Hg & ->).
  { split; [by intros m ->|intros m Hm; by apply not_elem_of_empty in Hm..]. }
  exists s'. split; [done|]. by apply (good_sound _ _ _ _ _ _ _ _ Hg).
Qed.

(** If an equal time stamp means an equal signature, the decision by time stamp and then
    contents is the decision by contents, though it reads the file only if the time changed. *)
Theorem timestamp_then_content_agrees (real : nat → option dfile)
    (now max_drift md5_chunksize : Z) (n : nat) (prev : finfo) (s : sigs) :
  md5_chunksize ≠ 0 → sound_at real now max_drift s n → prev_honest real n prev →
  ∃ b, (changed_timestamp_then_content real now max_drift md5_chunksize n prev s).2 = Ok b ∧
    (changed_content real now max_drift md5_chunksize n prev s).2 = Ok b.
Proof.
  intros Hch Hs Hp.
  assert (Hg : good real now max_drift (λ m, m = n) ∅ ∅ ∅ s).
  { split; [by intros m ->|intros m Hm; by apply not_elem_of_empty in Hm..]. }
  destruct (runs_timestamp_then_content real now max_drift md5_chunksize _ _ _ _ Hch n prev
              eq_refl Hp s Hg) as (s1 & b1 & E1 & _ & ->).
  destruct (runs_changed_content real now max_drift md5_chunksize _ _ _ _ Hch n prev
              eq_refl s Hg) as (s2 & b2 & E2 & _ & ->).
  rewrite E1, E2. by eexists.
Qed.

(** The decisions of a run about a file that the last run merged. *)
Lemma decisions_after (real real2 : nat → option dfile) (now2 drift2 chunk2 : Z) (n : nat)
    (prev : finfo) (s : sigs) :
  chunk2 ≠ 0 → drift2 ≠ 0 →
  (mtime real2 n = mtime real n → digest real2 n = digest real n) →
  complete real n prev → merged real s n →
  (changed_content real2 now2 drift2 chunk2 n prev (next_run s)).2
    = Ok (bool_decide (digest real2 n ≠ digest real n)) ∧
  (changed_timestamp_then_content real2 now2 drift2 chunk2 n prev (next_run s)).2
    = Ok (bool_decide (digest real2 n ≠ digest real n)) ∧
  (changed_timestamp_match real2 n prev (next_run s)).2
    = Ok (bool_decide (mtime real2 n ≠ mtime real n)).
Proof.
  intros Hch Hd Hsame [Hpc Hpt] (e & Ee & Hec & Het).
  assert (Hg : good real2 now2 drift2 (λ m, m = n) ∅ ∅ ∅ (next_run s)).
  { split; [intros m ->|intros m Hm; by apply not_elem_of_empty in Hm..].
    apply sound_next_run. intros e'. rewrite Ee. intros [= <-] c Hc.
    rewrite Hec in Hc. injection Hc as <-. rewrite Het.
    intros [(_ & Ht & _)|?]; [|done]. injection Ht as Ht. symmetry. auto. }
  assert (Hp : prev_honest real2 n prev).
  { intros Ht. rewrite Hpt in Ht. injection Ht as Ht. rewrite Hpc, Hsame by done. done. }
  destruct (runs_changed_content real2 now2 drift2 chunk2 _ _ _ _ Hch n prev eq_refl _ Hg)
    as (s1 & b1 & E1 & _ & ->).
  destruct (runs_timestamp_then_content real2 now2 drift2 chunk2 _ _ _ _ Hch n prev
              eq_refl Hp _ Hg) as (s2 & b2 & E2 & _ & ->).
  destruct (runs_timestamp_match real2 now2 drift2 _ _ _ _ n prev eq_refl _ Hg)
    as (s3 & b3 & E3 & _ & ->).
  rewrite E1, E2, E3, Hpc, Hpt. split_and!; [done..|]. cbn. f_equal.
  destruct (Z.eqb_spec (mtime real2 n) (mtime real n));
    symmetry; [apply bool_decide_eq_false|apply bool_decide_eq_true]; naive_solver.
Qed.

(** C15: A run over any files that takes the content signature of each returns, and what it
    stores makes the next run, with files, clock and options of its own, decide rightly about
    each of them: by contents, and by time stamp and contents, a file counts as changed exactly
    if its digest is another one, and by time stamp exactly if its time is.  Assumed: block sizes
    are not zero; a signature stored before the first run that this run would use again is that
    of the file ([trusted]); a file whose contents were edited between the runs has another time
    stamp; and [max_drift] is not zero in the second run. *)
Theorem next_run_decisions (real real2 : nat → option dfile)
    (now max_drift md5_chunksize now2 drift2 chunk2 : Z)
    (exists_local has_builder : nat → bool) (make_binfo : nat → attrs)
    (l : list (nat * bool)) (n : nat) (s0 : sigs) :
  md5_chunksize ≠ 0 → chunk2 ≠ 0 → drift2 ≠ 0 →
  (∀ m e, m ∈ l.*1 → get_entry m s0 = Some e → trusted real now max_drift m (e_ninfo e)) →
  n ∈ l.*1 →
  (mtime real2 n = mtime real n → digest real2 n = digest real n) →
  ∃ s1 prev,
    run_files real now max_drift md5_chunksize exists_local has_builder make_binfo l
      (next_run s0) = (s1, Ok tt) ∧
    f_ninfo (rec_of s1 n) = Some prev ∧
    (changed_content real2 now2 drift2 chunk2 n prev (next_run s1)).2
      = Ok (bool_decide (digest real2 n ≠ digest real n)) ∧
    (changed_timestamp_then_content real2 now2 drift2 chunk2 n prev (next_run s1)).2
      = Ok (bool_decide (digest real2 n ≠ digest real n)) ∧
    (changed_timestamp_match real2 n prev (next_run s1)).2
      = Ok (bool_decide (mtime real2 n ≠ mtime real n)).
Proof.
  intros Hch Hch2 Hd Ht Hn Hsame.
  destruct (runs_run_files real now max_drift md5_chunksize exists_local has_builder make_binfo
              Hch (λ m, m ∈ l.*1) l (λ _ H, H) (next_run s0)) as (s1 & [] & E & Hl).
  { apply sound_good. intros m Hm. apply sound_next_run. intros e. by apply Ht. }
  destruct (Hl n Hn) as [(prev & Ep & Hp) Hm].
  exists s1, prev. split; [done|]. split; [done|]. by apply decisions_after.
Qed.

(** ** Witnesses *)

Definition ex_edited (n : nat) : option dfile :=
  if decide (n = 1%nat) then Some (DFile "a.c" 200 5 (inr (T "int b"))) else None.
Definition ex_empty : sigs := Sigs ∅ ∅ [] [].

(** The signature of other contents, stored with another time stamp. *)
Definition ex_stale : sigs :=
  Sigs ∅ {[1%nat := Entry ∅ (FInfo (Some (MD5signature (T "int a"))) (Some 100) (Some 5))]} [] [].

Lemma ex_sound : sound_at ex_files 1000000 172800 ex_empty 1.
Proof. apply (sound_next_run _ _ _ ex_empty 1). intros e. by intros [= ]. Qed.

Lemma get_csig_exact_witness :
  ∃ s' c, get_csig ex_edited 1000000 172800 64 1 ex_stale = (s', Ok c) ∧ c = digest ex_edited 1.
Proof.
  destruct (get_csig_exact ex_edited 1000000 172800 64 1 ex_stale) as (s' & c & E & _ & H & _); [lia|].
  exists s', c. split; [exact E|]. destruct H as [[_ H]|[_ H]]; [|exact H].
  vm_compute in H. destruct H as [(_ & _ & H & _)|H]; discriminate H.
Defined.

Lemma get_csig_current_witness :
  ∃ s', get_csig ex_files 1000000 172800 64 1 ex_empty = (s', Ok (digest ex_files 1)) ∧
    sound_at ex_files 1000000 172800 s' 1.
Proof. apply get_csig_current; [lia|exact ex_sound]. Defined.

Lemma timestamp_then_content_agrees_witness :
  ∃ b, (changed_timestamp_then_content ex_files 1000000 172800 64 1
          (FInfo (Some (T "old")) (Some 90) None) ex_empty).2 = Ok b ∧
    (changed_content ex_files 1000000 172800 64 1
          (FInfo (Some (T "old")) (Some 90) None) ex_empty).2 = Ok b.
Proof. apply timestamp_then_content_agrees; [lia|exact ex_sound|by intros [= ]]. Defined.

Lemma next_run_decisions_witness :
  ∃ s1 prev,
    run_files ex_files 1000000 172800 64 (λ _, true) (λ _, false) (λ _, ∅) [(1%nat, false)]
      (next_run ex_empty) = (s1, Ok tt) ∧
    f_ninfo (rec_of s1 1) = Some prev ∧
    (changed_content ex_edited 2000000 (-1) 64 1 prev (next_run s1)).2
      = Ok (bool_decide (digest ex_edited 1 ≠ digest ex_files 1)) ∧
    (changed_timestamp_then_content ex_edited 2000000 (-1) 64 1 prev (next_run s1)).2
      = Ok (bool_decide (digest ex_edited 1 ≠ digest ex_files 1)) ∧
    (changed_timestamp_match ex_edited 1 prev (next_run s1)).2
      = Ok (bool_decide (mtime ex_edited 1 ≠ mtime ex_files 1)).
Proof.
  apply next_run_decisions; [lia|lia|lia| |by left|done].
  intros m e _. by intros [= ].
Defined.

(** ** Where stored signatures go wrong *)

(** With [max_drift] zero a target that was just built again keeps the signature
    of its old contents. *)
Lemma built_max_drift_zero :
  csig <$> f_ninfo (rec_of (sig_built ex_edited 1000000 0 64 1 ex_stale).1 1) =
    Some (Some (MD5signature (T "int a"))) ∧
  digest ex_edited 1 = MD5signature (T "int b").
Proof. split; vm_compute; reflexivity. Qed.

(** A run that decides by time stamps takes no signature, and [merge] puts its
    new time stamp beside the signature of an earlier run; later, when the file
    is older than [max_drift], that signature is taken for the one of the file. *)
Definition ex_by_time : eff sigs fexn text :=
  (let! _ := changed_timestamp_match ex_edited 1 (FInfo None (Some 100) None) in
   File_visited ex_edited 300 172800 true (λ _, true) (λ _, false) (λ _, ∅) 1 ;;;
   emod sconsign_merge ;;;
   emod next_run ;;;
   get_csig ex_edited 1000000 172800 64 1)%eff.

Lemma merge_mixes_runs :
  (ex_by_time (next_run ex_after)).2 = Ok (MD5signature (T "int a")) ∧
  digest ex_edited 1 = MD5signature (T "int b").
Proof. split; vm_compute; reflexivity. Qed.
