(* ===== verification/Action.v ===== *)
(** * Actions ([SCons/Action.py])

    What [Action()] makes of its argument, and the calls of actions: commands,
    Python functions, lists, generators and construction variables, with what
    they print, the directory they change to and the statuses they give.  The
    functions and the spawned commands are the user's: they act on a world
    [W].  Signatures and implicit dependencies of actions are not modelled. *)

From S2P Require Import Prelude Errors PyStr Subst.
Open Scope nat_scope.

(** ** Values *)

(** A status: what an action returns.  [SObj] is any other true object, by its
    class. *)
Inductive stat :=
| SNone
| SInt (z : Z)
| SStr (s : string)
| SErr (b : build_error)
| SObj (cls : string).

(** [if stat] *)
Definition true_stat (st : stat) : bool :=
  match st with
  | SNone => false
  | SInt z => negb (z =? 0)%Z
  | SStr s => negb (bool_decide (s = ""))
  | SErr _ | SObj _ => true
  end.

(** [status], of a [BuildError], as a value and back. *)
Definition of_status (v : status_value) : stat :=
  match v with StatusInt z => SInt z | StatusObj c => SObj c end.
Definition to_status (st : stat) : status_value :=
  match st with
  | SInt z => StatusInt z
  | SNone => StatusObj "NoneType"
  | SStr _ => StatusObj "str"
  | SErr _ => StatusObj "BuildError"
  | SObj c => StatusObj c
  end.

(** What a Python function of the user returns. *)
Inductive fun_result := FNone | FInt (z : Z) | FStr (s : string) | FExn (e : exn).
Definition true_result (r : fun_result) : bool :=
  match r with
  | FNone => false
  | FInt z => negb (z =? 0)%Z
  | FStr s => negb (bool_decide (s = ""))
  | FExn _ => true
  end.
Definition result_stat (r : fun_result) : stat :=
  match r with FNone => SNone | FInt z => SInt z | FStr s => SStr s | FExn e => SObj (class_name e) end.
Definition result_arg (r : fun_result) : status_arg :=
  match r with
  | FNone => ArgString "" | FInt z => ArgCode z | FStr s => ArgString s | FExn e => ArgExn e
  end.

(** The argument [chdir]: nothing or a false value, a path, a node (its
    [abspath]), or another true value. *)
Inductive chdir_arg := NoDir | DirStr (p : text) | DirNode (p : text) | DirTrue.

(** ** Actions *)

(** The keyword arguments of [_ActionAction.__init__]; [a_cmdstr] is [None] for
    [_null] and [Some None] for [None]; [a_id] names the object. *)
Record base := Base {
  a_id : nat;
  a_cmdstr : option (option text);
  a_strfunction : option (option nat);
  a_presub : option bool;
  a_chdir : chdir_arg;
  a_exitstatfunc : option (stat → stat)
}.

(** What may be given to [Action()]; [AvObj] is an object of no use to it. *)
Inductive act :=
| Command (b : base) (cmd_list : actval)
| Function (b : base) (execfunction : nat)
| ListAction (l : list act)
| Generator (b : base) (generator : nat)
| Lazy (b : base) (var : text) (generator : bool)
with actval :=
| AvAct (a : act)
| AvList (l : list actval)
| AvFun (f : nat)
| AvStr (s : text)
| AvObj (o : nat).

Definition is_list (v : actval) : bool := match v with AvList _ => true | _ => false end.

(** [Util.get_environment_var]: [$] ends at the end or before a last newline. *)
Definition ends_here (s : text) : bool := bool_decide (s = [] ∨ s = ["010"%char]).
Definition get_environment_var (s : text) : option text :=
  let name (s : text) : option (text * text) :=
    match s with
    | c :: _ => if is_letter c || bool_decide (c = "_"%char) then Some (span is_word s) else None
    | [] => None
    end in
  match s with
  | "$"%char :: "{"%char :: s =>
      '(v, rest) ← name s;
      match rest with
      | "}"%char :: rest => if ends_here rest then Some v else None
      | _ => None
      end
  | "$"%char :: s =>
      '(v, rest) ← name s;
      if ends_here rest then Some v else None
  | _ => None
  end.

(** The object to be made: its base, and whether [generator] is set, which the
    first callable takes out of the shared dictionary [kw]. *)
Record keywords := Keywords { kw_base : base; kw_generator : bool }.

Abbreviation fexn := (option exn).
Abbreviation akm := (eff keywords fexn).

Definition is_null {A} (o : option A) : bool := match o with None => true | _ => false end.

(** [_ActionAction.__init__]: a function to display nothing is like no text. *)
Definition action_init (b : base) : base :=
  match a_strfunction b with
  | Some None => Base (a_id b) (Some None) None (a_presub b) (a_chdir b) (a_exitstatfunc b)
  | _ => b
  end.

Definition new_command (cmd : actval) : akm (option act) := λ kw,
  match cmd with
  | AvList l =>
      if existsb is_list l then
        (kw, Raise (Some (ExOther "TypeError" "CommandAction should be given only a single command")))
      else (kw, Ok (Some (Command (action_init (kw_base kw)) cmd)))
  | _ => (kw, Ok (Some (Command (action_init (kw_base kw)) cmd)))
  end.

Definition create_callable (f : nat) : akm (option act) := λ kw,
  if kw_generator kw then
    (Keywords (kw_base kw) false, Ok (Some (Generator (kw_base kw) f)))
  else (kw, Ok (Some (Function (action_init (kw_base kw)) f))).

(** [_do_create_action] of a string of one line, and of any string. *)
Definition create_line (s : text) : akm (option act) := λ kw,
  match get_environment_var s with
  | Some v => (kw, Ok (Some (Lazy (action_init (kw_base kw)) v (kw_generator kw))))
  | None => new_command (AvStr s) kw
  end.

(** The end of [_do_create_list_action]. *)
Definition as_list_action (l : list (option act)) : act :=
  match omap id l with [a] => a | acts => ListAction acts end.

Definition create_text (s : text) : akm (option act) :=
  match get_environment_var s with
  | Some _ => create_line s
  | None =>
      match split "010"%char s with
      | [_] => new_command (AvStr s)
      | commands => (let! l := emap create_line commands in eret (Some (as_list_action l)))%eff
      end
  end.

Definition _do_create_action (v : actval) : akm (option act) :=
  match v with
  | AvAct a => eret (Some a)
  | AvList _ => new_command v
  | AvFun f => create_callable f
  | AvStr s => create_text s
  | AvObj _ => eret None
  end.

(** The new [LazyAction]s share the dictionary, and see what is left of it. *)
Definition share_kw (g : bool) (v : actval) (a : option act) : option act :=
  let set a := match a with Lazy b x _ => Lazy b x g | _ => a end in
  match v, a with
  | AvStr _, Some (ListAction l) => Some (ListAction (map set l))
  | AvStr _, Some a => Some (set a)
  | _, _ => a
  end.
Definition _do_create_list_action (l : list actval) : akm (option act) :=
  (let! acts := emap _do_create_action l in
   let! g := eget kw_generator in
   eret (Some (as_list_action (zip_with (share_kw g) l acts))))%eff.

(** The positional argument after the action. *)
Inductive display := DisplayNone | DisplayText (s : text) | DisplayFun (f : nat) | DisplayOther.

Definition _do_create_keywords (arg : option display) (kw : keywords) : res fexn keywords :=
  let b := kw_base kw in
  let set c f := Keywords (Base (a_id b) c f (a_presub b) (a_chdir b) (a_exitstatfunc b))
                   (kw_generator kw) in
  (let? kw := match arg with
              | None => Ok kw
              | Some DisplayNone => Ok (set (Some None) (a_strfunction b))
              | Some (DisplayText s) => Ok (set (Some (Some s)) (a_strfunction b))
              | Some (DisplayFun f) => Ok (set (a_cmdstr b) (Some (Some f)))
              | Some DisplayOther =>
                  Raise (Some (ExUserError "Invalid command display variable type."))
              end in
   if negb (is_null (a_strfunction (kw_base kw))) && negb (is_null (a_cmdstr (kw_base kw))) then
     Raise (Some (ExUserError "Cannot have both strfunction and cmdstr args to Action()"))
   else Ok kw)%res.

(** [Action(act, arg, **kw)]; the caller's dictionary is copied. *)
Definition make_action (v : actval) (arg : option display) (kw : keywords)
    : res fexn (option act) :=
  (let? kw := _do_create_keywords arg kw in
   match v with
   | AvList l => (_do_create_list_action l kw).2
   | _ => (_do_create_action v kw).2
   end)%res.

(** [_actionAppend]; [kw1] and [kw2] are the keywords of two calls with none. *)
Definition action_append (kw1 kw2 : keywords) (v1 v2 : actval) : res fexn act :=
  (let? a1 := make_action v1 None kw1 in
   let? a2 := make_action v2 None kw2 in
   match a1, a2 with
   | Some (ListAction l1), Some (ListAction l2) => Ok (ListAction (l1 ++ l2))
   | Some (ListAction l1), Some a2 => Ok (ListAction (l1 ++ [a2]))
   | Some a1, Some (ListAction l2) => Ok (ListAction (a1 :: l2))
   | Some a1, Some a2 => Ok (ListAction [a1; a2])
   | _, _ => Raise (Some (ExOther "TypeError" "Cannot append"))
   end)%res.

(** ** The world of a call *)

(** A word of a command line, a [CmdStringHolder]. *)
Record word := Word { w_text : text; w_literal : bool }.

(** Values of the environment of commands: strings, lists with lists inside,
    and other objects by their [str]. *)
Inductive nested := Leaf (s : text) | Seq (l : list nested).
Inductive envval := EnvStr (s : text) | EnvList (l : list nested) | EnvObj (s : text).

(** [Util.flatten_sequence], each item as a string. *)
Fixpoint flatten (n : nested) : list text :=
  match n with Leaf s => [s] | Seq l => concat (map flatten l) end.
Definition env_string (v : envval) : text :=
  match v with
  | EnvStr s | EnvObj s => s
  | EnvList l => join (T ":") (concat (map flatten l))
  end.

(** An executor, as far as actions use it. *)
Record exec_info := ExecInfo { x_targets : list nid; x_sources : list nid; x_dir : text }.

(** A construction environment: its variables, [SPAWN] being the function. *)
Record aenv := AEnv {
  SHELL : option text;
  SPAWN : option nat;
  ESCAPE : text → text;
  PRINT_CMD_LINE_FUNC : option nat;
  env_get : text → option actval
}.

(** What the user's code and the other components do.  Functions, and the function
    that spawns commands, are given the current directory and the world and may
    change both; what is only displayed or generated may look at the world. *)
Class ActionWorld (W : Type) := {
  call_function : nat → list nid → list nid → text → W → W * text * res exn fun_result;
  call_spawn : nat → text → list text → gmap text envval → text → W → W * text * res exn Z;
  call_generator : nat → list nid → list nid → bool → W → res exn actval;
  call_strfunction : nat → list nid → list nid → W → res exn (option text);
  display_function : nat → list nid → list nid → res exn (option text);
  format_line : nat → text → list text;
  subst_list : actval → option exec_info → list nid → list nid → res exn (list (list word));
  subst_raw : text → option exec_info → list nid → list nid → res exn text;
  presub_lines : act → list text;
  node_text : nid → text;
  node_dir : nid → text;
  rfile : nid → nid;
  repr : text → text;
  change_dir : text → text → option text
}.

Section call.
Context {W : Type} `{ActionWorld W}.
Variable env : aenv.
(** [print_actions], [execute_actions] and [print_actions_presub] *)
Variables print_actions execute_actions print_actions_presub : bool.

(** The world, the current directory, the lines written, and the dictionary
    that [get_default_ENV(env)] gives. *)
Record astate := AState {
  world : W;
  cwd : text;
  out : list text;
  ENV : gmap text envval
}.
Abbreviation acm := (eff astate fexn).

Definition in_world {A} (f : text → W → W * text * res exn A) : acm A := λ s,
  let '(w, d, r) := f (cwd s) (world s) in
  (AState w d (out s) (ENV s),
   match r with Ok a => Ok a | Raise e => Raise (Some e) end).
Definition lift_res {A} (r : res exn A) : acm A := λ s,
  (s, match r with Ok a => Ok a | Raise e => Raise (Some e) end).
(** What only looks at the world. *)
Definition look {A} (f : W → res exn A) : acm A := λ s, lift_res (f (world s)) s.
Definition write (l : list text) : acm unit :=
  emod (λ s, AState (world s) (cwd s) (out s ++ l) (ENV s)).
Definition os_chdir (p : text) : acm unit := λ s,
  match change_dir (cwd s) p with
  | Some d => (AState (world s) d (out s) (ENV s), Ok tt)
  | None => (s, Raise (Some (ExEnvironmentError "OSError" 2 "No such file or directory" None)))
  end.
(** [try: m finally: f] *)
Definition finally {A} (m : acm A) (f : acm unit) : acm A := λ s,
  let '(s, r) := m s in
  let '(s, u) := f s in
  (s, match u with Ok _ => r | Raise e => Raise e end).

(** ** Commands *)

(** The loop of [process] on the first word. *)
Fixpoint strip_flags (s : text) (silent ignore : bool) : text * bool * bool :=
  match s with
  | "@"%char :: s => strip_flags s true ignore
  | "-"%char :: s => strip_flags s silent true
  | _ => (s, silent, ignore)
  end.
Definition process_lines (result : list (list word)) : list (list word) * bool * bool :=
  match result with
  | (w :: ws) :: lines =>
      let '(s, silent, ignore) := strip_flags (w_text w) false false in
      let w := if decide (s = w_text w) then w else Word s false in
      (match s with [] => ws :: lines | _ => (w :: ws) :: lines end, ignore, silent)
  | _ => (result, false, false)
  end.
Definition process (cmd : actval) (x : option exec_info) (target source : list nid)
    : acm (list (list word) * bool * bool) :=
  (let! result := lift_res (subst_list cmd x target source) in
   eret (process_lines result))%eff.

Definition has_blank (s : text) : bool := existsb is_blank s.
Definition _string_from_cmd_list (l : list word) : text :=
  join (T " ") (map (λ w, if has_blank (w_text w) then "034"%char :: w_text w ++ ["034"%char]
                          else w_text w) l).

(** The part of [strfunction] about [cmdstr]; [None] when it gives no text. *)
Definition cmdstr_text (b : base) (x : option exec_info) (target source : list nid)
    (otherwise : acm (option text)) : acm (option text) :=
  match a_cmdstr b with
  | Some None => eret None
  | Some (Some c) =>
      let! c := lift_res (subst_raw c x target source) in
      match c with [] => otherwise | _ => eret (Some c) end
  | None => otherwise
  end%eff.

Definition command_strfunction (b : base) (cmd : actval) (x : option exec_info)
    (target source : list nid) : acm (option text) :=
  cmdstr_text b x target source
    (let! (cmd_list, ignore, silent) := process cmd x target source in
     if silent : bool then eret (Some [])
     else match cmd_list with
          | [] => eraise (Some (ExOther "IndexError" "list index out of range"))
          | l :: _ => eret (Some (_string_from_cmd_list l))
          end)%eff.

Definition escape_word (w : word) : text :=
  cmd_escape (ESCAPE env) quote_spaces (w_text w) (w_literal w).

(** The error of a command; its command line is kept as one string. *)
Definition command_error (b : base) (result : Z) (cmd_line : list text) : build_error :=
  BuildError None ("Error " +:+ pretty result) (StatusInt result) (StatusInt 2) None None
    (Some (a_id b)) (Some (of_text (join (T " ") cmd_line))) None.

(** The loop of [CommandAction.execute]. *)
Fixpoint spawn_lines (b : base) (spawn : nat) (shell : text) (ignore : bool)
    (l : list (list text)) : acm stat :=
  match l with
  | [] => eret (SInt 0)
  | cmd_line :: l => λ s,
      (let! result := in_world (call_spawn spawn shell cmd_line (ENV s)) in
       if negb ignore && negb (result =? 0)%Z then
         eret (SErr (command_error b result cmd_line))
       else spawn_lines b spawn shell ignore l)%eff s
  end.

Definition all_targets (x : option exec_info) (target : list nid) : list nid :=
  match x with Some x => x_targets x | None => target end.
Definition all_sources (x : option exec_info) (source : list nid) : list nid :=
  match x with Some x => x_sources x | None => source end.

Definition is_line {A} (l : list A) : bool := match l with [] => false | _ => true end.

Definition command_execute (b : base) (cmd : actval) (x : option exec_info)
    (target source : list nid) : acm stat :=
  match SHELL env, SPAWN env with
  | None, _ => eraise (Some (ExUserError "Missing SHELL construction variable."))
  | _, None => eraise (Some (ExUserError "Missing SPAWN construction variable."))
  | Some shell, Some spawn =>
      emod (λ s, AState (world s) (cwd s) (out s) ((λ v, EnvStr (env_string v)) <$> ENV s)) ;;;
      let! (cmd_list, ignore, silent) :=
        process cmd x (all_targets x target) (map rfile (all_sources x source)) in
      spawn_lines b spawn shell ignore (map (map escape_word) (List.filter is_line cmd_list))
  end%eff.

(** ** Python functions *)

Definition function_strfunction (b : base) (f : nat) (x : option exec_info)
    (target source : list nid) : acm (option text) :=
  cmdstr_text b x target source (lift_res (display_function f target source)).

(** [strfunction] of an action: one given to it, or the method of its class. *)
Definition strfunction (b : base) (method : acm (option text)) (target source : list nid)
    : acm (option text) :=
  match a_strfunction b with
  | Some (Some f) => look (call_strfunction f target source)
  | _ => method
  end.

(** The [BuildError] of a result, and of an exception that was raised.  For a
    result [exc_info] is the triple of [None]s, also if it is an exception. *)
Definition with_exc_info i (b : build_error) : build_error :=
  BuildError (be_node b) (be_errstr b) (be_status b) (be_exitstatus b) (be_filename b)
    (be_executor b) (be_action b) (be_command b) i.
Definition convert_result (r : fun_result) : build_error :=
  let b := convert_to_BuildError (result_arg r) None in
  match r with
  | FExn (ExBuildError _) => b
  | _ => with_exc_info None b
  end.
Definition convert_raised (e : exn) : build_error :=
  convert_to_BuildError (ArgExn e) (Some (class_name e)).

Definition is_EnvironmentError (e : exn) : bool :=
  match e with ExEnvironmentError _ _ _ _ => true | _ => false end.

(** [result.node = target], [result.action = self], [result.command = ...] *)
Definition complete_error (b : base) (method : acm (option text)) (target source : list nid)
    (err : build_error) : acm build_error :=
  (let! command := strfunction b method target source in
   eret (BuildError (Some (ANodes target)) (be_errstr err) (be_status err) (be_exitstatus err)
           (be_filename err) (be_executor err) (Some (a_id b)) (of_text <$> command)
           (be_exc_info err)))%eff.

Definition function_execute (b : base) (f : nat) (x : option exec_info)
    (target source : list nid) : acm stat := λ s,
  let target := all_targets x target in
  let source := all_sources x source in
  let method := function_strfunction b f x target source in
  match in_world (call_function f target (map rfile source)) s with
  | (s, Ok r) =>
      if true_result r then
        (let! err := complete_error b method target source (convert_result r) in
         eret (SErr err))%eff s
      else (s, Ok (result_stat r))
  | (s, Raise (Some e)) =>
      if is_Exception e then
        (let! err := complete_error b method target source (convert_raised e) in
         if is_EnvironmentError e then eret (SErr err)
         else eraise (Some (ExBuildError err)))%eff s
      else (s, Raise (Some e))
  | (s, Raise None) => (s, Raise None)
  end.

(** ** [_ActionAction.__call__] *)

Record cargs := CArgs {
  c_exitstatfunc : option (stat → stat);
  c_presub : option bool;
  c_show : option bool;
  c_execute : option bool;
  c_chdir : option chdir_arg;
  c_executor : option exec_info
}.
Definition no_args : cargs := CArgs None None None None None None.

(** [if chdir], before and after it is made a path. *)
Definition wants_chdir (d : chdir_arg) : bool :=
  match d with NoDir | DirStr [] => false | _ => true end.
Definition chdir_path (d : chdir_arg) (x : option exec_info) (target : list nid)
    : acm (option text) :=
  if wants_chdir d then
    match d, x, target with
    | NoDir, _, _ => eret None
    | DirStr p, _, _ | DirNode p, _, _ => eret (Some p)
    | DirTrue, Some x, _ => eret (Some (x_dir x))
    | DirTrue, None, t :: _ => eret (Some (node_dir t))
    | DirTrue, None, [] => eraise (Some (ExOther "IndexError" "list index out of range"))
    end
  else eret None.
Definition enter (p : option text) : acm unit :=
  match p with Some ((_ :: _) as p) => os_chdir p | _ => eret tt end.
Definition chdir_line (p : text) : text := T "os.chdir(" ++ repr p ++ T ")".

(** [exitstatfunc] on what [execute] gave. *)
Definition apply_exitstatfunc (f : stat → stat) (st : stat) : stat :=
  match st with
  | SErr b =>
      let v := f (of_status (be_status b)) in
      if true_stat v then
        SErr (BuildError (be_node b) (be_errstr b) (to_status v) (be_exitstatus b)
                (be_filename b) (be_executor b) (be_action b) (be_command b) (be_exc_info b))
      else v
  | _ => f st
  end.

Definition presub_text (self : act) (target : list nid) : text :=
  T "Building " ++ join (T " and ") (map node_text target) ++ T " with action:" ++
  ["010"%char] ++ T "  " ++ join ("010"%char :: T "  ") (presub_lines self) ++ ["010"%char].

(** [print_func(cmd, ...)] *)
Definition print_line (cmd : text) : acm unit :=
  write (match PRINT_CMD_LINE_FUNC env with
         | Some f => format_line f cmd
         | None => [cmd ++ ["010"%char]]
         end).

Definition execute_in (path : option text) (save_cwd : option text) (exitstatfunc : stat → stat)
    (execute : acm stat) : acm stat :=
  (enter path ;;;
   finally (let! st := execute in eret (apply_exitstatfunc exitstatfunc st))
     (match save_cwd with Some d => os_chdir d | None => eret tt end))%eff.

Definition leaf_call (self : act) (b : base)
    (method : option exec_info → list nid → list nid → acm (option text))
    (execute : option exec_info → list nid → list nid → acm stat)
    (args : cargs) (target source : list nid) : acm stat := λ s,
  let x := c_executor args in
  let presub := default (default print_actions_presub (a_presub b)) (c_presub args) in
  let exitstatfunc := default (default id (a_exitstatfunc b)) (c_exitstatfunc args) in
  let show := default print_actions (c_show args) in
  let execute_it := default execute_actions (c_execute args) in
  let chdir := default (a_chdir b) (c_chdir args) in
  let save_cwd := if wants_chdir chdir then Some (cwd s) else None in
  (let! path := chdir_path chdir x target in
   let target1 := if presub then all_targets x target else target in
   let source1 := if presub then all_sources x source else source in
   (if presub then write [presub_text self target1] else eret tt) ;;;
   let target2 := if show then all_targets x target1 else target1 in
   let source2 := if show then all_sources x source1 else source1 in
   let! cmd :=
     if show then
       let! cmd := strfunction b (method x target2 source2) target2 source2 in
       match cmd with
       | Some ((_ :: _) as cmd) =>
           let cmd := match path with
                      | Some ((_ :: _) as p) => chdir_line p ++ ["010"%char] ++ cmd
                      | _ => cmd
                      end in
           print_line cmd ;;; eret true
       | _ => eret false
       end
     else eret false in
   let! st :=
     if execute_it then execute_in path save_cwd exitstatfunc (execute x target2 source2)
     else eret (SInt 0) in
   (match save_cwd with
    | Some d => if cmd : bool then print_line (chdir_line d) else eret tt
    | None => eret tt
    end) ;;;
   eret st)%eff s.

(** ** Calls of all actions *)

Definition generated (b : base) (r : res fexn (option act)) : acm act :=
  match r with
  | Ok (Some a) => eret a
  | Ok None => eraise (Some (ExUserError "cannot be used to create an Action."))
  | Raise e => eraise e
  end.

(** [ListAction.__call__]'s loop. *)
Fixpoint call_list (call : act → acm stat) (l : list act) : acm stat :=
  match l with
  | [] => eret (SInt 0)
  | a :: l =>
      let! st := call a in
      if true_stat st then eret st else call_list call l
  end%eff.

Definition lazy_command (var : text) : actval := AvStr (T "${" ++ var ++ T "}").
Definition is_command_text (v : option actval) : bool :=
  match v with Some (AvStr c) => negb (bool_decide ("010"%char ∈ c)) | _ => false end.

(** [fuel] bounds how deep lists and generated actions are nested. *)
Fixpoint call_action (fuel : nat) (a : act) (args : cargs) (target source : list nid)
    : acm stat :=
  match fuel with
  | O => eraise None
  | S fuel =>
      match a with
      | Command b cmd =>
          leaf_call a b (command_strfunction b cmd) (command_execute b cmd) args target source
      | Function b f =>
          leaf_call a b (function_strfunction b f) (function_execute b f) args target source
      | ListAction l =>
          let target := all_targets (c_executor args) target in
          let source := all_sources (c_executor args) source in
          call_list (λ a, call_action fuel a args target source) l
      | Generator b g =>
          let! v := look (call_generator g (all_targets (c_executor args) target)
                            (all_sources (c_executor args) source) false) in
          let! a := generated b (make_action v None (Keywords b false)) in
          call_action fuel a args target source
      | Lazy b var g =>
          if is_command_text (env_get env var) then
            leaf_call a b (command_strfunction b (lazy_command var))
              (command_execute b (lazy_command var)) args target source
          else
            let! a := generated b (make_action (default (AvStr []) (env_get env var)) None
                                     (Keywords b g)) in
            call_action fuel a args target source
      end
  end%eff.
End call.
Arguments astate W : clear implicits.
