(* ===== verification/ActionFacts.v ===== *)
(** * Theorems about actions

    A call comes back to the directory it started in, changes nothing when
    actions are not executed, spawns commands in order up to the first failure,
    and reports the errors of functions; actions that are put together run one
    after the other. *)

From S2P Require Import Prelude Errors PyStr Subst Action.
Open Scope nat_scope.

(** The call does not run out of fuel. *)
Definition ends {S A} (m : eff S fexn A) : Prop := ∀ s s', m s ≠ (s', Raise None).

Lemma ends_ret {S A} (a : A) : ends (eret (S:=S) a).
Proof. by intros s s' [=]. Qed.
Lemma ends_raise {S A} e : ends (eraise (S:=S) (A:=A) (Some e)).
Proof. by intros s s' [=]. Qed.
Lemma ends_mod {S} (f : S → S) : ends (emod f).
Proof. by intros s s' [=]. Qed.
Lemma ends_bind {S A B} (m : eff S fexn A) (k : A → eff S fexn B) :
  ends m → (∀ a, ends (k a)) → ends (ebind m k).
Proof.
  intros Hm Hk s s' E. unfold ebind in E. destruct (m s) as [s1 [a|e]] eqn:Em; [by eapply Hk|].
  injection E as -> ->. by eapply Hm.
Qed.
Lemma ends_if {S A} (c : bool) (m n : eff S fexn A) : ends m → ends n → ends (if c then m else n).
Proof. by destruct c. Qed.
Lemma ends_emap {S A B} (f : A → eff S fexn B) (l : list A) :
  (∀ a, ends (f a)) → ends (emap f l).
Proof.
  intros Hf. induction l as [|a l IH]; [apply ends_ret|].
  apply ends_bind; [apply Hf|]. intros b. apply ends_bind; [exact IH|]. intros bs. apply ends_ret.
Qed.
#[export] Hint Resolve ends_ret ends_raise ends_mod ends_bind ends_if ends_emap : eff.

(** Making an action ends. *)
Lemma ends_new_command cmd : ends (new_command cmd).
Proof. intros kw kw'. unfold new_command. destruct cmd; try done. by destruct (existsb is_list l). Qed.
Lemma ends_create_line s : ends (create_line s).
Proof.
  intros kw kw'. unfold create_line. destruct (get_environment_var s); [done|apply ends_new_command].
Qed.
Lemma ends_create_text s : ends (create_text s).
Proof.
  unfold create_text. destruct (get_environment_var s); [apply ends_create_line|].
  assert (Hl : ∀ l, ends (let! l := emap create_line l in eret (Some (as_list_action l)))%eff).
  { intros l. apply ends_bind; [|intros; apply ends_ret]. apply ends_emap, ends_create_line. }
  destruct (split _ s) as [|? [|? ?]]; [apply Hl|apply ends_new_command|apply Hl].
Qed.
Lemma ends_create v : ends (_do_create_action v).
Proof.
  destruct v; cbn; [apply ends_ret|apply ends_new_command| |apply ends_create_text|apply ends_ret].
  intros kw kw'. unfold create_callable. by destruct (kw_generator kw).
Qed.
Lemma keywords_ends arg kw : _do_create_keywords arg kw ≠ Raise None.
Proof.
  unfold _do_create_keywords, rbind. destruct arg as [[]|]; cbn [kw_base]; [..|];
    try (by destruct (_ && _)); done.
Qed.
Lemma make_action_ends v arg kw : make_action v arg kw ≠ Raise None.
Proof.
  unfold make_action, rbind. pose proof (keywords_ends arg kw) as Hn.
  destruct (_do_create_keywords arg kw) as [k|e]; [|by intros [= ->]].
  assert (Hv : ∀ {A} (m : akm A), ends m → (m k).2 ≠ Raise None).
  { intros A m Hm E. destruct (m k) as [k' r] eqn:Em. cbn in E. subst r. by eapply Hm. }
  destruct v; apply Hv; try apply ends_create.
  apply ends_bind; [apply ends_emap, ends_create|]. intros acts. apply ends_bind; [by intros s s' [=]|].
  intros g. apply ends_ret.
Qed.

Section facts.
Context {W : Type} `{ActionWorld W}.
Variable env : aenv.
Variables print_actions execute_actions print_actions_presub : bool.

Abbreviation acm := (eff (astate W) fexn).
Abbreviation call := (call_action env print_actions execute_actions print_actions_presub).
Abbreviation leaf := (leaf_call env print_actions execute_actions print_actions_presub).

(** ** What a step keeps *)

Definition here (d : text) (s : astate W) : Prop := cwd s = d.
Definition untouched (s0 s : astate W) : Prop :=
  world s = world s0 ∧ cwd s = cwd s0 ∧ ENV s = ENV s0.

Lemma keeps_in_world {A} (d : text) (f : text → W → W * text * res exn A) :
  (∀ w, (f d w).1.2 = d) → keeps (here d) (in_world f).
Proof.
  intros Hf s Hs. unfold in_world. rewrite Hs. specialize (Hf (world s)).
  by destruct (f d (world s)) as [[w c] r].
Qed.
Lemma keeps_lift_res {A} (P : astate W → Prop) (r : res exn A) : keeps P (lift_res r).
Proof. intros s Hs. exact Hs. Qed.
Lemma keeps_look {A} (P : astate W → Prop) (f : W → res exn A) : keeps P (look f).
Proof. intros s Hs. exact Hs. Qed.
Lemma here_write (d : text) (l : list text) : keeps (here d) (write l).
Proof. intros s Hs. exact Hs. Qed.
Lemma untouched_write (s0 : astate W) (l : list text) : keeps (untouched s0) (write l).
Proof. intros s Hs. exact Hs. Qed.
Hint Resolve keeps_lift_res here_write untouched_write : eff.

Lemma keeps_if {A} (P : astate W → Prop) (c : bool) (m n : acm A) :
  keeps P m → keeps P n → keeps P (if c then m else n).
Proof. by destruct c. Qed.
Lemma keeps_save (P : astate W → Prop) (c : bool) (d : text) (m : text → acm unit) :
  (∀ d, keeps P (m d)) →
  keeps P (match (if c then Some d else None) with Some d => m d | None => eret tt end).
Proof. intros Hm. destruct c; [apply Hm|apply keeps_ret]. Qed.

Lemma keeps_call_list (P : astate W → Prop) (f : act → acm stat) (l : list act) :
  (∀ a, keeps P (f a)) → keeps P (call_list f l).
Proof.
  intros Hf. induction l as [|a l IH]; cbn [call_list]; [apply keeps_ret|].
  apply keeps_bind; [apply Hf|]. intros st. destruct (true_stat st); [apply keeps_ret|exact IH].
Qed.

Lemma keeps_finally {A} (P Q : astate W → Prop) (m : acm A) (f : acm unit) :
  keeps P m → (∀ s, P s → Q (f s).1) → ∀ s, P s → Q (finally m f s).1.
Proof.
  intros Hm Hf s Hs. unfold finally. specialize (Hm s Hs). destruct (m s) as [s1 r]. cbn in Hm.
  specialize (Hf s1 Hm). by destruct (f s1).
Qed.

(** What only displays keeps everything of interest. *)
Section displays.
Context (P : astate W → Prop) (HP : ∀ l, keeps P (write l)).
Hint Resolve HP : eff.

Lemma keeps_cmdstr_text b x target source (m : acm (option text)) :
  keeps P m → keeps P (cmdstr_text b x target source m).
Proof.
  intros Hm. unfold cmdstr_text. destruct (a_cmdstr b) as [[c|]|]; [|apply keeps_ret|exact Hm].
  apply keeps_bind; [apply keeps_lift_res|]. intros [|? ?]; [exact Hm|apply keeps_ret].
Qed.
Lemma keeps_process cmd x target source : keeps P (process cmd x target source).
Proof. apply keeps_bind; [apply keeps_lift_res|]. intros r. apply keeps_ret. Qed.
Lemma keeps_command_strfunction b cmd x target source :
  keeps P (command_strfunction b cmd x target source).
Proof.
  apply keeps_cmdstr_text, keeps_bind; [apply keeps_process|]. intros [[l i] silent].
  destruct silent; [apply keeps_ret|]. destruct l; [apply keeps_raise|apply keeps_ret].
Qed.
Lemma keeps_function_strfunction b f x target source :
  keeps P (function_strfunction b f x target source).
Proof. apply keeps_cmdstr_text, keeps_lift_res. Qed.
Lemma keeps_strfunction b (m : acm (option text)) target source :
  keeps P m → keeps P (strfunction b m target source).
Proof. intros Hm. unfold strfunction. destruct (a_strfunction b) as [[f|]|]; [apply keeps_look|exact Hm|exact Hm]. Qed.
Lemma keeps_print_line cmd : keeps P (print_line env cmd).
Proof. apply HP. Qed.
Lemma keeps_chdir_path d x target : keeps P (chdir_path d x target).
Proof.
  unfold chdir_path. destruct (wants_chdir d); [|apply keeps_ret].
  destruct d, x, target; apply keeps_ret || apply keeps_raise.
Qed.

(** A leaf keeps what displaying keeps and its execution keeps. *)
Lemma keeps_leaf self b method execute args target source :
  (∀ x t u, keeps P (method x t u)) →
  (∀ s, P s →
   let chdir := default (a_chdir b) (c_chdir args) in
   let save := if wants_chdir chdir then Some (cwd s) else None in
   ∀ path t u, (wants_chdir chdir = false → path = None) →
   keeps P (if default execute_actions (c_execute args)
            then execute_in path save
                   (default (default id (a_exitstatfunc b)) (c_exitstatfunc args))
                   (execute (c_executor args) t u)
            else eret (SInt 0))) →
  keeps P (leaf self b method execute args target source).
Proof.
  intros Hm He s Hs. unfold leaf_call. specialize (He s Hs). cbv zeta in He.
  set (chdir := default (a_chdir b) (c_chdir args)) in *.
  unfold ebind at 1. pose proof (keeps_chdir_path chdir (c_executor args) target s Hs) as H1.
  destruct (chdir_path chdir (c_executor args) target s) as [s1 [path|e]] eqn:Ep; cbn in H1; [|exact H1].
  assert (Hpath : wants_chdir chdir = false → path = None).
  { intros Hw. unfold chdir_path in Ep. rewrite Hw in Ep. by injection Ep. }
  clear Ep. revert s1 H1.
  apply keeps_bind; [apply keeps_if; [apply HP|apply keeps_ret]|]. intros [].
  apply keeps_bind.
  { apply keeps_if; [|apply keeps_ret]. apply keeps_bind; [by apply keeps_strfunction|].
    intros [[|c cmd]|]; try apply keeps_ret.
    apply keeps_bind; [apply keeps_print_line|]. intros []. apply keeps_ret. }
  intros cmd. apply keeps_bind; [by apply He|]. intros st.
  apply keeps_bind; [|intros []; apply keeps_ret].
  apply keeps_save. intros d. apply keeps_if; [apply keeps_print_line|apply keeps_ret].
Qed.
End displays.
(** ** The current directory *)

(** A function, and the one that spawns commands, that leave the current directory
    as it is. *)
Definition function_stays (f : nat) : Prop :=
  ∀ t u d w, (call_function f t u d w).1.2 = d.
Definition spawn_stays : Prop :=
  ∀ spawn shell l e d w, SPAWN env = Some spawn → (call_spawn spawn shell l e d w).1.2 = d.

(** Every leaf that the call may come to has the option [chdir], which makes it go
    back, or leaves the directory as it is. *)
Definition goes_back (b : base) (args : cargs) : Prop :=
  wants_chdir (default (a_chdir b) (c_chdir args)) = true.
Fixpoint homing (n : nat) (a : act) (args : cargs) : Prop :=
  match n with
  | O => True
  | S n =>
      match a with
      | Command b _ => goes_back b args ∨ spawn_stays
      | Function b f => goes_back b args ∨ function_stays f
      | ListAction l => ∀ a', a' ∈ l → homing n a' args
      | Generator b g =>
          ∀ t u w v a', call_generator (W:=W) g t u false w = Ok v →
            make_action v None (Keywords b false) = Ok (Some a') → homing n a' args
      | Lazy b var g =>
          if is_command_text (env_get env var) then goes_back b args ∨ spawn_stays
          else ∀ a', make_action (default (AvStr []) (env_get env var)) None (Keywords b g)
                       = Ok (Some a') → homing n a' args
      end
  end.

Section directory.
Context (d : text) (back : ∀ c, change_dir (W:=W) c d = Some d).

Lemma here_spawn_lines b spawn shell ignore l : spawn_stays → SPAWN env = Some spawn →
  keeps (here d) (spawn_lines b spawn shell ignore l : acm stat).
Proof.
  intros Hst Hsp.
  induction l as [|line l IH]; [apply keeps_ret|]. intros s Hs. cbn [spawn_lines]. revert s Hs.
  intros s Hs. apply (keeps_bind (here d)); [apply keeps_in_world; intros w; by apply Hst| |exact Hs].
  intros r. apply keeps_if; [apply keeps_ret|exact IH].
Qed.
Lemma here_command_execute b cmd x target source : spawn_stays →
  keeps (here d) (command_execute env b cmd x target source : acm stat).
Proof.
  intros Hst. unfold command_execute. destruct (SHELL env), (SPAWN env) eqn:Esp; try apply keeps_raise.
  apply keeps_bind; [apply keeps_mod; intros s Hs; exact Hs|]. intros [].
  apply keeps_bind; [apply keeps_process|]. intros [[l ignore] silent]. by apply here_spawn_lines.
Qed.

Lemma keeps_complete_error (P : astate W → Prop) b m target source err :
  keeps P m → keeps P (complete_error b m target source err).
Proof. intros Hm. apply keeps_bind; [by apply keeps_strfunction|]. intros c. apply keeps_ret. Qed.

Lemma here_function_execute b f x target source : function_stays f →
  keeps (here d) (function_execute b f x target source : acm stat).
Proof.
  intros Hst s Hs. unfold function_execute.
  set (t := all_targets x target). set (u := all_sources x source).
  pose proof (keeps_in_world d (call_function f t (map rfile u)) (Hst _ _ _) s Hs) as H1.
  destruct (in_world _ s) as [s1 [r|[e|]]]; cbn in H1; [| |exact H1].
  - destruct (true_result r); [|exact H1].
    apply (keeps_bind (here d)); [|intros err; apply keeps_ret|exact H1].
    apply keeps_complete_error, keeps_function_strfunction.
  - destruct (is_Exception e); [|exact H1].
    apply (keeps_bind (here d)); [|intros err|exact H1].
    + apply keeps_complete_error, keeps_function_strfunction.
    + apply keeps_if; [apply keeps_ret|apply keeps_raise].
Qed.

Lemma here_os_chdir (s : astate W) : here d (os_chdir d s).1.
Proof. unfold os_chdir. by rewrite back. Qed.

Lemma here_execute_in path (wants : bool) f (m : acm stat) :
  (wants = false → path = None) → wants = true ∨ keeps (here d) m →
  keeps (here d) (execute_in path (if wants then Some d else None) f m).
Proof.
  intros Hp Hm s Hs. unfold execute_in, ebind at 1.
  assert (∃ s1 u, enter path s = (s1, u) ∧ (wants = false → here d s1) ∧
    (∀ e, u = Raise e → here d s1)) as (s1 & u & -> & Hw & Hr).
  { destruct wants.
    - destruct path as [[|c p]|]; cbn; unfold os_chdir; [|destruct (change_dir (cwd s) (c :: p))|];
        (eexists _, _; split; [reflexivity|]; split; [done|]; intros e He; exact Hs || done).
    - rewrite (Hp eq_refl). eexists _, _. split; [reflexivity|]. done. }
  destruct u as [[]|e]; [|exact (Hr e eq_refl)].
  destruct wants.
  - apply (keeps_finally (λ _, True) (here d)); [done| |done].
    intros s2 _. apply here_os_chdir.
  - destruct Hm as [?|Hm]; [done|]. apply (keeps_finally (here d) (here d)); [|done|by apply Hw].
    apply keeps_bind; [apply Hm|]. intros st. apply keeps_ret.
Qed.
End directory.

Lemma keeps_leaf_here (d : text) self b method execute args target source :
  (∀ c, change_dir (W:=W) c d = Some d) →
  (∀ x t u, keeps (here d) (method x t u)) →
  goes_back b args ∨ (∀ x t u, keeps (here d) (execute x t u)) →
  keeps (here d) (leaf self b method execute args target source).
Proof.
  intros back Hm He. apply keeps_leaf; [apply here_write|done|].
  intros s Hs chdir save path t u Hp. apply keeps_if; [|apply keeps_ret].
  unfold save. rewrite Hs. apply here_execute_in; [done..|]. destruct He as [He|He]; [by left|by right].
Qed.

Lemma call_list_here (d : text) (f : act → acm stat) (l : list act) :
  (∀ a, a ∈ l → keeps (here d) (f a)) → keeps (here d) (call_list f l).
Proof.
  induction l as [|a l IH]; intros Hf; cbn [call_list]; [apply keeps_ret|].
  apply keeps_bind; [apply Hf; by left|]. intros st.
  apply keeps_if; [apply keeps_ret|]. apply IH. intros a' Ha. apply Hf. by right.
Qed.

Lemma generated_here (d : text) b r (k : act → acm stat) :
  (∀ a, r = Ok (Some a) → keeps (here d) (k a)) →
  keeps (here d) (let! a := generated b r in k a)%eff.
Proof. intros Hk s Hs. unfold generated. destruct r as [[a|]|e]; [by apply Hk|exact Hs..]. Qed.

Lemma call_here (d : text) (fuel : nat) a args target source :
  (∀ c, change_dir (W:=W) c d = Some d) → homing fuel a args →
  keeps (here d) (call fuel a args target source).
Proof.
  intros back. revert a target source. induction fuel as [|fuel IH]; intros a target source Ha;
    [apply keeps_raise|].
  assert (∀ b cmd, goes_back b args ∨ spawn_stays → keeps (here d) (leaf a b
    (command_strfunction b cmd) (command_execute env b cmd) args target source)) as Hcmd.
  { intros b cmd Hb. apply keeps_leaf_here; [done|intros; apply keeps_command_strfunction|].
    destruct Hb as [?|?]; [by left|right]. intros x t u. by apply here_command_execute. }
  cbn [call_action]. destruct a as [b cmd|b f|l|b g|b var g]; cbn [homing] in Ha.
  - by apply Hcmd.
  - apply keeps_leaf_here; [done|intros; apply keeps_function_strfunction|].
    destruct Ha as [?|?]; [by left|right]. intros x t u. by apply here_function_execute.
  - apply call_list_here. intros a Hin. apply IH. auto.
  - intros s. unfold ebind at 1, look, lift_res.
    destruct (call_generator _ _ _ _ _) as [v|e] eqn:E; [|done].
    apply generated_here. intros a Ea. apply IH. eauto.
  - destruct (is_command_text _); [by apply Hcmd|].
    apply generated_here. intros a Ea. apply IH. auto.
Qed.
(** ** Without execution *)

(** Whatever the call returns is zero. *)
Definition gives_zero (m : acm stat) : Prop := ∀ s s' st, m s = (s', Ok st) → st = SInt 0.

Lemma zero_ret : gives_zero (eret (SInt 0)).
Proof. by intros s s' st [= _ <-]. Qed.
Lemma zero_bind {A} (m : acm A) (k : A → acm stat) :
  (∀ a, gives_zero (k a)) → gives_zero (ebind m k).
Proof.
  intros Hk s s' st. unfold ebind. destruct (m s) as [s1 [a|e]]; [apply Hk|done].
Qed.
Lemma zero_raise e : gives_zero (eraise e).
Proof. by intros s s' st [=]. Qed.
Lemma zero_call_list (f : act → acm stat) (l : list act) :
  (∀ a, gives_zero (f a)) → gives_zero (call_list f l).
Proof.
  intros Hf. induction l as [|a l IH]; [exact zero_ret|]. cbn [call_list].
  intros s s' st. unfold ebind. destruct (f a s) as [s1 [r|e]] eqn:E; [|done].
  rewrite (Hf a _ _ _ E). apply IH.
Qed.

Section no_execution.
Context (args : cargs) (dry : default execute_actions (c_execute args) = false).

Lemma zero_leaf self b method execute target source :
  gives_zero (leaf self b method execute args target source).
Proof.
  intros s s' st. unfold leaf_call. rewrite dry. cbv zeta. revert s s' st.
  intros s. set (save := if wants_chdir _ then _ else _). clearbody save. revert s.
  apply zero_bind. intros path. apply zero_bind. intros []. apply zero_bind. intros cmd.
  intros s s' st. cbv beta. unfold ebind at 1, eret at 1. revert s s' st.
  apply zero_bind. intros []. apply zero_ret.
Qed.

Lemma untouched_leaf (s0 : astate W) self b method execute target source :
  (∀ x t u, keeps (untouched s0) (method x t u)) →
  keeps (untouched s0) (leaf self b method execute args target source).
Proof.
  intros Hm. apply keeps_leaf; [apply untouched_write|done|]. intros. rewrite dry. apply keeps_ret.
Qed.

Lemma keeps_generated (P : astate W → Prop) b r : keeps P (generated b r : acm act).
Proof. destruct r as [[a|]|e]; apply keeps_ret || apply keeps_raise. Qed.

Lemma call_dry (s0 : astate W) (fuel : nat) a target source :
  keeps (untouched s0) (call fuel a args target source) ∧
  gives_zero (call fuel a args target source).
Proof.
  revert a target source. induction fuel as [|fuel IH]; intros a target source;
    [split; [apply keeps_raise|apply zero_raise]|].
  cbn [call_action]. destruct a as [b cmd|b f|l|b g|b var g].
  - split; [apply untouched_leaf; intros; apply keeps_command_strfunction|apply zero_leaf].
  - split; [apply untouched_leaf; intros; apply keeps_function_strfunction|apply zero_leaf].
  - split; [apply keeps_call_list|apply zero_call_list]; intros a; apply IH.
  - split.
    + apply keeps_bind; [apply keeps_look|]. intros v.
      apply keeps_bind; [apply keeps_generated|intros; apply IH].
    + apply zero_bind. intros v. apply zero_bind. intros a. apply IH.
  - destruct (is_command_text _).
    + split; [apply untouched_leaf; intros; apply keeps_command_strfunction|apply zero_leaf].
    + split; [apply keeps_bind; [apply keeps_generated|intros; apply IH]|].
      apply zero_bind. intros a. apply IH.
Qed.
End no_execution.

(** ** Spawned commands *)

(** The commands [l], spawned one after the other, with their results. *)
Fixpoint spawned (spawn : nat) (shell : text) (l : list (list text)) (s : astate W)
    (rs : list Z) (s' : astate W) : Prop :=
  match l, rs with
  | [], [] => s' = s
  | line :: l, r :: rs =>
      ∃ s1, in_world (call_spawn spawn shell line (ENV s)) s = (s1, Ok r) ∧
        spawned spawn shell l s1 rs s'
  | _, _ => False
  end.

Definition spawns_well (b : base) (spawn : nat) (shell : text) (ignore : bool)
    (l : list (list text)) (s s' : astate W) (st : stat) : Prop :=
  (∃ rs, spawned spawn shell l s rs s' ∧ (ignore = true ∨ Forall (λ r, r = 0%Z) rs) ∧ st = SInt 0) ∨
  (ignore = false ∧ ∃ l1 line l2 rs r, l = l1 ++ line :: l2 ∧
     spawned spawn shell (l1 ++ [line]) s (rs ++ [r]) s' ∧
     Forall (λ r, r = 0%Z) rs ∧ r ≠ 0%Z ∧ st = SErr (command_error b r line)).

Lemma spawn_lines_spec b spawn shell ignore l s s' st :
  spawn_lines b spawn shell ignore l s = (s', Ok st) →
  spawns_well b spawn shell ignore l s s' st.
Proof.
  revert s. induction l as [|line l IH]; intros s; cbn [spawn_lines].
  { intros [= <- <-]. left. exists []. split_and!; [done|by right|done]. }
  unfold ebind. destruct (in_world _ s) as [s1 [r|e]] eqn:E; [|done].
  destruct (negb ignore && negb (r =? 0)%Z) eqn:Eb.
  - intros [= <- <-]. right. apply andb_true_iff in Eb as [Ei Er].
    split; [by destruct ignore|]. exists [], line, l, [], r. split_and!; [done| |done| |done].
    + exists s1. by split.
    + intros ->. done.
  - intros Hl. destruct (IH _ Hl) as [(rs & Hs & Hz & ->)|(-> & l1 & line' & l2 & rs & r' & -> & Hs & Hz & Hr & ->)].
    + left. exists (r :: rs). split_and!; [by exists s1| |done].
      destruct ignore; [by left|]. right. destruct Hz as [?|Hz]; [done|].
      constructor; [|done]. cbn in Eb. apply negb_false_iff in Eb. by apply Z.eqb_eq.
    + right. split; [done|]. exists (line :: l1), line', l2, (r :: rs), r'.
      split_and!; [done|by exists s1| |done|done].
      constructor; [|done]. cbn in Eb. apply negb_false_iff in Eb. by apply Z.eqb_eq.
Qed.

(** ** Lists *)

Lemma call_list_app (f : act → acm stat) (l1 l2 : list act) (s : astate W) :
  call_list f (l1 ++ l2) s =
  (let! st := call_list f l1 in if true_stat st then eret st else call_list f l2)%eff s.
Proof.
  revert s. induction l1 as [|a l1 IH]; intros s; [done|].
  cbn [call_list app]. unfold ebind. destruct (f a s) as [s1 [st|e]]; [|done].
  destruct (true_stat st) eqn:E; [unfold eret; by rewrite E|]. rewrite IH. done.
Qed.
(** ** A call that executes its action *)

Lemma bind_ok {A B} (m : acm A) (k : A → acm B) s s' b :
  ebind m k s = (s', Ok b) → ∃ s1 a, m s = (s1, Ok a) ∧ k a s1 = (s', Ok b).
Proof. unfold ebind. destruct (m s) as [s1 [a|e]]; [by exists s1, a|done]. Qed.

(** The same world, seen from perhaps another directory. *)
Definition same_world (s0 s : astate W) : Prop := world s = world s0 ∧ ENV s = ENV s0.

Lemma keeps_ok {A} (P : astate W → Prop) (m : acm A) s s' a :
  keeps P m → P s → m s = (s', Ok a) → P s'.
Proof. intros Hm Hs E. specialize (Hm s Hs). by rewrite E in Hm. Qed.

Lemma same_write (s0 : astate W) (l : list text) : keeps (same_world s0) (write l).
Proof. intros s Hs. exact Hs. Qed.
Lemma same_enter (s0 : astate W) (p : option text) : keeps (same_world s0) (enter p).
Proof.
  destruct p as [[|c p]|]; [apply keeps_ret| |apply keeps_ret].
  intros s Hs. cbn. unfold os_chdir. by destruct (change_dir _ _).
Qed.

Lemma all_targets_idem x (t : list nid) (c : bool) :
  all_targets x (if c then all_targets x t else t) = all_targets x t.
Proof. by destruct x, c. Qed.
Lemma all_sources_idem x (t : list nid) (c : bool) :
  all_sources x (if c then all_sources x t else t) = all_sources x t.
Proof. by destruct x, c. Qed.

Lemma execute_in_ok path save f (m : acm stat) s s' st :
  execute_in path save f m s = (s', Ok st) →
  ∃ s1 s2 st0, same_world s s1 ∧ m s1 = (s2, Ok st0) ∧ st = apply_exitstatfunc f st0 ∧
    world s' = world s2.
Proof.
  intros E. apply bind_ok in E as (s1 & [] & E1 & E). unfold finally in E.
  destruct ((let! st := m in eret (apply_exitstatfunc f st))%eff s1) as [s2 r] eqn:E2.
  destruct (match save with Some d => os_chdir d | None => eret tt end s2) as [s3 u] eqn:E3.
  destruct u as [[]|e]; [|done]. injection E as <- ->.
  apply bind_ok in E2 as (s2' & st0 & Em & [= <- <-]).
  exists s1, s2', st0. split_and!; [|done|done|].
  - by eapply (keeps_ok _ _ _ _ _ (same_enter s path)).
  - destruct save as [d|]; [|by injection E3 as <-]. unfold os_chdir in E3.
    by destruct (change_dir _ _); injection E3 as <-.
Qed.

(** What is executed, and what becomes of its status. *)
Lemma leaf_executes self b method execute args target source s s' st :
  default execute_actions (c_execute args) = true →
  (∀ s0 x t u, keeps (same_world s0) (method x t u)) →
  leaf self b method execute args target source s = (s', Ok st) →
  let x := c_executor args in
  ∃ s1 s2 st0 t u, same_world s s1 ∧ all_targets x t = all_targets x target ∧
    all_sources x u = all_sources x source ∧ execute x t u s1 = (s2, Ok st0) ∧
    st = apply_exitstatfunc (default (default id (a_exitstatfunc b)) (c_exitstatfunc args)) st0 ∧
    world s' = world s2.
Proof.
  intros Hex Hm E x. unfold leaf_call in E. cbv zeta in E. rewrite Hex in E. fold x in E.
  set (save := if wants_chdir _ then _ else _) in E.
  apply bind_ok in E as (s1 & path & E1 & E).
  apply bind_ok in E as (s2 & [] & E2 & E).
  apply bind_ok in E as (s3 & cmd & E3 & E).
  apply bind_ok in E as (s4 & st4 & E4 & E).
  apply bind_ok in E as (s5 & [] & E5 & E). injection E as <- ->.
  assert (H1 : same_world s s1) by (by eapply keeps_ok; [apply keeps_chdir_path| |exact E1]).
  assert (H2 : same_world s s2).
  { eapply keeps_ok; [|exact H1|exact E2]. apply keeps_if; [apply same_write|apply keeps_ret]. }
  assert (H3 : same_world s s3).
  { eapply keeps_ok; [|exact H2|exact E3]. apply keeps_if; [|apply keeps_ret].
    apply keeps_bind; [by apply keeps_strfunction|]. intros [[|c l]|]; try apply keeps_ret.
    apply keeps_bind; [apply same_write|]. intros []. apply keeps_ret. }
  apply execute_in_ok in E4 as (s6 & s7 & st0 & H6 & E6 & -> & Hw).
  eexists s6, s7, st0, _, _. split_and!; [|..|exact E6|done|].
  - destruct H3, H6. split; congruence.
  - destruct x; [by repeat case_match|]. cbn. by repeat case_match.
  - destruct x; [by repeat case_match|]. cbn. by repeat case_match.
  - rewrite <- Hw. assert (Hs : same_world s4 s5); [|apply Hs].
    refine (keeps_ok (same_world s4) _ _ _ _ _ (conj eq_refl eq_refl) E5).
    destruct save; [|apply keeps_ret].
    apply keeps_if; [apply same_write|apply keeps_ret].
Qed.
(** ** The end of calls *)

(** [n] levels of lists and generated actions are enough for the call. *)
Fixpoint calm (n : nat) (a : act) : Prop :=
  match n with
  | O => False
  | S n =>
      match a with
      | Command _ _ | Function _ _ => True
      | ListAction l => ∀ a', a' ∈ l → calm n a'
      | Generator b g =>
          ∀ t u w v a', call_generator (W:=W) g t u false w = Ok v →
            make_action v None (Keywords b false) = Ok (Some a') → calm n a'
      | Lazy b var g =>
          is_command_text (env_get env var) = true ∨
          ∀ a', make_action (default (AvStr []) (env_get env var)) None (Keywords b g)
                  = Ok (Some a') → calm n a'
      end
  end.

Lemma ends_lift_res {A} (r : res exn A) : ends (lift_res r : acm A).
Proof. intros s s'. unfold lift_res. by destruct r. Qed.
Lemma ends_look {A} (f : W → res exn A) : ends (look f : acm A).
Proof. intros s. apply ends_lift_res. Qed.
Lemma ends_in_world {A} (f : text → W → W * text * res exn A) : ends (in_world f : acm A).
Proof. intros s s'. unfold in_world. by destruct (f (cwd s) (world s)) as [[w c] []]. Qed.
Lemma ends_os_chdir p : ends (os_chdir p : acm unit).
Proof. intros s s'. unfold os_chdir. by destruct (change_dir _ _). Qed.
Lemma ends_finally {A} (m : acm A) (f : acm unit) : ends m → ends f → ends (finally m f).
Proof.
  intros Hm Hf s s' E. unfold finally in E. destruct (m s) as [s1 r] eqn:Em.
  destruct (f s1) as [s2 u] eqn:Ef. destruct u as [[]|e]; injection E as -> ->.
  - by eapply Hm.
  - by eapply Hf.
Qed.
Hint Resolve ends_lift_res ends_look ends_look ends_in_world
  ends_os_chdir ends_finally : eff.

Lemma ends_cmdstr_text b x target source (m : acm (option text)) :
  ends m → ends (cmdstr_text b x target source m : acm _).
Proof.
  intros Hm. unfold cmdstr_text. destruct (a_cmdstr b) as [[c|]|]; [|apply ends_ret|done].
  apply ends_bind; [apply ends_lift_res|]. intros [|? ?]; [done|apply ends_ret].
Qed.
Lemma ends_process cmd x target source : ends (process cmd x target source : acm _).
Proof. unfold process. eauto with eff. Qed.
Lemma ends_command_strfunction b cmd x target source :
  ends (command_strfunction b cmd x target source : acm _).
Proof.
  apply ends_cmdstr_text, ends_bind; [apply ends_process|]. intros [[[|l ls] i] []]; eauto with eff.
Qed.
Lemma ends_function_strfunction b f x target source :
  ends (function_strfunction b f x target source : acm _).
Proof. apply ends_cmdstr_text, ends_lift_res. Qed.
Lemma ends_strfunction b (m : acm (option text)) target source :
  ends m → ends (strfunction b m target source).
Proof. intros Hm. unfold strfunction. destruct (a_strfunction b) as [[f|]|]; eauto with eff. Qed.

Lemma ends_spawn_lines b spawn shell ignore l : ends (spawn_lines b spawn shell ignore l : acm _).
Proof.
  induction l as [|line l IH]; [apply ends_ret|]. intros s. cbn [spawn_lines]. revert s.
  intros s. apply ends_bind; [apply ends_in_world|]. intros r. by apply ends_if; [apply ends_ret|].
Qed.
Lemma ends_command_execute b cmd x target source :
  ends (command_execute env b cmd x target source : acm _).
Proof.
  unfold command_execute. destruct (SHELL env), (SPAWN env); try apply ends_raise.
  apply ends_bind; [apply ends_mod|]. intros []. apply ends_bind; [apply ends_process|].
  intros [[l ignore] silent]. apply ends_spawn_lines.
Qed.
Lemma ends_complete_error b (m : acm (option text)) target source err :
  ends m → ends (complete_error b m target source err).
Proof. intros Hm. apply ends_bind; [by apply ends_strfunction|]. intros c. apply ends_ret. Qed.
Lemma ends_function_execute b f x target source :
  ends (function_execute b f x target source : acm _).
Proof.
  intros s s'. unfold function_execute. unfold in_world.
  destruct (call_function _ _ _ _ _) as [[w c] [r|e]].
  - destruct (true_result r); [|done]. apply ends_bind; [|eauto with eff].
    apply ends_complete_error, ends_function_strfunction.
  - destruct (is_Exception e); [|done]. apply ends_bind; [|intros err; eauto with eff].
    apply ends_complete_error, ends_function_strfunction.
Qed.

Lemma ends_leaf self b method execute args target source :
  (∀ x t u, ends (method x t u)) → (∀ x t u, ends (execute x t u)) →
  ends (leaf self b method execute args target source).
Proof.
  intros Hm He s. unfold leaf_call. cbv zeta. set (save := if wants_chdir _ then _ else _).
  clearbody save. revert s. apply ends_bind.
  { unfold chdir_path. destruct (wants_chdir _); [|apply ends_ret].
    destruct (default _ (c_chdir args)), (c_executor args), target; eauto with eff. }
  intros path. apply ends_bind; [apply ends_if; [apply ends_mod|apply ends_ret]|]. intros [].
  apply ends_bind.
  { apply ends_if; [|apply ends_ret]. apply ends_bind; [by apply ends_strfunction|].
    intros [[|c l]|]; try apply ends_ret. apply ends_bind; [apply ends_mod|eauto with eff]. }
  intros cmd. apply ends_bind.
  { apply ends_if; [|apply ends_ret]. apply ends_bind.
    - destruct path as [[|c p]|]; cbn; eauto with eff.
    - intros []. apply ends_finally; [eauto with eff|]. destruct save; eauto with eff. }
  intros st. apply ends_bind; [|eauto with eff].
  destruct save; [|apply ends_ret]. apply ends_if; [apply ends_mod|apply ends_ret].
Qed.
Lemma ends_call_list (f : act → acm stat) (l : list act) :
  (∀ a, a ∈ l → ends (f a)) → ends (call_list f l).
Proof.
  intros Hf. induction l as [|a l IH]; cbn [call_list]; [apply ends_ret|].
  apply ends_bind; [apply Hf; by left|]. intros st.
  apply ends_if; [apply ends_ret|]. apply IH. intros a' Ha. apply Hf. by right.
Qed.

Lemma ends_generated b (v : actval) kw (k : act → acm stat) :
  (∀ a, make_action v None kw = Ok (Some a) → ends (k a)) →
  ends (let! a := generated b (make_action v None kw) in k a)%eff.
Proof.
  intros Hk. pose proof (make_action_ends v None kw) as Hn. unfold generated.
  destruct (make_action v None kw) as [[a|]|[e|]]; [|by intros s s'..|done].
  intros s s'. by apply Hk.
Qed.

Lemma calm_ends (n : nat) a args target source : calm n a → ends (call n a args target source).
Proof.
  revert a target source. induction n as [|n IH]; intros a target source Ha; [done|].
  cbn [call_action]. destruct a as [b cmd|b f|l|b g|b var g]; cbn in Ha.
  - apply ends_leaf; intros; [apply ends_command_strfunction|apply ends_command_execute].
  - apply ends_leaf; intros; [apply ends_function_strfunction|apply ends_function_execute].
  - apply ends_call_list. intros a Hin. apply IH. auto.
  - intros s s'. unfold ebind at 1, look, lift_res.
    destruct (call_generator _ _ _ _ _) as [v|e] eqn:E; [|done].
    apply ends_generated. intros a Ea. apply IH. eauto.
  - destruct (is_command_text _) eqn:E.
    + apply ends_leaf; intros; [apply ends_command_strfunction|apply ends_command_execute].
    + apply ends_generated. intros a Ea. apply IH. destruct Ha as [?|Ha]; [done|auto].
Qed.
End facts.

(** ** Theorems *)

(** C29: Functions, and the function that spawns commands, may change the current
    directory.  Whatever directories the leaves of an action change to, and whether
    the call returns or raises, it ends in the directory it started in, if that can
    be entered from anywhere (it is an absolute path that is still there) and
    [homing] holds: each leaf the call may come to, also in lists, generated
    actions and variables, has the option [chdir] in force, its own or that of the
    call, or its function, or spawning, leaves the directory as it is. *)
Theorem call_restores_directory {W : Type} `{ActionWorld W} (env : aenv)
    (print_actions execute_actions print_actions_presub : bool)
    (fuel : nat) (a : act) (args : cargs) (target source : list nid) (s : astate W) :
  (∀ c, change_dir (W:=W) c (cwd s) = Some (cwd s)) →
  homing (W:=W) env fuel a args →
  cwd (call_action env print_actions execute_actions print_actions_presub
         fuel a args target source s).1 = cwd s.
Proof. intros back Ha. by apply (call_here env _ _ _ (cwd s)). Qed.

(** C30: When actions are not executed (option -n, or a call that says so) no call of any action
    spawns a command, calls a function or changes directory or environment, and every call that
    returns gives zero. *)
Theorem call_without_execution {W : Type} `{ActionWorld W} (env : aenv)
    (print_actions execute_actions print_actions_presub : bool)
    (fuel : nat) (a : act) (args : cargs) (target source : list nid) (s : astate W) :
  default execute_actions (c_execute args) = false →
  let '(s', r) := call_action env print_actions execute_actions print_actions_presub
                    fuel a args target source s in
  world s' = world s ∧ cwd s' = cwd s ∧ ENV s' = ENV s ∧ ∀ st, r = Ok st → st = SInt 0.
Proof.
  intros dry. destruct (call_dry env print_actions execute_actions print_actions_presub args dry
                          s fuel a target source) as [Hk Hz].
  specialize (Hk s (conj eq_refl (conj eq_refl eq_refl))). specialize (Hz s).
  destruct (call_action _ _ _ _ _ _ _ _ _ s) as [s' r]. destruct Hk as (? & ? & ?).
  split_and!; [done..|]. intros st ->. by eapply Hz.
Qed.

(** A command action that returns has spawned, in order, the non-empty lines its command line
    expands to: all of them, each with result zero or with errors ignored by a leading dash, and
    then its status is zero; or those up to the first with another result, and then its status is
    the error with that result. *)
Theorem command_spawns_lines {W : Type} `{ActionWorld W} (env : aenv)
    (print_actions execute_actions print_actions_presub : bool)
    (fuel : nat) (b : base) (cmd : actval) (args : cargs) (target source : list nid)
    (s s' : astate W) (st : stat) :
  default execute_actions (c_execute args) = true →
  call_action env print_actions execute_actions print_actions_presub
    (S fuel) (Command b cmd) args target source s = (s', Ok st) →
  ∃ shell spawn t u result lines ignore silent s1 s2 st0,
    SHELL env = Some shell ∧ SPAWN env = Some spawn ∧
    subst_list (W:=W) cmd (c_executor args) t u = Ok result ∧
    process_lines result = (lines, ignore, silent) ∧
    world s1 = world s ∧ world s' = world s2 ∧
    spawns_well b spawn shell ignore (map (map (escape_word env)) (List.filter is_line lines))
      s1 s2 st0 ∧
    st = apply_exitstatfunc (default (default id (a_exitstatfunc b)) (c_exitstatfunc args)) st0.
Proof.
  intros Hex E. cbn [call_action] in E. apply leaf_executes in E; [|done|].
  2:{ intros. apply keeps_command_strfunction. }
  destruct E as (s1 & s2 & st0 & t & u & [Hw _] & _ & _ & E & Hst & Hw').
  unfold command_execute in E. destruct (SHELL env) as [shell|], (SPAWN env) as [spawn|]; try done.
  apply bind_ok in E as (s3 & [] & E3 & E). injection E3 as <-.
  apply bind_ok in E as (s4 & [[lines ignore] silent] & E4 & E).
  apply bind_ok in E4 as (s5 & result & E5 & E4). injection E4 as <- E4.
  unfold lift_res in E5. destruct (subst_list _ _ _ _) as [r|e] eqn:Es in E5; [|done].
  injection E5 as <- ->. apply spawn_lines_spec in E.
  eexists shell, spawn, _, _, result, lines, ignore, silent, _, s2, st0.
  split_and!; [done|done|exact Es|done| |done|exact E|done]. exact Hw.
Qed.

(** The world a function is called in, and how it fails. *)
Definition function_fails {A : Type} (r : A * res exn fun_result) : bool :=
  match r with (_, Ok v) => true_result v | (_, Raise _) => true end.
Definition error_status {A : Type} (r : A * res exn fun_result) : status_value :=
  match r with
  | (_, Ok v) => be_status (convert_result v)
  | (_, Raise e) => be_status (convert_raised e)
  end.

(** The call of a function action that returns gives a true status exactly if the function
    returned a true value or raised an EnvironmentError; any other exception is not returned.  (The
    statuses of errors must not be zero.) *)
Theorem function_status {W : Type} `{ActionWorld W} (env : aenv)
    (print_actions execute_actions print_actions_presub : bool)
    (fuel : nat) (b : base) (f : nat) (args : cargs) (target source : list nid)
    (s s' : astate W) (st : stat) :
  default execute_actions (c_execute args) = true →
  default (default id (a_exitstatfunc b)) (c_exitstatfunc args) = id →
  call_action env print_actions execute_actions print_actions_presub
    (S fuel) (Function b f) args target source s = (s', Ok st) →
  ∃ d, let r := call_function f (all_targets (c_executor args) target)
             (map rfile (all_sources (c_executor args) source)) d (world s) in
  error_status r ≠ StatusInt 0 →
  true_stat st = function_fails r ∧
  match r.2 with Raise e => is_EnvironmentError e = true | Ok _ => True end.
Proof.
  intros Hex Hid E. cbn [call_action] in E. apply leaf_executes in E; [|done|].
  2:{ intros. apply keeps_function_strfunction. }
  destruct E as (s1 & s2 & st0 & t & u & [Hw _] & Ht & Hu & E & -> & _). rewrite Hid.
  exists (cwd s1). intros r Hr.
  assert (Herr : ∀ err, be_status err ≠ StatusInt 0 →
    true_stat (apply_exitstatfunc id (SErr err)) = true).
  { intros err Hs. cbn. destruct (be_status err) as [z|c]; [|done]. cbn.
    destruct (z =? 0)%Z eqn:Ez; [|done]. apply Z.eqb_eq in Ez. by subst z. }
  assert (Hcomp : ∀ b m t u err s s' e, complete_error (W:=W) b m t u err s = (s', Ok e) →
    be_status e = be_status err).
  { intros b' m t' u' err s3 s4 e E'. apply bind_ok in E' as (s5 & c & _ & [= <- <-]). done. }
  unfold function_execute, in_world in E. rewrite Ht, Hu, Hw in E. fold r in E.
  clearbody r. destruct r as [[w c] [v|e]]; cbn in Hr |- *.
  - destruct (true_result v) eqn:Ev.
    + apply bind_ok in E as (s3 & err & E3 & [= <- <-]). split; [|done].
      apply Herr. by rewrite (Hcomp _ _ _ _ _ _ _ _ E3).
    + injection E as <- <-. split; [|done]. destruct v; cbn in Ev |- *; done || by rewrite Ev.
  - destruct (is_Exception e) eqn:Ee; [|done].
    apply bind_ok in E as (s3 & err & E3 & E).
    destruct (is_EnvironmentError e) eqn:Een; [|done]. injection E as <- <-.
    split; [|done]. apply Herr. by rewrite (Hcomp _ _ _ _ _ _ _ _ E3).
Qed.

(** The actions of an action that is a list. *)
Definition acts_of (a : act) : list act :=
  match a with ListAction l => l | _ => [a] end.

(** The sum of two actions consists of the actions of the first and then those of the second,
    and a call of it calls the first ones and, if they give a false status, the second ones. *)
Theorem append_calls_in_order {W : Type} `{ActionWorld W} (env : aenv)
    (print_actions execute_actions print_actions_presub : bool)
    (fuel : nat) (kw1 kw2 : keywords) (v1 v2 : actval) (a a1 a2 : act) (args : cargs)
    (target source : list nid) (s : astate W) :
  make_action v1 None kw1 = Ok (Some a1) → make_action v2 None kw2 = Ok (Some a2) →
  action_append kw1 kw2 v1 v2 = Ok a →
  let call n a := call_action env print_actions execute_actions print_actions_presub
                    n a args target source in
  acts_of a = acts_of a1 ++ acts_of a2 ∧
  call (S fuel) a s =
    (let! st := call (S fuel) (ListAction (acts_of a1)) in
     if true_stat st then eret st else call (S fuel) (ListAction (acts_of a2)))%eff s.
Proof.
  intros E1 E2 E. cbv zeta.
  assert (Ea : a = ListAction (acts_of a1 ++ acts_of a2)).
  { unfold action_append in E. rewrite E1, E2 in E. cbn in E.
    destruct a1, a2; by injection E as <-. }
  subst a. split; [done|]. cbn [call_action]. apply call_list_app.
Qed.

(** A call ends within as many levels as lists and generated actions are nested: it returns or
    raises an exception of the program. *)
Theorem call_ends {W : Type} `{ActionWorld W} (env : aenv)
    (print_actions execute_actions print_actions_presub : bool)
    (n : nat) (a : act) (args : cargs) (target source : list nid) (s : astate W) :
  calm (W:=W) env n a →
  (call_action env print_actions execute_actions print_actions_presub
     n a args target source s).2 ≠ Raise None.
Proof.
  intros Ha E. destruct (call_action _ _ _ _ _ _ _ _ _ s) as [s' r] eqn:Ec.
  cbn in E. subst r. by eapply (calm_ends env print_actions execute_actions print_actions_presub n).
Qed.

(** ** Witnesses

    A world that records what is spawned and called: the command [false] gives
    1, function 2 changes to [/etc], function 0 raises an [OSError] with number 13, function 1 raises one
    whose number is 0, any other function returns its number. *)

Definition ex_words (v : actval) : list word :=
  match v with
  | AvStr s => map (λ w, Word w false) (split_ws s)
  | _ => []
  end.
#[local] Instance ex_world : ActionWorld (list text) := {
  call_function f t u d w :=
    (w ++ [T "call"], if decide (f = 2) then T "/etc" else d,
     match f with
     | 0 => Raise (ExEnvironmentError "OSError" 13 "Permission denied" None)
     | 1 => Raise (ExEnvironmentError "OSError" 0 "lost" None)
     | _ => Ok (FInt (Z.of_nat f))
     end);
  call_spawn sp sh l e c w := (w ++ l, c, Ok (if decide (l = [T "false"]) then 1%Z else 0%Z));
  call_generator g t u b w := Ok (AvStr (T "true"));
  call_strfunction f t u w := Ok None;
  display_function f t u := Ok (Some (T "f()"));
  format_line f l := [l];
  subst_list v x t u := Ok [ex_words v];
  subst_raw s x t u := Ok s;
  presub_lines a := [];
  node_text n := [];
  node_dir n := T "/";
  rfile n := n;
  repr s := s;
  change_dir c p := if startswith (T "/") p then Some p else Some (c ++ T "/" ++ p)
}.
Definition ex_env : aenv := AEnv (Some (T "sh")) (Some 0) id None
  (λ v, if decide (v = T "LOOP") then Some (AvStr (T "$LOOP" ++ ["010"%char])) else None).
Definition ex_base : base := Base 1 None None None (DirStr (T "/tmp")) None.
Definition ex_kw : keywords := Keywords (Base 1 None None None NoDir None) false.
Definition ex_state : astate (list text) := AState [] (T "/w") [] ∅.
Definition ex_failing : act := Command ex_base (AvStr (T "@false")).
Definition ex_args : cargs := CArgs None None None (Some true) None None.
Abbreviation ex_call := (call_action ex_env true false true).

(** A command, and a function that leaves [/tmp] for [/etc]. *)
Definition ex_leaving : act := ListAction [ex_failing; Function ex_base 2].
Lemma call_restores_directory_witness :
  cwd (ex_call 2 ex_leaving ex_args [1] [2] ex_state).1 = T "/w" ∧
  cwd (ex_call 2 (Function ex_base 2) ex_args [1] [2] ex_state).1 = T "/w".
Proof.
  split.
  - apply (call_restores_directory ex_env true false true 2 ex_leaving ex_args [1] [2] ex_state).
    + intros c. reflexivity.
    + intros a Ha. unfold ex_leaving in Ha. apply elem_of_cons in Ha as [->|Ha]; [by left|].
      apply list_elem_of_singleton in Ha as ->. by left.
  - apply (call_restores_directory ex_env true false true 2 (Function ex_base 2) ex_args [1] [2] ex_state).
    + intros c. reflexivity.
    + by left.
Defined.

Lemma call_without_execution_witness :
  let '(s', r) := ex_call 2 (ListAction [ex_failing; Function ex_base 0]) no_args [1] [2] ex_state in
  world s' = [] ∧ cwd s' = T "/w" ∧ ENV s' = ∅ ∧ ∀ st, r = Ok st → st = SInt 0.
Proof.
  exact (call_without_execution ex_env true false true 2
    (ListAction [ex_failing; Function ex_base 0]) no_args [1] [2] ex_state eq_refl).
Defined.

Lemma command_spawns_lines_witness :
  let '(s', r) := ex_call 1 ex_failing ex_args [1] [2] ex_state in
  ∀ st, r = Ok st → ∃ shell spawn t u result lines ignore silent s1 s2 st0,
    SHELL ex_env = Some shell ∧ SPAWN ex_env = Some spawn ∧
    subst_list (W:=list text) (AvStr (T "@false")) None t u = Ok result ∧
    process_lines result = (lines, ignore, silent) ∧
    world s1 = [] ∧ world s' = world s2 ∧
    spawns_well ex_base spawn shell ignore
      (map (map (escape_word ex_env)) (List.filter is_line lines)) s1 s2 st0 ∧
    st = apply_exitstatfunc id st0.
Proof.
  destruct (ex_call 1 ex_failing ex_args [1] [2] ex_state) as [s' r] eqn:E. intros st ->.
  exact (command_spawns_lines ex_env true false true 0 ex_base (AvStr (T "@false")) ex_args [1] [2]
           ex_state s' st eq_refl E).
Defined.

Lemma function_status_witness :
  ∃ s' st, ex_call 1 (Function ex_base 0) ex_args [1] [2] ex_state = (s', Ok st) ∧
    true_stat st = true.
Proof.
  destruct (ex_call 1 (Function ex_base 0) ex_args [1] [2] ex_state) as [s' [st|e]] eqn:E.
  - exists s', st. split; [done|].
    destruct (function_status ex_env true false true 0 ex_base 0 ex_args [1] [2] ex_state s' st
                eq_refl eq_refl E) as [d H]. exact (proj1 (H ltac:(done))).
  - exfalso. revert E. vm_compute. discriminate.
Defined.

Lemma append_calls_in_order_witness :
  ∃ a, action_append ex_kw ex_kw (AvStr (T "true")) (AvFun 2) = Ok a ∧
    acts_of a = [Command (kw_base ex_kw) (AvStr (T "true")); Function (kw_base ex_kw) 2].
Proof.
  eexists. split; [reflexivity|].
  exact (proj1 (append_calls_in_order ex_env true false true 1 ex_kw ex_kw (AvStr (T "true"))
    (AvFun 2) _ (Command (kw_base ex_kw) (AvStr (T "true"))) (Function (kw_base ex_kw) 2)
    ex_args [1] [2] ex_state eq_refl eq_refl eq_refl)).
Defined.

Lemma call_ends_witness :
  (ex_call 2 (ListAction [ex_failing; Function ex_base 0]) ex_args [1] [2] ex_state).2 ≠ Raise None.
Proof.
  apply call_ends. intros a. rewrite !elem_of_cons. intros [-> |[-> |Ha]]; [exact I|exact I|].
  by apply not_elem_of_nil in Ha.
Defined.

(** ** Where actions go wrong *)

(** A function whose [EnvironmentError] has a number that is false counts as one
    that worked. *)
Lemma error_without_number_lost :
  (ex_call 1 (Function ex_base 1) ex_args [1] [2] ex_state).2 = Ok (SInt 0).
Proof. vm_compute. reflexivity. Qed.

(** Of the callables of a list only the first becomes a generator. *)
Lemma first_generator_only :
  make_action (AvList [AvFun 1; AvFun 2]) None (Keywords (kw_base ex_kw) true) =
  Ok (Some (ListAction [Generator (kw_base ex_kw) 1; Function (kw_base ex_kw) 2])).
Proof. vm_compute. reflexivity. Qed.

(** A variable that is a reference to itself and a newline is expanded for ever. *)
Lemma lazy_never_ends (fuel : nat) args target source s :
  (ex_call fuel (Lazy (kw_base ex_kw) (T "LOOP") false) args target source s).2 = Raise None.
Proof.
  revert s. induction fuel as [|fuel IH]; intros s; [done|]. cbn [call_action].
  replace (is_command_text (env_get ex_env (T "LOOP"))) with false by done.
  replace (make_action (default (AvStr []) (env_get ex_env (T "LOOP"))) None
             (Keywords (kw_base ex_kw) false))
    with (Ok (E:=fexn) (Some (Lazy (kw_base ex_kw) (T "LOOP") false))) by (vm_compute; reflexivity).
  unfold generated, ebind, eret. apply IH.
Qed.
