(* ===== verification/CacheDir.v ===== *)
(** * The cache of derived files ([SCons/CacheDir.py])

    A directory in which built files are kept under their build signatures,
    shared by builds that run at the same time.  What the functions do to the
    file system is a program [prog] of single operations, which either runs
    alone or whose operations are interleaved with those of others.  Debugging
    output is left out; [get_cachedir_bsig] of a node is one of its
    attributes. *)

From S2P Require Import Prelude Errors PyStr FSTree FSVariant Subst Action.
Open Scope nat_scope.

(** ** The file system *)

(** A regular file with its permissions, or a symbolic link. *)
Inductive file := Reg (c : text) (m : Z) | Link (l : text).

Record cfs := CFs { files : gmap text file; dirs : gset text; warnings : nat }.

Inductive op :=
| Exists (p : text)
| IsDir (p : text)
| IsLink (p : text)
| Makedirs (p : text)
| ReadFile (p : text)
| ReadLink (p : text)
| WriteFile (p c : text)
| Symlink (l p : text)
| Rename (p q : text)
| StatMode (p : text)
| Chmod (p : text) (m : Z)
| Warn.

Inductive answer := AUnit | ABool (b : bool) | AText (t : text) | AMode (m : Z) | AErr (e : exn).

Definition os_error (errno : Z) (msg : string) : exn := ExEnvironmentError "OSError" errno msg None.
Definition dirname (p : text) : text := (os_path_split p).1.

(** Where a path leads; [fuel] is the number of links that are followed. *)
Fixpoint follow (fuel : nat) (s : cfs) (p : text) : option text :=
  match files s !! p with
  | Some (Link l) =>
      match fuel with
      | O => None
      | S fuel => follow fuel s (os_path_join (dirname p) l)
      end
  | _ => Some p
  end.
Definition real_path (s : cfs) (p : text) : option text := follow 40 s p.

(** The directories that [os.makedirs] makes. *)
Fixpoint parents (fuel : nat) (p : text) : gset text :=
  match fuel with
  | O => {[p]}
  | S fuel => {[p]} ∪ parents fuel (dirname p)
  end.

Definition with_file (p : text) (f : file) (s : cfs) : cfs :=
  CFs (<[p := f]> (files s)) (dirs s) (warnings s).

(** Permissions of a new file. *)
Definition new_mode : Z := 420.

(** One operation, undisturbed. *)
Definition op_run (o : op) (s : cfs) : cfs * answer :=
  let enoent := AErr (os_error 2 "No such file or directory") in
  let eexist := AErr (os_error 17 "File exists") in
  match o with
  | Exists p =>
      (s, ABool (match real_path s p with
                 | Some q => bool_decide (is_Some (files s !! q)) || bool_decide (q ∈ dirs s)
                 | None => false
                 end))
  | IsDir p => (s, ABool (match real_path s p with
                          | Some q => bool_decide (q ∈ dirs s) | None => false end))
  | IsLink p => (s, ABool (match files s !! p with Some (Link _) => true | _ => false end))
  | Makedirs p =>
      if bool_decide (p ∈ dirs s) || bool_decide (is_Some (files s !! p)) then (s, eexist)
      else (CFs (files s) (dirs s ∪ parents (length p) p) (warnings s), AUnit)
  | ReadFile p =>
      (s, match q ← real_path s p; files s !! q with
          | Some (Reg c _) => AText c
          | _ => enoent
          end)
  | ReadLink p =>
      (s, match files s !! p with
          | Some (Link l) => AText l
          | _ => AErr (os_error 22 "Invalid argument")
          end)
  | WriteFile p c =>
      match real_path s p with
      | None => (s, enoent)
      | Some q =>
          if bool_decide (q ∈ dirs s) then (s, AErr (os_error 21 "Is a directory"))
          else if bool_decide (dirname q ∈ dirs s) then
            (with_file q (Reg c (match files s !! q with Some (Reg _ m) => m | _ => new_mode end)) s,
             AUnit)
          else (s, enoent)
      end
  | Symlink l p =>
      if bool_decide (is_Some (files s !! p)) || bool_decide (p ∈ dirs s) then (s, eexist)
      else (with_file p (Link l) s, AUnit)
  | Rename p q =>
      match files s !! p with
      | None => (s, enoent)
      | Some f =>
          if bool_decide (q ∈ dirs s) then (s, AErr (os_error 21 "Is a directory"))
          else (CFs (<[q := f]> (delete p (files s))) (dirs s) (warnings s), AUnit)
      end
  | StatMode p =>
      (s, match q ← real_path s p; files s !! q with
          | Some (Reg _ m) => AMode m
          | _ => enoent
          end)
  | Chmod p m =>
      match real_path s p with
      | Some q => match files s !! q with
                  | Some (Reg c _) => (with_file q (Reg c m) s, AUnit)
                  | _ => (s, enoent)
                  end
      | None => (s, enoent)
      end
  | Warn => (CFs (files s) (dirs s) (S (warnings s)), AUnit)
  end.

(** ** Programs *)

Inductive prog (A : Type) :=
| Ret (a : A)
| Throw (e : exn)
| Do (o : op) (k : answer → prog A).
Arguments Ret {A} a.
Arguments Throw {A} e.
Arguments Do {A} o k.

Fixpoint pbind {A B} (m : prog A) (k : A → prog B) : prog B :=
  match m with
  | Ret a => k a
  | Throw e => Throw e
  | Do o m => Do o (λ a, pbind (m a) k)
  end.

Declare Scope prog_scope.
Delimit Scope prog_scope with prog.
Notation "'let!' x ':=' m 'in' k" := (pbind m (λ x, k))
  (at level 10, x pattern, m at level 100, k at level 200) : prog_scope.
Notation "m ';;;' k" := (pbind m (λ _, k))
  (at level 199, right associativity) : prog_scope.

(** [try: m except EnvironmentError: h] *)
Fixpoint ptry {A} (m : prog A) (h : prog A) : prog A :=
  match m with
  | Ret a => Ret a
  | Throw e => if is_EnvironmentError e then h else Throw e
  | Do o m => Do o (λ a, ptry (m a) h)
  end.

(** An operation, whose error is raised; answers of another kind do not occur. *)
Definition bad_answer {A} : prog A := Throw (ExOther "RuntimeError" "answer").
Definition ask {A} (o : op) (f : answer → prog A) : prog A :=
  Do o (λ a, match a with AErr e => Throw e | _ => f a end).
Definition do_bool (o : op) : prog bool :=
  ask o (λ a, match a with ABool b => Ret b | _ => bad_answer end).
Definition do_text (o : op) : prog text :=
  ask o (λ a, match a with AText t => Ret t | _ => bad_answer end).
Definition do_mode (o : op) : prog Z :=
  ask o (λ a, match a with AMode m => Ret m | _ => bad_answer end).
Definition do_unit (o : op) : prog unit := ask o (λ _, Ret tt).

(** A program alone. *)
Fixpoint prun {A} (m : prog A) (s : cfs) : cfs * res exn A :=
  match m with
  | Ret a => (s, Ok a)
  | Throw e => (s, Raise e)
  | Do o m => let '(s, a) := op_run o s in prun (m a) s
  end.

(** [shutil.copy2], and [shutil.copy]: the contents, then the permissions.  The
    new file is empty before it is filled. *)
Definition copy2 (src dst : text) : prog unit :=
  (let! c := do_text (ReadFile src) in
   do_unit (WriteFile dst []) ;;;
   do_unit (WriteFile dst c) ;;;
   let! m := do_mode (StatMode src) in
   do_unit (Chmod dst m))%prog.

(** ** The cache *)

(** Of a node: [path], [nocache] and [get_cachedir_bsig()]. *)
Record cnode := CNode { c_path : text; c_nocache : bool; c_bsig : text }.

Section cache.
(** The attribute [path] of a [CacheDir], [None] without [hashlib]; the module's
    options; [os.getpid()]; [SCons.Action.execute_actions]. *)
Variable cache_dir : option text.
Variables cache_enabled cache_force cache_show : bool.
Variable pid : nat.
Variable execute_actions : bool.

Definition is_enabled : bool := cache_enabled && bool_decide (is_Some cache_dir).

Definition upper (c : ascii) : ascii :=
  if is_lower c then ascii_of_nat (nat_of_ascii c - 32) else c.

(** [cachepath] where the cache is enabled; no signature is empty. *)
Definition cachepath_in (dir sig : text) : text * text :=
  let subdir := map upper (take 1 sig) in
  let dir := os_path_join dir subdir in
  (dir, os_path_join dir sig).
Definition cachepath (t : cnode) : option (text * text) :=
  if is_enabled then (λ d, cachepath_in d (c_bsig t)) <$> cache_dir else None.

(** [S_IMODE(m) | S_IWRITE] *)
Definition writable (m : Z) : Z := Z.lor (Z.land m 4095) 128.

(** What a function does with no path: [fs.exists(None)] raises a [TypeError]. *)
Definition no_path {A} : prog A := Throw (ExOther "TypeError" "").

(** [CacheRetrieveFunc] *)
Definition CacheRetrieveFunc (t : cnode) : prog Z :=
  match cachepath t with
  | None => no_path
  | Some (cachedir, cachefile) =>
      let! found := do_bool (Exists cachefile) in
      if negb found then Ret 1%Z
      else if execute_actions then
        let! link := do_bool (IsLink cachefile) in
        (if link : bool then
           let! l := do_text (ReadLink cachefile) in
           do_unit (Symlink l (c_path t))
         else copy2 cachefile (c_path t)) ;;;
        let! m := do_mode (StatMode cachefile) in
        do_unit (Chmod (c_path t) (writable m)) ;;;
        Ret 0%Z
      else Ret 0%Z
  end%prog.

Definition tempfile (cachefile : text) : text :=
  cachefile ++ T ".tmp" ++ String.list_ascii_of_string (pretty pid).

(** The [try] around the copy, and the whole of [CachePushFunc]. *)
Definition push_copy (t : cnode) (cachefile : text) : prog unit :=
  (let! link := do_bool (IsLink (c_path t)) in
   (if link : bool then
      let! l := do_text (ReadLink (c_path t)) in
      do_unit (Symlink l (tempfile cachefile))
    else copy2 (c_path t) (tempfile cachefile)) ;;;
   do_unit (Rename (tempfile cachefile) cachefile) ;;;
   let! m := do_mode (StatMode (c_path t)) in
   do_unit (Chmod cachefile (writable m)))%prog.
Definition make_cachedir (cachedir : text) : prog unit :=
  (let! is_dir := do_bool (IsDir cachedir) in
   if is_dir : bool then Ret tt
   else
     ptry (do_unit (Makedirs cachedir))
       (let! is_dir := do_bool (IsDir cachedir) in
        if is_dir : bool then Ret tt
        else Throw (ExOther "EnvironmentError" "Unable to copy to cache")))%prog.
Definition CachePushFunc (t : cnode) : prog unit :=
  if c_nocache t then Ret tt
  else
    match cachepath t with
    | None => no_path
    | Some (cachedir, cachefile) =>
        let! found := do_bool (Exists cachefile) in
        if found : bool then Ret tt
        else
          make_cachedir cachedir ;;;
          ptry (push_copy t cachefile) (do_unit Warn)
    end%prog.

(** [CacheRetrieveString] *)
Definition CacheRetrieveString (t : cnode) (s : cfs) : res exn (option text) :=
  match cachepath t with
  | None => Raise (ExOther "TypeError" "")
  | Some (cachedir, cachefile) =>
      match op_run (Exists cachefile) s with
      | (_, ABool true) => Ok (Some (T "Retrieved `" ++ c_path t ++ T "' from cache"))
      | _ => Ok None
      end
  end.

(** ** The actions

    Function 0 is [CacheRetrieveFunc], 1 is [CachePushFunc]; the display
    function 0 is [CacheRetrieveString].  Other code is not called. *)
Variable node_of : nid → cnode.

Definition on_target {A} (target : list nid) (f : cnode → cfs → cfs * res exn A) (s : cfs)
    : cfs * res exn A :=
  match target with
  | t :: _ => f (node_of t) s
  | [] => (s, Raise (ExOther "IndexError" "list index out of range"))
  end.
Definition map_result {A B} (f : A → B) (r : res exn A) : res exn B :=
  match r with Ok a => Ok (f a) | Raise e => Raise e end.

#[local] Instance cache_world : ActionWorld cfs := {
  call_function f target source d w :=
    match f with
    | 0 => let '(w, r) := on_target target (λ t, prun (CacheRetrieveFunc t)) w in
           (w, d, map_result FInt r)
    | _ => let '(w, r) := on_target target (λ t, prun (CachePushFunc t)) w in
           (w, d, map_result (λ _, FNone) r)
    end;
  call_strfunction f target source w :=
    match target with
    | t :: _ => CacheRetrieveString (node_of t) w
    | [] => Raise (ExOther "IndexError" "list index out of range")
    end;
  call_spawn sp sh l e c w := (w, c, Ok 0%Z);
  call_generator g t u b w := Ok (AvList []);
  display_function f target source := Ok (Some (T "CachePushFunc"));
  format_line f l := [l];
  subst_list v x t u := Ok [];
  subst_raw s x t u := Ok s;
  presub_lines a := [];
  node_text n := c_path (node_of n);
  node_dir n := dirname (c_path (node_of n));
  rfile n := n;
  repr s := s;
  change_dir c p := Some p
}.

(** [Action(CacheRetrieveFunc, CacheRetrieveString)] and the others. *)
Definition plain (id : nat) : keywords := Keywords (Base id None None None NoDir None) false.
Definition CacheRetrieve : act :=
  Function (Base 0 None (Some (Some 0)) None NoDir None) 0.
Definition CacheRetrieveSilent : act := Function (Base 1 (Some None) None None NoDir None) 0.
Definition CachePush : act := Function (Base 2 (Some None) None None NoDir None) 1.

Variable env : aenv.
Variables print_actions print_actions_presub : bool.
(** [node.build(presub=0, execute=0)]: shows the commands. *)
Variable show_build : nid → eff (astate cfs) fexn unit.

Definition run_action (a : act) (n : nid) (execute : option bool) : eff (astate cfs) fexn stat :=
  call_action env print_actions execute_actions print_actions_presub 1 a
    (CArgs None None None execute None None) [n] [].
Definition is_zero (st : stat) : bool := match st with SInt 0 => true | _ => false end.

Definition retrieve (n : nid) : eff (astate cfs) fexn bool := (
  if negb is_enabled then eret false
  else if cache_show then
    let! st := run_action CacheRetrieveSilent n (Some true) in
    if is_zero st then show_build n ;;; eret true else eret false
  else
    let! st := run_action CacheRetrieve n (Some true) in
    eret (is_zero st))%eff.

Definition push (n : nid) : eff (astate cfs) fexn stat :=
  if negb is_enabled then eret SNone else run_action CachePush n None.
Definition push_if_forced (n : nid) : eff (astate cfs) fexn stat :=
  if cache_force then push n else eret SNone.
End cache.

Example cache_actions_made :
  make_action (AvFun 0) (Some (DisplayFun 0)) (plain 0) = Ok (Some CacheRetrieve) ∧
  make_action (AvFun 0) (Some DisplayNone) (plain 1) = Ok (Some CacheRetrieveSilent) ∧
  make_action (AvFun 1) (Some DisplayNone) (plain 2) = Ok (Some CachePush).
Proof. split_and!; reflexivity. Qed.
