(* ===== verification/CacheDirFacts.v ===== *)
(** * Theorems about the cache of derived files

    Builds that share a cache push to it and retrieve from it at the same time,
    and any of their operations may fail or be their last: still every file in
    the cache is whole, and so is what is retrieved.  A build without execution
    retrieves nothing. *)

From S2P Require Import Prelude Errors PyStr FSTree FSVariant Subst Action CacheDir.
Open Scope nat_scope.

(** ** Paths *)

(** What a signature is: the hexadecimal digest of [hashlib.md5]. *)
Definition is_hex (c : ascii) : bool := bool_decide (c ∈ T "0123456789abcdef").
Definition sig_ok (sig : text) : Prop := length sig = 32 ∧ Forall (λ c, is_hex c = true) sig.

Definition cachefile_in (dir sig : text) : text := (cachepath_in dir sig).2.

Lemma hex_cases (P : ascii → Prop) :
  Forall P (T "0123456789abcdef") → ∀ c, is_hex c = true → P c.
Proof.
  intros HP c Hc. unfold is_hex in Hc. apply bool_decide_eq_true in Hc.
  by eapply Forall_forall in HP.
Qed.

Lemma join_plain (a b : text) (x : ascii) :
  isabs b = false → last a = Some x → x ≠ "/"%char → os_path_join a b = a ++ T "/" ++ b.
Proof.
  intros Hb Ha Hx. unfold os_path_join. rewrite Hb, Ha.
  destruct (decide (x = "/"%char)) as [->|_]; [done|].
  destruct x as [[] [] [] [] [] [] [] []]; try done; by destruct Hx.
Qed.

Definition cachedir_in (dir sig : text) : text := (cachepath_in dir sig).1.

(** A cache file is in its directory, under its signature. *)
Lemma cachefile_dir (dir sig : text) :
  sig_ok sig → cachefile_in dir sig = cachedir_in dir sig ++ T "/" ++ sig ∧
    (∃ u, last (cachedir_in dir sig) = Some u ∧ u ≠ "/"%char) ∧
    length (cachedir_in dir sig) = length (os_path_join dir (T "0")).
Proof.
  intros [Hl Hh]. destruct sig as [|c sig]; [done|].
  apply Forall_cons in Hh as [Hc Hh]. unfold cachefile_in, cachedir_in, cachepath_in.
  cbn [fst snd]. change (take 1 (c :: sig)) with [c]. cbn [map].
  set (u := upper c).
  assert (isabs [u] = false ∧ u ≠ "/"%char ∧ isabs (c :: sig) = false) as (Hu1 & Hu2 & Hu3).
  { subst u. revert c Hc Hl. refine (hex_cases _ _).
    repeat (constructor; [intros _; split_and!; done|]). constructor. }
  assert (Hj : os_path_join dir [u] = dir ++ [u] ∨ os_path_join dir [u] = dir ++ T "/" ++ [u]).
  { unfold os_path_join. rewrite Hu1. repeat case_match; auto. }
  assert (last (os_path_join dir [u]) = Some u) as Hlast.
  { destruct Hj as [-> | ->]; rewrite ?app_assoc; apply last_snoc. }
  split_and!; [by apply (join_plain _ _ u)|by exists u|].
  unfold os_path_join. rewrite Hu1. cbn. repeat case_match; by rewrite !length_app.
Qed.

(** All cache files are of one length, and end in their signatures. *)
Lemma cachefile_shape (dir sig : text) :
  sig_ok sig → ∃ d, cachefile_in dir sig = d ++ sig ∧
    length d = length (os_path_join dir (T "0")) + 1.
Proof.
  intros Hsig. destruct (cachefile_dir dir sig Hsig) as (E & _ & El).
  exists (cachedir_in dir sig ++ T "/"). split; [by rewrite <- app_assoc|].
  by rewrite length_app, El.
Qed.

Lemma cachefile_length (dir sig1 sig2 : text) :
  sig_ok sig1 → sig_ok sig2 →
  length (cachefile_in dir sig1) = length (cachefile_in dir sig2).
Proof.
  intros H1 H2. destruct (cachefile_shape dir sig1 H1) as (d1 & -> & E1).
  destruct (cachefile_shape dir sig2 H2) as (d2 & -> & E2).
  rewrite !length_app, E1, E2. destruct H1 as [-> _], H2 as [-> _]. done.
Qed.
Lemma cachefile_inj (dir sig1 sig2 : text) :
  sig_ok sig1 → sig_ok sig2 → cachefile_in dir sig1 = cachefile_in dir sig2 → sig1 = sig2.
Proof.
  intros H1 H2. destruct (cachefile_shape dir sig1 H1) as (d1 & -> & E1).
  destruct (cachefile_shape dir sig2 H2) as (d2 & -> & E2).
  intros E. apply app_inj_1 in E as [_ E]; [done|congruence].
Qed.
Lemma tempfile_not_cachefile (dir sig1 sig2 : text) (pid : nat) :
  sig_ok sig1 → sig_ok sig2 → tempfile pid (cachefile_in dir sig1) ≠ cachefile_in dir sig2.
Proof.
  intros H1 H2 E. apply (f_equal length) in E. unfold tempfile in E.
  rewrite !length_app, (cachefile_length dir sig1 sig2 H1 H2) in E. cbn in E. lia.
Qed.
Lemma text_of_inj (a b : string) :
  String.list_ascii_of_string a = String.list_ascii_of_string b → a = b.
Proof.
  intros E. rewrite <- (String.string_of_list_ascii_of_string a), E.
  apply String.string_of_list_ascii_of_string.
Qed.
Lemma tempfile_inj (dir sig1 sig2 : text) (pid1 pid2 : nat) :
  sig_ok sig1 → sig_ok sig2 →
  tempfile pid1 (cachefile_in dir sig1) = tempfile pid2 (cachefile_in dir sig2) →
  pid1 = pid2 ∧ sig1 = sig2.
Proof.
  intros H1 H2 E. unfold tempfile in E.
  apply app_inj_1 in E as [Ec E]; [|by apply cachefile_length].
  apply app_inv_head in E. split; [by apply text_of_inj, (inj pretty) in E|].
  by eapply cachefile_inj.
Qed.

(** ** Builds at the same time *)

(** An operation that goes wrong: it changes nothing, or leaves some part of
    what it should write. *)
Definition can_fail (o : op) : bool :=
  match o with Exists _ | IsDir _ | IsLink _ | Warn => false | _ => true end.
Inductive op_step : op → cfs → cfs → answer → Prop :=
| step_run o s s' a : op_run o s = (s', a) → op_step o s s' a
| step_fails o s e : can_fail o = true → op_step o s s (AErr e)
| step_partial p c q c' m s e :
    real_path s p = Some q → c' `prefix_of` c →
    op_step (WriteFile p c) s (with_file q (Reg c' m) s) (AErr e).

(** The processes of one system; each may stop for ever. *)
Abbreviation procs := (nat → prog (option Z)).
Definition update (i : nat) (m : prog (option Z)) (ps : procs) : procs :=
  λ j, if decide (j = i) then m else ps j.
Inductive sys_step : cfs * procs → cfs * procs → Prop :=
| one_step i o k s s' a ps :
    ps i = Do o k → op_step o s s' a →
    sys_step (s, ps) (s', update i (k a) ps).

Inductive job := Push | Retrieve.
Definition job_program (cache_dir : text) (pid : nat) (execute : bool) (j : job) (t : cnode)
    : prog (option Z) :=
  match j with
  | Push => let! _ := CachePushFunc (Some cache_dir) true pid t in Ret None
  | Retrieve => let! z := CacheRetrieveFunc (Some cache_dir) true execute t in Ret (Some z)
  end%prog.

(** ** What one process may do

    A process knows what its temporary file and its target hold; [valid] is
    what may stand in the cache under its signature. *)
Section wp.
Context (valid : text → Prop) (tmp tgt cf : text).

(** What a path holds: a regular file, or nothing. *)
Definition holds (s : cfs) (p : text) (o : option text) : Prop :=
  match o with
  | Some c => ∃ m, files s !! p = Some (Reg c m)
  | None => files s !! p = None
  end.

(** Of the operations on a program's way, those it may do, and what they may
    answer; [E] is for what it throws. *)
Definition wp_op (o : op) (K : answer → option text → option text → Prop)
    (t g : option text) : Prop :=
  (can_fail o = true → ∀ e, K (AErr e) t g) ∧
  match o with
  | Exists _ | IsDir _ => ∀ b, K (ABool b) t g
  | IsLink p => (p = tgt ∨ p = cf) ∧ K (ABool false) t g
  | Makedirs _ | Warn => K AUnit t g
  | ReadFile p =>
      p = tgt ∧ (∀ c, g = Some c → K (AText c) t g) ∨
      p = cf ∧ (∀ c, valid c → K (AText c) t g)
  | ReadLink p => p = tgt ∨ p = cf
  | WriteFile p c =>
      p = tmp ∧ K AUnit (Some c) g ∧ (∀ c' e, K (AErr e) (Some c') g) ∨
      p = tgt ∧ K AUnit t (Some c) ∧ (∀ c' e, K (AErr e) t (Some c'))
  | Symlink _ _ => False
  | Rename p q => p = tmp ∧ q = cf ∧ (∀ c, t = Some c → valid c) ∧ K AUnit None g
  | StatMode _ => ∀ m, K (AMode m) t g
  | Chmod p _ => (p = tmp ∨ p = tgt ∨ p = cf) ∧ K AUnit t g
  end.

Fixpoint wp {A} (m : prog A) (Q : A → option text → option text → Prop)
    (E : exn → option text → option text → Prop) (t g : option text) : Prop :=
  match m with
  | Ret a => Q a t g
  | Throw e => E e t g
  | Do o k => wp_op o (λ a, wp (k a) Q E) t g
  end.

Lemma wp_op_mono o (K K' : answer → option text → option text → Prop) t g :
  (∀ a t g, K a t g → K' a t g) → wp_op o K t g → wp_op o K' t g.
Proof. intros HK [Hf Ho]. split; [auto|]. destruct o; naive_solver. Qed.
Lemma wp_mono {A} (m : prog A) (Q Q' : A → option text → option text → Prop) E t g :
  (∀ a t g, Q a t g → Q' a t g) → wp m Q E t g → wp m Q' E t g.
Proof.
  intros HQ. revert t g. induction m as [a|e|o k IH]; intros t g; cbn; [auto|done|].
  apply wp_op_mono. intros a. apply IH.
Qed.
Lemma wp_mono_exn {A} (m : prog A) Q (E E' : exn → option text → option text → Prop) t g :
  (∀ e t g, E e t g → E' e t g) → wp m Q E t g → wp m Q E' t g.
Proof.
  intros HE. revert t g. induction m as [a|e|o k IH]; intros t g; cbn; [done|auto|].
  apply wp_op_mono. intros a. apply IH.
Qed.
Lemma wp_bind {A B} (m : prog A) (k : A → prog B) Q E t g :
  wp m (λ a, wp (k a) Q E) E t g → wp (pbind m k) Q E t g.
Proof.
  revert t g. induction m as [a|e|o m IH]; intros t g; cbn; [done|done|].
  apply wp_op_mono. intros a. apply IH.
Qed.
Lemma wp_try {A} (m h : prog A) Q E t g :
  wp m Q (λ e t g, if is_EnvironmentError e then wp h Q E t g else E e t g) t g →
  wp (ptry m h) Q E t g.
Proof.
  revert t g. induction m as [a|e|o m IH]; intros t g; cbn; [done| |].
  - by destruct (is_EnvironmentError e).
  - apply wp_op_mono. intros a. apply IH.
Qed.

(** An operation whose error is thrown. *)
Lemma wp_ask {A} o (f : answer → prog A) Q E t g :
  wp_op o (λ a, match a with AErr e => E e | _ => wp (f a) Q E end) t g →
  wp (ask o f) Q E t g.
Proof. cbn. apply wp_op_mono. intros a t' g'. by destruct a. Qed.

End wp.

(** ** The programs of the cache *)

Definition anything (e : exn) (t g : option text) : Prop := True.

(** One operation of a program, whose errors may be thrown. *)
Ltac wp_next := first [apply wp_bind | idtac]; apply wp_ask; (split; [by intros|]); cbn [wp].

Section copies.
Context (valid : text → Prop) (tmp tgt cf : text).
#[local] Abbreviation wp := (wp valid tmp tgt cf).

Lemma wp_fill (src dst : text) (c : text) (Q : unit → option text → option text → Prop) t g :
  dst = tmp ∧ Q tt (Some c) g ∨ dst = tgt ∧ Q tt t (Some c) →
  wp (do_unit (WriteFile dst []) ;;; do_unit (WriteFile dst c) ;;;
      let! m := do_mode (StatMode src) in do_unit (Chmod dst m))%prog Q anything t g.
Proof.
  intros [[-> HQ]|[-> HQ]].
  - wp_next. left. split_and!; [done| |done]. wp_next. left. split_and!; [done| |done].
    wp_next. intros m. wp_next. auto.
  - wp_next. right. split_and!; [done| |done]. wp_next. right. split_and!; [done| |done].
    wp_next. intros m. wp_next. auto.
Qed.

(** Pushing makes the copy from the target, retrieving from the cache. *)
Lemma wp_copy_in (Q : unit → option text → option text → Prop) t g :
  (∀ c, g = Some c → Q tt (Some c) g) → wp (copy2 tgt tmp) Q anything t g.
Proof. intros HQ. wp_next. left. split; [done|]. intros c Hc. apply wp_fill. auto. Qed.
Lemma wp_copy_out (Q : unit → option text → option text → Prop) t g :
  (∀ c, valid c → Q tt t (Some c)) → wp (copy2 cf tgt) Q anything t g.
Proof. intros HQ. wp_next. right. split; [done|]. intros c Hc. apply wp_fill. auto. Qed.
End copies.

Section programs.
Context (valid : text → Prop) (dir : text) (pid : nat) (t : cnode).

#[local] Abbreviation cf := (cachefile_in dir (c_bsig t)).
#[local] Abbreviation tgt := (c_path t).
#[local] Abbreviation tmp := (tempfile pid cf).
#[local] Abbreviation wp := (wp valid tmp tgt cf).

Lemma cachepath_enabled :
  cachepath (Some dir) true t = Some (cachedir_in dir (c_bsig t), cf).
Proof. reflexivity. Qed.

Lemma wp_make_cachedir d (Q : unit → option text → option text → Prop) o g :
  Q tt o g → wp (make_cachedir d) Q anything o g.
Proof.
  intros HQ. unfold make_cachedir. wp_next. intros [|]; [done|].
  apply wp_try, wp_ask. split; [|done]. intros _ e. cbv beta iota.
  destruct (is_EnvironmentError e); [|done].
  wp_next. by intros [|].
Qed.

Lemma wp_push_copy o g (Q : unit → option text → option text → Prop) :
  (∀ c, g = Some c → valid c) → (∀ o, Q tt o g) → wp (push_copy pid t cf) Q anything o g.
Proof.
  intros Hg HQ. unfold push_copy. wp_next. split; [by left|].
  apply wp_bind, wp_copy_in. intros c Hc. wp_next.
  split_and!; [done..| |]. { intros ? [= <-]. auto. }
  wp_next. intros m. wp_next. auto.
Qed.

Lemma wp_push o g :
  (∀ c, g = Some c → valid c) →
  wp (CachePushFunc (Some dir) true pid t) (λ _ _ _, True) anything o g.
Proof.
  intros Hg. unfold CachePushFunc. destruct (c_nocache t); [done|].
  rewrite cachepath_enabled. wp_next. intros [|]; [done|].
  apply wp_bind, wp_make_cachedir, wp_try.
  eapply wp_mono_exn, wp_push_copy; [|done|done].
  intros e o' g' _. destruct (is_EnvironmentError e); [|done]. by wp_next.
Qed.

(** A retrieval says 0 when the target holds what the cache had. *)
Lemma wp_retrieve execute o g :
  wp (CacheRetrieveFunc (Some dir) true execute t)
    (λ z _ g, z = 0%Z → execute = true → ∃ c, g = Some c ∧ valid c) anything o g.
Proof.
  unfold CacheRetrieveFunc. rewrite cachepath_enabled. wp_next. intros [|]; [|done].
  cbn [negb]. destruct execute; [|done].
  wp_next. split; [by right|].
  apply wp_bind, wp_copy_out. intros c Hc.
  wp_next. intros m. wp_next. split; [auto|]. intros _ _. by exists c.
Qed.
End programs.

(** ** The whole system *)

(** Every file of the cache is a regular file that is valid for its signature. *)
Definition cache_ok (valid : text → text → Prop) (dir : text) (s : cfs) : Prop :=
  ∀ sig, sig_ok sig →
    match files s !! cachefile_in dir sig with
    | None => True
    | Some (Reg c _) => valid sig c
    | Some (Link _) => False
    end.
Definition is_cachefile (dir p : text) : Prop := ∃ sig, sig_ok sig ∧ p = cachefile_in dir sig.

Section step.
Context (valid : text → text → Prop) (dir sig tmp tgt : text).
Hypothesis Hsig : sig_ok sig.
Hypotheses (Htmp : ¬ is_cachefile dir tmp) (Htgt : ¬ is_cachefile dir tgt) (Hne : tmp ≠ tgt).

#[local] Abbreviation cf := (cachefile_in dir sig).

(** What a process relies on, and what a step of it leaves alone. *)
Definition sees (s : cfs) (t g : option text) : Prop :=
  cache_ok valid dir s ∧ holds s tmp t ∧ holds s tgt g.
Definition leaves (s s' : cfs) : Prop :=
  ∀ p, p ≠ tmp → p ≠ tgt → ¬ is_cachefile dir p → files s' !! p = files s !! p.

Lemma cf_is : is_cachefile dir cf.
Proof. by exists sig. Qed.
Lemma holds_real s p o : holds s p o → real_path s p = Some p.
Proof.
  unfold real_path. generalize 40; intros n.
  destruct o as [c|]; [intros [m Hp]|intros Hp; cbn in Hp]; destruct n; cbn; by rewrite Hp.
Qed.
Lemma holds_file s p o f : holds s p o → files s !! p = Some f → ∃ c m, o = Some c ∧ f = Reg c m.
Proof. destruct o as [c|]; [intros [m Hp]|intros Hp; cbn in Hp]; rewrite Hp; naive_solver. Qed.
Lemma cache_holds s : cache_ok valid dir s → ∃ o, holds s cf o ∧ (∀ c, o = Some c → valid sig c).
Proof.
  intros Hs. specialize (Hs sig Hsig).
  destruct (files s !! cf) as [[c m|l]|] eqn:E; [|done|].
  - exists (Some c). split; [by exists m|]. by intros ? [= <-].
  - by exists None.
Qed.

(** Writing one of the three files. *)
Lemma holds_with s p q c m o :
  holds s p o → holds (with_file q (Reg c m) s) p (if decide (p = q) then Some c else o).
Proof.
  intros Hp. destruct (decide (p = q)) as [<-|Hpq].
  - exists m. apply lookup_insert_eq.
  - destruct o as [d|]; [destruct Hp as [m' Hp]; exists m'|]; cbn; by rewrite lookup_insert_ne.
Qed.
Lemma cache_ok_with s p c m :
  cache_ok valid dir s → (∀ sig', sig_ok sig' → p = cachefile_in dir sig' → valid sig' c) →
  cache_ok valid dir (with_file p (Reg c m) s).
Proof.
  intros Hs Hp sig' Hsig'. unfold with_file; cbn [files]. destruct (decide (p = cachefile_in dir sig')) as [E|E].
  - rewrite E, lookup_insert_eq. by apply Hp.
  - rewrite lookup_insert_ne by done. by apply Hs.
Qed.
Lemma sees_with_tmp s c m t g : sees s t g → sees (with_file tmp (Reg c m) s) (Some c) g.
Proof.
  intros (Hs & Ht & Hg). split_and!.
  - apply cache_ok_with; [done|]. intros sig' ? ->. destruct Htmp. by exists sig'.
  - apply (holds_with _ _ tmp c m) in Ht. by rewrite decide_True in Ht.
  - apply (holds_with _ _ tmp c m) in Hg. by rewrite decide_False in Hg.
Qed.
Lemma sees_with_tgt s c m t g : sees s t g → sees (with_file tgt (Reg c m) s) t (Some c).
Proof.
  intros (Hs & Ht & Hg). split_and!.
  - apply cache_ok_with; [done|]. intros sig' ? ->. destruct Htgt. by exists sig'.
  - apply (holds_with _ _ tgt c m) in Ht. by rewrite decide_False in Ht.
  - apply (holds_with _ _ tgt c m) in Hg. by rewrite decide_True in Hg.
Qed.
Lemma leaves_with s p f : p = tmp ∨ p = tgt ∨ p = cf → leaves s (with_file p f s).
Proof.
  intros Hp q Hq1 Hq2 Hq3. cbn. apply lookup_insert_ne.
  intros ->. destruct Hp as [->|[->| ->]]; try done. by destruct Hq3; apply cf_is.
Qed.
Lemma leaves_refl s : leaves s s.
Proof. done. Qed.

(** Renaming the temporary file into the cache. *)
Lemma rename_step s f t g :
  sees s t g → (∀ c, t = Some c → valid sig c) → files s !! tmp = Some f →
  sees (CFs (<[cf := f]> (delete tmp (files s))) (dirs s) (warnings s)) None g ∧
  leaves s (CFs (<[cf := f]> (delete tmp (files s))) (dirs s) (warnings s)).
Proof.
  intros (Hs & Ht & Hg) Hv Hf.
  assert (tmp ≠ cf) as Hcf by (intros E; apply Htmp; rewrite E; apply cf_is).
  assert (tgt ≠ cf) as Hcg by (intros E; apply Htgt; rewrite E; apply cf_is).
  destruct (holds_file _ _ _ _ Ht Hf) as (c & m & -> & ->).
  unfold sees, leaves, cache_ok. cbn [files].
  split_and!.
  - intros sig' Hsig'. destruct (decide (cf = cachefile_in dir sig')) as [E|E].
    + rewrite <- E, lookup_insert_eq. apply cachefile_inj in E as <-; auto.
    + rewrite lookup_insert_ne, lookup_delete_ne; [exact (Hs sig' Hsig')| |done].
      intros ->. apply Htmp. by exists sig'.
  - cbn. rewrite lookup_insert_ne by done. apply lookup_delete_eq.
  - destruct g as [c'|]; [destruct Hg as [m' Hg]; exists m'|]; cbn;
      by rewrite lookup_insert_ne, lookup_delete_ne.
  - intros p Hp1 Hp2 Hp3. rewrite lookup_insert_ne, lookup_delete_ne; [done..|].
    intros <-. apply Hp3, cf_is.
Qed.

(** Changing permissions. *)
Lemma chmod_step s p c m m' t g :
  sees s t g → p = tmp ∨ p = tgt ∨ p = cf → files s !! p = Some (Reg c m) →
  sees (with_file p (Reg c m') s) t g ∧ leaves s (with_file p (Reg c m') s).
Proof.
  intros Hs Hp Hf. split; [|by apply leaves_with].
  destruct Hp as [->|[->| ->]].
  - destruct (holds_file _ _ _ _ (proj1 (proj2 Hs)) Hf) as (d & ? & -> & [= -> ->]).
    by eapply sees_with_tmp.
  - destruct (holds_file _ _ _ _ (proj2 (proj2 Hs)) Hf) as (d & ? & -> & [= -> ->]).
    by eapply sees_with_tgt.
  - destruct Hs as (Hs & Ht & Hg). split_and!.
    + apply cache_ok_with; [done|]. intros sig' Hsig' E.
      specialize (Hs sig' Hsig'). by rewrite <- E, Hf in Hs.
    + apply (holds_with _ _ cf c m') in Ht. rewrite decide_False in Ht; [done|].
      intros E. apply Htmp. rewrite E. apply cf_is.
    + apply (holds_with _ _ cf c m') in Hg. rewrite decide_False in Hg; [done|].
      intros E. apply Htgt. rewrite E. apply cf_is.
Qed.

Lemma sees_real s t g p :
  sees s t g → p = tmp ∨ p = tgt ∨ p = cf → real_path s p = Some p.
Proof.
  intros (Hs & Ht & Hg) [->|[->| ->]]; [by eapply holds_real..|].
  destruct (cache_holds s Hs) as (o & Ho & _). by eapply holds_real.
Qed.

Lemma sees_file s t g p f :
  sees s t g → p = tmp ∨ p = tgt ∨ p = cf → files s !! p = Some f → ∃ c m, f = Reg c m.
Proof.
  intros (Hs & Ht & Hg) [->|[->| ->]] Hf.
  - destruct (holds_file _ _ _ _ Ht Hf) as (c & m & _ & ->). eauto.
  - destruct (holds_file _ _ _ _ Hg Hf) as (c & m & _ & ->). eauto.
  - destruct (cache_holds s Hs) as (o & Ho & _).
    destruct (holds_file _ _ _ _ Ho Hf) as (c & m & _ & ->). eauto.
Qed.

#[local] Opaque real_path parents os_path_split.
(** An operation that a program may do answers as it says. *)
Lemma op_run_wp o K s s' a t g :
  sees s t g → wp_op (valid sig) tmp tgt cf o K t g → op_run o s = (s', a) →
  ∃ t' g', K a t' g' ∧ sees s' t' g' ∧ leaves s s'.
Proof.
  intros Hs [Hfail Ho] Hrun.
  assert ((∃ e, a = AErr e) ∧ can_fail o = true ∧ s' = s ∨ (∀ e, a ≠ AErr e)) as [Herr|Hok].
  { destruct o; cbn in Hrun; repeat case_match; simplify_eq;
      first [by right | left; eauto]. }
  { destruct Herr as ([e ->] & Hc & ->). exists t, g. auto using leaves_refl. }
  destruct o as [p|p|p|p|p|p|p c|l p|p q|p|p m|]; cbv beta iota in Ho;
    cbn [op_run] in Hrun.
  - injection Hrun as <- <-. exists t, g. split_and!; [apply Ho|done|done].
  - injection Hrun as <- <-. exists t, g. split_and!; [apply Ho|done|done].
  - destruct Ho as [Hp HK]. injection Hrun as <- <-. exists t, g. split_and!; [|done|done].
    enough (match files s !! p with Some (Link _) => true | _ => false end = false) as -> by done.
    destruct (files s !! p) as [f|] eqn:Hf; [|done].
    assert (p = tmp ∨ p = tgt ∨ p = cf) as Hp' by tauto.
    by destruct (sees_file _ _ _ _ _ Hs Hp' Hf) as (c & m & ->).
  - destruct (_ || _); simplify_eq; [by destruct (Hok (os_error 17 "File exists"))|].
    exists t, g. done.
  - destruct Ho as [[-> Ho]|[-> Ho]]; rewrite (sees_real _ _ _ _ Hs) in Hrun by auto;
      cbn [mbind option_bind] in Hrun; injection Hrun as <- <-;
      destruct (files s !! _) as [[d0 m0|l0]|] eqn:H; try by edestruct Hok.
    + destruct (holds_file _ _ _ _ (proj2 (proj2 Hs)) H) as (d & m' & -> & [= <- <-]).
      exists t, (Some d0). auto using leaves_refl.
    + destruct (cache_holds s (proj1 Hs)) as (o & Hcf & Hv).
      destruct (holds_file _ _ _ _ Hcf H) as (d & m' & -> & [= <- <-]).
      exists t, g. auto using leaves_refl.
  - injection Hrun as <- <-.
    destruct (files s !! _) as [[d0 m0|l0]|] eqn:H; try by edestruct Hok.
    assert (p = tmp ∨ p = tgt ∨ p = cf) as Hp' by tauto.
    by destruct (sees_file _ _ _ _ _ Hs Hp' H) as (c & m & ?).
  - destruct Ho as [(-> & Ho & _)|(-> & Ho & _)]; rewrite (sees_real _ _ _ _ Hs) in Hrun by auto;
      (case_bool_decide; [|case_bool_decide]); injection Hrun as <- <-; try by edestruct Hok.
    + exists (Some c), g. split; [done|split].
      * by eapply sees_with_tmp.
      * apply leaves_with; auto.
    + exists t, (Some c). split; [done|split].
      * by eapply sees_with_tgt.
      * apply leaves_with; auto.
  - done.
  - destruct Ho as (-> & -> & Hv & HK). repeat case_match; simplify_eq; try by edestruct Hok.
    exists None, g. split; [done|]. by apply (rename_step s _ t).
  - repeat case_match; simplify_eq; try by edestruct Hok. exists t, g. split_and!; [apply Ho|done|done].
  - destruct Ho as (Hp & HK). rewrite (sees_real _ _ _ _ Hs Hp) in Hrun.
    repeat case_match; simplify_eq; try by edestruct Hok.
    exists t, g. split; [done|]. by eapply chmod_step.
  - injection Hrun as <- <-. exists t, g. done.
Qed.
End step.

Lemma op_step_wp valid dir sig tmp tgt o K s s' a t g :
  sig_ok sig → ¬ is_cachefile dir tmp → ¬ is_cachefile dir tgt → tmp ≠ tgt →
  sees valid dir tmp tgt s t g → wp_op (valid sig) tmp tgt (cachefile_in dir sig) o K t g →
  op_step o s s' a →
  ∃ t' g', K a t' g' ∧ sees valid dir tmp tgt s' t' g' ∧ leaves dir tmp tgt s s'.
Proof.
  intros Hsig Htmp Htgt Hne Hs Ho Hstep.
  destruct Hstep as [o s s' a Hrun|o s e Hfail|p c q c' m s e Hq Hc].
  - by eapply op_run_wp.
  - exists t, g. destruct Ho as [Hf _]. auto using leaves_refl.
  - destruct Ho as [_ [(-> & _ & Ho)|(-> & _ & Ho)]].
    + erewrite sees_real in Hq by eauto. injection Hq as <-. exists (Some c'), g.
      split; [done|split]; [by eapply sees_with_tmp|eapply leaves_with; eauto].
    + erewrite sees_real in Hq by eauto. injection Hq as <-. exists t, (Some c').
      split; [done|split]; [by eapply sees_with_tgt|eapply leaves_with; eauto].
Qed.

(** A process of a build: what it does, for which node. *)
Record process := Process { p_job : job; p_node : cnode; p_pid : nat; p_execute : bool }.
Definition p_tmp (dir : text) (k : process) : text :=
  tempfile (p_pid k) (cachefile_in dir (c_bsig (p_node k))).
Definition start (dir : text) (jobs : list process) : procs := λ i,
  match jobs !! i with
  | Some k => job_program dir (p_pid k) (p_execute k) (p_job k) (p_node k)
  | None => Ret None
  end.

(** A regular file whose contents satisfy [P], or nothing. *)
Definition regular (P : text → Prop) (s : cfs) (p : text) : Prop :=
  match files s !! p with Some (Reg c _) => P c | Some (Link _) => False | None => True end.

(** Processes that do not disturb one another: those of one machine have
    different numbers or are about different files, and no target is another's
    or in the cache. *)
Record separate (valid : text → text → Prop) (dir : text) (s : cfs) (jobs : list process)
    : Prop := {
  sep_sig k : k ∈ jobs → sig_ok (c_bsig (p_node k));
  sep_cache k : k ∈ jobs → ¬ is_cachefile dir (c_path (p_node k));
  sep_tmp k : k ∈ jobs → regular (λ _, True) s (p_tmp dir k);
  sep_target k : k ∈ jobs →
    regular (λ c, p_job k = Push → valid (c_bsig (p_node k)) c) s (c_path (p_node k));
  sep_target_tmp k k' : k ∈ jobs → k' ∈ jobs → c_path (p_node k) ≠ p_tmp dir k';
  sep_pair i j k k' : jobs !! i = Some k → jobs !! j = Some k' → i ≠ j →
    c_path (p_node k) ≠ c_path (p_node k') ∧
    (p_pid k ≠ p_pid k' ∨ c_bsig (p_node k) ≠ c_bsig (p_node k'))
}.

Section system.
Context (valid : text → text → Prop) (dir : text) (jobs : list process) (s0 : cfs).
Hypothesis Hsep : separate valid dir s0 jobs.

Definition p_post (k : process) (r : option Z) (t g : option text) : Prop :=
  p_job k = Retrieve → r = Some 0%Z → p_execute k = true →
  ∃ c, g = Some c ∧ valid (c_bsig (p_node k)) c.
Definition p_wp (k : process) (m : prog (option Z)) : option text → option text → Prop :=
  wp (valid (c_bsig (p_node k))) (p_tmp dir k) (c_path (p_node k))
    (cachefile_in dir (c_bsig (p_node k))) m (p_post k) anything.

Definition sys_inv (st : cfs * procs) : Prop :=
  cache_ok valid dir st.1 ∧
  (∀ i k, jobs !! i = Some k →
     ∃ t g, holds st.1 (p_tmp dir k) t ∧ holds st.1 (c_path (p_node k)) g ∧
            p_wp k (st.2 i) t g) ∧
  (∀ i, jobs !! i = None → st.2 i = Ret None).

Lemma tmp_not_cachefile k : k ∈ jobs → ¬ is_cachefile dir (p_tmp dir k).
Proof.
  intros Hk (sig & Hsig & E). eapply tempfile_not_cachefile, E; [|done].
  by eapply sep_sig.
Qed.
Lemma regular_holds P s p : regular P s p → ∃ o, holds s p o ∧ ∀ c, o = Some c → P c.
Proof.
  unfold regular. destruct (files s !! p) as [[c m|l]|] eqn:E; [|done|]; intros HP.
  - exists (Some c). split; [by exists m|]. by intros ? [= <-].
  - by exists None.
Qed.
Lemma job_wp k t g :
  (p_job k = Push → ∀ c, g = Some c → valid (c_bsig (p_node k)) c) →
  p_wp k (job_program dir (p_pid k) (p_execute k) (p_job k) (p_node k)) t g.
Proof.
  intros Hg. unfold p_wp, job_program, p_post. destruct (p_job k); apply wp_bind.
  - eapply wp_mono, wp_push; [|auto]. intros; cbn. done.
  - eapply wp_mono, wp_retrieve. intros z t' g' Hz. cbn. intros _ [= ->] He. auto.
Qed.
Lemma sys_inv_start : cache_ok valid dir s0 → sys_inv (s0, start dir jobs).
Proof.
  intros Hs. split_and!; [done| |]; cbn; unfold start.
  - intros i k Hk. rewrite Hk. apply list_elem_of_lookup_2 in Hk.
    destruct (regular_holds _ _ _ (sep_tmp _ _ _ _ Hsep k Hk)) as (t & Ht & _).
    destruct (regular_holds _ _ _ (sep_target _ _ _ _ Hsep k Hk)) as (g & Hg & Hv).
    exists t, g. split_and!; [done..|]. apply job_wp. auto.
  - intros i ->. done.
Qed.

(** A step of one process keeps what the others know. *)
Lemma leaves_other s s' i j k k' p :
  leaves dir (p_tmp dir k) (c_path (p_node k)) s s' → i ≠ j →
  jobs !! i = Some k → jobs !! j = Some k' → p = p_tmp dir k' ∨ p = c_path (p_node k') →
  files s' !! p = files s !! p.
Proof.
  intros Hl Hij Hk Hk' Hp.
  destruct (sep_pair _ _ _ _ Hsep _ _ _ _ Hk Hk' Hij) as [Hc Hpid].
  apply list_elem_of_lookup_2 in Hk, Hk'.
  destruct Hp as [->| ->]; apply Hl.
  - intros E. apply tempfile_inj in E as [E1 E2]; [|by eapply sep_sig..]. naive_solver.
  - intros E. symmetry in E. by eapply sep_target_tmp in E.
  - by apply tmp_not_cachefile.
  - by eapply sep_target_tmp.
  - congruence.
  - by eapply sep_cache.
Qed.
Lemma holds_same s s' p o : files s' !! p = files s !! p → holds s p o → holds s' p o.
Proof. intros E. destruct o; cbn; by rewrite E. Qed.

Lemma sys_inv_step st st' : sys_inv st → sys_step st st' → sys_inv st'.
Proof.
  intros (Hs & Hp & Hn) Hstep. destruct Hstep as [i o kont s s' a ps Hi Hstep].
  cbn [fst snd] in *.
  destruct (jobs !! i) as [k|] eqn:Hk; [|by rewrite Hn in Hi].
  destruct (Hp i k Hk) as (t & g & Ht & Hg & Hwp). unfold p_wp in Hwp. rewrite Hi in Hwp.
  cbn [wp] in Hwp.
  assert (k ∈ jobs) as Hin by by eapply list_elem_of_lookup_2.
  eapply op_step_wp in Hwp as (t' & g' & HK & (Hs' & Ht' & Hg') & Hl).
  7: exact Hstep.
  6: by split_and!.
  5: by intros E; symmetry in E; eapply sep_target_tmp in E.
  4: by eapply sep_cache.
  3: by apply tmp_not_cachefile.
  2: by eapply sep_sig.
  split_and!; [done| |]; cbn [fst snd]; unfold update.
  - intros j k' Hk'. destruct (decide (j = i)) as [->|Hji].
    + rewrite Hk in Hk'. injection Hk' as <-. by exists t', g'.
    + destruct (Hp j k' Hk') as (tj & gj & Htj & Hgj & Hwpj).
      exists tj, gj. split_and!; [| |done];
        (eapply holds_same; [|done]; eapply (leaves_other s s' i j k k'); auto).
  - intros j Hj. destruct (decide (j = i)) as [->|]; [congruence|auto].
Qed.
End system.

(** Runs in a given order, in which nothing fails. *)
Fixpoint sys_run (order : list nat) (st : cfs * procs) : cfs * procs :=
  match order with
  | [] => st
  | i :: order =>
      match st.2 i with
      | Do o k => let '(s, a) := op_run o st.1 in sys_run order (s, update i (k a) st.2)
      | _ => sys_run order st
      end
  end.
Lemma sys_run_steps order st : rtc sys_step st (sys_run order st).
Proof.
  revert st. induction order as [|i order IH]; intros [s ps]; cbn [sys_run fst snd]; [done|].
  destruct (ps i) as [?|?|o k] eqn:Hi; [apply IH..|].
  destruct (op_run o s) as [s' a] eqn:Ho.
  eapply rtc_l, IH. econstructor; [done|]. by constructor.
Qed.

(** C28: Any number of builds push to a cache and retrieve from it at the same
    time, apart as [separate] says: two that run have different process numbers or
    are about different signatures (two machines may give one number twice), no
    target is another's, in the cache or one of their temporary files, and targets
    and temporary files are no symbolic links or directories; the targets pushed,
    and the cache at the start, hold contents that are valid for their signatures.
    Whatever the order of their operations, and although each may stop
    for ever, fail or break off half written: every file of the cache holds, in
    full, contents that are valid for the signature it is named by, and a
    retrieval that says 0 has such contents in its target. *)
Theorem cache_files_whole (valid : text → text → Prop) (dir : text) (jobs : list process)
    (s0 s : cfs) (ps : procs)
    (Hsep : separate valid dir s0 jobs) (Hcache : cache_ok valid dir s0)
    (Hsteps : rtc sys_step (s0, start dir jobs) (s, ps)) :
  cache_ok valid dir s ∧
  ∀ i k, jobs !! i = Some k → p_job k = Retrieve → p_execute k = true →
    ps i = Ret (Some 0%Z) →
    ∃ c m, files s !! c_path (p_node k) = Some (Reg c m) ∧ valid (c_bsig (p_node k)) c.
Proof.
  assert (sys_inv valid dir jobs (s, ps)) as (Hs & Hp & _).
  { eapply (rtc_ind_r (sys_inv valid dir jobs)); [|intros; by eapply sys_inv_step|done].
    by eapply sys_inv_start. }
  split; [done|]. intros i k Hk Hj He Hr.
  destruct (Hp i k Hk) as (t & g & _ & Hg & Hwp). unfold p_wp in Hwp. cbn [fst snd] in *.
  rewrite Hr in Hwp. destruct (Hwp Hj eq_refl He) as (c & -> & Hv).
  destruct Hg as [m Hg]. eauto.
Qed.

Lemma short_not_cachefile (dir p : text) :
  length p ≠ length (os_path_join dir (T "0")) + 33 → ¬ is_cachefile dir p.
Proof.
  intros Hp (sig & Hsig & ->). apply Hp. destruct (cachefile_shape dir sig Hsig) as (d & -> & E).
  rewrite length_app, E. destruct Hsig as [-> _]. lia.
Qed.

(** *** A run of two builds *)

Module Two.
Definition sig : text := T "d41d8cd98f00b204e9800998ecf8427e".
Definition dir : text := T "/cache".
Definition pusher : process :=
  Process Push (CNode (T "/a/x.o") false sig) 7 true.
Definition retriever : process :=
  Process Retrieve (CNode (T "/b/x.o") false sig) 8 true.
Definition s0 : cfs :=
  CFs {[ T "/a/x.o" := Reg (T "object") 420 ]} {[ T "/"; T "/a"; T "/b"; T "/cache" ]} 0.
Definition valid (_ c : text) : Prop := c = T "object".
(** The retriever looks between the two operations that fill the temporary
    file, in vain, and another time after the renaming. *)
Definition order : list nat :=
  replicate 6 0 ++ [1].
Definition order' : list nat := replicate 20 0 ++ replicate 20 1.

Lemma in_two (P : process → Prop) : P pusher → P retriever → ∀ k, k ∈ [pusher; retriever] → P k.
Proof.
  intros H1 H2 k [->|Hk]%elem_of_cons; [done|].
  by apply elem_of_cons in Hk as [->|Hk]; [|apply elem_of_nil in Hk].
Qed.
Lemma sig_ok_two : sig_ok sig.
Proof. split; [done|]. repeat (constructor; [reflexivity|]). constructor. Qed.
Lemma separate_two : separate valid dir s0 [pusher; retriever].
Proof.
  constructor.
  - apply in_two; exact sig_ok_two.
  - apply in_two; by apply short_not_cachefile.
  - apply in_two; vm_compute; done.
  - apply in_two; vm_compute; done.
  - intros k k' Hk Hk'. revert k' Hk'. revert k Hk.
    refine (in_two _ _ _); refine (in_two _ _ _); done.
  - intros [|[|i]] [|[|j]] k k'; intros; simplify_eq/=; split; try (by left); done.
Qed.
Lemma cache_ok_two : cache_ok valid dir s0.
Proof.
  intros sig' Hsig'. cbn [s0 files]. rewrite lookup_singleton_ne; [done|].
  intros E. apply (short_not_cachefile dir (T "/a/x.o")); [done|]. by exists sig'.
Qed.
End Two.

Lemma cache_files_whole_witness :
  (sys_run Two.order (Two.s0, start Two.dir [Two.pusher; Two.retriever])).2 1 = Ret (Some 1%Z) ∧
  ∃ s ps m, ps 1 = Ret (Some 0%Z) ∧ cache_ok Two.valid Two.dir s ∧
    files s !! T "/b/x.o" = Some (Reg (T "object") m).
Proof.
  split; [vm_compute; reflexivity|].
  destruct (cache_files_whole Two.valid Two.dir [Two.pusher; Two.retriever] Two.s0
    (sys_run Two.order' (Two.s0, start Two.dir [Two.pusher; Two.retriever])).1
    (sys_run Two.order' (Two.s0, start Two.dir [Two.pusher; Two.retriever])).2) as [Hs Hr].
  - apply Two.separate_two.
  - apply Two.cache_ok_two.
  - rewrite <- surjective_pairing. apply sys_run_steps.
  - exists (sys_run Two.order' (Two.s0, start Two.dir [Two.pusher; Two.retriever])).1,
      (sys_run Two.order' (Two.s0, start Two.dir [Two.pusher; Two.retriever])).2.
    destruct (Hr 1 Two.retriever eq_refl eq_refl eq_refl) as (c & m & Hf & ->);
      [vm_compute; reflexivity|].
    exists m. split; [|split; [exact Hs|exact Hf]]. vm_compute; reflexivity.
Defined.

(** ** A build without execution *)

(** What [fs.exists] says. *)
Definition found_in (s : cfs) (p : text) : bool :=
  match op_run (Exists p) s with (_, ABool b) => b | _ => false end.

Lemma exists_run s p : op_run (Exists p) s = (s, ABool (found_in s p)).
Proof. reflexivity. Qed.
Lemma retrieve_func_dry dir t s :
  prun (CacheRetrieveFunc (Some dir) true false t) s =
  (s, Ok (if found_in s (cachefile_in dir (c_bsig t)) then 0%Z else 1%Z)).
Proof.
  unfold CacheRetrieveFunc. rewrite cachepath_enabled. unfold do_bool, ask. cbn [pbind prun].
  rewrite exists_run. by destruct (found_in _ _).
Qed.
Lemma retrieve_string dir t s :
  CacheRetrieveString (Some dir) true t s =
  Ok (if found_in s (cachefile_in dir (c_bsig t))
      then Some (T "Retrieved `" ++ c_path t ++ T "' from cache") else None).
Proof.
  unfold CacheRetrieveString. rewrite cachepath_enabled, exists_run. by destruct (found_in _ _).
Qed.

Lemma dry_execute dir pid node_of n s :
  let found := found_in (world s) (cachefile_in dir (c_bsig (node_of n))) in
  let _ := cache_world (Some dir) true pid false node_of in
  ∃ st, function_execute (Base 0 None (Some (Some 0)) None NoDir None) 0 None [n] [] s = (s, Ok st) ∧
        is_zero (apply_exitstatfunc id st) = found.
Proof.
  intros found inst. unfold function_execute, in_world. cbn [call_function inst cache_world].
  unfold on_target. cbn [all_targets]. rewrite retrieve_func_dry.
  destruct s as [w d o e]. cbn [world cwd out ENV] in *. unfold found. destruct (found_in _ _) eqn:E.
  - by exists (SInt 0).
  - unfold complete_error, ebind, look, lift_res. cbn [strfunction a_strfunction].
    unfold look, lift_res. cbn [call_strfunction inst cache_world world].
    rewrite retrieve_string, E. eexists. split; [reflexivity|done].
Qed.
Lemma dry_execute_in dir pid node_of n s :
  let found := found_in (world s) (cachefile_in dir (c_bsig (node_of n))) in
  let _ := cache_world (Some dir) true pid false node_of in
  ∃ st, execute_in None None id
          (function_execute (Base 0 None (Some (Some 0)) None NoDir None) 0 None [n] []) s =
        (s, Ok st) ∧ is_zero st = found.
Proof.
  intros found inst. destruct (dry_execute dir pid node_of n s) as (st & Hst & Hz).
  exists (apply_exitstatfunc id st). split; [|exact Hz].
  unfold execute_in, finally, ebind. cbn [enter eret]. cbv zeta in Hst. fold inst in Hst.
  by rewrite Hst.
Qed.

(** With [-n] a retrieval changes nothing: it says whether the file is in
    the cache, and says so to the user exactly if it is. *)
Theorem retrieve_without_execution (dir : text) (pid : nat) (node_of : nid → cnode)
    (env : aenv) (print_actions : bool) (show_build : nid → eff (astate cfs) fexn unit)
    (n : nid) (s : astate cfs) :
  let t := node_of n in
  let found := found_in (world s) (cachefile_in dir (c_bsig t)) in
  let line := T "Retrieved `" ++ c_path t ++ T "' from cache" in
  retrieve (Some dir) true false pid false node_of env print_actions false show_build n s =
  (AState (world s) (cwd s)
     (out s ++
      if print_actions && found then
        match PRINT_CMD_LINE_FUNC env with
        | Some _ => [line]
        | None => [line ++ ["010"%char]]
        end
      else []) (ENV s),
   Ok found).
Proof.
  intros t found line. destruct s as [w d o e]. cbn [world cwd out ENV] in *.
  assert (∃ l, line = "R"%char :: l) as [l Hl] by (eexists; reflexivity).
  unfold retrieve, run_action. cbn [negb is_enabled]. unfold ebind at 1.
  set (inst := cache_world (Some dir) true pid false node_of).
  assert (∀ o, ∃ st, execute_in None None id (function_execute (Base 0 None (Some (Some 0)) None
            NoDir None) 0 None [n] []) (AState w d o e) = (AState w d o e, Ok st) ∧
          is_zero st = found) as Hx by (intros; apply dry_execute_in).
  assert (call_strfunction (ActionWorld := inst) 0 [n] [] w =
          Ok (if found then Some line else None)) as Hstr by apply retrieve_string.
  assert (∀ f c, format_line (ActionWorld := inst) f c = [c]) as Hline by done.
  clearbody inst line found. subst line.
  cbn [call_action CacheRetrieve]. unfold leaf_call.
  #[local] Opaque execute_in function_execute.
  cbn. unfold write, ebind, strfunction, look, lift_res. cbn.
  destruct print_actions; cbn; rewrite ?Hstr.
  - destruct found; cbn; edestruct Hx as (st & -> & Hz); cbn; rewrite Hz.
    + destruct (PRINT_CMD_LINE_FUNC env); by rewrite ?Hline.
    + by rewrite app_nil_r.
  - edestruct Hx as (st & -> & Hz); cbn; by rewrite Hz, app_nil_r.
Qed.
