(* ===== verification/CacheTrip.v ===== *)
(** * What is pushed to the cache can be retrieved

    A build alone: after a push of a regular file a retrieval under the same
    signature gives the contents and the permissions back.  And what the
    functions do in cases their comments do not mention. *)

From S2P Require Import Prelude Errors PyStr FSTree FSTreeFacts FSVariant Subst Action.
From S2P Require Import CacheDir CacheDirFacts.
Open Scope nat_scope.

(** ** Directories of paths *)

Lemma dirname_slash (a w : text) (c : ascii) :
  last a = Some c → c ≠ "/"%char → "/"%char ∉ w → dirname (a ++ T "/" ++ w) = a.
Proof.
  intros Ha Hc Hw. unfold dirname, os_path_split. change (T "/" ++ w) with ("/"%char :: w).
  rewrite rfind_last by done.
  replace (Z.to_nat (Z.of_nat (length a) + 1)) with (length a + 1) by lia.
  rewrite take_app_add. simpl. rewrite take_0.
  apply last_Some in Ha as [b ->]. rewrite decide_False.
  - rewrite rstrip_slash_slash. by apply rstrip_slash_app.
  - intros E. apply Hc. assert (c ∈ (b ++ [c]) ++ ["/"%char]) as Hin.
    { rewrite !elem_of_app. left. right. by left. }
    rewrite E in Hin. by apply elem_of_replicate in Hin as [-> _].
Qed.

Lemma hex_no_slash sig : sig_ok sig → "/"%char ∉ sig.
Proof.
  intros [_ Hh] Hin. rewrite Forall_forall in Hh. by specialize (Hh _ Hin).
Qed.
Lemma pretty_go_no_slash (x : N) (s : string) :
  "/"%char ∉ String.list_ascii_of_string s →
  "/"%char ∉ String.list_ascii_of_string (pretty_N_go x s).
Proof.
  revert s. induction (N.lt_wf_0 x) as [x _ IH]; intros s Hs.
  destruct (decide (x = 0)%N) as [->|Hx]; [by rewrite pretty_N_go_0|].
  rewrite pretty_N_go_step by lia. apply IH; [by apply N.div_lt; lia|].
  cbn. intros [E|Hin]%elem_of_cons; [|done].
  revert E. unfold pretty_N_char. by repeat case_match.
Qed.
Lemma pretty_no_slash (n : nat) : "/"%char ∉ String.list_ascii_of_string (pretty n).
Proof.
  unfold pretty, pretty_nat, pretty, pretty_N. case_decide; [|apply pretty_go_no_slash].
  - cbn. by intros [?|?%elem_of_nil]%elem_of_cons.
  - apply not_elem_of_nil.
Qed.

Lemma dirname_cachefile dir sig : sig_ok sig → dirname (cachefile_in dir sig) = cachedir_in dir sig.
Proof.
  intros Hsig. destruct (cachefile_dir dir sig Hsig) as (-> & (u & Hu & Hne) & _).
  by eapply dirname_slash, hex_no_slash.
Qed.
Lemma dirname_tempfile dir sig pid :
  sig_ok sig → dirname (tempfile pid (cachefile_in dir sig)) = cachedir_in dir sig.
Proof.
  intros Hsig. destruct (cachefile_dir dir sig Hsig) as (-> & (u & Hu & Hne) & _).
  unfold tempfile. rewrite <- !app_assoc. eapply dirname_slash; [done..|].
  rewrite !elem_of_app. intros [H|[H|H]].
  - by apply (hex_no_slash sig).
  - by apply (bool_decide_pack _) in H.
  - by apply (pretty_no_slash pid).
Qed.

(** ** Operations on what is no link *)

Definition no_link (s : cfs) (p : text) : Prop :=
  match files s !! p with Some (Link _) => False | _ => True end.

Lemma no_link_real s p : no_link s p → real_path s p = Some p.
Proof.
  unfold no_link. intros Hp. destruct (files s !! p) as [[c m|l]|] eqn:E; [|done|].
  - apply (holds_real s p (Some c)). by exists m.
  - by apply (holds_real s p None).
Qed.
Lemma no_link_reg s p c m : files s !! p = Some (Reg c m) → no_link s p.
Proof. intros Hp. unfold no_link. by rewrite Hp. Qed.
Lemma no_link_none s p : files s !! p = None → no_link s p.
Proof. intros Hp. unfold no_link. by rewrite Hp. Qed.

#[local] Opaque real_path parents.

Lemma run_exists_none s p :
  files s !! p = None → p ∉ dirs s → op_run (Exists p) s = (s, ABool false).
Proof.
  intros Hp Hd. cbn. rewrite no_link_real by by apply no_link_none.
  by rewrite Hp, (bool_decide_eq_false_2 (p ∈ dirs s)).
Qed.
Lemma run_exists_reg s p c m :
  files s !! p = Some (Reg c m) → op_run (Exists p) s = (s, ABool true).
Proof.
  intros Hp. cbn. rewrite no_link_real by by eapply no_link_reg. by rewrite Hp.
Qed.
Lemma run_isdir s p :
  no_link s p → op_run (IsDir p) s = (s, ABool (bool_decide (p ∈ dirs s))).
Proof. intros Hp. cbn. by rewrite no_link_real. Qed.
Lemma run_islink s p : no_link s p → op_run (IsLink p) s = (s, ABool false).
Proof. unfold no_link. intros Hp. cbn. by destruct (files s !! p) as [[]|]. Qed.
Lemma run_read s p c m : files s !! p = Some (Reg c m) → op_run (ReadFile p) s = (s, AText c).
Proof. intros Hp. cbn. rewrite no_link_real by by eapply no_link_reg. cbn. by rewrite Hp. Qed.
Lemma run_stat s p c m : files s !! p = Some (Reg c m) → op_run (StatMode p) s = (s, AMode m).
Proof. intros Hp. cbn. rewrite no_link_real by by eapply no_link_reg. cbn. by rewrite Hp. Qed.
Lemma run_chmod s p c m m' :
  files s !! p = Some (Reg c m) → op_run (Chmod p m') s = (with_file p (Reg c m') s, AUnit).
Proof. intros Hp. cbn. rewrite no_link_real by by eapply no_link_reg. by rewrite Hp. Qed.
Lemma run_write s p c :
  no_link s p → p ∉ dirs s → dirname p ∈ dirs s →
  ∃ m, (op_run (WriteFile p c) s) = (with_file p (Reg c m) s, AUnit).
Proof.
  intros Hp Hd Hn. cbn. rewrite no_link_real by done.
  rewrite bool_decide_eq_false_2, bool_decide_eq_true_2 by done. eauto.
Qed.
Lemma run_rename s p q f :
  files s !! p = Some f → q ∉ dirs s →
  op_run (Rename p q) s = (CFs (<[q := f]> (delete p (files s))) (dirs s) (warnings s), AUnit).
Proof. intros Hp Hq. cbn. by rewrite Hp, bool_decide_eq_false_2. Qed.

Lemma prun_bind {A B} (m : prog A) (k : A → prog B) s s' a :
  prun m s = (s', Ok a) → prun (pbind m k) s = prun (k a) s'.
Proof.
  revert s. induction m as [b|e|o m IH]; intros s; cbn [pbind prun].
  - by intros [= -> ->].
  - done.
  - destruct (op_run o s) as [s1 x]. apply IH.
Qed.
Lemma prun_try {A} (m h : prog A) s s' a :
  prun m s = (s', Ok a) → prun (ptry m h) s = (s', Ok a).
Proof.
  revert s. induction m as [b|e|o k IH]; intros s; cbn [ptry prun]; [done|done|].
  destruct (op_run o s) as [s1 x]. apply IH.
Qed.

(** [copy2] of a regular file. *)
Lemma run_copy2 {A} (src dst c : text) (m : Z) (k : unit → prog A) s :
  files s !! src = Some (Reg c m) → src ≠ dst → no_link s dst → dst ∉ dirs s →
  dirname dst ∈ dirs s →
  prun (pbind (copy2 src dst) k) s = prun (k tt) (with_file dst (Reg c m) s).
Proof.
  intros Hs Hne Hl Hd Hn. unfold copy2, do_text, do_unit, do_mode, ask. cbn [pbind prun].
  rewrite (run_read _ _ _ _ Hs). cbn [pbind prun].
  destruct (run_write s dst [] Hl Hd Hn) as [m1 ->]. cbn [pbind prun].
  destruct (run_write (with_file dst (Reg [] m1) s) dst c) as [m2 ->];
    [unfold no_link; cbn; by rewrite lookup_insert_eq|done..|].
  cbn [pbind prun]. erewrite run_stat; [|cbn; rewrite !lookup_insert_ne by done; exact Hs].
  cbn [pbind prun]. erewrite run_chmod; [|cbn; apply lookup_insert_eq]. cbn [pbind prun].
  unfold with_file. cbn [files dirs warnings]. by rewrite !insert_insert_eq.
Qed.

(** ** Directories that are made *)

Lemma span_snd_length (f : ascii → bool) (l : text) : length (span f l).2 ≤ length l.
Proof.
  pose proof (span_split f l) as E. destruct (span f l) as [a b]. cbn [snd].
  rewrite E, length_app. lia.
Qed.
Lemma dirname_length p : length (dirname p) ≤ length p.
Proof.
  unfold dirname, os_path_split. cbn [fst]. set (i := Z.to_nat _).
  assert (length (take i p) ≤ length p) by (rewrite length_take; lia).
  case_decide; [done|]. unfold rstrip_slash. rewrite length_rev.
  etrans; [apply span_snd_length|]. by rewrite length_rev.
Qed.
Lemma parents_length n p q : q ∈ parents n p → length q ≤ length p.
Proof.
  revert p. induction n as [|n IH]; intros p; cbn [parents].
  - by intros ->%elem_of_singleton.
  - intros [->%elem_of_singleton|Hq%IH]%elem_of_union; [done|].
    pose proof (dirname_length p). lia.
Qed.
Lemma parents_self n p : p ∈ parents n p.
Proof. destruct n; cbn [parents]; set_solver. Qed.

Lemma run_make_cachedir (d : text) s :
  files s !! d = None →
  ∃ D, D ⊆ parents (length d) d ∧ d ∈ dirs s ∪ D ∧
    prun (make_cachedir d) s = (CFs (files s) (dirs s ∪ D) (warnings s), Ok tt).
Proof.
  intros Hd. unfold make_cachedir, do_bool, do_unit, ask. cbn [pbind prun].
  rewrite run_isdir by by apply no_link_none. cbn [pbind prun].
  destruct (decide (d ∈ dirs s)) as [Hin|Hin].
  - rewrite bool_decide_eq_true_2 by done. exists ∅. split; [set_solver|]. split; [set_solver|].
    cbn [pbind prun]. rewrite union_empty_r_L. by destruct s.
  - rewrite bool_decide_eq_false_2 by done. exists (parents (length d) d). split; [done|].
    split; [apply elem_of_union; right; apply parents_self|].
    cbn [ptry pbind prun op_run]. rewrite Hd, !bool_decide_eq_false_2; [done|by intros [? ?]|done].
Qed.

Lemma writable_idem m : writable (writable m) = writable m.
Proof.
  unfold writable. apply Z.bits_inj'. intros n Hn.
  rewrite !Z.lor_spec, !Z.land_spec, !Z.lor_spec, !Z.land_spec.
  destruct (Z.testbit m n), (Z.testbit 4095 n) eqn:E, (Z.testbit 128 n) eqn:E'; try done.
Qed.

(** ** Pushing and retrieving *)

(** What a push and a retrieval need: the source is a regular file; the cache
    does not have the file, and nothing is in the way of the directory, of the
    temporary file and of the target. *)
Record trip (dir : text) (pid : nat) (t t' : cnode) (c : text) (m : Z) (s : cfs) : Prop := {
  trip_sig : sig_ok (c_bsig t);
  trip_same : c_bsig t' = c_bsig t;
  trip_nocache : c_nocache t = false;
  trip_source : files s !! c_path t = Some (Reg c m);
  trip_source_tmp : c_path t ≠ tempfile pid (cachefile_in dir (c_bsig t));
  trip_cachedir : files s !! cachedir_in dir (c_bsig t) = None;
  trip_cachefile : files s !! cachefile_in dir (c_bsig t) = None;
  trip_cachefile_dir : cachefile_in dir (c_bsig t) ∉ dirs s;
  trip_tmp : no_link s (tempfile pid (cachefile_in dir (c_bsig t)));
  trip_tmp_dir : tempfile pid (cachefile_in dir (c_bsig t)) ∉ dirs s;
  trip_target : no_link s (c_path t');
  trip_target_dir : (c_path t' ∉ dirs s) ∧
    c_path t' ∉ parents (length (cachedir_in dir (c_bsig t))) (cachedir_in dir (c_bsig t));
  trip_target_parent : dirname (c_path t') ∈ dirs s;
  trip_target_cache : c_path t' ≠ cachefile_in dir (c_bsig t);
  trip_target_tmp : c_path t' ≠ tempfile pid (cachefile_in dir (c_bsig t))
}.

Section trip.
Context (dir : text) (pid : nat) (t t' : cnode) (c : text) (m : Z) (s : cfs).
Hypothesis Ht : trip dir pid t t' c m s.
#[local] Abbreviation cf := (cachefile_in dir (c_bsig t)).
#[local] Abbreviation tmp := (tempfile pid cf).
#[local] Abbreviation d := (cachedir_in dir (c_bsig t)).

Lemma cf_tmp : cf ≠ tmp.
Proof. intros E. symmetry in E. by eapply tempfile_not_cachefile in E; eauto using trip_sig. Qed.
Lemma cf_longer : length d < length cf.
Proof.
  destruct (cachefile_dir dir (c_bsig t) (trip_sig _ _ _ _ _ _ _ Ht)) as (-> & _ & _).
  rewrite length_app. cbn. lia.
Qed.
Lemma not_made D p : D ⊆ parents (length d) d → length cf ≤ length p → p ∉ D.
Proof.
  intros HD Hp Hin%HD%parents_length. pose proof cf_longer. lia.
Qed.
Lemma source_not_cf : c_path t ≠ cf.
Proof.
  intros E. pose proof (trip_source _ _ _ _ _ _ _ Ht) as Hs.
  by rewrite E, (trip_cachefile _ _ _ _ _ _ _ Ht) in Hs.
Qed.

(** The push leaves the file in the cache, writable, and the rest alone. *)
Lemma push_result : ∃ s1,
  prun (CachePushFunc (Some dir) true pid t) s = (s1, Ok tt) ∧
  warnings s1 = warnings s ∧
  files s1 !! cf = Some (Reg c (writable m)) ∧
  (∀ p, p ≠ cf → p ≠ tmp → files s1 !! p = files s !! p) ∧
  ((c_path t' ∉ dirs s1) ∧ dirname (c_path t') ∈ dirs s1).
Proof.
  pose proof source_not_cf as Hscf. pose proof cf_tmp as Hct. destruct Ht.
  unfold CachePushFunc. rewrite trip_nocache0, cachepath_enabled. unfold do_bool, ask.
  cbn [pbind prun]. rewrite run_exists_none by done. cbn [pbind prun].
  destruct (run_make_cachedir d s) as (D & HD & Hd & HM); [done|].
  rewrite (prun_bind _ _ _ _ _ HM).
  set (s' := CFs (files s) (dirs s ∪ D) (warnings s)).
  assert (∀ p, length cf ≤ length p → p ∉ dirs s → p ∉ dirs s') as Hnd.
  { intros p Hp Hps. cbn. rewrite not_elem_of_union. split; [done|]. by eapply not_made. }
  eexists. split.
  - apply prun_try. unfold push_copy, do_bool, do_text, do_unit, do_mode, ask. cbn [pbind prun].
    rewrite run_islink by (by eapply no_link_reg). cbn [pbind prun].
    rewrite (run_copy2 _ _ c m); [|done..| |].
    2: { apply Hnd; [|done]. unfold tempfile. rewrite length_app. lia. }
    2: { by rewrite dirname_tempfile. }
    cbn [pbind prun]. erewrite run_rename; [|apply lookup_insert_eq|].
    2: { by apply Hnd. }
    cbn [pbind prun]. erewrite run_stat.
    2: { cbn. rewrite lookup_insert_ne, lookup_delete_ne, lookup_insert_ne by done. exact trip_source0. }
    cbn [pbind prun]. erewrite run_chmod; [|apply lookup_insert_eq]. cbn [pbind prun].
    reflexivity.
  - cbn [files with_file dirs warnings s']. split; [done|]. split; [apply lookup_insert_eq|].
    split.
    + intros p Hp1 Hp2. rewrite !lookup_insert_ne, lookup_delete_ne, lookup_insert_ne by done. done.
    + set_solver.
Qed.

Lemma retrieve_result s1 :
  files s1 !! cf = Some (Reg c (writable m)) → no_link s1 (c_path t') → c_path t' ∉ dirs s1 →
  dirname (c_path t') ∈ dirs s1 →
  prun (CacheRetrieveFunc (Some dir) true true t') s1 =
  (with_file (c_path t') (Reg c (writable m)) s1, Ok 0%Z).
Proof.
  intros Hcf Hl Hd Hn. destruct Ht.
  unfold CacheRetrieveFunc. rewrite cachepath_enabled, trip_same0.
  unfold do_bool, do_text, do_unit, do_mode, ask. cbn [pbind prun].
  erewrite run_exists_reg by done. cbn [negb pbind prun].
  rewrite run_islink by (by eapply no_link_reg). cbn [pbind prun].
  rewrite (run_copy2 _ _ c (writable m)) by done. cbn [pbind prun].
  erewrite run_stat; [|cbn; by rewrite lookup_insert_ne].
  cbn [pbind prun]. erewrite run_chmod; [|apply lookup_insert_eq]. cbn [pbind prun].
  unfold with_file. cbn [files dirs warnings]. by rewrite insert_insert_eq, writable_idem.
Qed.
End trip.

(** A build pushes a file to the cache and, later, one retrieves it under
    the same signature: the push warns of nothing and changes nothing but the
    cache, the retrieval says 0, and the target has the contents that were
    pushed, writable. *)
Theorem push_then_retrieve (dir : text) (pid : nat) (t t' : cnode) (c : text) (m : Z) (s : cfs)
    (Ht : trip dir pid t t' c m s) :
  let cf := cachefile_in dir (c_bsig t) in
  ∃ s1, prun (CachePushFunc (Some dir) true pid t) s = (s1, Ok tt) ∧
    warnings s1 = warnings s ∧
    (∀ p, p ≠ cf → p ≠ tempfile pid cf → files s1 !! p = files s !! p) ∧
    ∃ s2, prun (CacheRetrieveFunc (Some dir) true true t') s1 = (s2, Ok 0%Z) ∧
      files s2 !! c_path t' = Some (Reg c (writable m)) ∧
      (∀ p, p ≠ c_path t' → files s2 !! p = files s1 !! p).
Proof.
  intros cf. destruct (push_result dir pid t t' c m s Ht) as (s1 & Hp & Hw & Hc & Hs & Hd & Hn).
  exists s1. split_and!; [done..|].
  eexists. rewrite (retrieve_result dir pid t t' c m s Ht s1); [|done| |done|done].
  - split_and!; [done|apply lookup_insert_eq|]. intros p Hp'. by apply lookup_insert_ne.
  - unfold no_link. rewrite Hs; [|by eapply trip_target_cache|by eapply trip_target_tmp].
    by eapply trip_target.
Qed.

Lemma push_then_retrieve_witness :
  trip Two.dir 7 (p_node Two.pusher) (p_node Two.retriever) (T "object") 292
    (with_file (T "/a/x.o") (Reg (T "object") 292) Two.s0) ∧
  ∃ s, files s !! T "/b/x.o" = Some (Reg (T "object") 420).
Proof.
  assert (trip Two.dir 7 (p_node Two.pusher) (p_node Two.retriever) (T "object") 292
            (with_file (T "/a/x.o") (Reg (T "object") 292) Two.s0)) as Ht.
  { constructor; [exact Two.sig_ok_two|reflexivity|reflexivity|vm_compute; reflexivity|done|
      vm_compute; reflexivity|vm_compute; reflexivity| |exact I| |exact I|split| | |];
      apply (bool_decide_unpack _); vm_compute; exact I. }
  split; [exact Ht|].
  destruct (push_then_retrieve _ _ _ _ _ _ _ Ht) as (s1 & _ & _ & _ & s2 & _ & Hf & _).
  exists s2. exact Hf.
Defined.

(** ** Two pushes that share a temporary file *)

(** Two machines that share the cache may run builds under one process number:
    then one renames the temporary file that the other has just emptied, and a
    retrieval gets nothing of the file, and says 0. *)
Lemma same_number_half_written :
  ∃ order m,
    let st := sys_run order (Two.s0, start Two.dir [Two.pusher;
      Process Push (CNode (T "/a/x.o") false Two.sig) 7 true; Two.retriever]) in
    st.2 2 = Ret (Some 0%Z) ∧ files st.1 !! T "/b/x.o" = Some (Reg [] m).
Proof.
  exists (replicate 9 0 ++ replicate 5 1 ++ [0] ++ replicate 10 2), 420%Z.
  split; vm_compute; reflexivity.
Qed.

(** ** A cache directory that cannot be made *)

Definition blocked : cfs :=
  with_file (cachedir_in Two.dir Two.sig) (Reg [] 420) Two.s0.
(** The error that is raised is not the one which the action takes for a
    status: the push fails, with a [BuildError]. *)
Lemma blocked_push_fails (env : aenv) (s : astate cfs) :
  world s = blocked →
  ∃ b, (push (Some Two.dir) true 7 true (λ _, p_node Two.pusher) env false false 0 s).2 =
       Raise (Some (ExBuildError b)).
Proof.
  destruct s as [w d o e]. cbn [world]. intros ->. eexists. vm_compute. reflexivity.
Qed.
