(* ===== verification/Env.v ===== *)
(** * Construction environments ([SCons/Environment.py])

    Construction variables in a store of shared objects: lists, [CLVar]s and
    dictionaries are references, so that what [Append] and its relatives change
    in place, and what [Clone] and [Override] share, is visible.  Lists and
    dictionaries of the classes [UserList] and [UserDict] are taken for
    instances of classic classes, which [semi_deepcopy] copies.  The attributes
    that builders become, and those methods that only pass on to other
    components, are not modelled. *)

From S2P Require Import Prelude Errors PyStr Subst.
Open Scope nat_scope.

(** ** Objects *)

(** [PObj] is any object without the methods of lists and dictionaries: nodes,
    builders, scanners, functions. *)
Inductive pval :=
| PStr (s : text)
| PInt (z : Z)
| PNone
| PTuple (l : list pval)
| PRef (r : nat)
| PObj (o : nat).

Inductive lclass := PlainList | CLVar.

(** A [BuilderDict] of an environment holds builders. *)
Inductive obj :=
| OList (c : lclass) (l : list pval)
| ODict (d : list (pval * pval))
| OBuilders (env : nat) (d : list (pval * nat)).

(** An environment: a [Base], or an [OverrideEnvironment] around another. *)
Inductive envref := EBase (b : nat) | EOver (o : nat) (subject : envref).

(** [_dict] and [_memo['_gsm']] of the environments, and the dictionaries of
    overrides. *)
Record pst := PSt {
  objs : gmap nat obj;
  onext : nat;
  bases : gmap nat (gmap text pval);
  overs : gmap nat (gmap text pval);
  gsm : gmap nat (gmap text pval);
  enext : nat;
  warned : list text
}.
Abbreviation pm := (eff pst exn).

(** *** Equality of values that are no references *)

Fixpoint pval_eqb (v w : pval) : bool :=
  match v, w with
  | PStr a, PStr b => bool_decide (a = b)
  | PInt a, PInt b => bool_decide (a = b)
  | PNone, PNone => true
  | PTuple l, PTuple k =>
      (fix eqb l k := match l, k with
                      | [], [] => true
                      | x :: l, y :: k => pval_eqb x y && eqb l k
                      | _, _ => false
                      end) l k
  | PRef a, PRef b => bool_decide (a = b)
  | PObj a, PObj b => bool_decide (a = b)
  | _, _ => false
  end.
(** Values without a hash raise a [TypeError] where one is needed. *)
Fixpoint hashable (v : pval) : bool :=
  match v with
  | PRef _ => false
  | PTuple l => (fix all l := match l with [] => true | x :: l => hashable x && all l end) l
  | _ => true
  end.

(** *** The store *)

Definition TypeError : exn := ExOther "TypeError" "".
Definition AttributeError : exn := ExOther "AttributeError" "".
Definition ValueError : exn := ExOther "ValueError" "".
Definition KeyError : exn := ExOther "KeyError" "".
Definition RuntimeError : exn := ExOther "RuntimeError" "maximum recursion depth exceeded".
Definition is_class (c : string) (e : exn) : bool := bool_decide (class_name e = c).

Definition with_objs (f : gmap nat obj → gmap nat obj) (s : pst) : pst :=
  PSt (f (objs s)) (onext s) (bases s) (overs s) (gsm s) (enext s) (warned s).
Definition with_bases (f : gmap nat (gmap text pval) → gmap nat (gmap text pval)) (s : pst) : pst :=
  PSt (objs s) (onext s) (f (bases s)) (overs s) (gsm s) (enext s) (warned s).
Definition with_overs (f : gmap nat (gmap text pval) → gmap nat (gmap text pval)) (s : pst) : pst :=
  PSt (objs s) (onext s) (bases s) (f (overs s)) (gsm s) (enext s) (warned s).
Definition with_gsm (f : gmap nat (gmap text pval) → gmap nat (gmap text pval)) (s : pst) : pst :=
  PSt (objs s) (onext s) (bases s) (overs s) (f (gsm s)) (enext s) (warned s).

Definition alloc (o : obj) : pm pval := λ s,
  (PSt (<[onext s := o]> (objs s)) (S (onext s)) (bases s) (overs s) (gsm s) (enext s) (warned s),
   Ok (PRef (onext s))).
Definition put (r : nat) (o : obj) : pm unit := emod (with_objs (insert r o)).
Definition warn (k : text) : pm unit := emod (λ s,
  PSt (objs s) (onext s) (bases s) (overs s) (gsm s) (enext s) (warned s ++ [k])).
Definition new_env : pm nat := λ s,
  (PSt (objs s) (onext s) (bases s) (overs s) (gsm s) (S (enext s)) (warned s), Ok (enext s)).

Definition obj_of (v : pval) (s : pst) : option obj :=
  match v with PRef r => objs s !! r | _ => None end.
Definition is_List (v : pval) (s : pst) : bool :=
  match obj_of v s with Some (OList _ _) => true | _ => false end.
Definition is_Dict (v : pval) (s : pst) : bool :=
  match obj_of v s with Some (ODict _) | Some (OBuilders _ _) => true | _ => false end.
Definition is_String (v : pval) : bool := match v with PStr _ => true | _ => false end.
(** The items of a list, a tuple or a [UserList] ([is_Sequence]). *)
Definition seq_items (v : pval) (s : pst) : option (list pval) :=
  match v, obj_of v s with
  | PTuple l, _ | _, Some (OList _ l) => Some l
  | _, _ => None
  end.
Definition builder_items (d : list (pval * nat)) : list (pval * pval) :=
  map (λ '(k, b), (k, PObj b)) d.
Definition dict_items (v : pval) (s : pst) : option (list (pval * pval)) :=
  match obj_of v s with
  | Some (ODict d) => Some d
  | Some (OBuilders _ d) => Some (builder_items d)
  | _ => None
  end.
(** [if v] *)
Definition truthy (v : pval) (s : pst) : bool :=
  match v with
  | PStr t => negb (bool_decide (t = []))
  | PInt z => negb (z =? 0)%Z
  | PNone => false
  | PTuple l => negb (bool_decide (length l = 0))
  | PObj _ => true
  | PRef _ =>
      match obj_of v s with
      | Some (OList _ l) => negb (bool_decide (length l = 0))
      | Some (ODict d) => negb (bool_decide (length d = 0))
      | Some (OBuilders _ d) => negb (bool_decide (length d = 0))
      | None => true
      end
  end.

(** ** Operations of Python on the store *)

(** [list.append], [list.insert(0, ...)], [list.reverse]: [AttributeError]
    where there is no such method. *)
Definition on_list (v : pval) (f : list pval → list pval) : pm unit := λ s,
  match v, obj_of v s with
  | PRef r, Some (OList c l) => put r (OList c (f l)) s
  | _, _ => (s, Raise AttributeError)
  end.
Definition list_append (v x : pval) : pm unit := on_list v (λ l, l ++ [x]).
Definition list_insert0 (v x : pval) : pm unit := on_list v (λ l, x :: l).
Definition list_reverse (v : pval) : pm unit := on_list v (λ l, rev l).

(** [Split] and [CLVar(v).data] *)
Definition clvar_items (v : pval) (s : pst) : list pval :=
  match v with
  | PStr t => map PStr (split_ws t)
  | _ => default [v] (seq_items v s)
  end.

(** [v + w] *)
Definition padd (v w : pval) : pm pval := λ s,
  match v, w, obj_of v s, obj_of w s with
  | _, _, Some (OList CLVar l), _ => alloc (OList CLVar (l ++ clvar_items w s)) s
  | _, _, _, Some (OList CLVar k) => alloc (OList CLVar (clvar_items v s ++ k)) s
  | _, _, Some (OList PlainList l), Some (OList PlainList k) => alloc (OList PlainList (l ++ k)) s
  | PStr a, PStr b, _, _ => (s, Ok (PStr (a ++ b)))
  | PInt a, PInt b, _, _ => (s, Ok (PInt (a + b)))
  | PTuple l, PTuple k, _, _ => (s, Ok (PTuple (l ++ k)))
  | _, _, _, _ => (s, Raise TypeError)
  end.

(** [d[k] = v]; a key that is there keeps its place. *)
Fixpoint assoc_set {V} (k : pval) (v : V) (d : list (pval * V)) : list (pval * V) :=
  match d with
  | [] => [(k, v)]
  | (k', v') :: d => if pval_eqb k' k then (k', v) :: d else (k', v') :: assoc_set k v d
  end.
Fixpoint assoc_get {V} (k : pval) (d : list (pval * V)) : option V :=
  match d with
  | [] => None
  | (k', v') :: d => if pval_eqb k' k then Some v' else assoc_get k d
  end.
Definition dict_set (v key x : pval) : pm unit := λ s,
  match v, obj_of v s with
  | PRef r, Some (ODict d) =>
      if hashable key then put r (ODict (assoc_set key x d)) s else (s, Raise TypeError)
  | PRef r, Some (OBuilders e d) =>
      match hashable key, x with
      | true, PObj b => put r (OBuilders e (assoc_set key b d)) s
      | _, _ => (s, Raise TypeError)
      end
  | _, _ => (s, Raise TypeError)
  end.

(** [dict(seq)]: an element that makes a pair. *)
Definition pair_of (x : pval) (s : pst) : res exn (pval * pval) :=
  match x with
  | PStr [a; b] => Ok (PStr [a], PStr [b])
  | _ => match seq_items x s with
         | Some [a; b] => Ok (a, b)
         | Some _ => Raise ValueError
         | None => if is_String x then Raise ValueError else Raise TypeError
         end
  end.
(** [d.update(x)] *)
Definition dict_update (v x : pval) : pm unit := λ s,
  match dict_items x s with
  | Some d => efor d (λ '(k, y), dict_set v k y) s
  | None =>
      match obj_of v s with
      | Some (OBuilders _ _) => (s, Raise AttributeError)
      | _ =>
          match x, seq_items x s with
          | PStr t, _ =>
              (s, match t with [] => Ok tt | _ => Raise ValueError end)
          | _, Some l =>
              efor l (λ y s, match pair_of y s with
                             | Ok (k, z) => dict_set v k z s
                             | Raise e => (s, Raise e)
                             end) s
          | _, None => (s, Raise TypeError)
          end
      end
  end.

Section env.
(** Python's recursion limit; [str] of a value that is no string; what counts as
    a builder; [Scanner.get_skeys]; a call of a tool; [ParseFlags]. *)
Variable limit : nat.
Variable pstr : pst → pval → text.
Variable is_a_Builder : pval → bool.
Variable get_skeys : pval → envref → pst → list text.
Variable call_tool : envref → pval → pm unit.
Variable ParseFlags : envref → pval → pm pval.

(** [v == w] *)
Fixpoint peq (n : nat) (s : pst) (v w : pval) : res exn bool :=
  match n with
  | O => Raise RuntimeError
  | S n =>
      let all := fix all (l k : list pval) : res exn bool :=
        match l, k with
        | x :: l, y :: k => rbind (peq n s x y) (λ b : bool, if b then all l k else Ok false)
        | _, _ => Ok true
        end in
      let lists l k := if decide (length l = length k) then all l k else Ok false in
      let dicts d e :=
        if decide (length d = length e) then
          (fix sub (d : list (pval * pval)) : res exn bool :=
             match d with
             | [] => Ok true
             | (k, x) :: d =>
                 match assoc_get k e with
                 | Some y => rbind (peq n s x y) (λ b : bool, if b then sub d else Ok false)
                 | None => Ok false
                 end
             end) d
        else Ok false in
      match v, w with
      | PTuple l, PTuple k => lists l k
      | PRef a, PRef b =>
          if decide (a = b) then Ok true
          else match objs s !! a, objs s !! b with
               | Some (OList _ l), Some (OList _ k) => lists l k
               | _, _ => match dict_items v s, dict_items w s with
                         | Some d, Some e => dicts d e
                         | _, _ => Ok false
                         end
               end
      | _, _ => Ok (pval_eqb v w)
      end
  end.

(** [x in l] for the items of a sequence. *)
Fixpoint in_items (s : pst) (x : pval) (l : list pval) : res exn bool :=
  match l with
  | [] => Ok false
  | y :: l => rbind (peq limit s y x) (λ b : bool, if b then Ok true else in_items s x l)
  end.
Fixpoint infix (a b : text) : bool :=
  startswith a b || match b with [] => false | _ :: b => infix a b end.
(** [x in v] *)
Definition contains (s : pst) (x v : pval) : res exn bool :=
  match v, seq_items v s, dict_items v s with
  | PStr t, _, _ => match x with PStr a => Ok (infix a t) | _ => Raise TypeError end
  | _, Some l, _ => in_items s x l
  | _, _, Some d =>
      if hashable x then Ok (existsb (λ kv, pval_eqb kv.1 x) d) else Raise TypeError
  | _, _, _ => Raise TypeError
  end.

(** [filter(lambda x: x not in v, l)] *)
Fixpoint filter_out (s : pst) (v : pval) (l : list pval) : res exn (list pval) :=
  match l with
  | [] => Ok []
  | x :: l =>
      rbind (contains s x v) (λ b : bool,
      rbind (filter_out s v l) (λ k, Ok (if b then k else x :: k)))
  end.
Definition lift {A} (f : pst → res exn A) : pm A := λ s, (s, f s).

(** [semi_deepcopy]; a reference always leads to an object. *)
Fixpoint semi_deepcopy (n : nat) (v : pval) : pm pval :=
  match n with
  | O => eraise RuntimeError
  | S n => λ s,
      match v, obj_of v s with
      | PTuple l, _ => (let! l := emap (semi_deepcopy n) l in eret (PTuple l))%eff s
      | _, Some (OList c l) => (let! l := emap (semi_deepcopy n) l in alloc (OList c l))%eff s
      | _, Some (ODict d) =>
          (let! d := emap (λ '(k, x), let! x := semi_deepcopy n x in eret (k, x)) d in
           alloc (ODict d))%eff s
      | _, Some (OBuilders e d) => alloc (OBuilders e d) s
      | PRef _, None => (s, Raise RuntimeError)
      | _, None => (s, Ok v)
      end
  end.
Definition copy_items {K} (d : list (K * pval)) : pm (list (K * pval)) :=
  emap (λ '(k, x), let! x := semi_deepcopy limit x in eret (k, x))%eff d.

(** ** Environments as dictionaries *)

Definition reserved_construction_var_names : list text :=
  [T "CHANGED_SOURCES"; T "CHANGED_TARGETS"; T "SOURCE"; T "SOURCES"; T "TARGET"; T "TARGETS";
   T "UNCHANGED_SOURCES"; T "UNCHANGED_TARGETS"].
Definition reserved (k : text) : bool := bool_decide (k ∈ reserved_construction_var_names).

Definition copy_non_reserved_keywords (dict : list (text * pval)) : pm (list (text * pval)) :=
  (let! result := copy_items dict in
   efor result (λ '(k, _), if reserved k then warn k else eret tt) ;;;
   eret (List.filter (λ '(k, _), negb (reserved k)) result))%eff.

(** The attribute [_dict], which an [OverrideEnvironment] takes from its subject. *)
Fixpoint base_of (e : envref) : nat :=
  match e with EBase b => b | EOver _ subject => base_of subject end.
Definition base_dict (b : nat) (s : pst) : gmap text pval := default ∅ (bases s !! b).
Definition overrides (o : nat) (s : pst) : gmap text pval := default ∅ (overs s !! o).
Definition set_var (b : nat) (k : text) (v : pval) : pm unit :=
  emod (λ s, with_bases (insert b (<[k := v]> (base_dict b s))) s).
Definition set_override (o : nat) (k : text) (v : pval) : pm unit :=
  emod (λ s, with_overs (insert o (<[k := v]> (overrides o s))) s).

Definition scanner_map_delete (e : envref) : pm unit := emod (with_gsm (delete (base_of e))).

(** [_is_valid_var]; [$] also matches before a newline at the end. *)
Definition is_valid_var (k : text) : bool :=
  match k with
  | c :: k =>
      is_name_start c &&
      match (span is_word k).2 with [] => true | [c] => bool_decide (c = "010"%char) | _ => false end
  | [] => false
  end.
Definition illegal_var : exn := ExUserError "Illegal construction variable".

(** [env[key]] and [env.get(key)] *)
Fixpoint env_get (e : envref) (key : text) (s : pst) : option pval :=
  match e with
  | EBase b => base_dict b s !! key
  | EOver o subject =>
      match overrides o s !! key with Some v => Some v | None => env_get subject key s end
  end.
Definition env_getitem (e : envref) (key : text) : pm pval :=
  lift (λ s, match env_get e key s with Some v => Ok v | None => Raise KeyError end).
Fixpoint env_has_key (e : envref) (key : text) (s : pst) : bool :=
  match e with
  | EBase b => bool_decide (is_Some (base_dict b s !! key))
  | EOver o subject => bool_decide (is_Some (overrides o s !! key)) || env_has_key subject key s
  end.
Fixpoint Dictionary (e : envref) (s : pst) : gmap text pval :=
  match e with EBase b => base_dict b s | EOver o subject => overrides o s ∪ Dictionary subject s end.
(** What substitution looks in. *)
Fixpoint gvars (e : envref) (s : pst) : gmap text pval :=
  match e with EBase b => base_dict b s | EOver _ subject => gvars subject s end.
Fixpoint lvars (e : envref) (s : pst) : gmap text pval :=
  match e with EBase b => ∅ | EOver o subject => overrides o s ∪ lvars subject s end.

(** [_set_BUILDERS]: the name [kwbd] is not bound there. *)
Definition _set_BUILDERS (b : nat) (value : pval) : pm unit := λ s,
  match base_dict b s !! T "BUILDERS" with
  | None => (s, Raise (ExOther "NameError" "global name 'kwbd' is not defined"))
  | Some bd =>
      ((match bd, obj_of bd s with
        | PRef r, Some (OBuilders e _) => put r (OBuilders e [])
        | PRef r, Some (ODict _) => put r (ODict [])
        | _, _ => eraise AttributeError
        end) ;;;
       λ s, match dict_items value s with
            | None => (s, Raise AttributeError)
            | Some d =>
                if forallb (λ kv, is_a_Builder kv.2) d
                then efor d (λ '(k, v), dict_set bd k v) s
                else (s, Raise (ExUserError "is not a Builder."))
            end)%eff s
  end.

Definition env_setitem (e : envref) (key : text) (value : pval) : pm unit :=
  match e with
  | EOver o _ => if is_valid_var key then set_override o key value else eraise illegal_var
  | EBase b =>
      if reserved key then warn key
      else if decide (key = T "BUILDERS") then _set_BUILDERS b value
      else if decide (key = T "SCANNERS") then set_var b key value ;;; scanner_map_delete e
      else λ s, if bool_decide (is_Some (base_dict b s !! key)) || is_valid_var key
                then set_var b key value s else (s, Raise illegal_var)
  end%eff.

Fixpoint env_delitem (e : envref) (key : text) : pm unit :=
  match e with
  | EBase b => λ s,
      match base_dict b s !! key with
      | None => (s, Raise KeyError)
      | Some _ =>
          (emod (λ s, with_bases (insert b (delete key (base_dict b s))) s) ;;;
           if decide (key = T "SCANNERS") then scanner_map_delete e else eret tt)%eff s
      end
  | EOver o subject => λ s,
      let deleted := bool_decide (is_Some (overrides o s !! key)) in
      ecatch ((emod (λ s, with_overs (insert o (delete key (overrides o s))) s)) ;;;
              env_delitem subject key)
        (λ x, if is_class "KeyError" x && deleted then eret tt else eraise x) s
  end%eff.

(** ** Adding to variables *)

(** [except (KeyError, TypeError)] *)
Definition key_or_type (x : exn) : bool := is_class "KeyError" x || is_class "TypeError" x.

(** The branches of [Append] and [Prepend] for a dictionary. *)
Definition add_to_dict (orig val : pval) : pm unit := λ s,
  if is_List val s then efor (default [] (seq_items val s)) (λ v, dict_set orig v PNone) s
  else
    ecatch (dict_update orig val)
      (λ x, if is_class "AttributeError" x || is_class "TypeError" x || is_class "ValueError" x then
              λ s, match dict_items val s with
                   | Some d => efor d (λ '(k, v), dict_set orig k v) s
                   | None => dict_set orig val PNone s
                   end
            else eraise x) s.

Definition append_item (b : nat) (key : text) (val : pval) : pm unit := λ s,
  match base_dict b s !! key with
  | None => set_var b key val s
  | Some orig =>
      if is_Dict orig s then add_to_dict orig val s
      else
        ecatch (let! v := padd orig val in set_var b key v)%eff
          (λ x, if key_or_type x then
                  λ s, if is_List orig s then
                         if truthy val s then list_append orig val s else (s, Ok tt)
                       else ((if truthy orig s then list_insert0 val orig else eret tt) ;;;
                             set_var b key val)%eff s
                else eraise x) s
  end.
Definition Append (e : envref) (kw : list (text * pval)) : pm unit :=
  (let! kw := copy_non_reserved_keywords kw in
   efor kw (λ '(key, val), append_item (base_of e) key val) ;;;
   scanner_map_delete e)%eff.

Definition prepend_item (b : nat) (key : text) (val : pval) : pm unit := λ s,
  match base_dict b s !! key with
  | None => set_var b key val s
  | Some orig =>
      if is_Dict orig s then add_to_dict orig val s
      else
        ecatch (let! v := padd val orig in set_var b key v)%eff
          (λ x, if key_or_type x then
                  λ s, if is_List val s then
                         ((if truthy orig s then list_append val orig else eret tt) ;;;
                          set_var b key val)%eff s
                       else if truthy val s then list_insert0 orig val s else (s, Ok tt)
                else eraise x) s
  end.
Definition Prepend (e : envref) (kw : list (text * pval)) : pm unit :=
  (let! kw := copy_non_reserved_keywords kw in
   efor kw (λ '(key, val), prepend_item (base_of e) key val) ;;;
   scanner_map_delete e)%eff.

(** [_delete_duplicates]; the list given is not used afterwards. *)
Definition delete_duplicates_step (acc : list pval * list pval) (i : pval)
    : list pval * list pval :=
  let '(seen, result) := acc in
  if hashable i then
    if existsb (pval_eqb i) seen then (seen, result) else (i :: seen, result ++ [i])
  else (seen, result ++ [i]).
Definition _delete_duplicates (l : list pval) (keep_last : bool) : list pval :=
  let l := if keep_last then rev l else l in
  let '(_, result) := foldl delete_duplicates_step ([], []) l in
  if keep_last then rev result else result.

(** [val] without duplicates, if it is a list. *)
Definition dedup (val : pval) (keep_last : bool) : pm pval := λ s,
  match obj_of val s with
  | Some (OList _ l) => alloc (OList PlainList (_delete_duplicates l keep_last)) s
  | _ => (s, Ok val)
  end.
(** [filter(lambda x: x not in v, l)] of a list, a string or a tuple *)
Definition filter_not_in (v l : pval) : pm pval := λ s,
  match l, seq_items l s with
  | PStr t, _ =>
      match filter_out s v (map (λ c, PStr [c]) t) with
      | Ok k => (s, Ok (PStr (concat (map (λ x, match x with PStr t => t | _ => [] end) k))))
      | Raise e => (s, Raise e)
      end
  | PTuple _, Some k =>
      match filter_out s v k with Ok k => (s, Ok (PTuple k)) | Raise e => (s, Raise e) end
  | _, Some k =>
      match filter_out s v k with
      | Ok k => alloc (OList PlainList k) s
      | Raise e => (s, Raise e)
      end
  | _, None => (s, Raise TypeError)
  end.
(** Values added to the end or the front. *)
Definition add_to (front : bool) (dk val : pval) : pm pval :=
  if front then padd val dk else padd dk val.

(** The loop bodies of [AppendUnique] and, with [front], of [PrependUnique]:
    where [dk] is there and not empty, and in all cases. *)
Definition unique_existing (front delete_existing : bool) (b : nat) (key : text) (dk val : pval)
    : pm unit := (λ s,
  if is_Dict dk s && is_Dict val s then dict_update dk val s
  else if is_List val s then
    (let! dk := if is_List dk s then eret dk else alloc (OList PlainList [dk]) in
     let! v :=
       if delete_existing then
         let! dk := filter_not_in val dk in add_to front dk val
       else
         let! val := filter_not_in dk val in add_to front dk val in
     set_var b key v) s
  else if is_List dk s then
    if delete_existing then
      (let! dk := filter_not_in val dk in
       let! one := alloc (OList PlainList [val]) in
       let! v := add_to front dk one in
       set_var b key v) s
    else
      (let! there := lift (λ s, contains s val dk) in
       if there : bool then eret tt
       else
         let! one := alloc (OList PlainList [val]) in
         let! v := add_to front dk one in
         set_var b key v) s
  else
    (let! dk := if delete_existing then filter_not_in val dk else eret dk in
     let! v := add_to front dk val in
     set_var b key v) s)%eff.
Definition unique_item (front delete_existing : bool) (b : nat) (key : text) (val : pval)
    : pm unit :=
  (let! val := dedup val (if front then negb delete_existing else delete_existing) in
   λ s, match base_dict b s !! key with
        | None | Some (PStr []) | Some PNone => set_var b key val s
        | Some dk => unique_existing front delete_existing b key dk val s
        end)%eff.
Definition AppendUnique (e : envref) (delete_existing : bool) (kw : list (text * pval)) : pm unit :=
  (let! kw := copy_non_reserved_keywords kw in
   efor kw (λ '(key, val), unique_item false delete_existing (base_of e) key val) ;;;
   scanner_map_delete e)%eff.
Definition PrependUnique (e : envref) (delete_existing : bool) (kw : list (text * pval)) : pm unit :=
  (let! kw := copy_non_reserved_keywords kw in
   efor kw (λ '(key, val), unique_item true delete_existing (base_of e) key val) ;;;
   scanner_map_delete e)%eff.

(** [_update] *)
Definition env_update (e : envref) (dict : list (text * pval)) : pm unit :=
  match e with
  | EBase b => efor dict (λ '(k, v), set_var b k v)
  | EOver o _ => efor dict (λ '(k, v), set_override o k v)
  end.
Definition Replace (e : envref) (kw : list (text * pval)) : pm unit :=
  match e with
  | EBase b =>
      let is_builders (kv : text * pval) := bool_decide (kv.1 = T "BUILDERS") in
      efor (List.filter is_builders kw)
        (λ '(k, v), let! v := semi_deepcopy limit v in env_setitem e k v) ;;;
      let! kw := copy_non_reserved_keywords (List.filter (λ kv, negb (is_builders kv)) kw) in
      let! kw := copy_items kw in
      env_update e kw ;;;
      scanner_map_delete e
  | EOver o _ =>
      let! kw := copy_non_reserved_keywords kw in
      let! kw := copy_items kw in
      env_update e kw
  end%eff.
Definition SetDefault (e : envref) (kw : list (text * pval)) : pm unit := λ s,
  Replace e (List.filter (λ '(k, _), negb (bool_decide (is_Some (base_dict (base_of e) s !! k)))) kw) s.

(** ** Copies and overrides *)

Definition str_of (s : pst) (v : pval) : text := match v with PStr t => t | _ => pstr s v end.

(** [scons_subst_once(value, env, key)] *)
Definition subst_once (value : pval) (e : envref) (key : text) : pm pval := λ s,
  let val := default (PStr []) (env_get e key s) in
  let joined := match seq_items val s with
                | Some l => join (T " ") (map (str_of s) l)
                | None => str_of s val
                end in
  let sub (t : text) := PStr (re_sub (once_match (λ _, []) key (VStr joined)) t) in
  match value, seq_items value s with
  | PStr t, _ => (s, Ok (if decide ("$"%char ∉ t) then value else sub t))
  | _, Some l =>
      alloc (OList PlainList (concat (map (λ arg,
        match arg with
        | PStr t => if decide (t = T "$" ++ key ∨ t = T "${" ++ key ++ T "}")
                    then default [val] (seq_items val s)
                    else [sub t]
        | _ => [arg]
        end) l))) s
  | _, None => (s, Ok value)
  end.
Definition subst_items (e : envref) (kw : list (text * pval)) : pm (list (text * pval)) :=
  emap (λ '(k, v), let! v := subst_once v e k in eret (k, v))%eff kw.

(** The loop of [MergeFlags]; [value] may be changed by it. *)
Definition iter_items (v : pval) (s : pst) : res exn (list pval) :=
  match v, seq_items v s, dict_items v s with
  | PStr t, _, _ => Ok (map (λ c, PStr [c]) t)
  | _, Some l, _ => Ok l
  | _, _, Some d => Ok (map fst d)
  | _, _, _ => Raise TypeError
  end.
Fixpoint keep_first (s : pst) (t l : list pval) : res exn (list pval) :=
  match l with
  | [] => Ok t
  | v :: l => rbind (in_items s v t) (λ b : bool, keep_first s (if b then t else t ++ [v]) l)
  end.
Fixpoint keep_last (s : pst) (t l : list pval) : res exn (list pval) :=
  match l with
  | [] => Ok t
  | v :: l => rbind (in_items s v t) (λ b : bool, keep_last s (if b then t else v :: t) l)
  end.
Definition merge_orig (orig value : pval) : pm pval := λ s,
  if negb (truthy orig s) then (s, Ok value)
  else
    ecatch (padd orig value)
      (λ x, if key_or_type x then
              λ s, if is_List orig s then (list_append orig value ;;; eret orig)%eff s
                   else (list_insert0 value orig ;;; eret value)%eff s
            else eraise x) s.
Definition is_path_var (key : text) : bool :=
  bool_decide (drop (length key - 4) key = T "PATH").
Definition merge_item (e : envref) (key : text) (value : pval) : pm unit := λ s,
  if negb (truthy value s) then (s, Ok tt)
  else
    (let! orig := match env_get e key s with
                  | None => eret value
                  | Some orig => merge_orig orig value
                  end in
     let! t := if is_path_var key then
                 let! l := lift (iter_items orig) in lift (λ s, keep_first s [] l)
               else
                 list_reverse orig ;;;
                 let! l := lift (iter_items orig) in lift (λ s, keep_last s [] l) in
     let! t := alloc (OList PlainList t) in
     env_setitem e key t)%eff s.
Definition as_keywords (d : list (pval * pval)) : res exn (list (text * pval)) :=
  rmap (λ '(k, v), match k with PStr k => Ok (k, v) | _ => Raise TypeError end) d.
Definition MergeFlags (e : envref) (args : pval) (unique : bool) : pm unit :=
  (let! args := λ s, if is_Dict args s then (s, Ok args) else ParseFlags e args s in
   let! items := lift (λ s, as_keywords (default [] (dict_items args s))) in
   if unique then efor items (λ '(key, value), merge_item e key value)
   else Append e items)%eff.

(** [apply_tools] *)
Definition apply_tools (e : envref) (tools : list pval) (toolpath : option pval) : pm unit :=
  (match toolpath with Some p => env_setitem e (T "toolpath") p | None => eret tt end ;;;
   λ s, efor (List.filter (λ t, truthy t s) tools) (call_tool e) s)%eff.

(** [BuilderDict(dict, env)] *)
Definition as_builders (d : list (pval * pval)) : res exn (list (pval * nat)) :=
  rmap (λ '(k, v), match v with PObj b => Ok (k, b) | _ => Raise TypeError end) d.
Definition new_BuilderDict (v : pval) (b : nat) : pm pval := λ s,
  match dict_items v s with
  | Some d => match as_builders d with
              | Ok d => alloc (OBuilders b d) s
              | Raise x => (s, Raise x)
              end
  | None => (s, Raise AttributeError)
  end.

(** The copy that [Clone] begins with: of a [Base], and of an
    [OverrideEnvironment], whose [__setattr__] sets the attribute of the
    subject, and whose dictionary of overrides is shared by the copy. *)
Definition clone_copy (e : envref) : pm envref :=
  (let! d := λ s, copy_items (map_to_list (base_dict (base_of e) s)) s in
   let! c := match e with EBase _ => new_env | EOver _ _ => eret (base_of e) end in
   emod (λ s, with_gsm (delete c) (with_bases (insert c (list_to_map d)) s)) ;;;
   (λ s, match base_dict c s !! T "BUILDERS" with
         | None => (s, Ok tt)
         | Some cbd => (let! bd := new_BuilderDict cbd c in set_var c (T "BUILDERS") bd) s
         end) ;;;
   eret (match e with EBase _ => EBase c | EOver _ _ => e end))%eff.
Definition Clone (e : envref) (tools : list pval) (toolpath parse_flags : option pval)
    (kw : list (text * pval)) : pm envref :=
  (let! clone := clone_copy e in
   let! kw := copy_non_reserved_keywords kw in
   let! new := subst_items e kw in
   Replace clone new ;;;
   apply_tools clone tools toolpath ;;;
   Replace clone new ;;;
   (match parse_flags with
    | Some f => λ s, if truthy f s then MergeFlags clone f true s else (s, Ok tt)
    | None => eret tt
    end) ;;;
   eret clone)%eff.

Definition Override (e : envref) (ov : list (text * pval)) : pm envref :=
  match ov with
  | [] => eret e
  | _ =>
      let! o := copy_non_reserved_keywords ov in
      match o with
      | [] => eret e
      | _ =>
          let is_flags (kv : text * pval) := bool_decide (kv.1 = T "parse_flags") in
          let! new := subst_items e (List.filter (λ kv, negb (is_flags kv)) o) in
          let! n := new_env in
          emod (with_overs (insert n (list_to_map new))) ;;;
          let env := EOver n e in
          match List.filter is_flags o with
          | (_, merges) :: _ =>
              (λ s, if truthy merges s then MergeFlags env merges true s else (s, Ok tt)) ;;;
              eret env
          | [] => eret env
          end
      end
  end%eff.

(** ** Scanners *)

Definition lower (t : text) : text :=
  map (λ c, if is_upper c then ascii_of_nat (nat_of_ascii c + 32) else c) t.
Definition on_win32 (e : envref) (s : pst) : res exn bool :=
  match env_get e (T "PLATFORM") s with
  | Some (PStr p) => Ok (bool_decide (p = T "win32"))
  | Some _ => Ok false
  | None => Raise KeyError
  end.
(** [if k and self['PLATFORM'] == 'win32': k = string.lower(k)] *)
Definition scanner_key (e : envref) (k : text) (s : pst) : res exn text :=
  match k with
  | [] => Ok k
  | _ => rbind (on_win32 e s) (λ b : bool, Ok (if b then lower k else k))
  end.
Definition gsm_turn (e : envref) (s : pst) (result : gmap text pval) (scanner : pval)
    : res exn (gmap text pval) :=
  rbind (rmap (λ k, scanner_key e k s) (get_skeys scanner e s)) (λ ks,
  Ok (foldl (λ m k, <[k := scanner]> m) result ks)).
Fixpoint gsm_loop (e : envref) (s : pst) (result : gmap text pval) (l : list pval)
    : res exn (gmap text pval) :=
  match l with
  | [] => Ok result
  | scanner :: l => rbind (gsm_turn e s result scanner) (λ result, gsm_loop e s result l)
  end.
Definition gsm_compute (e : envref) (s : pst) : res exn (gmap text pval) :=
  match base_dict (base_of e) s !! T "SCANNERS" with
  | None => Ok ∅
  | Some v => gsm_loop e s ∅ (match obj_of v s with Some (OList _ l) => rev l | _ => [v] end)
  end.
Definition _gsm (e : envref) : pm (gmap text pval) := λ s,
  match gsm s !! base_of e with
  | Some m => (s, Ok m)
  | None =>
      match gsm_compute e s with
      | Ok m => (with_gsm (insert (base_of e) m) s, Ok m)
      | Raise x => (s, Raise x)
      end
  end.
Definition get_scanner (e : envref) (skey : text) : pm (option pval) :=
  (let! skey := lift (scanner_key e skey) in
   let! m := _gsm e in
   eret (m !! skey))%eff.
End env.
