(* ===== verification/EnvFacts.v ===== *)
(** * Theorems about construction environments

    A clone and its original share nothing that the operations change, a copy
    has the same contents, and what overrides hide and leave alone. *)

From S2P Require Import Prelude Errors PyStr Subst Env.
Open Scope nat_scope.

Create HintDb own.

(** ** References *)

(** The references in a value; the keys of dictionaries hold none. *)
Fixpoint vrefs (v : pval) : list nat :=
  match v with
  | PRef r => [r]
  | PTuple l => concat (map vrefs l)
  | _ => []
  end.
Definition obj_refs (o : obj) : list nat :=
  match o with
  | OList _ l => concat (map vrefs l)
  | ODict d => concat (map (λ kv, vrefs kv.2) d)
  | OBuilders _ _ => []
  end.

Section own.
Context (own : nat → Prop).

Definition vown (v : pval) : Prop := Forall own (vrefs v).
Definition lown (l : list pval) : Prop := Forall vown l.
Definition down {K} (d : list (K * pval)) : Prop := Forall (λ kv, vown kv.2) d.
Definition oown (o : obj) : Prop :=
  match o with OList _ l => lown l | ODict d => down d | OBuilders _ _ => True end.

Lemma oown_refs o : oown o ↔ Forall own (obj_refs o).
Proof.
  destruct o as [c l|d|e d]; cbn; unfold lown, down, vown;
    rewrite ?Forall_concat, ?Forall_fmap; try done.
Qed.
Lemma lown_tuple l : vown (PTuple l) ↔ lown l.
Proof. unfold vown, lown. cbn. rewrite Forall_concat, Forall_fmap. done. Qed.
End own.

(** ** The counter of references

    It only grows. *)
Definition after (n : nat) (s : pst) : Prop := n ≤ onext s.
Definition mono {A} (m : pm A) : Prop := ∀ n, keeps (after n) m.

Create HintDb mono.

Section mono.
Context {A B : Type}.

Lemma mono_ret (a : A) : mono (eret a).
Proof. intros n. apply keeps_ret. Qed.
Lemma mono_raise e : mono (eraise e : pm A).
Proof. intros n. apply keeps_raise. Qed.
Lemma mono_bind (m : pm A) (k : A → pm B) : mono m → (∀ a, mono (k a)) → mono (ebind m k).
Proof. intros Hm Hk n. apply keeps_bind; [apply Hm|]. intros a. apply Hk. Qed.
Lemma mono_catch (m : pm A) (h : exn → pm A) : mono m → (∀ e, mono (h e)) → mono (ecatch m h).
Proof. intros Hm Hh n. apply keeps_catch; [apply Hm|]. intros e. apply Hh. Qed.
Lemma mono_for (l : list A) (f : A → pm unit) : (∀ a, mono (f a)) → mono (efor l f).
Proof. intros Hf n. apply keeps_for. intros a. apply Hf. Qed.
Lemma mono_map (f : A → pm B) (l : list A) : (∀ a, mono (f a)) → mono (emap f l).
Proof.
  intros Hf. induction l as [|a l IH]; cbn [emap]; [intros n; apply keeps_ret|].
  intros n. apply keeps_bind; [apply Hf|]. intros y. apply keeps_bind; [apply IH|].
  intros ys. apply keeps_ret.
Qed.
Lemma mono_lift (f : pst → res exn A) : mono (lift f).
Proof. intros n s Hs. exact Hs. Qed.
Lemma mono_mod (f : pst → pst) : (∀ s, onext (f s) = onext s) → mono (emod f).
Proof. intros Hf n s Hs. unfold after. cbn. by rewrite Hf. Qed.
(** A call in a state that is known. *)
Lemma mono_at (m : pm A) : (∀ s, onext s ≤ onext (m s).1) → mono m.
Proof. intros Hm n s Hs. unfold after in *. specialize (Hm s). lia. Qed.
Lemma mono_run (m : pm A) s : mono m → onext s ≤ onext (m s).1.
Proof. intros Hm. apply (Hm (onext s) s). unfold after. lia. Qed.
End mono.

(** Runs of the combinators; a call that looks at the state is split by what it
    finds there. *)
Ltac mono :=
  repeat match goal with
  | |- ∀ _, mono _ => intros ?
  | |- mono (eret _) => apply mono_ret
  | |- mono (eraise _) => apply mono_raise
  | |- mono (ebind _ _) => apply mono_bind; [|intros ?]
  | |- mono (ecatch _ _) => apply mono_catch; [|intros ?]
  | |- mono (efor _ _) => apply mono_for; intros ?
  | |- mono (emap _ _) => apply mono_map; intros ?
  | |- mono (lift _) => apply mono_lift
  | |- mono (emod _) => apply mono_mod; reflexivity
  | |- mono (match ?x with _ => _ end) => destruct x
  | |- mono _ => solve [eauto with mono]
  | |- mono (λ _, _) => apply mono_at; intros ?
  | |- _ ≤ onext (match ?x with _ => _ end).1 => destruct x
  | |- _ ≤ onext (match ?x with _ => _ end _).1 => destruct x
  | |- onext ?s ≤ onext (?s, _).1 => reflexivity
  | |- onext ?s ≤ onext (_ ?s).1 => apply mono_run
  end.

Lemma mono_alloc o : mono (alloc o).
Proof. apply mono_at. intros s. cbn. lia. Qed.
Lemma mono_put r o : mono (put r o).
Proof. apply mono_at. intros s. reflexivity. Qed.
Lemma mono_warn k : mono (warn k).
Proof. apply mono_at. intros s. reflexivity. Qed.
Lemma mono_set_var b k v : mono (set_var b k v).
Proof. apply mono_at. intros s. reflexivity. Qed.
Lemma mono_delete e : mono (scanner_map_delete e).
Proof. apply mono_at. intros s. reflexivity. Qed.
#[export] Hint Resolve mono_alloc mono_put mono_warn mono_set_var mono_delete : mono.

Lemma mono_copy n v : mono (semi_deepcopy n v).
Proof.
  revert v. induction n as [|n IH]; intros v; cbn [semi_deepcopy]; [apply mono_raise|].
  pose proof (IH : ∀ v, mono (semi_deepcopy n v)) as IH'. mono.
Qed.

#[export] Hint Resolve mono_copy : mono.

Section mono_ops.
Context (limit : nat) (is_a_Builder : pval → bool).

Lemma mono_copy_items {K} (d : list (K * pval)) : mono (copy_items limit d).
Proof. unfold copy_items. mono. Qed.
Hint Resolve mono_copy_items : mono.
Lemma mono_copy_kw kw : mono (copy_non_reserved_keywords limit kw).
Proof. unfold copy_non_reserved_keywords. mono. Qed.
Lemma mono_on_list v f : mono (on_list v f).
Proof. unfold on_list. mono. Qed.
Hint Resolve mono_copy_kw mono_on_list : mono.
Lemma mono_padd v w : mono (padd v w).
Proof. unfold padd. mono. Qed.
Lemma mono_dict_set v k x : mono (dict_set v k x).
Proof. unfold dict_set. mono. Qed.
Hint Resolve mono_padd mono_dict_set : mono.
Lemma mono_dict_update v x : mono (dict_update v x).
Proof. unfold dict_update. mono. Qed.
Hint Resolve mono_dict_update : mono.
Lemma mono_add_to_dict v x : mono (add_to_dict v x).
Proof. unfold add_to_dict. mono. Qed.
Hint Resolve mono_add_to_dict : mono.
Lemma mono_append_item b key val : mono (append_item b key val).
Proof. unfold append_item, list_append, list_insert0. mono. Qed.
Lemma mono_prepend_item b key val : mono (prepend_item b key val).
Proof. unfold prepend_item, list_append, list_insert0. mono. Qed.
Lemma mono_dedup v keep : mono (dedup v keep).
Proof. unfold dedup. mono. Qed.
Lemma mono_filter_not_in v l : mono (filter_not_in limit v l).
Proof. unfold filter_not_in. mono. Qed.
Lemma mono_add_to front v w : mono (add_to front v w).
Proof. destruct front; apply mono_padd. Qed.
Hint Resolve mono_append_item mono_prepend_item mono_dedup mono_filter_not_in mono_add_to : mono.
Lemma mono_unique_existing front del b key dk v :
  mono (unique_existing limit front del b key dk v).
Proof. unfold unique_existing. mono. Qed.
Hint Resolve mono_unique_existing : mono.
Lemma mono_unique_item front del b key val : mono (unique_item limit front del b key val).
Proof. unfold unique_item. mono. Qed.
Lemma mono_set_BUILDERS b v : mono (_set_BUILDERS is_a_Builder b v).
Proof. unfold _set_BUILDERS. mono. Qed.
Hint Resolve mono_unique_item mono_set_BUILDERS : mono.
Lemma mono_setitem b k v : mono (env_setitem is_a_Builder (EBase b) k v).
Proof. cbn [env_setitem]. mono. Qed.
Hint Resolve mono_setitem : mono.
Lemma mono_update b kw : mono (env_update (EBase b) kw).
Proof. cbn [env_update]. mono. Qed.
Hint Resolve mono_update : mono.
Lemma mono_Replace b kw : mono (Replace limit is_a_Builder (EBase b) kw).
Proof. unfold Replace. mono. Qed.
Lemma mono_delitem b k : mono (env_delitem (EBase b) k).
Proof. cbn [env_delitem]. mono. Qed.
End mono_ops.
#[export] Hint Resolve mono_copy_items mono_copy_kw mono_on_list mono_padd mono_dict_set
  mono_dict_update mono_add_to_dict mono_append_item mono_prepend_item mono_dedup
  mono_filter_not_in mono_add_to mono_unique_existing mono_unique_item mono_set_BUILDERS mono_setitem mono_update mono_Replace
  mono_delitem : mono.

(** ** What an operation leaves alone

    [own] are the objects of one environment and those that will be made, up to
    [last]: they refer only to each other, so do its variables, and everything
    else is as in the state [s0]. *)
Section frame.
Context (own : nat → Prop) (b : nat) (s0 : pst) (last : nat).

Record framed (s : pst) : Prop := {
  fr_closed r o : own r → objs s !! r = Some o → oown own o;
  fr_fresh r : onext s ≤ r → r < last → own r;
  fr_objs r : ¬ own r → objs s !! r = objs s0 !! r;
  fr_vars k v : base_dict b s !! k = Some v → vown own v;
  fr_bases b' : b' ≠ b → bases s !! b' = bases s0 !! b';
  fr_overs : overs s = overs s0;
  fr_next : onext s0 ≤ onext s;
  fr_dom r : onext s ≤ r → objs s !! r = None
}.

(** The state stays framed, and what is returned is [Q]. *)
Definition good {A} (Q : A → Prop) (p : pst * res exn A) : Prop :=
  onext p.1 ≤ last → framed p.1 ∧ ∀ a, p.2 = Ok a → Q a.
Definition yields {A} (m : pm A) (Q : A → Prop) : Prop := ∀ s, framed s → good Q (m s).

(** A call in a state that is known. *)
Lemma yields_run {A} (m : pm A) (Q : A → Prop) s : yields m Q → framed s → good Q (m s).
Proof. auto. Qed.
Lemma good_ret {A} (Q : A → Prop) s a : framed s → Q a → good Q (s, Ok a).
Proof. intros Hs HQ _. split; [done|]. by intros ? [= <-]. Qed.
Lemma good_raise {A} (Q : A → Prop) s e : framed s → good Q (s, Raise e : res exn A).
Proof. by split. Qed.

Lemma yields_ret {A} (a : A) (Q : A → Prop) : Q a → yields (eret a) Q.
Proof. intros HQ s Hs. by apply good_ret. Qed.
Lemma yields_raise {A} e (Q : A → Prop) : yields (eraise e) Q.
Proof. intros s Hs. by apply good_raise. Qed.
Lemma good_bind {A B} (m : pm A) (k : A → pm B) (R : A → Prop) (Q : B → Prop) s :
  (∀ a, mono (k a)) → good R (m s) → (∀ a, R a → yields (k a) Q) → good Q (ebind m k s).
Proof.
  intros Hmono Hm Hk Hlast. unfold ebind in *. destruct (m s) as [s' [a|e]].
  - pose proof (mono_run (k a) s' (Hmono a)). destruct Hm as [Hs' HR]; [cbn in *; lia|].
    by apply Hk; [apply HR|..].
  - destruct Hm as [Hs' HR]; [done|]. by split.
Qed.
Lemma yields_bind {A B} (m : pm A) (k : A → pm B) (R : A → Prop) (Q : B → Prop) :
  (∀ a, mono (k a)) → yields m R → (∀ a, R a → yields (k a) Q) → yields (ebind m k) Q.
Proof. intros Hmono Hm Hk s Hs. eapply good_bind; [done|by apply Hm|done]. Qed.
Lemma yields_catch {A} (m : pm A) (h : exn → pm A) (Q : A → Prop) :
  (∀ e, mono (h e)) → yields m Q → (∀ e, yields (h e) Q) → yields (ecatch m h) Q.
Proof.
  intros Hmono Hm Hh s Hs Hlast. unfold ecatch in *. specialize (Hm s Hs).
  destruct (m s) as [s' [a|e]]; [by apply Hm|].
  pose proof (mono_run (h e) s' (Hmono e)). apply Hh; [|done]. apply Hm. cbn in *. lia.
Qed.
Lemma yields_for {A} (P : A → Prop) (l : list A) (f : A → pm unit) :
  (∀ a, mono (f a)) → Forall P l → (∀ a, P a → yields (f a) (λ _, True)) →
  yields (efor l f) (λ _, True).
Proof.
  intros Hmono Hl Hf. induction Hl as [|a l Ha Hl IH]; cbn [efor]; [by apply yields_ret|].
  eapply yields_bind; [intros _; by apply mono_for|by apply Hf|]. by intros.
Qed.
Lemma yields_map {A B} (f : A → pm B) (Q : B → Prop) (l : list A) :
  (∀ a, mono (f a)) → (∀ a, yields (f a) Q) → yields (emap f l) (Forall Q).
Proof.
  intros Hmono Hf. induction l as [|a l IH]; cbn [emap]; [by apply yields_ret|].
  eapply yields_bind; [|by apply Hf|].
  - intros x. apply mono_bind; [by apply mono_map|]. intros ys. apply mono_ret.
  - intros x Hx. eapply yields_bind; [intros ys; apply mono_ret|exact IH|].
    intros ys Hys. apply yields_ret. by constructor.
Qed.
Lemma yields_mono {A} (m : pm A) (Q Q' : A → Prop) :
  yields m Q → (∀ a, Q a → Q' a) → yields m Q'.
Proof. intros Hm HQ s Hs Hlast. destruct (Hm s Hs Hlast). split; auto. Qed.
Lemma yields_lift {A} (f : pst → res exn A) (Q : A → Prop) :
  (∀ s a, framed s → f s = Ok a → Q a) → yields (lift f) Q.
Proof. intros Hf s Hs _. split; [done|]. intros a. by apply Hf. Qed.

(** *** The basic operations *)

Lemma yields_alloc o : oown own o → yields (alloc o) (vown own).
Proof.
  intros Ho s Hs. split.
  - destruct Hs. split; cbn; try done.
    + intros r o' Hr. destruct (decide (onext s = r)) as [<-|Hne].
      * rewrite lookup_insert_eq. by intros [= <-].
      * rewrite lookup_insert_ne by done. by apply fr_closed0.
    + intros r Hr. apply fr_fresh0. lia.
    + intros r Hr. rewrite lookup_insert_ne; [by apply fr_objs0|].
      intros <-. by apply Hr, fr_fresh0.
    + lia.
    + intros r Hr. rewrite lookup_insert_ne by lia. apply fr_dom0. lia.
  - intros a [= <-]. constructor; [|constructor]. by apply Hs.
Qed.
Lemma good_put r o s :
  framed s → is_Some (objs s !! r) → own r → oown own o → good (λ _, True) (put r o s).
Proof.
  intros Hs [o0 Ho0] Hr Ho. split; [|done]. destruct Hs. split; cbn; try done.
  - intros r' o' Hr'. destruct (decide (r = r')) as [<-|Hne].
    + rewrite lookup_insert_eq. by intros [= <-].
    + rewrite lookup_insert_ne by done. by apply fr_closed0.
  - intros r' Hr'. rewrite lookup_insert_ne by congruence. by apply fr_objs0.
  - intros r' Hr'. rewrite lookup_insert_ne; [by apply fr_dom0|].
    intros <-. by rewrite fr_dom0 in Ho0.
Qed.
Lemma yields_warn k : yields (warn k) (λ _, True).
Proof. intros s Hs. split; [|done]. by destruct Hs. Qed.
Lemma yields_gsm f : yields (emod (with_gsm f)) (λ _, True).
Proof. intros s Hs. split; [|done]. by destruct Hs. Qed.
Lemma yields_set_dict (f : gmap text pval → gmap text pval) :
  (∀ m k v, (∀ k v, m !! k = Some v → vown own v) → f m !! k = Some v → vown own v) →
  yields (emod (λ s, with_bases (insert b (f (base_dict b s))) s)) (λ _, True).
Proof.
  intros Hf s Hs. split; [|done]. destruct Hs. split; cbn; try done.
  - intros k v. unfold base_dict. cbn. rewrite lookup_insert_eq. cbn. by apply Hf.
  - intros b' Hb. rewrite lookup_insert_ne by done. by apply fr_bases0.
Qed.
Lemma yields_set_var k v : vown own v → yields (set_var b k v) (λ _, True).
Proof.
  intros Hv. apply yields_set_dict. intros m k' v' Hm.
  rewrite lookup_insert_Some. naive_solver.
Qed.

(** *** What values hold *)

Lemma obj_own s v o : framed s → vown own v → obj_of v s = Some o → oown own o.
Proof.
  intros Hs Hv Ho. destruct v; try done. cbn in Ho. eapply fr_closed; [done| |done].
  by apply Forall_inv in Hv.
Qed.
Lemma seq_own s v l : framed s → vown own v → seq_items v s = Some l → lown own l.
Proof.
  intros Hs Hv Hl. unfold seq_items in Hl. destruct v as [t|z| |k|r|o]; try done.
  - simplify_eq. by apply lown_tuple.
  - destruct (obj_of (PRef r) s) as [o|] eqn:Ho; [|done].
    pose proof (obj_own _ _ _ Hs Hv Ho) as Hown. destruct o; by simplify_eq.
Qed.
Lemma dict_own s v d : framed s → vown own v → dict_items v s = Some d → down own d.
Proof.
  intros Hs Hv Hd. unfold dict_items in Hd. destruct (obj_of v s) as [o|] eqn:Ho; [|done].
  pose proof (obj_own _ _ _ Hs Hv Ho) as Hown. destruct o as [|d'|e d']; simplify_eq; [done|].
  unfold down, builder_items. rewrite Forall_fmap. apply Forall_true. intros [k n]. constructor.
Qed.
Lemma clvar_own s v : framed s → vown own v → lown own (clvar_items v s).
Proof.
  intros Hs Hv. unfold clvar_items.
  assert (lown own (default [v] (seq_items v s))) as Hd.
  { destruct (seq_items v s) eqn:E; [by eapply seq_own|]. by constructor. }
  destruct v; try done. unfold lown. rewrite Forall_fmap. apply Forall_true. constructor.
Qed.
Lemma lown_app l k : lown own l → lown own k → lown own (l ++ k).
Proof. apply Forall_app_2. Qed.
Lemma var_own s k v : framed s → base_dict b s !! k = Some v → vown own v.
Proof. intros Hs. by apply fr_vars. Qed.

(** *** Operations of Python *)

Lemma yields_copy n v : yields (semi_deepcopy n v) (vown own).
Proof.
  revert v. induction n as [|n IH]; intros v; cbn [semi_deepcopy]; [apply yields_raise|].
  intros s Hs. destruct v as [t|z| |l|r|o].
  1-3,6: by apply good_ret; [|constructor].
  - apply yields_run; [|done]. eapply yields_bind; [mono|apply (yields_map _ (vown own)); [mono|apply IH]|].
    intros l' Hl. apply yields_ret. by apply lown_tuple.
  - destruct (obj_of (PRef r) s) as [[c l|d|e d]|].
    + apply yields_run; [|done]. eapply yields_bind; [mono|apply (yields_map _ (vown own)); [mono|apply IH]|].
      intros l' Hl. by apply yields_alloc.
    + apply yields_run; [|done]. eapply yields_bind; [mono| |].
      * apply (yields_map _ (λ kv, vown own kv.2)); [mono|].
        intros [k x]. eapply yields_bind; [mono|apply IH|]. intros x' Hx. by apply yields_ret.
      * intros d' Hd. by apply yields_alloc.
    + apply yields_run; [|done]. by apply yields_alloc.
    + by apply good_raise.
Qed.

Lemma yields_copy_items limit {K} (d : list (K * pval)) : yields (copy_items limit d) (down own).
Proof.
  apply (yields_map _ (λ kv, vown own kv.2)); [mono|]. intros [k x].
  eapply yields_bind; [mono|apply yields_copy|]. intros x' Hx. by apply yields_ret.
Qed.
Lemma yields_copy_kw limit kw : yields (copy_non_reserved_keywords limit kw) (down own).
Proof.
  eapply yields_bind; [mono|apply yields_copy_items|]. intros r Hr. eapply yields_bind; [mono| |].
  - apply (yields_for (λ _, True)); [mono|by apply Forall_true|].
    intros [k v] _. destruct (reserved k); [apply yields_warn|by apply yields_ret].
  - intros _ _. apply yields_ret. unfold down in *. rewrite Forall_forall in *.
    intros kv [Hin _]%list_elem_of_In%filter_In. by apply Hr, list_elem_of_In.
Qed.

Lemma yields_on_list v f :
  vown own v → (∀ l, lown own l → lown own (f l)) → yields (on_list v f) (λ _, True).
Proof.
  intros Hv Hf s Hs. unfold on_list. destruct v as [t|z| |l|r|o]; try by apply good_raise.
  destruct (obj_of (PRef r) s) as [[c l|d|e d]|] eqn:Ho; try by apply good_raise.
  apply good_put; [done|by eexists|by apply Forall_inv in Hv|].
  apply Hf. by apply (obj_own s (PRef r) _ Hs) in Ho.
Qed.
Lemma yields_list_append v x : vown own v → vown own x → yields (list_append v x) (λ _, True).
Proof. intros Hv Hx. apply yields_on_list; [done|]. intros l Hl. apply lown_app; [done|by constructor]. Qed.
Lemma yields_list_insert0 v x : vown own v → vown own x → yields (list_insert0 v x) (λ _, True).
Proof. intros Hv Hx. apply yields_on_list; [done|]. intros l Hl. by constructor. Qed.

Lemma list_own s v c l :
  framed s → vown own v → obj_of v s = Some (OList c l) → lown own l.
Proof. intros Hs Hv Ho. by apply (obj_own s v _ Hs Hv) in Ho. Qed.
Lemma good_app s c l k :
  framed s → lown own l → lown own k → good (vown own) (alloc (OList c (l ++ k)) s).
Proof. intros Hs Hl Hk. apply yields_run; [|done]. by apply yields_alloc, lown_app. Qed.
Lemma yields_padd v w : vown own v → vown own w → yields (padd v w) (vown own).
Proof.
  intros Hv Hw s Hs. unfold padd.
  pose proof (clvar_own s v Hs Hv). pose proof (clvar_own s w Hs Hw).
  repeat case_match; simplify_eq; try by apply good_raise.
  all: first [by apply good_ret; [|constructor]
             |by apply good_app; [|eauto using list_own..]
             |by apply good_ret; [|apply lown_tuple, lown_app; apply lown_tuple]].
Qed.

Lemma assoc_set_own {V} (P : V → Prop) k v (d : list (pval * V)) :
  P v → Forall (λ kv, P kv.2) d → Forall (λ kv, P kv.2) (assoc_set k v d).
Proof.
  intros Hv Hd. induction Hd as [|[k' v'] d Hk Hd IH]; cbn; [by repeat constructor|].
  destruct (pval_eqb k' k); by constructor.
Qed.
Lemma yields_dict_set v key x : vown own v → vown own x → yields (dict_set v key x) (λ _, True).
Proof.
  intros Hv Hx s Hs. unfold dict_set. destruct v as [t|z| |l|r|o]; try by apply good_raise.
  assert (own r) as Hr by by apply Forall_inv in Hv.
  destruct (obj_of (PRef r) s) as [[c l|d|e d]|] eqn:Ho; try by apply good_raise.
  - destruct (hashable key); [|by apply good_raise].
    apply good_put; [done|by eexists|done|]. apply assoc_set_own; [done|].
    by apply (obj_own s (PRef r) _ Hs) in Ho.
  - destruct (hashable key), x; try by apply good_raise.
    by apply good_put; [|eexists|..].
Qed.

Lemma yields_sets v (d : list (pval * pval)) :
  vown own v → down own d → yields (efor d (λ '(k, x), dict_set v k x)) (λ _, True).
Proof.
  intros Hv Hd. apply (yields_for (λ kv, vown own kv.2)); [mono|done|].
  intros [k x] Hx. by apply yields_dict_set.
Qed.
Lemma pair_own s x k z : framed s → vown own x → pair_of x s = Ok (k, z) → vown own z.
Proof.
  intros Hs Hx E. unfold pair_of in E.
  assert (∀ l, seq_items x s = Some l → lown own l) as Hl by (intros; by eapply seq_own).
  destruct (seq_items x s) as [l|]; repeat case_match; simplify_eq; try by apply Forall_nil_2.
  all: by destruct (proj1 (Forall_cons _ _ _) (Hl _ eq_refl)) as [_ [Hz _]%Forall_cons].
Qed.
Lemma yields_dict_update v x : vown own v → vown own x → yields (dict_update v x) (λ _, True).
Proof.
  intros Hv Hx s Hs. unfold dict_update. destruct (dict_items x s) as [d|] eqn:Ed.
  { apply yields_run; [|done]. apply yields_sets; [done|]. by eapply dict_own. }
  assert (∀ l, lown own l → good (λ _, True)
    (efor l (λ y s, match pair_of y s with
                    | Ok (k, z) => dict_set v k z s
                    | Raise e => (s, Raise e)
                    end) s)) as Hseq.
  { intros l Hl. apply yields_run; [|done]. apply (yields_for (vown own)); [mono|done|].
    intros y Hy s' Hs'. destruct (pair_of y s') as [[k z]|e] eqn:Ep; [|by apply good_raise].
    apply yields_run; [|done]. apply yields_dict_set; [done|]. by eapply pair_own. }
  destruct (obj_of v s) as [[| |]|]; try (by apply good_raise); destruct x as [t|z| |k|r|o];
    try (by apply good_raise); try (by destruct t; [apply good_ret|apply good_raise]);
    destruct (seq_items _ s) eqn:El; try (by apply good_raise);
    by eapply Hseq, seq_own.
Qed.
Lemma yields_add_to_dict orig val :
  vown own orig → vown own val → yields (add_to_dict orig val) (λ _, True).
Proof.
  intros Ho Hv s Hs. unfold add_to_dict. destruct (is_List val s).
  { apply yields_run; [|done]. apply (yields_for (λ _, True)); [mono|by apply Forall_true|].
    intros x _. apply yields_dict_set; [done|constructor]. }
  apply yields_run; [|done]. apply yields_catch; [mono|by apply yields_dict_update|].
  intros x. destruct (_ || _); [|apply yields_raise]. intros s' Hs'.
  destruct (dict_items val s') as [d|] eqn:Ed; (apply yields_run; [|done]).
  - apply yields_sets; [done|]. by eapply dict_own.
  - apply yields_dict_set; [done|constructor].
Qed.

Lemma yields_add_var key (m : pm pval) :
  yields m (vown own) → yields (let! v := m in set_var b key v)%eff (λ _, True).
Proof. intros Hm. eapply yields_bind; [mono|exact Hm|]. intros v Hv. by apply yields_set_var. Qed.
Lemma yields_if (c : bool) (m n : pm unit) (Q : unit → Prop) :
  yields m Q → yields n Q → yields (if c then m else n) Q.
Proof. by destruct c. Qed.

Lemma yields_append_item key val : vown own val → yields (append_item b key val) (λ _, True).
Proof.
  intros Hv s Hs. unfold append_item. destruct (base_dict b s !! key) as [orig|] eqn:Eo.
  2: { apply yields_run; [|done]. by apply yields_set_var. }
  pose proof (var_own _ _ _ Hs Eo) as Ho. destruct (is_Dict orig s).
  { apply yields_run; [|done]. by apply yields_add_to_dict. }
  apply yields_run; [|done]. apply yields_catch; [mono|by apply yields_add_var, yields_padd|].
  intros x. destruct (key_or_type x); [|apply yields_raise]. intros s' Hs'.
  destruct (is_List orig s').
  - destruct (truthy val s'); [|by apply good_ret].
    apply yields_run; [|done]. by apply yields_list_append.
  - apply yields_run; [|done]. eapply (yields_bind _ _ (λ _, True)); [mono| |].
    + apply yields_if; [by apply yields_list_insert0|by apply yields_ret].
    + intros _ _. by apply yields_set_var.
Qed.
Lemma yields_prepend_item key val : vown own val → yields (prepend_item b key val) (λ _, True).
Proof.
  intros Hv s Hs. unfold prepend_item. destruct (base_dict b s !! key) as [orig|] eqn:Eo.
  2: { apply yields_run; [|done]. by apply yields_set_var. }
  pose proof (var_own _ _ _ Hs Eo) as Ho. destruct (is_Dict orig s).
  { apply yields_run; [|done]. by apply yields_add_to_dict. }
  apply yields_run; [|done]. apply yields_catch; [mono|by apply yields_add_var, yields_padd|].
  intros x. destruct (key_or_type x); [|apply yields_raise]. intros s' Hs'.
  destruct (is_List val s').
  - apply yields_run; [|done]. eapply (yields_bind _ _ (λ _, True)); [mono| |].
    + apply yields_if; [by apply yields_list_append|by apply yields_ret].
    + intros _ _. by apply yields_set_var.
  - destruct (truthy val s'); [|by apply good_ret].
    apply yields_run; [|done]. by apply yields_list_insert0.
Qed.

(** *** The methods *)

Lemma dedup_step_own l acc :
  lown own l → lown own acc.2 → lown own (foldl delete_duplicates_step acc l).2.
Proof.
  intros Hl. revert acc. induction Hl as [|x l Hx Hl IH]; intros [seen r] Hr; [done|].
  cbn [foldl]. apply IH. cbn in *. repeat case_match; cbn; [done| |];
    by apply lown_app; [|constructor].
Qed.
Lemma lown_rev l : lown own l → lown own (rev l).
Proof. intros Hl. by apply Forall_rev. Qed.
Lemma yields_dedup val keep : vown own val → yields (dedup val keep) (vown own).
Proof.
  intros Hv s Hs. unfold dedup. destruct (obj_of val s) as [[c l|d|e d]|] eqn:Ho;
    try by apply good_ret.
  apply list_own in Ho; [|done..]. apply yields_run; [|done]. apply yields_alloc. cbn.
  unfold _delete_duplicates. pose proof (dedup_step_own (if keep then rev l else l) ([], [])) as Hd.
  destruct (foldl _ _ _) as [seen r]. cbn in Hd.
  assert (lown own r) as Hr by (apply Hd; [destruct keep; [by apply lown_rev|done]|constructor]).
  destruct keep; [by apply lown_rev|done].
Qed.
Lemma filter_out_own limit s v l k :
  lown own l → filter_out limit s v l = Ok k → lown own k.
Proof.
  revert k. induction l as [|x l IH]; intros k Hl E; cbn in E.
  - by injection E as <-.
  - apply Forall_cons in Hl as [Hx Hl]. destruct (contains _ _ _ _) as [c|]; [|done]. cbn in E.
    destruct (filter_out _ _ _ _) as [k'|]; [|done]. cbn in E. injection E as <-.
    specialize (IH k' Hl eq_refl). destruct c; [done|by constructor].
Qed.
Lemma yields_filter_not_in limit v l : vown own l → yields (filter_not_in limit v l) (vown own).
Proof.
  intros Hl s Hs. unfold filter_not_in.
  assert (∀ k k', seq_items l s = Some k → filter_out limit s v k = Ok k' → lown own k') as Hk.
  { intros k k' Hk. apply filter_out_own. by eapply seq_own. }
  destruct l as [t|z| |l|r|o]; try by apply good_raise.
  - destruct (filter_out _ _ _ _); [by apply good_ret; [|apply Forall_nil_2]|by apply good_raise].
  - cbn [seq_items]. destruct (filter_out _ _ _ _) as [k|] eqn:E; [|by apply good_raise].
    apply good_ret; [done|]. apply lown_tuple. by eapply Hk.
  - destruct (seq_items (PRef r) s) as [k|]; [|by apply good_raise].
    destruct (filter_out _ _ _ _) as [k'|] eqn:E; [|by apply good_raise].
    apply yields_run; [|done]. apply yields_alloc. by eapply Hk.
Qed.
Lemma yields_add_to front dk val :
  vown own dk → vown own val → yields (add_to front dk val) (vown own).
Proof. intros. destruct front; by apply yields_padd. Qed.
Lemma yields_one val : vown own val → yields (alloc (OList PlainList [val])) (vown own).
Proof. intros Hv. apply yields_alloc. by constructor. Qed.
#[local] Hint Resolve yields_filter_not_in yields_add_to yields_one yields_set_var yields_dedup
  yields_dict_update : own.
#[local] Hint Extern 0 (yields (eret _) _) => (apply yields_ret; done) : own.

Lemma yields_unique_existing limit front del key dk v :
  vown own dk → vown own v → yields (unique_existing limit front del b key dk v) (λ _, True).
Proof.
  intros Hdk Hv s Hs. unfold unique_existing.
  assert (∀ dk v', vown own dk → vown own v' →
    yields (let! v := add_to front dk v' in set_var b key v)%eff (λ _, True)) as Hadd.
  { intros. eapply yields_bind; [mono|eauto with own..]. }
  destruct (is_Dict dk s && is_Dict v s); [apply yields_run; eauto with own|].
  destruct (is_List v s).
  { apply yields_run; [|done]. eapply (yields_bind _ _ (vown own)); [mono| |].
    - destruct (is_List dk s); eauto with own.
    - intros d Hd. eapply (yields_bind _ _ (vown own)); [mono| |eauto with own].
      destruct del; (eapply yields_bind; [mono|eauto with own..]). }
  destruct (is_List dk s).
  - destruct del; (apply yields_run; [|done]).
    + eapply yields_bind; [mono|eauto with own|]. intros d Hd.
      eapply yields_bind; [mono|eauto with own|]. auto.
    + eapply (yields_bind _ _ (λ _, True)); [mono|by apply yields_lift|]. intros [] _; [eauto with own|].
      eapply yields_bind; [mono|eauto with own|]. auto.
  - apply yields_run; [|done]. eapply (yields_bind _ _ (vown own)); [mono| |auto].
    destruct del; eauto with own.
Qed.
Lemma yields_unique_item limit front del key val :
  vown own val → yields (unique_item limit front del b key val) (λ _, True).
Proof.
  intros Hval. eapply yields_bind; [mono|by apply yields_dedup|]. intros v Hv s Hs.
  destruct (base_dict b s !! key) as [dk|] eqn:Ed; [|by apply yields_run; [apply yields_set_var|]].
  pose proof (var_own _ _ _ Hs Ed) as Hdk.
  assert (good (λ _, True) (set_var b key v s)) by by apply yields_run; [apply yields_set_var|].
  assert (good (λ _, True) (unique_existing limit front del b key dk v s))
    by by apply yields_run; [apply yields_unique_existing|].
  destruct dk as [[|]| | | | |]; assumption.
Qed.

(** A loop over copied keywords, and the end of it. *)
Lemma yields_keywords limit kw (f : text → pval → pm unit) :
  (∀ k v, mono (f k v)) → (∀ k v, vown own v → yields (f k v) (λ _, True)) →
  yields (let! kw := copy_non_reserved_keywords limit kw in
          efor kw (λ '(k, v), f k v) ;;; scanner_map_delete (EBase b))%eff (λ _, True).
Proof.
  intros Hmono Hf. eapply yields_bind; [mono|apply yields_copy_kw|]. intros r Hr.
  eapply (yields_bind _ _ (λ _, True)); [mono| |intros _ _; apply yields_gsm].
  apply (yields_for (λ kv, vown own kv.2)); [mono|done|]. intros [k v]. apply Hf.
Qed.

Lemma yields_set_BUILDERS is_a_Builder v :
  vown own v → yields (_set_BUILDERS is_a_Builder b v) (λ _, True).
Proof.
  intros Hv s Hs. unfold _set_BUILDERS. destruct (base_dict b s !! _) as [bd|] eqn:Eb;
    [|by apply good_raise].
  pose proof (var_own _ _ _ Hs Eb) as Hbd. eapply (good_bind _ _ (λ _, True)); [mono| |].
  - destruct bd as [t|z| |l|r|o]; try by apply good_raise.
    assert (own r) as Hr by by apply Forall_inv in Hbd.
    destruct (obj_of (PRef r) s) as [[c l|d|e d]|] eqn:Ho; try by apply good_raise.
    + apply good_put; [done|by eexists|done|apply Forall_nil_2].
    + by apply good_put; [|eexists|..].
  - intros _ _ s' Hs'. destruct (dict_items v s') as [d|] eqn:Ed; [|by apply good_raise].
    destruct (forallb _ d); [|by apply good_raise].
    apply yields_run; [|done]. apply yields_sets; [done|]. by apply (dict_own s' v).
Qed.
Lemma yields_setitem is_a_Builder k v :
  vown own v → yields (env_setitem is_a_Builder (EBase b) k v) (λ _, True).
Proof.
  intros Hv. cbn [env_setitem]. destruct (reserved k); [apply yields_warn|].
  destruct (decide _); [by apply yields_set_BUILDERS|]. destruct (decide _).
  - eapply yields_bind; [mono|by apply yields_set_var|]. intros _ _. apply yields_gsm.
  - intros s Hs. destruct (_ || _); [|by apply good_raise].
    apply yields_run; [|done]. by apply yields_set_var.
Qed.
Lemma yields_Replace limit is_a_Builder kw :
  yields (Replace limit is_a_Builder (EBase b) kw) (λ _, True).
Proof.
  unfold Replace. eapply (yields_bind _ _ (λ _, True)); [mono| |].
  { apply (yields_for (λ _, True)); [mono|by apply Forall_true|]. intros [k v] _.
    eapply yields_bind; [mono|apply yields_copy|]. intros v' Hv'. by apply yields_setitem. }
  intros _ _. eapply yields_bind; [mono|apply yields_copy_kw|]. intros kw1 _.
  eapply yields_bind; [mono|apply yields_copy_items|]. intros kw2 Hkw2.
  eapply (yields_bind _ _ (λ _, True)); [mono| |intros _ _; apply yields_gsm].
  apply (yields_for (λ kv, vown own kv.2)); [mono|done|]. intros [k v] Hv. by apply yields_set_var.
Qed.
Lemma yields_delitem k : yields (env_delitem (EBase b) k) (λ _, True).
Proof.
  intros s Hs. cbn [env_delitem]. destruct (base_dict b s !! k); [|by apply good_raise].
  apply yields_run; [|done]. eapply (yields_bind _ _ (λ _, True)); [mono| |].
  - apply yields_set_dict. intros m k' v' Hm. rewrite lookup_delete_Some. naive_solver.
  - intros _ _. destruct (decide _); [apply yields_gsm|by apply yields_ret].
Qed.
End frame.

(** ** Two environments that share nothing *)

(** The operations that copy what they are given. *)
Inductive env_op :=
| OpAppend (kw : list (text * pval))
| OpPrepend (kw : list (text * pval))
| OpAppendUnique (delete_existing : bool) (kw : list (text * pval))
| OpPrependUnique (delete_existing : bool) (kw : list (text * pval))
| OpReplace (kw : list (text * pval))
| OpSetDefault (kw : list (text * pval))
| OpDelete (key : text).

Section ops.
Context (limit : nat) (is_a_Builder : pval → bool).

Definition run_op (e : envref) (o : env_op) : pm unit :=
  match o with
  | OpAppend kw => Append limit e kw
  | OpPrepend kw => Prepend limit e kw
  | OpAppendUnique d kw => AppendUnique limit e d kw
  | OpPrependUnique d kw => PrependUnique limit e d kw
  | OpReplace kw => Replace limit is_a_Builder e kw
  | OpSetDefault kw => SetDefault limit is_a_Builder e kw
  | OpDelete key => env_delitem e key
  end.

Lemma yields_op own b s0 last o : yields own b s0 last (run_op (EBase b) o) (λ _, True).
Proof.
  destruct o as [kw|kw|d kw|d kw|kw|kw|key]; cbn [run_op].
  - apply yields_keywords; [intros; cbn beta; mono|]. intros. by apply yields_append_item.
  - apply yields_keywords; [intros; cbn beta; mono|]. intros. by apply yields_prepend_item.
  - apply yields_keywords; [intros; cbn beta; mono|]. intros. by apply yields_unique_item.
  - apply yields_keywords; [intros; cbn beta; mono|]. intros. by apply yields_unique_item.
  - apply yields_Replace.
  - intros s Hs. unfold SetDefault. apply yields_run; [|done]. apply yields_Replace.
  - apply yields_delitem.
Qed.
End ops.

(** The contents of a value, references resolved; [n] bounds the depth. *)
Inductive dval :=
| DStr (t : text)
| DInt (z : Z)
| DNone
| DTuple (l : list dval)
| DList (c : lclass) (l : list dval)
| DDict (d : list (pval * dval))
| DBuilders (d : list (pval * nat))
| DObj (o : nat).

Fixpoint deep (n : nat) (s : pst) (v : pval) : option dval :=
  match n with
  | O => None
  | S n =>
      match v with
      | PStr t => Some (DStr t)
      | PInt z => Some (DInt z)
      | PNone => Some DNone
      | PObj o => Some (DObj o)
      | PTuple l => DTuple <$> mapM (deep n s) l
      | PRef r =>
          match objs s !! r with
          | Some (OList c l) => DList c <$> mapM (deep n s) l
          | Some (ODict d) => DDict <$> mapM (λ kv, pair kv.1 <$> deep n s kv.2) d
          | Some (OBuilders _ d) => Some (DBuilders d)
          | None => None
          end
      end
  end.

(** A set of objects that refer only to each other. *)
Definition closed (B : nat → Prop) (s : pst) : Prop :=
  ∀ r o, B r → objs s !! r = Some o → oown B o.

Lemma mapM_ext_Forall {A X} (P : A → Prop) (f g : A → option X) (l : list A) :
  Forall P l → (∀ x, P x → f x = g x) → mapM f l = mapM g l.
Proof.
  intros Hl Hfg. induction Hl as [|x l Hx Hl IH]; cbn; [done|]. by rewrite (Hfg x Hx), IH.
Qed.
Lemma deep_frame (B : nat → Prop) (s s' : pst) n v :
  closed B s → (∀ r, B r → objs s' !! r = objs s !! r) → vown B v → deep n s' v = deep n s v.
Proof.
  intros Hc Ho. revert v. induction n as [|n IH]; intros v Hv; [done|].
  destruct v as [t|z| |l|r|o]; cbn [deep]; try done.
  - f_equal. eapply mapM_ext_Forall; [by apply lown_tuple|exact IH].
  - assert (B r) as Hr by by apply Forall_inv in Hv. rewrite Ho by done.
    destruct (objs s !! r) as [[c l|d|e d]|] eqn:E; try done; apply Hc in E; try done; f_equal;
      (eapply mapM_ext_Forall; [exact E|]).
    + exact IH.
    + intros [k x] Hx. cbn in *. by rewrite IH.
Qed.

Definition side (s : pst) (b : nat) (B : nat → Prop) : Prop :=
  (∀ r, B r → r < onext s) ∧ closed B s ∧
  (∀ k v, base_dict b s !! k = Some v → vown B v).
Definition separate (s : pst) (b c : nat) : Prop :=
  b ≠ c ∧ (∀ r, onext s ≤ r → objs s !! r = None) ∧
  ∃ B C, side s b B ∧ side s c C ∧ (∀ r, B r → C r → False).

(** The variables of an environment and all they contain are as before. *)
Definition same_env (c : nat) (s s' : pst) : Prop :=
  base_dict c s' = base_dict c s ∧
  ∀ k v n, base_dict c s !! k = Some v → deep n s' v = deep n s v.

Lemma vown_mono (P Q : nat → Prop) v : (∀ r, P r → Q r) → vown P v → vown Q v.
Proof. intros HPQ Hv. by eapply Forall_impl. Qed.
Lemma oown_mono (P Q : nat → Prop) o : (∀ r, P r → Q r) → oown P o → oown Q o.
Proof. intros HPQ Ho. apply oown_refs. apply oown_refs in Ho. by eapply Forall_impl. Qed.

Lemma separate_sym s b c : separate s b c → separate s c b.
Proof.
  intros (Hne & Hd & B & C & HB & HC & HBC). unfold separate. naive_solver.
Qed.

(** The objects of a side and those made until [last]. *)
Definition grown (B : nat → Prop) (s : pst) (last : nat) (r : nat) : Prop :=
  B r ∨ (onext s ≤ r ∧ r < last).

Lemma side_framed s b B last :
  side s b B → (∀ r, onext s ≤ r → objs s !! r = None) →
  framed (grown B s last) b s last s.
Proof.
  intros (HB & Hc & Hv) Hd. split; try done.
  - intros r o [Hr|[Hr _]] Ho; [|by rewrite Hd in Ho].
    eapply oown_mono, Hc; [|done..]. by left.
  - by right.
  - intros k v Hk. eapply vown_mono, Hv, Hk. by left.
Qed.
Lemma framed_side s s' b B :
  (∀ r, B r → r < onext s) → framed (grown B s (onext s')) b s (onext s') s' →
  side s' b (grown B s (onext s')).
Proof.
  intros HB Hf. split; [|split; [exact (fr_closed _ _ _ _ _ Hf)|exact (fr_vars _ _ _ _ _ Hf)]].
  intros r [Hr|[_ Hr]]; [|done]. pose proof (fr_next _ _ _ _ _ Hf). specialize (HB r Hr). lia.
Qed.
(** What the frame leaves alone. *)
Lemma framed_same s s' b B c C :
  b ≠ c → side s c C → (∀ r, B r → C r → False) →
  framed (grown B s (onext s')) b s (onext s') s' →
  side s' c C ∧ same_env c s s'.
Proof.
  intros Hne (HC & Hcc & Hcv) HBC Hf.
  assert (∀ r, C r → objs s' !! r = objs s !! r) as Ho.
  { intros r Hr. apply (fr_objs _ _ _ _ _ Hf).
    intros [?|[? _]]; [by eapply HBC|]. specialize (HC r Hr). lia. }
  assert (base_dict c s' = base_dict c s) as Hdict
    by (unfold base_dict; by rewrite (fr_bases _ _ _ _ _ Hf c)).
  pose proof (fr_next _ _ _ _ _ Hf). split.
  - split; [|split].
    + intros r Hr. specialize (HC r Hr). lia.
    + intros r o Hr. rewrite Ho by done. by apply Hcc.
    + rewrite Hdict. exact Hcv.
  - split; [done|]. intros k v n Hk. eapply deep_frame; [done..|]. by eapply Hcv.
Qed.

Section step.
Context (limit : nat) (is_a_Builder : pval → bool).

(** An operation on one of two separate environments. *)
Lemma step_separate s b c o :
  separate s b c →
  separate (run_op limit is_a_Builder (EBase b) o s).1 b c ∧
  same_env c s (run_op limit is_a_Builder (EBase b) o s).1.
Proof.
  intros (Hne & Hd & B & C & HB & HC & HBC).
  set (s' := (run_op limit is_a_Builder (EBase b) o s).1).
  destruct (yields_op limit is_a_Builder (grown B s (onext s')) b s (onext s') o s) as [Hf _];
    [by apply side_framed|done|]. fold s' in Hf.
  destruct (framed_same s s' b B c C) as [HC' Hsame]; [done..|].
  split; [|done]. split; [done|]. split; [exact (fr_dom _ _ _ _ _ Hf)|].
  exists (grown B s (onext s')), C. split; [apply framed_side; [apply HB|done]|].
  split; [done|]. intros r [Hr|[Hr _]] HrC; [by eapply HBC|].
  destruct HC as [HC _]. specialize (HC r HrC). lia.
Qed.
End step.
