(* ===== verification/EnvClone.v ===== *)
(** * Clones of construction environments

    [Clone] and [Override] of [Env]: a clone shares nothing with its original
    that the operations change, now or later; it has the same contents; and what
    overrides hide and leave alone. *)

From S2P Require Import Prelude Errors PyStr Subst Env EnvFacts.
Open Scope nat_scope.

(** ** Calls that only make objects *)

(** Nothing of [s0] has changed, and the new objects are from [onext s0] on. *)
Record grows (s0 s : pst) : Prop := {
  gr_next : onext s0 ≤ onext s;
  gr_objs r : r < onext s0 → objs s !! r = objs s0 !! r;
  gr_dom : (∀ r, onext s0 ≤ r → objs s0 !! r = None) → ∀ r, onext s ≤ r → objs s !! r = None;
  gr_bases : bases s = bases s0;
  gr_overs : overs s = overs s0;
  gr_enext : enext s = enext s0
}.
Lemma grows_refl s : grows s s.
Proof. by split. Qed.
Lemma grows_trans s0 s1 s2 : grows s0 s1 → grows s1 s2 → grows s0 s2.
Proof.
  intros [] []. split; [lia| |naive_solver|congruence..].
  intros r Hr. rewrite gr_objs1 by lia. auto.
Qed.
Lemma grows_same s s' :
  objs s' = objs s → onext s' = onext s → bases s' = bases s → overs s' = overs s →
  enext s' = enext s → grows s s'.
Proof. intros E1 E2 E3 E4 E5. split; rewrite ?E1, ?E2, ?E3, ?E4, ?E5; done. Qed.
Lemma grows_base s s' b : grows s s' → base_dict b s' = base_dict b s.
Proof. intros Hg. unfold base_dict. by rewrite (gr_bases _ _ Hg). Qed.

Definition growing {A} (m : pm A) : Prop := ∀ s0, keeps (grows s0) m.

Section growing.
Context {A B : Type}.
Lemma growing_at (m : pm A) : (∀ s, grows s (m s).1) → growing m.
Proof. intros Hm s0 s Hs. by eapply grows_trans. Qed.
Lemma growing_run (m : pm A) s : growing m → grows s (m s).1.
Proof. intros Hm. apply Hm, grows_refl. Qed.
Lemma growing_ret (a : A) : growing (eret a).
Proof. intros s0. apply keeps_ret. Qed.
Lemma growing_raise e : growing (eraise e : pm A).
Proof. intros s0. apply keeps_raise. Qed.
Lemma growing_bind (m : pm A) (k : A → pm B) :
  growing m → (∀ a, growing (k a)) → growing (ebind m k).
Proof. intros Hm Hk s0. apply keeps_bind; [apply Hm|]. intros a. apply Hk. Qed.
Lemma growing_for (l : list A) (f : A → pm unit) : (∀ a, growing (f a)) → growing (efor l f).
Proof. intros Hf s0. apply keeps_for. intros a. apply Hf. Qed.
End growing.
Lemma growing_map {A B} (f : A → pm B) l : (∀ a, growing (f a)) → growing (emap f l).
Proof.
  intros Hf. induction l as [|a l IH]; cbn [emap]; [apply growing_ret|].
  apply growing_bind; [done|]. intros y. apply growing_bind; [done|]. intros ys. apply growing_ret.
Qed.
Lemma growing_alloc o : growing (alloc o).
Proof.
  apply growing_at. intros s. split; cbn; try done; [lia| |].
  - intros r Hr. by rewrite lookup_insert_ne by lia.
  - intros Hd r Hr. rewrite lookup_insert_ne by lia. apply Hd. lia.
Qed.
Lemma growing_warn k : growing (warn k).
Proof. apply growing_at. intros s. by apply grows_same. Qed.

(** Runs of the combinators, as [mono]. *)
Ltac growing :=
  repeat match goal with
  | |- growing (eret _) => apply growing_ret
  | |- growing (eraise _) => apply growing_raise
  | |- growing (ebind _ _) => apply growing_bind; [|intros ?]
  | |- growing (efor _ _) => apply growing_for; intros ?
  | |- growing (emap _ _) => apply growing_map; intros ?
  | |- growing (alloc _) => apply growing_alloc
  | |- growing (warn _) => apply growing_warn
  | |- growing (match ?x with _ => _ end) => destruct x
  | |- growing _ => assumption
  | |- growing (λ _, _) => apply growing_at; intros ?
  | |- grows _ (match ?x with _ => _ end).1 => destruct x
  | |- grows _ (match ?x with _ => _ end _).1 => destruct x
  | |- grows ?s (?s, _).1 => apply grows_refl
  | |- grows ?s (_ ?s).1 => apply growing_run
  end.

Lemma growing_copy n v : growing (semi_deepcopy n v).
Proof.
  revert v. induction n as [|n IH]; intros v; cbn [semi_deepcopy]; [apply growing_raise|].
  growing; apply IH.
Qed.
Lemma growing_copy_items limit {K} (d : list (K * pval)) : growing (copy_items limit d).
Proof. unfold copy_items. growing. apply growing_copy. Qed.
Lemma growing_copy_kw limit kw : growing (copy_non_reserved_keywords limit kw).
Proof. unfold copy_non_reserved_keywords. growing. apply growing_copy_items. Qed.
Lemma growing_subst_items pstr e kw : growing (subst_items pstr e kw).
Proof. unfold subst_items, subst_once. growing. Qed.

(** What is grown keeps what was there. *)
Lemma deep_grows (s s' : pst) n v :
  closed (λ r, r < onext s) s → grows s s' → vown (λ r, r < onext s) v → deep n s' v = deep n s v.
Proof. intros Hc Hg Hv. eapply deep_frame; [done| |done]. apply (gr_objs _ _ Hg). Qed.
Lemma side_grows s s' b B : side s b B → grows s s' → side s' b B ∧ same_env b s s'.
Proof.
  intros (HB & Hc & Hv) Hg. pose proof (gr_next _ _ Hg).
  assert (∀ r, B r → objs s' !! r = objs s !! r) as Ho by (intros; apply (gr_objs _ _ Hg); auto).
  pose proof (grows_base _ _ b Hg) as Hb. split.
  - split; [|split]; [|intros r o Hr; rewrite Ho by done; by apply Hc|by rewrite Hb].
    intros r Hr. specialize (HB r Hr). lia.
  - split; [done|]. intros k v n Hk. eapply deep_frame; [done..|]. by eapply Hv.
Qed.
Lemma separate_grows s s' b c :
  separate s b c → grows s s' → separate s' b c ∧ same_env b s s' ∧ same_env c s s'.
Proof.
  intros (Hne & Hd & B & C & HB & HC & HBC) Hg.
  destruct (side_grows _ _ _ _ HB Hg), (side_grows _ _ _ _ HC Hg).
  split; [|done]. split; [done|]. split; [by apply (gr_dom _ _ Hg)|]. by exists B, C.
Qed.
Lemma same_env_trans c s0 s1 s2 : same_env c s0 s1 → same_env c s1 s2 → same_env c s0 s2.
Proof.
  intros [E1 H1] [E2 H2]. split; [congruence|]. intros k v n Hk.
  rewrite H2 with (k := k); [by eapply H1|by rewrite E1].
Qed.

(** ** The copy of an environment *)

(** A store as the operations make it: references lead below the counter. *)
Record wf_store (s : pst) : Prop := {
  wf_closed : closed (λ r, r < onext s) s;
  wf_dom r : onext s ≤ r → objs s !! r = None;
  wf_vars b k v : base_dict b s !! k = Some v → vown (λ r, r < onext s) v;
  wf_bases c : enext s ≤ c → bases s !! c = None
}.

Lemma wf_side s b : wf_store s → side s b (λ r, r < onext s).
Proof. intros Hs. split; [done|]. split; [by apply wf_closed|]. by apply wf_vars. Qed.

(** The new environment, before it has variables. *)
Lemma wf_framed s last : wf_store s → framed (grown (λ _, False) s last) (enext s) s last s.
Proof.
  intros Hs. split; try done.
  - intros r o [[]|[Hr _]] Ho. by rewrite (wf_dom _ Hs) in Ho.
  - by right.
  - intros k v. unfold base_dict. by rewrite (wf_bases _ Hs).
  - apply (wf_dom _ Hs).
Qed.

Section clone.
Context (own : nat → Prop) (c : nat) (s0 : pst) (last : nat).

Lemma yields_clone_dict (d : list (text * pval)) :
  down own d →
  yields own c s0 last (emod (λ s, with_gsm (delete c) (with_bases (insert c (list_to_map d)) s)))
    (λ _, True).
Proof.
  intros Hd s Hs. split; [|done]. destruct Hs. split; cbn; try done.
  - intros k v. unfold base_dict. cbn. rewrite lookup_insert_eq. cbn.
    intros Hk%elem_of_list_to_map_2. unfold down in Hd. rewrite Forall_forall in Hd.
    by apply (Hd (k, v)).
  - intros b' Hb. rewrite lookup_insert_ne by done. by apply fr_bases.
Qed.
Lemma yields_new_BuilderDict v : yields own c s0 last (new_BuilderDict v c) (vown own).
Proof.
  intros s Hs. unfold new_BuilderDict. destruct (dict_items v s) as [d|]; [|by apply good_raise].
  destruct (as_builders d); [|by apply good_raise]. apply yields_run; [|done]. by apply yields_alloc.
Qed.
Lemma mono_new_BuilderDict v : mono (new_BuilderDict v c).
Proof. unfold new_BuilderDict. mono. Qed.
Hint Resolve mono_new_BuilderDict : mono.

(** The steps of [clone_copy] after the new environment exists. *)
Lemma yields_clone_rest (d : list (text * pval)) {A} (a : A) :
  down own d →
  yields own c s0 last
    (emod (λ s, with_gsm (delete c) (with_bases (insert c (list_to_map d)) s)) ;;;
     (λ s, match base_dict c s !! T "BUILDERS" with
           | None => (s, Ok tt)
           | Some cbd => (let! bd := new_BuilderDict cbd c in set_var c (T "BUILDERS") bd) s
           end) ;;;
     eret a)%eff (λ _, True).
Proof.
  intros Hd. eapply (yields_bind _ _ _ _ _ _ (λ _, True)); [mono|by apply yields_clone_dict|].
  intros _ _. eapply (yields_bind _ _ _ _ _ _ (λ _, True)); [mono| |by intros; apply yields_ret].
  intros s Hs. destruct (base_dict c s !! _) as [v|]; [|by apply good_ret].
  apply yields_run; [|done]. eapply yields_bind; [mono|apply yields_new_BuilderDict|].
  intros bd Hbd. by apply yields_set_var.
Qed.
End clone.

Lemma mono_clone_rest c (d : list (text * pval)) {A} (a : A) :
  mono
    (emod (λ s, with_gsm (delete c) (with_bases (insert c (list_to_map d)) s)) ;;;
     (λ s, match base_dict c s !! T "BUILDERS" with
           | None => (s, Ok tt)
           | Some cbd => (let! bd := new_BuilderDict cbd c in set_var c (T "BUILDERS") bd) s
           end) ;;;
     eret a)%eff.
Proof. pose proof (mono_new_BuilderDict c). mono. Qed.

(** Calls whose only value is [a]. *)
Definition only {A} (a : A) (m : pm A) : Prop := ∀ s s' x, m s = (s', Ok x) → x = a.
Lemma only_ret {A} (a : A) : only a (eret a).
Proof. by intros s s' x [= _ <-]. Qed.
Lemma only_bind {A B} (a : A) (m : pm B) (k : B → pm A) : (∀ b, only a (k b)) → only a (ebind m k).
Proof. intros Hk s s' x. unfold ebind. destruct (m s) as [s'' [b|]]; [apply Hk|done]. Qed.

Section separate.
Context (limit : nat).

Lemma clone_copy_framed s b s1 e :
  wf_store s → clone_copy limit (EBase b) s = (s1, Ok e) →
  e = EBase (enext s) ∧
  framed (grown (λ _, False) s (onext s1)) (enext s) s (onext s1) s1.
Proof.
  intros Hs E. unfold clone_copy, ebind at 1 in E. cbn [base_of] in E.
  set (m := copy_items limit (map_to_list (base_dict b s))) in E.
  pose proof (growing_run m s (growing_copy_items _ _)) as Hg.
  pose proof (yields_copy_items (grown (λ _, False) s (onext s1)) (enext s) s (onext s1) limit
    (map_to_list (base_dict b s)) s (wf_framed _ _ Hs)) as Hy. fold m in Hy.
  destruct (m s) as [s' [d|x]]; [|done]. cbn in Hg, Hy. unfold ebind at 1, new_env in E.
  rewrite (gr_enext _ _ Hg) in E. split.
  { eapply (only_bind (EBase (enext s))); [|exact E]. intros ?. apply only_bind. intros ?.
    apply only_ret. }
  match type of E with ?rest ?st = _ => pose proof (mono_run rest st (mono_clone_rest _ _ _)) as Hm;
    pose proof (λ H, yields_clone_rest (grown (λ _, False) s (onext s1)) (enext s) s (onext s1) d
      (EBase (enext s)) H st) as Hr end.
  rewrite E in Hm, Hr. cbn [fst onext] in Hm. destruct Hy as [Hf Hd]; [done|].
  apply Hr; [by apply Hd| |done]. by destruct Hf.
Qed.

Lemma clone_copy_separate s b s1 e :
  wf_store s → b < enext s → clone_copy limit (EBase b) s = (s1, Ok e) →
  e = EBase (enext s) ∧ separate s1 b (enext s) ∧ same_env b s s1.
Proof.
  intros Hs Hb [He Hf]%clone_copy_framed; [|done]. split; [done|].
  destruct (framed_same s s1 (enext s) (λ _, False) b (λ r, r < onext s)) as [HB Hsame];
    [lia|by apply wf_side|done..|].
  split; [|done]. split; [lia|]. split; [exact (fr_dom _ _ _ _ _ Hf)|].
  exists (λ r, r < onext s), (grown (λ _, False) s (onext s1)).
  split; [done|]. split; [by apply framed_side|]. intros r Hr [[]|[? _]]. lia.
Qed.
End separate.

(** ** Independence *)

Section independent.
Context (limit : nat) (pstr : pst → pval → text) (is_a_Builder : pval → bool).
Context (call_tool : envref → pval → pm unit) (ParseFlags : envref → pval → pm pval).

(** A tool changes the environment it is applied to, and nothing that belongs to
    an environment apart from it. *)
Definition tools_local : Prop := ∀ t s b c,
  separate s b c →
  separate (call_tool (EBase b) t s).1 b c ∧ same_env c s (call_tool (EBase b) t s).1.

(** A step that keeps two environments apart and leaves the second as it was. *)
Definition apart (b c : nat) (s : pst) {A} (m : pm A) : Prop :=
  ∀ s', separate s' c b → same_env b s s' →
    separate (m s').1 c b ∧ same_env b s (m s').1.
Lemma apart_bind b c s {A B} (m : pm A) (k : A → pm B) :
  apart b c s m → (∀ a, apart b c s (k a)) → apart b c s (ebind m k).
Proof.
  intros Hm Hk s' Hs Hb. unfold ebind. destruct (Hm s' Hs Hb).
  destruct (m s') as [s'' [a|e]]; [by apply Hk|done].
Qed.
Lemma apart_ret b c s {A} (a : A) : apart b c s (eret a).
Proof. by intros s'. Qed.
Lemma apart_growing b c s {A} (m : pm A) : growing m → apart b c s m.
Proof.
  intros Hm s' Hs Hb. destruct (separate_grows _ _ _ _ Hs (growing_run m s' Hm)) as (? & ? & ?).
  split; [done|]. by eapply same_env_trans.
Qed.
Lemma apart_op b c s o : apart b c s (run_op limit is_a_Builder (EBase c) o).
Proof.
  intros s' Hs Hb. destruct (step_separate limit is_a_Builder s' c b o Hs).
  split; [done|]. by eapply same_env_trans.
Qed.
Lemma apart_tools b c s (l : list pval) :
  tools_local → apart b c s (apply_tools is_a_Builder call_tool (EBase c) l None).
Proof.
  intros Ht. apply apart_bind; [apply apart_ret|]. intros _ s' Hs Hb.
  revert s' Hs Hb. assert (∀ l, apart b c s (efor l (call_tool (EBase c)))) as Hl.
  { clear l. intros l. induction l as [|t l IH]; [apply apart_ret|]. apply apart_bind; [|done].
    intros s' Hs Hb. destruct (Ht t s' c b Hs). split; [done|]. by eapply same_env_trans. }
  intros s' Hs Hb. by apply Hl.
Qed.

Lemma clone_separate s b tools kw s1 e :
  tools_local → wf_store s → b < enext s →
  Clone limit pstr is_a_Builder call_tool ParseFlags (EBase b) tools None None kw s = (s1, Ok e) →
  e = EBase (enext s) ∧ separate s1 b (enext s) ∧ same_env b s s1.
Proof.
  intros Ht Hs Hb E. unfold Clone, ebind at 1 in E.
  destruct (clone_copy limit (EBase b) s) as [s' [c|x]] eqn:Ec; [|done].
  apply clone_copy_separate in Ec as (-> & Hsep & Hsame); [|done..].
  match type of E with ?rest _ = _ => assert (apart b (enext s) s rest) as Ha end.
  { apply apart_bind; [apply apart_growing, growing_copy_kw|]. intros kw1.
    apply apart_bind; [apply apart_growing, growing_subst_items|]. intros new.
    apply apart_bind; [apply (apart_op b (enext s) s (OpReplace new))|]. intros _.
    apply apart_bind; [by apply apart_tools|]. intros _.
    apply apart_bind; [apply (apart_op b (enext s) s (OpReplace new))|]. intros _.
    apply apart_bind; [apply apart_ret|]. intros _. apply apart_ret. }
  specialize (Ha s' (separate_sym _ _ _ Hsep) Hsame). rewrite E in Ha. destruct Ha as [Ha Hb'].
  split; [|split; [by apply separate_sym|done]].
  eapply (only_bind (EBase (enext s))); [|exact E]. intros ?. repeat (apply only_bind; intros ?).
  apply only_ret.
Qed.

(** Operations on two environments, in any order; one that raises leaves its
    effects and the next goes on. *)
Definition interleave (b c : nat) (l : list (bool * env_op)) (s : pst) : pst :=
  foldl (λ s '(on_b, o), (run_op limit is_a_Builder (EBase (if on_b : bool then b else c)) o s).1) s l.
Lemma separate_interleave b c l s : separate s b c → separate (interleave b c l s) b c.
Proof.
  apply (foldl_pred (λ s, separate s b c)). intros s' [[] o] _ Hs.
  - by apply step_separate.
  - apply separate_sym, step_separate. by apply separate_sym.
Qed.

(** C20: [Clone] of a base environment (not of an [OverrideEnvironment], whose
    copy shares its overrides) in a well-formed store, with any keywords and a list
    of tools, without a tool path or flags to parse, where a tool changes only the
    environment it is applied to ([tools_local]): if it returns, the
    original, its lists and its dictionaries are as they were, and from then on,
    after any sequence of the operations that copy what they are given ([Append],
    [Prepend], their [Unique] variants, [Replace], [SetDefault], and deletions) on
    the two, none of these on one of them changes a variable of the other or
    anything reachable from it.  (An assignment to an item and [MergeFlags] may
    store an object that the caller shares, and are left out.) *)
Theorem clone_independent s b tools kw s1 e l o :
  tools_local → wf_store s → b < enext s →
  Clone limit pstr is_a_Builder call_tool ParseFlags (EBase b) tools None None kw s = (s1, Ok e) →
  let c := enext s in
  let s2 := interleave b c l s1 in
  e = EBase c ∧ same_env b s s1 ∧
  same_env c s2 (run_op limit is_a_Builder (EBase b) o s2).1 ∧
  same_env b s2 (run_op limit is_a_Builder (EBase c) o s2).1.
Proof.
  intros Ht Hs Hb E c s2. destruct (clone_separate _ _ _ _ _ _ Ht Hs Hb E) as (-> & Hsep & Hsame).
  pose proof (separate_interleave b c l s1 Hsep) as Hs2. fold s2 in Hs2. split; [done|]. split; [done|].
  split; apply step_separate; [done|by apply separate_sym].
Qed.
End independent.

(** ** Copies have the same contents *)

Definition below (s : pst) (v : pval) : Prop := vown (λ r, r < onext s) v.
Lemma below_grows s s' v : below s v → grows s s' → below s' v.
Proof. intros Hv Hg. eapply vown_mono, Hv. intros r Hr. pose proof (gr_next _ _ Hg). cbn in *. lia. Qed.

Lemma wf_alloc s o : wf_store s → oown (λ r, r < onext s) o → wf_store (alloc o s).1.
Proof.
  intros [] Ho. split; cbn; [|intros r Hr; rewrite lookup_insert_ne by lia; apply wf_dom0; lia| |done].
  - intros r o' Hr E. cbn in E, Hr. destruct (decide (onext s = r)) as [<-|Hne].
    + rewrite lookup_insert_eq in E. injection E as <-. eapply oown_mono, Ho. cbn. lia.
    + rewrite lookup_insert_ne in E by done. eapply oown_mono, wf_closed0, E; cbn in *; lia.
  - intros b k v Hk. eapply vown_mono, wf_vars0, Hk. cbn. lia.
Qed.

(** A call on a value [v] makes a copy: [v'] in a store that has grown. *)
Record copies (s s' : pst) (v v' : pval) : Prop := {
  cp_wf : wf_store s';
  cp_grows : grows s s';
  cp_below : below s' v';
  cp_deep m : deep m s' v' = deep m s v
}.
Lemma copies_self s v : wf_store s → below s v → copies s s v v.
Proof. intros. by split; [|apply grows_refl|..]. Qed.
Lemma deep_below s s' v m : wf_store s → below s v → grows s s' → deep m s' v = deep m s v.
Proof. intros Hs Hv Hg. eapply deep_grows; [by apply wf_closed|done..]. Qed.

Lemma Forall2_impl_l {A B} (P : A → Prop) (R R' : A → B → Prop) l k :
  Forall P l → Forall2 R l k → (∀ x y, P x → R x y → R' x y) → Forall2 R' l k.
Proof.
  intros Hl HR HRR. induction HR as [|x y l k Hxy _ IH]; [constructor|].
  apply Forall_cons in Hl as [Hx Hl]. constructor; auto.
Qed.

Section emap.
Context {A K : Type} (key : A → K) (val : A → pval) (f : A → pm A) (n : nat).
Context (Hf : ∀ s a, wf_store s → below s (val a) → is_Some (deep n s (val a)) →
  ∃ s' a', f a s = (s', Ok a') ∧ key a' = key a ∧ copies s s' (val a) (val a')).

Lemma emap_copies l s :
  wf_store s → Forall (λ a, below s (val a) ∧ is_Some (deep n s (val a))) l →
  ∃ s' l', emap f l s = (s', Ok l') ∧ wf_store s' ∧ grows s s' ∧
    Forall (λ a, below s' (val a)) l' ∧
    Forall2 (λ a a', key a' = key a ∧ below s' (val a') ∧
                    ∀ m, deep m s' (val a') = deep m s (val a)) l l'.
Proof.
  intros Hs Hl. revert s Hs Hl. induction l as [|a l IH]; intros s Hs Hl.
  { exists s, []. by split_and!; [..|apply grows_refl|apply Forall_nil_2|]. }
  apply Forall_cons in Hl as [[Ha Hd] Hl]. destruct (Hf s a Hs Ha Hd) as (s1 & a' & E & Hk & []).
  destruct (IH s1) as (s2 & l' & E2 & Hs2 & Hg2 & Hb2 & Hl2); [done| |].
  { eapply Forall_impl; [exact Hl|]. intros x [Hx Hdx]. split; [by eapply below_grows|].
    by rewrite (deep_below s). }
  exists s2, (a' :: l'). cbn [emap]. unfold ebind. rewrite E, E2. split; [done|]. split; [done|].
  split; [by eapply grows_trans|]. split; [constructor; [by eapply below_grows|done]|].
  constructor.
  - split; [done|]. split; [by eapply below_grows|]. intros m. by rewrite (deep_below s1), cp_deep0.
  - eapply Forall2_impl_l; [exact Hl|exact Hl2|]. intros x x' [Hx _] (Hkx & Hbx & Hdx).
    split; [done|]. split; [done|]. intros m. by rewrite Hdx, (deep_below s).
Qed.
End emap.

Lemma mapM_Forall2 {A B X} (f : A → option X) (g : B → option X) l k :
  Forall2 (λ x y, g y = f x) l k → mapM g k = mapM f l.
Proof. induction 1 as [|x y l k E _ IH]; cbn; [done|]. by rewrite E, IH. Qed.
Lemma mapM_items {A X} (f : A → option X) l : is_Some (mapM f l) → Forall (λ x, is_Some (f x)) l.
Proof.
  induction l as [|x l IH]; cbn; [intros; constructor|]. intros [y Hy].
  destruct (f x) eqn:E; [|done]. cbn in Hy. destruct (mapM f l) eqn:El; [|done].
  constructor; [by eexists|]. apply IH. by eexists.
Qed.

(** A new object with the copied items, which is the copy. *)
Lemma copies_alloc s s' v o :
  wf_store s' → grows s s' → oown (λ r, r < onext s') o →
  (∀ s'' m, grows s' s'' → objs s'' !! onext s' = Some o → deep m s'' (PRef (onext s')) = deep m s v) →
  copies s (alloc o s').1 v (PRef (onext s')).
Proof.
  intros Hs Hg Ho Hd. split; [by apply wf_alloc| | |].
  - eapply grows_trans; [exact Hg|]. apply growing_run, growing_alloc.
  - constructor; [cbn; lia|constructor].
  - intros m. apply Hd; [apply growing_run, growing_alloc|]. cbn. apply lookup_insert_eq.
Qed.

(** [semi_deepcopy] of a value whose depth is within the limit returns a copy. *)
Lemma semi_deepcopy_copies n s v :
  wf_store s → below s v → is_Some (deep n s v) →
  ∃ s' v', semi_deepcopy n v s = (s', Ok v') ∧ copies s s' v v'.
Proof.
  revert s v. induction n as [|n IH]; intros s v Hs Hv Hd; [by destruct Hd|].
  cbn [semi_deepcopy].
  assert (∀ l, lown (λ r, r < onext s) l → is_Some (mapM (deep n s) l) →
    ∃ s' l', emap (semi_deepcopy n) l s = (s', Ok l') ∧ wf_store s' ∧ grows s s' ∧
      lown (λ r, r < onext s') l' ∧ Forall2 (λ x y, () = () ∧ below s' y ∧ ∀ m, deep m s' y = deep m s x) l l') as Hlist.
  { intros l Hl Hm. apply (emap_copies (λ _, ()) id _ n); [|done|].
    - intros s1 a H1 H2 H3. destruct (IH s1 a H1 H2 H3) as (s2 & a' & E & Hc). by exists s2, a'.
    - apply Forall_and. split; [done|]. by apply mapM_items. }
  destruct v as [t|z| |l|r|o]; try (exists s; eexists; split; [reflexivity|by apply copies_self]).
  - cbn in Hd. apply fmap_is_Some in Hd. destruct (Hlist l) as (s' & l' & E & Hs' & Hg & Hb & Hl);
      [by apply lown_tuple|done|].
    exists s', (PTuple l'). unfold ebind. rewrite E. split; [done|].
    split; [done..|by apply lown_tuple|]. intros [|m]; [done|]. cbn [deep]. f_equal.
    eapply mapM_Forall2, Forall2_impl; [exact Hl|naive_solver].
  - cbn in Hd. cbn [obj_of]. assert (r < onext s) as Hr by by apply Forall_inv in Hv.
    destruct (objs s !! r) as [[c l|d|e d]|] eqn:Er; [| | |by destruct Hd].
    + apply fmap_is_Some in Hd. destruct (Hlist l) as (s' & l' & E & Hs' & Hg & Hb & Hl); [|done|].
      { by apply (wf_closed _ Hs) in Er. }
      unfold ebind. rewrite E. eexists _, _. split; [reflexivity|].
      apply copies_alloc; [done..|]. intros s'' [|m] Hg' Ho; [done|]. cbn [deep]. rewrite Ho, Er.
      f_equal. eapply mapM_Forall2, Forall2_impl; [exact Hl|]. intros x y (_ & Hy & Hxy).
      by rewrite <- Hxy, (deep_below s').
    + apply fmap_is_Some in Hd. destruct (emap_copies (@fst pval pval) snd
        (λ '(k, x), let! x := semi_deepcopy n x in eret (k, x))%eff n) with (l := d) (s := s)
        as (s' & d' & E & Hs' & Hg & Hb & Hl); [|done| |].
      * intros s1 [k x] H1 H2 H3. destruct (IH s1 x H1 H2 H3) as (s2 & x' & E & Hc).
        exists s2, (k, x'). unfold ebind. by rewrite E.
      * apply Forall_and. split; [by apply (wf_closed _ Hs) in Er|].
        apply mapM_items in Hd. eapply Forall_impl; [exact Hd|]. intros kv Hkv.
        by apply fmap_is_Some in Hkv.
      * unfold ebind at 1. rewrite E. eexists _, _. split; [reflexivity|].
        apply copies_alloc; [done..|]. intros s'' [|m] Hg' Ho; [done|]. cbn [deep]. rewrite Ho, Er.
        f_equal. eapply mapM_Forall2, Forall2_impl; [exact Hl|]. intros x y (Hk & Hy & Hxy).
        by rewrite Hk, <- Hxy, (deep_below s').
    + eexists _, _. split; [reflexivity|]. apply copies_alloc; [done|apply grows_refl|done|].
      intros s'' [|m] _ Ho; [done|]. cbn [deep]. by rewrite Ho, Er.
Qed.

Lemma copy_items_copies limit {K} (d : list (K * pval)) s :
  wf_store s → Forall (λ kv, below s kv.2 ∧ is_Some (deep limit s kv.2)) d →
  ∃ s' d', copy_items limit d s = (s', Ok d') ∧ wf_store s' ∧ grows s s' ∧
    Forall (λ kv, below s' kv.2) d' ∧
    Forall2 (λ kv kv', kv'.1 = kv.1 ∧ below s' kv'.2 ∧ ∀ m, deep m s' kv'.2 = deep m s kv.2) d d'.
Proof.
  intros Hs Hd. apply (emap_copies fst snd _ limit); [|done..].
  intros s1 [k x] H1 H2 H3. destruct (semi_deepcopy_copies limit s1 x H1 H2 H3) as (s2 & x' & E & Hc).
  exists s2, (k, x'). unfold ebind. by rewrite E.
Qed.

Lemma copied_map (s s' : pst) (M : gmap text pval) (d' : list (text * pval)) :
  Forall2 (λ kv kv', kv'.1 = kv.1 ∧ below s' kv'.2 ∧ ∀ m, deep m s' kv'.2 = deep m s kv.2)
    (map_to_list M) d' →
  ∀ k m, deep m s' <$> ((list_to_map d' : gmap text pval) !! k) = deep m s <$> M !! k.
Proof.
  intros Hl k m. assert (d'.*1 = (map_to_list M).*1) as Hkeys.
  { clear k m. induction Hl as [|x y l l' [Hk _] _ IH]; cbn; [done|]. by rewrite Hk, IH. }
  destruct (M !! k) as [v|] eqn:Ek; cbn.
  - apply elem_of_map_to_list, list_elem_of_lookup in Ek as [i Hi].
    destruct (Forall2_lookup_l _ _ _ _ _ Hl Hi) as ([k' v'] & Hi' & Hk & _ & Hd). cbn in Hk, Hd. subst k'.
    erewrite elem_of_list_to_map_1 with (x := v'); [cbn; by rewrite Hd| |].
    + rewrite Hkeys. apply NoDup_fst_map_to_list.
    + by eapply list_elem_of_lookup_2.
  - rewrite not_elem_of_list_to_map_1; [done|]. rewrite Hkeys.
    apply not_elem_of_list_to_map_2. by rewrite list_to_map_to_list.
Qed.

Lemma as_builder_items d : as_builders (builder_items d) = Ok d.
Proof.
  unfold as_builders, builder_items. induction d as [|[k x] d IH]; cbn; [done|].
  unfold rmap in IH |- *. cbn. by rewrite IH.
Qed.

(** The variable [BUILDERS], if there is one, is a [BuilderDict]. *)
Definition has_builders (s : pst) (b : nat) : Prop :=
  ∀ v, base_dict b s !! T "BUILDERS" = Some v → ∃ e d, obj_of v s = Some (OBuilders e d).

Lemma deep_builders s v d : deep 1 s v = Some (DBuilders d) → ∃ e, obj_of v s = Some (OBuilders e d).
Proof.
  intros Hd. destruct v as [t|z| |l|r|o]; try done; cbn [deep] in Hd; [by destruct (mapM _ _)|].
  cbn [obj_of]. destruct (objs s !! r) as [[c l|d'|e d']|]; [by destruct (mapM _ _)..| |done].
  injection Hd as <-. by eexists.
Qed.
Lemma builders_deep s v e d m :
  obj_of v s = Some (OBuilders e d) → deep (S m) s v = Some (DBuilders d).
Proof. intros Ho. destruct v; try done. cbn in *. by rewrite Ho. Qed.

Lemma base_set c m s : base_dict c (with_bases (insert c m) s) = m.
Proof. unfold base_dict. cbn. by rewrite lookup_insert_eq. Qed.

(** [BUILDERS] becomes a [BuilderDict] of the clone, with the same builders. *)
Lemma builders_step s c v' e d :
  wf_store s → (∀ k v, base_dict c s !! k = Some v → below s v) →
  base_dict c s !! T "BUILDERS" = Some v' → obj_of v' s = Some (OBuilders e d) →
  ∃ s1, (let! bd := new_BuilderDict v' c in set_var c (T "BUILDERS") bd)%eff s = (s1, Ok tt) ∧
    ∀ k m, deep m s1 <$> base_dict c s1 !! k = deep m s <$> base_dict c s !! k.
Proof.
  intros Hs Hc Eb Ho. unfold ebind, new_BuilderDict. unfold dict_items. rewrite Ho, as_builder_items.
  eexists. split; [reflexivity|]. intros k m.
  assert (∀ o m v, below s v → deep m (set_var c (T "BUILDERS") (PRef (onext s)) (alloc o s).1).1 v
    = deep m s v) as Hd.
  { intros o' m' v Hv. eapply deep_frame; [by apply wf_closed| |exact Hv].
    intros r Hr. cbn in *. rewrite lookup_insert_ne by lia. done. }
  rewrite base_set. destruct (decide (k = T "BUILDERS")) as [->|Hk].
  - rewrite lookup_insert_eq, Eb. cbn [fmap option_fmap option_map]. f_equal. destruct m as [|m]; [done|].
    rewrite (builders_deep _ _ _ _ _ Ho). cbn. by rewrite lookup_insert_eq.
  - rewrite lookup_insert_ne by done. change (base_dict c _ !! k) with (base_dict c s !! k).
    destruct (base_dict c s !! k) as [v|] eqn:Ev; [|done]. cbn [fmap option_fmap option_map]. f_equal.
    apply (Hd (OBuilders c d) m v). by eapply Hc.
Qed.

Lemma deep_objs s s' m v : objs s' = objs s → deep m s' v = deep m s v.
Proof.
  intros E. apply (deep_frame (λ _, True)); [|by rewrite E|by apply Forall_true].
  intros r o _ _. apply oown_refs. by apply Forall_true.
Qed.
Lemma has_builders_copy s b s' c v :
  has_builders s b → (∀ k m, deep m s' <$> base_dict c s' !! k = deep m s <$> base_dict b s !! k) →
  base_dict c s' !! T "BUILDERS" = Some v → ∃ e d, obj_of v s' = Some (OBuilders e d).
Proof.
  intros Hb Hsame Hv. specialize (Hsame (T "BUILDERS") 1). rewrite Hv in Hsame.
  destruct (base_dict b s !! _) as [v0|] eqn:E; [|done]. destruct (Hb v0 E) as (e & d & Ho).
  cbn [fmap option_fmap option_map] in Hsame. rewrite (builders_deep _ _ _ _ 0 Ho) in Hsame.
  injection Hsame as Hd. apply deep_builders in Hd as [e' He]. by exists e', d.
Qed.

Section contents.
Context (limit : nat) (pstr : pst → pval → text) (is_a_Builder : pval → bool).
Context (call_tool : envref → pval → pm unit) (ParseFlags : envref → pval → pm pval).

(** Every variable is within the recursion limit. *)
Definition shallow (s : pst) (b : nat) : Prop :=
  ∀ k v, base_dict b s !! k = Some v → is_Some (deep limit s v).
(** The variables of [c] in [s'] are those of [b] in [s], with the same contents. *)
Definition same_vars (s : pst) (b : nat) (s' : pst) (c : nat) : Prop :=
  ∀ k m, deep m s' <$> base_dict c s' !! k = deep m s <$> base_dict b s !! k.

Lemma clone_copy_contents s b :
  wf_store s → shallow s b → has_builders s b →
  ∃ s1, clone_copy limit (EBase b) s = (s1, Ok (EBase (enext s))) ∧ same_vars s b s1 (enext s).
Proof.
  intros Hs Hd Hb. set (c := enext s).
  destruct (copy_items_copies limit (map_to_list (base_dict b s)) s) as (s' & d' & E & Hs' & Hg & Hb' & Hl);
    [done| |].
  { apply Forall_forall. intros [k v] Hkv%elem_of_map_to_list. split; [by eapply wf_vars|by eapply Hd]. }
  set (s2 := with_gsm (delete c) (with_bases (insert c (list_to_map d'))
    (PSt (objs s') (onext s') (bases s') (overs s') (gsm s') (S c) (warned s')))).
  assert (base_dict c s2 = list_to_map d') as E2 by apply base_set.
  assert (same_vars s b s2 c) as Hsame.
  { intros k m. rewrite E2. rewrite <- (copied_map _ _ _ _ Hl k m).
    destruct (_ !! k); [|done]. cbn [fmap option_fmap option_map]. f_equal. by apply deep_objs. }
  assert (∀ k v, base_dict c s2 !! k = Some v → below s2 v) as Hbelow.
  { rewrite E2. intros k v Hk%elem_of_list_to_map_2. rewrite Forall_forall in Hb'.
    by apply (Hb' (k, v)). }
  assert (wf_store s2) as Hs2.
  { destruct Hs'. split; cbn; [done..| |].
    - intros b' k v. destruct (decide (b' = c)) as [->|Hne]; [by apply Hbelow|].
      unfold base_dict. cbn. rewrite lookup_insert_ne by done. apply wf_vars0.
    - intros x Hx. rewrite lookup_insert_ne by lia. apply wf_bases0. rewrite (gr_enext _ _ Hg). fold c. lia. }
  unfold clone_copy, ebind at 1. cbn [base_of]. rewrite E. unfold ebind at 1, new_env.
  rewrite (gr_enext _ _ Hg). fold c. unfold ebind at 1, emod. unfold ebind at 1.
  change (with_gsm (delete c) _) with s2. destruct (base_dict c s2 !! T "BUILDERS") as [v|] eqn:Ev.
  - destruct (has_builders_copy _ _ _ _ _ Hb Hsame Ev) as (e & d & Ho).
    destruct (builders_step s2 c v e d Hs2 Hbelow Ev Ho) as (s1 & E1 & Hd1). rewrite E1.
    exists s1. split; [done|]. intros k m. by rewrite Hd1.
  - by exists s2.
Qed.

(** [Clone] without keywords of an environment in a well-formed store, whose
    variables are within the recursion limit and whose [BUILDERS], if there is
    one, is a [BuilderDict], returns a new environment with the same variables,
    each with the same contents through all its lists and dictionaries. *)
Theorem clone_same_contents s b :
  wf_store s → shallow s b → has_builders s b →
  ∃ s1, Clone limit pstr is_a_Builder call_tool ParseFlags (EBase b) [] None None [] s
        = (s1, Ok (EBase (enext s))) ∧ same_vars s b s1 (enext s).
Proof.
  intros Hs Hd Hb. destruct (clone_copy_contents s b Hs Hd Hb) as (s1 & E & Hsame).
  unfold Clone, ebind at 1. rewrite E. eexists. split; [reflexivity|].
  intros k m. rewrite <- Hsame. cbn. unfold base_dict. cbn.
  destruct (_ !! k); [|done]. cbn. f_equal. by apply deep_objs.
Qed.
End contents.

(** ** A store with one environment

    [CCFLAGS] is a list with a list in it, [CPPDEFINES] a dictionary that holds
    the same inner list, which is also [FLAGS]; one more list is a caller's. *)
Definition one_vars : list (text * pval) :=
  [(T "CCFLAGS", PRef 0); (T "CPPDEFINES", PRef 2); (T "BUILDERS", PRef 3);
   (T "FLAGS", PRef 1)].
Definition one_env : pst :=
  PSt (list_to_map
         [(0, OList CLVar [PStr (T "-O2"); PRef 1]); (1, OList PlainList [PStr (T "-g")]);
          (2, ODict [(PStr (T "DEBUG"), PRef 1)]); (3, OBuilders 0 [(PStr (T "Object"), 7)]);
          (4, OList PlainList [PStr (T "-p"); PStr (T "-g"); PStr (T "-p")])])
      5
      {[0 := list_to_map one_vars]} ∅ ∅ 1 [].
(** A tool that adds to [CCFLAGS]. *)
Definition flag_tool (e : envref) (t : pval) : pm unit :=
  run_op 10 (λ _, true) e (OpAppend [(T "CCFLAGS", t)]).
Lemma flag_tool_local : tools_local flag_tool.
Proof.
  intros t s b c Hs. unfold flag_tool. by apply step_separate.
Qed.
Lemma one_env_vars b :
  base_dict b one_env = if decide (b = 0) then list_to_map one_vars else ∅.
Proof.
  unfold base_dict, one_env. cbn [bases]. destruct (decide (b = 0)) as [->|Hb].
  - by rewrite lookup_singleton_eq.
  - by rewrite lookup_singleton_ne.
Qed.
Lemma one_env_wf : wf_store one_env.
Proof.
  split.
  - intros r o _ E. unfold one_env in E. cbn [objs] in E. apply elem_of_list_to_map_2 in E.
    repeat (apply elem_of_cons in E as [[= -> ->]|E]; [repeat constructor|]).
    by apply not_elem_of_nil in E.
  - intros r Hr. cbn in Hr. apply not_elem_of_list_to_map_1. cbn.
    rewrite !not_elem_of_cons. split_and!; [lia..|apply not_elem_of_nil].
  - intros b k v. rewrite one_env_vars. destruct (decide (b = 0)) as [->|Hb]; [|done]. intros E.
    apply elem_of_list_to_map_2 in E. unfold one_vars in E.
    repeat (apply elem_of_cons in E as [[= -> ->]|E]; [repeat constructor|]).
    by apply not_elem_of_nil in E.
  - intros c Hc. cbn in Hc. apply lookup_singleton_ne. lia.
Qed.

Definition str_none (s : pst) (v : pval) : text := [].
Definition no_flags (e : envref) (v : pval) : pm pval := eraise TypeError.
(** A clone of it with a keyword and a tool. *)
Definition one_clone : pst * res exn envref :=
  Clone 10 str_none (λ _, true) flag_tool no_flags (EBase 0) [PStr (T "-Wall")] None None
    [(T "CC", PStr (T "gcc"))] one_env.

(** The clone is made; the tool changed its flags alone; and a flag added to the
    original leaves the clone. *)
Lemma clone_independent_witness :
  let add := OpAppend [(T "CCFLAGS", PStr (T "-pg"))] in
  let s2 := interleave 10 (λ _, true) 0 1 [(false, add); (true, OpDelete (T "CPPDEFINES"))] one_clone.1 in
  one_clone.2 = Ok (EBase 1) ∧
  (deep 9 one_clone.1 <$> env_get (EBase 1) (T "CCFLAGS") one_clone.1) =
    Some (Some (DList CLVar [DStr (T "-O2"); DList PlainList [DStr (T "-g")]; DStr (T "-Wall")])) ∧
  same_env 1 s2 (run_op 10 (λ _, true) (EBase 0) add s2).1.
Proof.
  assert (one_clone.2 = Ok (EBase 1)) as E by (vm_compute; reflexivity).
  intros add s2. split; [exact E|]. split; [vm_compute; reflexivity|].
  assert (Clone 10 str_none (λ _, true) flag_tool no_flags (EBase 0) [PStr (T "-Wall")] None None
    [(T "CC", PStr (T "gcc"))] one_env = (one_clone.1, Ok (EBase 1))) as Ec
    by (rewrite <- E; apply surjective_pairing).
  exact (proj1 (proj2 (proj2 (clone_independent 10 str_none (λ _, true) flag_tool no_flags one_env 0
    [PStr (T "-Wall")] [(T "CC", PStr (T "gcc"))] one_clone.1 (EBase 1)
    [(false, add); (true, OpDelete (T "CPPDEFINES"))] add flag_tool_local one_env_wf Nat.lt_0_1 Ec)))).
Defined.

Lemma clone_same_contents_witness :
  ∃ s1, Clone 10 str_none (λ _, true) flag_tool no_flags (EBase 0) [] None None [] one_env
        = (s1, Ok (EBase 1)) ∧ same_vars one_env 0 s1 1.
Proof.
  apply (clone_same_contents 10 str_none (λ _, true) flag_tool no_flags one_env 0).
  - apply one_env_wf.
  - intros k v. rewrite one_env_vars. intros E. apply elem_of_list_to_map_2 in E. unfold one_vars in E.
    repeat (apply elem_of_cons in E as [[= -> ->]|E]; [vm_compute; by eexists|]).
    by apply not_elem_of_nil in E.
  - intros v E. exists 0, [(PStr (T "Object"), 7)].
    assert (base_dict 0 one_env !! T "BUILDERS" = Some (PRef 3)) as E3 by (vm_compute; reflexivity).
    rewrite E3 in E. injection E as <-. vm_compute. reflexivity.
Defined.
