(* ===== verification/EnvAppend.v ===== *)
(** * Adding to construction variables

    [Append] and [Prepend] of [Env] refine functions on the contents of the
    variables; [AppendUnique] on lists of strings; and what happens to objects
    that are shared. *)

From S2P Require Import Prelude Errors PyStr Subst Env EnvFacts EnvClone.
Open Scope nat_scope.

(** ** Contents *)

Lemma mapM_impl {A X} (f g : A → option X) l k :
  (∀ x y, f x = Some y → g x = Some y) → mapM f l = Some k → mapM g l = Some k.
Proof.
  intros Hfg. revert k. induction l as [|x l IH]; cbn; [done|]. intros k.
  destruct (f x) as [y|] eqn:E; [|done]. cbn. rewrite (Hfg _ _ E). cbn.
  destruct (mapM f l) as [k'|]; [|done]. by rewrite (IH k').
Qed.
Lemma fmap_impl {X Y} (h : X → Y) (o o' : option X) z :
  (∀ y, o = Some y → o' = Some y) → h <$> o = Some z → h <$> o' = Some z.
Proof. intros Ho. destruct o as [x|]; [|done]. by rewrite (Ho x). Qed.

Lemma deep_S n s v d : deep n s v = Some d → deep (S n) s v = Some d.
Proof.
  revert v d. induction n as [|n IH]; intros v d E; [done|].
  destruct v as [t|z| |l|r|o]; try exact E.
  - cbn in E |- *. eapply fmap_impl; [|exact E]. intros k. apply mapM_impl, IH.
  - cbn in E |- *. destruct (objs s !! r) as [[c l|d'|e d']|]; try exact E.
    + eapply fmap_impl; [|exact E]. intros k. apply mapM_impl, IH.
    + eapply fmap_impl; [|exact E]. intros k. apply mapM_impl. intros [a x] y. cbn.
      apply fmap_impl, IH.
Qed.
Lemma deep_le n m s v d : n ≤ m → deep n s v = Some d → deep m s v = Some d.
Proof. induction 1 as [|m _ IH]; [done|]. intros E. by apply deep_S, IH. Qed.
(** What a value holds: its contents at some depth. *)
Definition holds (s : pst) (v : pval) (d : dval) : Prop := ∃ n, deep n s v = Some d.
Lemma holds_inj s v d d' : holds s v d → holds s v d' → d = d'.
Proof.
  intros [n E] [m E']. apply (deep_le _ (n `max` m)) in E; [|lia].
  apply (deep_le _ (n `max` m)) in E'; [|lia]. congruence.
Qed.

Fixpoint dsize (d : dval) : nat :=
  match d with
  | DTuple l | DList _ l => S (sum_list (map dsize l))
  | DDict d => S (sum_list (map (λ kv, dsize kv.2) d))
  | _ => 1
  end.

Lemma holds_list s r c l n k :
  objs s !! r = Some (OList c l) → mapM (deep n s) l = Some k → holds s (PRef r) (DList c k).
Proof. intros Hr Hl. exists (S n). cbn. by rewrite Hr, Hl. Qed.

Lemma mapM_size {A X} (size : X → nat) (f : A → option X) l k x y :
  mapM f l = Some k → x ∈ l → f x = Some y → size y ≤ sum_list (map size k).
Proof.
  revert k. induction l as [|a l IH]; intros k E Hx Ey; [by apply not_elem_of_nil in Hx|].
  cbn in E. destruct (f a) as [b|] eqn:Ea; [|done]. cbn in E.
  destruct (mapM f l) as [k'|]; [|done]. injection E as <-. cbn.
  apply elem_of_cons in Hx as [->|Hx]; [|specialize (IH k' eq_refl Hx Ey); lia].
  rewrite Ea in Ey. injection Ey as ->. lia.
Qed.
Lemma mapM_transfer {A X} (f g : A → option X) l k :
  mapM f l = Some k → (∀ x y, x ∈ l → f x = Some y → g x = Some y) → mapM g l = Some k.
Proof.
  revert k. induction l as [|x l IH]; intros k E Hf; [done|]. cbn in E |- *.
  destruct (f x) as [y|] eqn:Ex; [|done]. cbn in E. destruct (mapM f l) as [k'|] eqn:El; [|done].
  injection E as <-. rewrite (Hf x y); [|left|done]. cbn. rewrite (IH k'); [done..|].
  intros. apply Hf; [by right|done].
Qed.

(** Values with less in them than an object do not lead to it: a change of the
    object leaves them as they are. *)
Lemma deep_smaller s s' r D n v d :
  holds s (PRef r) D → (∀ r', r' ≠ r → objs s' !! r' = objs s !! r') →
  deep n s v = Some d → dsize d < dsize D → deep n s' v = Some d.
Proof.
  intros HD Ho. revert v d. induction n as [|n IH]; intros v d E Hd; [done|].
  assert (∀ l k, mapM (deep n s) l = Some k → sum_list (map dsize k) < dsize D →
    mapM (deep n s') l = Some k) as Hl.
  { intros l k El Hk. eapply mapM_transfer; [exact El|]. intros x y Hx Ey. apply IH; [done|].
    pose proof (mapM_size dsize _ _ _ _ _ El Hx Ey). lia. }
  destruct v as [t|z| |l|r'|o]; try exact E.
  - cbn in E |- *. destruct (mapM _ l) as [k|] eqn:El; [|done]. cbn in E. injection E as <-.
    cbn in Hd. rewrite (Hl l k El); [done|lia].
  - destruct (decide (r' = r)) as [->|Hne].
    { assert (d = D) as -> by (eapply holds_inj; [by eexists|done]). lia. }
    cbn in E |- *. rewrite Ho by done. destruct (objs s !! r') as [[c l|e|e' d']|]; try exact E.
    + destruct (mapM _ l) as [k|] eqn:El; [|done]. cbn in E. injection E as <-.
      cbn in Hd. rewrite (Hl l k El); [done|lia].
    + destruct (mapM _ e) as [k|] eqn:El; [|done]. cbn in E. injection E as <-. cbn in Hd.
      erewrite mapM_transfer; [done|exact El|]. intros [a x] y Hx Ey. cbn in Ey |- *.
      eapply fmap_impl; [|exact Ey]. intros z Ez. apply IH; [done|].
      pose proof (mapM_size (λ kv : pval * dval, dsize kv.2) _ _ _ _ _ El Hx Ey) as Hs.
      rewrite Ez in Ey. injection Ey as <-. cbn in Hs. lia.
Qed.

(** *** What values hold, case by case *)

Lemma mapM_holds n s l k : mapM (deep n s) l = Some k → Forall2 (holds s) l k.
Proof.
  revert k. induction l as [|x l IH]; intros k E; cbn in E; [by injection E as <-|].
  destruct (deep n s x) as [y|] eqn:Ey; [|done]. cbn in E.
  destruct (mapM _ l) as [k'|]; [|done]. injection E as <-.
  constructor; [by exists n|by apply IH].
Qed.
Lemma holds_mapM s l k : Forall2 (holds s) l k → ∃ n, mapM (deep n s) l = Some k.
Proof.
  induction 1 as [|x y l k [n Ex] _ [m El]]; [by exists 0|]. exists (n `max` m). cbn.
  rewrite (deep_le n _ s x y) by (done || lia). cbn.
  rewrite (mapM_impl (deep m s) _ l k); [done| |done]. intros. eapply deep_le; [|done]. lia.
Qed.

Lemma holds_tuple s l k : Forall2 (holds s) l k → holds s (PTuple l) (DTuple k).
Proof. intros [n E]%holds_mapM. exists (S n). cbn. by rewrite E. Qed.
Lemma holds_ref s r c l k :
  objs s !! r = Some (OList c l) → Forall2 (holds s) l k → holds s (PRef r) (DList c k).
Proof. intros Hr [n E]%holds_mapM. exists (S n). cbn. by rewrite Hr, E. Qed.

(** Values of the basic types hold themselves. *)
Definition plain (v : pval) : option dval :=
  match v with
  | PStr t => Some (DStr t)
  | PInt z => Some (DInt z)
  | PNone => Some DNone
  | PObj o => Some (DObj o)
  | _ => None
  end.
Lemma holds_plain s v d : plain v = Some d → holds s v d.
Proof. intros E. exists 1. by destruct v; simplify_eq/=. Qed.

Inductive view (s : pst) : pval → dval → Prop :=
| view_plain v d : plain v = Some d → view s v d
| view_tuple l k : Forall2 (holds s) l k → view s (PTuple l) (DTuple k)
| view_list r c l k :
    objs s !! r = Some (OList c l) → Forall2 (holds s) l k → view s (PRef r) (DList c k)
| view_dict r e k : objs s !! r = Some (ODict e) → view s (PRef r) (DDict k)
| view_builders r e k : objs s !! r = Some (OBuilders e k) → view s (PRef r) (DBuilders k).
Lemma holds_view s v d : holds s v d → view s v d.
Proof.
  intros [[|n] E]; [done|]. destruct v as [t|z| |l|r|o]; try (by apply view_plain).
  - cbn in E. destruct (mapM _ l) as [k|] eqn:El; [|done]. injection E as <-.
    apply view_tuple. by eapply mapM_holds.
  - cbn in E. destruct (objs s !! r) as [[c l|e|e d']|] eqn:Er; [| | |done].
    + destruct (mapM _ l) as [k|] eqn:El; [|done]. injection E as <-.
      eapply view_list; [done|]. by eapply mapM_holds.
    + destruct (mapM _ e); [|done]. injection E as <-. by eapply view_dict.
    + injection E as <-. by eapply view_builders.
Qed.

Lemma holds_grows s s' v d : wf_store s → below s v → grows s s' → holds s v d → holds s' v d.
Proof. intros Hs Hv Hg [n E]. exists n. by rewrite (deep_below s). Qed.
Lemma holds_items_grow s s' l k :
  wf_store s → lown (λ r, r < onext s) l → grows s s' →
  Forall2 (holds s) l k → Forall2 (holds s') l k.
Proof.
  intros Hs Hl Hg Hk. eapply Forall2_impl_l; [exact Hl|exact Hk|]. intros. by eapply holds_grows.
Qed.

(** ** The functions on contents *)

Definition ditems (d : dval) : list dval :=
  match d with
  | DStr t => map DStr (split_ws t)
  | DTuple l | DList _ l => l
  | _ => [d]
  end.
(** [v + w] *)
Definition dadd (v w : dval) : option dval :=
  match v, w with
  | DList CLVar l, _ => Some (DList CLVar (l ++ ditems w))
  | _, DList CLVar k => Some (DList CLVar (ditems v ++ k))
  | DList PlainList l, DList PlainList k => Some (DList PlainList (l ++ k))
  | DStr a, DStr b => Some (DStr (a ++ b))
  | DInt a, DInt b => Some (DInt (a + b))
  | DTuple l, DTuple k => Some (DTuple (l ++ k))
  | _, _ => None
  end.
Definition dtruthy (d : dval) : bool :=
  match d with
  | DStr t => negb (bool_decide (t = []))
  | DInt z => negb (z =? 0)%Z
  | DNone => false
  | DTuple l | DList _ l => negb (bool_decide (length l = 0))
  | DDict l => negb (bool_decide (length l = 0))
  | DBuilders l => negb (bool_decide (length l = 0))
  | DObj _ => true
  end.
(** A variable with the contents [old] to which [val] is added: what cannot be
    concatenated becomes an element; [None] where neither is a list. *)
Definition dappend (old val : dval) : option dval :=
  match dadd old val with
  | Some new => Some new
  | None =>
      match old, val with
      | DList c l, _ => Some (if dtruthy val then DList c (l ++ [val]) else old)
      | _, DList c l => Some (if dtruthy old then DList c (old :: l) else val)
      | _, _ => if dtruthy old then None else Some val
      end
  end.
Definition dprepend (old val : dval) : option dval :=
  match dadd val old with
  | Some new => Some new
  | None =>
      match val, old with
      | DList c l, _ => Some (if dtruthy old then DList c (l ++ [old]) else val)
      | _, DList c l => Some (if dtruthy val then DList c (val :: l) else old)
      | _, _ => if dtruthy val then None else Some old
      end
  end.

Lemma clvar_items_holds s v d :
  holds s v d → Forall2 (holds s) (clvar_items v s) (ditems d).
Proof.
  intros Hv. pose proof Hv as Hw%holds_view. destruct Hw as [v d Hp|l k Hl|r c l k Hr Hl|r e k Hr|r e k Hr].
  - unfold clvar_items. destruct v; simplify_eq/=; try by repeat constructor.
    induction (split_ws s0) as [|t l IH]; constructor; [by apply holds_plain|done].
  - done.
  - unfold clvar_items. cbn. by rewrite Hr.
  - unfold clvar_items. cbn. rewrite Hr. by repeat constructor.
  - unfold clvar_items. cbn. rewrite Hr. by repeat constructor.
Qed.
Lemma truthy_holds s v d : holds s v d → truthy v s = dtruthy d.
Proof.
  intros Hv. pose proof Hv as Hw%holds_view. destruct Hw as [v d Hp|l k Hl|r c l k Hr Hl|r e k Hr|r e k Hr].
  - by destruct v; simplify_eq/=.
  - cbn. by rewrite (Forall2_length _ _ _ Hl).
  - cbn. rewrite Hr. by rewrite (Forall2_length _ _ _ Hl).
  - cbn. rewrite Hr. destruct Hv as [[|n] E]; [done|]. cbn in E. rewrite Hr in E.
    destruct (mapM _ e) as [k'|] eqn:Ee; [|done]. injection E as ->.
    by rewrite (length_mapM _ _ _ Ee).
  - cbn. by rewrite Hr.
Qed.
Definition is_DList (d : dval) : bool := match d with DList _ _ => true | _ => false end.
Lemma is_List_holds s v d : holds s v d → is_List v s = is_DList d.
Proof.
  intros Hw%holds_view. destruct Hw as [v d Hp|l k Hl|r c l k Hr Hl|r e k Hr|r e k Hr]; [|done|..];
    [by destruct v; simplify_eq/=|..]; unfold is_List; cbn; by rewrite Hr.
Qed.

(** ** [v + w] *)

Lemma alloc_holds s c l k :
  wf_store s → lown (λ r, r < onext s) l → Forall2 (holds s) l k →
  ∃ s' u, alloc (OList c l) s = (s', Ok u) ∧ grows s s' ∧ holds s' u (DList c k).
Proof.
  intros Hs Hl Hk. eexists _, _. split; [reflexivity|].
  assert (grows s (alloc (OList c l) s).1) as Hg by apply growing_run, growing_alloc.
  split; [exact Hg|]. eapply holds_ref; [cbn; apply lookup_insert_eq|]. by eapply holds_items_grow.
Qed.

Lemma below_items s r c l : wf_store s → below s (PRef r) → objs s !! r = Some (OList c l) → lown (λ r, r < onext s) l.
Proof. intros Hs Hv Hr. apply (wf_closed _ Hs) in Hr; [done|]. by apply Forall_inv in Hv. Qed.
Lemma below_clvar s v : wf_store s → below s v → lown (λ r, r < onext s) (clvar_items v s).
Proof.
  intros Hs Hv. destruct v as [t|z| |l|r|o]; unfold clvar_items; cbn; try by repeat constructor.
  - induction (split_ws t); constructor; [constructor|done].
  - by apply lown_tuple.
  - destruct (objs s !! r) as [[c l|e|e d]|] eqn:Hr; [by eapply below_items|by apply Forall_singleton..].
Qed.

(** Concatenation makes a new object, or changes nothing. *)
Lemma padd_holds s v w d e :
  wf_store s → below s v → below s w → holds s v d → holds s w e →
  match dadd d e with
  | Some x => ∃ s' u, padd v w s = (s', Ok u) ∧ grows s s' ∧ holds s' u x
  | None => padd v w s = (s, Raise TypeError)
  end.
Proof.
  intros Hs Hv Hw Hd He. pose proof (clvar_items_holds _ _ _ Hd) as Hdi.
  pose proof (clvar_items_holds _ _ _ He) as Hei.
  pose proof (below_clvar _ _ Hs Hv) as Hbd. pose proof (below_clvar _ _ Hs Hw) as Hbe.
  assert (∀ c l l' k k', lown (λ r, r < onext s) l → lown (λ r, r < onext s) l' →
    Forall2 (holds s) l k → Forall2 (holds s) l' k' →
    ∃ s' u, alloc (OList c (l ++ l')) s = (s', Ok u) ∧ grows s s' ∧ holds s' u (DList c (k ++ k'))) as Happ.
  { intros. apply alloc_holds; [done|by apply Forall_app_2|by apply Forall2_app]. }
  assert (∀ (u : pval) x, plain u = Some x → ∃ s' u', (s, Ok u : res exn pval) = (s', Ok u') ∧
    grows s s' ∧ holds s' u' x) as Hplain.
  { intros u x Hu. exists s, u. split; [done|]. split; [apply grows_refl|by apply holds_plain]. }
  pose proof Hd as Hd'%holds_view. pose proof He as He'%holds_view.
  unfold padd.
  destruct Hd' as [v d Hp|l k Hl|r [] l k Hr Hl|r x k Hr|r x k Hr];
    destruct He' as [w e Hp'|l' k' Hl'|r' [] l' k' Hr' Hl'|r' x' k' Hr'|r' x' k' Hr'];
    try (destruct v; try discriminate Hp; injection Hp as <-);
    try (destruct w; try discriminate Hp'; injection Hp' as <-);
    cbn [obj_of]; rewrite ?Hr, ?Hr'; cbn [dadd ditems] in *.
  all: try reflexivity; try (by apply Hplain);
    try (by apply Happ; first [assumption|exact (below_items _ _ _ _ Hs Hv Hr)
      |exact (below_items _ _ _ _ Hs Hw Hr')]).
  exists s, (PTuple (l ++ l')). split; [done|]. split; [apply grows_refl|].
  by apply holds_tuple, Forall2_app.
Qed.

(** ** Elements added in place *)

(** [o] is put in place of the list at [r]: its new items may be old ones, and
    values of which [r] is no part. *)
Lemma put_holds s r c l c' l' D k' :
  objs s !! r = Some (OList c l) → holds s (PRef r) D →
  Forall2 (λ x y, (holds s x y ∧ dsize y < dsize D) ∨
                  (∃ B, closed B s ∧ vown B x ∧ ¬ B r ∧ holds s x y)) l' k' →
  holds (put r (OList c' l') s).1 (PRef r) (DList c' k').
Proof.
  intros Hr HD Hl. set (s' := (put r (OList c' l') s).1).
  assert (∀ r', r' ≠ r → objs s' !! r' = objs s !! r') as Ho by (intros; cbn; by apply lookup_insert_ne).
  eapply holds_ref; [cbn; apply lookup_insert_eq|]. eapply Forall2_impl; [exact Hl|].
  intros x y [[[n E] Hy]|(B & HB & Hx & HBr & [n E])].
  - exists n. by apply (deep_smaller s s' r D).
  - exists n. rewrite <- E. eapply deep_frame; [exact HB| |exact Hx].
    intros r' Hr'. apply Ho. by intros ->.
Qed.
Lemma items_smaller s r c l k n :
  objs s !! r = Some (OList c l) → mapM (deep n s) l = Some k →
  Forall2 (λ x y, holds s x y ∧ dsize y < dsize (DList c k)) l k.
Proof.
  intros Hr El. pose proof (mapM_holds _ _ _ _ El) as Hl.
  assert (∀ y, y ∈ k → dsize y < dsize (DList c k)) as Hk.
  { intros y Hy. cbn. clear -Hy. induction k as [|x k IH]; [by apply not_elem_of_nil in Hy|].
    apply elem_of_cons in Hy as [->|Hy]; cbn; [lia|]. specialize (IH Hy). lia. }
  clear El Hr. generalize dependent (dsize (DList c k)). intros N Hk.
  induction Hl as [|x y l k Hx _ IH]; [constructor|].
  constructor; [split; [done|apply Hk; left]|]. apply IH. intros z Hz. apply Hk. by right.
Qed.

Lemma on_list_other s v d f :
  holds s v d → is_DList d = false → on_list v f s = (s, Raise AttributeError).
Proof.
  intros Hw%holds_view Hd. destruct Hw as [v d Hp|l k Hl|r c l k Hr Hl|r e k Hr|r e k Hr];
    try done; [by destruct v; simplify_eq/=|..]; unfold on_list; cbn; by rewrite Hr.
Qed.
Lemma holds_DList s v c k :
  holds s v (DList c k) → ∃ r l n, v = PRef r ∧ objs s !! r = Some (OList c l) ∧
    mapM (deep n s) l = Some k.
Proof.
  intros [[|n] E]; [done|]. destruct v as [t|z| |l|r|o]; try done; cbn in E.
  - by destruct (mapM _ l).
  - destruct (objs s !! r) as [[c' l|e|e d']|] eqn:Er; [|by destruct (mapM _ e)|done..].
    destruct (mapM _ l) as [k'|] eqn:El; [|done]. injection E as -> ->. by exists r, l, n.
Qed.

Lemma on_list_here r c l f s :
  objs s !! r = Some (OList c l) → on_list (PRef r) f s = put r (OList c (f l)) s.
Proof. intros Hr. unfold on_list. cbn. by rewrite Hr. Qed.

(** The list [v] gets an element [x] of a part [B] of the store it is no part of. *)
Section element.
Context (s : pst) (B : nat → Prop) (v x : pval) (c : lclass) (k : list dval) (e : dval).
Context (HB : closed B s) (Hv : vown (λ r, ¬ B r) v) (Hx : vown B x).
Context (Hk : holds s v (DList c k)) (He : holds s x e).

Let items r l : Prop := objs s !! r = Some (OList c l) ∧ v = PRef r ∧ ¬ B r ∧
  Forall2 (λ x y, (holds s x y ∧ dsize y < dsize (DList c k)) ∨
                  (∃ B, closed B s ∧ vown B x ∧ ¬ B r ∧ holds s x y)) l k.
Lemma old_items : ∃ r l, items r l.
Proof.
  apply holds_DList in Hk as (r & l & n & E & Hr & El). exists r, l. split; [done|]. split; [done|].
  split; [rewrite E in Hv; by apply Forall_inv in Hv|].
  eapply Forall2_impl; [by eapply items_smaller|]. intros ? ? ?. by left.
Qed.
Lemma list_append_holds : ∃ s', list_append v x s = (s', Ok tt) ∧ bases s' = bases s ∧
  holds s' v (DList c (k ++ [e])).
Proof.
  destruct old_items as (r & l & Hr & -> & HBr & Hl). unfold list_append.
  rewrite (on_list_here r c l) by done. eexists. split; [reflexivity|]. split; [done|].
  eapply put_holds; [done..|]. apply Forall2_app; [done|]. constructor; [|constructor]. right. by exists B.
Qed.
Lemma list_insert0_holds : ∃ s', list_insert0 v x s = (s', Ok tt) ∧ bases s' = bases s ∧
  holds s' v (DList c (e :: k)).
Proof.
  destruct old_items as (r & l & Hr & -> & HBr & Hl). unfold list_insert0.
  rewrite (on_list_here r c l) by done. eexists. split; [reflexivity|]. split; [done|].
  eapply put_holds; [done..|]. constructor; [|done]. right. by exists B.
Qed.
End element.

Lemma set_var_holds s b key v d :
  holds s v d →
  (set_var b key v s).2 = Ok tt ∧
  ∃ u, base_dict b (set_var b key v s).1 !! key = Some u ∧ holds (set_var b key v s).1 u d.
Proof.
  intros [n E]. split; [done|]. exists v.
  split; [|exists n; rewrite <- E; by apply deep_objs].
  unfold set_var. cbn [emod fst]. rewrite base_set. apply lookup_insert_eq.
Qed.

(** ** The turns of [Append] and [Prepend] *)

Section turn.
Context (s : pst) (b : nat) (key : text) (orig val : pval) (d e : dval) (F G : nat → Prop).
Context (Hs : wf_store s) (Hkey : base_dict b s !! key = Some orig) (Hdict : is_Dict orig s = false).
Context (HF : closed F s) (HG : closed G s) (HFG : ∀ r, F r → G r → False).
Context (Ho : vown G orig) (Hv : vown F val) (Hbo : below s orig) (Hbv : below s val).
Context (Hd : holds s orig d) (He : holds s val e).

(** The outcome that the function on contents gives. *)
Definition turned (new : option dval) (r : pst * res exn unit) : Prop :=
  match new with
  | Some new => r.2 = Ok tt ∧ ∃ u, base_dict b r.1 !! key = Some u ∧ holds r.1 u new
  | None => r = (s, Raise AttributeError)
  end.

Lemma turned_here s' d' : bases s' = bases s → holds s' orig d' →
  turned (Some d') (s', Ok tt).
Proof. intros Hb Hh. split; [done|]. exists orig. unfold base_dict. cbn. by rewrite Hb. Qed.
Lemma turned_set s' v d' : holds s' v d' → turned (Some d') (set_var b key v s').
Proof. intros Hh. by apply set_var_holds. Qed.

(** The [try] around the concatenation. *)
Lemma try_padd v w dv dw (h : exn → pm unit) :
  below s v → below s w → holds s v dv → holds s w dw →
  match dadd dv dw with
  | Some x => turned (Some x) (ecatch (let! u := padd v w in set_var b key u)%eff h s)
  | None => ecatch (let! u := padd v w in set_var b key u)%eff h s = h TypeError s
  end.
Proof.
  intros Hbv' Hbw Hdv Hdw. pose proof (padd_holds s v w dv dw Hs Hbv' Hbw Hdv Hdw) as Hp.
  unfold ecatch, ebind. destruct (dadd dv dw) as [x|].
  - destruct Hp as (s' & u & -> & _ & Hu). pose proof (turned_set s' u x Hu) as Ht.
    destruct (set_var b key u s') as [s1 [[]|y]]; [done|]. by destruct Ht.
  - by rewrite Hp.
Qed.

Lemma apart_r (P Q : nat → Prop) v : (∀ r, P r → Q r → False) → vown P v → vown (λ r, ¬ Q r) v.
Proof. intros HPQ. apply vown_mono. naive_solver. Qed.

Lemma append_item_refines : turned (dappend d e) (append_item b key val s).
Proof.
  unfold append_item. rewrite Hkey, Hdict.
  match goal with |- turned _ (ecatch _ ?h s) =>
    pose proof (try_padd orig val d e h Hbo Hbv Hd He) as Ht end.
  unfold dappend. destruct (dadd d e) as [x|] eqn:Ed; [exact Ht|]. rewrite Ht. clear Ht.
  change (key_or_type TypeError) with true. cbv iota beta.
  rewrite (is_List_holds _ _ _ Hd), (truthy_holds _ _ _ He).
  destruct (is_DList d) eqn:Hl.
  - destruct d as [| | | |c k| | |]; try done. destruct (dtruthy e).
    + destruct (list_append_holds s F orig val c k e) as (s' & -> & Hb & Hh); [done| |done..|].
      { by apply (apart_r G F); [naive_solver|]. }
      by apply turned_here.
    + by apply turned_here.
  - rewrite (truthy_holds _ _ _ Hd).
    assert (turned (match e with
                    | DList c l => Some (if dtruthy d then DList c (d :: l) else e)
                    | _ => if dtruthy d then None else Some e
                    end)
      (((if dtruthy d then list_insert0 val orig else eret ()) ;;; set_var b key val)%eff s)) as Hgoal.
    2: { by destruct d. }
    destruct (dtruthy d).
    + destruct (is_DList e) eqn:Hle.
      * destruct e as [| | | |c k| | |]; try done.
        destruct (list_insert0_holds s G val orig c k d) as (s' & E & _ & Hh); [done| |done..|].
        { by apply (apart_r F G). }
        unfold ebind. rewrite E. by apply turned_set.
      * unfold ebind, list_insert0. rewrite (on_list_other s val e) by done. by destruct e.
    + unfold ebind, eret. destruct e; by apply turned_set.
Qed.
Lemma prepend_item_refines : turned (dprepend d e) (prepend_item b key val s).
Proof.
  unfold prepend_item. rewrite Hkey, Hdict.
  match goal with |- turned _ (ecatch _ ?h s) =>
    pose proof (try_padd val orig e d h Hbv Hbo He Hd) as Ht end.
  unfold dprepend. destruct (dadd e d) as [x|] eqn:Ed; [exact Ht|]. rewrite Ht. clear Ht.
  change (key_or_type TypeError) with true. cbv iota beta.
  rewrite (is_List_holds _ _ _ He), (truthy_holds _ _ _ He), (truthy_holds _ _ _ Hd).
  destruct (is_DList e) eqn:Hl.
  - destruct e as [| | | |c k| | |]; try done. destruct (dtruthy d).
    + destruct (list_append_holds s G val orig c k d) as (s' & E & _ & Hh); [done| |done..|].
      { by apply (apart_r F G). }
      unfold ebind. rewrite E. by apply turned_set.
    + unfold ebind, eret. by apply turned_set.
  - assert (turned (match d with
                    | DList c l => Some (if dtruthy e then DList c (e :: l) else d)
                    | _ => if dtruthy e then None else Some d
                    end)
      (if dtruthy e then list_insert0 orig val s else (s, Ok tt))) as Hgoal.
    2: { by destruct e. }
    destruct (dtruthy e).
    + destruct (is_DList d) eqn:Hld.
      * destruct d as [| | | |c k| | |]; try done.
        destruct (list_insert0_holds s F orig val c k e) as (s' & -> & Hb & Hh); [done| |done..|].
        { by apply (apart_r G F); [naive_solver|]. }
        by apply turned_here.
      * unfold list_insert0. rewrite (on_list_other s orig d) by done. by destruct d.
    + destruct d; by apply turned_here.
Qed.
End turn.

(** ** The methods *)

Lemma closed_grows s s' : closed (λ r, r < onext s) s → grows s s' → closed (λ r, r < onext s) s'.
Proof. intros Hc Hg r o Hr. rewrite (gr_objs _ _ Hg) by done. by apply Hc. Qed.

(** The copy of a value is made of new objects. *)
Lemma copy_fresh n s v s1 v1 :
  wf_store s → semi_deepcopy n v s = (s1, Ok v1) →
  closed (grown (λ _, False) s (onext s1)) s1 ∧ vown (grown (λ _, False) s (onext s1)) v1.
Proof.
  intros Hs E. destruct (yields_copy (grown (λ _, False) s (onext s1)) (enext s) s (onext s1) n v s)
    as [Hf Hv]; [by apply wf_framed|by rewrite E|].
  rewrite E in Hf, Hv. split; [exact (fr_closed _ _ _ _ _ Hf)|by apply Hv].
Qed.

Section methods.
Context (limit : nat).

Lemma copy_kw_one s key val s1 v1 :
  reserved key = false → semi_deepcopy limit val s = (s1, Ok v1) →
  copy_non_reserved_keywords limit [(key, val)] s = (s1, Ok [(key, v1)]).
Proof.
  intros Hr E. unfold copy_non_reserved_keywords, copy_items, emap, ebind. rewrite E.
  cbn [eret efor List.filter]. by rewrite Hr.
Qed.

(** What a method does to one variable, given by a function on contents. *)
Definition refines (f : dval → dval → option dval)
    (m : envref → list (text * pval) → pm unit) : Prop :=
  ∀ s b key val orig d e,
  wf_store s → reserved key = false → below s val → deep limit s val = Some e →
  base_dict b s !! key = Some orig → is_Dict orig s = false → holds s orig d →
  let r := m (EBase b) [(key, val)] s in
  match f d e with
  | Some new => r.2 = Ok tt ∧ ∃ u, base_dict b r.1 !! key = Some u ∧ holds r.1 u new
  | None => r.2 = Raise AttributeError ∧ same_env b s r.1
  end.

Lemma refines_turn f (turn : nat → text → pval → pm unit) :
  (∀ s b key orig val d e F G, wf_store s → base_dict b s !! key = Some orig →
    is_Dict orig s = false → closed F s → closed G s → (∀ r, F r → G r → False) →
    vown G orig → vown F val → below s orig → below s val → holds s orig d → holds s val e →
    turned s b key (f d e) (turn b key val s)) →
  refines f (λ en kw, let! kw := copy_non_reserved_keywords limit kw in
                      efor kw (λ '(key, val), turn (base_of en) key val) ;;;
                      scanner_map_delete en)%eff.
Proof.
  intros Hturn s b key val orig d e Hs Hr Hbv Ev Hkey Hdict Hd r.
  destruct (semi_deepcopy_copies limit s val Hs Hbv) as (s1 & v1 & Ec & [Hs1 Hg Hb1 Hdeep]);
    [by rewrite Ev|].
  destruct (copy_fresh _ _ _ _ _ Hs Ec) as [HF Hv1].
  pose proof (wf_vars _ Hs _ _ _ Hkey : below s orig) as Hbo.
  assert (is_Dict orig s1 = false) as Hdict1.
  { rewrite <- Hdict. unfold is_Dict. destruct orig as [| | | |r'|]; try done. cbn.
    rewrite (gr_objs _ _ Hg); [done|]. by apply Forall_inv in Hbo. }
  assert (turned s1 b key (f d e) (turn b key v1 s1)) as Ht.
  { apply (Hturn _ _ _ orig _ _ _ (grown (λ _, False) s (onext s1)) (λ r, r < onext s)); try done.
    - by rewrite (grows_base _ _ _ Hg).
    - by apply closed_grows; [apply wf_closed|].
    - intros r' [[]|[? _]]. cbn. lia.
    - by eapply below_grows.
    - by apply (holds_grows s s1).
    - exists limit. by rewrite Hdeep. }
  assert (r = match turn b key v1 s1 with
              | (s2, Ok _) => (with_gsm (delete b) s2, Ok tt)
              | (s2, Raise x) => (s2, Raise x)
              end) as ->.
  { subst r. cbv beta. unfold ebind at 1. rewrite (copy_kw_one s key val s1 v1) by done.
    cbn [efor base_of]. unfold ebind, eret. by destruct (turn b key v1 s1) as [s2 [[]|x]]. }
  destruct (f d e) as [new|].
  - destruct (turn b key v1 s1) as [s2 y]. destruct Ht as (Hy & u & Hu & n & Hn). cbn in Hy, Hu, Hn.
    subst y. split; [done|]. exists u. split; [exact Hu|]. exists n. rewrite <- Hn. by apply deep_objs.
  - cbn in Ht. rewrite Ht. split; [done|]. by apply (side_grows s s1 b _ (wf_side _ _ Hs)).
Qed.

(** C21: [Append] of a value to a construction variable that is no dictionary
    refines [dappend] on contents: lists and strings are concatenated, a string
    given to a [CLVar] is split at white space, what cannot be concatenated
    becomes an element of the list on either side, empty values change nothing,
    and where neither is a list the call raises [AttributeError] and leaves all
    variables as they were. *)
Theorem append_refines : refines dappend (Append limit).
Proof.
  apply refines_turn. intros s b key orig val d e F G. by apply (append_item_refines s b key orig val d e F G).
Qed.
(** [Prepend] refines [dprepend] in the same way. *)
Theorem prepend_refines : refines dprepend (Prepend limit).
Proof.
  apply refines_turn. intros s b key orig val d e F G. by apply (prepend_item_refines s b key orig val d e F G).
Qed.
End methods.

(** ** Witnesses *)

Lemma append_refines_witness :
  let r := Append 10 (EBase 0) [(T "CCFLAGS", PStr (T "-Wall -pg"))] one_env in
  r.2 = Ok tt ∧ ∃ u, base_dict 0 r.1 !! T "CCFLAGS" = Some u ∧
    holds r.1 u (DList CLVar [DStr (T "-O2"); DList PlainList [DStr (T "-g")];
                              DStr (T "-Wall"); DStr (T "-pg")]).
Proof.
  exact (append_refines 10 one_env 0 (T "CCFLAGS") (PStr (T "-Wall -pg")) (PRef 0)
    (DList CLVar [DStr (T "-O2"); DList PlainList [DStr (T "-g")]]) (DStr (T "-Wall -pg"))
    one_env_wf eq_refl (Forall_nil_2 _) eq_refl eq_refl eq_refl (ex_intro _ 3 eq_refl)).
Defined.
Lemma prepend_refines_witness :
  let r := Prepend 10 (EBase 0) [(T "CCFLAGS", PObj 5)] one_env in
  r.2 = Ok tt ∧ ∃ u, base_dict 0 r.1 !! T "CCFLAGS" = Some u ∧
    holds r.1 u (DList CLVar [DObj 5; DStr (T "-O2"); DList PlainList [DStr (T "-g")]]).
Proof.
  exact (prepend_refines 10 one_env 0 (T "CCFLAGS") (PObj 5) (PRef 0)
    (DList CLVar [DStr (T "-O2"); DList PlainList [DStr (T "-g")]]) (DObj 5)
    one_env_wf eq_refl (Forall_nil_2 _) eq_refl eq_refl eq_refl (ex_intro _ 3 eq_refl)).
Defined.
