(* ===== verification/EnvOver.v ===== *)
(** * Overriding environments, unique values, shared objects

    [AppendUnique] on lists of strings, [Override], and what the operations of
    [Env] do to objects that more than one variable or caller holds. *)

From S2P Require Import Prelude Errors PyStr Subst Env EnvFacts EnvClone EnvAppend.
Open Scope nat_scope.

(** ** Lists of strings *)

(** The first occurrences. *)
Definition uniq_step (acc : list text) (x : text) : list text :=
  if decide (x ∈ acc) then acc else acc ++ [x].
Definition uniq (l : list text) : list text := foldl uniq_step [] l.
Definition uniq_last (l : list text) : list text := rev (uniq (rev l)).

Lemma uniq_elem l x : x ∈ uniq l ↔ x ∈ l.
Proof.
  unfold uniq. assert (∀ acc, x ∈ foldl uniq_step acc l ↔ x ∈ acc ∨ x ∈ l) as H.
  { induction l as [|y l IH]; intros acc; cbn; [set_solver|].
    rewrite IH. unfold uniq_step. destruct (decide _); set_solver. }
  rewrite H. set_solver.
Qed.
Lemma uniq_NoDup l : NoDup (uniq l).
Proof.
  unfold uniq. assert (∀ acc, NoDup acc → NoDup (foldl uniq_step acc l)) as H.
  { induction l as [|y l IH]; intros acc Ha; cbn; [done|]. apply IH. unfold uniq_step.
    destruct (decide _); [done|]. apply NoDup_app. split; [done|].
    split; [set_solver|apply NoDup_singleton]. }
  apply H, NoDup_nil_2.
Qed.

Lemma existsb_seen t seen : existsb (pval_eqb (PStr t)) (map PStr seen) = bool_decide (t ∈ seen).
Proof.
  apply Bool.eq_iff_eq_true. rewrite existsb_exists, bool_decide_eq_true. split.
  - intros (x & (y & <- & Hy)%in_map_iff & Hx). cbn in Hx. apply bool_decide_eq_true in Hx as ->.
    by apply list_elem_of_In.
  - intros Ht. exists (PStr t). split; [apply in_map; by apply list_elem_of_In|].
    cbn. by apply bool_decide_eq_true.
Qed.
Lemma dedup_steps l seen r :
  (∀ t, t ∈ seen ↔ t ∈ r) →
  (foldl delete_duplicates_step (map PStr seen, map PStr r) (map PStr l)).2 =
  map PStr (foldl uniq_step r l).
Proof.
  revert seen r. induction l as [|x l IH]; intros seen r Hs; [done|].
  cbn [map foldl]. unfold delete_duplicates_step at 2. cbn [hashable]. rewrite existsb_seen.
  unfold uniq_step at 2. destruct (decide (x ∈ r)) as [Hx|Hx].
  - rewrite bool_decide_eq_true_2 by set_solver. by apply IH.
  - rewrite bool_decide_eq_false_2 by set_solver.
    change (map PStr r ++ [PStr x]) with (map PStr r ++ map PStr [x]). rewrite <- map_app.
    apply (IH (x :: seen)). set_solver.
Qed.
Lemma delete_duplicates_strings l keep :
  _delete_duplicates (map PStr l) keep = map PStr (if keep then uniq_last l else uniq l).
Proof.
  unfold _delete_duplicates.
  assert (∀ l', (foldl delete_duplicates_step ([], []) (map PStr l')).2 = map PStr (uniq l')) as Hd
    by (intros l'; apply (dedup_steps l' [] []); done).
  destruct keep.
  - rewrite <- map_rev. specialize (Hd (rev l)). destruct (foldl _ _ _) as [seen r]. cbn in Hd.
    subst r. unfold uniq_last. by rewrite map_rev.
  - specialize (Hd l). destruct (foldl _ _ _) as [seen r]. exact Hd.
Qed.

Section unique.
Context (limit : nat).

Lemma in_strings s t l : in_items (S limit) s (PStr t) (map PStr l) = Ok (bool_decide (t ∈ l)).
Proof.
  induction l as [|x l IH]; cbn [map in_items peq]; [done|].
  cbn [pval_eqb rbind]. destruct (decide (x = t)) as [->|Hne].
  - rewrite !bool_decide_eq_true_2; [done|left|done].
  - rewrite (bool_decide_eq_false_2 (x = t)) by done. rewrite IH. f_equal.
    apply bool_decide_ext. set_solver.
Qed.
Lemma filter_out_strings s v k l :
  seq_items v s = Some (map PStr k) → is_String v = false →
  filter_out (S limit) s v (map PStr l) = Ok (map PStr (List.filter (λ x, negb (bool_decide (x ∈ k))) l)).
Proof.
  intros Hv Hs. induction l as [|x l IH]; [done|]. cbn [map filter_out].
  assert (contains (S limit) s (PStr x) v = Ok (bool_decide (x ∈ k))) as ->.
  { unfold contains. destruct v; try done; rewrite Hv; apply in_strings. }
  cbn [rbind]. rewrite IH. cbn [rbind List.filter]. by destruct (bool_decide _).
Qed.
End unique.

(** ** [AppendUnique] *)

(** The strings that a list holds. *)
Definition strings (s : pst) (v : pval) (c : lclass) (l : list text) : Prop :=
  holds s v (DList c (map DStr l)).
Lemma holds_strings s l k : Forall2 (holds s) l (map DStr k) → l = map PStr k.
Proof.
  revert l. induction k as [|t k IH]; intros l Hl; [by apply Forall2_nil_inv_r in Hl|].
  apply Forall2_cons_inv_r in Hl as (x & l' & [[|n] Hx] & Hl & ->); [done|].
  cbn [map]. f_equal; [|by apply IH]. destruct x; cbn in Hx; [congruence|done..| | |done].
  - by destruct (mapM _ _).
  - destruct (objs s !! r) as [[]|]; try done; by destruct (mapM _ _).
Qed.
Lemma strings_ref s v c l :
  strings s v c l ↔ ∃ r, v = PRef r ∧ objs s !! r = Some (OList c (map PStr l)).
Proof.
  split.
  - intros (r & k & n & -> & Hr & El)%holds_DList. exists r. split; [done|].
    apply mapM_holds, holds_strings in El. by subst k.
  - intros (r & -> & Hr). eapply holds_ref; [exact Hr|]. clear Hr.
    induction l; constructor; [by apply holds_plain|done].
Qed.

(** What the method leaves in a variable with the strings [old]. *)
Definition unique_spec (front delete_existing : bool) (c : lclass) (old val : list text)
    : lclass * list text :=
  let v := (if (if front then negb delete_existing else delete_existing) then uniq_last else uniq) val in
  let c' := if delete_existing then PlainList else c in
  let o := if delete_existing then List.filter (λ x, negb (bool_decide (x ∈ v))) old else old in
  let n := if delete_existing then v else List.filter (λ x, negb (bool_decide (x ∈ old))) v in
  (c', if front then n ++ o else o ++ n).

Definition dom_ok (s : pst) : Prop := ∀ r, onext s ≤ r → objs s !! r = None.
Lemma strings_grows s s' v c l : dom_ok s → strings s v c l → grows s s' → strings s' v c l.
Proof.
  rewrite !strings_ref. intros Hd (r & -> & Hr) Hg. exists r. split; [done|].
  rewrite (gr_objs _ _ Hg); [done|]. destruct (decide (r < onext s)); [done|].
  by rewrite Hd in Hr by lia.
Qed.
Lemma dom_grows s s' : dom_ok s → grows s s' → dom_ok s'.
Proof. intros Hd Hg. exact (gr_dom _ _ Hg Hd). Qed.

(** A call that returns a list of strings and only makes objects. *)
Definition makes (m : pm pval) (s : pst) (c : lclass) (l : list text) : Prop :=
  ∃ s' v, m s = (s', Ok v) ∧ grows s s' ∧ strings s' v c l.
Lemma makes_alloc s c l : makes (alloc (OList c (map PStr l))) s c l.
Proof.
  eexists _, _. split; [reflexivity|]. split; [exact (growing_run _ s (growing_alloc _))|].
  apply strings_ref. eexists. split; [done|]. cbn. apply lookup_insert_eq.
Qed.

Lemma makes_bind (m : pm pval) k s c l c' l' :
  makes m s c l → (∀ s' v, grows s s' → strings s' v c l → makes (k v) s' c' l') →
  makes (ebind m k) s c' l'.
Proof.
  intros (s1 & v & E & Hg & Hv) Hk. destruct (Hk s1 v Hg Hv) as (s2 & u & E2 & Hg2 & Hu).
  exists s2, u. unfold ebind. rewrite E. split; [done|]. split; [by eapply grows_trans|done].
Qed.

Section pieces.
Context (limit : nat) (s : pst) (v w : pval) (c c' : lclass) (l k : list text).
Context (Hv : strings s v c l) (Hw : strings s w c' k).

Lemma dedup_makes keep : makes (dedup v keep) s PlainList (if keep then uniq_last l else uniq l).
Proof.
  apply strings_ref in Hv as (r & -> & Hr). unfold makes, dedup. cbn [obj_of]. rewrite Hr.
  rewrite delete_duplicates_strings. apply makes_alloc.
Qed.
Lemma filter_makes :
  makes (filter_not_in (S limit) v w) s PlainList (List.filter (λ x, negb (bool_decide (x ∈ l))) k).
Proof.
  apply strings_ref in Hv as (r & -> & Hr). apply strings_ref in Hw as (r' & -> & Hr').
  assert (seq_items (PRef r') s = Some (map PStr k)) as E by (unfold seq_items; cbn; by rewrite Hr').
  unfold makes, filter_not_in. rewrite E.
  rewrite (filter_out_strings limit s (PRef r) l k); [apply makes_alloc| |done].
  unfold seq_items. cbn. by rewrite Hr.
Qed.
Lemma padd_makes :
  makes (padd v w) s (match c with CLVar => CLVar | PlainList => c' end) (l ++ k).
Proof.
  apply strings_ref in Hv as (r & -> & Hr). apply strings_ref in Hw as (r' & -> & Hr').
  assert (clvar_items (PRef r) s = map PStr l) as El by (unfold clvar_items; cbn; by rewrite Hr).
  assert (clvar_items (PRef r') s = map PStr k) as Ek by (unfold clvar_items; cbn; by rewrite Hr').
  unfold makes, padd. cbn [obj_of]. rewrite Hr, Hr'. destruct c, c'; rewrite ?El, ?Ek, <- map_app; apply makes_alloc.
Qed.
End pieces.

(** The turn of the loop, for lists of strings. *)
Lemma unique_item_strings limit front del s b key orig val c c' old new :
  dom_ok s → base_dict b s !! key = Some orig → strings s orig c old → strings s val c' new →
  let '(c2, l) := unique_spec front del c old new in
  ∃ s' u, unique_item (S limit) front del b key val s = (s', Ok tt) ∧
    base_dict b s' !! key = Some u ∧ strings s' u c2 l.
Proof.
  intros Hdom Hkey Ho Hv. unfold unique_item, ebind at 1.
  destruct (dedup_makes s val c' new Hv (if front then negb del else del)) as (s1 & v1 & -> & Hg1 & Hv1).
  rewrite (grows_base _ _ _ Hg1), Hkey. pose proof (strings_grows _ _ _ _ _ Hdom Ho Hg1) as Ho1.
  set (v := if (if front then negb del else del) then uniq_last new else uniq new) in *.
  apply strings_ref in Ho1 as (r & -> & Hr). apply strings_ref in Hv1 as (r1 & -> & Hr1).
  unfold unique_existing.
  assert (is_Dict (PRef r) s1 = false) as -> by (unfold is_Dict; cbn; by rewrite Hr).
  assert (is_List (PRef r1) s1 = true) as -> by (unfold is_List; cbn; by rewrite Hr1).
  assert (is_List (PRef r) s1 = true) as -> by (unfold is_List; cbn; by rewrite Hr).
  cbv beta iota delta [andb]. unfold ebind at 1, eret.
  unfold unique_spec. fold v. unfold ebind at 1.
  assert (makes (if del
                 then let! dk := filter_not_in (S limit) (PRef r1) (PRef r) in add_to front dk (PRef r1)
                 else let! val := filter_not_in (S limit) (PRef r) (PRef r1) in add_to front (PRef r) val)%eff
    s1 (unique_spec front del c old new).1 (unique_spec front del c old new).2)
    as (s2 & u & -> & Hg2 & Hu).
  { pose proof (dom_grows _ _ Hdom Hg1) as Hd1. unfold unique_spec. fold v.
    assert (strings s1 (PRef r) c old) as Hs by (apply strings_ref; by exists r).
    assert (strings s1 (PRef r1) PlainList v) as Hs1 by (apply strings_ref; by exists r1).
    destruct del; (eapply makes_bind; [by eapply filter_makes|]); intros s2 u Hg2 Hu;
      apply (strings_grows s1 s2) in Hs, Hs1; try done; destruct front; cbn [add_to fst snd].
    - exact (padd_makes s2 _ _ _ _ _ _ Hs1 Hu).
    - exact (padd_makes s2 _ _ _ _ _ _ Hu Hs1).
    - exact (padd_makes s2 _ _ _ _ _ _ Hu Hs).
    - pose proof (padd_makes s2 _ _ _ _ _ _ Hs Hu) as Hm. by destruct c. }
  destruct (set_var_holds s2 b key u (DList (unique_spec front del c old new).1
    (map DStr (unique_spec front del c old new).2)) Hu) as [_ (u' & E & Hu')].
  eexists _, u'. split; [reflexivity|]. split; [exact E|exact Hu'].
Qed.

(** [AppendUnique] and (with [front]) [PrependUnique] of a list of strings
    to a variable that is one, without and with [delete_existing]: the strings
    that are not there yet are added at the end or the front, once each, and the
    rest keep their order and the class of the list; or they are all moved to
    the end or front, into a plain list. *)
Theorem unique_strings limit (front del : bool) s b key orig val c c' old new :
  wf_store s → reserved key = false → below s val → deep (S limit) s val = Some (DList c' (map DStr new)) →
  base_dict b s !! key = Some orig → holds s orig (DList c (map DStr old)) →
  let '(c2, l) := unique_spec front del c old new in
  let r := (if front then PrependUnique else AppendUnique) (S limit) (EBase b) del [(key, val)] s in
  r.2 = Ok tt ∧ ∃ u, base_dict b r.1 !! key = Some u ∧ holds r.1 u (DList c2 (map DStr l)).
Proof.
  intros Hs Hr Hbv Ev Hkey Ho.
  destruct (semi_deepcopy_copies (S limit) s val Hs Hbv) as (s1 & v1 & Ec & [Hs1 Hg Hb1 Hdeep]);
    [by rewrite Ev|].
  pose proof (unique_item_strings limit front del s1 b key orig v1 c c' old new) as Ht.
  destruct (unique_spec front del c old new) as [c2 l].
  destruct Ht as (s2 & u & E & Hu & n & Hn).
  - exact (wf_dom _ Hs1).
  - by rewrite (grows_base _ _ _ Hg).
  - apply (strings_grows s s1); [exact (wf_dom _ Hs)|done..].
  - exists (S limit). by rewrite Hdeep.
  - assert ((if front then PrependUnique else AppendUnique) (S limit) (EBase b) del [(key, val)] s
      = (with_gsm (delete b) s2, Ok tt)) as ->.
    { destruct front; unfold PrependUnique, AppendUnique, ebind at 1;
        rewrite (copy_kw_one (S limit) s key val s1 v1) by done;
        cbn [efor base_of]; unfold ebind, eret; by rewrite E. }
    cbn zeta. split; [done|]. exists u. split; [exact Hu|]. exists n. rewrite <- Hn. by apply deep_objs.
Qed.

(** The strings are those of both lists, none twice that was not. *)
Lemma elem_filter {A} (P : A → bool) l x : x ∈ List.filter P l ↔ P x = true ∧ x ∈ l.
Proof. rewrite !list_elem_of_In, filter_In. tauto. Qed.
Lemma unique_spec_elem front del c old new x :
  x ∈ (unique_spec front del c old new).2 ↔ x ∈ old ∨ x ∈ new.
Proof.
  unfold unique_spec. set (v := (if (if front then negb del else del) then uniq_last else uniq) new).
  assert (∀ y, y ∈ v ↔ y ∈ new) as Hv.
  { intros y. subst v. destruct (if front then negb del else del); [|apply uniq_elem].
    unfold uniq_last. rewrite list_elem_of_In, <- in_rev, <- list_elem_of_In, uniq_elem.
    by rewrite list_elem_of_In, <- in_rev, <- list_elem_of_In. }
  destruct del, front; cbn [snd]; rewrite ?elem_of_app, ?elem_filter, ?negb_true_iff,
    ?bool_decide_eq_false, ?Hv; destruct (decide (x ∈ old)), (decide (x ∈ new)); naive_solver.
Qed.

(** ** Overrides *)

(** The dictionaries of overrides of an environment. *)
Fixpoint layers (e : envref) : list nat :=
  match e with EBase _ => [] | EOver o subject => o :: layers subject end.
(** What an environment reads is the same. *)
Definition same_reads (e : envref) (s s' : pst) : Prop := ∀ k, env_get e k s' = env_get e k s.
Lemma reads_frame e s s' :
  base_dict (base_of e) s' = base_dict (base_of e) s →
  (∀ o, o ∈ layers e → overs s' !! o = overs s !! o) → same_reads e s s'.
Proof.
  intros Hb Ho k. induction e as [b|o e IH]; cbn in *; [by rewrite Hb|].
  unfold overrides. rewrite Ho by left. rewrite IH; [done..|]. intros. apply Ho. by right.
Qed.

(** [Dictionary()] has what [env[key]] finds. *)
Lemma Dictionary_get e s k : Dictionary e s !! k = env_get e k s.
Proof.
  induction e as [b|o e IH]; cbn; [done|]. rewrite lookup_union, IH.
  destruct (overrides o s !! k); by destruct (env_get e k s).
Qed.

(** ** [Override] *)

Section override.
Context (limit : nat) (pstr : pst → pval → text) (is_a_Builder : pval → bool).
Context (ParseFlags : envref → pval → pm pval).

(** Keywords keep their names, and strings without [$] their values. *)
Definition keeps_strings (a b : text * pval) : Prop :=
  b.1 = a.1 ∧ ∀ t, a.2 = PStr t → "$"%char ∉ t → b.2 = PStr t.
Lemma emap_Forall2 {A B} (R : A → B → Prop) (f : A → pm B) l s s' l' :
  (∀ a s s' b, f a s = (s', Ok b) → R a b) → emap f l s = (s', Ok l') → Forall2 R l l'.
Proof.
  intros Hf. revert s s' l'. induction l as [|a l IH]; intros s s' l' E; cbn in E; [by injection E as _ <-|].
  unfold ebind in E. destruct (f a s) as [s1 [b|]] eqn:Ea; [|done].
  destruct (emap f l s1) as [s2 [k|]] eqn:El; [|done]. injection E as _ <-.
  constructor; [by eapply Hf|by eapply IH].
Qed.
Lemma copy_items_keep (l : list (text * pval)) s s' l' :
  copy_items limit l s = (s', Ok l') → Forall2 keeps_strings l l'.
Proof.
  apply emap_Forall2. intros [k v] s1 s2 b. unfold ebind, eret.
  destruct (semi_deepcopy limit v s1) as [s3 [v'|]] eqn:E; [|done]. intros [= _ <-].
  split; [done|]. cbn [fst snd]. intros t -> _. destruct limit; cbn in E; [done|]. by injection E as _ <-.
Qed.
Lemma subst_items_keep e l s s' l' :
  subst_items pstr e l s = (s', Ok l') → Forall2 keeps_strings l l'.
Proof.
  apply emap_Forall2. intros [k v] s1 s2 b. unfold ebind, eret.
  destruct (subst_once pstr v e k s1) as [s3 [v'|]] eqn:E; [|done]. intros [= _ <-].
  split; [done|]. cbn [fst snd]. intros t -> Ht. cbn in E. rewrite decide_True in E by done. by injection E as _ <-.
Qed.
Lemma keep_filter (P : text → bool) l l' :
  Forall2 keeps_strings l l' →
  Forall2 keeps_strings (List.filter (λ kv, P kv.1) l) (List.filter (λ kv, P kv.1) l').
Proof.
  induction 1 as [|a b l l' [Hk Hv] _ IH]; cbn; [done|]. rewrite Hk.
  destruct (P a.1); [by constructor|done].
Qed.
Lemma keep_trans l1 l2 l3 :
  Forall2 keeps_strings l1 l2 → Forall2 keeps_strings l2 l3 → Forall2 keeps_strings l1 l3.
Proof.
  apply Forall2_trans. intros a b c [Hk1 Hv1] [Hk2 Hv2]. split; [congruence|]. eauto.
Qed.
Lemma keep_keys l l' : Forall2 keeps_strings l l' → l'.*1 = l.*1.
Proof. induction 1 as [|a b l l' [Hk _] _ IH]; cbn; [done|]. by rewrite Hk, IH. Qed.

Definition unreserved (l : list (text * pval)) : list (text * pval) :=
  List.filter (λ kv, negb (reserved kv.1)) l.
Lemma copy_kw_keep kw s s' o :
  copy_non_reserved_keywords limit kw s = (s', Ok o) → Forall2 keeps_strings (unreserved kw) o.
Proof.
  unfold copy_non_reserved_keywords, ebind, eret.
  destruct (copy_items limit kw s) as [s1 [r|]] eqn:E; [|done].
  destruct (efor _ _ s1) as [s2 [[]|]]; [|done]. intros [= _ <-].
  apply copy_items_keep, (keep_filter (λ k, negb (reserved k))) in E. unfold unreserved.
  erewrite (filter_ext (λ '(k, _), _)); [exact E|]. by intros [k v].
Qed.
Definition no_flags_key (l : list (text * pval)) : Prop := T "parse_flags" ∉ l.*1.
Lemma flags_filter o (Ho : no_flags_key o) :
  List.filter (λ kv, negb (bool_decide (kv.1 = T "parse_flags"))) o = o ∧
  List.filter (λ kv, bool_decide (kv.1 = T "parse_flags")) o = [].
Proof.
  unfold no_flags_key in Ho. induction o as [|[k v] o IH]; [done|].
  rewrite fmap_cons, not_elem_of_cons in Ho. destruct Ho as [Hk Ho]. destruct (IH Ho) as [E1 E2].
  cbn [List.filter fst] in *. rewrite bool_decide_eq_false_2 by congruence. cbn [negb].
  by rewrite E1, E2.
Qed.

(** The environment that is made, if any. *)
Lemma override_result e ov s s' e' :
  no_flags_key ov → Override limit pstr is_a_Builder ParseFlags e ov s = (s', Ok e') →
  ∃ new s1, Forall2 keeps_strings (unreserved ov) new ∧ grows s s1 ∧
    ((new = [] ∧ e' = e ∧ s' = s1) ∨
     (e' = EOver (enext s) e ∧
      s' = with_overs (insert (enext s) (list_to_map new)) (new_env s1).1)).
Proof.
  intros Hf E. destruct ov as [|kv ov].
  { injection E as <- <-. exists [], s. split; [apply Forall2_nil_2|]. split; [apply grows_refl|]. by left. }
  unfold Override in E. cbv iota beta in E. set (l := kv :: ov) in *. unfold ebind at 1 in E.
  pose proof (growing_run _ s (growing_copy_kw limit l)) as Hg.
  destruct (copy_non_reserved_keywords limit l s) as [s1 [o|]] eqn:Eo; [|done].
  apply copy_kw_keep in Eo. cbn in Hg.
  assert (no_flags_key o) as Hfo.
  { unfold no_flags_key in *. rewrite (keep_keys _ _ Eo). intros (kv' & Ekv & Hin)%list_elem_of_fmap.
    apply elem_filter in Hin as [_ Hin]. apply Hf, list_elem_of_fmap. by exists kv'. }
  destruct o as [|kv' o']; [injection E as <- <-; exists [], s1; split; [done|]; by split; [|left]|].
  cbv iota beta zeta in E. set (o := kv' :: o') in *. destruct (flags_filter o Hfo) as [E1 E2]. rewrite E1, E2 in E.
  unfold ebind at 1 in E. pose proof (growing_run _ s1 (growing_subst_items pstr e o)) as Hg2.
  destruct (subst_items pstr e o s1) as [s2 [new|]] eqn:En; [|done]. cbn in Hg2.
  exists new, s2. apply subst_items_keep in En.
  split; [by eapply keep_trans|]. pose proof (grows_trans _ _ _ Hg Hg2) as Hg'. split; [done|].
  right. rewrite <- (gr_enext _ _ Hg'). unfold ebind, new_env, emod, eret in E.
  by injection E as <- <-.
Qed.

(** Layers of an environment that exists. *)
Definition made (e : envref) (s : pst) : Prop := ∀ o, o ∈ layers e → o < enext s.

Lemma override_same_reads e s s1 m :
  made e s → grows s s1 → same_reads e s (with_overs (insert (enext s) m) (new_env s1).1).
Proof.
  intros He Hg. apply reads_frame; [exact (grows_base _ _ _ Hg)|].
  intros o Ho%He. cbn. rewrite lookup_insert_ne by lia. by rewrite (gr_overs _ _ Hg).
Qed.

(** [Override]: what the overriding environment reads is the override, for
    the names of the dictionary that are not reserved, and what the subject
    reads for all others; an override that is a string without [$] is read as
    given; the subject reads what it read before, and no object changes. *)
Theorem override_reads e ov s s' e' :
  made e s → no_flags_key ov → NoDup ov.*1 →
  Override limit pstr is_a_Builder ParseFlags e ov s = (s', Ok e') →
  ∃ new : gmap text pval,
    (∀ k, is_Some (new !! k) ↔ k ∈ ov.*1 ∧ reserved k = false) ∧
    (∀ k t, (k, PStr t) ∈ ov → reserved k = false → "$"%char ∉ t → new !! k = Some (PStr t)) ∧
    (∀ k, env_get e' k s' = match new !! k with Some v => Some v | None => env_get e k s end) ∧
    same_reads e s s' ∧ (∀ r, r < onext s → objs s' !! r = objs s !! r).
Proof.
  intros He Hf Hnd (new & s1 & Hk & Hg & Hcase)%override_result; [|done].
  exists (list_to_map new). pose proof (keep_keys _ _ Hk) as Hkeys.
  assert (NoDup new.*1) as Hnd'.
  { rewrite Hkeys. unfold unreserved. clear -Hnd. induction ov as [|kv l IH]; [done|].
    apply NoDup_cons in Hnd as [Hx Hnd]. cbn. destruct (negb _); [|by apply IH]. cbn.
    apply NoDup_cons. split; [|by apply IH].
    intros (kv' & E & Hin%elem_filter)%list_elem_of_fmap. apply Hx, list_elem_of_fmap. exists kv'. tauto. }
  assert (same_reads e s s') as Hsame.
  { destruct Hcase as [(-> & -> & ->)|(-> & ->)]; [|by apply override_same_reads].
    apply reads_frame; [by apply grows_base|]. intros o _. by rewrite (gr_overs _ _ Hg). }
  split; [|split; [|split; [|split]]].
  - intros k. rewrite <- elem_of_dom, dom_list_to_map, elem_of_list_to_set, Hkeys.
    rewrite !list_elem_of_fmap. unfold unreserved. setoid_rewrite elem_filter.
    setoid_rewrite negb_true_iff. naive_solver.
  - intros k t Hin Hr Ht. apply elem_of_list_to_map_1; [done|].
    assert ((k, PStr t) ∈ unreserved ov) as [i Hi]%list_elem_of_lookup.
    { apply elem_filter. cbn. by rewrite Hr. }
    destruct (Forall2_lookup_l _ _ _ _ _ Hk Hi) as ([k' v'] & Hi' & Hk' & Hv'). cbn in Hk', Hv'. subst k'.
    rewrite (Hv' t eq_refl Ht) in Hi'. by eapply list_elem_of_lookup_2.
  - intros k. rewrite <- (Hsame k). destruct Hcase as [(-> & -> & ->)|(-> & ->)]; [done|].
    cbn [env_get]. unfold overrides. cbn. by rewrite lookup_insert_eq.
  - exact Hsame.
  - intros r Hr. destruct Hcase as [(_ & _ & ->)|(_ & ->)]; by apply (gr_objs _ _ Hg).
Qed.

(** *** Writes through an override *)

Inductive over_write :=
| WSet (k : text) (v : pval)
| WReplace (kw : list (text * pval))
| WSetDefault (kw : list (text * pval)).
Definition run_write (e : envref) (w : over_write) : pm unit :=
  match w with
  | WSet k v => env_setitem is_a_Builder e k v
  | WReplace kw => Replace limit is_a_Builder e kw
  | WSetDefault kw => SetDefault limit is_a_Builder e kw
  end.

(** Only the overrides [n] change. *)
Record over_only (n : nat) (s0 s : pst) : Prop := {
  oo_next : onext s0 ≤ onext s;
  oo_objs r : r < onext s0 → objs s !! r = objs s0 !! r;
  oo_bases : bases s = bases s0;
  oo_overs o : o ≠ n → overs s !! o = overs s0 !! o
}.
Lemma over_only_grows n s0 s s' : over_only n s0 s → grows s s' → over_only n s0 s'.
Proof.
  intros [Hn Ho Hb Hov] Hg. pose proof (gr_next _ _ Hg). split; [lia| | |].
  - intros r Hr. rewrite (gr_objs _ _ Hg) by lia. auto.
  - by rewrite (gr_bases _ _ Hg).
  - intros. rewrite (gr_overs _ _ Hg). auto.
Qed.
Lemma keeps_growing {A} n s0 (m : pm A) : growing m → keeps (over_only n s0) m.
Proof. intros Hm s Hs. eapply over_only_grows; [exact Hs|]. by apply growing_run. Qed.
Lemma keeps_override n s0 k v : keeps (over_only n s0) (set_override n k v).
Proof.
  apply keeps_mod. intros s []. split; [done..|]. intros o Ho. cbn.
  rewrite lookup_insert_ne by done. auto.
Qed.
Lemma keeps_Replace n e s0 kw : keeps (over_only n s0) (Replace limit is_a_Builder (EOver n e) kw).
Proof.
  cbn [Replace]. apply keeps_bind; [apply keeps_growing, growing_copy_kw|]. intros kw1.
  apply keeps_bind; [apply keeps_growing, growing_copy_items|]. intros kw2. cbn [env_update].
  apply keeps_for. intros [k v]. apply keeps_override.
Qed.
Lemma keeps_write n e s0 w : keeps (over_only n s0) (run_write (EOver n e) w).
Proof.
  destruct w as [k v|kw|kw]; cbn [run_write].
  - cbn [env_setitem]. destruct (is_valid_var k); [apply keeps_override|apply keeps_raise].
  - apply keeps_Replace.
  - intros s Hs. unfold SetDefault. by apply keeps_Replace.
Qed.

(** C22: Whatever is set, replaced or defaulted through an overriding
    environment, in any sequence of calls and whether or not they raise, the
    environment it was made from reads what it read before the [Override], the
    variables of its base are the same, and no object that was there changes. *)
Theorem override_isolated e ov s s' n e0 l :
  made e s → no_flags_key ov →
  Override limit pstr is_a_Builder ParseFlags e ov s = (s', Ok (EOver n e0)) → n ∉ layers e →
  let s2 := foldl (λ s w, (run_write (EOver n e0) w s).1) s' l in
  same_reads e s s2 ∧ bases s2 = bases s ∧ ∀ r, r < onext s → objs s2 !! r = objs s !! r.
Proof.
  intros He Hf (new & s1 & Hk & Hg & Hcase)%override_result Hn; [|done]. intros s2.
  assert (over_only n s s') as Hs'.
  { destruct Hcase as [(-> & <- & ->)|([= -> ->] & ->)]; [by destruct (Hn); left|].
    split; cbn; [apply (gr_next _ _ Hg)|apply (gr_objs _ _ Hg)|apply (gr_bases _ _ Hg)|].
    intros o Ho. rewrite lookup_insert_ne by done. by rewrite (gr_overs _ _ Hg). }
  assert (over_only n s s2) as Hs2.
  { apply foldl_pred; [|done]. intros s3 w _ Hs3. by apply keeps_write. }
  destruct Hs2 as [_ Ho Hb Hov]. split; [|done]. apply reads_frame; [unfold base_dict; by rewrite Hb|].
  intros o Hin. apply Hov. by intros ->.
Qed.
End override.

(** ** Witnesses *)

Lemma unique_strings_witness :
  let r := AppendUnique 10 (EBase 0) false [(T "FLAGS", PRef 4)] one_env in
  r.2 = Ok tt ∧ ∃ u, base_dict 0 r.1 !! T "FLAGS" = Some u ∧
    holds r.1 u (DList PlainList (map DStr [T "-g"; T "-p"])).
Proof.
  exact (unique_strings 9 false false one_env 0 (T "FLAGS") (PRef 1) (PRef 4) PlainList PlainList
    [T "-g"] [T "-p"; T "-g"; T "-p"] one_env_wf eq_refl
    (Forall_cons_2 (λ r, r < 5) _ _ (Nat.lt_succ_diag_r 4) (Forall_nil_2 _)) eq_refl eq_refl
    (ex_intro _ 2 eq_refl)).
Defined.

(** A keyword that is a string without [$], one that adds to the variable, and a
    reserved one. *)
Definition some_overrides : list (text * pval) :=
  [(T "CC", PStr (T "gcc")); (T "CPPPATH", PStr (T "$CPPPATH inc")); (T "TARGET", PStr (T "x"))].
Definition one_override : pst * res exn envref :=
  Override 10 str_none (λ _, true) no_flags (EBase 0) some_overrides one_env.
Lemma one_override_eq : one_override = (one_override.1, Ok (EOver 1 (EBase 0))).
Proof. vm_compute. reflexivity. Qed.
Lemma some_overrides_keys : no_flags_key some_overrides ∧ NoDup some_overrides.*1.
Proof. unfold no_flags_key. split; apply (bool_decide_unpack _); by vm_compute. Qed.

Lemma made_base b s : made (EBase b) s.
Proof. intros o []%not_elem_of_nil. Qed.
Lemma override_reads_witness :
  ∃ new : gmap text pval,
    new !! T "CC" = Some (PStr (T "gcc")) ∧ new !! T "TARGET" = None ∧
    (∀ k, env_get (EOver 1 (EBase 0)) k one_override.1
          = match new !! k with Some v => Some v | None => env_get (EBase 0) k one_env end).
Proof.
  destruct (override_reads 10 str_none (λ _, true) no_flags (EBase 0) some_overrides one_env
    one_override.1 (EOver 1 (EBase 0)) (made_base 0 _) (proj1 some_overrides_keys)
    (proj2 some_overrides_keys) one_override_eq) as (new & Hdom & Hstr & Hget & _).
  exists new. split; [|split; [|exact Hget]].
  - apply Hstr; [left|reflexivity|apply (bool_decide_unpack _); vm_compute; exact I].
  - apply eq_None_not_Some. rewrite Hdom. by intros [_ ?].
Defined.
Lemma override_isolated_witness :
  let s2 := foldl (λ s w, (run_write 10 (λ _, true) (EOver 1 (EBase 0)) w s).1) one_override.1
    [WSet (T "CCFLAGS") (PStr (T "-O0")); WReplace [(T "FLAGS", PNone)]; WSetDefault [(T "CC", PNone)]] in
  env_get (EOver 1 (EBase 0)) (T "CCFLAGS") s2 = Some (PStr (T "-O0")) ∧
  env_get (EBase 0) (T "CCFLAGS") s2 = Some (PRef 0) ∧ same_reads (EBase 0) one_env s2.
Proof.
  cbn zeta. split; [vm_compute; reflexivity|]. split; [vm_compute; reflexivity|].
  exact (proj1 (override_isolated 10 str_none (λ _, true) no_flags (EBase 0) some_overrides one_env
    one_override.1 1 (EBase 0) [WSet (T "CCFLAGS") (PStr (T "-O0")); WReplace [(T "FLAGS", PNone)];
      WSetDefault [(T "CC", PNone)]] (made_base 0 _) (proj1 some_overrides_keys) one_override_eq
    (not_elem_of_nil 1))).
Defined.

(** ** Objects that are shared *)

(** The contents of a variable. *)
Definition contents (e : envref) (k : string) (s : pst) : option (option dval) :=
  deep 9 s <$> env_get e (T k) s.

(** [FLAGS] and an item of [CCFLAGS] are one list: an element that is appended
    to the variable is in both, a list that is appended makes a new list. *)
Lemma append_changes_shared :
  let s1 := (Append 10 (EBase 0) [(T "FLAGS", PStr (T "-p"))] one_env).1 in
  let s2 := (Append 10 (EBase 0) [(T "FLAGS", PRef 4)] one_env).1 in
  contents (EBase 0) "CCFLAGS" s1 =
    Some (Some (DList CLVar [DStr (T "-O2"); DList PlainList [DStr (T "-g"); DStr (T "-p")]])) ∧
  contents (EBase 0) "CCFLAGS" s2 = contents (EBase 0) "CCFLAGS" one_env.
Proof. split; vm_compute; reflexivity. Qed.

(** [MergeFlags] with a dictionary of a caller: the list of a variable that is
    not there yet is left reversed. *)
Definition with_caller_flags : pst :=
  (alloc (ODict [(PStr (T "LIBS"), PRef 5)])
    (alloc (OList PlainList [PStr (T "m"); PStr (T "c")]) one_env).1).1.
Lemma merge_flags_reverses :
  let r := MergeFlags 10 (λ _, true) no_flags (EBase 0) (PRef 6) true with_caller_flags in
  r.2 = Ok tt ∧ contents (EBase 0) "LIBS" r.1 = Some (Some (DList PlainList [DStr (T "m"); DStr (T "c")])) ∧
  deep 9 r.1 (PRef 5) = Some (DList PlainList [DStr (T "c"); DStr (T "m")]).
Proof. split; [|split]; vm_compute; reflexivity. Qed.

(** [AppendUnique] with [delete_existing] of a string: every element that is a
    part of the string is gone. *)
Lemma append_unique_deletes_parts :
  let r := AppendUnique 10 (EBase 0) true [(T "FLAGS", PStr (T "-gdb"))] one_env in
  r.2 = Ok tt ∧ contents (EBase 0) "FLAGS" r.1 = Some (Some (DList PlainList [DStr (T "-gdb")])).
Proof. split; vm_compute; reflexivity. Qed.

(** [Append] on an overriding environment changes its base and not what it reads. *)
Lemma append_through_override :
  let e := EOver 1 (EBase 0) in
  let s1 := (set_override 1 (T "FLAGS") (PStr (T "-q")) one_override.1).1 in
  let s2 := (Append 10 e [(T "FLAGS", PStr (T "-p"))] s1).1 in
  contents e "FLAGS" s2 = Some (Some (DStr (T "-q"))) ∧
  contents (EBase 0) "FLAGS" s2 = Some (Some (DList PlainList [DStr (T "-g"); DStr (T "-p")])).
Proof. split; vm_compute; reflexivity. Qed.

(** [SetDefault] on an overriding environment replaces an override of a name
    that the base does not have. *)
Lemma set_default_through_override :
  let e := EOver 1 (EBase 0) in
  let s1 := (SetDefault 10 (λ _, true) e [(T "CC", PStr (T "cc"))] one_override.1).1 in
  contents e "CC" one_override.1 = Some (Some (DStr (T "gcc"))) ∧
  contents e "CC" s1 = Some (Some (DStr (T "cc"))).
Proof. split; vm_compute; reflexivity. Qed.

(** [Clone] of an overriding environment: a keyword of the clone is one of the
    original, and the base has got new lists. *)
Lemma clone_of_override_shares :
  let e := EOver 1 (EBase 0) in
  let r := Clone 10 str_none (λ _, true) flag_tool no_flags e [] None None
             [(T "CC", PStr (T "icc"))] one_override.1 in
  r.2 = Ok e ∧ contents e "CC" r.1 = Some (Some (DStr (T "icc"))) ∧
  base_dict 0 r.1 !! T "CCFLAGS" ≠ base_dict 0 one_override.1 !! T "CCFLAGS".
Proof. split; [|split]; vm_compute; [reflexivity..|discriminate]. Qed.

(** [env['BUILDERS'] = env['BUILDERS']] leaves no builders; so does a dictionary
    with something that is no builder; and where there is no [BUILDERS], none can
    be set. *)
Lemma set_BUILDERS_loses :
  let builders s := deep 9 s (PRef 3) in
  let set is_b v s := env_setitem is_b (EBase 0) (T "BUILDERS") v s in
  builders one_env = Some (DBuilders [(PStr (T "Object"), 7)]) ∧
  builders (set (λ _, true) (PRef 3) one_env).1 = Some (DBuilders []) ∧
  builders (set (λ _, false) (PRef 2) one_env).1 = Some (DBuilders []) ∧
  (set (λ _, true) (PRef 3) (env_delitem (EBase 0) (T "BUILDERS") one_env).1).2 =
    Raise (ExOther "NameError" "global name 'kwbd' is not defined").
Proof. split; [|split; [|split]]; vm_compute; reflexivity. Qed.
