(* ===== verification/Flags.v ===== *)
(** * Flags of command lines ([ParseFlags] of [SCons/Environment.py])

    The flags of GNU-like tool chains, sorted into the construction variables
    they belong to; the words come from [Shlex].  Nodes of files are given by
    [fs_File], the output of a command by [backtick]. *)

From S2P Require Import Prelude Errors PyStr Subst Shlex Env.
Open Scope nat_scope.

(** ** What the flags become *)

(** [FPair] is a list, [FOpt] and [FInclude] are tuples; [FFile] is a node. *)
Inductive fitem :=
| FWord (t : text)
| FPair (name value : text)
| FOpt (opt arg : text)
| FInclude (file : text)
| FFile (file : text).

Inductive fvar :=
| ASFLAGS | CFLAGS | CCFLAGS | CPPDEFINES | CPPFLAGS | CPPPATH
| FRAMEWORKPATH | FRAMEWORKS | LIBPATH | LIBS | LINKFLAGS | RPATH.
#[export] Instance fvar_eq : EqDecision fvar.
Proof. solve_decision. Defined.
Definition fvars : list fvar :=
  [ASFLAGS; CFLAGS; CCFLAGS; CPPDEFINES; CPPFLAGS; CPPPATH;
   FRAMEWORKPATH; FRAMEWORKS; LIBPATH; LIBS; LINKFLAGS; RPATH].
Definition fvar_name (v : fvar) : text :=
  match v with
  | ASFLAGS => T "ASFLAGS" | CFLAGS => T "CFLAGS" | CCFLAGS => T "CCFLAGS"
  | CPPDEFINES => T "CPPDEFINES" | CPPFLAGS => T "CPPFLAGS" | CPPPATH => T "CPPPATH"
  | FRAMEWORKPATH => T "FRAMEWORKPATH" | FRAMEWORKS => T "FRAMEWORKS" | LIBPATH => T "LIBPATH"
  | LIBS => T "LIBS" | LINKFLAGS => T "LINKFLAGS" | RPATH => T "RPATH"
  end.
Definition fvar_class (v : fvar) : lclass :=
  match v with CPPDEFINES | CPPPATH | LIBPATH | LIBS | RPATH => PlainList | _ => CLVar end.

Definition flags : Type := fvar → list fitem.
Definition no_flag : flags := λ _, [].
Definition add_flag (v : fvar) (i : fitem) (f : flags) : flags :=
  λ w, if decide (w = v) then f w ++ [i] else f w.

Definition append_define (name : text) : flags → flags :=
  match PyStr.split "="%char name with
  | t0 :: ((_ :: _) as t) => add_flag CPPDEFINES (FPair t0 (join (T "=") t))
  | _ => add_flag CPPDEFINES (FWord name)
  end.

(** ** One word *)

(** What the next word belongs to, [append_next_arg_to]. *)
Inductive next_arg :=
| NDefine
| NInclude
| NOption (opt : text)
| NVar (v : fvar).

Definition take_next (n : next_arg) (arg : text) : flags → flags :=
  match n with
  | NDefine => append_define arg
  | NInclude => add_flag CCFLAGS (FInclude arg)
  | NOption opt => λ f, add_flag LINKFLAGS (FOpt opt arg) (add_flag CCFLAGS (FOpt opt arg) f)
  | NVar v => add_flag v (FWord arg)
  end.

(** [if arg[n:]: ... else: append_next_arg_to = ...] *)
Definition joined (n : nat) (arg : text) (add : text → flags → flags) (next : next_arg) (f : flags)
    : flags * option next_arg :=
  match drop n arg with [] => (f, Some next) | t => (add t f, None) end.
Definition word (v : fvar) (t : text) : flags → flags := add_flag v (FWord t).

Definition rpath_word (arg : text) : flags → flags :=
  if startswith (T "-Wl,-rpath=") arg then word RPATH (drop 11 arg)
  else if startswith (T "-Wl,-R,") arg then word RPATH (drop 7 arg)
  else if startswith (T "-Wl,-R") arg then word RPATH (drop 6 arg)
  else word LINKFLAGS arg.

Definition option_word (c : ascii) (arg : text) (f : flags) : flags * option next_arg :=
  if startswith (T "-L") arg then joined 2 arg (word LIBPATH) (NVar LIBPATH) f
  else if startswith (T "-l") arg then joined 2 arg (word LIBS) (NVar LIBS) f
  else if startswith (T "-I") arg then joined 2 arg (word CPPPATH) (NVar CPPPATH) f
  else if startswith (T "-Wa,") arg then (word CCFLAGS arg (word ASFLAGS (drop 4 arg) f), None)
  else if startswith (T "-Wl,") arg then (rpath_word arg f, None)
  else if startswith (T "-Wp,") arg then (word CPPFLAGS arg f, None)
  else if startswith (T "-D") arg then joined 2 arg append_define NDefine f
  else if decide (arg = T "-framework") then (f, Some (NVar FRAMEWORKS))
  else if startswith (T "-frameworkdir=") arg then (word FRAMEWORKPATH (drop 14 arg) f, None)
  else if startswith (T "-F") arg then joined 2 arg (word FRAMEWORKPATH) (NVar FRAMEWORKPATH) f
  else if decide (arg = T "-mno-cygwin") then (word LINKFLAGS arg (word CCFLAGS arg f), None)
  else if decide (arg = T "-mwindows") then (word LINKFLAGS arg f, None)
  else if decide (arg = T "-pthread") then (word LINKFLAGS arg (word CCFLAGS arg f), None)
  else if startswith (T "-std=") arg then (word CFLAGS arg f, None)
  else if decide (c = "+"%char) then (word LINKFLAGS arg (word CCFLAGS arg f), None)
  else if decide (arg = T "-include") then (f, Some NInclude)
  else if decide (arg = T "-isysroot" ∨ arg = T "-arch") then (f, Some (NOption arg))
  else (word CCFLAGS arg f, None).

(** The body of the loop; an empty word has no first character. *)
Definition IndexError : exn := ExOther "IndexError" "string index out of range".
Definition parse_word (st : flags * option next_arg) (arg : text)
    : res exn (flags * option next_arg) :=
  let '(f, next) := st in
  match next, arg with
  | Some n, _ => Ok (take_next n arg f, None)
  | None, [] => Raise IndexError
  | None, c :: _ =>
      if decide (c = "-"%char ∨ c = "+"%char) then Ok (option_word c arg f)
      else Ok (add_flag LIBS (FFile arg) f, None)
  end.
Fixpoint parse_words (st : flags * option next_arg) (l : list text) : res exn flags :=
  match l with
  | [] => Ok st.1
  | arg :: l => rbind (parse_word st arg) (λ st, parse_words st l)
  end.

(** [shlex.split(arg)] *)
Definition shell_words (t : text) : res exn (list text) :=
  match Shlex.split (fuel_for t) t false with
  | Some (Ok l) => Ok (omap id l)
  | Some (Raise e) => Raise e
  | None => Raise RuntimeError
  end.
Definition parse_text (t : text) (f : flags) : res exn flags :=
  rbind (shell_words t) (parse_words (f, None)).

(** ** [ParseFlags] *)

Section ParseFlags.
Variable limit : nat.
Variable backtick : text → pm text.
Variable fs_File : text → nat.

Definition expand_command (t : text) : pm text :=
  match t with
  | c :: t' => if decide (c = "!"%char) then backtick t' else eret t
  | [] => eret t
  end.
Fixpoint do_parse (n : nat) (arg : pval) (f : flags) : pm flags :=
  match n with
  | O => eraise RuntimeError
  | S n => λ s,
      if negb (truthy arg s) then (s, Ok f)
      else match arg with
           | PStr t => (let! t := expand_command t in lift (λ _, parse_text t f))%eff s
           | _ => (let! l := lift (iter_items arg) in
                   (fix loop l f :=
                      match l with
                      | [] => eret f
                      | x :: l => ebind (do_parse n x f) (loop l)
                      end) l f)%eff s
           end
  end.

(** The dictionary returned. *)
Definition fitem_value (i : fitem) : pm pval :=
  match i with
  | FWord t => eret (PStr t)
  | FPair n v => alloc (OList PlainList [PStr n; PStr v])
  | FOpt o a => eret (PTuple [PStr o; PStr a])
  | FInclude a => eret (PTuple [PStr (T "-include"); PObj (fs_File a)])
  | FFile a => eret (PObj (fs_File a))
  end.
Definition var_value (f : flags) (v : fvar) : pm (pval * pval) :=
  (let! l := emap fitem_value (f v) in
   let! r := alloc (OList (fvar_class v) l) in
   eret (PStr (fvar_name v), r))%eff.
Definition flags_value (f : flags) : pm pval :=
  (let! d := emap (var_value f) fvars in alloc (ODict d))%eff.

Definition ParseFlags (e : envref) (args : pval) : pm pval :=
  (let! f := do_parse limit args no_flag in flags_value f)%eff.
End ParseFlags.

(** [MergeFlags] with it. *)
Definition env_MergeFlags (limit : nat) (is_a_Builder : pval → bool) (backtick : text → pm text)
    (fs_File : text → nat) : envref → pval → bool → pm unit :=
  MergeFlags limit is_a_Builder (ParseFlags limit backtick fs_File).

Example parse_ex :
  rmap (λ v, rbind (parse_text (T "-Iinc -L dir -DX='a b' -D Y -Wl,-rpath=/r -lm -O2 x.o -arch ppc") no_flag)
               (λ f, Ok (f v))) [CPPPATH; LIBPATH; CPPDEFINES; RPATH; LIBS; CCFLAGS] =
  Ok [[FWord (T "inc")]; [FWord (T "dir")]; [FPair (T "X") (T "a b"); FWord (T "Y")]; [FWord (T "/r")];
      [FWord (T "m"); FFile (T "x.o")]; [FWord (T "-O2"); FOpt (T "-arch") (T "ppc")]].
Proof. vm_compute. reflexivity. Qed.
