(* ===== verification/FlagsFacts.v ===== *)
(** * Theorems about parsed flags

    Flags written to a command line come back in the variables they belong to,
    and [MergeFlags] adds each of them once. *)

From S2P Require Import Prelude Errors PyStr Subst Shlex ShlexFacts Env EnvFacts EnvClone EnvAppend EnvOver Flags.
Open Scope nat_scope.

(** ** Flags *)

(** A flag with one argument, joined to it or in the next word. *)
Inductive rpath_form := RpathEq | RpathComma | RpathPlain.
Inductive cflag :=
| GDir (v : fvar) (sep : bool) (arg : text)
| GDefine (sep : bool) (name : text) (val : option text)
| GFramework (name : text)
| GFrameworkdir (dir : text)
| GAssembler (t : text)
| GPreprocessor (t : text)
| GRpath (form : rpath_form) (dir : text)
| GLinker (t : text)
| GStd (t : text)
| GMachine (t : text)
| GWindows
| GPlus (t : text)
| GInclude (file : text)
| GTarget (arch : bool) (arg : text)
| GFile (name : text)
| GOther (t : text).

(** The letter of the flags for directories and libraries. *)
Definition dir_option (v : fvar) : option text :=
  match v with
  | LIBPATH => Some (T "-L")
  | LIBS => Some (T "-l")
  | CPPPATH => Some (T "-I")
  | FRAMEWORKPATH => Some (T "-F")
  | _ => None
  end.
Definition with_arg (o : text) (sep : bool) (arg : text) : list text :=
  if sep then [o; arg] else [o ++ arg].
Definition define_text (name : text) (val : option text) : text :=
  match val with Some v => name ++ ["="%char] ++ v | None => name end.
Definition rpath_option (form : rpath_form) : text :=
  match form with
  | RpathEq => T "-Wl,-rpath=" | RpathComma => T "-Wl,-R," | RpathPlain => T "-Wl,-R"
  end.
Definition target_option (arch : bool) : text := if arch then T "-arch" else T "-isysroot".

(** The words of a flag. *)
Definition cwords (g : cflag) : list text :=
  match g with
  | GDir v sep arg => with_arg (default [] (dir_option v)) sep arg
  | GDefine sep name val => with_arg (T "-D") sep (define_text name val)
  | GFramework name => [T "-framework"; name]
  | GFrameworkdir dir => [T "-frameworkdir=" ++ dir]
  | GAssembler t => [T "-Wa," ++ t]
  | GPreprocessor t => [T "-Wp," ++ t]
  | GRpath form dir => [rpath_option form ++ dir]
  | GLinker t => [T "-Wl," ++ t]
  | GStd t => [T "-std=" ++ t]
  | GMachine t => [t]
  | GWindows => [T "-mwindows"]
  | GPlus t => [T "+" ++ t]
  | GInclude file => [T "-include"; file]
  | GTarget arch arg => [target_option arch; arg]
  | GFile name => [name]
  | GOther t => [t]
  end.

(** What it is added to. *)
Definition entries (g : cflag) : list (fvar * fitem) :=
  let both t := [(CCFLAGS, t); (LINKFLAGS, t)] in
  match g with
  | GDir v _ arg => [(v, FWord arg)]
  | GDefine _ name (Some v) => [(CPPDEFINES, FPair name v)]
  | GDefine _ name None => [(CPPDEFINES, FWord name)]
  | GFramework name => [(FRAMEWORKS, FWord name)]
  | GFrameworkdir dir => [(FRAMEWORKPATH, FWord dir)]
  | GAssembler t => [(ASFLAGS, FWord t); (CCFLAGS, FWord (T "-Wa," ++ t))]
  | GPreprocessor t => [(CPPFLAGS, FWord (T "-Wp," ++ t))]
  | GRpath _ dir => [(RPATH, FWord dir)]
  | GLinker t => [(LINKFLAGS, FWord (T "-Wl," ++ t))]
  | GStd t => [(CFLAGS, FWord (T "-std=" ++ t))]
  | GMachine t => both (FWord t)
  | GWindows => [(LINKFLAGS, FWord (T "-mwindows"))]
  | GPlus t => both (FWord (T "+" ++ t))
  | GInclude file => [(CCFLAGS, FInclude file)]
  | GTarget arch arg => both (FOpt (target_option arch) arg)
  | GFile name => [(LIBS, FFile name)]
  | GOther t => [(CCFLAGS, FWord t)]
  end.
Definition add_all (l : list (fvar * fitem)) (f : flags) : flags :=
  foldl (λ f vi, add_flag vi.1 vi.2 f) f l.

Definition prefixes : list text :=
  map T ["-L"; "-l"; "-I"; "-Wa,"; "-Wl,"; "-Wp,"; "-D"; "-frameworkdir="; "-F"; "-std="].
Definition whole_words : list text :=
  map T ["-framework"; "-mno-cygwin"; "-mwindows"; "-pthread"; "-include"; "-isysroot"; "-arch"].

(** A flag whose words mean it. *)
Definition cflag_ok (g : cflag) : Prop :=
  match g with
  | GDir v sep arg => is_Some (dir_option v) ∧ (sep = false → arg ≠ [])
  | GDefine sep name val => ("="%char ∉ name) ∧ (sep = false → define_text name val ≠ [])
  | GRpath RpathPlain dir => startswith (T ",") dir = false
  | GLinker t => startswith (T "-rpath=") t = false ∧ startswith (T "-R") t = false
  | GMachine t => t = T "-mno-cygwin" ∨ t = T "-pthread"
  | GFile name => match name with c :: _ => c ≠ "-"%char ∧ c ≠ "+"%char | [] => False end
  | GOther t => head t = Some "-"%char ∧ (t ∉ whole_words) ∧ Forall (λ p, startswith p t = false) prefixes
  | _ => True
  end.

Lemma append_define_text name val f :
  "="%char ∉ name → append_define (define_text name val) f = add_all (entries (GDefine true name val)) f.
Proof.
  intros Hn. unfold append_define, define_text. destruct val as [v|].
  - cbn [app]. rewrite split_app by done. destruct (PyStr.split "="%char v) as [|w ws] eqn:E; [by apply split_nonnil in E|].
    rewrite <- E. change (T "=") with ["="%char]. by rewrite join_split.
  - by rewrite split_no_sep.
Qed.
Lemma joined_arg n o arg add next f :
  length o = n → arg ≠ [] → joined n (o ++ arg) add next f = (add arg f, None).
Proof. intros <- Ha. unfold joined. rewrite drop_app_length. by destruct arg. Qed.
Lemma joined_end n o add next f : length o = n → joined n o add next f = (f, Some next).
Proof. intros <-. unfold joined. by rewrite drop_all. Qed.

Lemma one_word w f f' rest :
  parse_word (f, None) w = Ok (f', None) →
  parse_words (f, None) ([w] ++ rest) = parse_words (f', None) rest.
Proof. intros E. cbn [app parse_words]. by rewrite E. Qed.

Lemma startswith_longer p q s : startswith p s = false → startswith (p ++ q) s = false.
Proof.
  revert s. induction p as [|c p IH]; intros [|d s]; cbn; try done.
  destruct (bool_decide (c = d)); cbn; [apply IH|done].
Qed.

(** The words of one flag. *)
Lemma parse_flag g f rest :
  cflag_ok g → parse_words (f, None) (cwords g ++ rest) = parse_words (add_all (entries g) f, None) rest.
Proof.
  destruct g as [v sep arg|sep name val|name|dir|t|t|form dir|t|t|t| |t|file|arch arg|name|t]; intros Hok;
    try reflexivity.
  - destruct Hok as [[o Ho] Ha]. destruct sep.
    { destruct v; try discriminate Ho; reflexivity. }
    specialize (Ha eq_refl). apply one_word. destruct arg as [|c arg]; [done|].
    destruct v; try discriminate Ho; reflexivity.
  - destruct Hok as [Hn Ha]. destruct sep.
    { cbn [cwords with_arg app parse_words].
      change (parse_word (f, None) (T "-D")) with (Ok (f, Some NDefine) : res exn (flags * option next_arg)).
      cbn [rbind parse_words parse_word take_next]. by rewrite append_define_text. }
    specialize (Ha eq_refl). apply one_word. unfold with_arg.
    transitivity (Ok (E:=exn) (joined 2 (T "-D" ++ define_text name val) append_define NDefine f)); [reflexivity|].
    rewrite joined_arg by done. by rewrite append_define_text.
  - apply one_word. destruct form; try reflexivity.
    transitivity (Ok (E:=exn) ((if startswith (T ",") dir then word RPATH (drop 7 (T "-Wl,-R" ++ dir))
      else word RPATH (drop 6 (T "-Wl,-R" ++ dir))) f, None : option next_arg)); [reflexivity|].
    change (startswith (T ",") dir = false) in Hok. by rewrite Hok.
  - destruct Hok as [Hr HR]. apply one_word.
    transitivity (Ok (E:=exn)
      ((if startswith (T "-rpath=") t then word RPATH (drop 11 (T "-Wl," ++ t))
        else if startswith (T "-R,") t then word RPATH (drop 7 (T "-Wl," ++ t))
        else if startswith (T "-R") t then word RPATH (drop 6 (T "-Wl," ++ t))
        else word LINKFLAGS (T "-Wl," ++ t)) f, None : option next_arg)); [reflexivity|].
    rewrite Hr, HR. change (T "-R,") with (T "-R" ++ T ","). by rewrite startswith_longer.
  - destruct Hok as [-> | ->]; reflexivity.
  - destruct arch; reflexivity.
  - destruct name as [|c name]; [done|]. destruct Hok as [H1 H2]. apply one_word.
    cbn [parse_word]. rewrite decide_False by naive_solver. done.
  - destruct t as [|c t]; [by destruct Hok|]. destruct Hok as (Hc & Hw & Hp). injection Hc as ->.
    apply one_word. cbn [parse_word]. rewrite decide_True by (by left).
    unfold prefixes in Hp. cbn [map] in Hp. unfold whole_words in Hw. cbn [map] in Hw.
    rewrite !Forall_cons in Hp. rewrite !not_elem_of_cons in Hw.
    destruct Hp as (P1 & P2 & P3 & P4 & P5 & P6 & P7 & P8 & P9 & P10 & _).
    destruct Hw as (W1 & W2 & W3 & W4 & W5 & W6 & W7 & _).
    unfold option_word. rewrite P1, P2, P3, P4, P5, P6, P7, P8, P9, P10.
    rewrite !decide_False by (done || naive_solver). done.
Qed.

(** All the flags. *)
Lemma parse_flags fs f :
  Forall cflag_ok fs →
  parse_words (f, None) (flat_map cwords fs) = Ok (foldl (λ f g, add_all (entries g) f) f fs).
Proof.
  intros Hfs. revert f. induction Hfs as [|g fs Hg _ IH]; intros f; [done|].
  cbn [flat_map foldl]. by rewrite parse_flag.
Qed.

(** The items that a list of flags gives a variable. *)
Definition items_of (fs : list cflag) (v : fvar) : list fitem :=
  map snd (List.filter (λ vi, bool_decide (v = vi.1)) (flat_map entries fs)).
Lemma add_all_items l f v :
  add_all l f v = f v ++ map snd (List.filter (λ vi, bool_decide (v = vi.1)) l).
Proof.
  unfold add_all. revert f. induction l as [|[w i] l IH]; intros f; cbn [foldl List.filter fst snd].
  - by rewrite app_nil_r.
  - rewrite IH. unfold add_flag. destruct (decide (v = w)) as [->|Hne].
    + rewrite bool_decide_eq_true_2 by done. cbn [map snd]. by rewrite <- app_assoc.
    + by rewrite bool_decide_eq_false_2.
Qed.
Lemma parsed_items fs f v : foldl (λ f g, add_all (entries g) f) f fs v = f v ++ items_of fs v.
Proof.
  unfold items_of. revert f. induction fs as [|g fs IH]; intros f; cbn [foldl flat_map].
  - by rewrite app_nil_r.
  - rewrite IH, add_all_items, List.filter_app, map_app. by rewrite <- app_assoc.
Qed.

(** ** The dictionary that [ParseFlags] returns *)

Section emap.
Context {A B : Type} (g : A → pm B) (val : B → pval) (d : A → dval) (K : A → B → Prop).
Context (Hg : ∀ s a, wf_store s → ∃ s' b, g a s = (s', Ok b) ∧ wf_store s' ∧ grows s s' ∧
  below s' (val b) ∧ K a b ∧ holds s' (val b) (d a)).

Lemma emap_holds l s :
  wf_store s → ∃ s' l', emap g l s = (s', Ok l') ∧ wf_store s' ∧ grows s s' ∧
    Forall (λ b, below s' (val b)) l' ∧ Forall2 (λ a b, K a b ∧ holds s' (val b) (d a)) l l'.
Proof.
  revert s. induction l as [|a l IH]; intros s Hs.
  { exists s, []. split; [done|]. split; [done|]. split; [apply grows_refl|].
    split; [apply Forall_nil_2|apply Forall2_nil_2]. }
  destruct (Hg s a Hs) as (s1 & b & E1 & Hs1 & Hg1 & Hb & HK & Hd).
  destruct (IH s1 Hs1) as (s2 & l' & E2 & Hs2 & Hg2 & Hl & Hl2).
  exists s2, (b :: l'). cbn [emap]. unfold ebind. rewrite E1, E2.
  split; [done|]. split; [done|]. split; [by eapply grows_trans|].
  split; constructor; [by eapply below_grows|done| |done].
  split; [done|]. by apply (holds_grows s1 s2).
Qed.
End emap.

Lemma holds_dict s r d k :
  objs s !! r = Some (ODict d) → Forall2 (λ kd kv, kv.1 = kd.1 ∧ holds s kv.2 kd.2) k d →
  holds s (PRef r) (DDict k).
Proof.
  intros Hr Hd. assert (∃ n, mapM (λ kv, pair kv.1 <$> deep n s kv.2) d = Some k) as [n En].
  2: { exists (S n). cbn. by rewrite Hr, En. }
  clear Hr. induction Hd as [|[key y] [key' x] k d [Hkey [n Ex]] _ [m El]]; [by exists 0|].
  cbn [fst snd] in *. subst key'. exists (n `max` m). cbn.
  rewrite (deep_le n _ s x y) by (done || lia). cbn.
  rewrite (mapM_impl (λ kv, pair kv.1 <$> deep m s kv.2) _ d k); [done| |done].
  intros [a z] w. cbn. apply fmap_impl. intros v. apply deep_le. lia.
Qed.

Section ParseFlags.
Context (limit : nat) (backtick : text → pm text) (fs_File : text → nat).

Definition ditem (i : fitem) : dval :=
  match i with
  | FWord t => DStr t
  | FPair n v => DList PlainList [DStr n; DStr v]
  | FOpt o a => DTuple [DStr o; DStr a]
  | FInclude a => DTuple [DStr (T "-include"); DObj (fs_File a)]
  | FFile a => DObj (fs_File a)
  end.
(** The dictionary with given items for each variable. *)
Definition dflags (f : flags) : dval :=
  DDict (map (λ v, (PStr (fvar_name v), DList (fvar_class v) (map ditem (f v)))) fvars).

Lemma fitem_holds s i :
  wf_store s → ∃ s' v, fitem_value fs_File i s = (s', Ok v) ∧ wf_store s' ∧ grows s s' ∧
    below s' v ∧ True ∧ holds s' v (ditem i).
Proof.
  intros Hs. destruct i as [t|n v|o a|a|a]; cbn [fitem_value].
  2: { eexists _, _. split; [reflexivity|].
    split; [apply (wf_alloc s); [done|repeat constructor]|].
    split; [exact (growing_run _ s (growing_alloc _))|].
    split; [constructor; [cbn; lia|constructor]|]. split; [done|].
    eapply holds_ref; [cbn; apply lookup_insert_eq|]. repeat constructor; by apply holds_plain. }
  all: eexists s, _; split; [reflexivity|]; split; [done|]; split; [apply grows_refl|];
    split; [by repeat constructor|]; split; [done|].
  - by apply holds_plain.
  - apply holds_tuple. repeat constructor; by apply holds_plain.
  - apply holds_tuple. repeat constructor; by apply holds_plain.
  - by apply holds_plain.
Qed.
Lemma fvar_holds f s v :
  wf_store s →
  ∃ s' b, var_value fs_File f v s = (s', Ok b) ∧ wf_store s' ∧ grows s s' ∧
    below s' b.2 ∧ b.1 = PStr (fvar_name v) ∧
    holds s' b.2 (DList (fvar_class v) (map ditem (f v))).
Proof.
  intros Hs. destruct (emap_holds (fitem_value fs_File) id ditem (λ _ _, True) fitem_holds (f v) s Hs)
    as (s1 & l & E & Hs1 & Hg & Hb & Hl).
  unfold var_value, ebind. rewrite E. eexists _, _. split; [reflexivity|].
  split; [by apply (wf_alloc s1)|].
  pose proof (growing_run _ s1 (growing_alloc (OList (fvar_class v) l))) as Hg1.
  split; [by eapply grows_trans|]. split; [constructor; [cbn; lia|constructor]|]. split; [done|].
  eapply holds_ref; [cbn; apply lookup_insert_eq|].
  eapply holds_items_grow; [exact Hs1|exact Hb|exact Hg1|].
  clear -Hl. induction Hl as [|i x k l [_ Hx] _ IH]; constructor; done.
Qed.
Lemma flags_value_holds f s :
  wf_store s → ∃ s' u, flags_value fs_File f s = (s', Ok u) ∧ grows s s' ∧ holds s' u (dflags f).
Proof.
  intros Hs. destruct (emap_holds (var_value fs_File f) snd _ (λ v b, b.1 = PStr (fvar_name v))
    (λ s v, fvar_holds f s v) fvars s Hs) as (s1 & d & E & Hs1 & Hg & Hb & Hl).
  unfold flags_value, ebind at 1. rewrite E. eexists _, _. split; [reflexivity|].
  pose proof (growing_run _ s1 (growing_alloc (ODict d))) as Hg1.
  split; [by eapply grows_trans|]. eapply holds_dict; [cbn; apply lookup_insert_eq|].
  assert (∀ s2, grows s1 s2 → Forall2 (λ kd kv, kv.1 = kd.1 ∧ holds s2 kv.2 kd.2)
    (map (λ v, (PStr (fvar_name v), DList (fvar_class v) (map ditem (f v)))) fvars) d) as Hall.
  { clear E Hg1. intros s2 Hg2. induction Hl as [|v b k l [Hk Hx] _ IH]; [constructor|].
    apply Forall_cons in Hb as [Hb Hbl]. constructor; [|by apply IH].
    split; [exact Hk|]. by apply (holds_grows s1). }
  apply (Hall _ Hg1).
Qed.

(** C23: A command line with any sequence of flags, each with its argument joined
    or in the next word and each word quoted in any way, is parsed into the
    dictionary that has, for every variable, the items of its flags in their
    order, and in which nothing else is changed or added. *)
Theorem parse_flags_roundtrip e fs ws s :
  wf_store s → 0 < limit → Forall cflag_ok fs → Forall word_ok ws →
  map value ws = flat_map cwords fs → render_words ws ≠ [] →
  head (render_words ws) ≠ Some "!"%char →
  ∃ s' u, ParseFlags limit backtick fs_File e (PStr (render_words ws)) s = (s', Ok u) ∧
    grows s s' ∧ holds s' u (dflags (items_of fs)).
Proof.
  intros Hs Hlim Hfs Hws Hmap Hne Hhd.
  assert (parse_text (render_words ws) no_flag = Ok (foldl (λ f g, add_all (entries g) f) no_flag fs)) as Hp.
  { unfold parse_text, shell_words. rewrite (split_rendered ws Hws). cbn [rbind].
    rewrite <- (parse_flags fs no_flag Hfs), <- Hmap. f_equal.
    clear. induction ws as [|w ws IH]; [done|]. cbn. by rewrite IH. }
  assert (do_parse backtick limit (PStr (render_words ws)) no_flag s
    = (s, Ok (foldl (λ f g, add_all (entries g) f) no_flag fs))) as E.
  { destruct limit as [|n]; [lia|]. cbn [do_parse truthy]. rewrite bool_decide_eq_false_2 by done.
    cbn [negb]. unfold ebind, expand_command. destruct (render_words ws) as [|c t] eqn:Er; [done|].
    rewrite decide_False by (intros ->; by apply Hhd). unfold lift, eret. by rewrite Hp. }
  unfold ParseFlags, ebind. rewrite E.
  destruct (flags_value_holds (foldl (λ f g, add_all (entries g) f) no_flag fs) s Hs) as (s' & u & E' & Hg & Hu).
  exists s', u. split; [exact E'|]. split; [exact Hg|].
  assert (dflags (items_of fs) = dflags (foldl (λ f g, add_all (entries g) f) no_flag fs)) as ->; [|done].
  unfold dflags. f_equal. apply map_ext. intros v. by rewrite parsed_items.
Qed.
End ParseFlags.

(** [-I inc], a quoted definition, a linker flag, a library and an object file. *)
Definition some_flags : list cflag :=
  [GDir CPPPATH true (T "inc"); GDefine false (T "X") (Some (T "a b")); GRpath RpathEq (T "/r");
   GDir LIBS false (T "m"); GFile (T "x.o"); GOther (T "-O2")].
Definition some_words : list (list segment) :=
  [[Bare (T "-I")]; [Bare (T "inc")]; [Bare (T "-DX="); Single (T "a b")];
   [Double (T "-Wl,-rpath=/r")]; [Bare (T "-lm")]; [Bare (T "x.o")]; [Bare (T "-O2")]].
Lemma some_flags_ok : Forall cflag_ok some_flags.
Proof.
  unfold some_flags. repeat (apply Forall_cons; split); try apply Forall_nil_2; cbn [cflag_ok].
  - split; [by eexists|done].
  - split; [apply (bool_decide_unpack _); by vm_compute|done].
  - done.
  - split; [by eexists|done].
  - done.
  - split; [done|]. split; [apply (bool_decide_unpack _); by vm_compute|]. unfold prefixes.
    repeat constructor.
Qed.
Lemma some_words_ok : Forall word_ok some_words.
Proof.
  unfold some_words. repeat (apply Forall_cons; split); try apply Forall_nil_2;
    (split; [done|]); repeat (apply Forall_cons; split); try apply Forall_nil_2; cbn [segment_ok]; try done;
    first [apply (bool_decide_unpack _); by vm_compute
          |split; [done|]; unfold bare_char; repeat (apply Forall_cons; split); try apply Forall_nil_2; by vm_compute].
Qed.
Lemma parse_flags_roundtrip_witness :
  ∃ s' u, ParseFlags 10 (λ _, eraise TypeError) (λ _, 4) (EBase 0)
      (PStr (T "-I inc -DX='a b' " ++ [quote2] ++ T "-Wl,-rpath=/r" ++ [quote2] ++ T " -lm x.o -O2")) one_env
      = (s', Ok u) ∧ grows one_env s' ∧
    ∃ d, holds s' u (DDict d) ∧
      assoc_get (PStr (T "CPPDEFINES")) d = Some (DList PlainList [DList PlainList [DStr (T "X"); DStr (T "a b")]]) ∧
      assoc_get (PStr (T "LIBS")) d = Some (DList PlainList [DStr (T "m"); DObj 4]).
Proof.
  destruct (parse_flags_roundtrip 10 (λ _, eraise TypeError) (λ _, 4) (EBase 0) some_flags some_words
    one_env one_env_wf (Nat.lt_0_succ 9) some_flags_ok some_words_ok eq_refl) as (s' & u & E & Hg & Hu);
    [discriminate|discriminate|].
  exists s', u. split; [exact E|]. split; [exact Hg|].
  eexists. split; [exact Hu|]. split; vm_compute; reflexivity.
Defined.

(** ** Merging lists of strings *)

Section merge.
Context (limit : nat) (is_a_Builder : pval → bool).

Lemma keep_first_strings s t l :
  keep_first (S limit) s (map PStr t) (map PStr l) = Ok (map PStr (foldl uniq_step t l)).
Proof.
  revert t. induction l as [|x l IH]; intros t; [done|]. cbn [map keep_first foldl].
  rewrite in_strings. cbn [rbind]. unfold uniq_step at 2. destruct (decide (x ∈ t)) as [Hx|Hx].
  - by rewrite bool_decide_eq_true_2.
  - rewrite bool_decide_eq_false_2 by done. rewrite <- IH. by rewrite map_app.
Qed.
Lemma keep_last_strings s t l :
  keep_last (S limit) s (map PStr (rev t)) (map PStr l) = Ok (map PStr (rev (foldl uniq_step t l))).
Proof.
  revert t. induction l as [|x l IH]; intros t; [done|]. cbn [map keep_last foldl].
  rewrite in_strings. cbn [rbind]. unfold uniq_step at 2.
  assert (x ∈ rev t ↔ x ∈ t) as Hrev by (rewrite !list_elem_of_In; symmetry; apply in_rev).
  destruct (decide (x ∈ t)) as [Hx|Hx].
  - rewrite bool_decide_eq_true_2 by tauto. apply IH.
  - rewrite bool_decide_eq_false_2 by tauto. rewrite <- IH. by rewrite rev_app_distr.
Qed.

(** What a variable gets. *)
Definition merged (key : text) (l : list text) : list text :=
  if is_path_var key then uniq l else uniq_last l.

Lemma setitem_plain b key v s :
  reserved key = false → key ≠ T "BUILDERS" → key ≠ T "SCANNERS" →
  is_Some (base_dict b s !! key) ∨ is_valid_var key = true →
  env_setitem is_a_Builder (EBase b) key v s = set_var b key v s.
Proof.
  intros Hres Hb Hsc Hok. cbn [env_setitem]. rewrite Hres, !decide_False by done.
  destruct Hok as [Hin|Hv]; [by rewrite bool_decide_eq_true_2|]. by rewrite Hv, orb_true_r.
Qed.

(** The items that are kept. *)
Lemma kept_items key s r c l :
  objs s !! r = Some (OList c (map PStr l)) →
  ∃ s', (if is_path_var key then
           let! l := lift (iter_items (PRef r)) in lift (λ s, keep_first (S limit) s [] l)
         else
           list_reverse (PRef r) ;;;
           let! l := lift (iter_items (PRef r)) in lift (λ s, keep_last (S limit) s [] l))%eff s
    = (s', Ok (map PStr (merged key l))) ∧ bases s' = bases s ∧ onext s' = onext s ∧
    ∀ r', r' ≠ r → objs s' !! r' = objs s !! r'.
Proof.
  intros Hr. assert (∀ s l, objs s !! r = Some (OList c (map PStr l)) →
    iter_items (PRef r) s = Ok (map PStr l)) as Hiter
    by (intros s' l' Hs; unfold iter_items, seq_items; cbn; by rewrite Hs).
  unfold merged. destruct (is_path_var key).
  - exists s. unfold ebind, lift. rewrite (Hiter s l Hr). split; [|done].
    pose proof (keep_first_strings s [] l) as E. cbn [map] in E. by rewrite E.
  - set (s1 := (put r (OList c (map PStr (rev l))) s).1).
    exists s1. unfold ebind at 1, list_reverse. rewrite (on_list_here r c (map PStr l)) by done.
    rewrite <- map_rev. change (put r _ s) with (s1, Ok tt : res exn unit). cbv iota beta.
    unfold ebind, lift. rewrite (Hiter s1 (rev l)) by (cbn; apply lookup_insert_eq).
    pose proof (keep_last_strings s1 [] (rev l)) as E. cbn [map rev] in E. rewrite E.
    split; [done|]. split; [done|]. split; [done|].
    intros r' Hr'. cbn. by rewrite lookup_insert_ne.
Qed.

(** The value that the loop body starts from. *)
Lemma merge_orig_strings s orig value c c' old new :
  dom_ok s → strings s orig c old → strings s value c' new →
  ∃ s' r c2, merge_orig orig value s = (s', Ok (PRef r)) ∧ grows s s' ∧
    objs s' !! r = Some (OList c2 (map PStr (old ++ new))).
Proof.
  intros Hd Ho Hv. unfold merge_orig. rewrite (truthy_holds _ _ _ Ho). cbn [dtruthy].
  rewrite length_map. destruct old as [|x old]; cbn [length negb bool_decide decide].
  - apply strings_ref in Hv as (r & -> & Hr). exists s, r, c'. split; [done|].
    split; [apply grows_refl|done].
  - destruct (padd_makes s orig value c c' (x :: old) new Ho Hv) as (s1 & u & E & Hg & Hu).
    unfold ecatch. rewrite E. apply strings_ref in Hu as (r & -> & Hr).
    eexists s1, r, _. split; [done|]. split; [done|exact Hr].
Qed.

(** [MergeFlags] of a list of strings into a variable that holds a list of
    strings, or is not there yet: it becomes the plain list of all of them
    without repetitions, the first occurrences kept for the variables whose
    names end in [PATH], the last for all others. *)
Theorem merge_item_strings b key value s c' new (old : list text) :
  wf_store s → strings s value c' new → new ≠ [] →
  reserved key = false → key ≠ T "BUILDERS" → key ≠ T "SCANNERS" → is_valid_var key = true →
  match base_dict b s !! key with
  | Some orig => ∃ c, strings s orig c old
  | None => old = []
  end →
  let r := merge_item (S limit) is_a_Builder (EBase b) key value s in
  r.2 = Ok tt ∧ ∃ u, base_dict b r.1 !! key = Some u ∧ strings r.1 u PlainList (merged key (old ++ new)).
Proof.
  intros Hs Hv Hne Hres Hkb Hks Hvalid Hold r0. destruct new as [|x new]; [done|].
  set (l := x :: new) in *.
  assert (∃ s1 r c2, (match env_get (EBase b) key s with
                      | None => eret value
                      | Some orig => merge_orig orig value
                      end) s = (s1, Ok (PRef r)) ∧ grows s s1 ∧
    objs s1 !! r = Some (OList c2 (map PStr (old ++ l)))) as (s1 & r & c2 & E1 & Hg & Hr).
  { cbn [env_get]. destruct (base_dict b s !! key) as [orig|].
    - destruct Hold as [c Ho]. by apply (merge_orig_strings s orig value c c'); [exact (wf_dom _ Hs)|..].
    - subst old. apply strings_ref in Hv as (r & -> & Hr). exists s, r, c'. split; [done|].
      split; [apply grows_refl|done]. }
  destruct (kept_items key s1 r c2 (old ++ l) Hr) as (s2 & E2 & Hb2 & Hn2 & Ho2).
  assert (∃ st, r0 = set_var b key (PRef (onext s2)) st ∧
    objs st !! onext s2 = Some (OList PlainList (map PStr (merged key (old ++ l))))) as (st & -> & Hst).
  { subst r0. unfold merge_item. rewrite (truthy_holds _ _ _ Hv). cbn [dtruthy]. rewrite length_map.
    change (bool_decide (length l = 0)) with false. cbn [negb].
    unfold ebind at 1. rewrite E1. unfold ebind at 1. rewrite E2. unfold ebind, alloc.
    rewrite setitem_plain; [|done..|by right].
    eexists. split; [reflexivity|]. cbn. apply lookup_insert_eq. }
  apply set_var_holds, strings_ref. by exists (onext s2).
Qed.
End merge.

Lemma merge_item_strings_witness :
  let r := merge_item 10 (λ _, true) (EBase 0) (T "FLAGS") (PRef 4) one_env in
  r.2 = Ok tt ∧ ∃ u, base_dict 0 r.1 !! T "FLAGS" = Some u ∧
    strings r.1 u PlainList [T "-g"; T "-p"].
Proof.
  exact (merge_item_strings 9 (λ _, true) 0 (T "FLAGS") (PRef 4) one_env PlainList
    [T "-p"; T "-g"; T "-p"] [T "-g"] one_env_wf (ex_intro _ 2 eq_refl) (λ E, ltac:(discriminate E))
    eq_refl (λ E, ltac:(discriminate E)) (λ E, ltac:(discriminate E)) eq_refl
    (ex_intro _ PlainList (ex_intro _ 2 eq_refl))).
Defined.

(** ** Words that are lost *)

(** An option whose argument does not follow is dropped, also where the argument
    is the next string of a list; an empty word has no first character. *)
Lemma option_without_argument :
  rbind (parse_text (T "-lm -I") no_flag) (λ f, Ok (map f fvars)) =
    rbind (parse_text (T "-lm") no_flag) (λ f, Ok (map f fvars)) ∧
  (let s := (alloc (OList PlainList [PStr (T "-I"); PStr (T "inc")]) one_env).1 in
   ebind (do_parse eret 10 (PRef 5) no_flag) (λ f, eret (f CPPPATH, f LIBS)) s
   = (s, Ok ([], [FFile (T "inc")]))).
Proof. split; vm_compute; reflexivity. Qed.
Lemma empty_word_raises : parse_text (T "-O2 ''") no_flag = Raise IndexError.
Proof. vm_compute. reflexivity. Qed.
