(* ===== verification/Builder.v ===== *)
(** * Builders ([SCons/Builder.py])

    From a call in a build script to targets with a builder, sources and an
    executor: suffixes, emitters, builders that make the sources of others, the
    errors of targets with two ways to be built.  The attributes of nodes and the
    executors are those of [NodeData] and [Executor]; names are looked up
    ([arg2nodes]) and variables substituted through the interface [BuildEnv].
    The working directory of nodes and the keyword [chdir] are not modelled;
    builders in other builders' attributes are compared by identity. *)

From S2P Require Import Prelude Errors NodeState PyStr Util NodeData Executor.
Open Scope nat_scope.

(** ** Suffixes *)

(** [containsOnly(path, "0123456789.")] *)
Definition digits_only (t : text) : bool := forallb (λ c, is_digit c || bool_decide (c = "."%char)) t.
(** [SCons.Util.splitext] *)
Definition splitext (path : text) : text * text :=
  let sep := rfind path "/"%char in
  let dot := rfind path "."%char in
  if bool_decide (sep < dot)%Z && negb (digits_only (drop (Z.to_nat dot) path))
  then (take (Z.to_nat dot) path, drop (Z.to_nat dot) path)
  else (path, []).

(** [path[-n:]] and [path[:-n]] *)
Definition last_chars (n : nat) (t : text) : text :=
  if decide (n = 0) then t else drop (length t - n) t.
Definition but_last_chars (n : nat) (t : text) : text :=
  if decide (n = 0) then [] else take (length t - n) t.

(** The greatest pair of a length and a suffix of that length. *)
Fixpoint text_lt (a b : text) : bool :=
  match a, b with
  | _, [] => false
  | [], _ :: _ => true
  | c :: a, d :: b =>
      if decide (c = d) then text_lt a b else bool_decide (nat_of_ascii c < nat_of_ascii d)
  end.
Definition longer (a b : text) : text :=
  if decide (length a < length b ∨ (length a = length b ∧ text_lt a b)) then b else a.
Definition match_splitext (path : text) (suffixes : list text) : text * text :=
  match List.filter (λ S, bool_decide (last_chars (length S) path = S)) suffixes with
  | [] => splitext path
  | s :: l => let suf := foldl longer s l in
              (but_last_chars (length suf) path, last_chars (length suf) path)
  end.

(** [os.path.join] *)
Definition join_path (a b : text) : text :=
  match b, a with
  | "/"%char :: _, _ => b
  | _, [] => b
  | _, _ => if bool_decide (last a = Some "/"%char) then a ++ b else a ++ T "/" ++ b
  end.

Definition falsy (o : option text) : bool :=
  match o with None | Some [] => true | _ => false end.
(** [SCons.Util.adjustixes]; [None] and the empty text are false. *)
Definition adjustixes (fname : text) (pre suf : option text) (ensure_suffix : bool) : text :=
  let fname :=
    match pre with
    | Some ((_ :: _) as pre) =>
        let '(path, fn) := path_split (normpath fname) in
        if decide (take (length pre) fn = pre) then fname else join_path path (pre ++ fn)
    | _ => fname
    end in
  match suf with
  | Some ((_ :: _) as suf) =>
      if decide (last_chars (length suf) fname ≠ suf) then
        if ensure_suffix || bool_decide ((splitext fname).2 = []) then fname ++ suf else fname
      else fname
  | _ => fname
  end.

(** [adjust_suffix] *)
Definition adjust_suffix (suff : text) : text :=
  match suff with
  | c :: _ => if decide (c ∈ [".";"_";"$"]%char) then suff else "."%char :: suff
  | [] => suff
  end.

(** ** Builders *)

Definition bid : Type := nat.

(** A prefix, suffix or source suffix: a text, a dictionary from suffixes
    ([CallableSelector]), or a function. *)
Inductive affix :=
| AText (t : text)
| ADict (d : list (option text * affix_value))
| AFun (f : nat)
with affix_value := VText (t : text) | VFun (f : nat).

(** Functions that change the lists of targets and sources; a variable that
    holds some; a dictionary from suffixes; a list. *)
Inductive emitter :=
| EFun (f : nat)
| EVar (var : text)
| EDict (d : list (option text * nat))
| EList (l : list nat).

(** What a construction variable holds, as [EmitterProxy] looks at it. *)
Inductive var_value := VarStr (t : text) | VarFun (f : nat) | VarList (l : list nat) | VarOther.

(** Sources and targets in a call. *)
Inductive barg := BStr (t : text) | BNode (n : nid) | BList (l : list barg).

Section builders.
Context `{DepTypes}.

Record bld := Bld {
  b_action : option action;
  b_prefix : affix;
  b_suffix : affix;
  b_src_suffix : list text;
  b_target_factory : option nat;
  b_source_factory : option nat;
  b_emitter : option emitter;
  b_multi : bool;
  b_env : option env;
  b_overrides : gmap string string;
  b_single_source : bool;
  b_is_explicit : bool;
  b_src_builder : list (text + bid);
  b_ensure_suffix : bool;
  b_target_scanner : option scanner;
  b_source_scanner : option scanner;
  memo_src_builders : gmap nat (list bid);
  memo_src_suffixes : gmap nat (list text)
}.

(** The nodes and executors; the builders; of each node the builder and whether
    it is explicit; [_batch_executors]; the warnings given; [already_warned] of
    the running call. *)
Record bst := BSt {
  bs_store : dstore;
  bs_builders : gmap bid bld;
  bs_builder : gmap nid bid;
  bs_explicit : gset nid;
  bs_batch : gmap nat eid;
  bs_warned : list text;
  bs_already : bool
}.
End builders.

(** What builders use of environments, nodes, actions and functions given by
    users.  [env_id] is [id(env)]; [name_subst] is [env.subst] of the name of a
    file, with targets and sources; a look-up of a name gives a name or nodes; a
    factory makes nodes; [builder_eq] compares the attributes of builders. *)
Class BuildEnv `{DepWorld} := {
  env_id : env → nat;
  env_subst : env → text → text;
  name_subst : env → list barg → list barg → text → text;
  env_BUILDERS : env → text → option bid;
  env_var : env → text → option var_value;
  lookup_list : env → text → option (text + list nid);
  factory_call : env → option nat → text → list nid;
  node_name : nid → text;
  node_suffix : nid → text;
  target_from_source : nid → option (option text → option text → (text → text * text) → nid);
  batch_key : action → env → list nid → list nid → option nat;
  affix_call : nat → env → list nid → option text;
  emit : nat → env → list barg → list barg → bst → bst * res exn (list barg * list barg);
  builder_eq : bld → bld → bool
}.

Section build.
Context `{BuildEnv}.
(** The limit on recursion. *)
Variable limit : nat.
Abbreviation bm := (eff bst exn).

Definition RuntimeError : exn := ExOther "RuntimeError" "maximum recursion depth exceeded".

Definition with_store (f : dstore → dstore) (s : bst) : bst :=
  BSt (f (bs_store s)) (bs_builders s) (bs_builder s) (bs_explicit s) (bs_batch s) (bs_warned s)
    (bs_already s).
Definition with_builders (f : gmap bid bld → gmap bid bld) (s : bst) : bst :=
  BSt (bs_store s) (f (bs_builders s)) (bs_builder s) (bs_explicit s) (bs_batch s) (bs_warned s)
    (bs_already s).
Definition with_builder_of (f : gmap nid bid → gmap nid bid) (s : bst) : bst :=
  BSt (bs_store s) (bs_builders s) (f (bs_builder s)) (bs_explicit s) (bs_batch s) (bs_warned s)
    (bs_already s).
Definition with_explicit (f : gset nid → gset nid) (s : bst) : bst :=
  BSt (bs_store s) (bs_builders s) (bs_builder s) (f (bs_explicit s)) (bs_batch s) (bs_warned s)
    (bs_already s).
Definition with_batch (f : gmap nat eid → gmap nat eid) (s : bst) : bst :=
  BSt (bs_store s) (bs_builders s) (bs_builder s) (bs_explicit s) (f (bs_batch s)) (bs_warned s)
    (bs_already s).
Definition warn (l : list text) (s : bst) : bst :=
  BSt (bs_store s) (bs_builders s) (bs_builder s) (bs_explicit s) (bs_batch s) (bs_warned s ++ l)
    (bs_already s).
Definition with_already (a : bool) (s : bst) : bst :=
  BSt (bs_store s) (bs_builders s) (bs_builder s) (bs_explicit s) (bs_batch s) (bs_warned s) a.
(** A call on nodes and executors. *)
Definition on_store {A} (m : eff dstore exn A) : bm A := λ s,
  let '(d, r) := m (bs_store s) in (with_store (λ _, d) s, r).

Definition empty_bld : bld :=
  Bld None (AText []) (AText []) [] None None None false None ∅ false true [] false None None ∅ ∅.
Definition bld_of (s : bst) (b : bid) : bld := default empty_bld (bs_builders s !! b).
Definition with_memo_builders f (r : bld) : bld :=
  let '(Bld ac pr su ss tf sf em mu en ov si ex sb es ts sc mb ms) := r in
  Bld ac pr su ss tf sf em mu en ov si ex sb es ts sc (f mb) ms.
Definition with_memo_suffixes f (r : bld) : bld :=
  let '(Bld ac pr su ss tf sf em mu en ov si ex sb es ts sc mb ms) := r in
  Bld ac pr su ss tf sf em mu en ov si ex sb es ts sc mb (f ms).
Definition upd_bld (b : bid) (f : bld → bld) (s : bst) : bst :=
  with_builders (insert b (f (bld_of s b))) s.
(** What the engine reads of a builder. *)
Definition node_builder (r : bld) : builder :=
  Builder (default 0 (b_action r)) (b_env r) (b_overrides r) (b_target_scanner r) (b_source_scanner r).

(** ** Suffixes of sources *)

Definition get_src_builders (b : bid) (v : env) : bm (list bid) := λ s,
  match memo_src_builders (bld_of s b) !! env_id v with
  | Some l => (s, Ok l)
  | None =>
      let l := omap (λ x, match x with inl name => env_BUILDERS v name | inr c => Some c end)
                 (b_src_builder (bld_of s b)) in
      (upd_bld b (with_memo_builders (insert (env_id v) l)) s, Ok l)
  end.
Definition subst_src_suffixes (b : bid) (v : env) : bm (list text) := λ s,
  match memo_src_suffixes (bld_of s b) !! env_id v with
  | Some l => (s, Ok l)
  | None =>
      let l := map (env_subst v) (b_src_suffix (bld_of s b)) in
      (upd_bld b (with_memo_suffixes (insert (env_id v) l)) s, Ok l)
  end.
(** The list is the memoised one: what is appended stays in it. *)
Definition memo_list_of (b : bid) (v : env) (s : bst) : list text :=
  default [] (memo_src_suffixes (bld_of s b) !! env_id v).
Definition append_new (acc : list text) (x : text) : list text :=
  if decide (x ∈ acc) then acc else acc ++ [x].
Definition extend_memo (b : bid) (v : env) (l : list text) (s : bst) : bst :=
  upd_bld b (with_memo_suffixes (insert (env_id v) (foldl append_new (memo_list_of b v s) l))) s.
Fixpoint src_suffixes (n : nat) (b : bid) (v : env) : bm (list text) :=
  match n with
  | O => eraise RuntimeError
  | S n =>
      (subst_src_suffixes b v ;;;
       let! builders := get_src_builders b v in
       efor builders (λ c, let! l := src_suffixes n c v in emod (extend_memo b v l)) ;;;
       eget (memo_list_of b v))
  end%eff.
Definition get_src_suffix (b : bid) (v : env) : bm text :=
  (let! l := src_suffixes limit b v in eret (default [] (head l)))%eff.

(** [_get_sdict] *)
Definition _get_sdict (b : bid) (v : env) : bm (gmap text bid) :=
  (let! builders := get_src_builders b v in
   let! ls := emap (λ c, let! l := src_suffixes limit c v in eret (c, l)) builders in
   eret (foldl (λ m '(c, l), foldl (λ m x, <[x := c]> m) m l) ∅ ls))%eff.
Definition match_src_suffix (suffixes : list text) (name : text) : option text :=
  List.find (λ suf, bool_decide (suf ∈ map (λ x, last_chars (length x) name) suffixes)) suffixes.

(** [set_src_suffix] and [add_src_builder] *)
Definition set_src_suffix (b : bid) (l : list text) : bst → bst := upd_bld b (λ r,
  let '(Bld ac pr su _ tf sf em mu en ov si ex sb es ts sc mb ms) := r in
  Bld ac pr su (map adjust_suffix l) tf sf em mu en ov si ex sb es ts sc mb ms).
Definition add_src_builder (b c : bid) : bst → bst := upd_bld b (λ r,
  let '(Bld ac pr su ss tf sf em mu en ov si ex sb es ts sc _ _) := r in
  Bld ac pr su ss tf sf em mu en ov si ex (sb ++ [inr c]) es ts sc ∅ ∅).

(** ** Nodes for names *)

(** [SCons.Util.flatten] *)
Fixpoint flat (a : barg) : list barg := match a with BList l => flat_map flat l | _ => [a] end.
Definition arg2nodes (v : env) (factory : option nat) (target source : list barg) (args : list barg)
    : list nid :=
  flat_map (λ a,
    match a with
    | BStr t =>
        match lookup_list v t with
        | Some (inl t) => factory_call v factory (name_subst v target source t)
        | Some (inr l) => l
        | None => factory_call v factory (name_subst v target source t)
        end
    | BNode n => [n]
    | BList _ => []
    end) (flat_map flat args).
Definition _adjustixes (files : list barg) (pre suf : option text) (ensure_suffix : bool) : list barg :=
  map (λ f, match f with BStr t => BStr (adjustixes t pre suf ensure_suffix) | _ => f end) files.

Definition od_of {V} (d : list (option text * V)) : OrderedDict (option text) V := od_update d od_empty.
(** [get_prefix] and [get_suffix] *)
Definition get_affix (a : affix) (v : env) (slist : list nid) : res exn (option text) :=
  let sub := option_map (env_subst v) in
  match a with
  | AText t => Ok (Some (env_subst v t))
  | AFun f => Ok (sub (affix_call f v slist))
  | ADict d =>
      rbind (Selector_call (env_subst v) (od_of d) (map node_suffix slist) None) (λ r,
      Ok (match r with
          | Some (VText t) => Some (env_subst v t)
          | Some (VFun f) => sub (affix_call f v slist)
          | None => None
          end))
  end.

(** ** Emitters *)

(** The loop of [EmitterProxy]; [None]: the fuel was too small. *)
Fixpoint proxy_value (fuel : nat) (v : env) (x : text) : option var_value :=
  match env_var v x with
  | None => Some (VarStr x)
  | Some (VarStr y) => match fuel with O => None | S fuel => proxy_value fuel v y end
  | Some w => Some w
  end.
(** A list of emitters, each given what the one before returned. *)
Fixpoint emit_all (l : list nat) (v : env) (target source : list barg) : bm (list barg * list barg) :=
  match l with
  | [] => eret (target, source)
  | f :: l => let! r := emit f v target source in emit_all l v r.1 r.2
  end%eff.
Definition call_emitter (e : emitter) (v : env) (tlist slist : list nid)
    : bm (list barg * list barg) :=
  let target := map BNode tlist in
  let source := map BNode slist in
  match e with
  | EFun f => emit f v target source
  | EVar var =>
      match proxy_value limit v var with
      | Some (VarFun f) => emit f v target source
      | Some (VarList l) => emit_all l v target source
      | Some _ => eret (target, source)
      | None => eraise RuntimeError
      end
  | EDict d => λ s,
      match Selector_call (env_subst v) (od_of d) (map node_suffix slist) None with
      | Ok (Some f) => emit f v target source s
      | Ok None => (s, Ok (target, source))
      | Raise x => (s, Raise x)
      end
  | EList l => emit_all l v target source
  end.

(** ** [_create_nodes] *)

Definition builder_set_to (t : nid) (b : option bid) (s : bst) : bst :=
  with_builder_of (λ m, match b with Some b => <[t := b]> m | None => delete t m end)
    (with_store (builder_set t (option_map (λ b, node_builder (bld_of s b)) b)) s).
Definition UserError (t : string) : exn := ExUserError t.

(** The builder is set on new targets while the emitter runs. *)
Definition run_emitter (b : bid) (e : emitter) (v : env) (tlist slist : list nid)
    : bm (list nid * list nid) := λ s,
  let new_targets := List.filter (λ t, negb (is_derived (bs_store s) t)) tlist in
  (emod (λ s, foldl (λ s t, builder_set_to t (Some b) s) s new_targets) ;;;
   let! r := call_emitter e v tlist slist in
   emod (λ s, foldl (λ s t, if decide (bs_builder s !! t = Some b) then builder_set_to t None s else s)
                s new_targets) ;;;
   let orig := map BNode tlist in
   let sources := map BNode slist in
   eret (arg2nodes v (b_target_factory (bld_of s b)) orig sources r.1,
         arg2nodes v (b_source_factory (bld_of s b)) orig sources r.2))%eff s.

Definition splitext_for (v : env) (suffixes : list text) (path : text) : text * text :=
  match_splitext path suffixes.
Definition make_targets (b : bid) (v : env) (target : option (list barg)) (source : list barg)
    (slist : list nid) (pre suf : option text) : bm (list nid) := λ s,
  let r := bld_of s b in
  match target with
  | Some target =>
      let target := _adjustixes target pre suf (b_ensure_suffix r) in
      (s, Ok (arg2nodes v (b_target_factory r) target source target))
  | None =>
      match slist with
      | [] => (s, Ok [])
      | n :: _ =>
          match target_from_source n with
          | None => (s, Raise (UserError "Do not know how to create a target from source"))
          | Some t_from_s =>
              (let! suffixes := src_suffixes limit b v in
               eret [t_from_s pre suf (splitext_for v suffixes)])%eff s
          end
      end
  end.
Definition _create_nodes (b : bid) (v : env) (target : option (list barg)) (source : list barg)
    : bm (list nid * list nid) :=
  (let! src_suf := get_src_suffix b v in
   let! r := eget (λ s, bld_of s b) in
   let source := _adjustixes source None (Some src_suf) false in
   let slist := arg2nodes v (b_source_factory r) [] [] source in
   let! pre := λ s, (s, get_affix (b_prefix r) v slist) in
   let! suf := λ s, (s, get_affix (b_suffix r) v slist) in
   let! tlist := make_targets b v target source slist pre suf in
   match b_emitter r with
   | Some e => run_emitter b e v tlist slist
   | None => eret (tlist, slist)
   end)%eff.

(** ** [_node_errors] *)

Definition two_ways : exn := UserError "Multiple ways to build the same target were specified for".
(** A target that was given in another environment. *)
Definition check_env (v : env) (tlist slist : list nid) (t : nid) : bm unit := λ s,
  match n_env (node_of (bs_store s) t) with
  | None => (s, Ok tt)
  | Some e =>
      if decide (env_id e = env_id v) then (s, Ok tt)
      else match n_builder (node_of (bs_store s) t) with
           | None => (s, Raise (AttributeError "action"))
           | Some nb =>
               if decide (act_contents (bd_action nb) tlist slist e = act_contents (bd_action nb) tlist slist v)
               then (warn [T "DuplicateEnvironmentWarning"] s, Ok tt)
               else (s, Raise (UserError
                 "Two environments with different actions were specified for the same target"))
           end
  end.
Definition check_multi (b : bid) (tlist : list nid) (t : nid) : bm unit := λ s,
  let same := match bs_builder s !! t with
              | Some b' => builder_eq (bld_of s b') (bld_of s b)
              | None => false
              end in
  if negb same then (s, Raise (UserError "Two different builders were specified for the same target"))
  else
    let '(d, e) := get_executor t (bs_store s) in
    let s := with_store (λ _, d) s in
    if decide (get_all_targets (exec_of d e) ≠ tlist)
    then (s, Raise (UserError "Two different target lists have a target in common"))
    else (s, Ok tt).
Definition check_target (b : bid) (v : env) (tlist slist : list nid) (t : nid) : bm unit := λ s,
  if side_effect (node_of (bs_store s) t) then (s, Raise two_ways)
  else if decide (t ∈ bs_explicit s) then
    (check_env v tlist slist t ;;;
     λ s, if b_multi (bld_of s b) then check_multi b tlist t s
          else if decide (sources (node_of (bs_store s) t) ≠ slist) then (s, Raise two_ways)
          else (s, Ok tt))%eff s
  else (s, Ok tt).
Definition _node_errors (b : bid) (v : env) (tlist slist : list nid) : bm unit :=
  (efor tlist (check_target b v tlist slist) ;;;
   λ s, if b_single_source (bld_of s b) && bool_decide (1 < length slist)
        then (s, Raise (UserError "More than one source given for single-source builder"))
        else (s, Ok tt))%eff.

(** ** A call of a builder *)

(** [OverrideWarner.warn], with the keywords of the call. *)
Definition misleading_keywords : list text := [T "targets"; T "sources"].
Definition overwarn (kw : list text) (s : bst) : bst :=
  if bs_already s then s
  else with_already true (warn (List.filter (λ k, bool_decide (k ∈ misleading_keywords)) kw) s).

(** The executor of the targets: that of the first target for a builder of many
    sources, a batch executor, or a new one. *)
Definition multi_executor (b : bid) (tlist slist : list nid) : bm (option eid) := λ s,
  match b_multi (bld_of s b), tlist with
  | true, t :: _ =>
      match n_executor (node_of (bs_store s) t) with
      | Some e =>
          match ex_kind_of (exec_of (bs_store s) e) with
          | ExNull => (s, Raise (AttributeError "add_sources"))
          | _ => (on_store (add_sources e slist) ;;; eret (Some e))%eff s
          end
      | None => (s, Ok None)
      end
  | _, _ => (s, Ok None)
  end.
Definition new_executor (act : action) (v : env) (tlist slist : list nid) : bm eid := λ s,
  let d := bs_store s in
  (with_store (λ _, DStore (d_nodes d) (<[d_next d := Executor_init act (Some v) [] tlist slist]> (d_execs d))
                 (S (d_next d))) s, Ok (d_next d)).
Definition make_executor (b : bid) (v : env) (tlist slist : list nid) : bm eid := λ s,
  match b_action (bld_of s b) with
  | None => (s, Raise (UserError "Builder must have an action to build"))
  | Some act =>
      match batch_key act v tlist slist with
      | None => new_executor act v tlist slist s
      | Some key =>
          match bs_batch s !! key with
          | Some e => (emod (with_store (add_batch e tlist slist)) ;;; eret e)%eff s
          | None => (let! e := new_executor act v tlist slist in
                     emod (with_batch (insert key e)) ;;; eret e)%eff s
          end
      end
  end.

(** What a target node gets. *)
Definition env_set (t : nid) (v : env) : dstore → dstore := upd_node t (λ d,
  let '(DNode so sos ss dp ds ig igs pq im ims wp _ st ab se ses lk bd ex me mc bi ni) := d in
  DNode so sos ss dp ds ig igs pq im ims wp (Some v) st ab se ses lk bd ex me mc bi ni).
Definition set_explicit (t : nid) (x : bool) : bst → bst :=
  with_explicit (λ m, if x then {[t]} ∪ m else m ∖ {[t]}).
Definition set_target (b : bid) (v : env) (slist : list nid) (e : eid) (s : bst) (t : nid) : bst :=
  set_explicit t (b_is_explicit (bld_of s b))
    (with_store (λ d, set_executor t e (add_source t slist (env_set t v d)))
      (builder_set_to t (Some b) s)).

(** The rest of [_execute], for the targets of one executor. *)
Definition execute_one (b : bid) (v : env) (kw : list text) (target : option (list barg))
    (source : list barg) : bm (list nid) :=
  (emod (overwarn kw) ;;;
   let! ts := _create_nodes b v target source in
   _node_errors b v ts.1 ts.2 ;;;
   let! found := multi_executor b ts.1 ts.2 in
   let! e := match found with Some e => eret e | None => make_executor b v ts.1 ts.2 end in
   emod (λ s, foldl (set_target b v ts.2 e) s ts.1) ;;;
   eret ts.1)%eff.

(** A source that another builder makes first, given the suffixes. *)
Definition add_src_suffix (b : bid) (v : env) (t : text) : bm text :=
  (let! suf := get_src_suffix b v in
   match t with
   | [] => eraise IndexError
   | _ => eret (adjustixes t None (Some suf) false)
   end)%eff.
Definition src_builder_source (execute : bid → option (list barg) → list barg → bm (list nid))
    (b : bid) (v : env) (suffixes : list text) (sdict : gmap text bid) (a : barg) : bm (list barg) :=
  (let matched := match a with
                  | BStr t => match_src_suffix suffixes (env_subst v t)
                  | BNode n => match_src_suffix suffixes (node_name n)
                  | BList _ => None
                  end in
   let! a := match a with
             | BStr t => if falsy matched && bool_decide ("."%char ∉ t)
                         then let! t := add_src_suffix b v t in eret (BStr t)
                         else eret a
             | _ => eret a
             end in
   if falsy matched then eret [a]
   else match sdict !! default [] matched with
        | None => eret [a]
        | Some c =>
            let! tlist := execute c None [a] in
            eret (map BNode
              (if decide (1 < length tlist)
               then List.filter (λ t, negb (falsy (match_src_suffix suffixes (node_name t)))) tlist
               else tlist))
        end)%eff.
Definition src_builder_sources (execute : bid → option (list barg) → list barg → bm (list nid))
    (b : bid) (v : env) (source : list barg) : bm (list nid) :=
  (let! sdict := _get_sdict b v in
   let! suffixes := src_suffixes limit b v in
   let! result := emap (src_builder_source execute b v suffixes sdict) (flat_map flat source) in
   let! r := eget (λ s, bld_of s b) in
   eret (arg2nodes v (b_source_factory r) [] [] (concat result)))%eff.

Fixpoint _execute (n : nat) (v : env) (kw : list text) (b : bid) (target : option (list barg))
    (source : list barg) : bm (list nid) :=
  match n with
  | O => eraise RuntimeError
  | S n =>
      let! r := eget (λ s, bld_of s b) in
      let! source := match b_src_builder r with
                     | [] => eret source
                     | _ => let! l := src_builder_sources (_execute n v kw) b v source in
                            eret (map BNode l)
                     end in
      match target with
      | None =>
          if b_single_source r && bool_decide (1 < length source)
          then let! l := emap (λ x, _execute n v kw b None [x]) source in eret (concat l)
          else execute_one b v kw None source
      | Some _ => execute_one b v kw target source
      end
  end%eff.

(** [__call__]; [kw] are the keyword arguments that are left. *)
Definition prepend_dir (srcdir : text) (a : barg) : barg :=
  match a with
  | BStr t => if startswith (T "/") t then a else BStr (join_path srcdir t)
  | _ => a
  end.
Definition Builder_call (b : bid) (v : env) (target : option (list barg)) (source : list barg)
    (kw : gmap string string) : bm (list nid) := λ s,
  let '(source, kw) := match kw !! "srcdir" with
                       | Some d => (map (prepend_dir (T d)) source, delete "srcdir" kw)
                       | None => (source, kw)
                       end in
  _execute limit (Override v (kw ∪ b_overrides (bld_of s b))) (map (λ kv, T kv.1) (map_to_list kw))
    b target source (with_already false s).
End build.

(** ** Actions by the suffixes of sources *)

(** [DictCmdGenerator]: a [Selector] and [source_ext_match]. *)
Record cmd_generator := CmdGenerator {
  cg_dict : OrderedDict (option text) action;
  cg_ext_match : bool
}.
Definition generator_suffixes (g : cmd_generator) : list (option text) := od_keys (cg_dict g).
Definition generator_add_action (suffix : text) (a : action) (g : cmd_generator) : cmd_generator :=
  CmdGenerator (od_setitem (Some suffix) a (cg_dict g)) (cg_ext_match g).
(** [len(S)] of a key. *)
Definition key_text (k : option text) : res exn text :=
  match k with Some t => Ok t | None => Raise (ExOther "TypeError" "len of None") end.

(** The loop over the sources; [ext] is [None] before the first. *)
Definition different_extensions : exn :=
  ExUserError "Cannot build multiple sources with different extensions".
Fixpoint common_ext (suffixes : list text) (ext : option text) (source : list text)
    : res exn (option text) :=
  match source with
  | [] => Ok ext
  | src :: source =>
      let my_ext := (match_splitext src suffixes).2 in
      if negb (falsy ext) && bool_decide (Some my_ext ≠ ext) then Raise different_extensions
      else common_ext suffixes (Some my_ext) source
  end.
(** The sources are given by their names; [Ok None] is the empty list of commands
    for no sources. *)
Definition DictCmdGenerator_call (subst : text → text) (g : cmd_generator) (source : list text)
    : res exn (option action) :=
  match source with
  | [] => Ok None
  | src :: _ =>
      rbind (rmap key_text (generator_suffixes g)) (λ suffixes,
      rbind (if cg_ext_match g then common_ext suffixes None source
             else Ok (Some (match_splitext src suffixes).2)) (λ ext,
      if falsy ext then Raise (ExUserError "Cannot deduce file extension from source files")
      else match Selector_call subst (cg_dict g) [] ext with
           | Raise _ => Raise (ExUserError "Ambiguous suffixes after environment substitution")
           | Ok None => Raise (ExUserError "Don't know how to build from a source file with suffix")
           | Ok (Some a) => Ok (Some a)
           end))
  end.

(** [CompositeBuilder.add_action], of suffixes that are texts. *)
Definition composite_add_action `{DepTypes} (b : bid) (suffix : text) (a : action) (g : cmd_generator)
    (s : bst) : cmd_generator * bst :=
  let g := generator_add_action suffix a g in
  (g, set_src_suffix b (omap id (generator_suffixes g)) s).
