(* ===== verification/BuilderFacts.v ===== *)
(** * Facts about builders ([SCons/Builder.py])

    The suffixes a builder takes are those of the builders that can make its
    sources, whatever was memoised before; names are split at their longest known
    suffix; a call that succeeds sets up all its targets, and a second way to
    build a target is refused. *)

From S2P Require Import Prelude Errors NodeState PyStr Util NodeData Executor NodeFacts Builder.
Open Scope nat_scope.

(** ** Splitting a name *)

Lemma foldl_longer_in s l : foldl longer s l ∈ s :: l.
Proof.
  revert s. induction l as [|x l IH]; intros s; simpl; [set_solver|].
  specialize (IH (longer s x)). unfold longer in *. case_decide; set_solver.
Qed.
Lemma foldl_longer_max s l x : x ∈ s :: l → length x ≤ length (foldl longer s l).
Proof.
  revert s x. induction l as [|y l IH]; intros s x Hx; simpl.
  - apply list_elem_of_singleton in Hx as ->. done.
  - apply elem_of_cons in Hx as [-> | [-> | Hx]%elem_of_cons].
    + etrans; [|apply IH, elem_of_cons; by left]. unfold longer. case_decide; lia.
    + etrans; [|apply IH, elem_of_cons; by left]. unfold longer. case_decide; lia.
    + apply IH, elem_of_cons. by right.
Qed.
Lemma splitext_app p : (splitext p).1 ++ (splitext p).2 = p.
Proof.
  unfold splitext. case_match; simpl; [apply take_drop | apply app_nil_r].
Qed.
Lemma last_chars_split n p : but_last_chars n p ++ last_chars n p = p.
Proof.
  unfold but_last_chars, last_chars. case_decide; [done|]. apply take_drop.
Qed.
Lemma last_chars_eq p a S : p = a ++ S → S ≠ [] → last_chars (length S) p = S.
Proof.
  intros -> HS. unfold last_chars. destruct S as [|c S]; [done|]. rewrite decide_False by done.
  rewrite length_app. replace (length a + length (c :: S) - length (c :: S)) with (length a) by lia.
  apply drop_app_length.
Qed.

(** A name is split in two parts that make it up again, and the second is the
    longest of the given suffixes that the name ends in, if there is one. *)
Theorem match_splitext_longest path suffixes :
  (match_splitext path suffixes).1 ++ (match_splitext path suffixes).2 = path ∧
  ((∃ a S, S ∈ suffixes ∧ S ≠ [] ∧ path = a ++ S) →
   (match_splitext path suffixes).2 ∈ suffixes ∧
   ∀ a S, S ∈ suffixes → path = a ++ S → length S ≤ length (match_splitext path suffixes).2).
Proof.
  unfold match_splitext.
  set (l := List.filter (λ S, bool_decide (last_chars (length S) path = S)) suffixes).
  assert (∀ S, S ∈ l ↔ S ∈ suffixes ∧ last_chars (length S) path = S) as Hl.
  { intros S. unfold l. rewrite !list_elem_of_In, filter_In, bool_decide_eq_true. done. }
  destruct l as [|s l'].
  - split; [apply splitext_app|]. intros (a & S & HS & Hne & Hp).
    destruct (not_elem_of_nil (A:=text) S). apply Hl. split; [done|]. by eapply last_chars_eq.
  - cbv zeta. cbn [fst snd]. split; [apply last_chars_split|]. intros _.
    pose proof (proj1 (Hl _) (foldl_longer_in s l')) as (Hin & Heq). rewrite Heq. split; [done|].
    intros a S HS Hp. destruct S as [|c S]; [simpl; lia|].
    apply foldl_longer_max, Hl. split; [done|]. by eapply last_chars_eq.
Qed.

(** [x.tar.gz] with both [.gz] and [.tar.gz]. *)
Example match_splitext_longest_witness :
  (match_splitext (T "x.tar.gz") [T ".gz"; T ".tar.gz"; T ".c"]).2 ∈ [T ".gz"; T ".tar.gz"; T ".c"].
Proof.
  apply (match_splitext_longest (T "x.tar.gz") [T ".gz"; T ".tar.gz"; T ".c"]).
  exists (T "x"), (T ".tar.gz"). split; [right; left|]. done.
Defined.

(** ** Actions by the suffix of the sources *)

Definition ext_of (suffixes : list text) (src : text) : text := (match_splitext src suffixes).2.

Lemma common_ext_from suffixes e l r :
  e ≠ [] → common_ext suffixes (Some e) l = r →
  (r = Ok (Some e) ∧ ∀ x, x ∈ l → ext_of suffixes x = e) ∨
  (r = Raise different_extensions ∧ ∃ x, x ∈ l ∧ ext_of suffixes x ≠ e).
Proof.
  intros He. revert r. induction l as [|x l IH]; intros r <-; simpl; [left; set_solver|].
  destruct e as [|c e]; [done|]. simpl. fold (ext_of suffixes x).
  case_bool_decide as Hx.
  - right. split; [done|]. exists x. split; [by left|].
    intros K. apply Hx. by rewrite K.
  - injection Hx as Ex.
    rewrite Ex. destruct (IH _ eq_refl) as [[E K] | (E & y & Hy & K)].
    + left. split; [done|]. intros y [-> | Hy]%elem_of_cons; auto.
    + right. split; [done|]. exists y. split; [by right|done].
Qed.

(** Some sources, maybe none, have no suffix, and all that follow have [e]. *)
Definition extension_is (suffixes : list text) (source : list text) (e : text) : Prop :=
  ∃ pre post, e ≠ [] ∧ source = pre ++ post ∧ post ≠ [] ∧
    (∀ x, x ∈ pre → ext_of suffixes x = []) ∧ (∀ x, x ∈ post → ext_of suffixes x = e).
Lemma extension_is_last suffixes l x e : extension_is suffixes (l ++ [x]) e → ext_of suffixes x = e.
Proof.
  intros (pre & post & _ & E & Hp & _ & K). destruct (exists_last Hp) as (p & z & ->).
  rewrite app_assoc in E. apply app_inj_tail in E as [_ ->]. apply K. set_solver.
Qed.
Lemma common_ext_spec suffixes o l r :
  falsy o = true → common_ext suffixes o l = r →
  (∃ e, extension_is suffixes l e ∧ r = Ok (Some e)) ∨
  ((r = Raise different_extensions ∨ ∃ o', r = Ok o' ∧ falsy o' = true) ∧
   ∀ e, ¬ extension_is suffixes l e).
Proof.
  revert o r. induction l as [|x l IH]; intros o r Ho <-.
  { right. split; [right; by exists o|]. intros e ([|? pre] & [|? post] & ? & ? & ? & _); done. }
  simpl. rewrite Ho. simpl. fold (ext_of suffixes x). destruct (ext_of suffixes x) as [|c t] eqn:Ex.
  - destruct (IH (Some []) _ eq_refl eq_refl) as [(e & (pre & post & He & -> & Hp & K1 & K2) & E) | [E K]].
    + left. exists e. split; [|done]. exists (x :: pre), post. split_and!; try done. set_solver.
    + right. split; [done|]. intros e (pre & post & He & El & Hp & K1 & K2).
      destruct pre as [|y pre]; simplify_list_eq.
      * specialize (K2 x). rewrite Ex in K2. rewrite <- K2 in He; [done|by left].
      * apply (K e). exists pre, post. split_and!; try done. set_solver.
  - destruct (common_ext_from suffixes (c :: t) l _ ltac:(done) eq_refl) as [[E K] | (E & y & Hy & K)].
    + left. exists (c :: t). split; [|done]. exists [], (x :: l). split_and!; try done; [set_solver|].
      intros z [-> | Hz]%elem_of_cons; auto.
    + right. split; [by left|]. intros e (pre & post & He & El & Hp & K1 & K2).
      destruct pre as [|z pre]; simplify_list_eq.
      * apply K. rewrite (K2 y) by (by right). rewrite <- Ex. symmetry. apply K2. by left.
      * rewrite K1 in Ex by (by left). done.
Qed.

(** A generator that compares the suffixes gives an action exactly for sources of
    which some, maybe none, have no suffix and all that follow have the same, and
    the action is that of this suffix. *)
Theorem one_extension subst g source suffixes a :
  rmap key_text (generator_suffixes g) = Ok suffixes → cg_ext_match g = true →
  DictCmdGenerator_call subst g source = Ok (Some a) ↔
  ∃ e, extension_is suffixes source e ∧ Selector_call subst (cg_dict g) [] (Some e) = Ok (Some a).
Proof.
  intros Hs Hm. unfold DictCmdGenerator_call. destruct source as [|src source].
  { split; [done|]. intros (e & ([|? pre] & [|? post] & ? & ? & ? & _) & _); done. }
  rewrite Hs, Hm. cbn [rbind].
  destruct (common_ext_spec suffixes None (src :: source) _ eq_refl eq_refl)
    as [(e & He & ->) | [Hbad K]].
  - assert (falsy (Some e) = false) as Hf by (destruct He as (? & ? & ? & _); by destruct e).
    cbn [rbind]. rewrite Hf. split.
    + intros Ha. exists e. split; [done|]. destruct (Selector_call _ _ _ _) as [[?|]|]; congruence.
    + intros (e' & He' & Ha). assert (e' = e) as ->; [|by rewrite Ha].
      destruct (exists_last (l:=src :: source)) as (p & z & E); [done|]. rewrite E in He, He'.
      by rewrite <- (extension_is_last _ _ _ _ He), <- (extension_is_last _ _ _ _ He').
  - split; [|intros (e & He & _); by destruct (K e)].
    destruct Hbad as [-> | (o' & -> & Ho)]; cbn [rbind]; [done|]. by rewrite Ho.
Qed.

(** ** The suffixes of sources *)

Create Rewrite HintDb memo.


Section suffixes.
Context `{BuildEnv} (v : env).

Definition own (s : bst) (b : bid) : list text := map (env_subst v) (b_src_suffix (bld_of s b)).
Definition makers (s : bst) (b : bid) : list bid :=
  omap (λ x, match x with inl name => env_BUILDERS v name | inr c => Some c end)
    (b_src_builder (bld_of s b)).
(** [c] can make sources of [b], maybe through others. *)
Definition makes (s : bst) : relation bid := rtc (λ b c, c ∈ makers s b).

Definition unmemo (r : bld) : bld := with_memo_builders (λ _, ∅) (with_memo_suffixes (λ _, ∅) r).
Definition suffix_memo (s : bst) (b : bid) : option (list text) :=
  memo_src_suffixes (bld_of s b) !! env_id v.

(** What is memoised for the environment was computed from the present builders. *)
Definition memo_ok (s : bst) : Prop := ∀ b,
  (∀ l, memo_src_builders (bld_of s b) !! env_id v = Some l → l = makers s b) ∧
  (∀ l, suffix_memo s b = Some l →
     own s b `prefix_of` l ∧ (NoDup (own s b) → NoDup l) ∧
     ∀ x, x ∈ l → ∃ c, makes s b c ∧ x ∈ own s c).

(** Only memoised values change, and the lists of suffixes get longer. *)
Record memo_step (s s' : bst) : Prop := {
  step_rest : with_builders (λ _, bs_builders s) s' = s;
  step_builders : ∀ b, unmemo (bld_of s' b) = unmemo (bld_of s b);
  step_ok : memo_ok s → memo_ok s';
  step_grows : ∀ b l, suffix_memo s b = Some l → ∃ l', suffix_memo s' b = Some l' ∧ l `prefix_of` l'
}.

Lemma unmemo_src_suffix r r' : unmemo r = unmemo r' → b_src_suffix r = b_src_suffix r'.
Proof.
  intros E. assert (∀ x, b_src_suffix x = b_src_suffix (unmemo x)) as U by (by intros []).
  by rewrite (U r), E.
Qed.
Lemma unmemo_src_builder r r' : unmemo r = unmemo r' → b_src_builder r = b_src_builder r'.
Proof.
  intros E. assert (∀ x, b_src_builder x = b_src_builder (unmemo x)) as U by (by intros []).
  by rewrite (U r), E.
Qed.

Lemma bld_of_upd b f s c :
  bld_of (upd_bld b f s) c = if decide (b = c) then f (bld_of s b) else bld_of s c.
Proof.
  unfold upd_bld, bld_of at 1. destruct s; simpl. case_decide as Hb.
  - subst. by rewrite lookup_insert_eq.
  - by rewrite lookup_insert_ne.
Qed.

Section same.
Context (s s' : bst) (Hs : ∀ b, unmemo (bld_of s' b) = unmemo (bld_of s b)).
Lemma own_same b : own s' b = own s b.
Proof. unfold own. by rewrite (unmemo_src_suffix _ _ (Hs b)). Qed.
Lemma makers_same b : makers s' b = makers s b.
Proof. unfold makers. by rewrite (unmemo_src_builder _ _ (Hs b)). Qed.
Lemma makes_same b c : makes s' b c ↔ makes s b c.
Proof.
  split; induction 1 as [|x y z Hxy _ IH]; try reflexivity; (eapply rtc_l; [|exact IH]).
  - by rewrite <- makers_same.
  - by rewrite makers_same.
Qed.
End same.

#[global] Instance memo_step_po : PreOrder memo_step.
Proof.
  split.
  - intros s. split; [by destruct s | done | done |]. eauto.
  - intros s1 s2 s3 [J1 J2 J3 J4] [K1 K2 K3 K4]. split.
    + destruct s1, s2, s3. unfold with_builders in *. simpl in *. congruence.
    + intros b. by rewrite K2.
    + auto.
    + intros b l Hl. destruct (J4 b l Hl) as (l' & Hl' & P1).
      destruct (K4 b l' Hl') as (l'' & Hl'' & P2). exists l''. split; [done|]. by etrans.
Qed.

(** One builder's memo is changed. *)
Lemma memo_step_upd b f s :
  unmemo (f (bld_of s b)) = unmemo (bld_of s b) →
  (∀ l, memo_src_builders (f (bld_of s b)) !! env_id v = Some l →
     memo_src_builders (bld_of s b) !! env_id v = Some l ∨ l = makers s b) →
  (memo_ok s → ∀ l, memo_src_suffixes (f (bld_of s b)) !! env_id v = Some l →
     own s b `prefix_of` l ∧ (NoDup (own s b) → NoDup l) ∧
     ∀ x, x ∈ l → ∃ c, makes s b c ∧ x ∈ own s c) →
  (∀ l, suffix_memo s b = Some l →
     ∃ l', memo_src_suffixes (f (bld_of s b)) !! env_id v = Some l' ∧ l `prefix_of` l') →
  memo_step s (upd_bld b f s).
Proof.
  intros Hu Hb Hl Hg.
  assert (∀ c, unmemo (bld_of (upd_bld b f s) c) = unmemo (bld_of s c)) as Hsame.
  { intros c. rewrite bld_of_upd. case_decide; [by subst|done]. }
  split; [by destruct s | done | |].
  - intros Hok c. pose proof (makers_same _ _ Hsame c) as Em. pose proof (own_same _ _ Hsame c) as Eo.
    rewrite Em, Eo. unfold suffix_memo. rewrite bld_of_upd. case_decide; [subst c|].
    + split; [|intros l El].
      * intros l [E | E]%Hb; [by apply Hok | done].
      * destruct (Hl Hok l El) as (P & N & R). split; [done|]. split; [done|].
        intros x (d & Hd & Hx)%R. exists d. rewrite (own_same _ _ Hsame).
        split; [by apply (makes_same _ _ Hsame)|done].
    + destruct (Hok c) as (K & L). split; [done|]. intros l El.
      destruct (L l El) as (P & N & R). split; [done|]. split; [done|].
      intros x (d & Hd & Hx)%R. exists d. rewrite (own_same _ _ Hsame).
      split; [by apply (makes_same _ _ Hsame)|done].
  - intros c l El. unfold suffix_memo in *. rewrite bld_of_upd. case_decide; [subst c; by apply Hg|].
    exists l. done.
Qed.

Lemma memo_src_builders_of f r : memo_src_builders (with_memo_suffixes f r) = memo_src_builders r.
Proof. by destruct r. Qed.
Lemma memo_src_suffixes_of f r : memo_src_suffixes (with_memo_builders f r) = memo_src_suffixes r.
Proof. by destruct r. Qed.
Lemma with_memo_builders_get f r : memo_src_builders (with_memo_builders f r) = f (memo_src_builders r).
Proof. by destruct r. Qed.
Lemma with_memo_suffixes_get f r : memo_src_suffixes (with_memo_suffixes f r) = f (memo_src_suffixes r).
Proof. by destruct r. Qed.
Lemma unmemo_suffixes f r : unmemo (with_memo_suffixes f r) = unmemo r.
Proof. by destruct r. Qed.
Lemma unmemo_builders f r : unmemo (with_memo_builders f r) = unmemo r.
Proof. by destruct r. Qed.
Hint Rewrite memo_src_builders_of memo_src_suffixes_of with_memo_builders_get with_memo_suffixes_get
  unmemo_suffixes unmemo_builders : memo.

Lemma subst_src_suffixes_spec b s :
  ∃ s' l, subst_src_suffixes b v s = (s', Ok l) ∧ memo_step s s' ∧ suffix_memo s' b = Some l.
Proof.
  unfold subst_src_suffixes. destruct (memo_src_suffixes _ !! _) as [l|] eqn:E.
  { exists s, l. done. }
  eexists _, _. split; [reflexivity|]. split.
  - apply memo_step_upd; autorewrite with memo; unfold suffix_memo; [done|by left| |congruence].
    rewrite lookup_insert_eq. intros _ l [= <-]. fold (own s b). split; [done|]. split; [done|].
    intros x Hx. exists b. split; [constructor|done].
  - unfold suffix_memo. rewrite bld_of_upd, decide_True by done. autorewrite with memo.
    by rewrite lookup_insert_eq.
Qed.
Lemma get_src_builders_spec b s :
  memo_ok s → ∃ s', get_src_builders b v s = (s', Ok (makers s b)) ∧ memo_step s s'.
Proof.
  intros Hok. unfold get_src_builders. destruct (memo_src_builders _ !! _) as [l|] eqn:E.
  { exists s. apply Hok in E as ->. done. }
  eexists. split; [reflexivity|].
  apply memo_step_upd; autorewrite with memo; [done| | |].
  - rewrite lookup_insert_eq. intros l [= <-]. by right.
  - intros Hok' l El. by apply Hok'.
  - intros l El. exists l. done.
Qed.

Lemma append_new_spec l acc :
  acc `prefix_of` foldl append_new acc l ∧ (NoDup acc → NoDup (foldl append_new acc l)) ∧
  ∀ x, x ∈ foldl append_new acc l ↔ x ∈ acc ∨ x ∈ l.
Proof.
  revert acc. induction l as [|y l IH]; intros acc; simpl; [set_solver|].
  destruct (IH (append_new acc y)) as (P & N & E). unfold append_new in *.
  case_decide as Hy.
  - split; [done|]. split; [done|]. intros x. rewrite E. set_solver.
  - split; [etrans; [|exact P]; by apply prefix_app_r|]. split.
    + intros Hn. apply N, NoDup_app. repeat split; [done| |apply NoDup_singleton].
      set_solver.
    + intros x. rewrite E. set_solver.
Qed.
Lemma extend_memo_step b l s :
  is_Some (suffix_memo s b) → (∀ x, x ∈ l → ∃ c, makes s b c ∧ x ∈ own s c) →
  memo_step s (extend_memo b v l s).
Proof.
  intros [m Em] Hl. unfold extend_memo, memo_list_of. fold (suffix_memo s b). rewrite Em. cbn [default].
  destruct (append_new_spec l m) as (P & N & E).
  apply memo_step_upd; autorewrite with memo; [done | by left | |].
  - rewrite lookup_insert_eq. intros Hok l' [= <-]. destruct (proj2 (Hok b) m Em) as (P' & N' & R).
    split; [by etrans|]. split; [auto|]. intros x [Hx | Hx]%E; auto.
  - rewrite lookup_insert_eq. intros l' El'. eexists. split; [done|].
    assert (l' = m) as -> by congruence. done.
Qed.

(** What a call leaves, when it returns [l]. *)
Definition suffixes_of (s : bst) (b : bid) (s' : bst) (l : list text) : Prop :=
  memo_step s s' ∧ suffix_memo s' b = Some l ∧
  ∀ c x, makes s b c → x ∈ own s c → x ∈ l.

(** The loop over the builders of sources. *)
Lemma extend_loop n b s0 cs s :
  (∀ c s, memo_ok s → memo_step s0 s → c ∈ makers s0 b →
     ∃ s' l, src_suffixes n c v s = (s', Ok l) ∧ suffixes_of s c s' l) →
  memo_ok s0 → memo_step s0 s → is_Some (suffix_memo s b) → cs ⊆ makers s0 b →
  ∃ s', efor cs (λ c, let! l := src_suffixes n c v in emod (extend_memo b v l))%eff s = (s', Ok tt) ∧
    memo_step s s' ∧
    ∀ c d x, c ∈ cs → makes s0 c d → x ∈ own s0 d → x ∈ memo_list_of b v s'.
Proof.
  intros Hcall Hok0. revert s. induction cs as [|c cs IH]; intros s Hs Hm Hcs.
  { exists s. split; [done|]. split; [done|]. set_solver. }
  assert (Hok : memo_ok s) by (by apply (step_ok _ _ Hs)).
  destruct (Hcall c s Hok Hs) as (s1 & l & E1 & H1' & Hl & Hreach); [set_solver|].
  assert (Hs1 : memo_step s0 s1) by (by etrans).
  assert (is_Some (suffix_memo s1 b)) as Hm1.
  { destruct Hm as [m Em]. destruct (step_grows _ _ H1' b m Em) as (m' & ? & _). by exists m'. }
  assert (∀ x, x ∈ l → ∃ d, makes s1 b d ∧ x ∈ own s1 d) as Hin.
  { intros x Hx. destruct (proj2 (step_ok _ _ Hs1 Hok0 c) l Hl) as (_ & _ & R).
    destruct (R x Hx) as (d & Hd & Hxd). exists d. split; [|done]. eapply rtc_l; [|exact Hd].
    rewrite (makers_same s0 s1 (step_builders _ _ Hs1)). set_solver. }
  pose proof (extend_memo_step b l s1 Hm1 Hin) as H2'.
  destruct (IH (extend_memo b v l s1)) as (s3 & E3 & H3' & Hall); [by etrans| |set_solver|].
  { destruct Hm1 as [m Em]. destruct (step_grows _ _ H2' b m Em) as (m' & ? & _). by exists m'. }
  exists s3. split; [|split; [by do 2 (etrans; [eassumption|])|]].
  { cbn [efor]. unfold ebind at 1 2. rewrite E1. unfold emod at 1. exact E3. }
  intros c' d x [-> | Hc]%elem_of_cons Hd Hx; [|by eapply Hall].
  assert (x ∈ memo_list_of b v (extend_memo b v l s1)) as Hx2.
  { unfold memo_list_of at 1, extend_memo at 1. rewrite bld_of_upd, decide_True by done.
    autorewrite with memo. rewrite lookup_insert_eq. cbn [default].
    apply append_new_spec. right. apply (Hreach d).
    - by apply (makes_same _ _ (step_builders _ _ Hs)).
    - by rewrite (own_same _ _ (step_builders _ _ Hs)). }
  destruct (suffix_memo (extend_memo b v l s1) b) as [m|] eqn:Em; unfold suffix_memo in Em;
    unfold memo_list_of in *; rewrite Em in Hx2; cbn [default] in Hx2; [|set_solver].
  destruct (step_grows _ _ H3' b m Em) as (m' & Em' & Hp). unfold suffix_memo in Em'. rewrite Em'.
  cbn [default]. destruct Hp as [k ->]. set_solver.
Qed.

Lemma src_suffixes_spec (rank : bid → nat) n b s :
  memo_ok s → (∀ x y, y ∈ makers s x → rank y < rank x) → rank b < n →
  ∃ s' l, src_suffixes n b v s = (s', Ok l) ∧ suffixes_of s b s' l.
Proof.
  revert b s. induction n as [|n IH]; intros b s Hok Hrank Hb; [lia|].
  cbn [src_suffixes]. unfold ebind at 1.
  destruct (subst_src_suffixes_spec b s) as (s1 & l1 & -> & S1 & M1). unfold ebind at 1.
  destruct (get_src_builders_spec b s1 (step_ok _ _ S1 Hok)) as (s2 & -> & S2).
  assert (memo_step s s2) as S12 by (by etrans).
  rewrite (makers_same _ _ (step_builders _ _ S1)).
  destruct (extend_loop n b s (makers s b) s2) as (s3 & E3 & S3 & Hall); [| done | done | | done |].
  - intros c s' Hok' Hs' Hc. apply IH; [done| |apply Hrank in Hc; lia].
    intros x y. rewrite (makers_same _ _ (step_builders _ _ Hs')). apply Hrank.
  - destruct (step_grows _ _ S2 b l1 M1) as (m' & ? & _). by exists m'.
  - unfold ebind at 1. rewrite E3. unfold eget. exists s3, (memo_list_of b v s3).
    split; [done|]. destruct (step_grows _ _ S2 b l1 M1) as (l2 & M2 & _).
    destruct (step_grows _ _ S3 b l2 M2) as (l3 & M3 & _).
    assert (memo_list_of b v s3 = l3) as El.
    { unfold memo_list_of. unfold suffix_memo in M3. by rewrite M3. }
    split; [by etrans|]. split; [by rewrite El|].
    intros c x Hbc Hx. inversion Hbc as [|? d ? Hd Hr]; subst; [|by eapply Hall].
    assert (memo_step s s3) as S13 by (by etrans).
    destruct (proj2 (step_ok _ _ S13 Hok c) _ M3) as ([k ->] & _).
    rewrite (own_same _ _ (step_builders _ _ S13)). set_solver.
Qed.

(** C19: [src_suffixes] returns, when no builder makes its own sources, the
    suffixes of the builder itself, in order and first, and exactly those of the
    builders that can make its sources, through any number of others; only
    memoised lists change, these stay right for later calls, and nothing is
    listed twice that the builder itself does not list twice. *)
Theorem src_suffixes_reachable (rank : bid → nat) n b s
    (Hok : memo_ok s) (Hrank : ∀ x y, y ∈ makers s x → rank y < rank x) (Hn : rank b < n) :
  ∃ s' l, src_suffixes n b v s = (s', Ok l) ∧
    own s b `prefix_of` l ∧ (NoDup (own s b) → NoDup l) ∧
    (∀ x, x ∈ l ↔ ∃ c, makes s b c ∧ x ∈ own s c) ∧
    with_builders (λ _, bs_builders s) s' = s ∧
    (∀ c, unmemo (bld_of s' c) = unmemo (bld_of s c)) ∧ memo_ok s'.
Proof.
  destruct (src_suffixes_spec rank n b s Hok Hrank Hn) as (s' & l & E & S & M & R).
  pose proof (step_ok _ _ S Hok) as Hok'. pose proof (step_builders _ _ S) as Hsame.
  destruct (proj2 (Hok' b) l M) as (P & N & Q).
  rewrite (own_same _ _ Hsame) in P. rewrite (own_same _ _ Hsame) in N.
  exists s', l. do 3 (split; [done|]). split.
  - intros x. split.
    + intros (c & Hc & Hx)%Q. exists c. rewrite <- (own_same _ _ Hsame).
      by rewrite (makes_same _ _ Hsame) in Hc.
    + intros (c & Hc & Hx). by eapply R.
  - split; [apply S|]. done.
Qed.
End suffixes.
