(* ===== verification/BuilderRun.v ===== *)
(** * Calls of builders ([SCons/Builder.py])

    What a call leaves in its targets, which targets are refused, and concrete
    runs of builders. *)

From S2P Require Import Prelude Errors NodeState PyStr Util NodeData Executor NodeFacts Builder BuilderFacts.
Open Scope nat_scope.

Section run.
Context `{BuildEnv} (limit : nat).
(** Emitters keep the lists of nodes and the sets beside them in step. *)
Context (emit_ok : ∀ f v t s, keeps (λ s, store_ok (bs_store s)) (emit f v t s)).

Definition stored (s : bst) : Prop := store_ok (bs_store s).

Lemma stored_same s s' : d_nodes (bs_store s') = d_nodes (bs_store s) → stored s → stored s'.
Proof. intros E. by apply store_ok_nodes. Qed.
Lemma stored_upd_bld b f s : stored s → stored (upd_bld b f s).
Proof. done. Qed.
Lemma stored_builder_set_to t b s : stored s → stored (builder_set_to t b s).
Proof. intros Hs. by apply store_ok_builder_set. Qed.
Lemma stored_overwarn kw s : stored s → stored (overwarn kw s).
Proof. unfold overwarn. by destruct (bs_already s). Qed.
Lemma stored_eff {A} (m : eff bst exn A) :
  (∀ s, d_nodes (bs_store (m s).1) = d_nodes (bs_store s)) → keeps stored m.
Proof. intros E s. by apply stored_same. Qed.
Hint Resolve stored_upd_bld stored_builder_set_to stored_overwarn : eff.

Lemma stored_subst b v : keeps stored (subst_src_suffixes b v).
Proof. apply stored_eff. intros s. unfold subst_src_suffixes. by case_match. Qed.
Lemma stored_builders b v : keeps stored (get_src_builders b v).
Proof. apply stored_eff. intros s. unfold get_src_builders. by case_match. Qed.
Hint Resolve stored_subst stored_builders : eff.
Lemma stored_src_suffixes n b v : keeps stored (src_suffixes n b v).
Proof.
  revert b. induction n as [|n IH]; intros b; simpl; [auto with eff|].
  apply keeps_bind; [auto with eff|]. intros _.
  apply keeps_bind; [auto with eff|]. intros l.
  apply keeps_bind; [|auto with eff]. apply keeps_for. intros c.
  apply keeps_bind; [done|]. intros l'. apply keeps_mod. intros s. apply stored_upd_bld.
Qed.
Hint Resolve stored_src_suffixes : eff.

Lemma stored_foldl {X} (f : bst → X → bst) l s :
  (∀ s x, stored s → stored (f s x)) → stored s → stored (foldl f s l).
Proof. intros Hf. revert s. induction l as [|x l IH]; intros s Hs; simpl; auto. Qed.

Lemma stored_emit_all l v target source : keeps stored (emit_all l v target source).
Proof.
  revert target source. induction l as [|f l IH]; intros target source; simpl; [auto with eff|].
  apply keeps_bind; [apply emit_ok|]. intros r. apply IH.
Qed.
Lemma stored_call_emitter e v tlist slist : keeps stored (call_emitter limit e v tlist slist).
Proof.
  destruct e; simpl.
  - apply emit_ok.
  - destruct (proxy_value limit v var) as [[]|]; auto with eff; apply stored_emit_all.
  - intros s Hs. destruct (Selector_call _ _ _ _) as [[f|]|]; try exact Hs. by apply emit_ok.
  - apply stored_emit_all.
Qed.
Lemma stored_run_emitter b e v tlist slist : keeps stored (run_emitter limit b e v tlist slist).
Proof.
  intros s Hs. unfold run_emitter. set (new := List.filter _ tlist).
  match goal with |- stored (?m s).1 => enough (keeps stored m) as K by (by apply K) end.
  apply keeps_bind; [apply keeps_mod; intros; apply stored_foldl; auto with eff|]. intros _.
  apply keeps_bind; [apply stored_call_emitter|]. intros r.
  apply keeps_bind; [|auto with eff]. apply keeps_mod. intros s' Hs'. apply stored_foldl; [|done].
  intros s'' t Hs''. case_decide; auto with eff.
Qed.
Lemma stored_create_nodes b v target source : keeps stored (_create_nodes limit b v target source).
Proof.
  unfold _create_nodes, get_src_suffix. repeat (apply keeps_bind; [|intros ?]); auto with eff.
  - by intros s.
  - by intros s.
  - intros s. unfold make_targets. destruct target; [done|]. destruct (arg2nodes _ _ _ _ _); [done|].
    destruct (target_from_source _); [|done]. apply keeps_bind; auto with eff.
  - case_match; [apply stored_run_emitter | auto with eff].
Qed.

(** ** Executors *)

Lemma nodes_get_executor t s : stored s → stored (with_store (λ _, (get_executor t (bs_store s)).1) s).
Proof. intros Hs. by apply store_ok_get_executor. Qed.
Lemma stored_node_errors b v tlist slist : keeps stored (_node_errors b v tlist slist).
Proof.
  apply keeps_bind.
  - apply keeps_for. intros t s Hs. unfold check_target. destruct (side_effect _); [done|].
    case_decide; [|done]. apply keeps_bind; [..|done].
    + clear. intros s Hs. unfold check_env. repeat case_match; done.
    + clear. intros _ s Hs. destruct (b_multi _); [|by case_decide].
      unfold check_multi. destruct (negb _); [done|].
      pose proof (nodes_get_executor t s Hs). destruct (get_executor t (bs_store s)) as [d e].
      by case_decide.
  - intros _ s Hs. by destruct (_ && _).
Qed.

(** The executor has a batch with the sources, and the targets when the builder
    does not add to the executor of its first target. *)
Definition batch_with (s : bst) (b : bid) (tlist slist : list nid) (e : eid) : Prop :=
  ∃ bt, bt ∈ batches (exec_of (bs_store s) e) ∧ slist ⊆ b_sources bt ∧
    (b_multi (bld_of s b) = false → b_targets bt = tlist).

Lemma multi_executor_spec b tlist slist s s' o :
  multi_executor b tlist slist s = (s', Ok o) → stored s →
  stored s' ∧ (∀ c, bld_of s' c = bld_of s c) ∧ ∀ e, o = Some e → batch_with s' b tlist slist e.
Proof.
  unfold multi_executor. destruct (b_multi _) eqn:Em; [|intros [= <- <-]; naive_solver].
  destruct tlist as [|t tlist]; [intros [= <- <-]; naive_solver|].
  destruct (n_executor _) as [e|]; [|intros [= <- <-]; naive_solver].
  destruct (ex_kind_of _); [| |done]; unfold ebind, on_store, add_sources;
    (destruct (batches _) as [|bt [|? ?]]; [done| |done]); intros [= <- <-] Hs;
    (split; [exact Hs|split; [done|]]); intros ? [= <-].
  all: eexists; split; [|split].
  all: try (unfold exec_of, upd_exec; simpl; rewrite lookup_insert_eq; simpl; by left).
  all: simpl; try (intros x Hx; apply elem_of_app; destruct (decide (x ∈ b_sources bt));
    [by left|right; apply list_elem_of_filter; done]).
  all: unfold bld_of in *; simpl; congruence.
Qed.

Lemma make_executor_spec b v tlist slist s s' e :
  make_executor b v tlist slist s = (s', Ok e) → tlist ≠ [] → stored s →
  stored s' ∧ (∀ c, bld_of s' c = bld_of s c) ∧ batch_with s' b tlist slist e.
Proof.
  intros E Ht Hs. unfold make_executor in E. destruct (b_action _) as [act|]; [|done].
  destruct (batch_key _ _ _ _) as [key|].
  - destruct (bs_batch s !! key) as [e'|]; unfold ebind, emod, new_executor in E; injection E as <- <-.
    + split; [exact Hs|]. split; [done|]. exists (Batch tlist slist). split; [|done].
      unfold exec_of, add_batch, upd_exec. simpl. rewrite lookup_insert_eq. simpl. set_solver.
    + split; [exact Hs|]. split; [done|]. exists (Batch tlist slist). split; [|done].
      unfold exec_of. simpl. rewrite lookup_insert_eq. simpl. rewrite decide_True by (by left). by left.
  - unfold new_executor in E. injection E as <- <-.
    split; [exact Hs|]. split; [done|]. exists (Batch tlist slist). split; [|done].
    unfold exec_of. simpl. rewrite lookup_insert_eq. simpl. rewrite decide_True by (by left). by left.
Qed.

(** ** The loop over the targets *)

Lemma batches_cleanup t e d : batches (exec_of (executor_cleanup t d) e) = batches (exec_of d e).
Proof.
  unfold executor_cleanup, Executor_cleanup. destruct (n_executor _) as [e'|]; [|done].
  destruct (ex_kind_of _); [| |done]; unfold exec_of, upd_exec; simpl;
    (destruct (decide (e' = e)) as [->|]; [rewrite lookup_insert_eq; done | by rewrite lookup_insert_ne]).
Qed.
Lemma batches_add_source t l e d : batches (exec_of (add_source t l d) e) = batches (exec_of d e).
Proof.
  unfold add_source. destruct (specific_sources _); [done|].
  destruct (add_child _ _ _) as [[? ?] []]; [|done]. simpl. unfold children_reset.
  by rewrite batches_cleanup.
Qed.
Lemma add_source_node t l d m :
  store_ok d →
  let x := node_of (add_source t l d) m in
  (m ≠ t → x = node_of d m) ∧
  n_builder x = n_builder (node_of d m) ∧ n_env x = n_env (node_of d m) ∧
  specific_sources x = specific_sources (node_of d m) ∧
  sources (node_of d m) ⊆ sources x ∧
  (specific_sources (node_of d t) = false → l ⊆ sources (node_of (add_source t l d) t)).
Proof.
  intros Hd. destruct (Hd t) as [[Hn Hset] _ _ _ _]. unfold add_source. cbv zeta.
  destruct (specific_sources (node_of d t)) eqn:Esp; [by split_and!|].
  pose proof (add_child_spec (sources (node_of d t)) (sources_set (node_of d t)) l Hn Hset) as Hc.
  destruct (add_child _ _ _) as [[l' ls] added]. destruct Hc as (_ & _ & Hin & Hpre & _).
  assert (∀ m, node_of (reset_if added t (upd_node t (with_sources l' ls) d)) m =
    if decide (t = m) then (if added then with_memo None None else id) (with_sources l' ls (node_of d t))
    else node_of d m) as E.
  { intros m'. destruct added; simpl; [rewrite node_of_children_reset|]; rewrite !node_of_upd;
      repeat case_decide; done. }
  rewrite !E. rewrite (decide_True (P:=t = t)) by done. destruct (decide (t = m)) as [<-|];
    destruct added, (node_of d t); simpl in *; set_solver.
Qed.

(** What [_execute] sets in a target. *)
Record target_of (b : bid) (v : env) (slist : list nid) (e : eid) (s : bst) (t : nid) : Prop := {
  to_builder : bs_builder s !! t = Some b;
  to_action : n_builder (node_of (bs_store s) t) = Some (node_builder (bld_of s b));
  to_env : n_env (node_of (bs_store s) t) = Some v;
  to_executor : n_executor (node_of (bs_store s) t) = Some e;
  to_sources : specific_sources (node_of (bs_store s) t) = false → slist ⊆ sources (node_of (bs_store s) t);
  to_explicit : t ∈ bs_explicit s ↔ b_is_explicit (bld_of s b) = true
}.

Section targets.
Context (b : bid) (v : env) (slist : list nid) (e : eid).

Lemma stored_env_set t d : store_ok d → store_ok (env_set t v d).
Proof. intros Hd. apply store_ok_other; [done|by destruct (node_of d t)]. Qed.
Lemma set_target_spec s t :
  stored s →
  stored (set_target b v slist e s t) ∧ target_of b v slist e (set_target b v slist e s t) t ∧
  (∀ m, m ≠ t → node_of (bs_store (set_target b v slist e s t)) m = node_of (bs_store s) m).
Proof.
  intros Hs. set (d1 := env_set t v (bs_store (builder_set_to t (Some b) s))).
  assert (store_ok d1) as Hd1 by (by apply stored_env_set; exact (stored_builder_set_to t (Some b) s Hs)).
  assert (node_of d1 t = node_of (env_set t v (builder_set t (Some (node_builder (bld_of s b)))
            (bs_store s))) t) as E1 by done.
  unfold env_set, builder_set in E1. rewrite !node_of_upd_eq in E1.
  assert (bs_store (set_target b v slist e s t) = set_executor t e (add_source t slist d1)) as Es by done.
  pose proof (add_source_node t slist d1 t Hd1) as (_ & A & B & C & _ & D).
  assert (node_of (bs_store (set_target b v slist e s t)) t =
    with_executor (Some e) (node_of (add_source t slist d1) t)) as Et.
  { rewrite Es. unfold set_executor. by rewrite node_of_upd_eq. }
  set (x := node_of (add_source t slist d1) t) in *.
  split; [|split].
  - unfold stored. rewrite Es. apply store_ok_other; [by apply store_ok_add_source|].
    fold x. by destruct x.
  - split; rewrite ?Et.
    + simpl. by rewrite lookup_insert_eq.
    + transitivity (n_builder x); [by destruct x|]. rewrite A, E1. by destruct (node_of (bs_store s) t).
    + transitivity (n_env x); [by destruct x|]. rewrite B, E1. by destruct (node_of (bs_store s) t).
    + by destruct x.
    + intros Hsp. transitivity (sources x); [|by destruct x].
      apply D. rewrite <- C. revert Hsp. by destruct x.
    + unfold set_target, set_explicit. change (bld_of (with_explicit _ _) b) with (bld_of s b).
      destruct (b_is_explicit _); simpl; set_solver.
  - intros m Hm. rewrite Es. unfold set_executor. rewrite node_of_upd_ne by done.
    rewrite (proj1 (add_source_node t slist d1 m Hd1)) by done.
    unfold d1, env_set. rewrite node_of_upd_ne by done. simpl. unfold builder_set.
    by rewrite node_of_upd_ne.
Qed.
Lemma set_target_other s t m :
  stored s → target_of b v slist e s m → target_of b v slist e (set_target b v slist e s t) m.
Proof.
  intros Hs Ht. destruct (set_target_spec s t Hs) as (_ & Ht' & Hn).
  destruct (decide (m = t)) as [->|Hm]; [done|]. destruct Ht. split; rewrite ?Hn by done; try done.
  - simpl. by rewrite lookup_insert_ne.
  - unfold set_target, set_explicit. change (bld_of (with_explicit _ _) b) with (bld_of s b).
    rewrite <- to_explicit0. destruct (b_is_explicit _); simpl; set_solver.
Qed.
Lemma set_target_batches s t e' :
  batches (exec_of (bs_store (set_target b v slist e s t)) e') = batches (exec_of (bs_store s) e').
Proof.
  exact (batches_add_source t slist e' (env_set t v (bs_store (builder_set_to t (Some b) s)))).
Qed.
Lemma set_targets_spec tlist s :
  stored s →
  let s' := foldl (set_target b v slist e) s tlist in
  stored s' ∧ (∀ c, bld_of s' c = bld_of s c) ∧
  (∀ e', batches (exec_of (bs_store s') e') = batches (exec_of (bs_store s) e')) ∧
  (∀ t, t ∈ tlist ∨ target_of b v slist e s t → target_of b v slist e s' t) ∧
  (∀ m, m ∉ tlist → node_of (bs_store s') m = node_of (bs_store s) m).
Proof.
  revert s. induction tlist as [|t l IH]; intros s Hs s'; [unfold s'; simpl; set_solver|].
  destruct (set_target_spec s t Hs) as (Hs1 & Ht & Hn).
  specialize (IH (set_target b v slist e s t) Hs1) as (I1 & I2 & I3 & I4 & I5). split_and!; [done|..].
  - intros c. unfold s'. simpl. by rewrite I2.
  - intros e'. unfold s'. simpl. by rewrite I3, set_target_batches.
  - intros m [[-> | Hm]%elem_of_cons | Hm]; apply I4; [by right | by left |].
    right. by apply set_target_other.
  - intros m Hm. unfold s'. simpl. rewrite I5, Hn; set_solver.
Qed.
End targets.

(** Without an emitter the sources are the nodes of the arguments, with the suffix
    for sources added to the names that have none. *)
Lemma created_sources b v target source s s1 tlist slist :
  _create_nodes limit b v target source s = (s1, Ok (tlist, slist)) →
  ∃ s0 suf, get_src_suffix limit b v s = (s0, Ok suf) ∧
    (b_emitter (bld_of s0 b) = None → slist =
       arg2nodes v (b_source_factory (bld_of s0 b)) [] [] (_adjustixes source None (Some suf) false)).
Proof.
  unfold _create_nodes. intros E. unfold ebind at 1 in E.
  destruct (get_src_suffix limit b v s) as [s0 [suf|]]; [|done]. exists s0, suf. split; [done|].
  intros He. unfold ebind at 1, eget at 1 in E. cbn [fst snd] in E.
  unfold ebind at 1 in E. destruct (get_affix _ _ _) as [pre|]; [|done].
  unfold ebind at 1 in E. destruct (get_affix _ _ _) as [suf'|]; [|done].
  unfold ebind at 1 in E. destruct (make_targets _ _ _ _ _ _ _ _) as [s3 [tl|]]; [|done].
  rewrite He in E. by injection E as _ _ <-.
Qed.

(** C17: when [_execute] returns, its targets and sources are those that
    [_create_nodes] found for the call (without an emitter the sources are the
    nodes of the arguments, with the suffix for sources added); each target it
    returns has the builder, the environment, the action, one executor in common,
    all these sources (unless its sources were set as specific) and is explicit
    as the builder says; that executor has a batch with these sources,
    which for a builder that makes an executor of its own has these targets. *)
Theorem execute_sets_targets b v kw target source s s' tlist
    (Hs : stored s) (E : execute_one limit b v kw target source s = (s', Ok tlist)) :
  ∃ s0 suf s1 slist e,
    get_src_suffix limit b v (overwarn kw s) = (s0, Ok suf) ∧
    _create_nodes limit b v target source (overwarn kw s) = (s1, Ok (tlist, slist)) ∧
    (b_emitter (bld_of s0 b) = None → slist =
       arg2nodes v (b_source_factory (bld_of s0 b)) [] [] (_adjustixes source None (Some suf) false)) ∧
    ∀ t, t ∈ tlist → target_of b v slist e s' t ∧ batch_with s' b tlist slist e.
Proof.
  unfold execute_one in E.
  unfold ebind at 1, emod at 1 in E. pose proof (stored_overwarn kw s Hs) as Hs1.
  unfold ebind at 1 in E. pose proof (stored_create_nodes b v target source _ Hs1) as Hs2.
  destruct (_create_nodes limit b v target source (overwarn kw s)) as [s2 [[tl sl]|]] eqn:Ec; [|done].
  destruct (created_sources _ _ _ _ _ _ _ _ Ec) as (s0 & suf & E0 & Hsl).
  cbn [fst snd] in *. unfold ebind at 1 in E. pose proof (stored_node_errors b v tl sl _ Hs2) as Hs3.
  destruct (_node_errors b v tl sl s2) as [s3 [?|]]; [|done]. cbn [fst snd] in *.
  unfold ebind at 1 in E.
  destruct (multi_executor b tl sl s3) as [s4 [o|]] eqn:Em; [|done].
  destruct (multi_executor_spec _ _ _ _ _ _ Em Hs3) as (Hs4 & Eb4 & Hb4).
  assert (∃ s5 e, tl = tlist ∧ (tl ≠ [] → stored s5 ∧ batch_with s5 b tl sl e ∧
    foldl (set_target b v sl e) s5 tl = s')) as (s5 & e & <- & K).
  { unfold ebind at 1 in E. destruct o as [e|].
    - unfold eret at 1 in E. unfold ebind, emod, eret in E. injection E as <- <-.
      exists s4, e. split; [done|]. intros _. split_and!; auto.
    - destruct (make_executor b v tl sl s4) as [s5 [e|]] eqn:Ee; [|done].
      unfold ebind, emod, eret in E. injection E as <- <-.
      exists s5, e. split; [done|]. intros Ht.
      destruct (make_executor_spec _ _ _ _ _ _ _ Ee Ht Hs4) as (? & ? & ?). done. }
  exists s0, suf, s2, sl, e. split_and!; [done..|]. intros t Ht.
  destruct K as (Hs5 & (bt & B1 & B2 & B3) & E5); [by intros ->; apply elem_of_nil in Ht|].
  destruct (set_targets_spec b v sl e tl s5 Hs5) as (_ & I2 & I3 & I4 & _).
  rewrite E5 in I2, I3, I4. split; [apply I4; by left|]. exists bt.
  split; [by rewrite I3|]. split; [done|]. by rewrite I2.
Qed.
End run.

(** ** Targets that are refused *)

Section errors.
Context `{BuildEnv} (limit : nat).

(** What the target was given in another environment does the same. *)
Definition same_action (v : env) (tlist slist : list nid) (s : bst) (t : nid) : Prop :=
  match n_env (node_of (bs_store s) t) with
  | None => True
  | Some e => env_id e = env_id v ∨ ∃ nb, n_builder (node_of (bs_store s) t) = Some nb ∧
      act_contents (bd_action nb) tlist slist e = act_contents (bd_action nb) tlist slist v
  end.
(** The target can be made this way. *)
Definition fits (v : env) (tlist slist : list nid) (s : bst) (t : nid) : Prop :=
  side_effect (node_of (bs_store s) t) = false ∧
  (t ∈ bs_explicit s → same_action v tlist slist s t ∧ sources (node_of (bs_store s) t) = slist).
Definition accepted (b : bid) (v : env) (tlist slist : list nid) (s : bst) : Prop :=
  (∀ t, t ∈ tlist → fits v tlist slist s t) ∧
  (b_single_source (bld_of s b) = true → length slist ≤ 1).
Definition has_action (s : bst) (t : nid) : Prop :=
  t ∈ bs_explicit s → is_Some (n_builder (node_of (bs_store s) t)).
Definition is_user_error (x : exn) : Prop := ∃ m, x = ExUserError m.

Lemma warn_warn k l s : warn l (warn k s) = warn (k ++ l) s.
Proof. unfold warn. simpl. by rewrite <- app_assoc. Qed.
Lemma warn_nil s : warn [] s = s.
Proof. destruct s. unfold warn. simpl. by rewrite app_nil_r. Qed.

(** A check of a target only warns; it fails exactly when the target does not fit. *)
Definition checked (P : Prop) (ok : Prop) (s : bst) (r : bst * res exn unit) : Prop :=
  (P ∧ ∃ w, r = (warn w s, Ok tt)) ∨
  (¬ P ∧ ∃ w x, r = (warn w s, Raise x) ∧ (ok → is_user_error x)).

Lemma check_env_exact v tlist slist t s :
  checked (same_action v tlist slist s t) (is_Some (n_builder (node_of (bs_store s) t))) s
    (check_env v tlist slist t s).
Proof.
  unfold check_env, same_action. destruct (n_env _) as [e|].
  - case_decide as He; [left; split; [by left|]; exists []; by rewrite warn_nil|].
    destruct (n_builder _) as [nb|].
    + case_decide as Hc; [left; eauto 10|]. right. split; [naive_solver|].
      exists []. rewrite warn_nil. eexists. split; [done|]. intros _. by eexists.
    + right. split; [naive_solver|]. exists []. rewrite warn_nil. eexists. split; [done|]. by intros [].
  - left. split; [done|]. exists []. by rewrite warn_nil.
Qed.
Lemma check_target_exact b v tlist slist t s :
  b_multi (bld_of s b) = false →
  checked (fits v tlist slist s t) (has_action s t) s (check_target b v tlist slist t s).
Proof.
  intros Hm. unfold check_target, fits. destruct (side_effect _).
  { right. split; [by intros []|]. exists []. rewrite warn_nil. eexists. split; [done|].
    intros _. by eexists. }
  case_decide as Ht; [|left; split; [done|]; exists []; by rewrite warn_nil].
  unfold ebind at 1. unfold has_action.
  destruct (check_env_exact v tlist slist t s) as [(Hp & w & ->) | (Hp & w & x & -> & Hx)].
  - change (bld_of (warn w s) b) with (bld_of s b). rewrite Hm. simpl. case_decide as Hl.
    + right. split; [naive_solver|]. exists w. eexists. split; [done|]. intros _. by eexists.
    + left. split; [|eauto]. split; [done|]. intros _. split; [done|].
      destruct (decide (sources (node_of (bs_store s) t) = slist)); [done|]. by exfalso.
  - right. split; [naive_solver|]. exists w, x. split; [done|]. auto.
Qed.
Lemma check_targets_exact b v tlist slist l s :
  b_multi (bld_of s b) = false →
  checked (∀ t, t ∈ l → fits v tlist slist s t) (∀ t, t ∈ l → has_action s t) s
    (efor l (check_target b v tlist slist) s).
Proof.
  intros Hm. revert s Hm. induction l as [|t l IH]; intros s Hm.
  { left. split; [set_solver|]. exists []. by rewrite warn_nil. }
  simpl. unfold ebind.
  destruct (check_target_exact b v tlist slist t s Hm) as [(Hp & w & ->) | (Hp & w & x & -> & Hx)].
  - destruct (IH (warn w s) Hm) as [(Hq & w' & ->) | (Hq & w' & x & -> & Hx)].
    + left. split; [|rewrite warn_warn; eauto]. intros t' [-> | Ht]%elem_of_cons; [done|by apply Hq].
    + right. split; [|rewrite warn_warn; exists (w ++ w'), x; split; [done|]].
      * intros Hall. apply Hq. intros t' Ht. apply Hall. set_solver.
      * intros Hall. apply Hx. intros t' Ht. apply Hall. set_solver.
  - right. split; [|exists w, x; split; [done|]].
    + intros Hall. apply Hp, Hall. set_solver.
    + intros Hall. apply Hx, Hall. set_solver.
Qed.
Lemma node_errors_exact b v tlist slist s :
  b_multi (bld_of s b) = false →
  checked (accepted b v tlist slist s) (∀ t, t ∈ tlist → has_action s t) s
    (_node_errors b v tlist slist s).
Proof.
  intros Hm. unfold _node_errors, ebind, accepted.
  destruct (check_targets_exact b v tlist slist tlist s Hm) as [(Hp & w & ->) | (Hp & w & x & -> & Hx)].
  - change (bld_of (warn w s) b) with (bld_of s b).
    destruct (b_single_source _); simpl; [case_bool_decide as Hl|].
    + right. split; [intros [_ K]; specialize (K eq_refl); lia|]. exists w. eexists. split; [done|].
      intros _. by eexists.
    + left. split; [|eauto]. split; [done|]. intros _. lia.
    + left. split; [by split|]. eauto.
  - right. split; [naive_solver|]. eauto.
Qed.

(** C18: for a builder that is not [multi], a call whose targets and sources are
    found goes on exactly when none of the targets is a side effect, each one that
    was given explicitly before has these very sources and an action that is the
    same in both environments, and a builder for single sources has one; otherwise
    it raises, a [UserError] when the targets given before have builders, and
    leaves nodes, executors and builders as they were found. *)
Theorem second_way_refused b v kw target source s s1 tlist slist
    (E : _create_nodes limit b v target source (overwarn kw s) = (s1, Ok (tlist, slist)))
    (Hm : b_multi (bld_of s1 b) = false) :
  (accepted b v tlist slist s1 → ∃ w, _node_errors b v tlist slist s1 = (warn w s1, Ok tt)) ∧
  (¬ accepted b v tlist slist s1 → ∃ w x,
     execute_one limit b v kw target source s = (warn w s1, Raise x) ∧
     ((∀ t, t ∈ tlist → has_action s1 t) → is_user_error x)).
Proof.
  unfold execute_one. unfold ebind at 1, emod at 1. unfold ebind at 1. rewrite E. unfold ebind at 1.
  cbn [fst snd].
  destruct (node_errors_exact b v tlist slist s1 Hm) as [(Hp & w & ->) | (Hp & w & x & -> & Hx)].
  - split; [eauto|]. by intros [].
  - split; [by intros ?|]. intros _. exists w, x. done.
Qed.
End errors.
