(* ===== verification/BuilderWitness.v ===== *)
(** * Builders: concrete runs

    A builder of objects and a builder of programs that makes objects first, and
    what modelling showed of calls that are made twice and of suffixes that are
    changed. *)

From S2P Require Import Prelude Errors NodeState PyStr Util NodeData Executor NodeFacts NodeWitness Builder BuilderFacts BuilderRun.
Open Scope nat_scope.

#[local] Existing Instance demo_types.
#[local] Instance demo_builder_world : DepWorld := demo_dep demo_includes (λ _, ActOk) (λ _, None).

(** Files are numbered in this order. *)
Definition file_names : list text := map T ["a.c"; "b.c"; "a.o"; "b.o"; "prog"; "a"; "b"].
Fixpoint index_of (t : text) (l : list text) : nat :=
  match l with [] => 0 | x :: l => if decide (x = t) then 0 else S (index_of t l) end.
Definition file_of (t : text) : nid := index_of t file_names.
Definition name_of (n : nid) : text := nth n file_names [].

#[local] Instance demo_builders : BuildEnv := {|
  env_id _ := 0;
  env_subst _ t := t;
  name_subst _ _ _ t := t;
  env_BUILDERS _ t := if decide (t = T "Object") then Some 1 else None;
  env_var _ _ := None;
  lookup_list _ _ := None;
  factory_call _ _ t := [file_of t];
  node_name := name_of;
  node_suffix n := (splitext (name_of n)).2;
  target_from_source n := Some (λ pre suf split,
    file_of (default [] pre ++ (split (name_of n)).1 ++ default [] suf));
  batch_key _ _ _ _ := None;
  affix_call _ _ _ := None;
  emit _ _ t s := eret (t, s);
  builder_eq _ _ := false
|}.

(** [Program] has the number 0 and names [Object], which has the number 1. *)
Definition program_bld : bld :=
  Bld (Some 8) (AText []) (AText []) [T ".o"] None None None false None ∅ false true
    [inl (T "Object")] false None None ∅ ∅.
Definition object_bld : bld :=
  Bld (Some 7) (AText []) (AText (T ".o")) [T ".c"] None None None false None ∅ true true
    [] false None None ∅ ∅.
Definition demo_bst : bst :=
  BSt (DStore ∅ ∅ 0) {[0 := program_bld; 1 := object_bld]} ∅ ∅ ∅ [] false.
Definition Program (target : text) (source : list text) : bst → bst * res exn (list nid) :=
  _execute 10 10 v0 [] 0 (Some [BStr target]) (map BStr source).

(** [Program('prog', ['a.c', 'b.o'])] makes [a.o] from [a.c] and [prog] from
    both objects. *)
Definition after_program : bst := (Program (T "prog") [T "a.c"; T "b.o"] demo_bst).1.
Example Program_builds :
  (Program (T "prog") [T "a.c"; T "b.o"] demo_bst).2 = Ok [4] ∧
  sources (node_of (bs_store after_program) 4) = [2; 3] ∧
  sources (node_of (bs_store after_program) 2) = [0] ∧
  bs_builder after_program !! 4 = Some 0 ∧ bs_builder after_program !! 2 = Some 1 ∧
  bs_builder after_program !! 3 = None.
Proof. split_and!; vm_compute; reflexivity. Qed.

(** ** The theorems at work *)

Lemma demo_bld b :
  (b = 0 ∧ bld_of demo_bst b = program_bld) ∨ (b = 1 ∧ bld_of demo_bst b = object_bld) ∨
  bld_of demo_bst b = empty_bld.
Proof.
  destruct (decide (b = 0)) as [->|]; [by left|].
  destruct (decide (b = 1)) as [->|]; [by right; left|]. right; right.
  unfold bld_of, demo_bst. cbn [bs_builders].
  by rewrite lookup_insert_ne, lookup_singleton_ne by done.
Qed.
Lemma demo_memo_ok v : memo_ok v demo_bst.
Proof.
  intros b. unfold suffix_memo.
  destruct (demo_bld b) as [[-> ->] | [[-> ->] | ->]]; done.
Qed.

Example src_suffixes_reachable_witness :
  ∃ l, (src_suffixes 2 0 v0 demo_bst).2 = Ok l ∧ T ".c" ∈ l.
Proof.
  edestruct (src_suffixes_reachable v0 (λ b, if decide (b = 0) then 1 else 0) 2 0 demo_bst)
    as (s' & l & E & _ & _ & Hl & _).
  - apply demo_memo_ok.
  - intros x y. unfold makers.
    destruct (demo_bld x) as [[-> ->] | [[-> ->] | ->]]; [|by intros ?%elem_of_nil..].
    intros ->%list_elem_of_singleton. simpl. lia.
  - simpl. lia.
  - exists l. rewrite E. split; [done|]. apply Hl. exists 1. split; [apply rtc_once|]; by left.
Defined.

Definition compile (target source : text) : bst → bst * res exn (list nid) :=
  execute_one 10 1 v0 [] (Some [BStr target]) [BStr source].
Lemma demo_emit_ok f v t s : keeps (λ s, store_ok (bs_store s)) (emit f v t s).
Proof. intros s' Hs. exact Hs. Qed.
Lemma demo_stored : stored demo_bst.
Proof. apply store_ok_empty. Qed.

Example execute_sets_targets_witness :
  let s := (compile (T "a.o") (T "a.c") demo_bst).1 in
  bs_builder s !! 2 = Some 1 ∧ [0] ⊆ sources (node_of (bs_store s) 2).
Proof.
  assert (specific_sources (node_of (bs_store (compile (T "a.o") (T "a.c") demo_bst).1) 2) = false) as Hsp
    by (vm_compute; reflexivity).
  destruct (compile (T "a.o") (T "a.c") demo_bst) as [s r] eqn:E. cbn [fst] in *.
  assert (r = Ok [2]) as -> by (change r with (s, r).2; rewrite <- E; vm_compute; reflexivity).
  destruct (execute_sets_targets 10 demo_emit_ok 1 v0 [] (Some [BStr (T "a.o")])
    [BStr (T "a.c")] demo_bst s [2] demo_stored E) as (s0 & suf & s1 & sl & e & Es & _ & Hsl & Ht).
  destruct (Ht 2) as [Hb _]; [by left|]. split; [exact (to_builder _ _ _ _ _ _ Hb)|].
  assert (sl = [0]) as <-.
  { rewrite Hsl; vm_compute in Es; injection Es as <- <-; vm_compute; reflexivity. }
  exact (to_sources _ _ _ _ _ _ Hb Hsp).
Defined.

(** [a.o] is made from [a.c]; then another call says it is made from [b.c]. *)
Definition compiled : bst := (compile (T "a.o") (T "a.c") demo_bst).1.
Example second_way_refused_witness :
  ∃ s x, compile (T "a.o") (T "b.c") compiled = (s, Raise x) ∧ bs_store s = bs_store compiled.
Proof.
  destruct (_create_nodes 10 1 v0 (Some [BStr (T "a.o")]) [BStr (T "b.c")] (overwarn [] compiled))
    as [s1 r] eqn:E.
  assert (bs_store s1 = bs_store compiled) as Es
    by (change s1 with (s1, r).1; rewrite <- E; vm_compute; reflexivity).
  assert (b_multi (bld_of s1 1) = false) as Hm
    by (change s1 with (s1, r).1; rewrite <- E; vm_compute; reflexivity).
  assert (2 ∈ bs_explicit s1) as Hx.
  { assert (bs_explicit s1 = {[2]}) as ->
      by (change s1 with (s1, r).1; rewrite <- E; vm_compute; reflexivity).
    set_solver. }
  assert (r = Ok ([2], [1])) as ->
    by (change r with (s1, r).2; rewrite <- E; vm_compute; reflexivity).
  destruct (second_way_refused 10 1 v0 [] (Some [BStr (T "a.o")]) [BStr (T "b.c")] compiled s1 [2] [1]
    E Hm) as [_ Hr].
  destruct Hr as (w & x & Hr & _).
  - intros [Hall _]. destruct (Hall 2) as [_ K]; [by left|]. destruct (K Hx) as [_ K'].
    rewrite Es in K'. vm_compute in K'. discriminate.
  - exists (warn w s1), x. split; [exact Hr|]. exact Es.
Defined.

(** ** What modelling showed *)

(** The same call made twice, its list of sources naming a file twice: the target
    keeps the file once, so the second call is taken for another way. *)
Lemma same_call_twice :
  let s := (Program (T "prog") [T "b.o"; T "b.o"] demo_bst).1 in
  (Program (T "prog") [T "b.o"; T "b.o"] demo_bst).2 = Ok [4] ∧
  (Program (T "prog") [T "b.o"; T "b.o"] s).2 = Raise two_ways ∧
  let s := (Program (T "prog") [T "b.o"] demo_bst).1 in
  (Program (T "prog") [T "b.o"] s).2 = Ok [4].
Proof. split_and!; vm_compute; reflexivity. Qed.

(** [src_suffixes] appends to the memoised list of [subst_src_suffixes]: a suffix
    of a builder of sources stays with [Program] when that builder loses it. *)
Lemma suffixes_stay :
  let s := (src_suffixes 10 0 v0 demo_bst).1 in
  let s := add_src_builder 1 2 (set_src_suffix 1 [T ".cc"] s) in
  (src_suffixes 10 1 v0 s).2 = Ok [T ".cc"] ∧
  (src_suffixes 10 0 v0 s).2 = Ok [T ".o"; T ".c"; T ".cc"].
Proof. split_and!; vm_compute; reflexivity. Qed.

(** A variable of an emitter that holds its own name keeps [EmitterProxy] in its
    loop. *)
Lemma emitter_variable_loops `{E : BuildEnv} v x fuel :
  env_var v x = Some (VarStr x) → proxy_value fuel v x = None.
Proof. intros Hx. induction fuel as [|fuel IH]; simpl; rewrite Hx; [done|exact IH]. Qed.

(** [add_action] sets new suffixes but keeps the memoised ones: a builder that
    was used in the environment does not take the suffix it got. *)
Definition object_generator : cmd_generator := CmdGenerator (od_update [(Some (T ".c"), 7)] od_empty) true.
Lemma added_action_unseen :
  let s := (src_suffixes 10 1 v0 demo_bst).1 in
  let '(g, s') := composite_add_action 1 (T ".d") 9 object_generator s in
  DictCmdGenerator_call id g [T "x.d"] = Ok (Some 9) ∧
  (src_suffixes 10 1 v0 s').2 = Ok [T ".c"] ∧
  (src_suffixes 10 1 v0 (composite_add_action 1 (T ".d") 9 object_generator demo_bst).2).2
    = Ok [T ".c"; T ".d"].
Proof. vm_compute. split_and!; reflexivity. Qed.

(** A source without suffix may come before the others and not after them. *)
Lemma extensions_in_order :
  DictCmdGenerator_call id object_generator [T "a"; T "b.c"] = Ok (Some 7) ∧
  DictCmdGenerator_call id object_generator [T "b.c"; T "a"] = Raise different_extensions.
Proof. split; vm_compute; reflexivity. Qed.
