(* ===== verification/Variables.v ===== *)
(** * Variables of the command line ([SCons/Variables])

    Declared variables with defaults, converters and validators; [Update], which
    puts the values of defaults, saved files and command lines in an environment,
    and [Save], which writes them to a file; the kinds of variables that come with
    the engine.  An environment is given by its variables and a saved file by its
    assignments: that [eval(repr(v))] is [v] for texts and truth values is
    Python's promise.  What substitution gives is behind [VarSubst]; existence of
    files and the creation of directories behind [Paths].  The texts of help are
    left out. *)

From S2P Require Import Prelude Errors NodeState PyStr Env.
From stdpp Require Import sorting.
Open Scope nat_scope.

(** ** Values *)

(** A text, [True] or [False], an integer, a [_ListVariable] with its [data] and
    [allowedElems], or an object whose [repr] cannot be evaluated, by its text. *)
Inductive vval := VStr (t : text) | VBool (b : bool) | VInt (z : Z) | VNames (data allowed : list text) | VOther (t : text).
#[export] Instance vval_eq_dec : EqDecision vval.
Proof. solve_decision. Defined.

Abbreviation venv := (gmap text vval).

(** The order of texts, and [l.sort()]. *)
Fixpoint text_le (a b : text) : bool :=
  match a, b with
  | [], _ => true
  | _ :: _, [] => false
  | c :: a, d :: b =>
      if decide (c = d) then text_le a b else bool_decide (nat_of_ascii c < nat_of_ascii d)
  end.
Definition text_leq (a b : text) : Prop := text_le a b = true.
#[export] Instance text_leq_dec : RelDecision text_leq := λ a b, decide (text_le a b = true).
Definition sorted (l : list text) : list text := merge_sort text_leq l.

(** ** [ListVariable] *)

(** [_ListVariable(initlist, allowedElems)] *)
Definition nonempty_texts (l : list text) : list text := filter (λ t, t ≠ []) l.
Definition _ListVariable (initlist allowed : list text) : vval :=
  VNames (nonempty_texts initlist) (sorted allowed).
(** [__str__], of [data] sorted in place. *)
Definition ListVariable_str (data allowed : list text) : text :=
  match data with
  | [] => T "none"
  | _ => let data := sorted data in if decide (data = allowed) then T "all" else PyStr.join (T ",") data
  end.
Definition ValueError_list : exn := ExOther "ValueError" "Invalid value(s) for option".
Definition list_converter (val : text) (allowed : list text) (mapdict : gmap text text) : res exn vval :=
  if decide (val = T "none") then Ok (_ListVariable [] allowed)
  else if decide (val = T "all") then Ok (_ListVariable allowed allowed)
  else
    let l := map (λ v, default v (mapdict !! v)) (nonempty_texts (PyStr.split ","%char val)) in
    if decide (filter (λ v, v ∉ allowed) l = []) then Ok (_ListVariable l allowed)
    else Raise ValueError_list.

(** [str(v)] *)
Definition vstr (v : vval) : text :=
  match v with
  | VStr t | VOther t => t
  | VBool true => T "True"
  | VBool false => T "False"
  | VInt z => T (pretty z)
  | VNames data allowed => ListVariable_str data allowed
  end.

(** ** [BoolVariable] and [EnumVariable] *)

Definition true_strings : list text := map T ["y"; "yes"; "true"; "t"; "1"; "on"; "all"].
Definition false_strings : list text := map T ["n"; "no"; "false"; "f"; "0"; "off"; "none"].
Definition _text2bool (val : text) : res exn vval :=
  let lval := lower val in
  if decide (lval ∈ true_strings) then Ok (VBool true)
  else if decide (lval ∈ false_strings) then Ok (VBool false)
  else Raise (ExOther "ValueError" "Invalid value for boolean option").
Definition bool_validator (key val : text) (env : venv) : venv * res exn unit :=
  match env !! key with
  | None => (env, Raise KeyError)
  | Some (VBool _) | Some (VInt 0) | Some (VInt 1) => (env, Ok tt)
  | Some _ => (env, Raise (ExUserError "Invalid value for boolean option"))
  end.

Definition enum_validator (vals : list text) (ignorecase : nat) (key val : text) (env : venv)
    : venv * res exn unit :=
  let val := if decide (1 ≤ ignorecase) then lower val else val in
  if decide (val ∈ vals) then (env, Ok tt)
  else (env, Raise (ExUserError "Invalid value for option")).
Definition enum_converter (mapping : gmap text text) (ignorecase : nat) (val : text) : res exn vval :=
  Ok (VStr
    (if decide (ignorecase = 2) then lower (default val (mapping !! lower val))
     else if decide (ignorecase = 1) then default val (mapping !! lower val)
     else default val (mapping !! val))).

(** ** [PackageVariable] and [PathVariable] *)

Class Paths := { path_exists : text → bool; path_isdir : text → bool; path_isfile : text → bool }.

Definition enable_strings : list text := map T ["1"; "yes"; "true"; "on"; "enable"; "search"].
Definition disable_strings : list text := map T ["0"; "no"; "false"; "off"; "disable"].
Definition package_converter (val : text) : res exn vval :=
  let lval := lower val in
  Ok (if decide (lval ∈ enable_strings) then VBool true
      else if decide (lval ∈ disable_strings) then VBool false else VStr val).
(** A value of an environment that is true. *)
Definition vtruthy (v : vval) : bool :=
  match v with
  | VStr [] | VBool false | VInt 0 | VNames [] _ => false
  | _ => true
  end.
Definition package_validator `{Paths} (searchfunc : option (text → text → vval)) (key val : text)
    (env : venv) : venv * res exn unit :=
  match env !! key with
  | None => (env, Raise KeyError)
  | Some (VBool true) =>
      (match searchfunc with Some f => <[key := f key val]> env | None => env end, Ok tt)
  | Some v =>
      if vtruthy v && negb (path_exists val)
      then (env, Raise (ExUserError "Path does not exist for option")) else (env, Ok tt)
  end.

(** The validators of [PathVariable]; [PathIsDirCreate] also tells whether it makes
    the directory. *)
Definition PathAccept (key val : text) (env : venv) : venv * res exn unit := (env, Ok tt).
Definition path_error (bad : bool) (msg : string) (env : venv) : venv * res exn unit :=
  (env, if bad then Raise (ExUserError msg) else Ok tt).
Definition PathIsDir `{Paths} (key val : text) (env : venv) : venv * res exn unit :=
  path_error (negb (path_isdir val))
    (if path_isfile val then "Directory path for option is a file"
     else "Directory path for option does not exist") env.
Definition PathIsDirCreate `{Paths} (key val : text) : res exn bool :=
  if path_isfile val then Raise (ExUserError "Path for option is a file, not a directory")
  else Ok (negb (path_isdir val)).
Definition PathIsFile `{Paths} (key val : text) (env : venv) : venv * res exn unit :=
  path_error (negb (path_isfile val))
    (if path_isdir val then "File path for option is a directory"
     else "File path for option does not exist") env.
Definition PathExists `{Paths} (key val : text) (env : venv) : venv * res exn unit :=
  path_error (negb (path_exists val)) "Path for option does not exist" env.

(** ** Declarations *)

(** A converter, called with the value, and with the environment too when it
    raises [TypeError]. *)
Record converter := Converter { conv1 : text → res exn vval; conv2 : text → venv → res exn vval }.
(** A function of one argument, and of two. *)
Definition one_argument (f : text → res exn vval) : converter :=
  Converter f (λ _ _, Raise (ExOther "TypeError" "takes exactly 1 argument (2 given)")).
Definition two_arguments (f : text → venv → res exn vval) : converter :=
  Converter (λ _, Raise (ExOther "TypeError" "takes exactly 2 arguments (1 given)")) f.
Definition validator : Type := text → text → venv → venv * res exn unit.

Record variable := Variable_ {
  v_key : text;
  v_aliases : list text;
  v_default : option vval;
  v_validator : option validator;
  v_converter : option converter
}.
(** The first argument of [_do_add], and all of them. *)
Inductive key_arg := KName (t : text) | KNames (l : list text).
Record variable_args := VarArgs {
  a_key : key_arg;
  a_default : option vval;
  a_validator : option validator;
  a_converter : option converter
}.

Definition ListVariable (key : key_arg) (default : vval) (names : list text) (m : gmap text text)
    : variable_args :=
  VarArgs key (Some default) None (Some (one_argument (λ val, list_converter val names m))).
(** A default that is a list. *)
Definition ListVariable_default (l : list text) : vval := VStr (PyStr.join (T ",") l).
Definition BoolVariable (key : key_arg) (default : vval) : variable_args :=
  VarArgs key (Some default) (Some bool_validator) (Some (one_argument _text2bool)).
Definition EnumVariable (key : key_arg) (default : vval) (allowed_values : list text)
    (m : gmap text text) (ignorecase : nat) : variable_args :=
  VarArgs key (Some default) (Some (enum_validator allowed_values ignorecase))
    (Some (one_argument (enum_converter m ignorecase))).
Definition PackageVariable `{Paths} (key : key_arg) (default : vval)
    (searchfunc : option (text → text → vval)) : variable_args :=
  VarArgs key (Some default) (Some (package_validator searchfunc)) (Some (one_argument package_converter)).
Definition PathVariable `{Paths} (key : key_arg) (default : vval) (v : option validator) : variable_args :=
  VarArgs key (Some default) (Some match v with Some v => v | None => PathExists end) None.

(** [class Variables]; [args] is a dictionary. *)
Record variables := Variables_ {
  options : list variable;
  args : gmap text vval;
  files : list text;
  unknown : gmap text vval
}.
Definition Variables_init (fs : list text) (args : gmap text vval) : variables := Variables_ [] args fs ∅.
Definition with_unknown (f : gmap text vval → gmap text vval) (s : variables) : variables :=
  Variables_ (options s) (args s) (files s) (f (unknown s)).

(** The names under which a value is given. *)
Definition names_of (o : variable) : list text := v_aliases o ++ [v_key o].
Definition _do_add (a : variable_args) : eff variables exn unit := λ s,
  match (match a_key a with
         | KName k => Some (k, [k])
         | KNames (k :: l) => Some (k, l)
         | KNames [] => None
         end) with
  | None => (s, Raise (ExOther "IndexError" "list index out of range"))
  | Some (key, aliases) =>
      let option := Variable_ key aliases (a_default a) (a_validator a) (a_converter a) in
      (Variables_ (options s ++ [option]) (args s) (files s)
         (foldl (λ m alias, delete alias m) (unknown s) (names_of option)), Ok tt)
  end.
Definition keys (s : variables) : list text := map v_key (options s).
(** [Add] of a tuple of arguments, and of a name with the rest. *)
Definition Add (tuple : bool) (a : variable_args) : eff variables exn unit :=
  if tuple then _do_add a
  else match a_key a with
       | KName k => if is_valid_var k then _do_add a
                    else eraise (ExUserError "Illegal Variables.Add() key")
       | KNames _ => eraise (ExUserError "Illegal Variables.Add() key")
       end.
Definition AddVariables (l : list variable_args) : eff variables exn unit := efor l _do_add.

(** ** [Update] *)

(** [env.subst('${key}')], and [env.subst] of a text. *)
Class VarSubst := { vsubst : venv → text → text; tsubst : venv → text → text }.

(** [args.items()]: every item of a dictionary once, in an order that is Python's. *)
Class DictOrder := {
  dict_items : gmap text vval → list (text * vval);
  dict_items_perm m : dict_items m ≡ₚ map_to_list m
}.

(** [env[key] = value] for variables without a treatment of their own. *)
Definition set_item (key : text) (value : vval) (env : venv) : venv * res exn unit :=
  if reserved key then (env, Ok tt)
  else if bool_decide (is_Some (env !! key)) || is_valid_var key then (<[key := value]> env, Ok tt)
  else (env, Raise illegal_var).

Section update.
Context `{VarSubst, DictOrder}.
(** A file that exists, as a function on the values. *)
Variable run_file : text → option (venv → res exn venv).
Implicit Types (o : variable) (values env : venv).

Definition default_values (l : list variable) : venv :=
  foldl (λ values o, match v_default o with Some d => <[v_key o := d]> values | None => values end) ∅ l.
Definition exec_file (filename : text) (values : venv) : res exn venv :=
  match run_file filename with
  | None => Ok values
  | Some f =>
      rbind (f (<[T "__name__" := VStr filename]> values)) (λ values,
      match values !! T "__name__" with
      | Some _ => Ok (delete (T "__name__") values)
      | None => Raise KeyError
      end)
  end.
Fixpoint exec_files (l : list text) (values : venv) : res exn venv :=
  match l with
  | [] => Ok values
  | f :: l => rbind (exec_file f values) (exec_files l)
  end.

(** The options that an argument is for. *)
Definition options_named (l : list variable) (arg : text) : list variable :=
  filter (λ o, arg ∈ names_of o) l.
Definition take_arg (l : list variable) (acc : venv * gmap text vval) (kv : text * vval)
    : venv * gmap text vval :=
  match options_named l kv.1 with
  | [] => (acc.1, <[kv.1 := kv.2]> acc.2)
  | os => (foldl (λ values o, <[v_key o := kv.2]> values) acc.1 os, acc.2)
  end.

Definition put_value values o : eff venv exn unit := λ env,
  match values !! v_key o with
  | Some v => set_item (v_key o) v env
  | None => (env, Ok tt)
  end.
Definition convert (c : converter) (value : text) env : res exn vval :=
  match conv1 c value with
  | Raise x => if is_class "TypeError" x then conv2 c value env else Raise x
  | r => r
  end.
Definition convert_value values o : eff venv exn unit := λ env,
  match v_converter o, values !! v_key o with
  | Some c, Some _ =>
      match convert c (vsubst env (v_key o)) env with
      | Ok v => set_item (v_key o) v env
      | Raise x => (env, Raise (if is_class "ValueError" x
                                then ExUserError "Error converting option" else x))
      end
  | _, _ => (env, Ok tt)
  end.
Definition validate_value values o : eff venv exn unit := λ env,
  match v_validator o, values !! v_key o with
  | Some f, Some _ => f (v_key o) (vsubst env (v_key o)) env
  | _, _ => (env, Ok tt)
  end.

(** [given]: the second argument of the call. *)
Definition Update (given : option (gmap text vval)) : eff (variables * venv) exn unit := λ '(s, env),
  let l := options s in
  match exec_files (files s) (default_values l) with
  | Raise x => ((s, env), Raise x)
  | Ok values =>
      let '(values, u) :=
        foldl (take_arg l) (values, unknown s) (dict_items (default (args s) given)) in
      let '(env, r) := (efor l (put_value values) ;;; efor l (convert_value values) ;;;
                        efor l (validate_value values))%eff env in
      ((with_unknown (λ _, u) s, env), r)
  end.

(** ** [Save] *)

(** What is written for a value: a list by its text, what cannot be evaluated by
    its text. *)
Definition stored (v : vval) : vval :=
  match v with
  | VNames data allowed => VStr (ListVariable_str data allowed)
  | VOther t => VStr t
  | v => v
  end.
Definition is_KeyError (x : exn) : bool := is_class "KeyError" x.
(** One turn of the loop: the line for an option, if there is one. *)
Definition save_option env o : res exn (option (text * vval)) :=
  match env !! v_key o with
  | None => Ok None
  | Some v =>
      let d := tsubst env match v_default o with Some d => vstr d | None => T "None" end in
      match (match v_converter o with Some c => conv1 c d | None => Ok (VStr d) end) with
      | Raise x => if is_KeyError x then Ok None else Raise x
      | Ok d => Ok (if decide (vsubst env (v_key o) ≠ vstr d) then Some (v_key o, stored v) else None)
      end
  end.
Definition Save env (l : list variable) : res exn (list (text * vval)) :=
  rbind (rmap (save_option env) l) (λ lines, Ok (omap id lines)).
(** The file that [Save] writes, when it is run. *)
Definition run_lines (lines : list (text * vval)) (values : venv) : res exn venv :=
  Ok (foldl (λ m '(k, v), <[k := v]> m) values lines).
End update.
