(* ===== verification/VariablesFacts.v ===== *)
(** * Facts about variables of the command line ([SCons/Variables])

    Which value [Update] puts in the environment, and that what [Save] writes
    gives the same values back, for texts, truth values and lists of names. *)

From S2P Require Import Prelude Errors NodeState PyStr Env Variables.
From stdpp Require Import sorting.
Open Scope nat_scope.

(** ** Lists of names *)

Lemma list_filter_none {A} (P : A → Prop) `{∀ x, Decision (P x)} l :
  Forall (λ x, ¬ P x) l → filter P l = [].
Proof. induction 1; [done|]. by rewrite filter_cons_False. Qed.

Lemma sorted_perm l : sorted l ≡ₚ l.
Proof. apply merge_sort_Permutation. Qed.
Lemma elem_of_sorted x l : x ∈ sorted l ↔ x ∈ l.
Proof. by rewrite sorted_perm. Qed.
Lemma nonempty_texts_id l : Forall (λ t, t ≠ []) l → nonempty_texts l = l.
Proof. unfold nonempty_texts. induction 1; [done|]. rewrite filter_cons_True by done. by f_equal. Qed.

Lemma join_comma l : PyStr.join (T ",") l = PyStr.join [","%char] l.
Proof. done. Qed.
Lemma elem_of_join sep c l : c ∈ PyStr.join sep l → c ∈ sep ∨ ∃ w, w ∈ l ∧ c ∈ w.
Proof.
  induction l as [|w l IH]; [by intros ?%elem_of_nil|]. destruct l as [|w' l].
  { intros Hc. right. exists w. split; [by left|done]. }
  rewrite join_cons by done. intros [Hc | [Hc | Hc]%elem_of_app]%elem_of_app.
  - right. exists w. split; [by left|done].
  - by left.
  - destruct (IH Hc) as [? | (x & ? & ?)]; [by left|]. right. exists x. split; [by right|done].
Qed.

(** Names that can be written in a list. *)
Record name_ok (t : text) : Prop := {
  name_nonempty : t ≠ [];
  name_no_comma : ","%char ∉ t;
  name_no_space : Forall (λ c, is_space c = false) t;
  name_no_dollar : "$"%char ∉ t;
  name_not_none : t ≠ T "none";
  name_not_all : t ≠ T "all"
}.

Section names.
Context (names : list text) (m : gmap text text).
Context (Hnames : Forall name_ok names) (Hm : ∀ t, t ∈ names → default t (m !! t) = t).
Implicit Types (data : list text).

Lemma data_ok data : data ⊆ names → Forall name_ok data.
Proof. intros Hd. apply Forall_forall. intros x Hx. rewrite Forall_forall in Hnames. auto. Qed.
Lemma data_nonempty data : data ⊆ names → nonempty_texts data = data.
Proof.
  intros Hd. apply nonempty_texts_id. eapply Forall_impl; [by apply data_ok|]. by intros x [].
Qed.
Lemma join_data_nonempty sep data : data ⊆ names → data ≠ [] → PyStr.join sep data ≠ [].
Proof.
  intros Hd Hn. destruct data as [|w l]; [done|].
  pose proof (data_ok _ Hd) as [[Hw _ _ _ _ _] _]%Forall_cons.
  destruct l as [|w' l]; [done|]. rewrite join_cons by done. by destruct w.
Qed.
(** A list of names is no other word. *)
Lemma join_names_word data t :
  data ⊆ names → t = T "none" ∨ t = T "all" → PyStr.join (T ",") data ≠ t.
Proof.
  intros Hd Ht E. pose proof (data_ok _ Hd) as Hok. destruct data as [|w [|w' l]].
  - destruct Ht as [-> | ->]; done.
  - apply Forall_singleton in Hok as [_ _ _ _ K1 K2]. simpl in E. destruct Ht; congruence.
  - rewrite join_cons in E by done. assert (","%char ∈ t) as Hc by (rewrite <- E; set_solver).
    destruct Ht as [-> | ->]; vm_compute in Hc; set_solver.
Qed.
Lemma split_names data :
  data ⊆ names → data ≠ [] → PyStr.split ","%char (PyStr.join (T ",") data) = data.
Proof.
  intros Hd Hn. rewrite join_comma. apply split_join; [done|].
  eapply Forall_impl; [by apply data_ok|]. by intros x [].
Qed.

Lemma ListVariable_str_cons data allowed :
  data ≠ [] → ListVariable_str data allowed =
    if decide (sorted data = allowed) then T "all" else PyStr.join (T ",") (sorted data).
Proof. by destruct data. Qed.

(** What a [ListVariable] prints for a list of allowed names is converted back to
    the same names, in some order. *)
Lemma list_converter_str data :
  data ⊆ names →
  ∃ data', list_converter (ListVariable_str data (sorted names)) names m
             = Ok (VNames data' (sorted names)) ∧ data' ≡ₚ data.
Proof.
  intros Hd. destruct (decide (data = [])) as [->|Hn]; [by exists []|].
  rewrite ListVariable_str_cons by done. unfold list_converter, _ListVariable.
  destruct (decide (sorted data = sorted names)) as [Hall|Hall].
  - exists names. simpl. rewrite data_nonempty by done. split; [done|].
    by rewrite <- (sorted_perm names), <- Hall, sorted_perm.
  - assert (sorted data ⊆ names) as Hs by (intros x Hx; apply Hd, elem_of_sorted, Hx).
    assert (sorted data ≠ []) as Hsn
      by (intros E; apply Hn, Permutation_nil_r; rewrite <- E; symmetry; apply sorted_perm).
    rewrite !decide_False by (apply join_names_word; auto).
    rewrite split_names, data_nonempty by done.
    assert (map (λ v, default v (m !! v)) (sorted data) = sorted data) as ->.
    { rewrite <- (list_fmap_id (sorted data)) at 2. apply list_fmap_ext. intros i x Hx.
      apply Hm, Hs. by eapply list_elem_of_lookup_2. }
    assert (filter (λ v, v ∉ names) (sorted data) = []) as ->.
    { apply list_filter_none, Forall_forall. intros x Hx K. by apply K, Hs. }
    rewrite decide_True by done. exists (sorted data). rewrite data_nonempty by done.
    split; [done|apply sorted_perm].
Qed.
End names.

(** ** [Update] *)

Section update.
Context `{VarSubst, DictOrder} (run_file : text → option (venv → res exn venv)).
Implicit Types (o : variable) (l : list variable) (values env : venv) (m : gmap text vval).

(** The items of a dictionary, in whatever order. *)
Lemma elem_of_dict_items m k v : (k, v) ∈ dict_items m ↔ m !! k = Some v.
Proof. by rewrite dict_items_perm, elem_of_map_to_list. Qed.
Lemma dict_items_empty : dict_items ∅ = [].
Proof.
  apply Permutation_nil_r. rewrite (dict_items_perm ∅). by rewrite map_to_list_empty.
Qed.

(** The value that assignments, one after the other, leave to a name. *)
Definition last_value (k : text) (given : list (text * vval)) : option vval :=
  last (map snd (filter (λ kv, kv.1 = k) given)).
Lemma foldl_last_value k given values :
  foldl (λ m '(k, v), <[k := v]> m) values given !! k =
  match last_value k given with Some v => Some v | None => values !! k end.
Proof.
  unfold last_value. induction given as [|[k' v] given IH] using rev_ind; [done|].
  rewrite foldl_snoc, filter_app. destruct (decide (k' = k)) as [->|Hk].
  - rewrite filter_cons_True, map_app by done. simpl. rewrite last_snoc. apply lookup_insert_eq.
  - rewrite filter_cons_False by done. rewrite filter_nil, app_nil_r, <- IH. by apply lookup_insert_ne.
Qed.
Lemma last_value_app k given given' :
  last_value k (given ++ given') =
  match last_value k given' with Some v => Some v | None => last_value k given end.
Proof. unfold last_value. rewrite filter_app, map_app, last_app. done. Qed.

(** Keys that an environment takes. *)
Definition good_key (k : text) : Prop := reserved k = false ∧ is_valid_var k = true.
Lemma set_item_good k v env : good_key k → set_item k v env = (<[k := v]> env, Ok tt).
Proof. intros [Hr Hv]. unfold set_item. rewrite Hr, Hv. by destruct (bool_decide _). Qed.

(** The last value given to an option under one of its names. *)
Definition last_given (given : list (text * vval)) o : option vval :=
  last (map snd (filter (λ kv, kv.1 ∈ names_of o) given)).
Definition chosen values (given : list (text * vval)) o : option vval :=
  match last_given given o with Some v => Some v | None => values !! v_key o end.

Lemma last_given_snoc given kv o :
  last_given (given ++ [kv]) o = if decide (kv.1 ∈ names_of o) then Some kv.2 else last_given given o.
Proof.
  unfold last_given. rewrite filter_app. case_decide as Hk.
  - rewrite filter_cons_True, map_app by done. simpl. apply last_snoc.
  - rewrite filter_cons_False by done. by rewrite app_nil_r.
Qed.
Lemma last_given_Some given o v :
  last_given given o = Some v → ∃ a, a ∈ names_of o ∧ (a, v) ∈ given.
Proof.
  induction given as [|[a w] given IH] using rev_ind; [done|]. rewrite last_given_snoc. cbn [fst snd].
  case_decide as Ha; [intros [= ->]; exists a; set_solver|]. intros (a' & ? & ?)%IH. exists a'. set_solver.
Qed.
Lemma last_given_None given o :
  last_given given o = None → ∀ a v, a ∈ names_of o → (a, v) ∉ given.
Proof.
  induction given as [|[a w] given IH] using rev_ind; [set_solver|]. rewrite last_given_snoc. cbn [fst snd].
  case_decide as Ha; [done|]. intros Hn a' v Ha' [K | [= -> ->]%list_elem_of_singleton]%elem_of_app; [|done].
  by apply (IH Hn a' v).
Qed.
Lemma foldl_insert_keys v os values k :
  foldl (λ values o, <[v_key o := v]> values) values os !! k =
  if decide (k ∈ map v_key os) then Some v else values !! k.
Proof.
  induction os as [|o os IH] using rev_ind; [done|]. rewrite foldl_snoc, map_app. cbv beta.
  destruct (decide (k = v_key o)) as [->|Hk].
  - rewrite lookup_insert_eq, decide_True by set_solver. done.
  - rewrite lookup_insert_ne, IH by done. repeat case_decide; set_solver.
Qed.
Lemma take_arg_values l kv acc o :
  NoDup (map v_key l) → o ∈ l →
  (take_arg l acc kv).1 !! v_key o = if decide (kv.1 ∈ names_of o) then Some kv.2 else acc.1 !! v_key o.
Proof.
  intros Hl Ho. unfold take_arg.
  assert (v_key o ∈ map v_key (options_named l kv.1) ↔ kv.1 ∈ names_of o) as Hin.
  { unfold options_named. rewrite list_elem_of_fmap. split.
    - intros (o' & Ek & [Hk Ho']%list_elem_of_filter).
      assert (o' = o) as ->; [|done]. 
      apply list_elem_of_lookup_1 in Ho as [i Ei]. apply list_elem_of_lookup_1 in Ho' as [j Ej].
      assert (i = j) as ->; [|congruence].
      eapply (NoDup_lookup (map v_key l)); [done| |]; rewrite list_lookup_fmap.
      + by rewrite Ei.
      + rewrite Ej. simpl. by rewrite Ek.
    - intros Hk. exists o. split; [done|]. by apply list_elem_of_filter. }
  destruct (options_named l kv.1) as [|o' os].
  - rewrite decide_False; [done|]. intros K%Hin. by apply elem_of_nil in K.
  - cbn [fst]. rewrite foldl_insert_keys. repeat case_decide; tauto.
Qed.
Lemma take_args_values l given values u o :
  NoDup (map v_key l) → o ∈ l →
  (foldl (take_arg l) (values, u) given).1 !! v_key o = chosen values given o.
Proof.
  intros Hl Ho. unfold chosen. induction given as [|kv given IH] using rev_ind; [done|].
  rewrite foldl_snoc, last_given_snoc, take_arg_values by done. by case_decide.
Qed.
(** What no option is named after is kept aside. *)
Lemma take_args_unknown l given acc a :
  (foldl (take_arg l) acc given).2 !! a =
  match last (map snd (filter (λ kv, kv.1 = a ∧ options_named l a = []) given)) with
  | Some v => Some v
  | None => acc.2 !! a
  end.
Proof.
  induction given as [|[k v] given IH] using rev_ind; [done|].
  rewrite foldl_snoc, filter_app. unfold take_arg at 1. cbn [fst snd].
  destruct (decide (k = a)) as [->|Hk].
  - destruct (options_named l a) as [|o os] eqn:E.
    + rewrite filter_cons_True, map_app by done. simpl. rewrite last_snoc. apply lookup_insert_eq.
    + rewrite filter_cons_False by (by intros []). rewrite filter_nil, app_nil_r. cbn [snd]. exact IH.
  - rewrite filter_cons_False by (by intros []). rewrite filter_nil, app_nil_r, <- IH.
    destruct (options_named l k); [|done]. cbn [snd]. by rewrite lookup_insert_ne.
Qed.

Lemma default_values_get l o : NoDup (map v_key l) → o ∈ l → default_values l !! v_key o = v_default o.
Proof.
  unfold default_values. induction l as [|o' l IH] using rev_ind; [by intros _ ?%elem_of_nil|].
  rewrite map_app, NoDup_app, foldl_snoc. intros (Hn & Hd & _) [Ho | ->%list_elem_of_singleton]%elem_of_app.
  - assert (v_key o' ≠ v_key o) as Hne.
    { intros E. apply (Hd (v_key o)); [|rewrite <- E; by left]. apply list_elem_of_fmap. by exists o. }
    destruct (v_default o'); [rewrite lookup_insert_ne by done|]; by apply IH.
  - destruct (v_default o') eqn:E; [by rewrite lookup_insert_eq|].
    assert (∀ (m : venv) k, k ∉ map v_key l →
      foldl (λ (values : venv) o, match v_default o with
        | Some d => <[v_key o := d]> values | None => values end) m l !! k = m !! k) as Hout.
    { clear. induction l as [|o l IH]; intros m k Hk; [done|]. simpl.
      apply not_elem_of_cons in Hk as [Hko Hk]. rewrite IH by done.
      destruct (v_default o); [by rewrite lookup_insert_ne|done]. }
    rewrite Hout; [apply lookup_empty|]. intros K. apply (Hd _ K). by left.
Qed.

(** A dictionary gives a name one value, so the order of its items does not matter
    to what is kept aside. *)
Lemma unknown_of_items l (given u : gmap text vval) a :
  match last (map snd (filter (λ kv, kv.1 = a ∧ options_named l a = []) (dict_items given))) with
  | Some v => Some v
  | None => u !! a
  end =
  match given !! a with
  | Some v => if decide (Exists (λ o, a ∈ names_of o) l) then u !! a else Some v
  | None => u !! a
  end.
Proof.
  destruct (last _) as [v|] eqn:E.
  - apply last_Some in E as [l' E]. assert (v ∈ map snd (filter (λ kv, kv.1 = a ∧ options_named l a = [])
      (dict_items given))) as Hv by (rewrite E; set_solver).
    apply list_elem_of_fmap in Hv as ([k w] & -> & [[Hk Hnone] Hin]%list_elem_of_filter).
    cbn [fst] in Hk. subst k. apply elem_of_dict_items in Hin. rewrite Hin. cbn [snd].
    rewrite decide_False; [done|]. intros (o & Ho & Ha)%Exists_exists.
    apply (not_elem_of_nil o). rewrite <- Hnone. by apply list_elem_of_filter.
  - apply last_None, fmap_nil_inv in E. destruct (given !! a) as [v|] eqn:Ea; [|done].
    case_decide as Hex; [done|]. exfalso. apply (not_elem_of_nil (a, v)). rewrite <- E.
    apply list_elem_of_filter. split; [|by apply elem_of_dict_items]. split; [done|].
    apply list_filter_none, Forall_forall. intros o Ho Ha. apply Hex, Exists_exists. by exists o.
Qed.

(** The three loops over the options. *)
Definition all_good l : Prop := NoDup (map v_key l) ∧ ∀ o, o ∈ l → good_key (v_key o).
Lemma all_good_cons o l : all_good (o :: l) → good_key (v_key o) ∧ (v_key o ∉ map v_key l) ∧ all_good l.
Proof.
  intros [[Hn Hl]%NoDup_cons Hk]. split; [apply Hk; by left|]. split; [done|]. split; [done|].
  intros o' Ho'. apply Hk. by right.
Qed.

Lemma put_loop l values env :
  all_good l →
  ∃ env', efor l (put_value values) env = (env', Ok tt) ∧
    (∀ k, k ∉ map v_key l → env' !! k = env !! k) ∧
    ∀ o, o ∈ l → env' !! v_key o =
      match values !! v_key o with Some v => Some v | None => env !! v_key o end.
Proof.
  revert env. induction l as [|o l IH]; intros env Hl; [exists env; set_solver|].
  apply all_good_cons in Hl as (Hk & Hn & Hl). simpl. unfold ebind, put_value at 1.
  assert (∃ env1, (match values !! v_key o with
      | Some v => set_item (v_key o) v env | None => (env, Ok tt) end) = (env1, Ok tt) ∧
    (∀ k, k ≠ v_key o → env1 !! k = env !! k) ∧
    env1 !! v_key o = match values !! v_key o with Some v => Some v | None => env !! v_key o end)
    as (env1 & -> & E1 & E2).
  { destruct (values !! v_key o) as [v|]; [|by exists env]. rewrite set_item_good by done.
    eexists. split; [done|]. split; [|by rewrite lookup_insert_eq].
    intros k Hne. by rewrite lookup_insert_ne. }
  destruct (IH env1 Hl) as (env' & -> & F1 & F2). exists env'. split; [done|]. split.
  - intros k [Hko Hkl]%not_elem_of_cons. by rewrite F1, E1.
  - intros o' [-> | Ho']%elem_of_cons; [by rewrite F1|]. rewrite (F2 o' Ho').
    destruct (values !! v_key o'); [done|]. apply E1. intros K. apply Hn. rewrite <- K.
    apply list_elem_of_fmap. by exists o'.
Qed.

(** What the second loop does to one option. *)
Definition converted values env env' o : Prop :=
  match v_converter o, values !! v_key o with
  | Some c, Some _ => ∃ env1 w, env1 !! v_key o = env !! v_key o ∧
      convert c (vsubst env1 (v_key o)) env1 = Ok w ∧ env' !! v_key o = Some w
  | _, _ => env' !! v_key o = env !! v_key o
  end.
Lemma convert_one values o env env' :
  good_key (v_key o) → convert_value values o env = (env', Ok tt) →
  (∀ k, k ≠ v_key o → env' !! k = env !! k) ∧ converted values env env' o.
Proof.
  intros Hk. unfold convert_value, converted.
  destruct (v_converter o) as [c|]; [|by intros [= <-]].
  destruct (values !! v_key o); [|by intros [= <-]].
  destruct (convert c _ env) as [w|x] eqn:E; [|done]. rewrite set_item_good by done.
  intros [= <-]. split; [intros k Hne; by rewrite lookup_insert_ne|].
  exists env, w. rewrite lookup_insert_eq. done.
Qed.
Lemma convert_loop l values env env' :
  all_good l → efor l (convert_value values) env = (env', Ok tt) →
  (∀ k, k ∉ map v_key l → env' !! k = env !! k) ∧ ∀ o, o ∈ l → converted values env env' o.
Proof.
  revert env. induction l as [|o l IH]; intros env Hl; [intros [= <-]; set_solver|].
  apply all_good_cons in Hl as (Hk & Hn & Hl). simpl. unfold ebind.
  destruct (convert_value values o env) as [env1 [[]|]] eqn:E1; [|done].
  apply convert_one in E1 as [F1 C1]; [|done]. intros [F2 C2]%IH; [|done]. split.
  - intros k [Hko Hkl]%not_elem_of_cons. by rewrite F2, F1.
  - assert (∀ o', o' ∈ l → v_key o' ≠ v_key o) as Hne.
    { intros o' Ho' K. apply Hn. rewrite <- K. apply list_elem_of_fmap. by exists o'. }
    intros o' [-> | Ho']%elem_of_cons.
    + revert C1. unfold converted. rewrite F2 by done. done.
    + specialize (C2 o' Ho'). specialize (Hne o' Ho'). revert C2. unfold converted.
      rewrite F1 by done. done.
Qed.
Lemma validate_loop l values env env' r :
  (∀ o f k t e, o ∈ l → v_validator o = Some f → (f k t e).1 = e) →
  efor l (validate_value values) env = (env', r) → env' = env ∧
    (r = Ok tt → ∀ o f, o ∈ l → v_validator o = Some f → is_Some (values !! v_key o) →
       f (v_key o) (vsubst env (v_key o)) env = (env, Ok tt)).
Proof.
  revert env. induction l as [|o l IH]; intros env Hf.
  { intros [= <- <-]. split; [done|]. intros _ o f Ho. by apply elem_of_nil in Ho. }
  simpl. unfold ebind.
  assert ((validate_value values o env).1 = env) as E1.
  { unfold validate_value. destruct (v_validator o) as [f|] eqn:Ef; [|done].
    destruct (values !! v_key o); [|done]. by eapply Hf; [left|]. }
  destruct (validate_value values o env) as [env1 [[]|]] eqn:E2; cbn [fst] in E1; subst env1.
  - intros [-> Hall]%IH; [|intros o' f k t e Ho'; apply (Hf o' f k t e); by right].
    split; [done|]. intros -> o' f [-> | Ho']%elem_of_cons Ho [v Hv]; [|by apply Hall].
    unfold validate_value in E2. by rewrite Ho, Hv in E2.
  - by intros [= <- <-].
Qed.

(** The value of an option comes from the command line, under one of the option's
    names, or, when that gives none, from the last assignment of the files, or is
    its default. *)
Inductive chosen_from (given : gmap text vval) (assigned : list (text * vval)) o : option vval → Prop :=
  | from_command_line a v : a ∈ names_of o → given !! a = Some v → chosen_from given assigned o (Some v)
  | from_files v : (∀ a, a ∈ names_of o → given !! a = None) →
      last_value (v_key o) assigned = Some v → chosen_from given assigned o (Some v)
  | from_default : (∀ a, a ∈ names_of o → given !! a = None) →
      last_value (v_key o) assigned = None → chosen_from given assigned o (v_default o).

(** What running a list of files that are made of assignments gives. *)
Context (file_lines : text → option (list (text * vval))).
Context (Hfiles : ∀ f, run_file f = run_lines <$> file_lines f).
Definition assignments (fs : list text) : list (text * vval) := concat (omap file_lines fs).

Lemma exec_files_lines fs values :
  ∃ values', exec_files run_file fs values = Ok values' ∧
    ∀ k, k ≠ T "__name__" → values' !! k =
      match last_value k (assignments fs) with Some v => Some v | None => values !! k end.
Proof.
  revert values. induction fs as [|f fs IH]; intros values; [by exists values|].
  cbn [exec_files]. unfold exec_file, assignments. rewrite Hfiles. cbn [omap list_omap].
  destruct (file_lines f) as [lines|]; [|by apply IH]. cbn [fmap option_fmap option_map concat].
  unfold run_lines. cbn [rbind]. set (vals := foldl _ _ lines).
  assert (is_Some (vals !! T "__name__")) as [n ->].
  { unfold vals. rewrite foldl_last_value, lookup_insert_eq. destruct (last_value _ _); by eexists. }
  cbn [rbind]. destruct (IH (delete (T "__name__") vals)) as (values' & E1 & E2).
  exists values'. split; [exact E1|]. intros k Hk. rewrite (E2 k Hk), last_value_app.
  unfold assignments. destruct (last_value k _); [done|].
  rewrite lookup_delete_ne by done. unfold vals. rewrite foldl_last_value.
  by rewrite lookup_insert_ne.
Qed.
Lemma chosen_chosen_from fs l given values o :
  NoDup (map v_key l) → o ∈ l → v_key o ≠ T "__name__" →
  exec_files run_file fs (default_values l) = Ok values →
  chosen_from given (assignments fs) o (chosen values (dict_items given) o).
Proof.
  intros Hn Ho Hk Ev. destruct (exec_files_lines fs (default_values l)) as (values' & Ev' & Hv).
  rewrite Ev in Ev'. injection Ev' as <-. unfold chosen.
  destruct (last_given (dict_items given) o) as [v|] eqn:E.
  - apply last_given_Some in E as (a & Ha & Hin). apply (from_command_line _ _ _ a); [done|].
    by apply elem_of_dict_items.
  - assert (∀ a, a ∈ names_of o → given !! a = None) as Hnone.
    { intros a Ha. destruct (given !! a) as [v|] eqn:Ea; [|done]. exfalso.
      apply (last_given_None _ _ E a v Ha). by apply elem_of_dict_items. }
    rewrite (Hv _ Hk), default_values_get by done.
    destruct (last_value (v_key o) _) eqn:El; by constructor.
Qed.

(** C24: when [Update] returns, every variable has a value that the command line
    gives under one of its names (of two names of one variable either may win, by
    the order of the dictionary's table), or else that of the last assignment in
    the files that exist, read in their order, or else its default, or else the
    value it had, converted where it has a converter, and its validator has taken
    it; other variables of the environment stay.  Arguments that name no option,
    and they alone, are entered among the unknown.  Files are lists of assignments,
    as [Save] writes them; keys are distinct names that an environment takes, and
    none is [__name__]; validators leave the environment as it is. *)
Theorem update_precedence (s : variables) given env s' env'
    (Hl : all_good (options s)) (Hname : T "__name__" ∉ keys s)
    (Hv : ∀ o f k t e, o ∈ options s → v_validator o = Some f → (f k t e).1 = e)
    (E : Update run_file given (s, env) = ((s', env'), Ok tt)) :
  let given := default (args s) given in
  (∀ k, k ∉ keys s → env' !! k = env !! k) ∧
  (∀ o, o ∈ options s → ∃ c, chosen_from given (assignments (files s)) o c ∧
     match c, v_converter o with
     | None, _ => env' !! v_key o = env !! v_key o
     | Some v, None => env' !! v_key o = Some v
     | Some v, Some c => ∃ env1 w, env1 !! v_key o = Some v ∧
         convert c (vsubst env1 (v_key o)) env1 = Ok w ∧ env' !! v_key o = Some w
     end ∧
     ∀ f, v_validator o = Some f → is_Some c →
       f (v_key o) (vsubst env' (v_key o)) env' = (env', Ok tt)) ∧
  (∀ a, unknown s' !! a =
     match given !! a with
     | Some v => if decide (Exists (λ o, a ∈ names_of o) (options s)) then unknown s !! a else Some v
     | None => unknown s !! a
     end).
Proof.
  unfold Update in E.
  destruct (exec_files run_file (files s) (default_values (options s))) as [values|] eqn:Hf; [|done].
  revert E. generalize (default (args s) given). clear given. intros given E g. subst g.
  pose proof (take_args_unknown (options s) (dict_items given) (values, unknown s)) as Hu.
  pose proof (λ o, take_args_values (options s) (dict_items given) values (unknown s) o (proj1 Hl)) as Hc.
  destruct (foldl (take_arg (options s)) _ _) as [vals u]. cbn [fst snd] in *.
  destruct (put_loop (options s) vals env Hl) as (e1 & E1 & P1 & P2). unfold ebind at 1 in E. rewrite E1 in E.
  unfold ebind in E. destruct (efor (options s) (convert_value vals) e1) as [e2 [[]|]] eqn:E2; [|done].
  destruct (convert_loop _ _ _ _ Hl E2) as [Q1 Q2].
  destruct (efor (options s) (validate_value vals) e2) as [e3 r] eqn:E3. injection E as <- <- ->.
  destruct (validate_loop _ _ _ _ _ Hv E3) as [-> Hval].
  split; [intros k Hk; by rewrite Q1, P1|]. split.
  - intros o Ho. specialize (Q2 o Ho). specialize (P2 o Ho). rewrite (Hc o Ho) in P2.
    pose proof (Hval eq_refl o) as Hvo. unfold converted in Q2. rewrite (Hc o Ho) in Q2, Hvo.
    exists (chosen values (dict_items given) o). split; [|split; [|intros f Hfo; by apply Hvo]].
    + eapply chosen_chosen_from; [apply Hl|done| |done].
      intros K. apply Hname. rewrite <- K. apply list_elem_of_fmap. by exists o.
    + destruct (chosen values (dict_items given) o) as [v|].
      * destruct (v_converter o) as [c|]; [|congruence]. rewrite P2 in Q2. exact Q2.
      * destruct (v_converter o); congruence.
  - intros a. rewrite Hu. by apply unknown_of_items.
Qed.
End update.

(** ** [Save] and [Update] *)

(** Texts that substitution leaves as they are: no variable, and single blanks
    between words. *)
Definition plain (t : text) : Prop := ("$"%char ∉ t) ∧ PyStr.join (T " ") (split_ws t) = t.
(** What substitution makes of a value with plain texts: the names of a list
    follow each other. *)
Definition subst_text (v : vval) : text :=
  match v with VNames data _ => PyStr.join (T " ") data | v => vstr v end.
Definition plain_value (v : vval) : Prop :=
  match v with VNames data _ => Forall name_ok data | v => plain (vstr v) end.

Lemma split_ws_word t : t ≠ [] → Forall (λ c, is_space c = false) t → split_ws t = [t].
Proof.
  intros Hn Ht. induction Ht as [|c t Hc Ht IH]; [done|]. simpl. rewrite Hc.
  destruct t as [|c' t]; [done|]. rewrite IH by done.
  inversion Ht as [|? ? Hc' _]; subst. by rewrite Hc'.
Qed.
Lemma plain_word t : "$"%char ∉ t → Forall (λ c, is_space c = false) t → plain t.
Proof.
  intros Hd Ht. split; [done|]. destruct t as [|c t]; [done|]. by rewrite split_ws_word.
Qed.

(** What the engine's substitution does with plain values. *)
Class PlainSubst `{VarSubst} := {
  vsubst_plain (e : venv) k v : e !! k = Some v → plain_value v → vsubst e k = subst_text v;
  tsubst_plain (e : venv) t : plain t → tsubst e t = t
}.

(** Two lists of names are the same up to their order. *)
Definition same_value (v w : vval) : Prop :=
  match v, w with
  | VNames data allowed, VNames data' allowed' => data' ≡ₚ data ∧ allowed' = allowed
  | v, w => w = v
  end.

(** What [Update] makes of a value of an option. *)
Definition reload (o : variable) (u : vval) : res exn vval :=
  match v_converter o with Some c => conv1 c (subst_text u) | None => Ok u end.
Definition default_text (o : variable) : text :=
  match v_default o with Some d => vstr d | None => T "None" end.
(** The value of the option survives: what is written for it, or its default when
    their texts agree, is converted to it, and its validator takes it. *)
Record reloads (o : variable) (v : vval) : Prop := {
  rl_plain : plain_value v;
  rl_default_plain : plain (default_text o);
  rl_stored : plain_value (stored v) ∧ ∃ w, reload o (stored v) = Ok w ∧ same_value v w;
  rl_default : ∃ d, (match v_converter o with
                     | Some c => conv1 c (default_text o) | None => Ok (VStr (default_text o)) end) = Ok d ∧
    (subst_text v = vstr d → ∃ dv w, v_default o = Some dv ∧ plain_value dv ∧ reload o dv = Ok w ∧
       same_value v w);
  rl_valid : ∀ f w (e : venv), v_validator o = Some f → same_value v w → e !! v_key o = Some w →
    f (v_key o) (subst_text w) e = (e, Ok tt)
}.

Section save.
Context `{PlainSubst, DictOrder} (run_file : text → option (venv → res exn venv)).
Implicit Types (o : variable) (l : list variable) (env : venv).

(** The line that is written for an option. *)
Definition line_of env o (line : option (text * vval)) : Prop :=
  ∀ v, env !! v_key o = Some v →
    (line = Some (v_key o, stored v) ∧ plain_value (stored v) ∧
       ∃ w, reload o (stored v) = Ok w ∧ same_value v w) ∨
    (line = None ∧ ∃ dv w, v_default o = Some dv ∧ plain_value dv ∧ reload o dv = Ok w ∧ same_value v w).
Lemma save_option_line env o v :
  env !! v_key o = Some v → reloads o v →
  ∃ line, save_option env o = Ok line ∧ line_of env o line.
Proof.
  intros Ev [Hp Hd [Hs Hs'] (d & Ed & Hdef) _]. unfold save_option. rewrite Ev.
  fold (default_text o). rewrite tsubst_plain by done. rewrite Ed.
  eexists. split; [done|]. intros v' [= <-]%(λ E, eq_trans (eq_sym Ev) E).
  rewrite (vsubst_plain env (v_key o) v Ev Hp). case_decide as Ht; [by left|]. right.
  split; [done|]. apply Hdef. destruct (decide (subst_text v = vstr d)); [done|by exfalso].
Qed.
Lemma save_lines env l :
  (∀ o, o ∈ l → ∃ v, env !! v_key o = Some v ∧ reloads o v) →
  ∃ lines, rmap (save_option env) l = Ok lines ∧ Forall2 (line_of env) l lines.
Proof.
  induction l as [|o l IH]; intros Hl; [by exists []|].
  destruct (Hl o) as (v & Ev & Hr); [by left|].
  destruct (save_option_line env o v Ev Hr) as (line & E1 & L1).
  destruct IH as (lines & E2 & L2); [intros o' Ho'; apply Hl; by right|].
  exists (line :: lines). simpl. rewrite E1. simpl. rewrite E2. split; [done|]. by constructor.
Qed.

(** What running the lines gives each option. *)
Definition loaded (values : venv) (lines : list (option (text * vval))) : venv :=
  foldl (λ m '(k, v), <[k := v]> m) values (omap id lines).
Lemma loaded_other values lines k :
  (∀ kv, Some kv ∈ lines → kv.1 ≠ k) → loaded values lines !! k = values !! k.
Proof.
  unfold loaded. revert values. induction lines as [|[[k' v]|] lines IH]; intros values Hk; simpl; [done| |].
  - rewrite IH by (intros kv Hkv; apply Hk; by right). apply lookup_insert_ne.
    apply (Hk (k', v)). by left.
  - apply IH. intros kv Hkv. apply Hk. by right.
Qed.
Lemma line_key env o line v kv : env !! v_key o = Some v → line_of env o line → line = Some kv → kv.1 = v_key o.
Proof. intros Ev Hl ->. destruct (Hl v Ev) as [[[= ->] _] | [[=] _]]. done. Qed.
Lemma lines_keys env l lines kv :
  (∀ o, o ∈ l → is_Some (env !! v_key o)) → Forall2 (line_of env) l lines → Some kv ∈ lines →
  kv.1 ∈ map v_key l.
Proof.
  intros Hl F. induction F as [|o line l lines Hline F IH]; [by intros ?%elem_of_nil|].
  destruct (Hl o) as [v Ev]; [by left|].
  intros [Hk | Hk]%elem_of_cons.
  - rewrite (line_key _ _ _ _ _ Ev Hline (eq_sym Hk)). by left.
  - right. apply IH; [|done]. intros o' Ho'. apply Hl. by right.
Qed.
Lemma loaded_line env l lines values o v :
  NoDup (map v_key l) → (∀ o, o ∈ l → is_Some (env !! v_key o)) → Forall2 (line_of env) l lines →
  o ∈ l → env !! v_key o = Some v → values !! v_key o = v_default o →
  ∃ u w, loaded values lines !! v_key o = Some u ∧ plain_value u ∧ reload o u = Ok w ∧ same_value v w.
Proof.
  intros Hn Hl F Ho Ev Hd. revert values Hd. revert Hn Hl.
  induction F as [|o' line l lines Hline F IH]; intros Hn Hl values Hd; [by apply elem_of_nil in Ho|].
  simpl in Hn. apply NoDup_cons in Hn as [Hno Hn].
  assert (∀ o, o ∈ l → is_Some (env !! v_key o)) as Hl' by (intros o1 Ho1; apply Hl; by right).
  apply elem_of_cons in Ho as [-> | Ho].
  - assert (∀ values, loaded values lines !! v_key o' = values !! v_key o') as Hrest.
    { intros values'. apply loaded_other. intros kv Hkv E. apply Hno. rewrite <- E.
      by eapply lines_keys. }
    destruct (Hline v Ev) as [(-> & Hp & w & Hw & Hs) | (-> & dv & w & Hdv & Hp & Hw & Hs)].
    + exists (stored v), w. split; [|done]. change (loaded (<[v_key o' := stored v]> values) lines !! v_key o' = Some (stored v)).
      rewrite Hrest. apply lookup_insert_eq.
    + exists dv, w. split; [|done]. change (loaded values lines !! v_key o' = Some dv).
      by rewrite Hrest, Hd.
  - assert (v_key o' ≠ v_key o) as Hne.
    { intros E. apply Hno. rewrite E. apply list_elem_of_fmap. by exists o. }
    destruct line as [[k u]|]; [|by apply IH].
    apply (IH Ho Hn Hl' (<[k := u]> values)). rewrite lookup_insert_ne; [done|].
    destruct (Hl o') as [v' Ev']; [by left|].
    pose proof (line_key _ _ _ _ _ Ev' Hline eq_refl) as Ek. simpl in Ek. congruence.
Qed.

(** The loops when every conversion and validation goes well. *)
Lemma convert_loop_ok l values env (R : variable → vval → Prop) :
  all_good l →
  (∀ o, o ∈ l → is_Some (values !! v_key o) ∧
     ∃ u w, env !! v_key o = Some u ∧ plain_value u ∧ reload o u = Ok w ∧ R o w) →
  ∃ env', efor l (convert_value values) env = (env', Ok tt) ∧
    (∀ k, k ∉ map v_key l → env' !! k = env !! k) ∧
    ∀ o, o ∈ l → ∃ w, env' !! v_key o = Some w ∧ R o w.
Proof.
  revert env. induction l as [|o l IH]; intros env Hl Ho; [exists env; set_solver|].
  apply all_good_cons in Hl as (Hk & Hn & Hl).
  destruct (Ho o) as ([v Ev] & u & w & Eu & Hp & Hw & Hr); [by left|].
  assert (∀ o', o' ∈ l → v_key o' ≠ v_key o) as Hne.
  { intros o' Ho' K. apply Hn. rewrite <- K. apply list_elem_of_fmap. by exists o'. }
  assert (∃ env1, convert_value values o env = (env1, Ok tt) ∧
    (∀ k, k ≠ v_key o → env1 !! k = env !! k) ∧ env1 !! v_key o = Some w) as (env1 & E1 & F1 & G1).
  { unfold convert_value. unfold reload in Hw. destruct (v_converter o) as [c|].
    - rewrite Ev, (vsubst_plain env _ u Eu Hp). unfold convert. rewrite Hw, set_item_good by done.
      eexists. split; [done|]. rewrite lookup_insert_eq. split; [|done].
      intros k Hk'. by rewrite lookup_insert_ne.
    - injection Hw as <-. by exists env. }
  destruct (IH env1 Hl) as (env' & E2 & F2 & G2).
  { intros o' Ho'. rewrite F1 by auto. apply Ho. by right. }
  exists env'. simpl. unfold ebind. rewrite E1. split; [done|]. split.
  - intros k [Hko Hkl]%not_elem_of_cons. by rewrite F2, F1.
  - intros o' [-> | Ho']%elem_of_cons; [|by apply G2]. exists w. rewrite F2 by done. done.
Qed.
Lemma validate_loop_ok l values env :
  (∀ o f, o ∈ l → v_validator o = Some f → f (v_key o) (vsubst env (v_key o)) env = (env, Ok tt)) →
  efor l (validate_value values) env = (env, Ok tt).
Proof.
  induction l as [|o l IH]; intros Hv; [done|]. simpl. unfold ebind.
  assert (validate_value values o env = (env, Ok tt)) as ->.
  { unfold validate_value. destruct (v_validator o) as [f|] eqn:Ef; [|done].
    destruct (values !! v_key o); [|done]. apply Hv; [by left|done]. }
  apply IH. intros o' f Ho'. apply Hv. by right.
Qed.
Lemma same_value_plain v w : plain_value v → same_value v w → plain_value w.
Proof.
  destruct v, w; simpl; try by intros ? [=]; subst. intros Hv [Hp _]. by rewrite Hp.
Qed.
(** What [Save] writes of an environment, read by [Update] into any other one,
    gives each variable its value again, lists of names up to their order, whether
    it was written or left out for being its default, when each value by itself
    survives. *)
Lemma save_update_reloads l env env0 filename
    (Hl : all_good l) (Hname : T "__name__" ∉ map v_key l)
    (Hr : ∀ o, o ∈ l → ∃ v, env !! v_key o = Some v ∧ reloads o v)
    (Hfile : ∀ lines, Save env l = Ok lines → run_file filename = Some (run_lines lines)) :
  ∃ lines s' env', Save env l = Ok lines ∧
    Update run_file None (Variables_ l ∅ [filename] ∅, env0) = ((s', env'), Ok tt) ∧
    ∀ o, o ∈ l → ∃ v w, env !! v_key o = Some v ∧ env' !! v_key o = Some w ∧ same_value v w.
Proof.
  destruct (save_lines env l Hr) as (lines & Es & F).
  assert (Save env l = Ok (omap id lines)) as ES by (unfold Save; by rewrite Es).
  assert (∀ o, o ∈ l → is_Some (env !! v_key o)) as Hsome.
  { intros o Ho. destruct (Hr o Ho) as (v & Ev & _). by exists v. }
  exists (omap id lines). unfold Update. cbn [options files args unknown exec_files default].
  rewrite dict_items_empty.
  unfold exec_file. rewrite (Hfile _ ES). unfold run_lines. cbn [rbind default foldl].
  fold (loaded (<[T "__name__" := VStr filename]> (default_values l)) lines).
  set (vals := loaded _ lines).
  assert (vals !! T "__name__" = Some (VStr filename)) as ->.
  { unfold vals. rewrite loaded_other; [apply lookup_insert_eq|].
    intros kv Hkv E. apply Hname. rewrite <- E. by eapply lines_keys. }
  cbn [rbind]. set (vals' := delete _ vals).
  assert (∀ o, o ∈ l → ∃ u w v, env !! v_key o = Some v ∧ vals' !! v_key o = Some u ∧
    plain_value u ∧ reload o u = Ok w ∧ same_value v w) as Hvals.
  { intros o Ho. destruct (Hsome o Ho) as [v Ev].
    assert (T "__name__" ≠ v_key o) as Hne.
    { intros E. apply Hname. rewrite E. apply list_elem_of_fmap. by exists o. }
    destruct (loaded_line env l lines (<[T "__name__" := VStr filename]> (default_values l)) o v)
      as (u & w & Eu & Hu); [apply Hl | done | done | done | done | |].
    - rewrite lookup_insert_ne by done. by apply default_values_get; [apply Hl|].
    - exists u, w, v. unfold vals'. by rewrite lookup_delete_ne. }
  destruct (put_loop l vals' env0 Hl) as (e1 & E1 & _ & P1).
  destruct (convert_loop_ok l vals' e1 (λ o w, ∃ v, env !! v_key o = Some v ∧ same_value v w) Hl)
    as (e2 & E2 & _ & P2).
  { intros o Ho. destruct (Hvals o Ho) as (u & w & v & Ev & Eu & Hp & Hw & Hs).
    split; [by eexists|]. exists u, w. rewrite (P1 o Ho), Eu. naive_solver. }
  assert (efor l (validate_value vals') e2 = (e2, Ok tt)) as E3.
  { apply validate_loop_ok. intros o f Ho Hf. destruct (P2 o Ho) as (w & Ew & v & Ev & Hs).
    destruct (Hr o Ho) as (v' & Ev' & Hv'). assert (v' = v) as -> by congruence.
    rewrite (vsubst_plain e2 _ w Ew) by (eapply same_value_plain; [apply Hv'|done]).
    by apply (rl_valid _ _ Hv' f w e2). }
  unfold ebind. rewrite E1, E2, E3. eexists _, e2. split; [done|]. split; [reflexivity|].
  intros o Ho. destruct (P2 o Ho) as (w & Ew & v & Ev & Hs). by exists v, w.
Qed.
End save.
