(* ===== verification/VariableKinds.v ===== *)
(** * Kinds of variables of the command line ([SCons/Variables])

    That texts, truth values, values of enumerations and lists of names survive
    [Save] and [Update], the theorems on a small project, and what modelling
    showed. *)

From S2P Require Import Prelude Errors NodeState PyStr Env Variables VariablesFacts.
Open Scope nat_scope.

(** ** Values that survive *)

(** A variable without converter, whose validator, if it has one, takes the value. *)
Lemma reloads_text key aliases d v t :
  plain d → plain t → (∀ f e, v = Some f → f key t e = (e, Ok tt)) →
  reloads (Variable_ key aliases (Some (VStr d)) v None) (VStr t).
Proof.
  intros Hd Ht Hv. split; [done | done | | |].
  - split; [done|]. by exists (VStr t).
  - exists (VStr d). split; [done|]. simpl. intros ->. by exists (VStr d), (VStr d).
  - intros f w e [= Hf] Hw _. simpl in Hw. subst w. by apply Hv.
Qed.

(** An [EnumVariable]. *)
Lemma reloads_enum key aliases d allowed m ignorecase t :
  plain d → plain t → enum_converter m ignorecase t = Ok (VStr t) →
  (if decide (1 ≤ ignorecase) then lower t else t) ∈ allowed →
  reloads (Variable_ key aliases (Some (VStr d)) (Some (enum_validator allowed ignorecase))
             (Some (one_argument (enum_converter m ignorecase)))) (VStr t).
Proof.
  intros Hd Ht Hc Ha. split; [done | done | | |].
  - split; [done|]. by exists (VStr t).
  - unfold default_text. cbn [v_default v_converter conv1 one_argument vstr].
    destruct (enum_converter m ignorecase d) as [u|] eqn:E; [|done].
    exists u. split; [done|]. cbn [subst_text vstr]. intros Eu.
    exists (VStr d), (VStr t). split_and!; [done|done| |done]. unfold reload. cbn [v_converter conv1 one_argument subst_text vstr].
    rewrite E. unfold enum_converter in E. injection E as <-. cbn [vstr] in Eu. by rewrite Eu.
  - intros f w e [= <-] Hw _. simpl in Hw. subst w. unfold enum_validator. cbn [subst_text vstr v_key].
    by rewrite decide_True.
Qed.

Lemma plain_bool b : plain (vstr (VBool b)).
Proof.
  apply plain_word; destruct b; [| |apply (bool_decide_unpack _); by vm_compute..];
    apply (bool_decide_unpack _); by vm_compute.
Qed.
Lemma text2bool_str b : _text2bool (vstr (VBool b)) = Ok (VBool b).
Proof. destruct b; vm_compute; reflexivity. Qed.

(** A [BoolVariable] with a default that is a truth value or a text for one. *)
Lemma reloads_bool key aliases dv d b :
  subst_text dv = vstr dv → plain_value dv → plain (vstr dv) → _text2bool (vstr dv) = Ok (VBool d) →
  reloads (Variable_ key aliases (Some dv) (Some bool_validator) (Some (one_argument _text2bool))) (VBool b).
Proof.
  intros Hs Hp Hpt Hd. split.
  - apply plain_bool.
  - exact Hpt.
  - split; [apply plain_bool|]. exists (VBool b). split; [apply text2bool_str|done].
  - exists (VBool d). split; [exact Hd|]. intros E.
    assert (d = b) as -> by (destruct d, b; [done|vm_compute in E; discriminate..|done]).
    exists dv, (VBool b). split_and!; [done|done| |done]. unfold reload. simpl. by rewrite Hs.
  - intros f w e [= <-] Hw Ew. simpl in Hw. subst w. unfold bool_validator. cbn [v_key] in *. by rewrite Ew.
Qed.

Lemma default_list_text names m dt dd allowed :
  Forall name_ok names → list_converter dt names m = Ok (VNames dd allowed) → dd ⊆ names.
Proof.
  intros Hn. assert (nonempty_texts names = names) as En.
  { apply nonempty_texts_id. eapply Forall_impl; [exact Hn|]. by intros x []. }
  unfold list_converter, _ListVariable. case_decide; [intros [= <- _]; set_solver|].
  case_decide; [intros [= <- _]; by rewrite En|].
  set (l := map _ _). destruct (decide (filter (λ v, v ∉ names) l = [])) as [E|]; [|done].
  intros [= <- _] x [_ Hx]%list_elem_of_filter. destruct (decide (x ∈ names)); [done|].
  exfalso. apply (not_elem_of_nil (A:=text) x). rewrite <- E. by apply list_elem_of_filter.
Qed.

Lemma join_space_single data w : Forall name_ok data → Forall (λ c, is_space c = false) w →
  PyStr.join (T " ") data = w → data = [] ∨ data = [w].
Proof.
  intros Hd Hw E. destruct data as [|x [|y l]]; [by left|by right; simpl in E; subst|].
  exfalso. rewrite join_cons in E by done. rewrite <- E in Hw. apply Forall_app in Hw as [_ Hw].
  apply Forall_app in Hw as [Hw _]. apply Forall_inv in Hw. vm_compute in Hw. discriminate.
Qed.
Lemma ListVariable_str_no_space data allowed :
  Forall name_ok data → Forall (λ c, is_space c = false) (ListVariable_str data allowed) ∧
    ("$"%char ∉ ListVariable_str data allowed) ∧ ListVariable_str data allowed ≠ [].
Proof.
  intros Hd. destruct (decide (data = [])) as [->|Hn].
  { simpl. split_and!; [apply (bool_decide_unpack _); by vm_compute|apply (bool_decide_unpack _); by vm_compute|done]. }
  rewrite ListVariable_str_cons by done. case_decide.
  { split_and!; [apply (bool_decide_unpack _); by vm_compute|apply (bool_decide_unpack _); by vm_compute|done]. }
  assert (∀ c, c ∈ PyStr.join (T ",") (sorted data) → is_space c = false ∧ c ≠ "$"%char) as Hc.
  { intros c [Hc | (w & Hw & Hc)]%elem_of_join.
    - apply list_elem_of_singleton in Hc as ->. done.
    - rewrite Forall_forall in Hd. apply (proj1 (elem_of_sorted _ _)) in Hw. destruct (Hd w Hw) as [_ _ Hs Hdl _ _].
      rewrite Forall_forall in Hs. split; [by apply Hs|]. intros ->. done. }
  split_and!.
  - apply Forall_forall. intros c K. by apply Hc.
  - intros K. by apply Hc in K as [_ []].
  - apply (join_data_nonempty (sorted data)); [|done|].
    + apply Forall_forall. intros x Hx. rewrite Forall_forall in Hd. by apply Hd, elem_of_sorted.
    + intros E. apply Hn, Permutation_nil_r. rewrite <- E. symmetry. apply sorted_perm.
Qed.

(** A [ListVariable] whose default is a text. *)
Lemma reloads_list key aliases names m dt dd data :
  Forall name_ok names → (∀ t, t ∈ names → default t (m !! t) = t) → data ⊆ names → plain dt →
  list_converter dt names m = Ok (VNames dd (sorted names)) →
  reloads (Variable_ key aliases (Some (VStr dt)) None
             (Some (one_argument (λ val, list_converter val names m)))) (VNames data (sorted names)).
Proof.
  intros Hn Hm Hd Hpt Hdt. pose proof (data_ok names Hn data Hd) as Hok.
  destruct (ListVariable_str_no_space data (sorted names) Hok) as (K1 & K2 & _).
  destruct (list_converter_str names m Hn Hm data Hd) as (data' & Ed & Hp).
  split; [done | done | | |done].
  - split; [by apply plain_word|]. by exists (VNames data' (sorted names)).
  - exists (VNames dd (sorted names)). split; [exact Hdt|]. intros E. simpl in E.
    exists (VStr dt), (VNames dd (sorted names)). split_and!; [done|done|exact Hdt|].
    split; [|done].
    pose proof (data_ok names Hn dd (default_list_text names m dt dd _ Hn Hdt)) as Hdd.
    destruct (ListVariable_str_no_space dd (sorted names) Hdd) as (K3 & _ & K5).
    destruct (join_space_single data _ Hok K3 E) as [-> | Hdata]; [by simpl in E; rewrite <- E in K5|].
    destruct (decide (dd = [])) as [->|Hne].
    { subst data. apply Forall_singleton in Hok as [_ _ _ _ [] _]. done. }
    rewrite ListVariable_str_cons in Hdata by done. case_decide.
    { subst data. apply Forall_singleton in Hok as [_ _ _ _ _ []]. done. }
    destruct (sorted dd) as [|x [|y l]] eqn:Es.
    + exfalso. apply Hne, Permutation_nil_r. rewrite <- Es. symmetry. apply sorted_perm.
    + assert (data = [x]) as -> by (rewrite Hdata; done).
      rewrite <- Es. symmetry. apply sorted_perm.
    + exfalso. rewrite join_cons in Hdata by done. subst data. apply Forall_singleton in Hok as [_ K _ _ _ _].
      apply K. set_solver.
Qed.

(** ** Saved and read again *)

(** Kinds of variables, and the values that a file keeps for each. *)
Inductive kept : variable → vval → Prop :=
  (** texts that substitution leaves alone, without a converter *)
  | kept_text key aliases d validator t :
      plain d → plain t → (∀ f e, validator = Some f → f key t e = (e, Ok tt)) →
      kept (Variable_ key aliases (Some (VStr d)) validator None) (VStr t)
  (** [BoolVariable], its default a truth value or a word for one *)
  | kept_bool key aliases default d b :
      default = VBool d ∨
        (∃ t, default = VStr t ∧ plain t ∧ lower t ∈ (if d then true_strings else false_strings)) →
      kept (Variable_ key aliases (Some default) (Some bool_validator) (Some (one_argument _text2bool)))
        (VBool b)
  (** [EnumVariable]: an allowed value that its map does not rename *)
  | kept_enum key aliases d allowed m t :
      plain d → plain t → t ∈ allowed → m !! t = None →
      kept (Variable_ key aliases (Some (VStr d)) (Some (enum_validator allowed 0))
              (Some (one_argument (enum_converter m 0)))) (VStr t)
  (** [ListVariable]: some of the names, which its map does not rename, its default
      the word for all or none, or names with commas between *)
  | kept_list key aliases names m d data :
      Forall name_ok names → (∀ t, t ∈ names → m !! t = None) → data ⊆ names →
      plain d → (d = T "all" ∨ d = T "none" ∨ ∃ ns, ns ⊆ names ∧ ns ≠ [] ∧ d = PyStr.join (T ",") ns) →
      kept (Variable_ key aliases (Some (VStr d)) None
              (Some (one_argument (λ val, list_converter val names m)))) (VNames data (sorted names)).

Lemma text2bool_word t d :
  lower t ∈ (if d : bool then true_strings else false_strings) → _text2bool t = Ok (VBool d).
Proof.
  unfold _text2bool. generalize (lower t). intros w Hw. destruct d; [by rewrite decide_True|].
  rewrite decide_False, decide_True; [done|done|].
  assert (Forall (λ w, w ∉ true_strings) false_strings) as Hno by (apply (bool_decide_unpack _); by vm_compute).
  rewrite Forall_forall in Hno. by apply Hno.
Qed.
Lemma list_converter_names names m ns :
  Forall name_ok names → (∀ t, t ∈ names → default t (m !! t) = t) → ns ⊆ names → ns ≠ [] →
  list_converter (PyStr.join (T ",") ns) names m = Ok (VNames ns (sorted names)).
Proof.
  intros Hn Hm Hs Hne. unfold list_converter, _ListVariable.
  rewrite !decide_False by (eapply join_names_word; eauto).
  rewrite (split_names names), (data_nonempty names) by done.
  assert (map (λ v, default v (m !! v)) ns = ns) as ->.
  { rewrite <- (list_fmap_id ns) at 2. apply list_fmap_ext. intros i x Hx.
    apply Hm, Hs. by eapply list_elem_of_lookup_2. }
  rewrite decide_True; [by rewrite (data_nonempty names)|].
  apply list_filter_none, Forall_forall. intros x Hx K. by apply K, Hs.
Qed.
Lemma kept_reloads o v : kept o v → reloads o v.
Proof.
  intros [key aliases d f t Hd Ht Hf | key aliases dv d b Hdv | key aliases d allowed m t Hd Ht Ha Hm
    | key aliases names m d data Hn Hm Hs Hp Hd].
  - by apply reloads_text.
  - destruct Hdv as [-> | (t & -> & Ht & Hw)].
    + apply (reloads_bool _ _ _ d b); [done|apply plain_bool..|apply text2bool_str].
    + apply (reloads_bool _ _ _ d b); [done..|]. by apply text2bool_word.
  - apply reloads_enum; [done..| |done]. unfold enum_converter. simpl. by rewrite Hm.
  - assert (∀ t, t ∈ names → default t (m !! t) = t) as Hm' by (intros t Ht; by rewrite Hm).
    assert (∃ dd, list_converter d names m = Ok (VNames dd (sorted names))) as [dd E].
    { destruct Hd as [-> | [-> | (ns & Hns & Hne & ->)]].
      - eexists. unfold list_converter. rewrite decide_False, decide_True by done. done.
      - by eexists.
      - eexists. by apply list_converter_names. }
    by apply (reloads_list _ _ names m d dd).
Qed.

(** C25: [Save] writes the variables of an environment, and [Update], reading the
    file into any other environment, gives each variable its value again, lists of
    names up to their order, whether it was written or left out for being its
    default.  This holds where the variables are of the kinds and have the values
    of [kept]: a default that is given; texts without a dollar sign and with single
    blanks between words, which substitution leaves as they are; no converter that
    wants the environment; names of lists that the list can be printed with.  Keys
    are distinct names that an environment takes and none is [__name__]. *)
Theorem save_update_roundtrip `{PlainSubst, DictOrder} run_file l env env0 filename
    (Hl : all_good l) (Hname : T "__name__" ∉ map v_key l)
    (Hr : ∀ o, o ∈ l → ∃ v, env !! v_key o = Some v ∧ kept o v)
    (Hfile : ∀ lines, Save env l = Ok lines → run_file filename = Some (run_lines lines)) :
  ∃ lines s' env', Save env l = Ok lines ∧
    Update run_file None (Variables_ l ∅ [filename] ∅, env0) = ((s', env'), Ok tt) ∧
    ∀ o, o ∈ l → ∃ v w, env !! v_key o = Some v ∧ env' !! v_key o = Some w ∧ same_value v w.
Proof.
  apply save_update_reloads; [done..| |done].
  intros o Ho. destruct (Hr o Ho) as (v & Ev & Hk). exists v. split; [done|]. by apply kept_reloads.
Qed.

(** ** A project *)

#[local] Program Instance demo_dict_order : DictOrder := {| dict_items := map_to_list |}.
Next Obligation. done. Qed.

#[local] Instance demo_var_subst : VarSubst := {|
  vsubst e k := match e !! k with Some v => subst_text v | None => [] end;
  tsubst _ t := t
|}.
#[local] Instance demo_plain_subst : PlainSubst.
Proof. split; [|done]. intros e k v Ev _. unfold vsubst. simpl. by rewrite Ev. Qed.

Definition demo_names : list text := map T ["x11"; "gl"].
Definition demo_CC : variable := Variable_ (T "CC") [T "CC"] (Some (VStr (T "gcc"))) None None.
Definition demo_DEBUG : variable :=
  Variable_ (T "DEBUG") [T "DEBUG"] (Some (VBool false)) (Some bool_validator) (Some (one_argument _text2bool)).
Definition demo_LIBS : variable :=
  Variable_ (T "WITH") [T "WITH"] (Some (VStr (T "all"))) None
    (Some (one_argument (λ val, list_converter val demo_names ∅))).
Definition demo_OPT : variable :=
  Variable_ (T "OPT") [T "OPT"] (Some (VStr (T "no"))) (Some (enum_validator (map T ["no"; "full"]) 0))
    (Some (one_argument (enum_converter ∅ 0))).
Definition demo_options : list variable := [demo_CC; demo_DEBUG; demo_LIBS; demo_OPT].
Definition demo_env : gmap text vval :=
  <[T "CC" := VStr (T "clang -m32")]> (<[T "DEBUG" := VBool true]>
    (<[T "WITH" := VNames [T "gl"] (sorted demo_names)]> (<[T "OPT" := VStr (T "full")]> ∅))).

Lemma demo_good : all_good demo_options.
Proof.
  split; [apply (bool_decide_unpack _); by vm_compute|].
  intros o Ho. repeat (apply elem_of_cons in Ho as [-> | Ho]; [by split; vm_compute|]).
  by apply elem_of_nil in Ho.
Qed.
Lemma demo_names_ok : Forall name_ok demo_names.
Proof.
  repeat constructor; try done; try (apply (bool_decide_unpack _); by vm_compute).
Qed.

Lemma demo_plain (t : text) :
  bool_decide (("$"%char ∉ t) ∧ PyStr.join (T " ") (split_ws t) = t) = true → plain t.
Proof. intros Ht. by apply bool_decide_eq_true in Ht. Qed.

Example save_update_roundtrip_witness :
  ∃ s' env', Update (λ _, match Save demo_env demo_options with Ok lines => Some (run_lines lines) | _ => None end)
      None (Variables_ demo_options ∅ [T "saved.conf"] ∅, ∅) = ((s', env'), Ok tt) ∧
    env' !! T "CC" = Some (VStr (T "clang -m32")) ∧ env' !! T "DEBUG" = Some (VBool true).
Proof.
  destruct (save_update_roundtrip
    (λ _, match Save demo_env demo_options with Ok lines => Some (run_lines lines) | _ => None end)
    demo_options demo_env ∅ (T "saved.conf") demo_good) as (lines & s' & env' & _ & E & Hv).
  - apply (bool_decide_unpack _). by vm_compute.
  - intros o Ho. apply elem_of_cons in Ho as [-> | Ho]; [|apply elem_of_cons in Ho as [-> | Ho];
      [|apply elem_of_cons in Ho as [-> | Ho]]].
    + exists (VStr (T "clang -m32")). split; [done|]. apply kept_text; [by apply demo_plain..|done].
    + exists (VBool true). split; [done|]. apply (kept_bool _ _ _ false). by left.
    + exists (VNames [T "gl"] (sorted demo_names)). split; [done|]. apply kept_list.
      * exact demo_names_ok.
      * intros t _. apply lookup_empty.
      * intros x ->%list_elem_of_singleton. by right; left.
      * by apply demo_plain.
      * by left.
    + apply list_elem_of_singleton in Ho as ->. exists (VStr (T "full")). split; [done|].
      apply kept_enum; [by apply demo_plain..|by right; left|apply lookup_empty].
  - by intros lines ->.
  - exists s', env'. split; [exact E|]. split.
    + destruct (Hv demo_CC) as (v & w & Ev & Ew & Hs); [by left|].
      assert (v = VStr (T "clang -m32")) as -> by (vm_compute in Ev; vm_compute; congruence).
      exact (eq_trans Ew (f_equal Some Hs)).
    + destruct (Hv demo_DEBUG) as (v & w & Ev & Ew & Hs); [by right; left|].
      assert (v = VBool true) as -> by (vm_compute in Ev; congruence).
      exact (eq_trans Ew (f_equal Some Hs)).
Defined.

(** Two files, the second of which overrides the first, and a command line that
    overrides both under another name of the variable. *)
Definition demo_CXX : variable := Variable_ (T "CC") [T "CXX"] (Some (VStr (T "gcc"))) None None.
Definition demo_files (f : text) : option (list (text * vval)) :=
  if decide (f = T "a.conf") then Some [(T "CC", VStr (T "icc")); (T "DEBUG", VStr (T "no"))]
  else if decide (f = T "b.conf") then Some [(T "DEBUG", VStr (T "yes"))] else None.
Definition demo_given : gmap text vval := <[T "X" := VStr (T "1")]> (<[T "CXX" := VStr (T "tcc")]> ∅).
Definition demo_declared : list variable := [demo_CXX; demo_DEBUG; demo_OPT].
Definition demo_variables : variables :=
  Variables_ demo_declared ∅ (map T ["a.conf"; "none.conf"; "b.conf"]) ∅.

Lemma demo_declared_good : all_good demo_declared.
Proof.
  split; [apply (bool_decide_unpack _); by vm_compute|].
  intros o Ho. repeat (apply elem_of_cons in Ho as [-> | Ho]; [by split; vm_compute|]).
  by apply elem_of_nil in Ho.
Qed.
Lemma demo_validators (o : variable) (f : validator) (k t : text) (e : gmap text vval) :
  o ∈ demo_declared → v_validator o = Some f → (f k t e).1 = e.
Proof.
  intros Ho Hf. apply elem_of_cons in Ho as [-> | Ho]; [done|].
  apply elem_of_cons in Ho as [-> | ->%list_elem_of_singleton]; injection Hf as <-.
  - unfold bool_validator. by repeat case_match.
  - unfold enum_validator. by case_decide.
Qed.
Lemma demo_name : T "__name__" ∉ keys demo_variables.
Proof. apply (bool_decide_unpack _). by vm_compute. Qed.

Example update_precedence_witness :
  ∃ s' env', Update (λ f, run_lines <$> demo_files f) (Some demo_given) (demo_variables, ∅)
      = ((s', env'), Ok tt) ∧
    env' !! T "CC" = Some (VStr (T "tcc")) ∧ env' !! T "DEBUG" = Some (VBool true) ∧
    unknown s' !! T "X" = Some (VStr (T "1")).
Proof.
  destruct (Update (λ f, run_lines <$> demo_files f) (Some demo_given) (demo_variables, ∅))
    as [[s' env'] r] eqn:E.
  assert (r = Ok tt) as -> by (change r with (s', env', r).2; rewrite <- E; vm_compute; reflexivity).
  exists s', env'. split; [reflexivity|].
  destruct (update_precedence (λ f, run_lines <$> demo_files f) demo_files (λ f, eq_refl) demo_variables
    (Some demo_given) ∅ s' env' demo_declared_good demo_name demo_validators E) as (_ & Hc & Hu).
  clear E.
  split; [|split].
  - destruct (Hc demo_CXX) as (c & Hfrom & Ec & _); [by left|].
    inversion Hfrom as [a v Ha Ea | v Hno _ | Hno _]; subst.
    + apply elem_of_cons in Ha as [-> | ->%list_elem_of_singleton];
        vm_compute in Ea; [injection Ea as <-; exact Ec|discriminate Ea].
    + specialize (Hno (T "CXX")). vm_compute in Hno. discriminate Hno. by left.
    + specialize (Hno (T "CXX")). vm_compute in Hno. discriminate Hno. by left.
  - destruct (Hc demo_DEBUG) as (c & Hfrom & Ec & _); [by right; left|].
    inversion Hfrom as [a v Ha Ea | v Hno Elast | Hno Elast]; subst.
    + apply elem_of_cons in Ha as [-> | ->%list_elem_of_singleton]; vm_compute in Ea; discriminate Ea.
    + vm_compute in Elast. injection Elast as <-. destruct Ec as (env1 & w & E1 & Ew & Ev).
      refine (eq_trans Ev _). unfold vsubst in Ew. simpl in E1, Ew. rewrite E1 in Ew.
      vm_compute in Ew. by injection Ew as <-.
    + vm_compute in Elast. discriminate Elast.
  - rewrite Hu. vm_compute. reflexivity.
Defined.

(** ** What modelling showed *)

(** With [ignorecase] 1 the value is put in lower case and looked for among the
    values as they are written: one in upper case is never accepted. *)
Lemma ignorecase_refuses_upper :
  enum_converter ∅ 1 (T "Yes") = Ok (VStr (T "Yes")) ∧
  (enum_validator [T "Yes"; T "No"] 1 (T "K") (T "Yes") ∅).2 = Raise (ExUserError "Invalid value for option").
Proof. split; vm_compute; reflexivity. Qed.

(** [Update] calls a converter that takes the environment with two arguments,
    [Save] does not. *)
Lemma save_two_arguments f key aliases d v :
  save_option {[key := v]} (Variable_ key aliases (Some d) None (Some (two_arguments f))) =
  Raise (ExOther "TypeError" "takes exactly 2 arguments (1 given)").
Proof. unfold save_option. cbn [v_key]. by rewrite lookup_singleton_eq. Qed.

(** A variable without a default that has the value [None], as a text, is not
    written. *)
Lemma save_None_lost :
  save_option {[T "K" := VStr (T "None")]} (Variable_ (T "K") [] None None None) = Ok None.
Proof. vm_compute. reflexivity. Qed.
