(* ===== verification/PathList.v ===== *)
(** * Search path lists ([SCons/PathList.py])

    A list of directories is read once, each entry classified by whether it needs
    substitution, and kept for later requests; substitution for a target and its
    sources then goes through the classified list.  What [env.subst] gives and
    the other objects in lists are behind [PathWorld].  The theorem: whatever was
    requested before, the directories are those of the entries one by one. *)

From S2P Require Import Prelude Errors NodeState PyStr.
Open Scope nat_scope.

(** An entry: a text, or another object by identity; a list in a variable. *)
Inductive atom := AText (t : text) | AObj (o : nat).
Inductive path_spec := SAtom (a : atom) | SSeq (l : list path_spec).

#[export] Instance atom_eq_dec : EqDecision atom.
Proof. solve_decision. Defined.
#[export] Instance atom_countable : Countable atom.
Proof.
  refine (inj_countable' (λ a, match a with AText t => inl t | AObj o => inr o end)
    (λ x, match x with inl t => AText t | inr o => AObj o end) _). by intros [].
Qed.

(** A directory: a text or a node. *)
Inductive dir_value := DText (t : text) | DNode (n : nid).
Inductive subst_result := SROne (d : dir_value) | SRSeq (l : list dir_value).

(** [env.subst] with [conv=node_conv] of a text in an environment with targets and
    sources; [node_conv] of an
    object, a node or its text: lists are flattened before. *)
Class PathWorld := {
  penv : Type;
  path_subst : penv → list nid → list nid → text → subst_result;
  node_conv : nat → dir_value
}.

Inductive entry_type := TYPE_STRING_NO_SUBST | TYPE_STRING_SUBST | TYPE_OBJECT.
Definition entry : Type := entry_type * atom.

Definition entry_of (a : atom) : entry :=
  match a with
  | AText t => (if decide ("$"%char ∈ t) then TYPE_STRING_SUBST else TYPE_STRING_NO_SUBST, a)
  | AObj _ => (TYPE_OBJECT, a)
  end.

(** [flatten] *)
Fixpoint flatten_spec (p : path_spec) : list atom :=
  match p with SAtom a => [a] | SSeq l => flat_map flatten_spec l end.

(** The keys of the cache: a tuple of entries, or an entry by itself. *)
Abbreviation path_key := (list atom + atom)%type.
Definition _PathList_key (p : path_spec) : path_key :=
  match p with SAtom a => inr a | SSeq l => inl (flat_map flatten_spec l) end.

(** [_PathList(pathlist)] *)
Definition key_atoms (k : path_key) : list atom :=
  match k with
  | inl l => l
  | inr (AText t) => map AText (PyStr.split ":"%char t)
  | inr a => [a]
  end.
Definition _PathList (k : path_key) : list entry := map entry_of (key_atoms k).

(** [PathListCache.PathList]; the cache is passed along. *)
Abbreviation path_cache := (gmap path_key (list entry)).
Definition PathList (p : path_spec) (memo : path_cache) : path_cache * list entry :=
  let k := _PathList_key p in
  match memo !! k with
  | Some e => (memo, e)
  | None => (<[k := _PathList k]> memo, _PathList k)
  end.

Section subst.
Context `{PathWorld} (env : penv) (target source : list nid).

(** [if value: result.append(value)] *)
Definition truthy_dir (d : dir_value) : list dir_value :=
  match d with DText [] => [] | _ => [d] end.
Definition truthy_result (r : subst_result) : list dir_value :=
  match r with SROne d => truthy_dir d | SRSeq l => l end.
(** One turn of the loop; a list from substitution is taken as it is. *)
Definition subst_entry (e : entry) : list dir_value :=
  match e with
  | (TYPE_STRING_SUBST, AText t) => truthy_result (path_subst env target source t)
  | (TYPE_OBJECT, AObj o) => truthy_dir (node_conv o)
  | (_, AText t) => truthy_dir (DText t)
  | (_, AObj _) => []
  end.
Fixpoint subst_path (l : list entry) : list dir_value :=
  match l with
  | [] => []
  | e :: l => subst_entry e ++ subst_path l
  end.

(** ** The directories of a specification *)

(** Each entry by itself, read where it stands. *)
Definition dirs_of_atom (a : atom) : list dir_value :=
  match a with
  | AText t => if decide ("$"%char ∈ t) then truthy_result (path_subst env target source t)
               else truthy_dir (DText t)
  | AObj o => truthy_dir (node_conv o)
  end.
Definition dirs_of (p : path_spec) : list dir_value :=
  match p with
  | SAtom (AText t) => flat_map (λ w, dirs_of_atom (AText w)) (PyStr.split ":"%char t)
  | p => flat_map dirs_of_atom (flatten_spec p)
  end.

Lemma subst_path_atoms l : subst_path (map entry_of l) = flat_map dirs_of_atom l.
Proof.
  induction l as [|a l IH]; [done|]. simpl. rewrite IH. f_equal.
  destruct a as [t|o]; simpl; [|done]. by case_decide.
Qed.
Lemma subst_path_key p : subst_path (_PathList (_PathList_key p)) = dirs_of p.
Proof.
  unfold _PathList. rewrite subst_path_atoms. destruct p as [[t|o]|l]; simpl; [|done|done].
  induction (PyStr.split _ t) as [|w ws IH]; [done|]. simpl. by rewrite IH.
Qed.
End subst.

(** The cache holds what reading the key again would give. *)
Definition cache_ok (memo : path_cache) : Prop := ∀ k e, memo !! k = Some e → e = _PathList k.
Lemma PathList_step p memo :
  cache_ok memo → (PathList p memo).2 = _PathList (_PathList_key p) ∧ cache_ok (PathList p memo).1.
Proof.
  intros Hm. unfold PathList. destruct (memo !! _) as [e|] eqn:E; [by split; [apply Hm|]|].
  split; [done|]. intros k e. cbn [fst]. destruct (decide (k = _PathList_key p)) as [->|Hk].
  - rewrite lookup_insert_eq. by intros [= <-].
  - rewrite lookup_insert_ne by done. apply Hm.
Qed.
Lemma cache_ok_requests l memo : cache_ok memo → cache_ok (foldl (λ m p, (PathList p m).1) memo l).
Proof.
  revert memo. induction l as [|p l IH]; intros memo Hm; [done|]. by apply IH, PathList_step.
Qed.

(** After any requests, [PathList] followed by [subst_path] gives the
    directories of each entry, in order: of a text the parts between colons, of
    nested lists the elements in order, substituted where they hold a variable and
    left out where they are empty. *)
Theorem PathList_directories `{PathWorld} (requests : list path_spec) p env target source :
  let memo := foldl (λ m p, (PathList p m).1) ∅ requests in
  subst_path env target source (PathList p memo).2 = dirs_of env target source p.
Proof.
  intros memo. assert (cache_ok memo) as Hm.
  { apply cache_ok_requests. intros k e. by rewrite lookup_empty. }
  by rewrite (proj1 (PathList_step p memo Hm)), subst_path_key.
Qed.
