(* ===== verification/Scanner.v ===== *)
(** * Scanners ([SCons/Scanner/__init__.py]) and the search for files ([Node/FS.py])

    A classic scanner reads the names of included files off a file, once, searches
    each in a list of directories, and returns the files found in the order of the
    names; [find_file] keeps what it found.  The directories, the contents of
    files and the functions of other scanners are behind [ScanWorld]: they do not
    change while files are scanned. *)

From S2P Require Import Prelude Errors NodeState PyStr PathList.
From stdpp Require Import sorting.
Open Scope nat_scope.

(** What a regular expression finds: the name, or for [ClassicCPP] the bracket and
    the name. *)
Inductive include := Name (t : text) | Bracketed (bracket name : text).
Definition include_name (i : include) : text := match i with Name t | Bracketed _ t => t end.

Class ScanWorld := {
  path_root : nid;
  (** [p.entries] and [p.dir_on_disk]: a directory in a directory *)
  dir_in : nid → text → option nid;
  (** [dir.srcdir_find_file], its first component *)
  file_in : nid → text → option nid;
  get_dir : nid → nid;
  rfile : nid → nid;
  file_exists : nid → bool;
  find_include_names : nid → list include;
  normcase : text → text;
  node_order : nid → nid → bool;
  has_builder_ : nid → bool;
  up_to_date : nid → bool;
  scanner_key : nid → text
}.

(** The memo of [find_file], the attribute [includes] of nodes, and the names no
    file was found for, in the order of the warnings. *)
Record scan_state := ScanState {
  found : gmap (text * list nid) (option nid);
  includes : gmap nid (list include);
  warned : list text
}.
Definition with_found f (s : scan_state) := ScanState (f (found s)) (includes s) (warned s).
Definition with_includes f (s : scan_state) := ScanState (found s) (f (includes s)) (warned s).
Definition with_warned f (s : scan_state) := ScanState (found s) (includes s) (f (warned s)).

Section scan.
Context `{ScanWorld}.

(** [filedir_lookup], with fuel for the components of [fd]. *)
Fixpoint filedir_lookup (fuel : nat) (fd : text) (p : nid) : option nid :=
  match fuel with
  | O => None
  | S fuel =>
      let '(dir, name) := path_split fd in
      match name, dir with
      | [], "/"%char :: _ => Some path_root
      | _, [] => dir_in p name
      | _, _ => match filedir_lookup fuel dir p with None => None | Some p => dir_in p name end
      end
  end.

(** The first directory that has the file. *)
Fixpoint first_in (name : text) (paths : list nid) : option nid :=
  match paths with
  | [] => None
  | d :: paths => match file_in d name with Some n => Some n | None => first_in name paths end
  end.
Definition search (filename : text) (paths : list nid) : option nid :=
  let '(filedir, name) := path_split filename in
  match filedir with
  | [] => first_in name paths
  | _ => first_in name (omap (filedir_lookup (S (length filedir)) filedir) paths)
  end.
Definition find_file (filename : text) (paths : list nid) (s : scan_state) : scan_state * option nid :=
  match found s !! (filename, paths) with
  | Some r => (s, r)
  | None => let r := search filename paths in (with_found (insert (filename, paths) r) s, r)
  end.

(** [find_include] and [sort_key], of [Classic] and [ClassicCPP]. *)
Definition include_paths (i : include) (source_dir : nid) (path : list nid) : list nid :=
  match i with
  | Bracketed b _ => if decide (b = ["034"%char]) then source_dir :: path else path ++ [source_dir]
  | Name _ => source_dir :: path
  end.
Definition find_include (i : include) (source_dir : nid) (path : list nid) : scan_state → scan_state * option nid :=
  find_file (include_name i) (include_paths i source_dir path).
Definition sort_key (i : include) : text :=
  normcase match i with Name t => t | Bracketed b t => b ++ T " " ++ t end.

(** The pairs of a key and a node, sorted. *)
Fixpoint text_before (a b : text) : bool :=
  match a, b with
  | _, [] => false
  | [], _ :: _ => true
  | c :: a, d :: b =>
      if decide (c = d) then text_before a b else bool_decide (nat_of_ascii c < nat_of_ascii d)
  end.
Definition pair_leq (a b : text * nid) : Prop :=
  text_before a.1 b.1 = true ∨ (a.1 = b.1 ∧ (a.2 = b.2 ∨ node_order a.2 b.2 = true)).
#[global] Instance pair_leq_dec : RelDecision pair_leq := λ a b,
  decide (text_before a.1 b.1 = true ∨ (a.1 = b.1 ∧ (a.2 = b.2 ∨ node_order a.2 b.2 = true))).

(** [Classic.scan]: the names, from the node or its contents; the loop over them. *)
Definition include_names (node : nid) (s : scan_state) : scan_state * list include :=
  match includes s !! node with
  | Some l => (s, l)
  | None => let l := find_include_names node in (with_includes (insert node l) s, l)
  end.
Fixpoint find_all (l : list include) (source_dir : nid) (path : list nid) (s : scan_state)
    : scan_state * list (text * nid) :=
  match l with
  | [] => (s, [])
  | i :: l =>
      let '(s, r) := find_include i source_dir path s in
      match r with
      | None => find_all l source_dir path (with_warned (λ w, w ++ [include_name i]) s)
      | Some n => let '(s, nodes) := find_all l source_dir path s in (s, (sort_key i, n) :: nodes)
      end
  end.
Definition Classic_scan (node : nid) (path : list nid) (s : scan_state) : scan_state * list nid :=
  let '(s, l) := include_names node s in
  let '(s, nodes) := find_all l (get_dir node) path s in
  (s, map snd (merge_sort pair_leq nodes)).
(** [_scan], the function of a classic scanner. *)
Definition classic_function (node : nid) (path : list nid) (s : scan_state) : scan_state * list nid :=
  let node := rfile node in
  if file_exists node then Classic_scan node path s else (s, []).

(** ** Scanners in general *)

(** What a scanner function returns: nodes, or other values. *)
Definition raw : Type := nid + text.
(** The function of a scanner: one of the user's, that of a classic scanner, or a
    dictionary of scanners by suffix. *)
Inductive scan_fun :=
| SUser (f : nid → list nid → list raw)
| SClassic
| SDict (d : list (text * nat)).
Record scanner := Scanner_ {
  s_function : scan_fun;
  (** the nodes that [node_class] takes, [None] for no conversion *)
  s_node_class : option (nid → bool);
  s_node_factory : nid → raw → nid;
  s_scan_check : option (nid → bool);
  s_recurse : option (list nid → list nid);
  s_skeys : list text
}.
(** [select]: this scanner, or that of the dictionary for the node. *)
Definition select (table : nat → option scanner) (sc : scanner) (node : nid) : option scanner :=
  match s_function sc with
  | SDict d =>
      match List.find (λ kv, bool_decide (kv.1 = scanner_key node)) d with
      | Some (_, i) => table i
      | None => None
      end
  | _ => Some sc
  end.
(** [current_check] of [Current]. *)
Definition current_check (node : nid) : bool := negb (has_builder_ node) || up_to_date node.
Definition convert_raw (sc : scanner) (node : nid) (l : raw) : raw :=
  match s_node_class sc, l with
  | None, _ => l
  | Some is_class, inl n => if is_class n then l else inl (s_node_factory sc node l)
  | Some _, inr _ => inl (s_node_factory sc node l)
  end.
Definition Base_call (table : nat → option scanner) (sc : scanner) (node : nid) (path : list nid)
    (s : scan_state) : scan_state * res exn (list raw) :=
  if match s_scan_check sc with Some f => negb (f node) | None => false end then (s, Ok [])
  else match select table sc node with
       | None => (s, Raise (ExOther "AttributeError" "argument"))
       | Some sc =>
           match s_function sc with
           | SUser f => (s, Ok (map (convert_raw sc node) (f node path)))
           | SClassic =>
               let '(s, l) := classic_function node path s in
               (s, Ok (map (convert_raw sc node) (map inl l)))
           | SDict _ => (s, Raise (ExOther "TypeError" "not callable"))
           end
       end.
(** [recurse_nodes], [add_skey], [add_scanner]. *)
Definition recurse (sc : scanner) (nodes : list nid) : list nid :=
  match s_recurse sc with Some f => f nodes | None => [] end.
Definition add_skey (skey : text) (sc : scanner) : scanner :=
  Scanner_ (s_function sc) (s_node_class sc) (s_node_factory sc) (s_scan_check sc) (s_recurse sc)
    (s_skeys sc ++ [skey]).
Definition add_scanner (skey : text) (i : nat) (sc : scanner) : res exn scanner :=
  match s_function sc with
  | SDict d => Ok (add_skey skey (Scanner_
      (SDict ((skey, i) :: List.filter (λ kv, negb (bool_decide (kv.1 = skey))) d))
      (s_node_class sc) (s_node_factory sc) (s_scan_check sc) (s_recurse sc) (s_skeys sc)))
  | _ => Raise (ExOther "TypeError" "item assignment")
  end.
(** [Classic.__init__] *)
Definition Classic_init (suffixes : list text) (is_class : nid → bool) (factory : nid → raw → nid) : scanner :=
  Scanner_ SClassic (Some is_class) factory (Some current_check) (Some (λ nodes, nodes)) suffixes.
End scan.
