(* ===== verification/ScannerFacts.v ===== *)
(** * Facts about scanners ([SCons/Scanner/__init__.py])

    What a scan returns depends on the file and the directories only, whatever was
    scanned and searched before, and is sorted by the names. *)

From S2P Require Import Prelude Errors NodeState PyStr PathList Scanner.
From stdpp Require Import sorting.
Open Scope nat_scope.

Section facts.
Context `{ScanWorld}.
Implicit Types (s : scan_state).

(** The length of the name is fuel enough. *)
Lemma filedir_lookup_fuel n m fd p :
  length fd < n → length fd < m → filedir_lookup n fd p = filedir_lookup m fd p.
Proof.
  revert m fd p. induction n as [|n IH]; intros m fd p Hn Hm; [lia|]. destruct m as [|m]; [lia|].
  simpl. destruct (path_split fd) as [dir name] eqn:E.
  destruct (path_split_shorter _ _ _ E) as [Hd | [-> | [-> Hd]]].
  - assert (filedir_lookup n dir p = filedir_lookup m dir p) as -> by (apply IH; lia). done.
  - done.
  - destruct dir as [|c dir]; [done|]. injection Hd as ->. done.
Qed.

(** What is kept of searches and of the contents of files is right. *)
Record memo_ok s : Prop := {
  found_ok : ∀ f paths r, found s !! (f, paths) = Some r → r = search f paths;
  includes_ok : ∀ n l, includes s !! n = Some l → l = find_include_names n
}.
Lemma find_file_spec f paths s :
  memo_ok s →
  (find_file f paths s).2 = search f paths ∧ memo_ok (find_file f paths s).1 ∧
  warned (find_file f paths s).1 = warned s.
Proof.
  intros [Hf Hi]. unfold find_file. destruct (found s !! _) as [r|] eqn:E.
  { split; [by apply Hf|]. by split. }
  split; [done|]. split; [|done]. split; [|exact Hi]. intros g ps r. simpl.
  destruct (decide ((f, paths) = (g, ps))) as [[= <- <-]|Hk].
  - rewrite lookup_insert_eq. by intros [= <-].
  - rewrite lookup_insert_ne by done. apply Hf.
Qed.
Lemma include_names_spec node s :
  memo_ok s →
  (include_names node s).2 = find_include_names node ∧ memo_ok (include_names node s).1 ∧
  warned (include_names node s).1 = warned s.
Proof.
  intros [Hf Hi]. unfold include_names. destruct (includes s !! node) as [l|] eqn:E.
  { split; [by apply Hi|]. by split. }
  split; [done|]. split; [|done]. split; [exact Hf|]. intros n l. simpl.
  destruct (decide (node = n)) as [<-|Hk].
  - rewrite lookup_insert_eq. by intros [= <-].
  - rewrite lookup_insert_ne by done. apply Hi.
Qed.

(** The file that an include stands for. *)
Definition resolve (source_dir : nid) (path : list nid) (i : include) : option nid :=
  search (include_name i) (include_paths i source_dir path).
Definition resolved (source_dir : nid) (path : list nid) (l : list include) : list (text * nid) :=
  omap (λ i, match resolve source_dir path i with Some n => Some (sort_key i, n) | None => None end) l.
Definition unresolved (source_dir : nid) (path : list nid) (l : list include) : list text :=
  map include_name (List.filter (λ i, bool_decide (resolve source_dir path i = None)) l).

Lemma find_all_spec l source_dir path s :
  memo_ok s →
  let r := find_all l source_dir path s in
  r.2 = resolved source_dir path l ∧ memo_ok r.1 ∧
  warned r.1 = warned s ++ unresolved source_dir path l.
Proof.
  revert s. induction l as [|i l IH]; intros s Hs.
  { simpl. unfold unresolved. simpl. rewrite app_nil_r. done. }
  cbn [find_all]. unfold find_include.
  destruct (find_file_spec (include_name i) (include_paths i source_dir path) s Hs) as (E & Hs1 & W1).
  destruct (find_file _ _ s) as [s1 r]. cbn [fst snd] in *. fold (resolve source_dir path i) in E.
  unfold resolved, unresolved. simpl. destruct r as [n|]; rewrite <- E; simpl.
  - specialize (IH s1 Hs1). destruct (find_all l source_dir path s1) as [s2 nodes].
    destruct IH as (IH1 & IH2 & IH3). cbn [fst snd] in *. split; [by rewrite IH1|]. split; [done|].
    by rewrite IH3, W1.
  - assert (memo_ok (with_warned (λ w, w ++ [include_name i]) s1)) as Hs2 by (destruct Hs1; by split).
    destruct (IH _ Hs2) as (IH1 & IH2 & IH3). split; [done|]. split; [done|].
    rewrite IH3. simpl. by rewrite W1, <- app_assoc.
Qed.

Lemma text_before_total a b : text_before a b = true ∨ a = b ∨ text_before b a = true.
Proof.
  revert b. induction a as [|c a IH]; intros [|d b]; simpl; try (by auto).
  destruct (decide (c = d)) as [->|Hcd].
  - rewrite decide_True by done. destruct (IH b) as [? | [-> | ?]]; auto.
  - rewrite decide_False by congruence.
    assert (nat_of_ascii c ≠ nat_of_ascii d) as Hn.
    { intros E. apply Hcd. by rewrite <- (ascii_nat_embedding c), E, ascii_nat_embedding. }
    destruct (decide (nat_of_ascii c < nat_of_ascii d)).
    + left. by rewrite bool_decide_true.
    + right; right. rewrite bool_decide_true by lia. done.
Qed.
Lemma pair_leq_total :
  (∀ a b, node_order a b = true ∨ a = b ∨ node_order b a = true) → Total pair_leq.
Proof.
  intros Hn [k a] [k' b]. unfold pair_leq. simpl.
  destruct (text_before_total k k') as [? | [-> | ?]]; [by left; left| |by right; left].
  destruct (Hn a b) as [? | [-> | ?]]; [left|left|right]; right; auto.
Qed.

(** The first directory of a search path that has a file. *)
Lemma first_in_spec name paths n :
  first_in name paths = Some n ↔
  ∃ before d after, paths = before ++ d :: after ∧ file_in d name = Some n ∧
    ∀ x, x ∈ before → file_in x name = None.
Proof.
  induction paths as [|d paths IH]; simpl.
  { split; [done|]. by intros ([|? ?] & ? & ? & ? & _). }
  destruct (file_in d name) as [m|] eqn:E.
  - split.
    + intros [= ->]. exists [], d, paths. split_and!; [done|done|set_solver].
    + intros ([|x before] & d' & after & [= -> ->] & E' & Hb); [congruence|].
      rewrite Hb in E by (by left). done.
  - rewrite IH. split.
    + intros (before & d' & after & -> & E' & Hb). exists (d :: before), d', after.
      split_and!; [done|done|]. intros x [-> | Hx]%elem_of_cons; auto.
    + intros ([|x before] & d' & after & [= -> ->] & E' & Hb); [congruence|].
      exists before, d', after. split_and!; [done|done|]. intros y Hy. apply Hb. by right.
Qed.
(** ** What an include stands for *)

(** The path [fd] leads from the directory [p], or from the root, component by
    component, to the directory [d]. *)
Inductive leads (p : nid) : text → nid → Prop :=
| leads_root fd dir : path_split fd = ("/"%char :: dir, []) → leads p fd path_root
| leads_entry fd name d : path_split fd = ([], name) → dir_in p name = Some d → leads p fd d
| leads_sub fd dir name q d :
    path_split fd = (dir, name) → dir ≠ [] → name ≠ [] ∨ head dir ≠ Some "/"%char →
    leads p dir q → dir_in q name = Some d → leads p fd d.

(** One step of the search. *)
Lemma filedir_lookup_step n fd p dir name :
  path_split fd = (dir, name) →
  filedir_lookup (S n) fd p =
    if decide (name = [] ∧ head dir = Some "/"%char) then Some path_root
    else match dir with
         | [] => dir_in p name
         | _ => filedir_lookup n dir p ≫= λ q, dir_in q name
         end.
Proof.
  intros E. cbn [filedir_lookup]. rewrite E. case_decide as Hr.
  - destruct Hr as [-> Hd]. destruct dir as [|c dir]; [done|]. by injection Hd as ->.
  - destruct name as [|x name]; [|by destruct dir].
    destruct dir as [|c dir]; [done|]. destruct (decide (c = "/"%char)) as [->|Hc]; [naive_solver|].
    by destruct c as [[] [] [] [] [] [] [] []].
Qed.

Lemma filedir_lookup_leads n fd p d :
  length fd < n → filedir_lookup n fd p = Some d ↔ leads p fd d.
Proof.
  revert fd d. induction n as [|n IH]; intros fd d Hn; [lia|].
  destruct (path_split fd) as [dir name] eqn:E. rewrite (filedir_lookup_step n fd p dir name E).
  case_decide as Hr.
  { destruct Hr as [-> Hd]. destruct dir as [|c dir]; [done|]. injection Hd as ->. split.
    - intros [= <-]. by eapply leads_root.
    - intros Hl. inversion Hl as [? ? E'|? ? ? E'|? ? ? ? ? E' _ Hor]; subst;
        rewrite E in E'; simplify_eq; [done|]. by destruct Hor. }
  destruct dir as [|c dir].
  { split; [intros Hd; by eapply leads_entry|]. intros Hl.
    inversion Hl as [? ? E'|? ? ? E'|? ? ? ? ? E']; subst; rewrite E in E'; by simplify_eq. }
  assert (length (c :: dir) < n) as Hlen.
  { destruct (path_split_shorter _ _ _ E) as [?|[?|?]]; [lia|done..]. }
  split.
  - intros (q & Hq & Hd)%bind_Some. apply IH in Hq; [|done].
    eapply leads_sub; [exact E|done| |exact Hq|exact Hd].
    destruct (decide (name = [])); [right; naive_solver|by left].
  - intros Hl. inversion Hl as [? ? E'|? ? ? E'|? ? ? q ? E' _ Hor Hq Hd]; subst;
      rewrite E in E'; simplify_eq; [naive_solver|].
    apply bind_Some. exists q. split; [by apply IH|done].
Qed.

(** From the directory [d] of the search path, [d'] is where a name with the
    directory part [fd] is looked for. *)
Definition place (fd : text) (d d' : nid) : Prop := match fd with [] => d' = d | _ => leads d fd d' end.

(** Whether an include is looked for beside its file first: a plain name, or a
    name between double quotes. *)
Definition beside (i : include) : Prop :=
  match i with Name _ => True | Bracketed b _ => b = ["034"%char] end.

(** The node is what the first directory that has the file gives: the directory of
    the including file comes before the search path, or after it. *)
Definition stands_for (source_dir : nid) (path : list nid) (i : include) (n : nid) : Prop :=
  ∃ fd name dirs before d after d',
    path_split (include_name i) = (fd, name) ∧
    (beside i → dirs = source_dir :: path) ∧ (¬ beside i → dirs = path ++ [source_dir]) ∧
    dirs = before ++ d :: after ∧ place fd d d' ∧ file_in d' name = Some n ∧
    ∀ x x', x ∈ before → place fd x x' → file_in x' name = None.

(** The search through the directories that a function gives. *)
Lemma first_placed (f : nid → option nid) name dirs n :
  first_in name (omap f dirs) = Some n ↔ ∃ before d after d', dirs = before ++ d :: after ∧
    f d = Some d' ∧ file_in d' name = Some n ∧
    ∀ x x', x ∈ before → f x = Some x' → file_in x' name = None.
Proof.
  induction dirs as [|d dirs IH]; cbn [omap list_omap first_in].
  { split; [done|]. by intros ([|? ?] & ? & ? & ? & ? & _). }
  assert (∀ P : Prop, (first_in name (omap f dirs) = Some n ↔ P) → ∀ Q : Prop, (P ↔ Q) →
    (first_in name (omap f dirs) = Some n ↔ Q)) as Hcut by tauto.
  assert ((∀ d', f d = Some d' → file_in d' name = None) →
    first_in name (omap f dirs) = Some n ↔ ∃ before x after x', d :: dirs = before ++ x :: after ∧
    f x = Some x' ∧ file_in x' name = Some n ∧
    ∀ y y', y ∈ before → f y = Some y' → file_in y' name = None) as Hskip.
  { intros Hd. apply (Hcut _ IH). split.
    - intros (before & x & after & x' & -> & Hx & E & Hb). exists (d :: before), x, after, x'.
      split_and!; [done..|]. intros y y' [->|Hy]%elem_of_cons; [apply Hd|by apply Hb].
    - intros ([|y before] & x & after & x' & [= -> ->] & Hx & E & Hb).
      { rewrite (Hd _ Hx) in E. done. }
      exists before, x, after, x'. split_and!; [done..|]. intros z z' Hz. apply Hb. by right. }
  destruct (f d) as [d'|] eqn:Ef; [|by apply Hskip]. cbn [first_in].
  destruct (file_in d' name) as [m|] eqn:E; [|apply Hskip; by intros ? [= <-]]. split.
  - intros [= ->]. exists [], d, dirs, d'. split_and!; [done..|]. by intros ? ? ?%elem_of_nil.
  - intros ([|y before] & x & after & x' & [= -> ->] & Hx & E' & Hb); [congruence|].
    rewrite (Hb y d' ltac:(left) Ef) in E. done.
Qed.

Lemma resolve_stands source_dir path i n :
  resolve source_dir path i = Some n ↔ stands_for source_dir path i n.
Proof.
  unfold resolve, search, stands_for. destruct (path_split (include_name i)) as [fd name] eqn:E.
  assert (∀ dirs, (beside i → dirs = source_dir :: path) ∧ (¬ beside i → dirs = path ++ [source_dir]) ↔
    dirs = include_paths i source_dir path) as Hdirs.
  { intros dirs. unfold beside, include_paths. destruct i as [t|b t]; [|case_decide]; naive_solver. }
  transitivity (∃ before d after d', include_paths i source_dir path = before ++ d :: after ∧
    place fd d d' ∧ file_in d' name = Some n ∧
    ∀ x x', x ∈ before → place fd x x' → file_in x' name = None).
  - destruct fd as [|c fd]; [rewrite first_in_spec; naive_solver|].
    assert (∀ x x', place (c :: fd) x x' ↔ filedir_lookup (S (length (c :: fd))) (c :: fd) x = Some x') as Hp.
    { intros x x'. cbn [place]. rewrite filedir_lookup_leads; [done|lia]. }
    setoid_rewrite Hp. generalize (filedir_lookup (S (length (c :: fd))) (c :: fd)). intros f.
    generalize (include_paths i source_dir path). intros dirs. apply first_placed.
  - split.
    + intros (before & d & after & d' & Hb). exists fd, name, (include_paths i source_dir path),
        before, d, after, d'. split; [done|]. destruct (proj2 (Hdirs _) eq_refl). by split_and!; try apply Hb.
    + intros (fd' & name' & dirs & before & d & after & d' & Es & Hd1 & Hd2 & Hb). simplify_eq.
      assert (dirs = include_paths i source_dir path) as -> by by apply Hdirs.
      by exists before, d, after, d'.
Qed.
(** The includes that stand for a node, with what they stand for, and the others. *)
Definition hits (l : list (include * option nid)) : list (text * nid) :=
  omap (λ ir, match ir.2 with Some n => Some (sort_key ir.1, n) | None => None end) l.
Definition misses (l : list (include * option nid)) : list text :=
  omap (λ ir, match ir.2 with Some _ => None | None => Some (include_name ir.1) end) l.

Lemma resolved_hits source_dir path l :
  let rs := map (λ i, (i, resolve source_dir path i)) l in
  hits rs = resolved source_dir path l ∧ misses rs = unresolved source_dir path l.
Proof.
  unfold hits, misses, resolved, unresolved. induction l as [|i l [IH1 IH2]]; [done|].
  cbn [map omap list_omap fst snd List.filter]. destruct (resolve source_dir path i) as [n|]; cbn in *;
    rewrite IH1, IH2; done.
Qed.

(** C26: where the files and directories stay as they are during a scan, the memos
    of files found and of includes read are right, and nodes are totally ordered: a
    scan of a file with the directories [path] returns, sorted by the names of the
    includes, the nodes that its includes stand for, one for each include that
    stands for one.  An include stands for what the first directory that has the
    file gives: the directory of the including file first and then [path], if the
    name is plain or between double quotes; [path] first and then that directory,
    if it is in angle brackets; and a directory part of the name is followed down
    from each of them.  The names of the other includes are warned of in the order
    of the file, and the memos are right for later scans. *)
Theorem Classic_scan_sorted node path s
    (Hs : memo_ok s) (Hn : ∀ a b, node_order a b = true ∨ a = b ∨ node_order b a = true) :
  ∃ pairs (rs : list (include * option nid)),
    map fst rs = find_include_names node ∧
    (∀ i n, (i, Some n) ∈ rs → stands_for (get_dir node) path i n) ∧
    (∀ i n, (i, None) ∈ rs → ¬ stands_for (get_dir node) path i n) ∧
    pairs ≡ₚ hits rs ∧ Sorted pair_leq pairs ∧
    (Classic_scan node path s).2 = map snd pairs ∧
    warned (Classic_scan node path s).1 = warned s ++ misses rs ∧
    memo_ok (Classic_scan node path s).1.
Proof.
  set (names := find_include_names node). set (dir := get_dir node).
  exists (merge_sort pair_leq (resolved dir path names)), (map (λ i, (i, resolve dir path i)) names).
  destruct (resolved_hits dir path names) as [-> ->].
  assert (∀ i r, (i, r) ∈ map (λ i, (i, resolve dir path i)) names → r = resolve dir path i) as Hin.
  { intros i r (j & [= -> ->] & _)%list_elem_of_fmap. done. }
  split; [rewrite map_map; apply map_id|].
  split; [intros i n Hi%Hin; by apply resolve_stands|].
  split; [intros i n Hi%Hin Hst%resolve_stands; congruence|].
  split; [apply merge_sort_Permutation|].
  split; [apply Sorted_merge_sort, pair_leq_total, Hn|].
  unfold Classic_scan. destruct (include_names_spec node s Hs) as (E & Hs1 & W1).
  destruct (include_names node s) as [s1 l]. cbn [fst snd] in *. subst l. fold names dir.
  pose proof (find_all_spec names dir path s1 Hs1) as (E2 & Hs2 & W2).
  destruct (find_all names dir path s1) as [s2 nodes]. cbn [fst snd] in *.
  rewrite E2, <- W1. done.
Qed.
End facts.

(** ** A scan *)

(** The file 0 in the directory 10 includes [b.h] between quotes, [a.h] in angle
    brackets and [no.h]; the directories 10 and 11 both have [a.h]. *)
#[local] Instance demo_scan : ScanWorld := {|
  path_root := 9;
  dir_in _ _ := None;
  file_in d name :=
    if decide (name = T "a.h") then (if decide (d = 10) then Some 1 else if decide (d = 11) then Some 2 else None)
    else if decide (name = T "b.h") then (if decide (d = 10) then Some 3 else None) else None;
  get_dir _ := 10;
  rfile n := n;
  file_exists _ := true;
  find_include_names n := if decide (n = 0) then
      [Bracketed ["034"%char] (T "b.h"); Bracketed (T "<") (T "a.h"); Bracketed (T "<") (T "no.h")] else [];
  normcase t := t;
  node_order a b := bool_decide (a < b);
  has_builder_ _ := false;
  up_to_date _ := true;
  scanner_key _ := T ".c"
|}.
Definition scan_start : scan_state := ScanState ∅ ∅ [].

(** [b.h] stands for 3; [<a.h>] is looked for in the directory 11 first. *)
Example Classic_scan_sorted_witness :
  ∃ pairs, Sorted pair_leq pairs ∧ (Classic_scan 0 [11] scan_start).2 = map snd pairs ∧
    stands_for 10 [11] (Bracketed (T "<") (T "a.h")) 2.
Proof.
  destruct (Classic_scan_sorted 0 [11] scan_start) as (pairs & rs & Hrs & Hs & Hns & _ & Hsort & E & _).
  - by split.
  - intros a b. simpl. destruct (Nat.lt_trichotomy a b) as [? | [? | ?]];
      [left; by rewrite bool_decide_true|by right; left|right; right; by rewrite bool_decide_true].
  - exists pairs. split; [exact Hsort|]. split; [exact E|].
    assert (∃ r, (Bracketed (T "<") (T "a.h"), r) ∈ rs) as [r Hr].
    { destruct rs as [|[i1 r1] [|[i2 r2] rs]]; try discriminate Hrs. injection Hrs as -> -> _.
      exists r2. right. left. }
    assert (stands_for 10 [11] (Bracketed (T "<") (T "a.h")) 2) as H2.
    { apply resolve_stands. vm_compute. reflexivity. }
    destruct r as [n|]; [|by destruct (Hns _ 2 Hr)].
    pose proof (Hs _ _ Hr) as Hst. apply resolve_stands in Hst, H2.
    cbn [get_dir demo_scan] in Hst. rewrite H2 in Hst.
    injection Hst as <-. by apply (Hs _ _ Hr).
Defined.

(** ** What modelling showed *)

(** A scanner that is a dictionary raises [AttributeError] for a node whose suffix
    it does not have. *)
Lemma unknown_suffix_raises table sc node path s d :
  s_function sc = SDict d → s_scan_check sc = None → (∀ i, (scanner_key node, i) ∉ d) →
  Base_call table sc node path s = (s, Raise (ExOther "AttributeError" "argument")).
Proof.
  intros Hd Hc Hk. unfold Base_call, select. rewrite Hc, Hd.
  destruct (List.find _ d) as [[k i]|] eqn:E; [|done].
  apply List.find_some in E as [Hin Hb]. apply bool_decide_eq_true in Hb. simpl in Hb. subst k.
  destruct (Hk i). by apply list_elem_of_In.
Qed.
