(* ===== verification/Antglob.v ===== *)
(** * Ant patterns ([devtools/antglob.py] of JsonCpp)

    [ant_pattern_to_re] compiles a pattern for paths to a regular expression; the
    expression is given here by its pieces, with what [re] documents for them, on
    POSIX, where the separator is the slash.  The theorem: for patterns whose
    double stars stand for directories, a path matches exactly when its components
    match those of the pattern one by one. *)

From S2P Require Import Prelude PyStr.
Open Scope nat_scope.

(** ** The compiler *)

(** The alternatives of [_ANT_RE]. *)
Inductive ant_token := TMid | TLead | TTail | TStar | TSlash | TName (w : text).
Definition plain_char (c : ascii) : bool := negb (bool_decide (c = "*"%char)) && negb (bool_decide (c = "/"%char)).
Definition token_literals : list (text * ant_token) :=
  [(T "/**/", TMid); (T "**/", TLead); (T "/**", TTail); (T "*", TStar); (T "/", TSlash)].
Fixpoint literal_token (l : list (text * ant_token)) (p : text) : option (ant_token * text) :=
  match l with
  | [] => None
  | (w, t) :: l => match after w p with Some r => Some (t, r) | None => literal_token l p end
  end.
Definition next_token (p : text) : ant_token * text :=
  match literal_token token_literals p with
  | Some r => r
  | None => let '(w, r) := span plain_char p in (TName w, r)
  end.
(** [_ANT_RE.finditer]; the empty match at the end adds nothing. *)
Fixpoint tokens (fuel : nat) (p : text) : option (list ant_token) :=
  match p with
  | [] => Some []
  | _ => match fuel with
         | O => None
         | S fuel => let '(t, r) := next_token p in
                     match tokens fuel r with Some l => Some (t :: l) | None => None end
         end
  end.

(** [/], an escaped text, [[^/]*], [.*] and [(?:.*/)?]. *)
Inductive rex := RSep | RLit (w : text) | RNoSlash | RAll | ROptAll.
Definition rex_of_token (t : ant_token) : list rex :=
  match t with
  | TMid => [RSep; ROptAll]
  | TLead => [ROptAll]
  | TTail => [RSep; RAll]
  | TStar => [RNoSlash]
  | TSlash => [RSep]
  | TName w => [RLit w]
  end.
Definition ant_pattern_to_re (p : text) : option (list rex) :=
  option_map (flat_map rex_of_token) (tokens (length p) p).

(** All ways to cut a text in two. *)
Fixpoint cuts (t : text) : list (text * text) :=
  ([], t) :: match t with [] => [] | c :: t => map (λ '(a, b), (c :: a, b)) (cuts t) end.
Definition newline : ascii := "010"%char.
Definition no_char (c : ascii) (t : text) : bool := forallb (λ d, negb (bool_decide (d = c))) t.
(** [rex.match(path)]: from the first character; [$] also matches before a newline
    at the end, and a dot no newline. *)
Fixpoint rex_match (r : list rex) (t : text) : bool :=
  match r with
  | [] => bool_decide (t = [] ∨ t = [newline])
  | RSep :: r => match t with c :: t => bool_decide (c = "/"%char) && rex_match r t | [] => false end
  | RLit w :: r => match after w t with Some t => rex_match r t | None => false end
  | RNoSlash :: r => existsb (λ '(a, b), no_char "/"%char a && rex_match r b) (cuts t)
  | RAll :: r => existsb (λ '(a, b), no_char newline a && rex_match r b) (cuts t)
  | ROptAll :: r =>
      rex_match r t ||
      existsb (λ '(a, b), no_char newline a &&
        match b with c :: b => bool_decide (c = "/"%char) && rex_match r b | [] => false end) (cuts t)
  end.

(** [apply_filter], and the test of an entry in [glob_impl]. *)
Definition apply_filter (path : text) (rexs : list (list rex)) : bool := existsb (λ r, rex_match r path) rexs.
Definition entry_included (include exclude : list (list rex)) (path : text) : bool :=
  apply_filter path include && negb (apply_filter path exclude).

Definition ant_match (p path : text) : option bool := option_map (λ r, rex_match r path) (ant_pattern_to_re p).
(** ** What a pattern means *)

(** A component of a pattern: two stars, or a name with single stars. *)
Inductive ant_comp := AStars | AName (w : text).
Definition comp_text (c : ant_comp) : text := match c with AStars => T "**" | AName w => w end.
Definition render (cs : list ant_comp) : text := join (T "/") (map comp_text cs).

(** A name with single stars. *)
Fixpoint no_double_star (w : text) : bool :=
  match w with
  | c :: w => negb (bool_decide (c = "*"%char) &&
                    match w with d :: _ => bool_decide (d = "*"%char) | [] => false end) && no_double_star w
  | [] => true
  end.
Definition comp_ok (c : ant_comp) : Prop :=
  match c with AStars => True | AName w => ("/"%char ∉ w) ∧ no_double_star w = true end.
(** No pair of stars after another, and a single pair is not the whole pattern. *)
Fixpoint comps_ok (cs : list ant_comp) : Prop :=
  match cs with
  | AStars :: ((AStars :: _) as cs) => False
  | c :: cs => comp_ok c ∧ comps_ok cs
  | [] => True
  end.

(** A star of a name stands for any text. *)
Fixpoint name_matches (w t : text) : Prop :=
  match w with
  | [] => t = []
  | c :: w => if decide (c = "*"%char) then ∃ a b, t = a ++ b ∧ name_matches w b
              else ∃ b, t = c :: b ∧ name_matches w b
  end.
(** Two stars stand for any number of directories; at the end for any path below. *)
Fixpoint ant_matches (cs : list ant_comp) (ts : list text) : Prop :=
  match cs with
  | [] => ts = []
  | AName w :: cs => ∃ t ts', ts = t :: ts' ∧ name_matches w t ∧ ant_matches cs ts'
  | [AStars] => ts ≠ []
  | AStars :: cs => ∃ l1 l2, ts = l1 ++ l2 ∧ ant_matches cs l2
  end.
