(* ===== verification/AntglobFacts.v ===== *)
(** * Facts about ant patterns ([devtools/antglob.py] of JsonCpp)

    Every pattern compiles, and the expression of a pattern of components matches
    the paths whose components match. *)

From S2P Require Import Prelude PyStr Antglob.
Open Scope nat_scope.

(** ** Facts about the compiler *)

Lemma span_shorter p t : length (span p t).2 ≤ length t.
Proof.
  pose proof (span_split p t) as E. destruct (span p t) as [a b]. rewrite E, length_app. simpl. lia.
Qed.
Lemma after_spec w t b : after w t = Some b ↔ t = w ++ b.
Proof.
  revert t. induction w as [|c w IH]; intros [|d t]; simpl; [naive_solver..|].
  case_match; rewrite ?IH; naive_solver.
Qed.
(** A star or a slash begins one of the literals. *)
Lemma literal_token_first l p t r :
  literal_token l p = Some (t, r) → ∃ w, (w, t) ∈ l ∧ p = w ++ r.
Proof.
  induction l as [|[w t'] l IH]; simpl; [done|]. destruct (after w p) as [r'|] eqn:E.
  - intros [= -> ->]. exists w. split; [by left|]. by apply after_spec.
  - intros (w' & Hin & Hp)%IH. exists w'. split; [by right|done].
Qed.
Lemma literal_token_none c p : literal_token token_literals (c :: p) = None → plain_char c = true.
Proof.
  unfold plain_char. intros E. destruct (decide (c = "*"%char)) as [->|Hs].
  { exfalso. revert E. cbn. repeat case_match; done. }
  destruct (decide (c = "/"%char)) as [->|Hl].
  { exfalso. revert E. cbn. repeat case_match; done. }
  by rewrite !bool_decide_false.
Qed.
Lemma next_token_shorter c p : length (next_token (c :: p)).2 < length (c :: p).
Proof.
  unfold next_token. destruct (literal_token _ _) as [[t r]|] eqn:E.
  - apply literal_token_first in E as (w & Hin & ->). rewrite length_app. cbn [snd].
    unfold token_literals in Hin. assert (0 < length w); [|lia].
    repeat (apply elem_of_cons in Hin as [[= -> _] | Hin]; [simpl; lia|]). by apply elem_of_nil in Hin.
  - apply literal_token_none in E. simpl. rewrite E. pose proof (span_shorter plain_char p).
    destruct (span plain_char p). simpl in *. lia.
Qed.
Lemma tokens_total n p : length p ≤ n → ∃ l, tokens n p = Some l.
Proof.
  revert p. induction n as [|n IH]; intros [|c p] Hn; simpl in Hn; try lia; [by exists []..|].
  pose proof (next_token_shorter c p) as Hs. cbn [tokens].
  destruct (next_token (c :: p)) as [t r]. simpl in Hs. destruct (IH r) as (l & ->); [lia|]. by eexists.
Qed.
Lemma tokens_fuel n m p : length p ≤ n → length p ≤ m → tokens n p = tokens m p.
Proof.
  revert m p. induction n as [|n IH]; intros m [|c p] Hn Hm; simpl in Hn; try lia;
    [by destruct m..|]. destruct m as [|m]; [simpl in Hm; lia|].
  pose proof (next_token_shorter c p) as Hs. cbn [tokens].
  destruct (next_token (c :: p)) as [t r]. simpl in Hs, Hm. rewrite (IH m r) by lia. done.
Qed.

(** Every pattern compiles: [Invalid ant pattern] is never raised. *)
Definition compiled (p : text) : list rex := default [] (ant_pattern_to_re p).
Lemma ant_pattern_total p : ant_pattern_to_re p = Some (compiled p).
Proof.
  unfold compiled, ant_pattern_to_re. destruct (tokens_total (length p) p) as (l & ->); done.
Qed.
Lemma compiled_step p t r : p ≠ [] → next_token p = (t, r) → compiled p = rex_of_token t ++ compiled r.
Proof.
  intros Hp E. destruct p as [|c p]; [done|]. pose proof (next_token_shorter c p) as Hs. rewrite E in Hs.
  simpl in Hs. unfold compiled, ant_pattern_to_re. cbn [length tokens]. rewrite E.
  rewrite (tokens_fuel (length p) (length r) r) by lia.
  destruct (tokens_total (length r) r) as (l & ->); done.
Qed.

(** ** Matching *)

Lemma cuts_spec t a b : (a, b) ∈ cuts t ↔ t = a ++ b.
Proof.
  revert a. induction t as [|c t IH]; intros a; simpl.
  - rewrite list_elem_of_singleton. split; [by intros [= -> ->]|]. by destruct a, b.
  - rewrite elem_of_cons, list_elem_of_fmap. split.
    + intros [[= -> ->] | ([a' b'] & [= -> ->] & Hin%IH)]; [done|]. by rewrite Hin.
    + destruct a as [|d a]; simpl; [intros ->; by left|]. intros [= -> ->]. right.
      exists (a, b). split; [done|]. by apply IH.
Qed.
Lemma no_char_spec c t : no_char c t = true ↔ c ∉ t.
Proof.
  unfold no_char. rewrite forallb_forall. split.
  - intros Hall Hc. apply list_elem_of_In, Hall in Hc. by rewrite bool_decide_true in Hc.
  - intros Hc x Hx%list_elem_of_In. rewrite bool_decide_false; [done|]. by intros ->.
Qed.
Lemma cut_spec (P : text → text → bool) t :
  existsb (λ '(a, b), P a b) (cuts t) = true ↔ ∃ a b, t = a ++ b ∧ P a b = true.
Proof.
  rewrite existsb_exists. split.
  - intros ([a b] & Hin%list_elem_of_In%cuts_spec & HP). by exists a, b.
  - intros (a & b & E & HP). exists (a, b). split; [|done]. by apply list_elem_of_In, cuts_spec.
Qed.
Lemma match_RNoSlash r t :
  rex_match (RNoSlash :: r) t = true ↔ ∃ a b, t = a ++ b ∧ ("/"%char ∉ a) ∧ rex_match r b = true.
Proof.
  cbn [rex_match]. rewrite (cut_spec (λ a b, no_char "/"%char a && rex_match r b)).
  setoid_rewrite andb_true_iff. by setoid_rewrite no_char_spec.
Qed.
Lemma match_RSep r t : rex_match (RSep :: r) t = true ↔ ∃ b, t = "/"%char :: b ∧ rex_match r b = true.
Proof.
  cbn [rex_match]. destruct t as [|c t]; [naive_solver|]. rewrite andb_true_iff, bool_decide_eq_true.
  naive_solver.
Qed.
Lemma match_RLit w r t : rex_match (RLit w :: r) t = true ↔ ∃ b, t = w ++ b ∧ rex_match r b = true.
Proof.
  cbn [rex_match]. destruct (after w t) as [b|] eqn:E.
  - apply after_spec in E as ->. split; [by exists b|]. intros (b' & Eb & Hb).
    by apply app_inv_head in Eb as ->.
  - split; [done|]. intros (b & Eb%after_spec & _). congruence.
Qed.
Lemma match_end t : newline ∉ t → rex_match [] t = true ↔ t = [].
Proof.
  intros Hn. cbn [rex_match]. rewrite bool_decide_eq_true. split; [|by left].
  intros [-> | ->]; [done|]. destruct Hn. by left.
Qed.
Lemma match_RAll t : newline ∉ t → rex_match [RAll] t = true.
Proof.
  intros Hn. cbn [rex_match]. apply (cut_spec (λ a b, no_char newline a && bool_decide (b = [] ∨ b = [newline]))).
  exists t, []. rewrite app_nil_r. split; [done|]. apply andb_true_iff. split; [by apply no_char_spec|].
  apply bool_decide_eq_true. by left.
Qed.
Lemma match_ROptAll r t :
  newline ∉ t →
  rex_match (ROptAll :: r) t = true ↔
  rex_match r t = true ∨ ∃ a b, t = a ++ "/"%char :: b ∧ rex_match r b = true.
Proof.
  intros Hn. cbn [rex_match]. rewrite orb_true_iff.
  rewrite (cut_spec (λ a b, no_char newline a &&
    match b with c :: b => bool_decide (c = "/"%char) && rex_match r b | [] => false end)).
  split; (intros [? | (a & b & E & Hb)]; [by left|right]).
  - apply andb_true_iff in Hb as [_ Hb]. destruct b as [|c b]; [done|].
    apply andb_true_iff in Hb as [->%bool_decide_eq_true Hb]. by exists a, b.
  - exists a, ("/"%char :: b). split; [done|]. apply andb_true_iff. split.
    + apply no_char_spec. intros Ha. apply Hn. rewrite E. apply elem_of_app. by left.
    + by rewrite bool_decide_true.
Qed.

(** ** Patterns and components *)

Definition at_boundary (rest : text) : Prop := rest = [] ∨ ∃ r, rest = "/"%char :: r.

Lemma plain_char_spec c : plain_char c = true ↔ c ≠ "*"%char ∧ c ≠ "/"%char.
Proof. unfold plain_char. rewrite andb_true_iff, !negb_true_iff, !bool_decide_eq_false. done. Qed.
Lemma name_matches_plain u w t :
  Forall (λ c, plain_char c = true) u →
  name_matches (u ++ w) t ↔ ∃ b, t = u ++ b ∧ name_matches w b.
Proof.
  intros Hu. revert t. induction Hu as [|c u [Hc _]%plain_char_spec Hu IH]; intros t; simpl.
  - split; [by exists t|]. by intros (b & -> & ?).
  - rewrite decide_False by done. setoid_rewrite IH. naive_solver.
Qed.
Lemma name_matches_star w t :
  name_matches ("*"%char :: w) t ↔ ∃ a b, t = a ++ b ∧ name_matches w b.
Proof. done. Qed.
Lemma no_double_star_app u w : no_double_star (u ++ w) = true → no_double_star w = true.
Proof. induction u as [|c u IH]; [done|]. simpl. rewrite andb_true_iff. intros [_ ?]. auto. Qed.

Lemma next_token_star w rest :
  no_double_star ("*"%char :: w) = true → at_boundary rest →
  next_token ("*"%char :: w ++ rest) = (TStar, w ++ rest).
Proof.
  intros Hw Hr. unfold next_token. cbn. destruct (w ++ rest) as [|c p] eqn:E; [done|].
  assert (c ≠ "*"%char) as Hc.
  { destruct w as [|d w]; simpl in *.
    - destruct Hr as [-> | [r ->]]; [done|]. by injection E as <- _.
    - injection E as -> _. intros ->. done. }
  by repeat case_decide; try congruence.
Qed.
Lemma next_token_name c w rest :
  plain_char c = true → "/"%char ∉ w → at_boundary rest →
  ∃ u w', w = u ++ w' ∧ Forall (λ d, plain_char d = true) u ∧
    next_token (c :: w ++ rest) = (TName (c :: u), w' ++ rest).
Proof.
  intros Hc Hw Hr. assert (∃ u w', w = u ++ w' ∧ Forall (λ d, plain_char d = true) u ∧
    match w' with d :: _ => plain_char d = false | [] => True end) as (u & w' & -> & Hu & Hw').
  { clear Hr. induction w as [|d w IH]; [by exists [], []|].
    destruct (plain_char d) eqn:Ed; [|by exists [], (d :: w)].
    destruct IH as (u & w' & -> & Hu & Hw'); [set_solver|]. exists (d :: u), w'. split; [done|].
    split; [by constructor|done]. }
  exists u, w'. split; [done|]. split; [done|]. unfold next_token.
  assert (literal_token token_literals (c :: (u ++ w') ++ rest) = None) as ->.
  { apply plain_char_spec in Hc as [Hc1 Hc2]. cbn. by rewrite !decide_False by congruence. }
  rewrite <- app_assoc. change (c :: u ++ w' ++ rest) with ((c :: u) ++ (w' ++ rest)).
  rewrite span_app; [done|by constructor|].
  destruct w' as [|d w']; [|exact Hw']. destruct Hr as [-> | [r ->]]; done.
Qed.

Lemma cons_nonnil {A} (x : A) l : x :: l ≠ [].
Proof. done. Qed.
(** The part of a pattern up to the next slash. *)
Lemma match_name n w rest t :
  length w ≤ n → "/"%char ∉ w → no_double_star w = true → at_boundary rest →
  rex_match (compiled (w ++ rest)) t = true ↔
  ∃ a b, t = a ++ b ∧ ("/"%char ∉ a) ∧ name_matches w a ∧ rex_match (compiled rest) b = true.
Proof.
  revert w t. induction n as [|n IH]; intros w t Hn Hw Hd Hr.
  { destruct w; [|simpl in Hn; lia]. simpl. split.
    - intros E. exists [], t. split_and!; try done; apply not_elem_of_nil.
    - by intros (a & b & -> & _ & -> & Hb). }
  destruct w as [|c w].
  { simpl. split.
    - intros E. exists [], t. split_and!; try done; apply not_elem_of_nil.
    - by intros (a & b & -> & _ & -> & Hb). }
  simpl in Hn. destruct (decide (c = "*"%char)) as [->|Hc].
  - rewrite <- app_comm_cons.
    rewrite (compiled_step _ _ _ (cons_nonnil _ _) (next_token_star w rest Hd Hr)). cbn [rex_of_token app].
    rewrite match_RNoSlash. simpl in Hd. apply andb_true_iff in Hd as [_ Hd].
    setoid_rewrite (IH w); [|lia|set_solver|done|done]. split.
    + intros (a & b & -> & Ha & a' & b' & -> & Ha' & Hm & Hb). exists (a ++ a'), b'.
      rewrite app_assoc. split; [done|]. split; [set_solver|]. split; [|done].
      apply name_matches_star. by exists a, a'.
    + setoid_rewrite name_matches_star.
      intros (a & b & -> & Ha & (a1 & a2 & -> & Hm) & Hb). exists a1, (a2 ++ b).
      rewrite app_assoc. split; [done|]. split; [set_solver|]. exists a2, b. split; [done|].
      split; [set_solver|done].
  - assert (plain_char c = true) as Hp by (apply plain_char_spec; set_solver).
    destruct (next_token_name c w rest Hp ltac:(set_solver) Hr) as (u & w' & -> & Hu & E).
    rewrite <- app_comm_cons, (compiled_step _ _ _ (cons_nonnil _ _) E). cbn [rex_of_token app].
    rewrite match_RLit. change (c :: u ++ w') with ((c :: u) ++ w') in *.
    setoid_rewrite name_matches_plain; [|by constructor].
    rewrite length_app in Hn. setoid_rewrite (IH w'); [|lia|set_solver|by eapply no_double_star_app|done].
    assert ("/"%char ∉ c :: u) as Hcu.
    { intros K. rewrite Forall_forall in Hu. apply elem_of_cons in K as [<- | K]; [done|].
      by apply Hu, plain_char_spec in K as [_ []]. }
    split.
    + intros (b & -> & a & b' & -> & Ha & Hm & Hb). exists ((c :: u) ++ a), b'.
      rewrite app_assoc. split; [done|]. split; [set_solver|]. split; [by exists a|done].
    + intros (a & b & -> & Ha & (a' & -> & Hm) & Hb). exists (a' ++ b). rewrite app_assoc. split; [done|].
      exists a', b. split; [done|]. split; [set_solver|done].
Qed.

(** ** Texts and their components *)

Lemma split_app_sep a b : split "/"%char (a ++ "/"%char :: b) = split "/"%char a ++ split "/"%char b.
Proof.
  induction a as [|c a IH]; simpl; [done|]. rewrite IH. case_decide; [done|].
  destruct (split "/"%char a) eqn:E; [by destruct (split_nonnil "/"%char a)|done].
Qed.
Lemma join_app sep l1 l2 : l1 ≠ [] → l2 ≠ [] → join sep (l1 ++ l2) = join sep l1 ++ sep ++ join sep l2.
Proof.
  intros H1 H2. induction l1 as [|w l1 IH]; [done|]. destruct l1 as [|w' l1].
  - change ([w] ++ l2) with (w :: l2). by rewrite join_cons.
  - change ((w :: w' :: l1) ++ l2) with (w :: ((w' :: l1) ++ l2)).
    rewrite (join_cons sep w ((w' :: l1) ++ l2)), (join_cons sep w (w' :: l1)), IH by done.
    by rewrite !app_assoc.
Qed.
Lemma render_cons c cs :
  render (c :: cs) = comp_text c ++ match cs with [] => [] | _ => "/"%char :: render cs end.
Proof.
  unfold render. destruct cs as [|c' cs]; [simpl; by rewrite app_nil_r|].
  change (map comp_text (c :: c' :: cs)) with (comp_text c :: map comp_text (c' :: cs)). by rewrite join_cons.
Qed.

Lemma next_token_slash w cs :
  comp_ok (AName w) → next_token ("/"%char :: render (AName w :: cs)) = (TSlash, render (AName w :: cs)).
Proof.
  intros [Hw Hd]. rewrite render_cons. cbn [comp_text].
  set (rest := match cs with [] => [] | _ => _ end).
  assert (at_boundary rest) as Hr by (destruct cs; [by left|right; by eexists]).
  clearbody rest. assert (∀ r, after (T "**") (w ++ rest) ≠ Some r) as Hns.
  { intros r E%after_spec. destruct w as [|c [|d w]]; simpl in *.
    - destruct Hr as [-> | [r' ->]]; done.
    - destruct Hr as [-> | [r' ->]]; done.
    - injection E as -> -> _. done. }
  unfold next_token. cbn [literal_token token_literals].
  assert (∀ u, after (T "/" ++ T "**" ++ u) ("/"%char :: w ++ rest) = None) as Hafter.
  { intros u. destruct (after (T "/" ++ T "**" ++ u) ("/"%char :: w ++ rest)) as [r|] eqn:E; [|done].
    apply after_spec in E. injection E as E. destruct (Hns (u ++ r)). by apply after_spec. }
  change (T "/**/") with (T "/" ++ T "**" ++ T "/"). change (T "/**") with (T "/" ++ T "**" ++ []).
  by rewrite !Hafter.
Qed.

(** ** The meaning of patterns *)

(** Stars before a pattern that begins with a name. *)
Lemma match_stars cs t :
  (∀ t, newline ∉ t → rex_match (compiled (render cs)) t = true ↔ ant_matches cs (split "/"%char t)) →
  ¬ ant_matches cs [] → newline ∉ t →
  rex_match (ROptAll :: compiled (render cs)) t = true ↔
  ∃ l1 l2, split "/"%char t = l1 ++ l2 ∧ ant_matches cs l2.
Proof.
  intros Hcs Hne Hn. rewrite match_ROptAll by done. split.
  - intros [Hm | (a & b & -> & Hm)].
    + exists [], (split "/"%char t). split; [done|]. by apply Hcs.
    + exists (split "/"%char a), (split "/"%char b). split; [apply split_app_sep|].
      apply Hcs; [set_solver|done].
  - intros (l1 & l2 & E & Hm). destruct (decide (l2 = [])) as [->|Hl2]; [done|].
    destruct (decide (l1 = [])) as [->|Hl1].
    + left. apply Hcs; [done|]. by rewrite E.
    + right. exists (join (T "/") l1), (join (T "/") l2).
      assert (t = join (T "/") l1 ++ "/"%char :: join (T "/") l2) as Et.
      { rewrite <- (join_split "/"%char t), E. by apply (join_app (T "/")). }
      split; [done|]. apply Hcs; [rewrite Et in Hn; set_solver|].
      change (T "/") with ["/"%char]. rewrite split_join; [done|done|].
      apply Forall_forall. intros w Hw. apply (elem_of_split _ t). rewrite E. set_solver.
Qed.
Lemma newline_app a b : newline ∉ a ++ b → newline ∉ b.
Proof. set_solver. Qed.
Lemma split_name a b : "/"%char ∉ a → split "/"%char (a ++ "/"%char :: b) = a :: split "/"%char b.
Proof. apply split_app. Qed.
Lemma split_same_name a a' b b' :
  "/"%char ∉ a → "/"%char ∉ a' → a ++ "/"%char :: b = a' ++ "/"%char :: b' → a = a' ∧ b = b'.
Proof.
  intros Ha Ha'. revert a' Ha'. induction a as [|c a IH]; intros [|d a'] Ha' E; simplify_eq/=; [done|set_solver..|].
  destruct (IH ltac:(set_solver) a') as [-> ->]; [set_solver|done|done].
Qed.

(** A name and what follows the slash. *)
Lemma match_name_slash w rest t (Q : list text → Prop) :
  comp_ok (AName w) → newline ∉ t →
  (∀ b, newline ∉ b → rex_match (compiled ("/"%char :: rest)) b = true ↔
     ∃ b', b = "/"%char :: b' ∧ Q (split "/"%char b')) → ¬ Q [] →
  rex_match (compiled (w ++ "/"%char :: rest)) t = true ↔
  ∃ u ts, split "/"%char t = u :: ts ∧ name_matches w u ∧ Q ts.
Proof.
  intros [Hw Hd] Hn HQ Hne. rewrite (match_name (length w)) by (done || (by right; eexists)). split.
  - intros (a & b & -> & Ha & Hm & Hb). apply HQ in Hb as (b' & -> & HQb); [|by apply newline_app in Hn].
    exists a, (split "/"%char b'). by rewrite split_name.
  - intros (u & ts & E & Hm & HQt). destruct (decide (ts = [])) as [->|Hts]; [done|].
    assert (t = u ++ "/"%char :: join (T "/") ts) as ->.
    { rewrite <- (join_split "/"%char t), E. by rewrite join_cons. }
    exists u, ("/"%char :: join (T "/") ts). split; [done|].
    split; [apply (elem_of_split _ _ u (eq_ind_r _ (list_elem_of_here _ _) E))|]. split; [done|].
    apply HQ; [by apply newline_app in Hn|]. eexists. split; [done|].
    change (T "/") with ["/"%char]. rewrite split_join; [done|done|]. apply Forall_forall. intros x Hx.
    apply (elem_of_split _ (u ++ "/"%char :: join (T "/") ts)). rewrite E. set_solver.
Qed.

Lemma ant_pattern_spec n cs t :
  length cs ≤ n → cs ≠ [] → cs ≠ [AStars] → comps_ok cs → newline ∉ t →
  rex_match (compiled (render cs)) t = true ↔ ant_matches cs (split "/"%char t).
Proof.
  revert cs t. induction n as [|n IH]; intros cs t Hlen Hne Hns Hok Hn; [by destruct cs; simpl in *; [|lia]|].
  destruct cs as [|[|w] cs]; [done| |].
  - destruct cs as [|[|w] cs]; [done|done|]. destruct Hok as [_ Hok].
    rewrite render_cons. cbn [comp_text].
    rewrite (compiled_step (T "**" ++ "/"%char :: render (AName w :: cs)) TLead (render (AName w :: cs)))
      by (done || (unfold next_token; cbn; done)).
    cbn [rex_of_token app]. rewrite match_stars; [done| | |done].
    + intros t' Ht'. apply IH; [simpl in *; lia|done|done|done|done].
    + simpl. by intros (? & ? & ? & _).
  - destruct Hok as [Hw Hok]. rewrite render_cons. cbn [comp_text].
    destruct cs as [|[|w'] cs].
    + rewrite (match_name (length w)); [|done|apply Hw|apply Hw|by left]. simpl. split.
      * intros (a & b & -> & Ha & Hm & Hb). apply match_end in Hb as ->; [|by apply newline_app in Hn].
        rewrite app_nil_r. exists a, []. by rewrite split_no_sep.
      * intros (u & ts & E & Hm & ->). pose proof (join_split "/"%char t) as Et. rewrite E in Et.
        simpl in Et. subst u. exists t, []. rewrite app_nil_r. split_and!; [done| |done|done].
        apply (elem_of_split _ t). rewrite E. by left.
    + destruct cs as [|c cs].
      * apply (match_name_slash w (T "**") t (λ ts, ts ≠ [])); [done|done| |by intros []].
        intros b Hb. rewrite (compiled_step ("/"%char :: T "**") TTail []) by done.
        cbn [rex_of_token app]. rewrite match_RSep. split.
        -- intros (b' & -> & _). exists b'. split; [done|]. apply split_nonnil.
        -- intros (b' & -> & _). exists b'. split; [done|]. apply match_RAll. set_solver.
      * destruct c as [|w']; [done|]. destruct Hok as [_ Hok].
        apply (match_name_slash w (render (AStars :: AName w' :: cs)) t
          (λ ts, ∃ l1 l2, ts = l1 ++ l2 ∧ ant_matches (AName w' :: cs) l2)); [done|done| |].
        -- intros b Hb. rewrite (render_cons AStars). cbn [comp_text].
           rewrite (compiled_step ("/"%char :: T "**" ++ "/"%char :: render (AName w' :: cs)) TMid
             (render (AName w' :: cs))) by (done || (unfold next_token; cbn; done)).
           cbn [rex_of_token app]. rewrite match_RSep.
           assert (∀ b', b = "/"%char :: b' → newline ∉ b') as Hb' by (intros b' ->; set_solver).
           assert (∀ b', newline ∉ b' → rex_match (ROptAll :: compiled (render (AName w' :: cs))) b' = true ↔
             ∃ l1 l2, split "/"%char b' = l1 ++ l2 ∧ ant_matches (AName w' :: cs) l2) as Hstars.
           { intros b' Hnb. apply match_stars; [|by intros (? & ? & ? & _)|done].
             intros t' Ht'. apply IH; [simpl in *; lia|done|done|done|done]. }
           split; (intros (b' & E & K); exists b'; split; [done|]; apply Hstars; [by apply Hb'|done]).
        -- intros (l1 & l2 & E & Hm). symmetry in E. apply app_eq_nil in E as [_ ->].
           by destruct Hm as (? & ? & ? & _).
    + apply (match_name_slash w (render (AName w' :: cs)) t (ant_matches (AName w' :: cs))); [done|done| |].
      * intros b Hb. assert (comp_ok (AName w')) as Hw' by (by destruct Hok).
        rewrite (compiled_step ("/"%char :: render (AName w' :: cs)) TSlash (render (AName w' :: cs)))
          by (done || by apply next_token_slash).
        cbn [rex_of_token app]. rewrite match_RSep.
        split; (intros (b' & -> & K); exists b'; split; [done|]; apply IH;
          [simpl in *; lia|done|done|done|set_solver|done]).
      * by intros (? & ? & ? & _).
Qed.

(** C27: a pattern of components, each two stars or a name with single stars
    ([comps_ok]: no two stars after two stars; not two stars alone, which match one
    component only, [lone_stars]), compiles to an expression that matches, of the
    paths without newlines, exactly those whose components match: a name its component, with a star for any text, two stars any number of
    directories, and at the end whatever is below.  Every pattern compiles. *)
Theorem ant_pattern_components cs path
    (Hok : comps_ok cs) (Hne : cs ≠ []) (Hstars : cs ≠ [AStars]) (Hn : newline ∉ path) :
  ∃ r, ant_pattern_to_re (render cs) = Some r ∧
    (rex_match r path = true ↔ ant_matches cs (split "/"%char path)).
Proof.
  exists (compiled (render cs)). split; [apply ant_pattern_total|].
  by apply (ant_pattern_spec (length cs)).
Qed.

Example ant_pattern_components_witness :
  ant_matches [AStars; AName (T "*.py")] [T "a"; T "b"; T "x.py"].
Proof.
  destruct (ant_pattern_components [AStars; AName (T "*.py")] (T "a/b/x.py")) as (r & Er & Hr).
  - split; [done|]. split; [|done]. split; [apply (bool_decide_unpack _); by vm_compute|vm_compute; reflexivity].
  - done.
  - done.
  - apply (bool_decide_unpack _). by vm_compute.
  - apply Hr. injection Er as <-. vm_compute. reflexivity.
Defined.

(** Two stars alone match a single component, though [a/**] matches all below [a]
    and [**/*] everything. *)
Lemma lone_stars :
  map (ant_match (T "**")) [T "a"; T "a/b"] = [Some true; Some false] ∧
  map (ant_match (T "**/*")) [T "a"; T "a/b"] = [Some true; Some true].
Proof. split; vm_compute; reflexivity. Qed.

(** The test cases of the file: a pattern, paths it accepts and paths it rejects. *)
Definition test_cases : list (string * list string * list string) :=
  [("path", ["path"],
     ["somepath"; "pathsuffix"; "/path"; "/path"]);
   ("*.py", ["source.py"; "source.ext.py"; ".py"],
     ["path/source.py"; "/.py"; "dir.py/z"; "z.pyc"; "z.c"]);
   ("**/path", ["path"; "/path"; "/a/path"; "c:/a/path"; "/a/b/path"; "//a/path"; "/a/path/b/path"],
     ["path/"; "a/path/b"; "dir.py/z"; "somepath"; "pathsuffix"; "a/somepath"]);
   ("path/**", ["path/a"; "path/path/a"; "path//"],
     ["path"; "somepath/a"; "a/path"; "a/path/a"; "pathsuffix/a"]);
   ("/**/path", ["/path"; "/a/path"; "/a/b/path/path"; "/path/path"],
     ["path"; "path/"; "a/path"; "/pathsuffix"; "/somepath"]);
   ("a/b", ["a/b"],
     ["somea/b"; "a/bsuffix"; "a/b/c"]);
   ("**/*.py", ["script.py"; "src/script.py"; "a/b/script.py"; "/a/b/script.py"],
     ["script.pyc"; "script.pyo"; "a.py/b"]);
   ("src/**/*.py", ["src/a.py"; "src/dir/a.py"],
     ["a/src/a.py"; "/src/a.py"])].
Example test_matching :
  forallb (λ '(p, accepted, rejected),
    forallb (λ t, bool_decide (ant_match (T p) (T t) = Some true)) accepted &&
    forallb (λ t, bool_decide (ant_match (T p) (T t) = Some false)) rejected) test_cases = true.
Proof. vm_compute. reflexivity. Qed.
